(* ===== verification/_CoqProject ===== *)
-Q . S2P
Prelude.v
Text.v
GroupAlignment.v
LedgerIdentity.v
LedgerSpans.v
CaptureEvidence.v
CaptureEnergy.v
CaptureEnergyFacts.v
LedgerState.v
LedgerCoverage.v
LedgerDecision.v
LedgerDecisionFacts.v
LedgerSeal.v
LedgerSealFacts.v
LedgerEvidence.v
LedgerEvidenceFacts.v
LedgerDocument.v
LedgerDocumentFacts.v
LedgerSession.v
WordLabels.v
WordGeometry.v
DecodeFences.v
DecodeFencesFacts.v
WordEvidence.v
WordComponents.v
WordDecision.v
WordDecisionFacts.v
WordTrials.v
WordTrialsFacts.v
HotkeyConfig.v
HotkeyDetector.v
HotkeyFacts.v
HotkeyGestures.v
BTree.v
AgentPermissions.v
AgentPermissionsFacts.v
Json.v
SecretPaths.v
Redaction.v
RedactionFacts.v
AgentGate.v
AgentGateFacts.v
ApprovalBroker.v
ApprovalBrokerFacts.v
AgentTypes.v
ToolOutput.v
ToolSummary.v
AgentTurn.v
AgentTurnFacts.v
ConsultationJournal.v
ConsultationJournalFacts.v
TypographicQuotes.v
DeliveryRoute.v
SpeechIslands.v
LiveAudioBuffer.v
CaptureWindows.v
CaptureWindowsFacts.v
SpeechProgress.v
SpeechProgressFacts.v
ConsultationInput.v
ConsultationInputFacts.v
JsonFields.v
BusStorage.v
BusStorageFacts.v
TranscriptProjection.v
TranscriptProjectionFacts.v
ThreadRecord.v
ThreadRecordFacts.v
ConsultationHistory.v
ConsultationHistoryFacts.v
ThreadIndex.v
ThreadIndexFacts.v
StateError.v
ThreadStore.v
ThreadDelivery.v
ThreadStoreFacts.v
RunMonitor.v
RunMonitorFacts.v
