(* ===== verification/Prelude.v ===== *)
(** Codescribe: a verification library for the dictation and agent core.

    Codescribe listens while a hotkey is held, writes what was said, delivers
    the text, and can hand it to an agent that runs tools.  This library
    translates the parts of the Rust source that decide something and proves
    what they promise.  Effects (devices, windows, networks, models, files) stay
    outside: they appear as arguments, as classes or as steps of a run.

    * The parts and how they interact

    - Gestures.  Key events enter [HotkeyDetector::feed]; it emits the events
      that start and stop a session, under the settings mirrored in atomics.
    - The acoustic ledger.  Every recognizer of a session offers observations of
      ranges of samples.  The ledger decides which label an occurrence holds,
      leaves one receipt per offer, and seals occurrences and captures.
    - Speech islands.  Measured speech is joined into islands, on which words
      are placed.
    - The capture.  The session keeps a ring of samples, plans the windows that
      are decoded, and watches that speech is followed by text.
    - Delivery.  The finished text goes where the intent frozen at the start and
      the caret at the end allow; quotes are set for the reader on the way.
    - The agent.  A turn streams from a provider, collects the tool calls, asks
      the gate for each, parks the doubtful ones at the approval broker, runs
      the cleared ones and spills long results.
    - Consultations.  Sealed speech becomes candidates, which are journalled
      before they run, so that a crash never runs one twice.
    - Threads.  A finished turn is delivered into its thread, which is one file
      and a row of the index; a reopened consultation reads the file back.
      Monitors of external runs post heartbeats into their threads.
    - The transcript bus.  What a session decides is written as lines; readers
      of any process turn the lines into projections.

    * The files

    Foundations
    - Prelude: machine integers, fallible code, the tactics and generic lemmas.
    - Text: [str] as UTF-8 bytes (trimming, words, case of ASCII).
    - BTree: [BTreeMap] with string keys.  Json, JsonFields: JSON values and the
      typed reading of their fields.
    - StateError: programs over a state that may fail and keep the state, with
      the rules for what they preserve.

    The acoustic ledger (core/pipeline/acoustic_ledger.rs and its directory)
    - LedgerIdentity: occurrences, observations, [relate],
      [declared_ranges_share_word].
    - LedgerState: the records; [AcousticLedger] has the fields the modelled
      operations read or write.
    - LedgerSpans: [record_complete_decode_span], [complete_decode_covers].
    - LedgerCoverage: text debt, [assess_seal_coverage].
    - LedgerDecision, LedgerDecisionFacts: [decide_observation], [admit] and the
      admissions that cannot mutate, receipts, [conservation].
    - LedgerSeal, LedgerSealFacts: frontier, [mint_seal], [seal],
      [seal_terminal], [terminal_finality].
    - LedgerEvidence, LedgerEvidenceFacts: [qualify], serials, word pins,
      [compose], derivations, cumulative finals.
    - LedgerDocument, LedgerDocumentFacts: manual revisions, consultation
      presentations, incremental shapings.
    - LedgerSession: all of the above as one step relation.
    - GroupAlignment: [preserve_group_content] (slot_ops.rs).

    Words (acoustic_ledger/word_adjudication.rs, slot_ops.rs, speech_anchor.rs)
    - WordLabels: [label_equal], negation contexts, [context_quality].
    - WordGeometry: bursts, spelling lineage, which word a pin targets.
    - DecodeFences, DecodeFencesFacts: whether a decode cut a word, and what a
      decode that returned no word accounts for.
    - WordEvidence: staged pins, hypotheses, the frames a component has heard.
    - WordComponents: hypotheses of an observation, grouping and splitting.
    - WordDecision, WordDecisionFacts: [adjudicate_word_sources],
      [remember_word_outputs].
    - WordTrials, WordTrialsFacts: trials, their horizon, replay, and the
      witnesses formatting may read.

    Capture evidence (core/audio/capture_receipt.rs)
    - CaptureEvidence: identities and availability.
    - CaptureEnergy, CaptureEnergyFacts: the hop clock, its writer and readers.

    Speech and text
    - SpeechIslands (core/pipeline/speech_islands.rs): [join_speech_islands],
      [words_per_island].
    - TypographicQuotes (core/util/typographic_quotes.rs).
    - DeliveryRoute (app/controller/delivery_route.rs).

    The capture (core/pipeline/streaming/)
    - LiveAudioBuffer (live_audio_buffer.rs): the ring of retained samples.
    - CaptureWindows, CaptureWindowsFacts (layer1_window.rs): the window plan.
    - SpeechProgress, SpeechProgressFacts (speech_progress.rs): speech that no
      text has followed yet.

    Gestures (app/os/hotkeys/, core/config/types.rs)
    - HotkeyConfig: settings, the packed atomics, the widget chord on the wire.
    - HotkeyGestures: the compare-exchange loop of [update_gesture_bits].
    - HotkeyDetector, HotkeyFacts: [feed], [poll], [observe_hid_key_down].

    The agent (core/agent/)
    - AgentPermissions, AgentPermissionsFacts (permissions.rs, tool_grants.rs).
    - SecretPaths, Redaction, RedactionFacts (secret_paths.rs, redaction.rs).
    - AgentGate, AgentGateFacts (registry.rs).
    - ApprovalBroker, ApprovalBrokerFacts (approval.rs).
    - AgentTypes, AgentTurn, AgentTurnFacts (types.rs, event.rs, provider.rs,
      session.rs), ToolOutput (tool_output.rs), ToolSummary (session.rs).
    - ConsultationJournal, ConsultationJournalFacts
      (thread_store/consultation.rs, the owner loop of consultation.rs).
    - ConsultationInput, ConsultationInputFacts (consultation.rs and the capture
      thread of streaming/apple_live_session.rs): candidates and their queue.

    Threads (core/agent/)
    - ThreadRecord, ThreadRecordFacts (thread_store.rs): messages as JSON, both
      ways of reading them back, titles.
    - ConsultationHistory, ConsultationHistoryFacts (thread_delivery.rs): the
      check that every tool call is answered once.
    - ThreadIndex, ThreadIndexFacts (thread_index.rs, conversation_search.rs).
    - ThreadStore, ThreadDelivery, ThreadStoreFacts (thread_store.rs,
      thread_delivery.rs): the operations on the disk.
    - RunMonitor, RunMonitorFacts (run_monitor.rs, app/agent/monitor.rs).

    The transcript bus (app/presentation/)
    - BusStorage, BusStorageFacts (bus_generation.rs): lines, chunks, shared
      revisions.
    - TranscriptProjection, TranscriptProjectionFacts
      (transcript_projection.rs): bytes to projections.

    * How state and operations correspond

    A struct is a [Record] with a field prefix of its own ([lg_] for the ledger,
    [hd_] for the detector) and functional update; an enum is an [Inductive]
    with the source's constructors, prefixed where Rust has a path.  A method on
    [&mut self] returns the new state, with its result; [Result] is a sum with
    [let?] for [?].  A [BTreeMap] or [HashMap] is a [gmap] where only lookups
    matter and the list of BTree where the order is seen.  An unsigned integer is
    a [Z] with its saturating, checked or wrapping operation written out; a float
    is its bit pattern.  Concurrency is a list of steps, each one critical
    section or one atomic access.

    * Interfaces

    What the source takes from elsewhere is a class or a section variable, and
    every theorem about it holds for all of its implementations: the character
    tables of Unicode ([CharTables]), the word-evidence modules the whole-label
    lane asks ([WordDebt]), the deterministic text pass ([LightPlus]), SHA-256,
    the parser and printer of serde_json ([Codec], [RowCodec]), the letters and
    clusters of Unicode ([Letters], [Graphemes]), the files of watched runs, the one-shot channel, the provider and
    the machine of a turn ([Machine] over a world [W]), and the outcome of each
    write to disk.  Where a law is needed it is a named hypothesis, and the
    witness of the theorem instantiates it.

    * What the theorems show

    - The ledger: one receipt per offer; seals are minted only over closed and
      answered evidence, are never withdrawn and freeze their label; a final
      capture is sealed in every occurrence; the coverage receipt is exact as a
      set of samples; decoded spans and window queries agree with their plain
      definitions.
    - Words: a label spoken by Whisper alone changes a word only with two
      different frames behind it, so replaying one frame never helps; trial
      identities are never used twice, replay of an opened trial reaches the
      same state, and the horizon always closes; an empty decode accounts for
      exactly the speech its ranges chain over.
    - Capture energy: the hop clock is a function of the samples, not of the
      blocks they came in; range queries answer exactly; an anchor reported
      closed never changes (at rates that are a multiple of 50).
    - Gestures: hold events alternate; the toggle fires only on a clean double
      tap; settings survive their packings and concurrent updates.
    - The agent: only cleared calls run; a yes comes from a card for exactly that
      call; no card without a waiter and no waiter without a way to its answer;
      redaction does not depend on secrets; the durable policy is the one the
      operator set; a turn ends within its guard and leaves whole tool rounds.
    - The capture: a window is a slice of it; a finished plan heard all of it
      and the loop after Stop finishes the plan; speech without text is exactly
      the set of samples that is owed.
    - Consultations: a candidate states exactly what the ledger holds; executed
      groups and measured silence tile the capture, so that nothing said runs
      twice; nothing executes while speech is open; no turn executes twice whatever fails; a failed write closes
      the owner; a restart opens it again.
    - Delivery: an automatic paste happens exactly where the mode, the caret and
      the executable-content guard admit it; quotes change only outside code.
    - Islands: exactly the measured speech, apart by the gap; each word on the
      island it overlaps most.

    - Threads: a consultation that was delivered is read back word for word; a
      message keeps everything but image bytes; a title that has an owner is
      never derived again; the index lists exactly the stored threads, newest
      first, favourites kept, and its rows are bounded; the history check
      accepts exactly the histories in which every call is answered once, and a
      turn that ends keeps it accepted.
    - Run monitors: a thread is told news only, a terminal state once and last,
      and nothing from a cancelled monitor.
    - The bus: projections come in order, a displaced session never returns, the
      split of the bytes does not matter, and what is encoded is decoded.

    * Bounds and fuel

    Recursion is structural on lists and strings.  The turn loop is bounded by
    the source's own guard ([max_iterations]) and its stream opening by its two
    attempts; termination is a theorem about those counters, without fuel.  The
    compare-exchange loop is a step relation, with a theorem that a writer can
    always finish.  Loops over ranges are recursions on the list of ranges.  The loop that
    drains the window plan takes fuel; a theorem says how much always finishes it.
    Reading lines and stripping markers take the length of the text as fuel;
    every round consumes a byte of it.

    * Not modelled

    - Of the ledger: [admit_word_slots] and its partition of slots, the
      normalization of pins onto bursts, deferred edge words, stamped witnesses,
      group coverage; the latest island evidence, the trail input and the energy
      lookup counter, which no modelled operation reads.
    - Float signal processing: the RMS of a block is an argument; decibels,
      syllable nuclei and voice probabilities are left out.
    - The streaming sessions, recognizers, network clients, windows, event taps,
      and the Swift bridge: they are effects around this core.  Files appear as
      maps whose writes may fail; their atomic replacement, symbolic links and
      the rotation of the bus are left out.
    - Log lines and telemetry text.

    * Plan

    Next: the partition of word slots in the ledger; admission readiness of a
    capture; the audio chunker; the Light+ text pass; then the state machine of
    the streaming session over them. *)

From Stdlib Require Export ZArith Lia Bool List.
From stdpp Require Export base decidable option list numbers gmap strings sorting.
From coqutil Require Export Datatypes.RecordSettersUsingExistingGetters.

#[global] Open Scope Z_scope.
#[export] Set Warnings "-clear-no-such-hyp".

(* ------------------------------------------------------------------ *)
(** ** Machine integers

    A Rust [u64] is a [Z] in [0, 2^64).  The source uses saturating and
    checked operations; each is written out with its bound. *)

#[global] Arguments RecordSettersUsingExistingGetters.const {E} newValue _ /.

Declare Scope mach_scope.
Delimit Scope mach_scope with mach.

Definition u64_max : Z := 2 ^ 64 - 1.
Definition u32_max : Z := 2 ^ 32 - 1.
Definition u16_max : Z := 2 ^ 16 - 1.
Definition u8_max : Z := 255.

Definition is_u64 (z : Z) : Prop := 0 <= z <= u64_max.
Definition is_u32 (z : Z) : Prop := 0 <= z <= u32_max.
Definition is_u16 (z : Z) : Prop := 0 <= z <= u16_max.

(** [a.saturating_sub(b)] on any unsigned width. *)
Definition sat_sub (a b : Z) : Z := Z.max 0 (a - b).

(** [a.saturating_add(b)] on [u64]. *)
Definition sat_add (a b : Z) : Z := Z.min u64_max (a + b).

(** [a.saturating_mul(b)] on [u64]. *)
Definition sat_mul (a b : Z) : Z := Z.min u64_max (a * b).

(** [a.checked_add(b)] on [u64]. *)
Definition checked_add (a b : Z) : option Z :=
  if a + b <=? u64_max then Some (a + b) else None.

(** [a.checked_sub(b)] on an unsigned width. *)
Definition checked_sub (a b : Z) : option Z :=
  if b <=? a then Some (a - b) else None.

(** [a.wrapping_add(b)] on [u64]. *)
Definition wrap_add (a b : Z) : Z := (a + b) `mod` 2 ^ 64.

Infix "-sat" := sat_sub (at level 50, left associativity) : mach_scope.
Infix "+sat" := sat_add (at level 50, left associativity) : mach_scope.

#[global] Instance is_u64_dec z : Decision (is_u64 z).
Proof. unfold is_u64; apply _. Defined.

(* ------------------------------------------------------------------ *)
(** ** Fallible code

    A [Result<T, E>] is the sum [E + T]; [let?] is the [?] operator. *)

Notation "'let?' p := e 'in' k" :=
  (match e with inl err => inl err | inr p => k end)
  (at level 10, p pattern, e at level 200, k at level 200) : mach_scope.

(* ------------------------------------------------------------------ *)
(** ** Tactics *)

Create HintDb s2p.
Create Rewrite HintDb s2p.

(** Unfold the machine arithmetic and decide with [lia]. *)
Ltac mach :=
  unfold sat_sub, sat_add, sat_mul, checked_add, checked_sub, wrap_add,
    is_u64, is_u32, is_u16, u64_max, u32_max, u16_max, u8_max in *; try lia.

(** Turn boolean tests on [Z] in hypotheses and goal into propositions. *)
Ltac zbool :=
  repeat match goal with
  | H : _ && _ = true |- _ => apply andb_true_iff in H as [? ?]
  | H : _ || _ = false |- _ => apply orb_false_iff in H as [? ?]
  | H : negb _ = true |- _ => apply negb_true_iff in H
  | H : negb _ = false |- _ => apply negb_false_iff in H
  | H : (_ <=? _) = true |- _ => apply Z.leb_le in H
  | H : (_ <=? _) = false |- _ => apply Z.leb_gt in H
  | H : (_ <? _) = true |- _ => apply Z.ltb_lt in H
  | H : (_ <? _) = false |- _ => apply Z.ltb_ge in H
  | H : (_ =? _) = true |- _ => apply Z.eqb_eq in H
  | H : (_ =? _) = false |- _ => apply Z.eqb_neq in H
  | H : bool_decide _ = true |- _ => apply bool_decide_eq_true in H
  | H : bool_decide _ = false |- _ => apply bool_decide_eq_false in H
  end.

(** Split on the scrutinee of every [if] and [match] of the goal. *)
Ltac case_match_goal :=
  repeat match goal with
  | |- context [if ?b then _ else _] => destruct b eqn:?
  | |- context [match ?x with _ => _ end] => destruct x eqn:?
  end.

(* ------------------------------------------------------------------ *)
(** ** Lists *)

Section lists.
  Context {A B : Type}.

  (** [iter().any(p)] and [iter().all(p)]. *)
Lemma existsb_false (p : A → bool) l :
    existsb p l = false ↔ ∀ x, x ∈ l → p x = false.
  Proof.
    split.
    - intros He x Hx. destruct (p x) eqn:Hp; [|done].
      assert (existsb p l = true) by
        (apply existsb_exists; exists x; split; [by apply list_elem_of_In|done]).
      congruence.
    - intros Hall. destruct (existsb p l) eqn:He; [|done].
      apply existsb_exists in He as (x & Hx & Hp).
      apply list_elem_of_In in Hx. rewrite Hall in Hp; [done|done].
  Qed.

Lemma existsb_true (p : A → bool) l :
    existsb p l = true ↔ ∃ x, x ∈ l ∧ p x = true.
  Proof.
    rewrite existsb_exists.
    split; intros (x & Hx & Hp); exists x; split; auto; by apply list_elem_of_In.
  Qed.

Lemma forallb_true (p : A → bool) l :
    forallb p l = true ↔ ∀ x, x ∈ l → p x = true.
  Proof.
    rewrite forallb_forall. split; intros H x Hx; apply H; by apply list_elem_of_In.
  Qed.
End lists.

Section take_drop.
  Context {A : Type}.

Lemma elem_take n (l : list A) x : x ∈ take n l → x ∈ l.
  Proof. intros. rewrite <- (take_drop n l). apply elem_of_app. by left. Qed.

Lemma elem_drop n (l : list A) x : x ∈ drop n l → x ∈ l.
  Proof. intros. rewrite <- (take_drop n l). apply elem_of_app. by right. Qed.

Lemma Forall_elem (P : A → Prop) l x : Forall P l → x ∈ l → P x.
  Proof. rewrite Forall_forall. auto. Qed.
End take_drop.

Lemma sorted_lookup {A} (R : relation A) l a b x y :
  StronglySorted R l → l !! a = Some x → l !! b = Some y → (a < b)%nat → R x y.
Proof.
  intros Hs. revert a b. induction Hs as [|w l Hs IH Hall]; intros a b Ha Hb Hlt; [done|].
  destruct b as [|b]; [lia|]. destruct a as [|a]; simpl in *.
  - simplify_eq. rewrite Forall_forall in Hall. apply Hall. by eapply list_elem_of_lookup_2.
  - apply (IH a b); [done..|lia].
Qed.

(** Sum of a list of integers, [iter().sum()] before any saturation. *)
Definition zsum (l : list Z) : Z := foldr Z.add 0 l.

Lemma zsum_app l1 l2 : zsum (l1 ++ l2) = zsum l1 + zsum l2.
Proof. induction l1 as [|x l1 IH]; simpl in *; [done|]. unfold zsum in *. simpl. lia. Qed.

Lemma zsum_nonneg l : Forall (λ z, 0 <= z) l → 0 <= zsum l.
Proof. induction 1; simpl; [done|]. unfold zsum in *. simpl. lia. Qed.

(** [slice::partition_point]: the length of the longest prefix on which the
    predicate holds.  On a slice partitioned by the predicate, which is what
    the standard library asks of the caller, this is the partition point the
    binary search returns. *)
Fixpoint partition_point {A} (p : A → bool) (l : list A) : nat :=
  match l with
  | [] => 0
  | x :: l' => if p x then S (partition_point p l') else 0
  end.

Section partition_point.
  Context {A : Type} (p : A → bool).

Lemma partition_point_le l : (partition_point p l <= length l)%nat.
  Proof. induction l as [|x l IH]; simpl; [lia|]. destruct (p x); simpl; lia. Qed.

Lemma partition_point_take l :
    Forall (λ x, p x = true) (take (partition_point p l) l).
  Proof. induction l as [|x l IH]; simpl; [done|]. destruct (p x) eqn:?; simpl; auto. Qed.

Lemma partition_point_drop (R : relation A) l :
    StronglySorted R l →
    (∀ x y, x ∈ l → y ∈ l → R x y → p y = true → p x = true) →
    Forall (λ x, p x = false) (drop (partition_point p l) l).
  Proof.
    induction 1 as [|x l Hs IH Hx]; intros Hp; simpl; [done|].
    destruct (p x) eqn:Hpx; simpl.
    - apply IH. intros; eapply Hp; eauto; by right.
    - constructor; [done|]. rewrite Forall_forall in Hx |- *. intros y Hy.
      destruct (p y) eqn:Hpy; [|done].
      rewrite <- Hpx. symmetry. eapply Hp; [by left|by right|by apply Hx|done].
  Qed.

  (** A prefix that satisfies the predicate is below the partition point. *)
Lemma partition_point_ge l n :
    (n <= length l)%nat → Forall (λ x, p x = true) (take n l) →
    (n <= partition_point p l)%nat.
  Proof.
    revert n. induction l as [|x l IH]; intros [|n] Hn Hf; simpl in *; try lia.
    apply Forall_cons in Hf as [Hx Hf]. rewrite Hx.
    apply le_n_S, IH; [lia|done].
  Qed.
End partition_point.
