(* ===== verification/Text.v ===== *)
(** Text: the parts of Rust's [str] the program relies on.

    A [str] is a byte string in UTF-8.  [utf8_chars] cuts it into characters,
    each a code point with the bytes that spell it, so that trimming and
    splitting return byte-exact substrings.  [is_whitespace] is the Unicode
    [White_Space] property, which [str::trim] and [str::split_whitespace]
    test; its code points are few and all listed. *)

From S2P Require Import Prelude.
From Stdlib Require Import Ascii.
#[local] Open Scope Z_scope.

Definition byte_of (a : ascii) : Z := Z.of_N (N_of_ascii a).

Definition str1 (a : ascii) : string := String a EmptyString.

(** The continuation bits of a byte. *)
Definition cont_bits (a : ascii) : Z := Z.land (byte_of a) 63.

(** A byte that cannot start a character (which no [str] contains at a
    boundary) is kept as a character of its own. *)
Fixpoint utf8_chars (s : string) : list (Z * string) :=
  match s with
  | EmptyString => []
  | String a s1 =>
      let b := byte_of a in
      if b <? 192 then (b, str1 a) :: utf8_chars s1
      else
        match s1 with
        | EmptyString => [(b, str1 a)]
        | String a2 s2 =>
            if b <? 224 then
              ((b - 192) * 64 + cont_bits a2, String a (str1 a2)) :: utf8_chars s2
            else
              match s2 with
              | EmptyString => [(b, String a (str1 a2))]
              | String a3 s3 =>
                  if b <? 240 then
                    (((b - 224) * 64 + cont_bits a2) * 64 + cont_bits a3,
                     String a (String a2 (str1 a3))) :: utf8_chars s3
                  else
                    match s3 with
                    | EmptyString => [(b, String a (String a2 (str1 a3)))]
                    | String a4 s4 =>
                        ((((b - 240) * 64 + cont_bits a2) * 64 + cont_bits a3) * 64 + cont_bits a4,
                         String a (String a2 (String a3 (str1 a4)))) :: utf8_chars s4
                    end
              end
        end
  end.

(** [s.chars().count()]. *)
Definition chars_count (s : string) : nat := length (utf8_chars s).

(** [char::is_whitespace]. *)
Definition is_whitespace (c : Z) : bool :=
  ((9 <=? c) && (c <=? 13)) || (c =? 32) || (c =? 133) || (c =? 160) || (c =? 5760)
  || ((8192 <=? c) && (c <=? 8202)) || (c =? 8232) || (c =? 8233) || (c =? 8239)
  || (c =? 8287) || (c =? 12288).

Definition unchars (l : list (Z * string)) : string := String.concat "" (map snd l).

(** [s.trim().is_empty()]. *)
Definition trim_is_empty (s : string) : bool :=
  forallb (λ c, is_whitespace c.1) (utf8_chars s).

Fixpoint drop_while {A} (p : A → bool) (l : list A) : list A :=
  match l with
  | [] => []
  | x :: l' => if p x then drop_while p l' else l
  end.

(** [s.trim()]. *)
Definition trim (s : string) : string :=
  let ws := λ c : Z * string, is_whitespace c.1 in
  unchars (rev (drop_while ws (rev (drop_while ws (utf8_chars s))))).

(** [s.trim_start()] and [s.trim_end()]. *)
Definition trim_start (s : string) : string :=
  unchars (drop_while (λ c : Z * string, is_whitespace c.1) (utf8_chars s)).

Definition trim_end (s : string) : string :=
  unchars (rev (drop_while (λ c : Z * string, is_whitespace c.1) (rev (utf8_chars s)))).

(** [s.chars().take(n)]. *)
Definition take_chars (n : nat) (s : string) : string := unchars (take n (utf8_chars s)).

(** [s.split_whitespace()]: maximal runs of other characters. *)
Fixpoint split_ws (cur : list (Z * string)) (l : list (Z * string)) : list string :=
  match l with
  | [] => match cur with [] => [] | _ => [unchars (rev cur)] end
  | c :: l' =>
      if is_whitespace c.1
      then match cur with
           | [] => split_ws [] l'
           | _ => unchars (rev cur) :: split_ws [] l'
           end
      else split_ws (c :: cur) l'
  end.

Definition split_whitespace (s : string) : list string := split_ws [] (utf8_chars s).

(** [join(" ")]. *)
Definition join_space (l : list string) : string := String.concat " " l.

(** [format!("{n}")] of an unsigned integer. *)
Fixpoint digits_fuel (fuel : nat) (n : Z) (acc : string) : string :=
  match fuel with
  | O => acc
  | S fuel' =>
      let acc' := String (ascii_of_N (48 + Z.to_N (n `mod` 10))) acc in
      if n <? 10 then acc' else digits_fuel fuel' (n `div` 10) acc'
  end.

(** A [u64] has at most 20 digits. *)
Definition show_u64 (n : Z) : string := digits_fuel 20 n "".

(* ------------------------------------------------------------------ *)

Lemma concat_empty_cons x l : String.concat "" (x :: l) = (x +:+ String.concat "" l)%string.
Proof.
  destruct l as [|y l]; simpl; [|done].
  induction x as [|a x IH]; simpl; [done|]. rewrite IH at 1. done.
Qed.

(** Cutting into characters loses no byte. *)
Lemma unchars_utf8_chars s : unchars (utf8_chars s) = s.
Proof.
  remember (String.length s) as n eqn:Hn.
  assert (Hle : (String.length s <= n)%nat) by lia. clear Hn.
  revert s Hle. unfold unchars. induction n as [|n IH]; intros [|a s] Hle; simpl in *; try done; try lia.
  destruct (byte_of a <? 192).
  { simpl map. rewrite concat_empty_cons, IH by lia. done. }
  destruct s as [|a2 s]; [done|]. simpl in *. destruct (byte_of a <? 224).
  { simpl map. rewrite concat_empty_cons, IH by lia. done. }
  destruct s as [|a3 s]; [done|]. simpl in *. destruct (byte_of a <? 240).
  { simpl map. rewrite concat_empty_cons, IH by lia. done. }
  destruct s as [|a4 s]; [done|]. simpl String.length in Hle. simpl map.
  rewrite concat_empty_cons, IH by lia. done.
Qed.

Lemma split_ws_nonempty l :
  split_ws [] l = [] ↔ forallb (λ c : Z * string, is_whitespace c.1) l = true.
Proof.
  assert (Hcur : ∀ l c cur, split_ws (c :: cur) l ≠ []).
  { induction l0 as [|d l0 IH]; intros c cur; simpl; [done|]. destruct (is_whitespace d.1); [done|].
    apply IH. }
  induction l as [|c l IH]; simpl; [done|]. destruct (is_whitespace c.1); simpl; [done|].
  split; [|done]. intros H. by apply Hcur in H.
Qed.

(** A text has no word exactly when trimming leaves nothing. *)
Lemma split_whitespace_nil s : split_whitespace s = [] ↔ trim_is_empty s = true.
Proof. apply split_ws_nonempty. Qed.

Example split_ex : split_whitespace " ab  cd " = ["ab"; "cd"]%string.
Proof. vm_compute. reflexivity. Qed.

Example trim_ex : trim " ab  cd " = "ab  cd"%string.
Proof. vm_compute. reflexivity. Qed.

Example show_ex : show_u64 18446744073709551615 = "18446744073709551615"%string.
Proof. vm_compute. reflexivity. Qed.

(* ------------------------------------------------------------------ *)
(** ** Decimal numbers and joined lines *)

Definition ascii_val (a : ascii) : Z := Z.of_N (N_of_ascii a).

(** The number a decimal string denotes, from an accumulator. *)
Fixpoint read_dec (acc : Z) (s : string) : Z :=
  match s with
  | EmptyString => acc
  | String c s' => read_dec (acc * 10 + (ascii_val c - 48)) s'
  end.

Lemma ascii_val_digit d : 0 <= d < 10 → ascii_val (ascii_of_N (48 + Z.to_N d)) = 48 + d.
Proof. intros H. unfold ascii_val. rewrite N_ascii_embedding by lia. lia. Qed.

(** Reading what [digits_fuel] writes in front of [acc]. *)
Lemma read_dec_digits fuel n acc k :
  0 <= n < 10 ^ Z.of_nat fuel → fuel ≠ O →
  ∃ m, 0 <= m ∧ read_dec k (digits_fuel fuel n acc) = read_dec (k * 10 ^ m + n) acc.
Proof.
  revert n acc. induction fuel as [|fuel IH]; intros n acc Hn Hf; [done|].
  cbn [digits_fuel]. pose proof (Z.mod_pos_bound n 10). pose proof (Z.div_mod n 10).
  destruct (n <? 10) eqn:Hlt.
  - zbool. exists 1. split; [lia|]. cbn [read_dec]. rewrite ascii_val_digit by lia.
    f_equal. rewrite Z.mod_small by lia. lia.
  - zbool. rewrite Nat2Z.inj_succ, Z.pow_succ_r in Hn by lia.
    assert (fuel ≠ O) by (intros ->; simpl in Hn; lia).
    destruct (IH (n `div` 10) (String (ascii_of_N (48 + Z.to_N (n `mod` 10))) acc)) as (m & Hm & ->).
    { split; [apply Z.div_pos; lia|apply Z.div_lt_upper_bound; lia]. }
    { done. }
    exists (m + 1). split; [lia|]. cbn [read_dec]. rewrite ascii_val_digit by lia. f_equal.
    rewrite Z.pow_add_r by lia. lia.
Qed.

Lemma read_show_u64 n : is_u64 n → read_dec 0 (show_u64 n) = n.
Proof.
  intros Hn. destruct (read_dec_digits 20 n "" 0) as (m & _ & H); [mach|done|].
  unfold show_u64. rewrite H. simpl. lia.
Qed.

Lemma show_u64_inj a b : is_u64 a → is_u64 b → show_u64 a = show_u64 b → a = b.
Proof. intros Ha Hb H. rewrite <- (read_show_u64 a), <- (read_show_u64 b); congruence. Qed.

Definition newline : ascii := ascii_of_nat 10.

Fixpoint one_line (s : string) : bool :=
  match s with
  | EmptyString => true
  | String c s' => negb (Ascii.eqb c newline) && one_line s'
  end.

Lemma digits_one_line fuel n acc :
  0 <= n → one_line acc = true → one_line (digits_fuel fuel n acc) = true.
Proof.
  revert n acc. induction fuel as [|fuel IH]; intros n acc Hn Ha; [done|].
  cbn [digits_fuel]. pose proof (Z.mod_pos_bound n 10).
  set (c := ascii_of_N (48 + Z.to_N (n `mod` 10))).
  assert (Hc : one_line (String c acc) = true).
  { cbn [one_line]. rewrite Ha, andb_true_r. destruct (Ascii.eqb_spec c newline) as [He|]; [|done].
    exfalso. apply (f_equal ascii_val) in He. unfold c in He. rewrite ascii_val_digit in He by lia.
    vm_compute (ascii_val newline) in He. lia. }
  destruct (n <? 10); [done|]. apply IH; [|done]. apply Z.div_pos; lia.
Qed.

Lemma show_u64_one_line n : is_u64 n → one_line (show_u64 n) = true.
Proof. intros Hn. apply digits_one_line; [mach|done]. Qed.

(** A line before a newline is determined by the whole string. *)
Lemma one_line_cut a b s t :
  one_line a = true → one_line b = true →
  (a +:+ String newline s = b +:+ String newline t)%string → a = b ∧ s = t.
Proof.
  revert b. induction a as [|x a IH]; intros [|y b] Ha Hb; simpl in *.
  - by intros [= ->].
  - intros [= <- _]. by rewrite Ascii.eqb_refl in Hb.
  - intros [= -> _]. by rewrite Ascii.eqb_refl in Ha.
  - intros [= -> H]. zbool. apply IH in H as [-> ->]; auto.
Qed.

Definition is_digit (c : ascii) : bool := (48 <=? ascii_val c) && (ascii_val c <=? 57).

Definition all_digits (s : string) : bool := forallb is_digit (String.list_ascii_of_string s).

Lemma digits_all_digits fuel n acc :
  0 <= n → all_digits acc = true → all_digits (digits_fuel fuel n acc) = true.
Proof.
  revert n acc. induction fuel as [|fuel IH]; intros n acc Hn Ha; [done|].
  cbn [digits_fuel]. pose proof (Z.mod_pos_bound n 10).
  assert (Hc : all_digits (String (ascii_of_N (48 + Z.to_N (n `mod` 10))) acc) = true).
  { unfold all_digits in *. cbn [String.list_ascii_of_string forallb]. rewrite Ha, andb_true_r.
    unfold is_digit. rewrite ascii_val_digit by lia. apply andb_true_iff. rewrite !Z.leb_le. lia. }
  destruct (n <? 10); [done|]. apply IH; [|done]. apply Z.div_pos; lia.
Qed.

Lemma show_u64_digits n : is_u64 n → all_digits (show_u64 n) = true.
Proof. intros Hn. apply digits_all_digits; [mach|done]. Qed.

(** A number before a separator is determined by the whole string. *)
Lemma show_u64_cut c a b s t :
  is_digit c = false → is_u64 a → is_u64 b →
  (show_u64 a +:+ String c s = show_u64 b +:+ String c t)%string → a = b ∧ s = t.
Proof.
  intros Hc Ha Hb H.
  assert (show_u64 a = show_u64 b ∧ s = t) as [? ->]; [|split; [by apply show_u64_inj|done]].
  pose proof (show_u64_digits a Ha) as Da. pose proof (show_u64_digits b Hb) as Db. revert Da Db H.
  unfold all_digits. generalize (show_u64 a), (show_u64 b). intros x. induction x as [|x1 x IH]; intros [|y1 y] Hx Hy; simpl in *.
  - by intros [= ->].
  - intros [= <- _]. by rewrite Hc in Hy.
  - intros [= -> _]. by rewrite Hc in Hx.
  - intros [= -> H]. zbool. destruct (IH y) as [-> ->]; auto.
Qed.

(** A prefix of known length is determined by the whole string. *)
Lemma append_cut a b s t :
  String.length a = String.length b → (a +:+ s = b +:+ t)%string → a = b ∧ s = t.
Proof.
  revert b. induction a as [|x a IH]; intros [|y b] Hl; simpl in *; try done.
  intros [= -> H]. destruct (IH b) as [-> ->]; auto.
Qed.

(** [join("\n")]. *)
Definition join_lines (l : list string) : string := String.concat (String newline "") l.

Lemma join_lines_cons x y l :
  join_lines (x :: y :: l) = (x +:+ String newline (join_lines (y :: l)))%string.
Proof. done. Qed.

(** Lines before the last, none with a newline, are read back from the join. *)
Lemma join_lines_inj l1 l2 x y :
  length l1 = length l2 →
  Forall (λ s, one_line s = true) l1 → Forall (λ s, one_line s = true) l2 →
  join_lines (l1 ++ [x]) = join_lines (l2 ++ [y]) → l1 = l2 ∧ x = y.
Proof.
  revert l2. induction l1 as [|a l1 IH]; intros [|b l2] Hl H1 H2; try done.
  apply Forall_cons in H1 as [Ha H1]. apply Forall_cons in H2 as [Hb H2]. injection Hl as Hl.
  destruct (l1 ++ [x]) as [|u us] eqn:Hu; [by destruct l1|].
  destruct (l2 ++ [y]) as [|v vs] eqn:Hv; [by destruct l2|].
  cbn [app]. rewrite Hu, Hv, !join_lines_cons. intros H.
  apply one_line_cut in H as [-> H]; [|done|done]. rewrite <- Hv in H.
  destruct (IH _ Hl H1 H2 H) as [-> ->]. done.
Qed.

(* ------------------------------------------------------------------ *)
(** ** ASCII case and searching *)

Definition ascii_lower (c : ascii) : ascii :=
  let v := ascii_val c in
  if (65 <=? v) && (v <=? 90) then ascii_of_N (Z.to_N (v + 32)) else c.

(** [to_ascii_lowercase]: bytes above 127 stay. *)
Fixpoint to_ascii_lowercase (s : string) : string :=
  match s with
  | EmptyString => EmptyString
  | String c s' => String (ascii_lower c) (to_ascii_lowercase s')
  end.

Definition eq_ignore_ascii_case (a b : string) : bool :=
  String.eqb (to_ascii_lowercase a) (to_ascii_lowercase b).

(** [s.starts_with(p)], [s.ends_with(p)] and [s.contains(p)] on bytes. *)
Definition starts_with (s p : string) : bool := String.prefix p s.

Fixpoint ends_with (s p : string) : bool :=
  String.eqb s p || match s with EmptyString => false | String _ s' => ends_with s' p end.

Fixpoint contains (s p : string) : bool :=
  String.prefix p s || match s with EmptyString => false | String _ s' => contains s' p end.

(** [s.split(c)]: one more part than there are separators. *)
Fixpoint split_char (c : ascii) (s : string) : list string :=
  match s with
  | EmptyString => [EmptyString]
  | String a s' =>
      let parts := split_char c s' in
      if Ascii.eqb a c then EmptyString :: parts
      else match parts with
           | part :: rest => String a part :: rest
           | [] => [String a EmptyString]
           end
  end.

(** [s.lines()]: a trailing empty line is dropped, and a carriage return before
    each line feed. *)
Definition strip_cr (s : string) : string :=
  if ends_with s (String (ascii_of_nat 13) "") then String.substring 0 (String.length s - 1) s else s.

Fixpoint strip_all_but_last (l : list string) : list string :=
  match l with
  | [] => []
  | [last] => if String.eqb last "" then [] else [last]
  | x :: l' => strip_cr x :: strip_all_but_last l'
  end.

Definition text_lines (s : string) : list string := strip_all_but_last (split_char newline s).

(** [s.split_once(c)] for an ASCII [c]. *)
Fixpoint split_once (c : ascii) (s : string) : option (string * string) :=
  match s with
  | EmptyString => None
  | String d s' =>
      if Ascii.eqb d c then Some (EmptyString, s')
      else '(l, r) ← split_once c s'; Some (String d l, r)
  end.

(** [s.rsplit(c).next()]: what follows the last [c], or everything. *)
Fixpoint after_last (c : ascii) (s : string) : string :=
  match s with
  | EmptyString => EmptyString
  | String d s' =>
      match split_once c s' with
      | Some _ => after_last c s'
      | None => if Ascii.eqb d c then s' else s
      end
  end.

Fixpoint string_rev_app (s acc : string) : string :=
  match s with EmptyString => acc | String c s' => string_rev_app s' (String c acc) end.

Fixpoint strip_front (p : ascii → bool) (s : string) : string :=
  match s with String c s' => if p c then strip_front p s' else s | EmptyString => EmptyString end.

(** [trim_end_matches] and [trim_matches] for a set of ASCII characters. *)
Definition trim_end_matches (p : ascii → bool) (s : string) : string :=
  string_rev_app (strip_front p (string_rev_app s EmptyString)) EmptyString.

Definition trim_matches (p : ascii → bool) (s : string) : string :=
  trim_end_matches p (strip_front p s).

Lemma ascii_lower_idem c : ascii_lower (ascii_lower c) = ascii_lower c.
Proof. by destruct c as [[] [] [] [] [] [] [] []]. Qed.

Lemma lowercase_idem s : to_ascii_lowercase (to_ascii_lowercase s) = to_ascii_lowercase s.
Proof. induction s as [|c s IH]; simpl; [done|]. by rewrite ascii_lower_idem, IH. Qed.

Lemma lowercase_app s t :
  to_ascii_lowercase (s +:+ t) = (to_ascii_lowercase s +:+ to_ascii_lowercase t)%string.
Proof. induction s as [|c s IH]; simpl; [done|]. by rewrite IH. Qed.

Lemma split_once_app c s l r : split_once c s = Some (l, r) → s = (l +:+ String c r)%string.
Proof.
  revert l. induction s as [|d s IH]; intros l; simpl; [done|].
  destruct (Ascii.eqb_spec d c) as [->|]; [by intros [= <- <-]|].
  destruct (split_once c s) as [[l' r']|]; [|done]. simpl. intros [= <- <-].
  by rewrite (IH l').
Qed.

(** The first [c] of a string that begins with a part free of it. *)
Lemma split_once_first c l r :
  split_once c l = None → split_once c (l +:+ String c r)%string = Some (l, r).
Proof.
  induction l as [|d l IH]; simpl; [by rewrite Ascii.eqb_refl|].
  destruct (Ascii.eqb d c); [done|]. destruct (split_once c l) as [[??]|]; [done|].
  intros _. by rewrite IH.
Qed.

Example after_last_ex : after_last "/" "/a/b.c" = "b.c"%string ∧ after_last "/" "b" = "b"%string.
Proof. split; reflexivity. Qed.

Example ends_with_ex : ends_with "~/.ssh" "/.ssh" = true ∧ contains "id_rsa.pub" "rsa" = true.
Proof. split; reflexivity. Qed.

Definition is_ascii_alphanumeric (c : ascii) : bool :=
  let v := ascii_val c in
  ((48 <=? v) && (v <=? 57)) || ((65 <=? v) && (v <=? 90)) || ((97 <=? v) && (v <=? 122)).

Fixpoint all_bytes (p : ascii → bool) (s : string) : bool :=
  match s with EmptyString => true | String c s' => p c && all_bytes p s' end.

(** Maximal runs of whitespace ([true]) and of other characters ([false]). *)
Fixpoint chunks (l : list (Z * string)) : list (bool * string) :=
  match l with
  | [] => []
  | c :: l' =>
      let ws := is_whitespace c.1 in
      match chunks l' with
      | (ws', s) :: rest =>
          if Bool.eqb ws ws' then (ws, c.2 +:+ s)%string :: rest else (ws, c.2) :: (ws', s) :: rest
      | [] => [(ws, c.2)]
      end
  end.

Lemma append_assoc a b c : (a +:+ (b +:+ c) = (a +:+ b) +:+ c)%string.
Proof. induction a as [|x a IH]; [done|]. exact (f_equal (String x) IH). Qed.

Lemma append_nil a : (a +:+ "")%string = a.
Proof. induction a as [|x a IH]; [done|]. exact (f_equal (String x) IH). Qed.

(** The runs spell the text. *)
Lemma chunks_concat l : String.concat "" (map snd (chunks l)) = unchars l.
Proof.
  induction l as [|c l IH]; simpl; [done|]. unfold unchars in *. simpl map. rewrite concat_empty_cons.
  destruct (chunks l) as [|[ws s] rest].
  { rewrite <- IH. simpl. by rewrite append_nil. }
  destruct (Bool.eqb (is_whitespace c.1) ws); simpl map in *; rewrite ?concat_empty_cons in *.
  - by rewrite <- append_assoc, IH.
  - by rewrite IH.
Qed.

(** Runs alternate. *)
Lemma chunks_alternate l : ∀ i ws s ws' s',
  chunks l !! i = Some (ws, s) → chunks l !! S i = Some (ws', s') → ws' = negb ws.
Proof.
  induction l as [|c l IH]; intros i ws s ws' s'; simpl; [done|].
  destruct (chunks l) as [|[w t] rest] eqn:Hc; [by destruct i|].
  destruct (Bool.eqb (is_whitespace c.1) w) eqn:He.
  - apply eqb_prop in He. destruct i as [|i]; simpl.
    + intros [= <- <-] H. rewrite He. by apply (IH 0%nat w t ws' s').
    + intros H1 H2. by apply (IH (S i) ws s ws' s').
  - apply eqb_false_iff in He. destruct i as [|i]; simpl.
    + intros [= <- <-] [= <- <-]. by destruct (is_whitespace c.1), w.
    + intros H1 H2. by apply (IH i ws s ws' s').
Qed.
