(* ===== verification/GroupAlignment.v ===== *)
(** GroupAlignment: replacing the label of one physical group
    (core/pipeline/acoustic_ledger/slot_ops.rs, [preserve_group_content]).

    A later decode may relabel a whole PCM group.  The alignment decides
    whether every token the ledger holds has a counterpart in the candidate;
    if one has none, the held label stays as it is.  The character tables of
    Rust's standard library are the class [CharTables]; every theorem holds for
    any tables. *)

From S2P Require Import Prelude.
From S2P Require Import Text.
#[local] Open Scope Z_scope.

(** [char::is_alphanumeric] and [str::to_lowercase], both defined by the
    Unicode Character Database. *)
Class CharTables := {
  is_alphanumeric : Z → bool;
  to_lowercase : list Z → list Z
}.

(** The tables restricted to ASCII, used to evaluate examples. *)
Definition ascii_tables : CharTables := {|
  is_alphanumeric := λ c,
    ((48 <=? c) && (c <=? 57)) || ((65 <=? c) && (c <=? 90)) || ((97 <=? c) && (c <=? 122));
  to_lowercase := map (λ c, if (65 <=? c) && (c <=? 90) then c + 32 else c)
|}.

(** A token is a run of characters; its text is byte-exact. *)
Abbreviation Token := (list (Z * string)).

Definition LBRACKET : Z := 91.
Definition RBRACKET : Z := 93.

(** The nested function [tokens]: whitespace separates, except inside a tag. *)
Fixpoint tokens_from (cur : Token) (in_tag : bool) (l : list (Z * string)) : list Token :=
  match l with
  | [] => match cur with [] => [] | _ => [rev cur] end
  | c :: l' =>
      if is_whitespace c.1 && negb in_tag
      then match cur with
           | [] => tokens_from [] in_tag l'
           | _ => rev cur :: tokens_from [] in_tag l'
           end
      else
        let in_tag' := if c.1 =? LBRACKET then true
                       else if c.1 =? RBRACKET then false else in_tag in
        tokens_from (c :: cur) in_tag' l'
  end.

Definition tokens (text : string) : list Token := tokens_from [] false (utf8_chars text).

Inductive AlignError := Ambiguous | OutOfFuel.

Section alignment.
Context {tables : CharTables}.

Definition trim_matches (p : Z → bool) (l : list Z) : list Z :=
  rev (drop_while p (rev (drop_while p l))).

(** The nested [normalize]. *)
Definition normalize (token : Token) : list Z :=
  to_lowercase
    (trim_matches (λ ch, negb (is_alphanumeric ch) && negb (ch =? LBRACKET) && negb (ch =? RBRACKET))
       (map fst token)).

(** "yyy" or a bracketed tag. *)
Definition event (token : Token) : bool :=
  let key := normalize token in
  bool_decide (key = [121; 121; 121])
  || (bool_decide (head key = Some LBRACKET) && bool_decide (last key = Some RBRACKET)).

(** One row of the edit-distance table; [row] starts at column [j]. *)
Fixpoint edit_row (a : Z) (right : list Z) (diagonal left : Z) (row : list Z) : list Z :=
  match right, row with
  | b :: right', previous :: row' =>
      let v := Z.min (Z.min (diagonal + (if a =? b then 0 else 1)) (left + 1)) (previous + 1) in
      v :: edit_row a right' previous v row'
  | _, _ => []
  end.

Fixpoint edit_rows (left : list Z) (i : Z) (right : list Z) (row : list Z) : list Z :=
  match left with
  | [] => row
  | a :: left' =>
      let diagonal := hd 0 row in
      edit_rows left' (i + 1) right ((i + 1) :: edit_row a right diagonal (i + 1) (tl row))
  end.

Definition edit_distance (left right : list Z) : Z :=
  List.last (edit_rows left 0 right (map Z.of_nat (seq 0 (S (length right))))) 0.

Definition similar (left right : Token) : bool :=
  if event left || event right then false
  else
    let l := normalize left in
    let r := normalize right in
    let ll := Z.of_nat (length l) in
    let rl := Z.of_nat (length r) in
    let longest := Z.max ll rl in
    if (longest =? 0) || (128 <? longest) then false
    else
      let budget := longest `div` 3 in
      if budget <? Z.abs (ll - rl) then false
      else edit_distance l r <=? budget.

Definition enumerate {A} (l : list A) : list (nat * A) := combine (seq 0 (length l)) l.

(** The unique mutual matches of a gap, in held order. *)
Definition gap_pairs (held candidate : list Token) : list (nat * nat) :=
  let lexical := List.filter (λ p, negb (event p.2)) (enumerate candidate) in
  flat_map (λ '(i, token),
    match List.filter (λ p, similar token p.2) lexical with
    | [(j, other)] =>
        if (length (List.filter (λ prior, similar prior other) held) =? 1)%nat
        then [(i, j)] else []
    | _ => []
    end) (enumerate held).

Fixpoint crossing (pairs : list (nat * nat)) : bool :=
  match pairs with
  | p :: ((q :: _) as rest) => (q.2 <=? p.2)%nat || crossing rest
  | _ => false
  end.

(** The nested [gap]: the tokens it appends and whether it retained a held
    token.  Every recursive call is on a shorter held slice. *)
Fixpoint gap (fuel : nat) (held candidate : list Token) : AlignError + (list Token * bool) :=
  match fuel with
  | O => inl OutOfFuel
  | S fuel' =>
    match held with
    | [] => inr (candidate, false)
    | h0 :: held_rest =>
      if forallb event candidate then inr (held ++ candidate, true)
      else
        let lexical := List.filter (λ t, negb (event t)) candidate in
        if bool_decide (held_rest = []) && negb (event h0) && (length lexical =? 1)%nat
        then inr (candidate, false)
        else
          let pairs := gap_pairs held candidate in
          if crossing pairs then inl Ambiguous
          else
            match pairs with
            | [] => inl Ambiguous
            | (i, j) :: _ =>
              match gap fuel' (take i held) (take j candidate) with
              | inl e => inl e
              | inr (out1, r1) =>
                match gap fuel' (drop (S i) held) (drop (S j) candidate) with
                | inl e => inl e
                | inr (out2, r2) =>
                    inr (out1 ++ take 1 (drop j candidate) ++ out2, r1 || r2)
                end
              end
            end
    end
  end.

(** The longest-common-subsequence table over suffixes. *)
Fixpoint lcs_row (key : list Z) (candidate : list (list Z)) (below : list nat) : list nat :=
  match candidate, below with
  | c :: candidate', b :: below' =>
      let rest := lcs_row key candidate' below' in
      (if negb (bool_decide (key = [])) && bool_decide (key = c)
       then S (hd 0%nat below') else Nat.max b (hd 0%nat rest)) :: rest
  | _, _ => [0%nat]
  end.

Fixpoint lcs_table (held candidate : list (list Z)) : list (list nat) :=
  match held with
  | [] => [repeat 0%nat (S (length candidate))]
  | key :: held' =>
      let table := lcs_table held' candidate in
      lcs_row key candidate (hd [] table) :: table
  end.

Definition cell (table : list (list nat)) (i j : nat) : nat := nth j (nth i table []) 0%nat.

(** The same over prefixes, row by row. *)
Fixpoint prefix_row (key : list Z) (candidate : list (list Z)) (left : nat) (above : list nat)
    : list nat :=
  match candidate, above with
  | c :: candidate', a :: above' =>
      let v := if negb (bool_decide (key = [])) && bool_decide (key = c)
               then S a else Nat.max (hd 0%nat above') left in
      v :: prefix_row key candidate' v above'
  | _, _ => []
  end.

Fixpoint prefix_table (row : list nat) (held candidate : list (list Z)) : list (list nat) :=
  row ::
  match held with
  | [] => []
  | key :: held' => prefix_table (0%nat :: prefix_row key candidate 0 row) held' candidate
  end.

Definition uniform_repetition (held candidate : list (list Z)) : bool :=
  match held with
  | [] => false
  | key :: _ =>
      negb (bool_decide (key = [])) && forallb (λ other, bool_decide (other = key)) (held ++ candidate)
  end.

(** A candidate key that some longest alignment could attach to two sources. *)
Definition competing_anchor (held candidate : list (list Z)) (lengths : list (list nat)) : bool :=
  let prefixes := prefix_table (repeat 0%nat (S (length candidate))) held candidate in
  existsb (λ '(j, key),
    (1 <? length (List.filter (λ '(i, held_key),
        negb (bool_decide (key = [])) && bool_decide (held_key = key)
        && (cell prefixes i j + 1 + cell lengths (S i) (S j) =? cell lengths 0 0)%nat)
      (enumerate held)))%nat) (enumerate candidate).

Definition slice {A} (a b : nat) (l : list A) : list A := take (b - a) (drop a l).

Section walk.
Context (held candidate : list Token) (held_keys candidate_keys : list (list Z))
  (lengths : list (list nat)).

(** The alignment loop, with the current gap starting at [hs] and [cs]. *)
Fixpoint walk (fuel i j hs cs : nat) : AlignError + (list Token * bool) :=
  match fuel with
  | O => inl OutOfFuel
  | S fuel' =>
    if (i <? length held)%nat && (j <? length candidate)%nat then
      let key := nth i held_keys [] in
      if negb (bool_decide (key = [])) && bool_decide (key = nth j candidate_keys []) then
        match gap (S (length held)) (slice hs i held) (slice cs j candidate) with
        | inl e => inl e
        | inr (out1, r1) =>
          match walk fuel' (S i) (S j) (S i) (S j) with
          | inl e => inl e
          | inr (out2, r2) => inr (out1 ++ take 1 (drop j candidate) ++ out2, r1 || r2)
          end
        end
      else if (cell lengths i (S j) <=? cell lengths (S i) j)%nat
      then walk fuel' (S i) j hs cs
      else walk fuel' i (S j) hs cs
    else gap (S (length held)) (drop hs held) (drop cs candidate)
  end.
End walk.

Definition preserve_group_content (held_label candidate_label : string)
    : AlignError + (string * bool) :=
  let held := tokens held_label in
  let candidate := tokens candidate_label in
  if (256 <? length held)%nat || (256 <? length candidate)%nat then inl Ambiguous
  else
    let held_keys := map normalize held in
    let candidate_keys := map normalize candidate in
    let lengths := lcs_table held_keys candidate_keys in
    if negb (uniform_repetition held_keys candidate_keys)
       && competing_anchor held_keys candidate_keys lengths
    then inl Ambiguous
    else
      match walk held candidate held_keys candidate_keys lengths
              (S (length held + length candidate)) 0 0 0 0 with
      | inl e => inl e
      | inr (output, retained) =>
          inr (if retained then held_label else join_space (map unchars output), retained)
      end.

(* ------------------------------------------------------------------ *)
(** ** No held token is lost *)

(** What the alignment accepts as a counterpart of a held token. *)
Definition counterpart (h c : Token) : Prop :=
  (normalize h ≠ [] ∧ normalize h = normalize c) ∨ similar h c = true ∨
  (event h = false ∧ event c = false).

(** Every held token has its own counterpart, in order. *)
Inductive keeps : list Token → list Token → Prop :=
  | keeps_nil cs : keeps [] cs
  | keeps_pair h c hs cs : counterpart h c → keeps hs cs → keeps (h :: hs) (c :: cs)
  | keeps_skip c hs cs : keeps hs cs → keeps hs (c :: cs).

Lemma keeps_app h1 c1 h2 c2 : keeps h1 c1 → keeps h2 c2 → keeps (h1 ++ h2) (c1 ++ c2).
Proof.
  induction 1 as [cs|h c hs cs Hc Hk IH|c hs cs Hk IH]; intros H2; simpl.
  - induction cs as [|c cs IHc]; simpl; [done|by constructor].
  - constructor; auto.
  - by apply keeps_skip, IH.
Qed.

Lemma keeps_skip_app cs hs cs' : keeps hs cs' → keeps hs (cs ++ cs').
Proof. apply (keeps_app [] cs). constructor. Qed.

Lemma split_at {A} (l : list A) j x :
  l !! j = Some x → l = take j l ++ x :: drop (S j) l.
Proof. intros H. symmetry. by apply take_drop_middle. Qed.

Lemma take1_drop {A} (l : list A) j x : l !! j = Some x → take 1 (drop j l) = [x].
Proof.
  revert j. induction l as [|y l IH]; intros [|j] H; simpl in *; try done.
  - by simplify_eq.
  - by apply IH.
Qed.

Lemma elem_of_enumerate {A} (l : list A) i x : (i, x) ∈ enumerate l → l !! i = Some x.
Proof.
  unfold enumerate. intros H.
  assert (Hg : ∀ k (l : list A) i x, (i, x) ∈ combine (seq k (length l)) l →
    ∃ m, i = (k + m)%nat ∧ l !! m = Some x).
  { clear. intros k l. revert k. induction l as [|y l IH]; intros k i x H; simpl in *.
    - by apply not_elem_of_nil in H.
    - apply elem_of_cons in H as [H|H].
      + simplify_eq. exists 0%nat. split; [lia|done].
      + destruct (IH _ _ _ H) as (m & -> & Hm). exists (S m). split; [lia|done]. }
  destruct (Hg _ _ _ _ H) as (m & -> & Hm). done.
Qed.

Lemma elem_of_filter_list {A} (p : A → bool) l x :
  x ∈ List.filter p l → p x = true ∧ x ∈ l.
Proof. rewrite !list_elem_of_In, filter_In. tauto. Qed.

Lemma gap_pairs_spec held candidate i j :
  (i, j) ∈ gap_pairs held candidate →
  ∃ h c, held !! i = Some h ∧ candidate !! j = Some c ∧ counterpart h c.
Proof.
  unfold gap_pairs. intros H.
  apply list_elem_of_In, in_flat_map in H as ([i' h] & Hi & H).
  apply list_elem_of_In, elem_of_enumerate in Hi. apply list_elem_of_In in H.
  destruct (List.filter _ (List.filter _ _)) as [|[j' c] [|]] eqn:Hf;
    try (by apply not_elem_of_nil in H).
  destruct (_ =? 1)%nat; [|by apply not_elem_of_nil in H].
  apply list_elem_of_singleton in H. simplify_eq.
  assert (Hc : (j', c) ∈ [(j', c)]) by (by left). rewrite <- Hf in Hc.
  apply elem_of_filter_list in Hc as [Hs Hc]. apply elem_of_filter_list in Hc as [_ Hc].
  apply elem_of_enumerate in Hc. exists h, c. split; [done|]. split; [done|].
  right. by left.
Qed.

Lemma keeps_single h candidate :
  event h = false → length (List.filter (λ t, negb (event t)) candidate) = 1%nat →
  keeps [h] candidate.
Proof.
  intros Hh. induction candidate as [|c cs IH]; simpl; [done|].
  destruct (event c) eqn:Hc; simpl; intros Hl.
  - by apply keeps_skip, IH.
  - constructor; [|constructor]. by right; right.
Qed.

(** With fuel above its held tokens a gap answers, and when it retains none
    it appends the whole candidate and keeps every held token. *)
Lemma gap_spec fuel held candidate :
  (length held < fuel)%nat →
  match gap fuel held candidate with
  | inl e => e = Ambiguous
  | inr (out, false) => out = candidate ∧ keeps held candidate
  | inr (_, true) => True
  end.
Proof.
  revert held candidate. induction fuel as [|fuel IH]; intros held candidate Hf; [lia|].
  simpl. destruct held as [|h0 rest]; [split; [done|constructor]|].
  destruct (forallb event candidate); [done|].
  destruct (bool_decide (rest = []) && negb (event h0) && _)%nat eqn:Hone.
  { apply andb_true_iff in Hone as [Hone Hl]. zbool. subst rest. split; [done|].
    apply keeps_single; [done|]. by apply Nat.eqb_eq in Hl. }
  destruct (crossing _); [done|].
  destruct (gap_pairs (h0 :: rest) candidate) as [|[i j] l] eqn:Hp; [done|].
  destruct (gap_pairs_spec (h0 :: rest) candidate i j) as (h & c & Hi & Hj & Hc).
  { rewrite Hp. by left. }
  set (held := h0 :: rest) in *.
  pose proof (lookup_lt_Some _ _ _ Hi).
  pose proof (IH (take i held) (take j candidate)) as H1.
  pose proof (IH (drop (S i) held) (drop (S j) candidate)) as H2.
  rewrite length_take in H1. rewrite length_drop in H2.
  specialize (H1 ltac:(lia)). specialize (H2 ltac:(lia)).
  destruct (gap fuel (take i held) _) as [e|[out1 [|]]]; [done| |];
    destruct (gap fuel (drop (S i) held) _) as [e|[out2 [|]]]; simpl; try done.
  destruct H1 as [-> H1], H2 as [-> H2]. rewrite (take1_drop _ _ _ Hj).
  split; [by apply take_drop_middle|].
  rewrite (split_at held i h) by done. rewrite (split_at candidate j c) by done.
  apply keeps_app; [done|]. by constructor.
Qed.

Lemma slice_drop {A} (l : list A) a b x :
  (a <= b)%nat → l !! b = Some x → slice a b l ++ x :: drop (S b) l = drop a l.
Proof.
  intros Hab Hb. unfold slice. rewrite <- (take_drop (b - a) (drop a l)) at 2. f_equal.
  rewrite drop_drop. replace (a + (b - a))%nat with b by lia. symmetry. by apply drop_S.
Qed.

Lemma walk_spec held candidate lengths fuel i j hs cs :
  (hs <= i)%nat → (cs <= j)%nat → (i <= length held)%nat → (j <= length candidate)%nat →
  (length held - i + (length candidate - j) < fuel)%nat →
  match walk held candidate (map normalize held) (map normalize candidate) lengths fuel i j hs cs with
  | inl e => e = Ambiguous
  | inr (out, false) => out = drop cs candidate ∧ keeps (drop hs held) (drop cs candidate)
  | inr (_, true) => True
  end.
Proof.
  revert i j hs cs. induction fuel as [|fuel IH]; intros i j hs cs Hhs Hcs Hi Hj Hf; [lia|].
  cbn [walk]. destruct ((i <? length held)%nat && (j <? length candidate)%nat) eqn:Hb;
    [|apply gap_spec; rewrite length_drop; lia].
  apply andb_true_iff in Hb as [Hb1 Hb2]. apply Nat.ltb_lt in Hb1, Hb2.
  destruct (negb _ && _) eqn:Hm.
  - zbool. destruct (lookup_lt_is_Some_2 held i Hb1) as [h Hh].
    destruct (lookup_lt_is_Some_2 candidate j Hb2) as [c Hc].
    assert (Hpair : counterpart h c).
    { left. rewrite !nth_lookup, !list_lookup_fmap, Hh, Hc in *. done. }
    pose proof (gap_spec (S (length held)) (slice hs i held) (slice cs j candidate)) as Hg.
    unfold slice at 1 in Hg. rewrite length_take, length_drop in Hg. specialize (Hg ltac:(lia)).
    specialize (IH (S i) (S j) (S i) (S j) ltac:(lia) ltac:(lia) ltac:(lia) ltac:(lia) ltac:(lia)).
    destruct (gap _ (slice hs i held) _) as [e|[out1 [|]]]; [done| |];
      destruct (walk _ _ _ _ _ _ _ _ _ _) as [e|[out2 [|]]]; simpl; try done.
    destruct Hg as [-> Hg], IH as [-> IH]. rewrite (take1_drop _ _ _ Hc). split.
    + by rewrite <- (slice_drop candidate cs j c).
    + rewrite <- (slice_drop candidate cs j c), <- (slice_drop held hs i h) by done.
      apply keeps_app; [done|]. by constructor.
  - destruct (_ <=? _)%nat; apply IH; lia.
Qed.

End alignment.

#[local] Existing Instance ascii_tables.

Example align_replace : preserve_group_content "ala ma kota" "Ala ma psa." = inr ("Ala ma psa."%string, false).
Proof. vm_compute. reflexivity. Qed.
Example align_keep : preserve_group_content "ala ma kota" "ala ma" = inr ("ala ma kota"%string, true).
Proof. vm_compute. reflexivity. Qed.
Example align_ambiguous : preserve_group_content "jeden dwa" "trzy cztery" = inl Ambiguous.
Proof. vm_compute. reflexivity. Qed.
Example align_similar : preserve_group_content "gabowa to jest" "gabowo nie jest"
  = inr ("gabowo nie jest"%string, false).
Proof. vm_compute. reflexivity. Qed.
