(* ===== verification/LedgerIdentity.v ===== *)
(** LedgerIdentity: the keys and answers of the acoustic ledger
    (core/pipeline/acoustic_ledger.rs, the identity and receipt types, and
    the sample range of core/stt/tail_provider.rs).

    An [OccurrenceIdentity] is a PCM range of one capture epoch of one
    session; it is the only key of the ledger.  [relate] classifies two of
    them, and the theorems below state that classification in terms of the
    sets of samples the ranges name. *)

From S2P Require Import Prelude.
#[local] Open Scope Z_scope.

(* ------------------------------------------------------------------ *)
(** ** Occurrence identity *)

Record OccurrenceIdentity := mkOccurrence {
  session : string;
  capture_epoch : Z;
  sample_start : Z;
  sample_end : Z
}.

#[global] Instance OccurrenceIdentity_eq_dec : EqDecision OccurrenceIdentity.
Proof. solve_decision. Defined.

#[global] Instance OccurrenceIdentity_countable : Countable OccurrenceIdentity.
Proof.
  apply (inj_countable'
    (λ o, (session o, capture_epoch o, sample_start o, sample_end o))
    (λ '(s, e, a, b), mkOccurrence s e a b)).
  by intros [].
Defined.

Definition sample_len (o : OccurrenceIdentity) : Z :=
  sat_sub (sample_end o) (sample_start o).

Definition is_anchored (o : OccurrenceIdentity) : bool :=
  sample_start o <? sample_end o.

Definition same_capture (a b : OccurrenceIdentity) : bool :=
  String.eqb (session a) (session b) && (capture_epoch a =? capture_epoch b).

Inductive OccurrenceRelation :=
  | Same
  | Overlapping (overlap_samples : Z)
  | Disjoint
  | Unanchored
  | DifferentCapture.

#[global] Instance OccurrenceRelation_eq_dec : EqDecision OccurrenceRelation.
Proof. solve_decision. Defined.

Definition relate (self committed : OccurrenceIdentity) : OccurrenceRelation :=
  if negb (same_capture self committed) then DifferentCapture
  else if negb (is_anchored self) || negb (is_anchored committed) then Unanchored
  else if (sample_start self =? sample_start committed)
          && (sample_end self =? sample_end committed) then Same
  else
    let overlap_start := Z.max (sample_start self) (sample_start committed) in
    let overlap_end := Z.min (sample_end self) (sample_end committed) in
    if overlap_start <? overlap_end
    then Overlapping (overlap_end - overlap_start)
    else Disjoint.

(** A PCM range as decoders and observers carry it. *)
Record TailSampleRange := mkTailRange {
  tr_session : string;
  tr_capture_epoch : Z;
  tr_sample_start : Z;
  tr_sample_end : Z
}.

#[global] Instance TailSampleRange_eq_dec : EqDecision TailSampleRange.
Proof. solve_decision. Defined.

Definition tail_sample_len (r : TailSampleRange) : option Z :=
  checked_sub (tr_sample_end r) (tr_sample_start r).

Definition tail_contains (a b : TailSampleRange) : bool :=
  String.eqb (tr_session a) (tr_session b)
  && (tr_capture_epoch a =? tr_capture_epoch b)
  && (tr_sample_start a <=? tr_sample_start b)
  && (tr_sample_end b <=? tr_sample_end a).

Definition tail_overlaps (a b : TailSampleRange) : bool :=
  String.eqb (tr_session a) (tr_session b)
  && (tr_capture_epoch a =? tr_capture_epoch b)
  && (tr_sample_start a <? tr_sample_end b)
  && (tr_sample_start b <? tr_sample_end a).

Definition occurrence_of_tail (r : TailSampleRange) : OccurrenceIdentity :=
  mkOccurrence (tr_session r) (tr_capture_epoch r) (tr_sample_start r) (tr_sample_end r).

(** The derived [Ord] of [OccurrenceIdentity]: field by field. *)
Definition occ_ltb (a b : OccurrenceIdentity) : bool :=
  match String.compare (session a) (session b) with
  | Lt => true
  | Gt => false
  | Eq =>
    match Z.compare (capture_epoch a) (capture_epoch b) with
    | Lt => true
    | Gt => false
    | Eq =>
      match Z.compare (sample_start a) (sample_start b) with
      | Lt => true
      | Gt => false
      | Eq => sample_end a <? sample_end b
      end
    end
  end.

Definition occ_le (a b : OccurrenceIdentity) : Prop := occ_ltb b a = false.

#[global] Instance occ_le_dec a b : Decision (occ_le a b).
Proof. unfold occ_le; apply _. Defined.

(** Iteration order of a [BTreeMap] or [BTreeSet] keyed by occurrences. *)
Definition btree_keys {A} (m : gmap OccurrenceIdentity A) : list OccurrenceIdentity :=
  merge_sort occ_le (map_to_list m).*1.

Definition btree_elements (s : gset OccurrenceIdentity) : list OccurrenceIdentity :=
  merge_sort occ_le (elements s).

(* ------------------------------------------------------------------ *)
(** ** Producers and observations *)

Inductive ObservationProducer :=
  | Apple | CloudLive | AppleDictation | Whisper | Lexicon | Formatter | ManualHuman.

#[global] Instance ObservationProducer_eq_dec : EqDecision ObservationProducer.
Proof. solve_decision. Defined.

Definition authority_rank (p : ObservationProducer) : Z :=
  match p with
  | Apple => 0
  | CloudLive => 1
  | AppleDictation => 2
  | Whisper => 3
  | Lexicon => 4
  | Formatter => 5
  | ManualHuman => 6
  end.

(** Declaration order, which the derived [Ord] follows. *)
Definition all_producers : list ObservationProducer :=
  [Apple; CloudLive; AppleDictation; Whisper; Lexicon; Formatter; ManualHuman].

#[global] Instance ObservationProducer_countable : Countable ObservationProducer.
Proof.
  refine (inj_countable authority_rank (λ z, nth_error all_producers (Z.to_nat z)) _).
  by intros [].
Defined.

Definition layer_label (p : ObservationProducer) : string :=
  match p with
  | Apple => "apple"
  | CloudLive => "cloud_live"
  | AppleDictation => "apple_dictation"
  | Whisper => "whisper"
  | Lexicon | Formatter => "retained_text"
  | ManualHuman => "manual_human"
  end.

Definition producer_as_str (p : ObservationProducer) : string :=
  match p with
  | Apple => "apple"
  | CloudLive => "cloud_live"
  | AppleDictation => "apple_dictation"
  | Whisper => "whisper"
  | Lexicon => "lexicon"
  | Formatter => "formatter"
  | ManualHuman => "manual_human"
  end.

Record ObservationIdentity := mkObservation {
  producer : ObservationProducer;
  request : Z;
  generation : Z;
  occurrence : OccurrenceIdentity
}.

#[global] Instance ObservationIdentity_eq_dec : EqDecision ObservationIdentity.
Proof. solve_decision. Defined.

#[global] Instance ObservationIdentity_countable : Countable ObservationIdentity.
Proof.
  apply (inj_countable'
    (λ o, (producer o, request o, generation o, occurrence o))
    (λ '(p, r, g, o), mkObservation p r g o)).
  by intros [].
Defined.

(* ------------------------------------------------------------------ *)
(** ** Reasons and receipts *)

Inductive NoAuthorityReason :=
  | ZeroWidth
  | NoRange
  | OverlapWithoutWordPins
  | ExclusiveTailAwaitingWholeSpan
  | LateWhisperWordSealedOwner
  | LateCloudLiveWordSealedOwner
  | LateAppleWordSealedOwner
  | LateAppleWordNotCurrent
  | NoMeasuredSpeech.

#[global] Instance NoAuthorityReason_eq_dec : EqDecision NoAuthorityReason.
Proof. solve_decision. Defined.

Definition no_authority_as_str (r : NoAuthorityReason) : string :=
  match r with
  | LateWhisperWordSealedOwner => "late_whisper_word_sealed_owner"
  | LateCloudLiveWordSealedOwner => "late_cloud_live_word_sealed_owner"
  | LateAppleWordSealedOwner => "late_apple_word_sealed_owner"
  | LateAppleWordNotCurrent => "late_apple_word_not_current"
  | ZeroWidth => "zero_width"
  | NoRange => "no_range"
  | OverlapWithoutWordPins => "overlap_without_word_pins"
  | ExclusiveTailAwaitingWholeSpan => "exclusive_tail_awaiting_whole_span"
  | NoMeasuredSpeech => "no_measured_speech"
  end.

Inductive SilenceUnderSpan :=
  | DigitalZero | BelowFloor | SoundWithoutSpeech | EnergyUnmeasured.

#[global] Instance SilenceUnderSpan_eq_dec : EqDecision SilenceUnderSpan.
Proof. solve_decision. Defined.

Definition silence_as_str (s : SilenceUnderSpan) : string :=
  match s with
  | DigitalZero => "digital_zero"
  | BelowFloor => "below_floor"
  | SoundWithoutSpeech => "sound_without_speech"
  | EnergyUnmeasured => "energy_unmeasured"
  end.

Inductive RefuseReason :=
  | SealedReplay
  | SlotAdmissionRejected
  | AuthorityConflict
  | BatchDuplicate
  | EmptyLabel
  | ReplayedRangeIdentity
  | IntersectingPinNotExclusive
  | ReplacedByWhisper
  | ReplacedByCloudLive
  | ClockLie
  | UnrecoveredSpeech
  | NoVoicedHopInPin
  | SpanWithoutOwnSpeech
  | SpanExceedsSyllableCeiling
  | IdenticalRepeatWithoutOwnVoicedSegment
  | ConfirmedNoSpeech
  | NoSpeechNearSpan (silence : SilenceUnderSpan) (distance_ms : option Z).

#[global] Instance RefuseReason_eq_dec : EqDecision RefuseReason.
Proof. solve_decision. Defined.

Definition refuse_as_str (r : RefuseReason) : string :=
  match r with
  | SealedReplay => "sealed_replay"
  | SlotAdmissionRejected => "slot_admission_rejected"
  | AuthorityConflict => "authority_conflict"
  | BatchDuplicate => "batch_duplicate"
  | EmptyLabel => "empty_label"
  | ReplayedRangeIdentity => "replayed_range_identity"
  | IntersectingPinNotExclusive => "intersecting_pin_not_exclusive"
  | ReplacedByWhisper => "replaced_by_whisper"
  | ReplacedByCloudLive => "replaced_by_cloud_live"
  | ClockLie => "clock_lie"
  | UnrecoveredSpeech => "unrecovered_speech"
  | NoVoicedHopInPin => "no_voiced_hop_in_pin"
  | SpanWithoutOwnSpeech => "span_without_own_speech"
  | SpanExceedsSyllableCeiling => "span_exceeds_syllable_ceiling"
  | IdenticalRepeatWithoutOwnVoicedSegment =>
      "identical_repeat_without_own_voiced_segment"
  | ConfirmedNoSpeech => "confirmed_no_speech"
  | NoSpeechNearSpan _ _ => "no_speech_near_span"
  end.

Inductive OverlapPinClass :=
  | ExclusiveTail (member_index : nat)
  | Replay
  | UnanchoredPin (reason : NoAuthorityReason).

#[global] Instance OverlapPinClass_eq_dec : EqDecision OverlapPinClass.
Proof. solve_decision. Defined.

Inductive MutationReceipt :=
  | Preserve (o : OccurrenceIdentity) (held_by : ObservationProducer)
  | Correct (o : OccurrenceIdentity) (from to : ObservationProducer)
  | Insert (o : OccurrenceIdentity)
  | KeepVisibleUnanchored (o : OccurrenceIdentity) (label : string) (reason : NoAuthorityReason)
  | Refuse (o : OccurrenceIdentity) (reason : RefuseReason).

#[global] Instance MutationReceipt_eq_dec : EqDecision MutationReceipt.
Proof. solve_decision. Defined.

Definition is_insert (r : MutationReceipt) : bool :=
  match r with Insert _ => true | _ => false end.

Definition is_correct (r : MutationReceipt) : bool :=
  match r with Correct _ _ _ => true | _ => false end.

Definition grants_mutation (r : MutationReceipt) : bool :=
  match r with Insert _ | Correct _ _ _ => true | _ => false end.

Definition receipt_as_str (r : MutationReceipt) : string :=
  match r with
  | Preserve _ _ => "preserve"
  | Correct _ _ _ => "correct"
  | Insert _ => "insert"
  | KeepVisibleUnanchored _ _ _ => "keep_visible_unanchored"
  | Refuse _ _ => "refuse"
  end.

(** Declared-clock word geometry. *)
Definition declared_range_contains_midpoint
    (host_start host_end subject_start subject_end : Z) : bool :=
  let len := sat_sub subject_end subject_start in
  if len =? 0 then false
  else
    let centre := subject_start + len `div` 2 in
    (host_start <=? centre) && (centre <? host_end).

(** [shorter.div_ceil(2)]. *)
Definition div_ceil2 (z : Z) : Z := (z + 1) `div` 2.

Definition declared_ranges_share_word
    (left_start left_end right_start right_end : Z) : bool :=
  let left_len := sat_sub left_end left_start in
  let right_len := sat_sub right_end right_start in
  if (left_len =? 0) || (right_len =? 0) then false
  else
    let overlap := sat_sub (Z.min left_end right_end) (Z.max left_start right_start) in
    let shorter := Z.min left_len right_len in
    if overlap <? div_ceil2 shorter then false
    else declared_range_contains_midpoint left_start left_end right_start right_end
         || declared_range_contains_midpoint right_start right_end left_start left_end.

(* ------------------------------------------------------------------ *)
(** ** The order of occurrences *)

Lemma string_compare_refl s : String.compare s s = Eq.
Proof.
  induction s as [|c s IH]; simpl; [done|]. unfold Ascii.compare. by rewrite N.compare_refl.
Qed.

Lemma string_compare_trans s t u :
  String.compare s t = Lt → String.compare t u = Lt → String.compare s u = Lt.
Proof.
  revert t u. induction s as [|a s IH]; intros [|b t] [|c u]; simpl; try done.
  unfold Ascii.compare.
  destruct (N.compare_spec (Ascii.N_of_ascii a) (Ascii.N_of_ascii b));
    destruct (N.compare_spec (Ascii.N_of_ascii b) (Ascii.N_of_ascii c));
    destruct (N.compare_spec (Ascii.N_of_ascii a) (Ascii.N_of_ascii c)); try done; try lia.
  apply IH.
Qed.

(** [occ_ltb] as the lexicographic order it is. *)
Definition occ_lt (a b : OccurrenceIdentity) : Prop :=
  String.compare (session a) (session b) = Lt ∨
  (session a = session b ∧
   (capture_epoch a < capture_epoch b ∨
    (capture_epoch a = capture_epoch b ∧
     (sample_start a < sample_start b ∨
      (sample_start a = sample_start b ∧ sample_end a < sample_end b))))).

Lemma occ_ltb_lt a b : occ_ltb a b = true ↔ occ_lt a b.
Proof.
  unfold occ_ltb, occ_lt. destruct (String.compare (session a) (session b)) eqn:Hs.
  - apply String.compare_eq_iff in Hs.
    destruct (Z.compare_spec (capture_epoch a) (capture_epoch b));
      [destruct (Z.compare_spec (sample_start a) (sample_start b))|..];
      rewrite ?Z.ltb_lt; split; intros; destruct_or?; destruct_and?; try done; try lia; auto 8.
  - split; auto.
  - split; [done|]. intros [?|[He _]]; [done|]. rewrite He, string_compare_refl in Hs. done.
Qed.

#[global] Instance occ_lt_trans : Transitive occ_lt.
Proof.
  intros a b c. unfold occ_lt. intros [H1|[E1 H1]] [H2|[E2 H2]].
  - left. by eapply string_compare_trans.
  - left. by rewrite <- E2.
  - left. by rewrite E1.
  - right. split; [congruence|]. lia.
Qed.

Lemma occ_lt_trichotomy a b : occ_lt a b ∨ a = b ∨ occ_lt b a.
Proof.
  unfold occ_lt. destruct a as [s e x y], b as [s' e' x' y']; simpl.
  destruct (String.compare s s') eqn:Hs; [|auto|].
  - apply String.compare_eq_iff in Hs as ->.
    destruct (Z.lt_trichotomy e e') as [|[->|]]; [auto 15| |auto 15].
    destruct (Z.lt_trichotomy x x') as [|[->|]]; [auto 15| |auto 15].
    destruct (Z.lt_trichotomy y y') as [|[->|]]; auto 15.
  - right; right; left. rewrite String.compare_antisym, Hs. done.
Qed.

Lemma occ_lt_irrefl a : ¬ occ_lt a a.
Proof. unfold occ_lt. rewrite string_compare_refl. intros [?|?]; [done|lia]. Qed.

Lemma occ_le_lt a b : occ_le a b ↔ ¬ occ_lt b a.
Proof. unfold occ_le. rewrite <- not_true_iff_false, occ_ltb_lt. done. Qed.

Lemma occ_le_cases a b : occ_le a b ↔ a = b ∨ occ_lt a b.
Proof.
  rewrite occ_le_lt. destruct (occ_lt_trichotomy a b) as [H|[->|H]].
  - split; [auto|]. intros _ H'. apply (occ_lt_irrefl a). by transitivity b.
  - split; [auto|]. intros _. apply occ_lt_irrefl.
  - split; [done|]. intros [->|H'] _; [by apply (occ_lt_irrefl b)|].
    apply (occ_lt_irrefl a). by transitivity b.
Qed.

#[global] Instance occ_le_trans : Transitive occ_le.
Proof.
  intros a b c. rewrite !occ_le_cases. intros [->|H1] [->|H2]; auto. right. by etrans.
Qed.

#[global] Instance occ_le_total : Total occ_le.
Proof.
  intros a b. rewrite !occ_le_cases. destruct (occ_lt_trichotomy a b) as [|[|]]; auto.
Qed.

#[global] Instance occ_le_antisymm : AntiSymm (=) occ_le.
Proof.
  intros a b. rewrite !occ_le_cases. intros H1 H2.
  destruct H1 as [->|H1]; [done|]. destruct H2 as [->|H2]; [done|].
  exfalso. apply (occ_lt_irrefl a). by transitivity b.
Qed.

(** A sorted list is determined by its members. *)
Lemma occ_sort_unique l1 l2 :
  StronglySorted occ_le l1 → l1 ≡ₚ l2 → l1 = merge_sort occ_le l2.
Proof.
  intros Hs Hp. apply (StronglySorted_unique occ_le); [done|by apply StronglySorted_merge_sort; apply _|].
  by rewrite merge_sort_Permutation.
Qed.

Lemma btree_keys_spec {A} (m : gmap OccurrenceIdentity A) o : o ∈ btree_keys m ↔ is_Some (m !! o).
Proof.
  unfold btree_keys. rewrite (merge_sort_Permutation _ _). rewrite list_elem_of_fmap.
  split.
  - intros ([k v] & -> & Hk). apply elem_of_map_to_list in Hk. eauto.
  - intros [v Hv]. exists (o, v). split; [done|]. by apply elem_of_map_to_list.
Qed.

Lemma btree_keys_NoDup {A} (m : gmap OccurrenceIdentity A) : NoDup (btree_keys m).
Proof.
  unfold btree_keys. rewrite (merge_sort_Permutation _ _). apply NoDup_fst_map_to_list.
Qed.

Lemma btree_keys_sorted {A} (m : gmap OccurrenceIdentity A) : StronglySorted occ_le (btree_keys m).
Proof. apply StronglySorted_merge_sort; apply _. Qed.

Lemma btree_elements_spec (s : gset OccurrenceIdentity) o : o ∈ btree_elements s ↔ o ∈ s.
Proof. unfold btree_elements. rewrite (merge_sort_Permutation _ _). apply elem_of_elements. Qed.

Lemma btree_elements_NoDup (s : gset OccurrenceIdentity) : NoDup (btree_elements s).
Proof. unfold btree_elements. rewrite (merge_sort_Permutation _ _). apply NoDup_elements. Qed.

(* ------------------------------------------------------------------ *)
(** ** What a relation between ranges means *)

(** The sample is in the range. *)
Definition hears (o : OccurrenceIdentity) (s : Z) : Prop := sample_start o <= s < sample_end o.

Lemma is_anchored_hears o : is_anchored o = true ↔ ∃ s, hears o s.
Proof.
  unfold is_anchored, hears. split.
  - intros H. zbool. exists (sample_start o). lia.
  - intros [s Hs]. apply Z.ltb_lt. lia.
Qed.

Lemma relate_sym a b : relate a b = relate b a.
Proof.
  unfold relate, same_capture.
  rewrite (String.eqb_sym (session b)), (Z.eqb_sym (capture_epoch b)),
    (Z.eqb_sym (sample_start b)), (Z.eqb_sym (sample_end b)),
    (Z.max_comm (sample_start b)), (Z.min_comm (sample_end b)),
    (orb_comm (negb (is_anchored b))). done.
Qed.

(** the relation of two ranges is symmetric and says exactly which samples
    they share: different captures are never compared, a range without samples
    has no relation, Same means identical ranges, Overlapping n that they
    differ and share exactly a run of n samples, and Disjoint that they share
    none. *)
Theorem relate_exact a b :
  relate a b = relate b a ∧
  match relate a b with
  | DifferentCapture => same_capture a b = false
  | Unanchored => same_capture a b = true ∧ ((∀ s, ¬ hears a s) ∨ (∀ s, ¬ hears b s))
  | Same => a = b ∧ ∃ s, hears a s
  | Overlapping n => same_capture a b = true ∧ a ≠ b ∧ 0 < n ∧
      ∃ first, ∀ s, hears a s ∧ hears b s ↔ first <= s < first + n
  | Disjoint => same_capture a b = true ∧ (∃ s, hears a s) ∧ (∃ s, hears b s) ∧
      ∀ s, ¬ (hears a s ∧ hears b s)
  end.
Proof.
  split; [apply relate_sym|]. unfold relate.
  destruct (same_capture a b) eqn:Hc; [cbn [negb]|done].
  destruct (is_anchored a) eqn:Ha; cbn [negb orb].
  2:{ split; [done|]. left. intros s Hs. assert (is_anchored a = true) by
        (apply is_anchored_hears; eauto). congruence. }
  destruct (is_anchored b) eqn:Hb; cbn [negb orb].
  2:{ split; [done|]. right. intros s Hs. assert (is_anchored b = true) by
        (apply is_anchored_hears; eauto). congruence. }
  apply is_anchored_hears in Ha, Hb.
  destruct (_ && _) eqn:Hs.
  - zbool. split; [|done]. unfold same_capture in Hc. zbool.
    apply String.eqb_eq in H1. destruct a, b; simpl in *; congruence.
  - assert (Hne : a ≠ b) by (intros ->; rewrite !Z.eqb_refl in Hs; done).
    destruct (_ <? _) eqn:Ho; zbool.
    + split_and!; try done; [lia|]. exists (Z.max (sample_start a) (sample_start b)).
      unfold hears. lia.
    + split_and!; try done. unfold hears. lia.
Qed.

(** two declared ranges that share a word share at least half of the
    shorter one, and the test does not depend on the order of the ranges. *)
Theorem share_word_overlap ls le rs re :
  declared_ranges_share_word ls le rs re = declared_ranges_share_word rs re ls le ∧
  (declared_ranges_share_word ls le rs re = true →
   ls < le ∧ rs < re ∧
   Z.min (le - ls) (re - rs) <= 2 * (Z.min le re - Z.max ls rs)).
Proof.
  split.
  - unfold declared_ranges_share_word.
    rewrite (orb_comm (_ =? 0)), (Z.min_comm le re), (Z.max_comm ls rs),
      (Z.min_comm (sat_sub le ls)).
    destruct (_ || _); [done|]. destruct (_ <? _); [done|]. apply orb_comm.
  - unfold declared_ranges_share_word, div_ceil2.
    destruct (_ || _) eqn:Hz; [done|]. destruct (_ <? _) eqn:Hl; [done|]. intros _.
    zbool. unfold sat_sub in *. Z.to_euclidean_division_equations. lia.
Qed.
