(* ===== verification/LedgerSpans.v ===== *)
(** LedgerSpans: the merged decode spans a capture keeps
    (core/pipeline/acoustic_ledger/slot_ops.rs, [record_complete_decode_span]
    and [complete_decode_covers]).

    The ledger joins every returned Whisper or cloud window into a sorted list
    of separated spans, so that "complete decode covered this owner" is one
    binary search.  The reference notion is the union of the recorded windows
    as a set of samples. *)

From S2P Require Import Prelude.
From S2P Require Import LedgerIdentity.
#[local] Open Scope Z_scope.

(** [complete_decode_spans]: session, then capture epoch, then merged spans. *)
Abbreviation DecodeSpans := (gmap string (gmap Z (list (Z * Z)))).

Definition spans_of (m : DecodeSpans) (sess : string) (epoch : Z) : option (list (Z * Z)) :=
  epochs ← m !! sess; epochs !! epoch.

Definition spans_cover (spans : list (Z * Z)) (lo hi : Z) : bool :=
  let index := partition_point (λ '(start, _), start <=? lo) spans in
  (0 <? Z.of_nat index)
  && match nth_error spans (index - 1) with
     | Some (_, e) => hi <=? e
     | None => false
     end.

Definition complete_decode_covers (m : DecodeSpans) (owner : OccurrenceIdentity) : bool :=
  if sample_end owner <=? sample_start owner then false
  else
    match spans_of m (session owner) (capture_epoch owner) with
    | None => false
    | Some spans => spans_cover spans (sample_start owner) (sample_end owner)
    end.

Definition merge_span (spans : list (Z * Z)) (start end_ : Z) : list (Z * Z) :=
  let first := partition_point (λ '(_, span_end), span_end <? start) spans in
  let last := partition_point (λ '(span_start, _), span_start <=? end_) spans in
  let merged :=
    fold_left (λ '(lo, hi) '(span_start, span_end), (Z.min lo span_start, Z.max hi span_end))
      (take (last - first) (drop first spans)) (start, end_) in
  take first spans ++ merged :: drop last spans.

Definition is_decode_producer (p : ObservationProducer) : bool :=
  match p with Whisper | CloudLive => true | _ => false end.

Definition record_complete_decode_span
    (m : DecodeSpans) (observation : ObservationIdentity) (span : Z * Z) : DecodeSpans :=
  let '(start, end_) := span in
  if (end_ <=? start) || negb (is_decode_producer (producer observation)) then m
  else
    let sess := session (occurrence observation) in
    let epoch := capture_epoch (occurrence observation) in
    let epochs := default ∅ (m !! sess) in
    let spans := default [] (epochs !! epoch) in
    <[sess := <[epoch := merge_span spans start end_]> epochs]> m.

(* ------------------------------------------------------------------ *)
(** ** The reference notion and the invariant *)

Definition in_range (z : Z) (r : Z * Z) : Prop := r.1 <= z < r.2.
Definition in_spans (z : Z) (l : list (Z * Z)) : Prop := ∃ r, r ∈ l ∧ in_range z r.

(** Spans are nonempty, sorted and separated by at least one sample. *)
Definition spans_ok (l : list (Z * Z)) : Prop :=
  StronglySorted (λ a b : Z * Z, a.2 < b.1) l ∧ Forall (λ r : Z * Z, r.1 < r.2) l.

Lemma in_spans_app z l1 l2 : in_spans z (l1 ++ l2) ↔ in_spans z l1 ∨ in_spans z l2.
Proof. unfold in_spans. setoid_rewrite elem_of_app. naive_solver. Qed.

Lemma in_spans_cons z r l : in_spans z (r :: l) ↔ in_range z r ∨ in_spans z l.
Proof. unfold in_spans. setoid_rewrite elem_of_cons. naive_solver. Qed.

Lemma in_spans_nil z : ¬ in_spans z [].
Proof. intros (r & Hr & _). by apply not_elem_of_nil in Hr. Qed.

#[export] Hint Rewrite in_spans_app in_spans_cons : s2p.

(** One application of the merging fold keeps the union. *)
Lemma fold_merge_union (l : list (Z * Z)) (lo hi : Z) :
  lo < hi →
  Forall (λ r : Z * Z, r.1 < r.2 ∧ r.1 <= hi ∧ lo <= r.2) l →
  let '(lo', hi') :=
    fold_left (λ '(lo, hi) '(s, e), (Z.min lo s, Z.max hi e)) l (lo, hi) in
  lo' <= lo ∧ hi <= hi' ∧
  (∀ z, lo' <= z < hi' ↔ lo <= z < hi ∨ in_spans z l) ∧
  (∀ b, b < lo → Forall (λ r : Z * Z, b < r.1) l → b < lo') ∧
  (∀ b, hi < b → Forall (λ r : Z * Z, r.2 < b) l → hi' < b).
Proof.
  revert lo hi. induction l as [|[s e] l IH]; intros lo hi Hlt Hl; simpl.
  - repeat split; try lia; intros; auto. destruct H as [H|H]; [lia|by apply in_spans_nil in H].
    destruct H as [H|H]; [lia|by apply in_spans_nil in H].
  - apply Forall_cons in Hl as [(Hse & Hsh & Hle) Hl]; simpl in *.
    specialize (IH (Z.min lo s) (Z.max hi e) ltac:(lia)).
    assert (Hl' : Forall (λ r : Z * Z, r.1 < r.2 ∧ r.1 <= Z.max hi e ∧ Z.min lo s <= r.2) l)
      by (eapply Forall_impl; [exact Hl|simpl; intros; lia]).
    specialize (IH Hl').
    destruct (fold_left _ l _) as [lo' hi'] eqn:Hf.
    destruct IH as (H1 & H2 & H3 & H4 & H5).
    split; [lia|]. split; [lia|]. split; [|split].
    + intros z. rewrite H3, in_spans_cons. unfold in_range; simpl.
      assert (Z.min lo s <= z < Z.max hi e ↔ lo <= z < hi ∨ s <= z < e) as -> by lia.
      tauto.
    + intros b Hb Hall. apply Forall_cons in Hall as [? ?]. simpl in *. apply H4; [lia|done].
    + intros b Hb Hall. apply Forall_cons in Hall as [? ?]. simpl in *. apply H5; [lia|done].
Qed.

Section merge.
  Context (l : list (Z * Z)) (start end_ : Z) (Hok : spans_ok l) (Hlt : start < end_).

Let first := partition_point (λ '(_, e), e <? start) l.
Let last := partition_point (λ '(s, _), s <=? end_) l.

Lemma merge_first : Forall (λ r : Z * Z, r.2 < start) (take first l).
  Proof.
    eapply Forall_impl; [apply partition_point_take|].
    intros [s e] H; simpl in *; zbool; lia.
  Qed.

Lemma merge_first_drop : Forall (λ r : Z * Z, start <= r.2) (drop first l).
  Proof.
    destruct Hok as [Hs Hne]. eapply Forall_impl.
    - eapply (partition_point_drop _ _ l Hs).
      intros [s e] [s' e'] Hx Hy HR Hp; simpl in *; zbool.
      rewrite Forall_forall in Hne. apply Hne in Hy. simpl in *. apply Z.ltb_lt; lia.
    - intros [s e] H; simpl in *; zbool; lia.
  Qed.

Lemma merge_last : Forall (λ r : Z * Z, r.1 <= end_) (take last l).
  Proof.
    eapply Forall_impl; [apply partition_point_take|].
    intros [s e] H; simpl in *; zbool; lia.
  Qed.

Lemma merge_last_drop : Forall (λ r : Z * Z, end_ < r.1) (drop last l).
  Proof.
    destruct Hok as [Hs Hne]. eapply Forall_impl.
    - eapply (partition_point_drop _ _ l Hs).
      intros [s e] [s' e'] Hx Hy HR Hp; simpl in *; zbool.
      rewrite Forall_forall in Hne. apply Hne in Hx. simpl in *. apply Z.leb_le; lia.
    - intros [s e] H; simpl in *; zbool; lia.
  Qed.

  (** The slice bounds are ordered, so taking the slice cannot panic. *)
Lemma merge_bounds : (first <= last)%nat.
  Proof.
    apply partition_point_ge; [apply partition_point_le|].
    rewrite Forall_forall. intros [s e] Hin.
    pose proof (Forall_elem _ _ _ merge_first Hin) as Hf.
    destruct Hok as [_ Hne]. pose proof (Forall_elem _ _ _ Hne (elem_take _ _ _ Hin)).
    simpl in *. apply Z.leb_le. lia.
  Qed.

Let mid := take (last - first) (drop first l).

Lemma merge_split : l = take first l ++ mid ++ drop last l.
  Proof.
    unfold mid. pose proof merge_bounds.
    rewrite <- (take_drop first l) at 1. f_equal.
    rewrite <- (take_drop (last - first) (drop first l)) at 1. f_equal.
    rewrite drop_drop. f_equal. lia.
  Qed.

Lemma merge_mid : Forall (λ r : Z * Z, r.1 < r.2 ∧ r.1 <= end_ ∧ start <= r.2) mid.
  Proof.
    pose proof merge_bounds. rewrite Forall_forall. intros r Hr.
    assert (Hd : r ∈ drop first l) by (by eapply elem_take).
    assert (Hl : r ∈ take last l).
    { unfold mid in Hr. rewrite take_drop_commute in Hr. apply elem_drop in Hr.
      by replace (first + (last - first))%nat with last in Hr by lia. }
    destruct Hok as [_ Hne]. split; [|split].
    - by pose proof (Forall_elem _ _ _ Hne (elem_drop _ _ _ Hd)).
    - by pose proof (Forall_elem _ _ _ merge_last Hl).
    - by pose proof (Forall_elem _ _ _ merge_first_drop Hd).
  Qed.
End merge.

(** Merging one window keeps the spans well formed and adds exactly its samples. *)
Lemma merge_span_ok l start end_ :
  spans_ok l → start < end_ →
  spans_ok (merge_span l start end_) ∧
  ∀ z, in_spans z (merge_span l start end_) ↔ in_spans z l ∨ start <= z < end_.
Proof.
  intros Hok Hlt.
  pose proof (merge_first l start end_) as HA.
  pose proof (merge_last_drop l start end_ Hok) as HD.
  pose proof (merge_mid l start end_ Hok Hlt) as HM.
  pose proof (merge_split l start end_ Hok Hlt) as Hsplit.
  pose proof (fold_merge_union _ start end_ Hlt HM) as Hfold.
  unfold merge_span.
  set (first := partition_point (λ '(_, e), e <? start) l) in *.
  set (last := partition_point (λ '(s, _), s <=? end_) l) in *.
  set (M := take (last - first) (drop first l)) in *.
  set (A := take first l) in *. set (D := drop last l) in *.
  destruct (fold_left _ M _) as [lo hi].
  destruct Hfold as (Hlo & Hhi & Hun & Hbl & Hbr).
  destruct Hok as [Hs Hne]. rewrite Hsplit in Hs, Hne.
  apply StronglySorted_app in Hs as (HAx & HsA & Hs).
  apply StronglySorted_app in Hs as (HMD & _ & HsD).
  rewrite !Forall_app in Hne. destruct Hne as (HnA & _ & HnD).
  assert (HAlo : ∀ r, r ∈ A → r.2 < lo).
  { intros r Hr. apply Hbl; [by apply (Forall_elem _ _ _ HA)|].
    rewrite Forall_forall. intros r' Hr'. apply HAx; [done|]. set_solver. }
  assert (HDhi : ∀ r, r ∈ D → hi < r.1).
  { intros r Hr. apply Hbr; [by apply (Forall_elem _ _ _ HD)|].
    rewrite Forall_forall. intros r' Hr'. by apply HMD. }
  split; [split|].
  - apply StronglySorted_app. split; [|split; [done|]].
    + intros x y Hx [->|Hy]%elem_of_cons; simpl; [by apply HAlo|].
      apply HAx; set_solver.
    + constructor; [done|]. rewrite Forall_forall. intros; simpl; by apply HDhi.
  - rewrite Forall_app, Forall_cons. simpl. split; [done|]. split; [lia|done].
  - intros z. rewrite Hsplit. rewrite !in_spans_app, in_spans_cons.
    unfold in_range at 1; simpl. rewrite Hun. tauto.
Qed.

(** On well-formed spans the binary search decides the covering of a range. *)
Lemma spans_cover_spec l lo hi :
  spans_ok l → lo < hi →
  spans_cover l lo hi = true ↔ ∀ z, lo <= z < hi → in_spans z l.
Proof.
  intros [Hs Hne] Hlt. unfold spans_cover.
  set (p := λ '(start, _), start <=? lo).
  pose proof (partition_point_take p l) as HT.
  assert (HD : Forall (λ x, p x = false) (drop (partition_point p l) l)).
  { apply (partition_point_drop _ _ l Hs). intros [s e] [s' e'] Hx _ HR Hp; simpl in *; zbool.
    pose proof (Forall_elem _ _ _ Hne Hx). simpl in *. apply Z.leb_le. lia. }
  pose proof (take_drop (partition_point p l) l) as Hl.
  assert (Hlen : length (take (partition_point p l) l) = partition_point p l).
  { rewrite length_take. pose proof (partition_point_le p l). lia. }
  set (n := partition_point p l) in *.
  set (T := take n l) in *. set (D := drop n l) in *.
  destruct (decide (T = [])) as [HT0|HT0]; [|destruct (exists_last HT0) as (T' & [s e] & HT')].
  - rewrite HT0 in Hlen; simpl in Hlen. rewrite <- Hlen; simpl.
    split; [done|]. intros Hall. destruct (Hall lo ltac:(lia)) as ([s e] & Hin & Hr).
    rewrite <- Hl, HT0 in Hin; simpl in Hin.
    pose proof (Forall_elem _ _ _ HD Hin) as Hp. unfold in_range in Hr; simpl in *; zbool; lia.
  - rewrite HT' in Hlen, HT. rewrite length_app in Hlen; simpl in Hlen.
    assert (Hnth : nth_error l (n - 1) = Some (s, e)).
    { rewrite <- Hl, HT', <- (app_assoc T'). rewrite nth_error_app2 by lia.
      by replace (n - 1 - length T')%nat with 0%nat by lia. }
    rewrite Hnth. replace (0 <? Z.of_nat n) with true by (symmetry; apply Z.ltb_lt; lia).
    simpl. apply Forall_app in HT as [_ HT]. apply Forall_cons in HT as [Hp _]. simpl in Hp.
    zbool. rewrite <- Hl, HT' in Hs. rewrite Z.leb_le. split.
    + intros Hhi z Hz. exists (s, e). split; [|unfold in_range; simpl; lia].
      rewrite <- Hl, HT'. set_solver.
    + intros Hall. destruct (decide (hi <= e)) as [|Hc]; [done|exfalso].
      assert (Hx : lo <= Z.max lo e < hi) by lia.
      destruct (Hall _ Hx) as ([s' e'] & Hin & Hr). unfold in_range in Hr; simpl in Hr.
      rewrite <- Hl, HT' in Hin. apply elem_of_app in Hin as [Hin|Hin].
      * apply StronglySorted_app_1_l, StronglySorted_app in Hs as (HR & _ & _).
        apply elem_of_app in Hin as [Hin|Hin].
        -- specialize (HR _ (s, e) Hin ltac:(set_solver)). simpl in HR.
           pose proof (Forall_elem _ l (s, e) Hne) as He.
           rewrite <- Hl, HT' in He. specialize (He ltac:(set_solver)). simpl in He. lia.
        -- apply list_elem_of_singleton in Hin. simplify_eq. lia.
      * pose proof (Forall_elem _ _ _ HD Hin) as Hp'. simpl in Hp'. zbool.
        apply StronglySorted_app in Hs as (HR & _ & _).
        specialize (HR (s, e) _ ltac:(set_solver) Hin). simpl in HR. lia.
Qed.

(* ------------------------------------------------------------------ *)
(** ** The whole history *)

Definition record_log (m : DecodeSpans) (log : list (ObservationIdentity * (Z * Z))) : DecodeSpans :=
  fold_left (λ m '(o, span), record_complete_decode_span m o span) log m.

(** A sample of one capture heard by some complete decode of the log. *)
Definition heard (log : list (ObservationIdentity * (Z * Z))) (sess : string) (epoch z : Z) : Prop :=
  ∃ o span, (o, span) ∈ log ∧ is_decode_producer (producer o) = true ∧
    session (occurrence o) = sess ∧ capture_epoch (occurrence o) = epoch ∧ in_range z span.

Definition DecodeSpans_ok (m : DecodeSpans) : Prop :=
  ∀ sess epoch, spans_ok (default [] (spans_of m sess epoch)).

Lemma spans_ok_nil : spans_ok [].
Proof. split; constructor. Qed.
#[export] Hint Resolve spans_ok_nil : s2p.

(** One recorded window changes only its own capture. *)
Lemma record_spans_of m o span sess epoch :
  DecodeSpans_ok m →
  let l := default [] (spans_of m sess epoch) in
  let l' := default [] (spans_of (record_complete_decode_span m o span) sess epoch) in
  spans_ok l' ∧
  ∀ z, in_spans z l' ↔ in_spans z l ∨
    (is_decode_producer (producer o) = true ∧ session (occurrence o) = sess ∧
     capture_epoch (occurrence o) = epoch ∧ in_range z span).
Proof.
  intros Hm. destruct span as [s e]. simpl.
  destruct ((e <=? s) || negb (is_decode_producer (producer o))) eqn:Hg.
  { split; [apply Hm|]. intros z. unfold in_range; simpl. split; [tauto|].
    intros [?|(Hp & _ & _ & Hr)]; [done|]. rewrite Hp in Hg. simpl in Hg.
    rewrite orb_false_r in Hg. zbool. lia. }
  zbool. set (sess' := session (occurrence o)). set (ep' := capture_epoch (occurrence o)).
  pose proof (merge_span_ok (default [] (spans_of m sess' ep')) s e (Hm sess' ep') ltac:(done))
    as [Hok Hin].
  assert (Hold : default [] (default ∅ (m !! sess') !! ep') = default [] (spans_of m sess' ep')).
  { unfold spans_of. by destruct (m !! sess'). }
  set (epochs' := <[ep' := _]> (default ∅ (m !! sess'))).
  assert (Hnew : spans_of (<[sess' := epochs']> m) sess epoch =
    if decide (sess' = sess ∧ ep' = epoch)
    then Some (merge_span (default [] (spans_of m sess' ep')) s e)
    else if decide (sess' = sess) then default ∅ (m !! sess') !! epoch
    else spans_of m sess epoch).
  { unfold spans_of at 1. destruct (decide (sess' = sess)) as [<-|Hs].
    - rewrite lookup_insert_eq. simpl. unfold epochs'. rewrite Hold.
      destruct (decide (ep' = epoch)) as [<-|He].
      + rewrite lookup_insert_eq. by rewrite decide_True.
      + rewrite lookup_insert_ne by done. rewrite decide_False by tauto. done.
    - rewrite lookup_insert_ne by done. rewrite decide_False by tauto. done. }
  rewrite Hnew. destruct (decide (sess' = sess ∧ ep' = epoch)) as [[<- <-]|Hne]; simpl.
  { split; [done|]. intros z. rewrite Hin. unfold in_range; simpl. tauto. }
  assert (Hsame : default [] (if decide (sess' = sess) then default ∅ (m !! sess') !! epoch
    else spans_of m sess epoch) = default [] (spans_of m sess epoch)).
  { destruct (decide _) as [<-|]; [|done]. unfold spans_of. by destruct (m !! sess'). }
  rewrite Hsame. split; [apply Hm|]. intros z. split; [tauto|].
  intros [?|(_ & ? & ? & _)]; [done|]. by destruct Hne.
Qed.

Lemma record_log_spans log m sess epoch :
  DecodeSpans_ok m →
  let l := default [] (spans_of m sess epoch) in
  let l' := default [] (spans_of (record_log m log) sess epoch) in
  spans_ok l' ∧ ∀ z, in_spans z l' ↔ in_spans z l ∨ heard log sess epoch z.
Proof.
  revert m. induction log as [|[o span] log IH]; intros m Hm; simpl.
  - split; [apply Hm|]. intros z. split; [tauto|].
    intros [?|(? & ? & H & _)]; [done|by apply not_elem_of_nil in H].
  - pose proof (record_spans_of m o span sess epoch Hm) as [_ H1].
    assert (Hm' : DecodeSpans_ok (record_complete_decode_span m o span)).
    { intros s' e'. by apply (record_spans_of m o span s' e' Hm). }
    destruct (IH _ Hm') as [Hok H2]. split; [done|]. intros z. rewrite H2, H1.
    unfold heard. setoid_rewrite elem_of_cons. naive_solver.
Qed.

Lemma DecodeSpans_ok_empty : DecodeSpans_ok ∅.
Proof. intros s e. unfold spans_of. rewrite lookup_empty. simpl. auto with s2p. Qed.

Lemma complete_decode_covers_spec m owner :
  DecodeSpans_ok m →
  complete_decode_covers m owner = true ↔
    sample_start owner < sample_end owner ∧
    ∀ z, sample_start owner <= z < sample_end owner →
      in_spans z (default [] (spans_of m (session owner) (capture_epoch owner))).
Proof.
  intros Hm. unfold complete_decode_covers.
  destruct (sample_end owner <=? sample_start owner) eqn:Hw; zbool.
  { split; [done|]. lia. }
  specialize (Hm (session owner) (capture_epoch owner)).
  destruct (spans_of m _ _) as [l|]; simpl in *.
  - rewrite spans_cover_spec by (done || lia). split; [auto|tauto].
  - split; [done|]. intros [_ H]. destruct (in_spans_nil (sample_start owner)). apply H. lia.
Qed.

(** C7: see the manifest. *)
Theorem complete_decode_covers_refines log owner :
  complete_decode_covers (record_log ∅ log) owner = true ↔
    sample_start owner < sample_end owner ∧
    ∀ z, sample_start owner <= z < sample_end owner →
      heard log (session owner) (capture_epoch owner) z.
Proof.
  destruct (record_log_spans log ∅ (session owner) (capture_epoch owner) DecodeSpans_ok_empty)
    as [_ Hin].
  rewrite complete_decode_covers_spec.
  - setoid_rewrite Hin. unfold spans_of. rewrite lookup_empty. simpl.
    split; (intros [? H]; split; [done|]); intros z Hz; specialize (H z Hz); [|tauto].
    destruct H as [H|H]; [by apply in_spans_nil in H|done].
  - intros s e. apply (record_log_spans log ∅ s e DecodeSpans_ok_empty).
Qed.
