(* ===== verification/CaptureEvidence.v ===== *)
(** CaptureEvidence: what an acoustic observer says about one take
    (core/audio/capture_receipt.rs): the identity it is bound to, whether it
    measured the take and how much of it, and the speech it measured. *)

From S2P Require Import Prelude.
From S2P Require Import LedgerIdentity.
#[local] Open Scope Z_scope.

(** A capture identity and what an observer measured for it
    (core/audio/capture_receipt.rs). *)
Record CaptureEvidenceIdentity := mkCaptureIdentity {
  ce_session : string;
  ce_capture_epoch : Z
}.

Definition CAPTURE_ENERGY_PRODUCER : string := "capture_energy".

Definition identity_matches (i : CaptureEvidenceIdentity) (sess : string) (epoch : Z) : bool :=
  String.eqb (ce_session i) sess && (ce_capture_epoch i =? epoch).

Inductive AcousticAvailability :=
  | Observed (samples : Z)
  | NotObserved
  | AvIdentityMismatch
  | AvInvalidMeasurement (valid_samples : Z)
  | Discontinuous (samples : Z).

Definition observed_samples (a : AcousticAvailability) : option Z :=
  match a with
  | Observed n => Some n
  | NotObserved | AvIdentityMismatch | AvInvalidMeasurement _ | Discontinuous _ => None
  end.

Definition availability_as_str (a : AcousticAvailability) : string :=
  match a with
  | Observed _ => "observed"
  | NotObserved => "not_observed"
  | AvIdentityMismatch => "identity_mismatch"
  | AvInvalidMeasurement _ => "invalid_measurement"
  | Discontinuous _ => "discontinuous"
  end.

Record AcousticSpeechEvidence := mkSpeechEvidence {
  se_identity : CaptureEvidenceIdentity;
  se_producer : string;
  se_availability : AcousticAvailability;
  se_ranges : list TailSampleRange
}.

Definition speech_measured (i : CaptureEvidenceIdentity) (p : string)
    (a : AcousticAvailability) (r : list TailSampleRange) : AcousticSpeechEvidence :=
  mkSpeechEvidence i p a r.

Definition speech_unavailable (i : CaptureEvidenceIdentity) (p : string)
    (a : AcousticAvailability) : AcousticSpeechEvidence :=
  mkSpeechEvidence i p a [].

Definition is_observed (e : AcousticSpeechEvidence) : bool :=
  match observed_samples (se_availability e) with Some _ => true | None => false end.

Definition observed_speech (e : AcousticSpeechEvidence) : bool :=
  is_observed e && negb (bool_decide (se_ranges e = [])).
