(* ===== verification/CaptureEnergy.v ===== *)
(** CaptureEnergy: the energy clock of one capture
    (core/audio/capture_receipt.rs).

    The capture writer cuts the samples it is handed into hops of 20 ms and
    records the level of each on a clock; every other observer reads that clock.
    A sample and a level are [f32]: a finite [f32] is an integer multiple of
    2^-149 and is kept as that integer, so that comparisons are exact, and a
    value that is not finite is [None].  The rounding [f64] arithmetic that makes
    a level of a block of samples is the parameter [block_rms]. *)

From S2P Require Import Prelude.
From S2P Require Import LedgerIdentity.
From S2P Require Import CaptureEvidence.
#[local] Open Scope Z_scope.

Definition F32 : Type := option Z.

Definition is_finite (x : F32) : bool := match x with Some _ => true | None => false end.

(** [x >= y]: false when either side is not a number. *)
Definition f32_ge (x y : F32) : bool :=
  match x, y with Some a, Some b => b <=? a | _, _ => false end.

(** 1.0e-4, 1.0e-8, 0.99 and 1.0 in units of 2^-149. *)
Definition ACTIVE_SPEECH_LINEAR_FLOOR : F32 := Some (13743895 * 2 ^ 112).
Definition DIGITAL_ZERO_ABS : F32 := Some (11258999 * 2 ^ 99).
Definition CLIP_ABS : F32 := Some (16609444 * 2 ^ 125).
Definition F32_ONE : F32 := Some (2 ^ 149).

Definition DIGITAL_ZERO_RUN_MS : Z := 1.
Definition ACTIVE_SPEECH_MERGE_GAP_MS : Z := 200.
Definition SPEECH_ANCHOR_MERGE_GAP_MS : Z := 60.
Definition SPEECH_ANCHOR_MIN_BURST_MS : Z := 60.

(* ------------------------------------------------------------------ *)
(** ** The clock *)

Record EnergyHop := mkHop {
  eh_start : Z;
  eh_end : Z;
  eh_rms : F32;
  eh_gated : bool
}.

Record SessionEnergyClock := mkClock {
  ck_hops : list EnergyHop;
  ck_observed_samples : Z;
  ck_first_invalid_sample : option Z
}.

Definition clock_empty : SessionEnergyClock := mkClock [] 0 None.

Record CaptureEnergyOwner := mkEnergyOwner {
  eo_identity : CaptureEvidenceIdentity;
  eo_clock : SessionEnergyClock
}.

Definition energy_bind (session : string) (capture_epoch : Z) : CaptureEnergyOwner :=
  mkEnergyOwner (mkCaptureIdentity session capture_epoch) clock_empty.

(** The hop just recorded replaces the shorter measurement of itself. *)
Definition store_hop (hop : EnergyHop) (hops : list EnergyHop) : list EnergyHop :=
  match last hops with
  | Some prior =>
      if (eh_start prior =? eh_start hop) && (eh_end prior <=? eh_end hop)
      then removelast hops ++ [hop] else hops ++ [hop]
  | None => hops ++ [hop]
  end.

Definition record_hop (sample_start sample_end : Z) (rms : F32) (nonfinite : Z) (gated : bool)
    (c : SessionEnergyClock) : SessionEnergyClock :=
  let c := c <| ck_observed_samples := Z.max (ck_observed_samples c) sample_end |> in
  let c :=
    if 0 <? nonfinite
    then c <| ck_first_invalid_sample :=
                Some (match ck_first_invalid_sample c with
                      | Some first => Z.min first sample_start
                      | None => sample_start
                      end) |>
    else c in
  if (sample_end <=? sample_start) || negb (f32_ge rms (Some 0)) then c
  else c <| ck_hops ::= store_hop (mkHop sample_start sample_end rms gated) |>.

(** Hops tile [0, observed). *)
Fixpoint contiguous_from (cursor : Z) (hops : list EnergyHop) : option Z :=
  match hops with
  | [] => Some cursor
  | hop :: hops' =>
      if negb (eh_start hop =? cursor) || (eh_end hop <=? cursor) then None
      else contiguous_from (eh_end hop) hops'
  end.

Definition speech_anchor_clock_contiguous (c : SessionEnergyClock) : bool :=
  bool_decide (contiguous_from 0 (ck_hops c) = Some (ck_observed_samples c)).

(* ------------------------------------------------------------------ *)
(** ** Questions about a range *)

Fixpoint scan_hops (sample_start sample_end : Z) (floor : F32) (cursor : Z) (voiced : list (Z * Z))
    (hops : list EnergyHop) : option (Z * list (Z * Z)) :=
  match hops with
  | [] => Some (cursor, voiced)
  | hop :: hops' =>
      if eh_end hop <=? sample_start then scan_hops sample_start sample_end floor cursor voiced hops'
      else if sample_end <=? eh_start hop then Some (cursor, voiced)
      else
        let overlap_start := Z.max (eh_start hop) sample_start in
        if cursor <? overlap_start then None
        else
          let stop := Z.min (eh_end hop) sample_end in
          let voiced :=
            if f32_ge (eh_rms hop) floor && (overlap_start <? stop)
            then voiced ++ [(overlap_start, stop)] else voiced in
          scan_hops sample_start sample_end floor (Z.max cursor stop) voiced hops'
  end.

Definition hops_at_or_above (session : string) (capture_epoch sample_start sample_end : Z) (floor : F32)
    (o : CaptureEnergyOwner) : option (list (Z * Z)) :=
  let c := eo_clock o in
  if (sample_end <=? sample_start) || negb (identity_matches (eo_identity o) session capture_epoch) then None
  else if (ck_observed_samples c =? 0) || bool_decide (is_Some (ck_first_invalid_sample c))
          || (ck_observed_samples c <? sample_end) then None
  else
    match scan_hops sample_start sample_end floor sample_start [] (ck_hops c) with
    | Some (cursor, voiced) => if sample_end <=? cursor then Some voiced else None
    | None => None
    end.

Definition voiced_hops_in (session : string) (capture_epoch sample_start sample_end : Z)
    (o : CaptureEnergyOwner) : option (list (Z * Z)) :=
  hops_at_or_above session capture_epoch sample_start sample_end ACTIVE_SPEECH_LINEAR_FLOOR o.

Definition digital_zero_in (session : string) (capture_epoch sample_start sample_end : Z)
    (o : CaptureEnergyOwner) : option bool :=
  match hops_at_or_above session capture_epoch sample_start sample_end (Some 0) o with
  | None => None
  | Some _ =>
      Some (existsb (λ hop, eh_gated hop && (eh_start hop <? sample_end) && (sample_start <? eh_end hop))
              (ck_hops (eo_clock o)))
  end.

Definition measured_quiet_in (session : string) (capture_epoch sample_start sample_end : Z)
    (o : CaptureEnergyOwner) : option bool :=
  match voiced_hops_in session capture_epoch sample_start sample_end o with
  | None => None
  | Some (_ :: _) => Some false
  | Some [] =>
      match digital_zero_in session capture_epoch sample_start sample_end o with
      | None => None
      | Some true => None
      | Some false => Some true
      end
  end.

(** The owner can speak for its whole extent. *)
Definition clock_speaks (session : string) (capture_epoch : Z) (o : CaptureEnergyOwner) : bool :=
  identity_matches (eo_identity o) session capture_epoch
  && negb (ck_observed_samples (eo_clock o) =? 0)
  && negb (bool_decide (is_Some (ck_first_invalid_sample (eo_clock o))))
  && speech_anchor_clock_contiguous (eo_clock o).

Definition session_hop_levels (session : string) (capture_epoch : Z) (o : CaptureEnergyOwner) :
    option (list (Z * Z * F32)) :=
  if clock_speaks session capture_epoch o
  then Some (map (λ hop, (eh_start hop, eh_end hop, eh_rms hop)) (ck_hops (eo_clock o))) else None.

(** The order of levels: [total_cmp] on finite values. *)
Definition level_le (a b : F32) : Prop :=
  match a, b with Some x, Some y => x <= y | None, _ => True | Some _, None => False end.

#[global] Instance level_le_dec a b : Decision (level_le a b).
Proof. destruct a, b; simpl; apply _. Defined.

Definition session_noise_floor_rms (session : string) (capture_epoch : Z) (o : CaptureEnergyOwner) : option F32 :=
  if negb (clock_speaks session capture_epoch o) then None
  else
    let levels := map eh_rms (ck_hops (eo_clock o)) in
    if existsb (λ l, negb (is_finite l)) levels then None
    else if bool_decide (levels = []) then None
    else merge_sort level_le levels !! (length levels / 10)%nat.

(* ------------------------------------------------------------------ *)
(** ** Speech ranges and speech anchors *)

(** Hops join the last range when [joins last_end start]. *)
Definition join_hop (joins : Z → Z → bool) (ranges : list (Z * Z)) (hop : EnergyHop) : list (Z * Z) :=
  match last ranges with
  | Some (start, prior_end) =>
      if joins prior_end (eh_start hop)
      then removelast ranges ++ [(start, Z.max prior_end (eh_end hop))]
      else ranges ++ [(eh_start hop, eh_end hop)]
  | None => ranges ++ [(eh_start hop, eh_end hop)]
  end.

Definition joined (joins : Z → Z → bool) (hops : list EnergyHop) : list (Z * Z) :=
  foldl (join_hop joins) [] hops.

Definition capture_range (session : string) (capture_epoch : Z) (r : Z * Z) : TailSampleRange :=
  mkTailRange session capture_epoch r.1 r.2.

Definition session_active_speech_ranges (session : string) (capture_epoch sample_rate : Z)
    (o : CaptureEnergyOwner) : AcousticSpeechEvidence :=
  let c := eo_clock o in
  if negb (identity_matches (eo_identity o) session capture_epoch)
  then speech_unavailable (eo_identity o) CAPTURE_ENERGY_PRODUCER AvIdentityMismatch
  else
    let merge_gap := sat_mul sample_rate ACTIVE_SPEECH_MERGE_GAP_MS / 1000 in
    if ck_observed_samples c =? 0
    then speech_unavailable (eo_identity o) CAPTURE_ENERGY_PRODUCER NotObserved
    else
      match ck_first_invalid_sample c with
      | Some first_invalid =>
          speech_unavailable (eo_identity o) CAPTURE_ENERGY_PRODUCER (AvInvalidMeasurement first_invalid)
      | None =>
          speech_measured (eo_identity o) CAPTURE_ENERGY_PRODUCER (Observed (ck_observed_samples c))
            (map (capture_range session capture_epoch)
               (joined (λ prior_end start, start <=? sat_add prior_end merge_gap)
                  (filter (λ hop, f32_ge (eh_rms hop) ACTIVE_SPEECH_LINEAR_FLOOR) (ck_hops c))))
      end.

Record SpeechAnchor := mkSpeechAnchor {
  sa_range : TailSampleRange;
  sa_open_at_end : bool
}.

Record SpeechAnchorEvidence := mkAnchorEvidence {
  sae_identity : CaptureEvidenceIdentity;
  sae_availability : AcousticAvailability;
  sae_anchors : list SpeechAnchor
}.

Definition anchors_refused (i : CaptureEvidenceIdentity) (a : AcousticAvailability) : SpeechAnchorEvidence :=
  mkAnchorEvidence i a [].

Definition speech_anchor_shorter_than (samples sample_rate ms : Z) : bool :=
  sat_mul samples 1000 <? sat_mul sample_rate ms.

Definition speech_anchor_duration_kept (samples sample_rate : Z) : bool :=
  sat_mul sample_rate SPEECH_ANCHOR_MIN_BURST_MS <=? sat_mul samples 1000.

Definition anchor_bursts (sample_rate : Z) (floor : F32) (hops : list EnergyHop) : list (Z * Z) :=
  filter (λ r : Z * Z, speech_anchor_duration_kept (sat_sub r.2 r.1) sample_rate)
    (joined (λ prior_end start, speech_anchor_shorter_than (sat_sub start prior_end) sample_rate
                                  SPEECH_ANCHOR_MERGE_GAP_MS)
       (filter (λ hop, f32_ge (eh_rms hop) floor) hops)).

Definition anchor_of (session : string) (capture_epoch sample_rate observed : Z) (r : Z * Z) : SpeechAnchor :=
  mkSpeechAnchor (capture_range session capture_epoch r)
    (speech_anchor_shorter_than (sat_sub observed r.2) sample_rate SPEECH_ANCHOR_MERGE_GAP_MS).

Definition floor_usable (floor : F32) : bool :=
  is_finite floor && negb (f32_ge (Some 0) floor) && f32_ge F32_ONE floor.

Definition session_speech_anchors (session : string) (capture_epoch sample_rate : Z) (floor : F32)
    (o : CaptureEnergyOwner) : SpeechAnchorEvidence :=
  let c := eo_clock o in
  if negb (identity_matches (eo_identity o) session capture_epoch)
  then anchors_refused (eo_identity o) AvIdentityMismatch
  else if (sample_rate =? 0) || negb (floor_usable floor)
  then anchors_refused (eo_identity o) (AvInvalidMeasurement 0)
  else if ck_observed_samples c =? 0 then anchors_refused (eo_identity o) NotObserved
  else
    match ck_first_invalid_sample c with
    | Some valid_samples => anchors_refused (eo_identity o) (AvInvalidMeasurement valid_samples)
    | None =>
        if negb (speech_anchor_clock_contiguous c)
        then anchors_refused (eo_identity o) (Discontinuous (ck_observed_samples c))
        else
          mkAnchorEvidence (eo_identity o) (Observed (ck_observed_samples c))
            (map (anchor_of session capture_epoch sample_rate (ck_observed_samples c))
               (anchor_bursts sample_rate floor (ck_hops c)))
    end.

(* ------------------------------------------------------------------ *)
(** ** The writer

    [CaptureLevelAccumulator]: the energy ladder it feeds, and the statistics of
    the session. *)

Record CaptureLevelAccumulator := mkAccumulator {
  ac_energy : option CaptureEnergyOwner;
  ac_energy_hop_size : option Z;
  ac_energy_hop_start : Z;
  ac_energy_pending : list F32;
  ac_sample_count : Z;
  ac_digital_zero_samples : Z;
  ac_clipping_samples : Z;
  ac_peak_linear : Z;
  ac_all_block_rms : list F32;
  ac_speech_block_rms : list F32;
  ac_noise_block_rms : list F32;
  ac_dropout_blocks : Z;
  ac_seen_speech : bool;
  ac_trailing_zero_run : Z;
  ac_zero_run_samples : Z;
  ac_energy_pending_gated : bool
}.

Definition accumulator_new : CaptureLevelAccumulator :=
  mkAccumulator None None 0 [] 0 0 0 0 [] [] [] 0 false 0 0 false.

Definition bound_to (owner : CaptureEnergyOwner) : CaptureLevelAccumulator :=
  accumulator_new <| ac_energy := Some owner |>.

Definition bound_to_at_rate (owner : CaptureEnergyOwner) (sample_rate : Z) : CaptureLevelAccumulator :=
  accumulator_new <| ac_energy := Some owner |>
                  <| ac_energy_hop_size := Some (Z.max 1 (sample_rate / 50)) |>.

Definition f32_abs (x : F32) : F32 := Z.abs <$> x.

Definition note_zero_run (run : Z) (sample : F32) : Z :=
  if is_finite sample && f32_ge DIGITAL_ZERO_ABS (f32_abs sample) then run + 1 else 0.

(** A sample that is not finite is measured as zero. *)
Definition as_measured (x : F32) : Z := match x with Some z => z | None => 0 end.

Definition nonfinite_count (l : list F32) : Z := Z.of_nat (length (filter (λ x, negb (is_finite x)) l)).

Section writer.
  (** [(sum of squares of the finite samples / len).sqrt() as f32]. *)
  Context (block_rms : list F32 → F32).

  (** The zero run after some samples, and whether it reached [min_run]. *)
Definition note_samples (min_run : Z) (st : Z * bool) (samples : list F32) : Z * bool :=
    foldl (λ st x, let run := note_zero_run st.1 x in (run, st.2 || (min_run <=? run))) st samples.

Definition record_on (o : option CaptureEnergyOwner) (start stop : Z) (rms : F32) (nonfinite : Z) (gated : bool) :
      option CaptureEnergyOwner :=
    (λ o, mkEnergyOwner (eo_identity o) (record_hop start stop rms nonfinite gated (eo_clock o))) <$> o.

  (** One round of [while !remaining.is_empty()]: fill the pending hop, measure it. *)
Definition fill_hop (hop_size : Z) (part : list F32) (a : CaptureLevelAccumulator) : CaptureLevelAccumulator :=
    let min_run := (hop_size * 50 * DIGITAL_ZERO_RUN_MS + 999) / 1000 in
    let '(run, gated) := note_samples min_run (ac_zero_run_samples a, ac_energy_pending_gated a) part in
    let pending := ac_energy_pending a ++ part in
    let stop := ac_energy_hop_start a + Z.of_nat (length pending) in
    let a := a <| ac_zero_run_samples := run |> <| ac_energy_pending_gated := gated |>
               <| ac_energy_pending := pending |>
               <| ac_energy := record_on (ac_energy a) (ac_energy_hop_start a) stop (block_rms pending)
                                 (nonfinite_count pending) gated |> in
    if Z.of_nat (length pending) =? hop_size
    then a <| ac_energy_pending := [] |> <| ac_energy_hop_start := stop |> <| ac_energy_pending_gated := false |>
    else a.

Fixpoint fill_hops (fuel : nat) (hop_size : Z) (remaining : list F32) (a : CaptureLevelAccumulator) :
      CaptureLevelAccumulator :=
    match fuel, remaining with
    | S fuel, _ :: _ =>
        let count := Nat.min (length remaining) (Z.to_nat hop_size - length (ac_energy_pending a)) in
        fill_hops fuel hop_size (drop count remaining) (fill_hop hop_size (take count remaining) a)
    | _, _ => a
    end.

Definition feed_energy (samples : list F32) (a : CaptureLevelAccumulator) : CaptureLevelAccumulator :=
    match ac_energy a with
    | None => a
    | Some _ =>
        match ac_energy_hop_size a with
        | Some hop_size => fill_hops (length samples) hop_size samples a
        | None =>
            let '(run, gated) :=
              note_samples (Z.max 1 (48 * DIGITAL_ZERO_RUN_MS)) (ac_zero_run_samples a, false) samples in
            a <| ac_zero_run_samples := run |>
              <| ac_energy := record_on (ac_energy a) (ac_sample_count a - Z.of_nat (length samples))
                                (ac_sample_count a) (block_rms samples) (nonfinite_count samples) gated |>
        end
    end.

  (** What the session receipt counts. *)
Definition count_block (samples : list F32) (a : CaptureLevelAccumulator) : CaptureLevelAccumulator :=
    let zeros := Z.of_nat (length (filter (λ x, f32_ge DIGITAL_ZERO_ABS (Some (Z.abs (as_measured x)))) samples)) in
    let clips := Z.of_nat (length (filter (λ x, f32_ge (Some (Z.abs (as_measured x))) CLIP_ABS) samples)) in
    let peak := foldl (λ p x, Z.max p (Z.abs (as_measured x))) 0 samples in
    let rms := block_rms samples in
    let a := a <| ac_digital_zero_samples ::= Z.add zeros |> <| ac_clipping_samples ::= Z.add clips |>
               <| ac_peak_linear ::= Z.max peak |> <| ac_all_block_rms ::= (λ l, l ++ [rms]) |> in
    let all_digital_zero := zeros =? Z.of_nat (length samples) in
    if f32_ge rms ACTIVE_SPEECH_LINEAR_FLOOR && negb all_digital_zero
    then
      let a := if ac_seen_speech a && (0 <? ac_trailing_zero_run a)
               then a <| ac_dropout_blocks ::= Z.add (ac_trailing_zero_run a) |> else a in
      a <| ac_speech_block_rms ::= (λ l, l ++ [rms]) |> <| ac_seen_speech := true |>
        <| ac_trailing_zero_run := 0 |>
    else if all_digital_zero || f32_ge DIGITAL_ZERO_ABS rms
    then if ac_seen_speech a then a <| ac_trailing_zero_run ::= Z.succ |> else a
    else a <| ac_noise_block_rms ::= (λ l, l ++ [rms]) |> <| ac_trailing_zero_run := 0 |>.

Definition push_samples (samples : list F32) (a : CaptureLevelAccumulator) : CaptureLevelAccumulator :=
    if bool_decide (samples = []) then a
    else count_block samples (feed_energy samples (a <| ac_sample_count ::= (λ n, n + Z.of_nat (length samples)) |>)).

Definition speech_block_count_samples (a : CaptureLevelAccumulator) : Z :=
    sat_sub (ac_sample_count a) (ac_digital_zero_samples a).
End writer.
