(* ===== verification/CaptureEnergyFacts.v ===== *)
(** CaptureEnergyFacts: the energy clock measures the samples, whatever the
    blocks they arrive in; what it answers about a range is what its hops say;
    an anchor followed by the merge gap of quiet never changes again. *)

From S2P Require Import Prelude.
From S2P Require Import LedgerIdentity.
From S2P Require Import LedgerSpans.
From S2P Require Import CaptureEvidence.
From S2P Require Import CaptureEnergy.
#[local] Open Scope Z_scope.

#[local] Notation len l := (Z.of_nat (length l)).

(* ------------------------------------------------------------------ *)
(** ** The reference clock

    What the clock should hold for a list of samples: one hop per chunk of
    [hop_size] samples, the last chunk possibly shorter. *)

Fixpoint chunks (fuel : nat) (h : nat) (samples : list F32) : list (list F32) :=
  match fuel, samples with
  | S fuel, _ :: _ => take h samples :: chunks fuel h (drop h samples)
  | _, _ => []
  end.

Definition zero_run (run : Z) (samples : list F32) : Z := foldl note_zero_run run samples.

Definition reaches (min_run run : Z) (samples : list F32) : bool := (note_samples min_run (run, false) samples).2.

Definition hop_min_run (hop_size : Z) : Z := (hop_size * 50 * DIGITAL_ZERO_RUN_MS + 999) / 1000.

Section reference.
  Context (block_rms : list F32 → F32) (min_run : Z).

Fixpoint clock_hops (run start : Z) (cs : list (list F32)) : list EnergyHop :=
    match cs with
    | [] => []
    | c :: cs =>
        mkHop start (start + len c) (block_rms c) (reaches min_run run c)
          :: clock_hops (zero_run run c) (start + len c) cs
    end.

Fixpoint first_invalid (start : Z) (cs : list (list F32)) : option Z :=
    match cs with
    | [] => None
    | c :: cs => if 0 <? nonfinite_count c then Some start else first_invalid (start + len c) cs
    end.

Definition reference_clock (cs : list (list F32)) : SessionEnergyClock :=
    mkClock (clock_hops 0 0 cs) (len (concat cs)) (first_invalid 0 cs).

Lemma clock_hops_app run start cs cs' :
    clock_hops run start (cs ++ cs')
    = clock_hops run start cs ++ clock_hops (zero_run run (concat cs)) (start + len (concat cs)) cs'.
  Proof.
    revert run start. induction cs as [|c cs IH]; intros run start; simpl.
    - by rewrite Z.add_0_r.
    - rewrite IH. unfold zero_run. rewrite foldl_app, length_app. do 3 f_equal. lia.
  Qed.

Lemma first_invalid_app start cs cs' :
    first_invalid start (cs ++ cs')
    = match first_invalid start cs with
      | Some z => Some z
      | None => first_invalid (start + len (concat cs)) cs'
      end.
  Proof.
    revert start. induction cs as [|c cs IH]; intros start; simpl.
    - by rewrite Z.add_0_r.
    - case_match; [done|]. rewrite IH, length_app. case_match; [done|]. f_equal; lia.
  Qed.

Lemma first_invalid_bound start cs z :
    first_invalid start cs = Some z → start <= z <= start + len (concat cs).
  Proof.
    revert start. induction cs as [|c cs IH]; intros start; simpl; [done|].
    rewrite length_app. case_match; [intros; simplify_eq; lia|]. intros Hz%IH. lia.
  Qed.

Lemma clock_hops_contiguous run start cs :
    Forall (λ c, c ≠ []) cs →
    contiguous_from start (clock_hops run start cs) = Some (start + len (concat cs)).
  Proof.
    intros Hne. revert run start. induction Hne as [|c cs Hc _ IH]; intros run start; simpl.
    - f_equal; simpl; lia.
    - destruct c as [|x c]; [done|]. rewrite Z.eqb_refl.
      rewrite (proj2 (Z.leb_gt (start + len (x :: c)) start)) by (simpl length; lia).
      cbn [negb orb]. rewrite IH, length_app. f_equal. lia.
  Qed.
End reference.

Lemma note_samples_eq m r g l : note_samples m (r, g) l = (zero_run r l, g || reaches m r l).
Proof.
  unfold zero_run, reaches. revert r g. induction l as [|x l IH]; intros r g; simpl.
  - by rewrite orb_false_r.
  - rewrite (IH _ (g || _)), (IH _ (m <=? _)). simpl. by rewrite orb_assoc.
Qed.

Lemma reaches_app m r l1 l2 : reaches m r (l1 ++ l2) = reaches m r l1 || reaches m (zero_run r l1) l2.
Proof.
  unfold reaches at 1. unfold note_samples. rewrite foldl_app. fold (note_samples m (r, false) l1).
  rewrite note_samples_eq. fold (note_samples m (zero_run r l1, false || reaches m r l1) l2).
  rewrite note_samples_eq. done.
Qed.

Lemma nonfinite_count_app l1 l2 : nonfinite_count (l1 ++ l2) = nonfinite_count l1 + nonfinite_count l2.
Proof. unfold nonfinite_count. rewrite filter_app, length_app. lia. Qed.

Lemma nonfinite_count_nonneg l : 0 <= nonfinite_count l.
Proof. unfold nonfinite_count. lia. Qed.

(* ------------------------------------------------------------------ *)
(** ** The writer keeps the reference clock *)

Section writer_facts.
  Context (block_rms : list F32 → F32) (h : nat).
  Context (h_positive : (0 < h)%nat).
  Context (block_rms_level : ∀ l, l ≠ [] → ∃ z, block_rms l = Some z ∧ 0 <= z).

  #[local] Notation m := (hop_min_run (Z.of_nat h)).

Definition tail_chunk (pending : list F32) : list (list F32) :=
    match pending with [] => [] | _ => [pending] end.

  (** The state after [samples], cut into full hops and the pending one. *)
Definition writes (id : CaptureEvidenceIdentity) (samples : list F32) (a : CaptureLevelAccumulator) : Prop :=
    ∃ full,
      samples = concat full ++ ac_energy_pending a ∧ Forall (λ c, length c = h) full ∧
      (length (ac_energy_pending a) < h)%nat ∧
      ac_energy_hop_size a = Some (Z.of_nat h) ∧
      ac_energy_hop_start a = len (concat full) ∧
      ac_zero_run_samples a = zero_run 0 samples ∧
      ac_energy_pending_gated a = reaches m (zero_run 0 (concat full)) (ac_energy_pending a) ∧
      ac_energy a
      = Some (mkEnergyOwner id (reference_clock block_rms m (full ++ tail_chunk (ac_energy_pending a)))).

Lemma store_hop_snoc hops hop :
    (∀ prior, last hops = Some prior → eh_start prior ≠ eh_start hop) →
    store_hop hop hops = hops ++ [hop].
  Proof.
    intros Hl. unfold store_hop. destruct (last hops) as [p|] eqn:Hp; [|done].
    by rewrite (proj2 (Z.eqb_neq _ _)) by auto.
  Qed.

Lemma store_hop_replace hops prior hop :
    eh_start prior = eh_start hop → eh_end prior <= eh_end hop →
    store_hop hop (hops ++ [prior]) = hops ++ [hop].
  Proof.
    intros Hs He. unfold store_hop. rewrite last_snoc, Hs, Z.eqb_refl.
    rewrite (proj2 (Z.leb_le _ _)) by done. simpl. by rewrite removelast_last.
  Qed.

Lemma clock_hops_last_start run start cs hop :
    Forall (λ c, c ≠ []) cs → last (clock_hops block_rms m run start cs) = Some hop →
    eh_start hop < start + len (concat cs).
  Proof.
    intros Hne. induction cs as [|c cs IH] using rev_ind; [done|].
    apply Forall_app in Hne as [_ Hc]. apply Forall_cons in Hc as [Hc _].
    rewrite clock_hops_app, last_app. simpl. intros. simplify_eq/=.
    rewrite concat_app, !length_app. simpl. rewrite app_nil_r. destruct c; [done|]. simpl. lia.
  Qed.

  (** Measuring the pending hop again, with more samples in it. *)
Lemma record_pending full pending part :
    Forall (λ c, length c = h) full → part ≠ [] →
    record_hop (len (concat full)) (len (concat full) + len (pending ++ part)) (block_rms (pending ++ part))
      (nonfinite_count (pending ++ part)) (reaches m (zero_run 0 (concat full)) (pending ++ part))
      (reference_clock block_rms m (full ++ tail_chunk pending))
    = reference_clock block_rms m (full ++ [pending ++ part]).
  Proof.
    intros Hfull Hpart.
    assert (Hne : Forall (λ c : list F32, c ≠ []) full).
    { eapply Forall_impl; [exact Hfull|]. intros c Hc ->. simpl in Hc. lia. }
    assert (Happ : pending ++ part ≠ []) by (destruct pending, part; done).
    destruct (block_rms_level _ Happ) as (z & Hz & Hz0).
    assert (Hlen : 0 < len (pending ++ part)) by (destruct (pending ++ part); [done|simpl; lia]).
    assert (Hge : f32_ge (block_rms (pending ++ part)) (Some 0) = true).
    { rewrite Hz. simpl. by apply Z.leb_le. }
    assert (Hhops : store_hop
        (mkHop (len (concat full)) (len (concat full) + len (pending ++ part)) (block_rms (pending ++ part))
           (reaches m (zero_run 0 (concat full)) (pending ++ part)))
        (clock_hops block_rms m 0 0 (full ++ tail_chunk pending))
      = clock_hops block_rms m 0 0 (full ++ [pending ++ part])).
    { rewrite !clock_hops_app. cbn.
      destruct pending as [|x pending]; cbn [tail_chunk clock_hops].
      - rewrite app_nil_r. apply store_hop_snoc. intros prior Hp. cbn.
        pose proof (clock_hops_last_start _ _ _ _ Hne Hp). simpl in *. lia.
      - apply store_hop_replace; [done|]. cbn. rewrite !length_app. simpl. lia. }
    assert (Hobs : Z.max (len (concat (full ++ tail_chunk pending))) (len (concat full) + len (pending ++ part))
      = len (concat (full ++ [pending ++ part]))).
    { rewrite !concat_app, !length_app. destruct pending; simpl; rewrite ?app_nil_r, ?length_app; simpl; lia. }
    pose proof (nonfinite_count_app pending part) as Hcount.
    pose proof (nonfinite_count_nonneg part). pose proof (nonfinite_count_nonneg pending).
    assert (Hfi : (if 0 <? nonfinite_count (pending ++ part)
                   then Some (match first_invalid 0 (full ++ tail_chunk pending) with
                              | Some first => Z.min first (len (concat full))
                              | None => len (concat full)
                              end)
                   else first_invalid 0 (full ++ tail_chunk pending))
                  = first_invalid 0 (full ++ [pending ++ part])).
    { rewrite !first_invalid_app. cbn [first_invalid].
      destruct (first_invalid 0 full) as [fi|] eqn:Hfi.
      { apply first_invalid_bound in Hfi. case_match; [f_equal; lia|done]. }
      destruct (0 <? nonfinite_count (pending ++ part)) eqn:Hn;
        destruct pending as [|x pending]; cbn [tail_chunk first_invalid]; [done| |done|].
      - destruct (0 <? nonfinite_count (x :: pending)); f_equal; lia.
      - rewrite (proj2 (Z.ltb_ge 0 (nonfinite_count (x :: pending)))); [done|].
        apply Z.ltb_ge in Hn. lia. }
    unfold record_hop. rewrite Hge, (proj2 (Z.leb_gt _ _)) by lia. cbn [negb orb].
    unfold reference_clock in *. rewrite <- Hfi, <- Hhops, <- Hobs.
    by destruct (0 <? nonfinite_count (pending ++ part)).
  Qed.

Lemma fill_hop_writes id samples part a :
    part ≠ [] → (length (ac_energy_pending a) + length part <= h)%nat → writes id samples a →
    writes id (samples ++ part) (fill_hop block_rms (Z.of_nat h) part a).
  Proof.
    intros Hpart Hfit (full & -> & Hfull & Hpend & Hsize & Hstart & Hrun & Hgated & Hen).
    unfold fill_hop. fold (hop_min_run (Z.of_nat h)). rewrite note_samples_eq, Hen, Hstart, Hgated, Hrun.
    set (pending := ac_energy_pending a) in *. unfold record_on. cbn.
    assert (Hz : zero_run (zero_run 0 (concat full ++ pending)) part = zero_run 0 (concat full ++ pending ++ part)).
    { unfold zero_run. by rewrite app_assoc, <- foldl_app. }
    assert (Hr : reaches m (zero_run 0 (concat full)) pending || reaches m (zero_run 0 (concat full ++ pending)) part
                 = reaches m (zero_run 0 (concat full)) (pending ++ part)).
    { rewrite reaches_app. f_equal. unfold zero_run. by rewrite foldl_app. }
    rewrite Hr, (record_pending full pending part Hfull Hpart).
    destruct (len (pending ++ part) =? Z.of_nat h) eqn:Heq; cbn.
    - apply Z.eqb_eq in Heq. exists (full ++ [pending ++ part]). cbn.
      rewrite !concat_app. simpl. rewrite !app_nil_r, Hz, <- !app_assoc.
      repeat split; try done.
      + apply Forall_app. split; [done|]. constructor; [lia|done].
      + rewrite !length_app, Nat2Z.inj_add. rewrite length_app in *. lia.
    - apply Z.eqb_neq in Heq. exists full. cbn. rewrite Hz, <- app_assoc. rewrite !length_app in *.
      repeat split; try done; [lia|].
      do 3 f_equal. destruct pending, part; done.
  Qed.

Lemma fill_hops_writes id samples remaining fuel a :
    (length remaining <= fuel)%nat → writes id samples a →
    writes id (samples ++ remaining) (fill_hops block_rms fuel (Z.of_nat h) remaining a).
  Proof.
    revert samples remaining a. induction fuel as [|fuel IH]; intros samples [|x remaining] a Hfuel Hw;
      simpl in Hfuel; [by rewrite app_nil_r|lia|by rewrite app_nil_r|].
    cbn [fill_hops]. rewrite Nat2Z.id. set (rest := x :: remaining) in *.
    set (count := Nat.min (length rest) (h - length (ac_energy_pending a))).
    assert (Hp : (length (ac_energy_pending a) < h)%nat) by (destruct Hw as (? & ? & ? & ? & _); done).
    assert (Hrest : length rest = S (length remaining)) by done. clearbody rest.
    assert (Hcount : (0 < count)%nat) by lia.
    rewrite <- (take_drop count rest) at 1. rewrite app_assoc.
    apply IH; [rewrite length_drop; lia|].
    apply fill_hop_writes; [|rewrite length_take; lia|done].
    intros Hnil%(f_equal length). rewrite length_take in Hnil. simpl in Hnil. lia.
  Qed.

Lemma push_samples_writes id samples block a :
    writes id samples a → writes id (samples ++ block) (push_samples block_rms block a).
  Proof.
    intros Hw. unfold push_samples. case_bool_decide as Hnil; [subst; by rewrite app_nil_r|].
    set (a' := a <| ac_sample_count ::= _ |>).
    assert (Hw' : writes id samples a') by (destruct a; exact Hw).
    assert (Hfed : writes id (samples ++ block) (feed_energy block_rms block a')).
    { destruct Hw' as (full & Hs & Hfull & Hpend & Hsize & Hrest).
      unfold feed_energy. destruct (ac_energy a') eqn:Hen; [|destruct Hrest as (_ & _ & _ & He); congruence].
      rewrite Hsize. apply fill_hops_writes; [done|]. exists full. by rewrite Hen. }
    clear -Hfed. revert Hfed. generalize (feed_energy block_rms block a') as b. intros b Hb.
    unfold writes in *. unfold count_block.
    repeat match goal with |- context [if ?c then _ else _] => destruct c end; exact Hb.
  Qed.

Lemma pushes_writes id samples blocks a :
    writes id samples a →
    writes id (samples ++ concat blocks) (foldl (λ a b, push_samples block_rms b a) a blocks).
  Proof.
    revert samples a. induction blocks as [|b blocks IH]; intros samples a Hw; simpl; [by rewrite app_nil_r|].
    rewrite app_assoc. by apply IH, push_samples_writes.
  Qed.

Lemma chunks_cut fuel full pending :
    Forall (λ c, length c = h) full → (length pending < h)%nat →
    (length (concat full ++ pending) <= fuel)%nat →
    chunks fuel h (concat full ++ pending) = full ++ tail_chunk pending.
  Proof.
    intros Hfull Hp. revert fuel. induction Hfull as [|c full Hc _ IH]; intros fuel Hfuel; simpl in *.
    - destruct fuel, pending as [|x p]; simpl in *; [done|lia|done|].
      rewrite take_ge, drop_ge by (simpl; lia). by destruct fuel.
    - rewrite <- app_assoc, !length_app in *. destruct c as [|x c]; [simpl in *; lia|].
      destruct fuel as [|fuel]; [simpl in *; lia|]. cbn [chunks app].
      change (x :: c ++ concat full ++ pending) with ((x :: c) ++ concat full ++ pending).
      rewrite take_app_length', drop_app_length' by done. f_equal. apply IH. simpl in *; lia.
  Qed.
End writer_facts.

(* ------------------------------------------------------------------ *)
(** ** A range of the clock *)

Definition loud_at (floor : F32) (hops : list EnergyHop) (z : Z) : Prop :=
  ∃ hop, hop ∈ hops ∧ f32_ge (eh_rms hop) floor = true ∧ eh_start hop <= z < eh_end hop.

Lemma contiguous_from_starts p q hops hop :
  contiguous_from p hops = Some q → hop ∈ hops → p <= eh_start hop ∧ eh_start hop < eh_end hop.
Proof.
  revert p. induction hops as [|x hops IH]; intros p Hc Hin; simpl in Hc; [by apply elem_of_nil in Hin|].
  destruct (negb (eh_start x =? p) || (eh_end x <=? p)) eqn:He; [done|]. zbool.
  apply elem_of_cons in Hin as [->|Hin]; [lia|]. specialize (IH _ Hc Hin). lia.
Qed.

Lemma contiguous_from_le p q hops : contiguous_from p hops = Some q → p <= q.
Proof.
  revert p. induction hops as [|x hops IH]; intros p Hc; simpl in Hc; [simplify_eq; lia|].
  destruct (negb (eh_start x =? p) || (eh_end x <=? p)) eqn:He; [done|]. zbool. specialize (IH _ Hc). lia.
Qed.

Lemma contiguous_from_starts_below p q hops hop :
  contiguous_from p hops = Some q → hop ∈ hops → eh_start hop < q.
Proof.
  revert p. induction hops as [|x hops IH]; intros p Hc Hin; [by apply elem_of_nil in Hin|].
  pose proof (contiguous_from_starts _ _ _ _ Hc Hin). simpl in Hc.
  destruct (negb (eh_start x =? p) || (eh_end x <=? p)) eqn:He; [done|]. zbool.
  apply elem_of_cons in Hin as [->|Hin]; [|by eapply IH].
  pose proof (contiguous_from_le _ _ _ Hc). lia.
Qed.

Section scan.
  Context (start stop : Z) (floor : F32).
  Context (nonempty : start < stop).

Lemma scan_hops_exact p q hops voiced :
    contiguous_from p hops = Some q → stop <= q →
    ∃ found, scan_hops start stop floor (Z.max start (Z.min p stop)) voiced hops = Some (stop, voiced ++ found) ∧
      (∀ z, start <= z < stop → in_spans z found ↔ loud_at floor hops z) ∧
      ∀ r, r ∈ found → start <= r.1 < r.2 ∧ r.2 <= stop.
  Proof.
    revert p voiced. induction hops as [|x hops IH]; intros p voiced Hc Hq.
    { simpl in Hc. simplify_eq. exists []. simpl. rewrite app_nil_r. split_and!; [do 2 f_equal; lia| |by intros r ?%elem_of_nil].
      intros z Hz. split; [by intros ?%in_spans_nil|]. intros (? & ?%elem_of_nil & _). done. }
    assert (Hstarts : ∀ hop, hop ∈ x :: hops → p <= eh_start hop)
      by (intros hop Hin; by apply (contiguous_from_starts _ _ _ _ Hc)).
    simpl in Hc. destruct (negb (eh_start x =? p) || (eh_end x <=? p)) eqn:He; [done|]. zbool.
    cbn [scan_hops]. destruct (eh_end x <=? start) eqn:H1; zbool.
    - destruct (IH (eh_end x) voiced Hc Hq) as (found & Hs & Hf & Hin'). exists found. split_and!; [| |done].
      + rewrite <- Hs. f_equal. lia.
      + intros z Hz. rewrite Hf by done. split; intros (hop & Hin & Hl & Hr); exists hop; (split; [|done]).
        * by right.
        * apply elem_of_cons in Hin as [->|]; [lia|done].
    - destruct (stop <=? eh_start x) eqn:H2; zbool.
      { exists []. rewrite app_nil_r. split_and!; [do 2 f_equal; lia| |by intros r ?%elem_of_nil]. intros z Hz.
        split; [by intros ?%in_spans_nil|]. intros (hop & Hin & Hl & Hr).
        specialize (Hstarts hop Hin). lia. }
      rewrite (proj2 (Z.ltb_ge _ _)) by lia.
      set (piece := (Z.max (eh_start x) start, Z.min (eh_end x) stop)).
      set (v := if _ && _ then _ else voiced).
      destruct (IH (eh_end x) v Hc Hq) as (found & Hs & Hf & Hin').
      exists ((if f32_ge (eh_rms x) floor then [piece] else []) ++ found). split_and!; cycle 2.
      { intros r [Hr|Hr]%elem_of_app; [|auto]. case_match; [|by apply elem_of_nil in Hr].
        apply list_elem_of_singleton in Hr as ->. subst piece. simpl. lia. }
      + replace (Z.max (Z.max start (Z.min p stop)) (Z.min (eh_end x) stop))
          with (Z.max start (Z.min (eh_end x) stop)) by lia.
        rewrite Hs. do 2 f_equal. subst v piece. rewrite (proj2 (Z.ltb_lt _ _)), andb_true_r by lia.
        destruct (f32_ge (eh_rms x) floor); simpl; by rewrite <- ?app_assoc.
      + intros z Hz. rewrite in_spans_app, Hf by done. unfold loud_at. setoid_rewrite elem_of_cons. split.
        * intros [Hp|(hop & Hin & Hr)]; [|exists hop; eauto].
          destruct (f32_ge (eh_rms x) floor) eqn:Hl; [|by apply in_spans_nil in Hp].
          apply in_spans_cons in Hp as [Hp|Hp]; [|by apply in_spans_nil in Hp].
          exists x. unfold in_range in Hp. subst piece. simpl in Hp. split_and!; [by left|done|lia|lia].
        * intros (hop & [->|Hin] & Hl & Hr); [left|right; eauto].
          rewrite Hl. apply in_spans_cons. left. unfold in_range. subst piece. simpl. lia.
  Qed.
End scan.

(* ------------------------------------------------------------------ *)
(** ** Joined hops *)

Section joined.
  Context (joins : Z → Z → bool).

  #[local] Notation join := (join_hop joins).

Lemma join_hop_app bs cs hop : cs ≠ [] → join (bs ++ cs) hop = bs ++ join cs hop.
  Proof.
    intros Hcs. destruct (exists_last Hcs) as (cs' & [s e] & ->). unfold join_hop.
    rewrite app_assoc, !last_snoc, !removelast_last. destruct (joins e (eh_start hop)); by rewrite <- ?app_assoc.
  Qed.

Lemma join_hop_ne bs hop : join bs hop ≠ [].
  Proof. unfold join_hop. destruct (last bs) as [[]|]; [case_match|]; by intros [_ ?]%app_eq_nil. Qed.

Lemma foldl_join_app bs cs hops : cs ≠ [] → foldl join (bs ++ cs) hops = bs ++ foldl join cs hops.
  Proof.
    revert cs. induction hops as [|x hops IH]; intros cs Hcs; simpl; [done|].
    rewrite join_hop_app by done. apply IH, join_hop_ne.
  Qed.

  (** Hops that do not join the last range start ranges of their own. *)
Lemma joined_app hops1 hops2 :
    (∀ r x, last (joined joins hops1) = Some r → head hops2 = Some x → joins r.2 (eh_start x) = false) →
    joined joins (hops1 ++ hops2) = joined joins hops1 ++ joined joins hops2.
  Proof.
    intros Hno. unfold joined. rewrite foldl_app. fold (joined joins hops1).
    destruct hops2 as [|x hops2]; simpl; [by rewrite app_nil_r|].
    rewrite <- foldl_join_app by apply join_hop_ne. f_equal. unfold join_hop at 1. unfold join_hop. simpl.
    destruct (last (joined joins hops1)) as [[s e]|] eqn:Hl; [|done].
    by rewrite (Hno _ x eq_refl eq_refl : joins e _ = false).
  Qed.

  (** A range that is not the last one stays. *)
Lemma joined_keeps hops1 hops2 ranges r b :
    joined joins hops1 = ranges ++ [b] → r ∈ ranges → r ∈ joined joins (hops1 ++ hops2).
  Proof.
    intros Hj Hr. unfold joined in *. rewrite foldl_app, Hj.
    rewrite foldl_join_app by done. apply elem_of_app. by left.
  Qed.

Lemma joined_ends hops r : r ∈ joined joins hops → ∃ hop, hop ∈ hops ∧ r.2 = eh_end hop.
  Proof.
    unfold joined. revert r. induction hops as [|x hops IH] using rev_ind; intros r; simpl;
      [by intros ?%elem_of_nil|].
    rewrite foldl_app. simpl. set (bs := foldl _ _ hops) in *. unfold join_hop.
    assert (Hnew : ∃ hop, hop ∈ hops ++ [x] ∧ eh_end x = eh_end hop)
      by (exists x; split; [set_solver|done]).
    assert (Hold : r ∈ bs → ∃ hop, hop ∈ hops ++ [x] ∧ r.2 = eh_end hop)
      by (intros (hop & ? & ?)%IH; exists hop; split; [set_solver|done]).
    destruct (last bs) as [[s e]|] eqn:Hl; [case_match|].
    - apply last_Some in Hl as [bs' Hbs]. rewrite Hbs, removelast_last. intros [Hr|Hr]%elem_of_app.
      + apply Hold. rewrite Hbs. set_solver.
      + apply list_elem_of_singleton in Hr as ->. simpl. destruct (Z.max_spec e (eh_end x)) as [[_ ->]|[_ ->]]; [done|].
        destruct (IH (s, e)) as (hop & ? & ?); [rewrite Hbs; set_solver|]. exists hop. split; [set_solver|done].
    - intros [Hr|Hr]%elem_of_app; [auto|]. apply list_elem_of_singleton in Hr as ->. done.
    - intros [Hr|Hr]%elem_of_app; [auto|]. apply list_elem_of_singleton in Hr as ->. done.
  Qed.
End joined.

(* ------------------------------------------------------------------ *)
(** ** Closed bursts *)

Section closed.
  Context (h rate : Z) (floor : F32).
  Context (h_positive : 0 < h) (rate_of_hops : rate = 50 * h) (rate_u32 : rate <= u32_max).

  #[local] Notation voiced := (filter (λ hop, f32_ge (eh_rms hop) floor)).
  #[local] Notation joins :=
    (λ prior_end start, speech_anchor_shorter_than (sat_sub start prior_end) rate SPEECH_ANCHOR_MERGE_GAP_MS).

Lemma shorter_false samples :
    0 <= samples → samples * 1000 <= u64_max →
    speech_anchor_shorter_than samples rate SPEECH_ANCHOR_MERGE_GAP_MS = false ↔ 3 * h <= samples.
  Proof. unfold speech_anchor_shorter_than, SPEECH_ANCHOR_MERGE_GAP_MS. rewrite Z.ltb_ge. mach. Qed.

  (** [full] ends at [fence], a multiple of the hop; [part] is the hop being
      filled and [later] what it and its successors become. *)
Lemma closed_burst_stays full part later fence observed r :
    (∀ hop, hop ∈ full → (h | eh_end hop) ∧ eh_end hop <= fence) → (h | fence) →
    (part = [] ∨ ∃ hop, part = [hop] ∧ eh_end hop = observed) →
    (∀ hop, hop ∈ later → fence <= eh_start hop) →
    fence <= observed < fence + h → observed * 1000 <= u64_max →
    (∀ hop, hop ∈ full → 0 <= eh_end hop) →
    (∀ hop, hop ∈ later → eh_start hop * 1000 <= u64_max) →
    r ∈ joined joins (voiced (full ++ part)) →
    speech_anchor_shorter_than (sat_sub observed r.2) rate SPEECH_ANCHOR_MERGE_GAP_MS = false →
    r ∈ joined joins (voiced (full ++ later)).
  Proof.
    pose proof shorter_false as Hsf. intros Hfull Hfence Hpart Hlater Hobs Hbound Hnn Hsmall Hr Hclosed.
    assert (Hrange : observed <> r.2).
    { intros He. apply Hsf in Hclosed; unfold sat_sub in *; mach. }
    assert (Hin : r ∈ joined joins (voiced full)).
    { rewrite filter_app in Hr. destruct Hpart as [->|(x & -> & Hx)]; [by rewrite app_nil_r in Hr|].
      rewrite filter_cons, filter_nil in Hr. case_decide; [|by rewrite app_nil_r in Hr].
      unfold joined in Hr |- *. rewrite foldl_app in Hr. simpl in Hr.
      set (bs := foldl _ _ (voiced full)) in *. unfold join_hop in Hr.
      assert (Hends : ∀ b, b ∈ bs → b.2 <= observed).
      { intros b (hop & Hin & ->)%joined_ends. apply list_elem_of_filter in Hin as [_ Hin].
        specialize (Hfull _ Hin). lia. }
      destruct (last bs) as [[s e]|] eqn:Hl; [case_match|].
      - apply last_Some in Hl as [bs' Hbs]. rewrite Hbs in Hr. rewrite removelast_last in Hr.
        apply elem_of_app in Hr as [Hr|Hr]; [rewrite Hbs; set_solver|].
        apply list_elem_of_singleton in Hr as ->. simpl in *.
        assert (e <= observed) by (apply (Hends (s, e)); rewrite Hbs; set_solver). lia.
      - apply elem_of_app in Hr as [Hr|Hr]; [done|]. apply list_elem_of_singleton in Hr as ->. simpl in *. lia.
      - apply elem_of_app in Hr as [Hr|Hr]; [done|]. apply list_elem_of_singleton in Hr as ->. simpl in *. lia. }
    destruct (joined_ends _ _ _ Hin) as (hop & Hhop & Hend).
    apply list_elem_of_filter in Hhop as [_ Hhop]. destruct (Hfull _ Hhop) as [Hdiv Hle].
    rewrite <- Hend in Hdiv, Hle. assert (Hr0 : 0 <= r.2) by (rewrite Hend; auto).
    apply Hsf in Hclosed; [|mach|mach].
    rewrite filter_app. assert (Hne : joined joins (voiced full) ≠ []) by (intros He; rewrite He in Hin; by apply elem_of_nil in Hin).
    destruct (exists_last Hne) as (bs & b & Hbs).
    rewrite Hbs in Hin. apply elem_of_app in Hin as [Hin|Hin]; [by eapply joined_keeps|].
    apply list_elem_of_singleton in Hin as <-.
    rewrite joined_app; [rewrite Hbs; set_solver|].
    intros r' x Hl Hx. rewrite Hbs, last_snoc in Hl. simplify_eq.
    assert (Hxl : x ∈ later).
    { destruct (voiced later) as [|y l] eqn:Hv; [done|]. simplify_eq/=.
      assert (x ∈ voiced later) as [_ ?]%list_elem_of_filter by (rewrite Hv; by left). done. }
    specialize (Hlater _ Hxl). specialize (Hsmall _ Hxl).
    apply Hsf; [mach|mach|].
    destruct Hdiv as [d Hd], Hfence as [f Hf]. unfold sat_sub in *.
    assert (2 < f - d) by (apply (Zmult_lt_reg_r 2 (f - d) h); lia). nia.
  Qed.
End closed.

(* ------------------------------------------------------------------ *)
(** ** The clock of a recording *)

(** The clock after the blocks of a recording, in the order they arrived. *)
Definition recorded (block_rms : list F32 → F32) (session : string) (capture_epoch sample_rate : Z)
    (blocks : list (list F32)) : option CaptureEnergyOwner :=
  ac_energy (foldl (λ a block, push_samples block_rms block a)
               (bound_to_at_rate (energy_bind session capture_epoch) sample_rate) blocks).

Definition hop_of_rate (sample_rate : Z) : Z := Z.max 1 (sample_rate / 50).

Definition sample_clock (block_rms : list F32 → F32) (sample_rate : Z) (samples : list F32) : SessionEnergyClock :=
  reference_clock block_rms (hop_min_run (hop_of_rate sample_rate))
    (chunks (length samples) (Z.to_nat (hop_of_rate sample_rate)) samples).

Lemma chunks_prefix h full rest fuel :
  (0 < h)%nat → Forall (λ c : list F32, length c = h) full → (length (concat full ++ rest) <= fuel)%nat →
  ∃ fuel', (length rest <= fuel')%nat ∧ chunks fuel h (concat full ++ rest) = full ++ chunks fuel' h rest.
Proof.
  intros Hh Hfull. revert fuel. induction Hfull as [|c full Hc _ IH]; intros fuel Hfuel; simpl in *; [by eauto|].
  rewrite <- app_assoc, !length_app in *. destruct c as [|x c]; [simpl in *; lia|].
  destruct fuel as [|fuel]; [simpl in *; lia|]. cbn [chunks app].
  change (x :: c ++ concat full ++ rest) with ((x :: c) ++ concat full ++ rest).
  rewrite take_app_length', drop_app_length' by done.
  destruct (IH fuel) as (f & Hf & ->); [simpl in *; lia|]. by exists f.
Qed.

Lemma chunks_nonempty fuel h (samples : list F32) : (0 < h)%nat → Forall (λ c, c ≠ []) (chunks fuel h samples).
Proof.
  intros Hh. revert samples. induction fuel as [|fuel IH]; intros [|x l]; simpl; constructor; [|done].
  by destruct h; [lia|].
Qed.

Lemma clock_chunks_concat fuel h (samples : list F32) :
  (0 < h)%nat → (length samples <= fuel)%nat → concat (chunks fuel h samples) = samples.
Proof.
  intros Hh. revert samples. induction fuel as [|fuel IH]; intros [|x l] Hf; simpl in Hf; [done|lia|done|].
  cbn [chunks concat]. rewrite IH; [apply take_drop|]. rewrite length_drop. simpl. lia.
Qed.

Section recording.
  Context (block_rms : list F32 → F32) (session : string) (capture_epoch sample_rate : Z).
  Context (block_rms_level : ∀ l, l ≠ [] → ∃ z, block_rms l = Some z ∧ 0 <= z).

  #[local] Notation h := (Z.to_nat (hop_of_rate sample_rate)).

Lemma hop_of_rate_pos : 0 < hop_of_rate sample_rate.
  Proof. unfold hop_of_rate. lia. Qed.

Lemma recorded_writes blocks :
    writes block_rms h (mkCaptureIdentity session capture_epoch) (concat blocks)
      (foldl (λ a block, push_samples block_rms block a)
         (bound_to_at_rate (energy_bind session capture_epoch) sample_rate) blocks).
  Proof.
    pose proof hop_of_rate_pos. apply (pushes_writes block_rms h) with (samples := []); [lia|done|].
    exists []. cbn. split_and!; try done; [lia|]. f_equal. rewrite Z2Nat.id by lia. done.
  Qed.

Lemma recorded_clock blocks :
    recorded block_rms session capture_epoch sample_rate blocks
    = Some (mkEnergyOwner (mkCaptureIdentity session capture_epoch)
              (sample_clock block_rms sample_rate (concat blocks))).
  Proof.
    pose proof hop_of_rate_pos.
    destruct (recorded_writes blocks) as (full & Hs & Hfull & Hp & _ & _ & _ & _ & Hen).
    unfold recorded. rewrite Hen. unfold sample_clock. do 2 f_equal.
    rewrite Z2Nat.id by lia. f_equal. rewrite Hs. symmetry. apply chunks_cut; [lia|done|done|done].
  Qed.

Lemma sample_clock_contiguous samples :
    contiguous_from 0 (ck_hops (sample_clock block_rms sample_rate samples)) = Some (len samples).
  Proof.
    pose proof hop_of_rate_pos. unfold sample_clock. cbn.
    rewrite clock_hops_contiguous by (apply chunks_nonempty; lia). by rewrite clock_chunks_concat by lia.
  Qed.

Lemma sample_clock_observed samples : ck_observed_samples (sample_clock block_rms sample_rate samples) = len samples.
  Proof. pose proof hop_of_rate_pos. unfold sample_clock. cbn. by rewrite clock_chunks_concat by lia. Qed.

Lemma clock_hops_length r0 start cs m : length (clock_hops block_rms m r0 start cs) = length cs.
  Proof. revert r0 start. induction cs as [|c cs IH]; intros; simpl; [done|]. by rewrite IH. Qed.

Lemma full_hops_end m run start cs hop :
    (0 < h)%nat → Forall (λ c : list F32, length c = h) cs →
    (Z.of_nat h | start) → 0 <= start → hop ∈ clock_hops block_rms m run start cs →
    (Z.of_nat h | eh_end hop) ∧ 0 <= eh_end hop <= start + len cs * Z.of_nat h.
  Proof.
    intros Hh Hcs. revert run start. induction Hcs as [|c cs Hc _ IH]; intros run start Hd H0; simpl;
      [by intros ?%elem_of_nil|].
    rewrite Hc. intros [->|Hin]%elem_of_cons; cbn.
    - split; [by apply Z.divide_add_r; [|apply Z.divide_refl]|nia].
    - apply IH in Hin as [? ?]; [split; [done|nia]|by apply Z.divide_add_r; [|apply Z.divide_refl]|lia].
  Qed.

  (** The full hops of a recording are those of every longer one. *)
Lemma sample_clock_grows samples : ∃ full,
    (∀ hop, hop ∈ full → (hop_of_rate sample_rate | eh_end hop) ∧ 0 <= eh_end hop <= len full * hop_of_rate sample_rate) ∧
    len full * hop_of_rate sample_rate <= len samples < len full * hop_of_rate sample_rate + hop_of_rate sample_rate ∧
    (∃ part, ck_hops (sample_clock block_rms sample_rate samples) = full ++ part ∧
       (part = [] ∨ ∃ hop, part = [hop] ∧ eh_end hop = len samples)) ∧
    ∀ more, ∃ later, ck_hops (sample_clock block_rms sample_rate (samples ++ more)) = full ++ later ∧
      ∀ hop, hop ∈ later → len full * hop_of_rate sample_rate <= eh_start hop < len (samples ++ more).
  Proof.
    pose proof hop_of_rate_pos as Hpos.
    assert (HZ : Z.of_nat h = hop_of_rate sample_rate) by lia.
    assert (Hcut : ∃ full pending, samples = concat full ++ pending ∧
              Forall (λ c : list F32, length c = h) full ∧ (length pending < h)%nat).
    { destruct (recorded_writes [samples]) as (full & Hs & Hf & Hp & _).
      simpl in Hs. rewrite app_nil_r in Hs. eauto. }
    destruct Hcut as (full & pending & Hs & Hfull & Hp).
    assert (Hconcat : len (concat full) = len full * Z.of_nat h).
    { clear -Hfull. induction Hfull as [|c cs Hc _ IH]; simpl; [lia|]. rewrite length_app. lia. }
    set (m := hop_min_run (hop_of_rate sample_rate)).
    exists (clock_hops block_rms m 0 0 full). rewrite !clock_hops_length, <- HZ.
    assert (Hsplit : ∀ rest, ∃ fuel, (length rest <= fuel)%nat ∧
              ck_hops (sample_clock block_rms sample_rate (concat full ++ rest))
              = clock_hops block_rms m 0 0 full
                  ++ clock_hops block_rms m (zero_run 0 (concat full)) (len (concat full)) (chunks fuel h rest)).
    { intros rest. destruct (chunks_prefix h full rest (length (concat full ++ rest))) as (fuel & Hf & He);
        [lia|done|done|].
      exists fuel. split; [done|]. unfold sample_clock. cbn. fold m. by rewrite He, clock_hops_app. }
    split_and!.
    - intros hop Hin. by apply full_hops_end in Hin; [|lia|done|apply Z.divide_0_r|lia].
    - rewrite <- Hconcat, Hs, length_app. lia.
    - rewrite <- Hconcat, Hs, length_app. lia.
    - rewrite Hs. destruct (Hsplit pending) as (fuel & Hf & ->).
      exists (clock_hops block_rms m (zero_run 0 (concat full)) (len (concat full)) (chunks fuel h pending)).
      split; [done|]. destruct pending as [|x pending]; [left; by destruct fuel|right].
      destruct fuel as [|fuel]; [simpl in Hf; lia|]. cbn [chunks].
      rewrite take_ge, drop_ge by lia. exists (mkHop (len (concat full)) (len (concat full) + len (x :: pending))
        (block_rms (x :: pending)) (reaches m (zero_run 0 (concat full)) (x :: pending))).
      split; [by destruct fuel|]. cbn. rewrite length_app. simpl. lia.
    - intros more. rewrite Hs, <- app_assoc. destruct (Hsplit (pending ++ more)) as (fuel & Hf & ->).
      eexists. split; [done|]. intros hop Hin. rewrite <- Hconcat.
      pose proof (clock_hops_contiguous block_rms m (zero_run 0 (concat full)) (len (concat full))
                    (chunks fuel h (pending ++ more))) as Hc.
      specialize (Hc (chunks_nonempty fuel h _ ltac:(lia))). rewrite clock_chunks_concat in Hc by lia.
      pose proof (contiguous_from_starts _ _ _ _ Hc Hin) as [H1 _].
      pose proof (contiguous_from_starts_below _ _ _ _ Hc Hin) as H2.
      rewrite !length_app in *. lia.
  Qed.
End recording.

(* ------------------------------------------------------------------ *)
(** ** Properties *)

(** C20: the energy clock of a take depends on the samples only, never on the
    blocks the device delivered them in: after any sequence of blocks it holds
    one hop of 20 ms per whole chunk of the samples and one for the rest, it
    tiles everything that was captured, and it names the first hop that holds a
    sample which is not a number. *)
Theorem clock_of_the_samples (block_rms : list F32 → F32) session capture_epoch sample_rate blocks :
  (∀ l, l ≠ [] → ∃ z, block_rms l = Some z ∧ 0 <= z) →
  recorded block_rms session capture_epoch sample_rate blocks
  = Some (mkEnergyOwner (mkCaptureIdentity session capture_epoch)
            (sample_clock block_rms sample_rate (concat blocks)))
  ∧ speech_anchor_clock_contiguous (sample_clock block_rms sample_rate (concat blocks)) = true.
Proof.
  intros Hlevel. split; [by apply recorded_clock|].
  apply bool_decide_eq_true. rewrite sample_clock_observed. by apply sample_clock_contiguous.
Qed.

(** what the capture answers about a range is what its hops measured: an
    owner that speaks for its extent answers exactly for the ranges inside it,
    the answer covers exactly the samples of the hops at or above the floor, and
    "measured quiet" is said exactly where no hop of the range is active and none
    was written by a gate. *)
Theorem range_answer_exact session capture_epoch sample_start sample_end o :
  clock_speaks session capture_epoch o = true → 0 <= sample_start →
  (∀ floor, match hops_at_or_above session capture_epoch sample_start sample_end floor o with
     | None => ¬ (sample_start < sample_end <= ck_observed_samples (eo_clock o))
     | Some found =>
         sample_start < sample_end <= ck_observed_samples (eo_clock o) ∧
         ∀ z, sample_start <= z < sample_end → in_spans z found ↔ loud_at floor (ck_hops (eo_clock o)) z
     end) ∧
  (sample_start < sample_end <= ck_observed_samples (eo_clock o) →
   measured_quiet_in session capture_epoch sample_start sample_end o = Some true ↔
   ∀ hop, hop ∈ ck_hops (eo_clock o) → eh_start hop < sample_end → sample_start < eh_end hop →
     f32_ge (eh_rms hop) ACTIVE_SPEECH_LINEAR_FLOOR = false ∧ eh_gated hop = false).
Proof.
  unfold clock_speaks. intros Hspeaks H0. zbool. rename select (identity_matches _ _ _ = true) into Hid.
  match goal with H : speech_anchor_clock_contiguous _ = true |- _ => apply bool_decide_eq_true in H as Hc end.
  set (c := eo_clock o) in *.
  assert (Hinv : bool_decide (is_Some (ck_first_invalid_sample c)) = false) by by apply bool_decide_eq_false.
  assert (Hscan : ∀ floor, sample_start < sample_end <= ck_observed_samples c → ∃ found,
    hops_at_or_above session capture_epoch sample_start sample_end floor o = Some found ∧
    (∀ z, sample_start <= z < sample_end → in_spans z found ↔ loud_at floor (ck_hops c) z) ∧
    ∀ r, r ∈ found → sample_start <= r.1 < r.2 ∧ r.2 <= sample_end).
  { intros floor Hr. unfold hops_at_or_above. fold c. rewrite Hid, Hinv.
    rewrite (proj2 (Z.leb_gt _ _)), (proj2 (Z.eqb_neq _ _)), (proj2 (Z.ltb_ge _ _)) by lia. cbn [negb orb].
    destruct (scan_hops_exact sample_start sample_end floor ltac:(lia) 0 _ _ [] Hc ltac:(lia))
      as (found & Hs & Hf).
    replace (Z.max sample_start (Z.min 0 sample_end)) with sample_start in Hs by lia.
    rewrite Hs, Z.leb_refl. by exists found. }
  split.
  - intros floor. destruct (decide (sample_start < sample_end <= ck_observed_samples c)) as [Hr|Hr].
    + destruct (Hscan floor Hr) as (found & -> & Hf & _). done.
    + replace (hops_at_or_above _ _ _ _ _ _) with (@None (list (Z * Z))); [done|].
      unfold hops_at_or_above. fold c. rewrite Hid, Hinv. cbn [negb orb]. rewrite orb_false_r.
      destruct (sample_end <=? sample_start) eqn:?; [done|]. zbool.
      rewrite (proj2 (Z.ltb_lt _ _)) by lia. by rewrite orb_true_r.
  - intros Hr. unfold measured_quiet_in, digital_zero_in, voiced_hops_in.
    destruct (Hscan ACTIVE_SPEECH_LINEAR_FLOOR Hr) as (found & -> & Hf & Hin).
    destruct (Hscan (Some 0) Hr) as (? & -> & _). fold c. split.
    + destruct found as [|r found]; [|done]. case_match eqn:Hg; [done|]. intros _ hop Hhop Hlo Hhi.
      rewrite existsb_false in Hg. specialize (Hg _ Hhop). simpl in Hg.
      rewrite (proj2 (Z.ltb_lt _ _)), (proj2 (Z.ltb_lt _ _)), !andb_true_r in Hg by lia. split; [|done].
      destruct (f32_ge (eh_rms hop) _) eqn:Hl; [|done]. exfalso.
      pose proof (contiguous_from_starts _ _ _ _ Hc Hhop).
      eapply in_spans_nil, (Hf (Z.max (eh_start hop) sample_start)); [lia|]. exists hop. split_and!; [done..|lia|lia].
    + intros Hq. destruct found as [|r found].
      * replace (existsb _ _) with false; [done|]. symmetry. apply existsb_false. intros hop Hhop.
        destruct (eh_start hop <? sample_end) eqn:?, (sample_start <? eh_end hop) eqn:?; rewrite ?andb_false_r; try done.
        zbool. by destruct (Hq hop) as [_ ->].
      * exfalso. destruct (Hin r) as [Hlo Hhi]; [by left|].
        destruct (proj1 (Hf r.1 ltac:(lia))) as (hop & Hhop & Hl & Hr').
        { exists r. split; [by left|]. unfold in_range. lia. }
        destruct (Hq hop Hhop ltac:(lia) ltac:(lia)) as [Hnl _]. congruence.
Qed.

Lemma anchors_observed session capture_epoch sample_rate floor o n :
  sae_availability (session_speech_anchors session capture_epoch sample_rate floor o) = Observed n →
  sae_anchors (session_speech_anchors session capture_epoch sample_rate floor o)
  = map (anchor_of session capture_epoch sample_rate (ck_observed_samples (eo_clock o)))
      (anchor_bursts sample_rate floor (ck_hops (eo_clock o))).
Proof. unfold session_speech_anchors. by repeat case_match. Qed.

Lemma anchors_elem session capture_epoch sample_rate floor o a :
  a ∈ sae_anchors (session_speech_anchors session capture_epoch sample_rate floor o) →
  ∃ r, r ∈ anchor_bursts sample_rate floor (ck_hops (eo_clock o)) ∧
    a = anchor_of session capture_epoch sample_rate (ck_observed_samples (eo_clock o)) r.
Proof.
  unfold session_speech_anchors. repeat case_match; cbn; try by intros ?%elem_of_nil.
  intros (r & -> & Hr)%list_elem_of_fmap. eauto.
Qed.

(** a speech anchor is final once the merge gap of quiet has followed it:
    whatever is captured afterwards, the same anchor, with the same bounds, is on
    every later map of the take.  (The hop must be an exact 20 ms, i.e. the rate
    a multiple of 50.) *)
Theorem closed_anchor_final (block_rms : list F32 → F32) session capture_epoch sample_rate floor blocks more o o' n a :
  (∀ l, l ≠ [] → ∃ z, block_rms l = Some z ∧ 0 <= z) →
  (50 | sample_rate) → 0 < sample_rate <= u32_max → len (concat (blocks ++ more)) * 1000 <= u64_max →
  recorded block_rms session capture_epoch sample_rate blocks = Some o →
  recorded block_rms session capture_epoch sample_rate (blocks ++ more) = Some o' →
  sae_availability (session_speech_anchors session capture_epoch sample_rate floor o') = Observed n →
  a ∈ sae_anchors (session_speech_anchors session capture_epoch sample_rate floor o) →
  sa_open_at_end a = false →
  a ∈ sae_anchors (session_speech_anchors session capture_epoch sample_rate floor o').
Proof.
  intros Hlevel [h Hh] Hrate Hlen Ho Ho' Hobs' Ha Hclosed.
  rewrite recorded_clock in Ho by done. rewrite recorded_clock in Ho' by done.
  apply anchors_observed in Hobs' as ->. apply anchors_elem in Ha as (r & Hr & ->). simplify_eq.
  unfold sa_open_at_end, anchor_of in Hclosed. cbn [eo_clock] in *.
  rewrite concat_app in *. rewrite !sample_clock_observed in *.
  destruct (sample_clock_grows block_rms session capture_epoch (h * 50) Hlevel (concat blocks))
    as (full & Hfull & Hlast & (part & Hpart & Hp) & Hmore).
  destruct (Hmore (concat more)) as (later & Hlater & Hl). rewrite Hpart in Hr. rewrite Hlater.
  set (S := concat blocks) in *. set (T := concat more) in *.
  assert (Hhop : hop_of_rate (h * 50) = h) by (unfold hop_of_rate; rewrite Z.div_mul; lia).
  rewrite Hhop in *.
  unfold anchor_bursts in Hr. apply list_elem_of_filter in Hr as [Hkept Hr].
  assert (Hin : r ∈ anchor_bursts (h * 50) floor (full ++ later)).
  { apply list_elem_of_filter. split; [done|].
    apply (closed_burst_stays h (h * 50) floor ltac:(lia) ltac:(lia) ltac:(lia) full part later
             (len full * h) (len S)); try done.
    - intros hop Hin. destruct (Hfull hop Hin). split; [done|]. lia.
    - apply Z.divide_factor_r.
    - intros hop Hin. apply Hl in Hin. lia.
    - rewrite length_app in Hlen. lia.
    - intros hop Hin. destruct (Hfull hop Hin). lia.
    - intros hop Hin. apply Hl in Hin. lia. }
  apply list_elem_of_fmap. exists r. split; [|done]. unfold anchor_of. f_equal.
  rewrite Hclosed. symmetry. revert Hclosed. unfold speech_anchor_shorter_than. rewrite !Z.ltb_ge.
  rewrite length_app. mach.
Qed.

(* ------------------------------------------------------------------ *)
(** ** Witnesses *)

(** A level that is the peak of the block. *)
Definition peak_level (l : list F32) : F32 := Some (foldl (λ p x, Z.max p (Z.abs (as_measured x))) 0 l).

Lemma peak_level_finite l : l ≠ [] → ∃ z, peak_level l = Some z ∧ 0 <= z.
Proof.
  intros _. eexists. split; [done|]. enough (∀ p, 0 <= p → 0 <= foldl (λ p x, Z.max p (Z.abs (as_measured x))) p l) by auto with lia.
  induction l as [|x l IH]; intros p Hp; simpl; [done|]. apply IH. lia.
Qed.

Definition loud_sample : F32 := Some (2 ^ 140).
Definition quiet_sample : F32 := Some (2 ^ 126).

(** A word, then quiet, at 100 Hz: hops of two samples, a gap of six. *)
Definition a_word : list (list F32) := [replicate 5 loud_sample; replicate 2 loud_sample ++ replicate 9 quiet_sample].
Definition another_word : list (list F32) := [replicate 1 quiet_sample ++ replicate 8 loud_sample].

Lemma clock_of_the_samples_witness :
  recorded peak_level "s" 1 100 a_word = recorded peak_level "s" 1 100 [concat a_word].
Proof.
  rewrite (proj1 (clock_of_the_samples peak_level "s" 1 100 a_word peak_level_finite)). vm_compute. reflexivity.
Defined.

Lemma range_answer_exact_witness :
  hops_at_or_above "s" 1 5 10 ACTIVE_SPEECH_LINEAR_FLOOR
    (mkEnergyOwner (mkCaptureIdentity "s" 1) (sample_clock peak_level 100 (concat a_word)))
  = Some [(5, 6); (6, 8)]
  ∧ measured_quiet_in "s" 1 8 12
      (mkEnergyOwner (mkCaptureIdentity "s" 1) (sample_clock peak_level 100 (concat a_word))) = Some true.
Proof.
  assert (Hs : clock_speaks "s" 1
      (mkEnergyOwner (mkCaptureIdentity "s" 1) (sample_clock peak_level 100 (concat a_word))) = true)
    by (vm_compute; reflexivity).
  split; [vm_compute; reflexivity|].
  apply (proj2 (range_answer_exact "s" 1 8 12 _ Hs ltac:(lia))); [vm_compute; split; [reflexivity|discriminate]|].
  vm_compute ck_hops. intros hop Hin H1 H2.
  repeat (apply elem_of_cons in Hin as [->|Hin]; [first [by split|by vm_compute in H1, H2]|]).
  by apply elem_of_nil in Hin.
Defined.

Lemma closed_anchor_final_witness :
  ∃ o o' a,
    recorded peak_level "s" 1 100 a_word = Some o ∧
    recorded peak_level "s" 1 100 (a_word ++ another_word) = Some o' ∧
    a ∈ sae_anchors (session_speech_anchors "s" 1 100 ACTIVE_SPEECH_LINEAR_FLOOR o') ∧
    sa_range a = mkTailRange "s" 1 0 8.
Proof.
  set (o := mkEnergyOwner (mkCaptureIdentity "s" 1) (sample_clock peak_level 100 (concat a_word))).
  set (o' := mkEnergyOwner (mkCaptureIdentity "s" 1) (sample_clock peak_level 100 (concat (a_word ++ another_word)))).
  exists o, o', (mkSpeechAnchor (mkTailRange "s" 1 0 8) false).
  assert (Ho : recorded peak_level "s" 1 100 a_word = Some o) by (vm_compute; reflexivity).
  assert (Ho' : recorded peak_level "s" 1 100 (a_word ++ another_word) = Some o') by (vm_compute; reflexivity).
  split; [exact Ho|]. split; [exact Ho'|]. split; [|reflexivity].
  apply (closed_anchor_final peak_level "s" 1 100 ACTIVE_SPEECH_LINEAR_FLOOR a_word another_word o o' 25
    (mkSpeechAnchor (mkTailRange "s" 1 0 8) false) peak_level_finite).
  - exists 2. reflexivity.
  - vm_compute. split; [reflexivity|discriminate].
  - vm_compute. discriminate.
  - exact Ho.
  - exact Ho'.
  - vm_compute. reflexivity.
  - vm_compute. by left.
  - reflexivity.
Defined.

(** At a rate that is not a multiple of 50 a hop is shorter than 20 ms, and an
    anchor declared closed can still be joined by the hop being filled. *)
Definition odd_rate_part (more : list F32) : list SpeechAnchor :=
  sae_anchors (session_speech_anchors "s" 1 11025 ACTIVE_SPEECH_LINEAR_FLOOR
    (mkEnergyOwner (mkCaptureIdentity "s" 1)
       (sample_clock peak_level 11025 (replicate (220 * 4) loud_sample ++ replicate (220 * 3 + 2) quiet_sample ++ more)))).

Example odd_rate_reopens :
  odd_rate_part [] = [mkSpeechAnchor (mkTailRange "s" 1 0 880) false] ∧
  odd_rate_part (replicate 10 loud_sample) = [mkSpeechAnchor (mkTailRange "s" 1 0 1552) true].
Proof. vm_compute. done. Qed.
