(* ===== verification/LedgerState.v ===== *)
(** LedgerState: the data the acoustic ledger keeps
    (core/pipeline/acoustic_ledger.rs, with the receipts of
    acoustic_ledger/slot_ops.rs, word_verdict.rs and word_adjudication.rs).

    Every record has the fields of the Rust struct that the operations
    modelled in this development read or write; the fields left out belong to
    operations that are not modelled and are named in the header of
    Prelude.v.  An [f64] is kept as its 64-bit pattern. *)

From S2P Require Import Prelude.
From S2P Require Import LedgerIdentity.
From S2P Require Import LedgerSpans.
From S2P Require Import CaptureEvidence.
From S2P Require Import CaptureEnergy.
#[local] Open Scope Z_scope.

(* ------------------------------------------------------------------ *)
(** ** Words *)

Inductive WordConfidenceSource :=
  | WhisperTokenLogprob | AppleSegmentConfidence | VendorWordProbability.

#[global] Instance WordConfidenceSource_eq_dec : EqDecision WordConfidenceSource.
Proof. solve_decision. Defined.

Record WordConfidence := mkWordConfidence {
  wc_source : WordConfidenceSource;
  wc_milli_value : Z;
  wc_token_count : Z
}.

#[global] Instance WordConfidence_eq_dec : EqDecision WordConfidence.
Proof. solve_decision. Defined.

Inductive SlotWitness :=
  | Unwitnessed
  | Confirmed
  | Contested (witness_label : string) (range : OccurrenceIdentity)
  | Absent (range : OccurrenceIdentity).

#[global] Instance SlotWitness_eq_dec : EqDecision SlotWitness.
Proof. solve_decision. Defined.

Record WordSlot := mkWordSlot {
  ws_sample_start : Z;
  ws_sample_end : Z;
  ws_text : string;
  ws_producer : ObservationProducer;
  ws_observation : ObservationIdentity;
  ws_witness : SlotWitness;
  ws_confidence : option WordConfidence;
  ws_surface_rewritten : bool
}.

#[global] Instance WordSlot_eq_dec : EqDecision WordSlot.
Proof. solve_decision. Defined.

Record SlotAlternative := mkSlotAlternative {
  sa_observation : ObservationIdentity;
  sa_candidate : string;
  sa_sources : list WordSlot;
  sa_reason : string
}.

#[global] Instance SlotAlternative_eq_dec : EqDecision SlotAlternative.
Proof. solve_decision. Defined.

Record SlotTarget := mkSlotTarget {
  st_observation : ObservationIdentity;
  st_sample_start : Z;
  st_sample_end : Z
}.

#[global] Instance SlotTarget_eq_dec : EqDecision SlotTarget.
Proof. solve_decision. Defined.

Definition slot_target_of (slot : WordSlot) : SlotTarget :=
  mkSlotTarget (ws_observation slot) (ws_sample_start slot) (ws_sample_end slot).

Inductive SlotOperationKind := SlotCorrect | SlotInsert | SlotMerge | SlotSplit | SlotDelete.

#[global] Instance SlotOperationKind_eq_dec : EqDecision SlotOperationKind.
Proof. solve_decision. Defined.

Record SlotOperationReceipt := mkSlotOperation {
  so_observation : ObservationIdentity;
  so_kind : SlotOperationKind;
  so_sources : list WordSlot;
  so_outputs : list WordSlot;
  so_source_ranges : list OccurrenceIdentity;
  so_rule_id : string
}.

#[global] Instance SlotOperationReceipt_eq_dec : EqDecision SlotOperationReceipt.
Proof. solve_decision. Defined.

(** A deletion keeps the operation it committed; the adjudicator's verdict is
    authenticated when the deletion is made and not read again by the
    operations modelled here, apart from the range it names. *)
Record WordDeletionReceipt := mkWordDeletion {
  wd_operation : SlotOperationReceipt;
  wd_verdict_target : OccurrenceIdentity
}.

(** A word as its producer pinned it. *)
Record WordPin := mkWordPin {
  pn_sample_start : Z;
  pn_sample_end : Z;
  pn_text : string;
  pn_confidence : option WordConfidence;
  pn_surface_rewritten : bool;
  pn_decode_sample_start : option Z;
  pn_decode_sample_end : option Z
}.

#[global] Instance WordPin_eq_dec : EqDecision WordPin.
Proof. solve_decision. Defined.

(** The measured bursts a word was assigned to, with the part of each its
    producer declared (acoustic_ledger/speech_anchor.rs). *)
Record WordAnchorIdentity := mkWordAnchor {
  wai_anchors : list OccurrenceIdentity;
  wai_spans : list OccurrenceIdentity
}.

#[global] Instance WordAnchorIdentity_eq_dec : EqDecision WordAnchorIdentity.
Proof. solve_decision. Defined.

Record AnchorWordRecord := mkAnchorWord {
  awr_slot : WordSlot;
  awr_identity : WordAnchorIdentity;
  awr_original : OccurrenceIdentity;
  awr_original_pin : WordPin;
  awr_lexical_index : nat;
  awr_sequence_source : option WordSlot
}.

Record CommittedObservation := mkCommitted {
  co_producer : ObservationProducer;
  co_generation : Z;
  co_slots : list WordSlot;
  co_label : string
}.

#[global] Instance CommittedObservation_eq_dec : EqDecision CommittedObservation.
Proof. solve_decision. Defined.

(* ------------------------------------------------------------------ *)
(** ** Acoustic serials *)

Record AcousticSerial := mkSerial {
  ser_version : Z;
  ser_digest : string;
  ser_occurrence : OccurrenceIdentity;
  ser_duration_ms : Z;
  ser_energy_integral : Z;
  ser_mean_rms_dbfs : Z;
  ser_peak_dbfs : Z;
  ser_vad_open_sample : option Z;
  ser_vad_close_sample : option Z;
  ser_calibration_version : string
}.

#[global] Instance AcousticSerial_eq_dec : EqDecision AcousticSerial.
Proof. solve_decision. Defined.

Definition vad_closed (s : AcousticSerial) : bool :=
  match ser_vad_close_sample s with
  | Some close => sample_end (ser_occurrence s) <=? close
  | None => false
  end.

(* ------------------------------------------------------------------ *)
(** ** Frontier, coverage and seals *)

Record ObservationFrontier := mkFrontier {
  fr_coverage : OccurrenceIdentity;
  fr_scheduled : gset ObservationProducer;
  fr_returned : gset ObservationProducer
}.

#[global] Instance ObservationFrontier_eq_dec : EqDecision ObservationFrontier.
Proof. solve_decision. Defined.

Inductive AcousticEvidenceGap :=
  | GapNotObserved | GapIdentityMismatch | GapInvalidMeasurement | GapPartialObservation.

#[global] Instance AcousticEvidenceGap_eq_dec : EqDecision AcousticEvidenceGap.
Proof. solve_decision. Defined.

Definition gap_as_str (g : AcousticEvidenceGap) : string :=
  match g with
  | GapNotObserved => "not_observed"
  | GapIdentityMismatch => "identity_mismatch"
  | GapInvalidMeasurement => "invalid_measurement"
  | GapPartialObservation => "partial_observation"
  end.

Inductive SealCoverageStatus :=
  | Complete | Incomplete | Unavailable (gap : AcousticEvidenceGap).

#[global] Instance SealCoverageStatus_eq_dec : EqDecision SealCoverageStatus.
Proof. solve_decision. Defined.

Definition coverage_status_as_str (s : SealCoverageStatus) : string :=
  match s with
  | Complete => "complete"
  | Incomplete => "incomplete"
  | Unavailable _ => "unavailable"
  end.

Definition is_complete (s : SealCoverageStatus) : bool :=
  match s with Complete => true | _ => false end.

Definition unavailable_reason (s : SealCoverageStatus) : option AcousticEvidenceGap :=
  match s with Unavailable gap => Some gap | Complete | Incomplete => None end.

Record SealCoverageReceipt := mkCoverageReceipt {
  cr_session_id : string;
  cr_capture_epoch : Z;
  cr_sample_rate_hz : option Z;
  cr_speech_samples : Z;
  cr_covered_samples : Z;
  cr_uncovered_speech_ranges : list TailSampleRange;
  cr_max_uncovered_samples : Z;
  cr_incomplete_threshold_samples : Z;
  cr_status : SealCoverageStatus;
  cr_speech_producer : string;
  cr_availability : string;
  cr_observed_samples : option Z
}.

#[global] Instance SealCoverageReceipt_eq_dec : EqDecision SealCoverageReceipt.
Proof. solve_decision. Defined.

Inductive LedgerSealScope := ScopeOccurrence | ScopeTerminal.

#[global] Instance LedgerSealScope_eq_dec : EqDecision LedgerSealScope.
Proof. solve_decision. Defined.

Definition scope_as_str (s : LedgerSealScope) : string :=
  match s with ScopeOccurrence => "occurrence" | ScopeTerminal => "terminal" end.

Inductive SealRefusal :=
  | NotQualified | VadDidNotClose | FrontierOpen | FrontierUnknown | LabelMissing
  | TextRecoveryPending | ObservationsWithoutReceipts | OccurrenceStillOpen
  | CoverageIncomplete.

#[global] Instance SealRefusal_eq_dec : EqDecision SealRefusal.
Proof. solve_decision. Defined.

Definition seal_refusal_as_str (r : SealRefusal) : string :=
  match r with
  | NotQualified => "not_qualified"
  | VadDidNotClose => "vad_did_not_close"
  | FrontierOpen => "frontier_open"
  | FrontierUnknown => "frontier_unknown"
  | LabelMissing => "label_missing"
  | TextRecoveryPending => "text_recovery_pending"
  | ObservationsWithoutReceipts => "observations_without_receipts"
  | OccurrenceStillOpen => "occurrence_still_open"
  | CoverageIncomplete => "coverage_incomplete"
  end.

(* ------------------------------------------------------------------ *)
(** ** Lexical adjudication state

    The part of word_adjudication.rs the seal reads: which components of an
    owner are in conflict or under trial, and the verdict each leaves. *)

Record TailRequestIdentity := mkTailRequest {
  tq_request_id : Z;
  tq_range : TailSampleRange
}.

#[global] Instance TailRequestIdentity_eq_dec : EqDecision TailRequestIdentity.
Proof. solve_decision. Defined.

Record SourceWord := mkSourceWord {
  sw_lexical_position : option Z;
  sw_sample_start : Z;
  sw_sample_end : Z;
  sw_original_text : option string;
  sw_surface : string;
  sw_confidence : option WordConfidence;
  sw_surface_rewritten : bool;
  sw_decode : option (Z * Z)
}.

#[global] Instance SourceWord_eq_dec : EqDecision SourceWord.
Proof. solve_decision. Defined.

Record WordHypothesis := mkHypothesis {
  wh_producer_request : option TailRequestIdentity;
  wh_observation : ObservationIdentity;
  wh_pins : list SourceWord;
  wh_targets : list SlotTarget;
  wh_decode : option (Z * Z);
  wh_original_text : option string;
  wh_surface : string;
  wh_backend : option string;
  wh_finality : string;
  wh_timing : string;
  wh_complete : bool;
  wh_acoustic_boundaries_complete : bool;
  wh_q : Z
}.

#[global] Instance WordHypothesis_eq_dec : EqDecision WordHypothesis.
Proof. solve_decision. Defined.

Record WordTrial := mkTrial {
  wt_id : Z;
  wt_owner : OccurrenceIdentity;
  wt_targets : list SlotTarget;
  wt_source_ranges : list OccurrenceIdentity;
  wt_q : Z;
  wt_fresh_decode : bool
}.

#[global] Instance WordTrial_eq_dec : EqDecision WordTrial.
Proof. solve_decision. Defined.

Record WordTrialReceipt := mkTrialReceipt {
  wtr_trial : WordTrial;
  wtr_reason : string
}.

#[global] Instance WordTrialReceipt_eq_dec : EqDecision WordTrialReceipt.
Proof. solve_decision. Defined.

Record WordFinality := mkWordFinality {
  wf_targets : list SlotTarget;
  wf_selected : WordHypothesis;
  wf_unresolved : bool;
  wf_trial : option WordTrialReceipt
}.

#[global] Instance WordFinality_eq_dec : EqDecision WordFinality.
Proof. solve_decision. Defined.

Record WordAdjudication := mkAdjudication {
  wa_owner : OccurrenceIdentity;
  wa_targets : list SlotTarget;
  wa_incumbent : WordHypothesis;
  wa_apple : list WordHypothesis;
  wa_whisper : list WordHypothesis;
  wa_seen_decodes : gset (Z * Z);
  wa_conflict : bool;
  wa_attempted : bool;
  wa_fresh_attempted : bool;
  wa_trial : option WordTrial;
  wa_last_trial : option WordTrialReceipt
}.

Record WordChoiceReceipt := mkChoice {
  wch_policy : string;
  wch_observation : ObservationIdentity;
  wch_targets : list SlotTarget;
  wch_source_ranges : list OccurrenceIdentity;
  wch_candidate : WordHypothesis;
  wch_support : list WordHypothesis;
  wch_selected_label : string;
  wch_reason : string;
  wch_accepted : bool;
  wch_lexical_resolved : bool
}.

Record WordEvidenceInput := mkEvidenceInput {
  wei_producer_request : option TailRequestIdentity;
  wei_observation : ObservationIdentity;
  wei_words : list SourceWord;
  wei_backend : option string;
  wei_finality : string;
  wei_timing : string;
  wei_trial : option WordTrial
}.

Record DeferredAnchorWord := mkDeferred {
  dw_owner : OccurrenceIdentity;
  dw_anchor : TailSampleRange;
  dw_target : SlotTarget;
  dw_hypothesis : WordHypothesis
}.

Record WordAdjudicationState := mkAdjudicationState {
  was_input : option WordEvidenceInput;
  was_components : list WordAdjudication;
  was_choices : list WordChoiceReceipt;
  was_retain_closed_history : bool;
  was_deferred_anchor_words : list DeferredAnchorWord;
  was_closed_trials : gmap Z (list Z);
  was_active_trials : list WordTrial;
  was_next_trial : Z;
  was_provider : option (TailRequestIdentity * string * string * string)
}.

(** The owner of the capture energy, with the exact quiet measured at the edges
    of one decode. *)
Record DecodeFenceEnergy := mkFenceEnergy {
  dfe_owner : CaptureEnergyOwner;
  dfe_captured_samples : Z;
  dfe_quiet_ranges : list OccurrenceIdentity
}.

(* ------------------------------------------------------------------ *)
(** ** Receipts *)

Record LedgerSealReceipt := mkSeal {
  sl_word_finality : list WordFinality;
  sl_scope : LedgerSealScope;
  sl_receipt_id : string;
  sl_coverage : OccurrenceIdentity;
  sl_sealed_occurrences : list OccurrenceIdentity;
  sl_serials : list AcousticSerial;
  sl_vad_close_sample : Z;
  sl_frontier : ObservationFrontier;
  sl_layer_trail_ordinals : list Z
}.

Record LayerDecisionReceipt := mkLayerDecision {
  ld_ordinal : Z;
  ld_receipt_id : string;
  ld_observation : ObservationIdentity;
  ld_candidate_label : string;
  ld_candidate_tokens : list string;
  ld_serials : list AcousticSerial;
  ld_decision : MutationReceipt;
  ld_predecessor_ordinal : option Z;
  ld_clock_lie : bool;
  ld_clock_lie_blocker : option OccurrenceIdentity
}.

Record ManualEditReceipt := mkManualEdit {
  me_receipt_id : string;
  me_occurrence : OccurrenceIdentity;
  me_supersedes_seal : string;
  me_superseded_label : string;
  me_label : string;
  me_observation : ObservationIdentity
}.

Inductive OccurrenceDerivation :=
  | DerivationSplit (parent : OccurrenceIdentity) (children : list OccurrenceIdentity)
  | DerivationMerge (parents : list OccurrenceIdentity) (child : OccurrenceIdentity)
  | DerivationRefine (parent child : OccurrenceIdentity).

Record ManualDocumentRevisionReceipt := mkDocumentRevision {
  md_receipt_id : string;
  md_provenance : string;
  md_session_id : string;
  md_source_revision : Z;
  md_revision : Z;
  md_source_occurrences : list OccurrenceIdentity;
  md_source_seal_receipts : list string;
  md_rendered_text : string;
  md_capture_epoch : option Z;
  md_capture_receipt_id : option string
}.

#[global] Instance ManualDocumentRevisionReceipt_eq_dec : EqDecision ManualDocumentRevisionReceipt.
Proof. solve_decision. Defined.

Record ManualDocumentCaptureReceipt := mkDocumentCapture {
  mc_receipt_id : string;
  mc_session_id : string;
  mc_capture_epoch : Z;
  mc_source_revision : option Z
}.

#[global] Instance ManualDocumentCaptureReceipt_eq_dec : EqDecision ManualDocumentCaptureReceipt.
Proof. solve_decision. Defined.

Record ConsultationPresentationMember := mkConsultationMember {
  cm_occurrence : OccurrenceIdentity;
  cm_source_label : string;
  cm_seal_receipt : string
}.

Record ConsultationPresentationReceipt := mkConsultation {
  cp_receipt_id : string;
  cp_consultation_id : string;
  cp_turn_id : string;
  cp_source_revision : Z;
  cp_revision : Z;
  cp_members : list ConsultationPresentationMember;
  cp_rendered_text : string
}.

Record IncrementalShapingReceipt := mkShaping {
  is_receipt_id : string;
  is_provenance : string;
  is_session_id : string;
  is_source_revision : Z;
  is_revision : Z;
  is_occurrence : OccurrenceIdentity;
  is_source_seal_receipt : option string;
  is_sentence_break_before : bool;
  is_source_label : string;
  is_left_context : string;
  is_left_context_sha256 : string;
  is_shaped_text : string
}.

#[global] Instance IncrementalShapingReceipt_eq_dec : EqDecision IncrementalShapingReceipt.
Proof. solve_decision. Defined.

Record ProducerHistory := mkProducerHistory {
  ph_latest_answered : option (Z * Z);
  ph_highest_generation : option Z
}.

Record OwnerHistory := mkOwnerHistory {
  oh_answered : Z;
  oh_producers : gmap ObservationProducer ProducerHistory;
  oh_trail_ordinals : list Z
}.

Definition ProducerHistory_default : ProducerHistory := mkProducerHistory None None.
Definition OwnerHistory_default : OwnerHistory := mkOwnerHistory 0 ∅ [].

(* ------------------------------------------------------------------ *)
(** ** The ledger *)

Record AcousticLedger := mkLedger {
  lg_anchor_words : list AnchorWordRecord;
  lg_replay_quiet_fences : option (list OccurrenceIdentity);
  lg_word_adjudication : WordAdjudicationState;
  lg_committed : gmap OccurrenceIdentity CommittedObservation;
  lg_slot_alternatives : list SlotAlternative;
  lg_rejected_word_pins : gmap OccurrenceIdentity (list WordSlot);
  lg_slot_operations : list SlotOperationReceipt;
  lg_slot_operation_index : gmap OccurrenceIdentity (list nat);
  lg_speech_evidence : option AcousticSpeechEvidence;
  lg_decode_fence_energy : option DecodeFenceEnergy;
  lg_word_deletions : list WordDeletionReceipt;
  lg_word_pin_observations : gset ObservationIdentity;
  lg_complete_decoded_words : gmap ObservationIdentity (list (Z * Z));
  lg_decoded_word_windows : gmap ObservationIdentity (Z * Z);
  lg_complete_decode_spans : DecodeSpans;
  lg_successful_empty_decodes : gset ObservationIdentity;
  lg_answered : gset ObservationIdentity;
  lg_owner_history : gmap OccurrenceIdentity OwnerHistory;
  lg_kept_visible : Z;
  lg_evidence : gmap OccurrenceIdentity AcousticSerial;
  lg_qualified_by_end : gmap Z (gset OccurrenceIdentity);
  lg_unsealed_qualified : gset OccurrenceIdentity;
  lg_frontiers : gmap OccurrenceIdentity ObservationFrontier;
  lg_seals : gmap OccurrenceIdentity LedgerSealReceipt;
  lg_terminal_seals : list LedgerSealReceipt;
  lg_trail : list LayerDecisionReceipt;
  lg_manual_edits : list ManualEditReceipt;
  lg_manual_document_revisions : list ManualDocumentRevisionReceipt;
  lg_manual_document_capture : option ManualDocumentCaptureReceipt;
  lg_consultation_presentations : list ConsultationPresentationReceipt;
  lg_incremental_shapings : list IncrementalShapingReceipt;
  lg_latest_incremental_shaping : gmap OccurrenceIdentity nat;
  lg_derivations : list OccurrenceDerivation;
  lg_latest_seal_coverage : option SealCoverageReceipt;
  lg_pending_text_recovery : gset OccurrenceIdentity;
  lg_offered_observations : Z;
  lg_issued_receipts : Z;
  lg_delivered_observations : Z;
  lg_named_refusals : gmap string Z;
  lg_capture_rate_hz : option Z;
  lg_clock_lie_occurrences : gset OccurrenceIdentity;
  lg_first_covered_sample : option Z;
  lg_last_covered_sample : option Z;
  lg_transcript_seal_timestamp_ms : option Z
}.

Definition ledger_new : AcousticLedger :=
  mkLedger [] None (mkAdjudicationState None [] [] false [] ∅ [] 0 None) ∅ [] ∅ [] ∅ None None [] ∅ ∅ ∅ ∅ ∅ ∅ ∅ 0 ∅ ∅ ∅ ∅ ∅ []
    [] [] [] None [] [] ∅ [] None ∅ 0 0 0 ∅ None ∅ None None None.

(** Occurrence text and slots. *)
Definition text_of (L : AcousticLedger) (o : OccurrenceIdentity) : option string :=
  co_label <$> lg_committed L !! o.

Definition slots_of (L : AcousticLedger) (o : OccurrenceIdentity) : option (list WordSlot) :=
  co_slots <$> lg_committed L !! o.

Definition ledger_len (L : AcousticLedger) : nat := size (lg_committed L).

Definition is_empty (L : AcousticLedger) : bool := bool_decide (lg_committed L = ∅).

Definition is_sealed (L : AcousticLedger) (o : OccurrenceIdentity) : bool :=
  bool_decide (is_Some (lg_seals L !! o)).

Definition is_qualified (L : AcousticLedger) (o : OccurrenceIdentity) : bool :=
  bool_decide (is_Some (lg_evidence L !! o)).

Definition serial_of (L : AcousticLedger) (o : OccurrenceIdentity) : option AcousticSerial :=
  lg_evidence L !! o.
