(* ===== verification/LedgerCoverage.v ===== *)
(** LedgerCoverage: what the terminal seal knows about uncovered speech
    (core/pipeline/acoustic_ledger.rs, [assess_seal_coverage],
    [record_seal_coverage], the pending text recoveries and
    [terminal_finality]).

    The receipt compares two sets of samples on the capture clock: the speech
    an authenticated observer measured and the audio of the committed
    occurrences, less the occurrences that still owe a recovery.  The theorems
    relate the interval arithmetic of the code to those sets. *)

From S2P Require Import Prelude.
From S2P Require Import LedgerIdentity.
From S2P Require Import LedgerSpans.
From S2P Require Import CaptureEvidence.
From S2P Require Import LedgerState.
#[local] Open Scope Z_scope.

(* ------------------------------------------------------------------ *)
(** ** Text debt *)

Definition require_text_recovery (L : AcousticLedger) (o : OccurrenceIdentity)
    : bool * AcousticLedger :=
  if negb (is_qualified L o) || is_sealed L o
     || complete_decode_covers (lg_complete_decode_spans L) o
  then (false, L)
  else (true, L <| lg_pending_text_recovery ::= union {[ o ]} |>).

Definition text_recovery_pending (L : AcousticLedger) (o : OccurrenceIdentity) : bool :=
  bool_decide (o ∈ lg_pending_text_recovery L)
  && negb (complete_decode_covers (lg_complete_decode_spans L) o).

Definition in_capture (sess : string) (epoch : Z) (o : OccurrenceIdentity) : bool :=
  String.eqb (session o) sess && (capture_epoch o =? epoch).

Definition pending_text_recoveries (L : AcousticLedger) (sess : string) (epoch : Z)
    : list OccurrenceIdentity :=
  List.filter (λ o, in_capture sess epoch o
                    && negb (complete_decode_covers (lg_complete_decode_spans L) o))
    (btree_elements (lg_pending_text_recovery L)).

(* ------------------------------------------------------------------ *)
(** ** Interval arithmetic *)

(** The lexicographic order of [(u64, u64)], used by [sort_unstable]. *)
Definition pair_le (a b : Z * Z) : Prop := a.1 < b.1 ∨ (a.1 = b.1 ∧ a.2 <= b.2).

#[global] Instance pair_le_dec a b : Decision (pair_le a b).
Proof. unfold pair_le; apply _. Defined.

(** The merging loop; [cur] is the element [merged.last_mut()] would update. *)
Fixpoint merge_from (cur : Z * Z) (l : list (Z * Z)) : list (Z * Z) :=
  match l with
  | [] => [cur]
  | (start, end_) :: l' =>
      if start <=? cur.2 then merge_from (cur.1, Z.max cur.2 end_) l'
      else cur :: merge_from (start, end_) l'
  end.

Definition merged_ranges (ranges : list (Z * Z)) : list (Z * Z) :=
  match merge_sort pair_le (List.filter (λ '(start, end_), start <? end_) ranges) with
  | [] => []
  | r :: l => merge_from r l
  end.

(** One debt occurrence punched out of the retained pieces. *)
Definition punch_out (o : OccurrenceIdentity) (piece : Z * Z) : list (Z * Z) :=
  let '(start, end_) := piece in
  if (sample_end o <=? start) || (end_ <=? sample_start o) then [(start, end_)]
  else
    (if start <? sample_start o then [(start, sample_start o)] else [])
    ++ (if sample_end o <? end_ then [(sample_end o, end_)] else []).

Definition subtract_debt (debt : list OccurrenceIdentity) (committed : list (Z * Z))
    : list (Z * Z) :=
  flat_map (λ range,
    fold_left (λ pieces o, flat_map (punch_out o) pieces) debt [range]) committed.

(** The gaps of one speech range, walking the covered pieces with a cursor. *)
Fixpoint uncovered_in (cursor speech_end : Z) (covered : list (Z * Z)) : list (Z * Z) :=
  match covered with
  | [] => if cursor <? speech_end then [(cursor, speech_end)] else []
  | (covered_start, covered_end) :: rest =>
      if (covered_end <=? cursor) || (speech_end <=? covered_start)
      then uncovered_in cursor speech_end rest
      else
        let gap := if cursor <? covered_start
                   then [(cursor, Z.min covered_start speech_end)] else [] in
        let cursor' := Z.min (Z.max cursor covered_end) speech_end in
        if speech_end <=? cursor' then gap
        else gap ++ uncovered_in cursor' speech_end rest
  end.

Definition uncovered_speech (speech covered : list (Z * Z)) : list (Z * Z) :=
  flat_map (λ '(start, end_), uncovered_in start end_ covered) speech.

Definition range_len (r : Z * Z) : Z := sat_sub r.2 r.1.
Definition total_len (l : list (Z * Z)) : Z := zsum (map range_len l).
Definition max_len (l : list (Z * Z)) : Z := foldr Z.max 0 (map range_len l).

(* ------------------------------------------------------------------ *)
(** ** The receipt *)

Definition SILERO_BOUNDARIES_PRODUCER : string := "silero_boundaries".

Definition coverage_refuse (L : AcousticLedger) (sess : string) (epoch : Z)
    (speech : AcousticSpeechEvidence) (threshold : Z) (gap : AcousticEvidenceGap)
    : SealCoverageReceipt :=
  mkCoverageReceipt sess epoch (lg_capture_rate_hz L) 0 0 [] 0 threshold
    (Unavailable gap) (se_producer speech) (availability_as_str (se_availability speech)) None.

Definition gap_of_availability (a : AcousticAvailability) : AcousticEvidenceGap :=
  match a with
  | AvIdentityMismatch => GapIdentityMismatch
  | AvInvalidMeasurement _ => GapInvalidMeasurement
  | Discontinuous _ => GapPartialObservation
  | NotObserved | Observed _ => GapNotObserved
  end.

(** Every check that can leave a take without an authenticated measurement, in
    the order of the code; [inr] carries the observed extent. *)
Definition measurement_gap (L : AcousticLedger) (sess : string) (epoch : Z)
    (speech : AcousticSpeechEvidence) : AcousticEvidenceGap + Z :=
  if negb (identity_matches (se_identity speech) sess epoch) then inl GapIdentityMismatch
  else
    match observed_samples (se_availability speech) with
    | None => inl (gap_of_availability (se_availability speech))
    | Some observed =>
      if existsb (λ r, negb (String.eqb (tr_session r) sess)
                       || negb (tr_capture_epoch r =? epoch)) (se_ranges speech)
      then inl GapIdentityMismatch
      else if negb (String.eqb (se_producer speech) CAPTURE_ENERGY_PRODUCER
                    || String.eqb (se_producer speech) SILERO_BOUNDARIES_PRODUCER)
              || existsb (λ r, tr_sample_end r <=? tr_sample_start r) (se_ranges speech)
      then inl GapInvalidMeasurement
      else inr observed
    end.

Definition speech_spans (speech : AcousticSpeechEvidence) : list (Z * Z) :=
  merged_ranges (map (λ r, (tr_sample_start r, tr_sample_end r)) (se_ranges speech)).

Definition committed_spans (L : AcousticLedger) (sess : string) (epoch : Z) : list (Z * Z) :=
  merged_ranges
    (map (λ o, (sample_start o, sample_end o))
       (List.filter (in_capture sess epoch) (btree_keys (lg_committed L)))).

Definition coverage_receipt (L : AcousticLedger) (sess : string) (epoch : Z)
    (speech : AcousticSpeechEvidence) (threshold observed : Z) : SealCoverageReceipt :=
  let spoken := speech_spans speech in
  let debt := pending_text_recoveries L sess epoch in
  let covered := subtract_debt debt (committed_spans L sess epoch) in
  let uncovered := uncovered_speech spoken covered in
  let max_uncovered := max_len uncovered in
  let status :=
    if negb (bool_decide (debt = [])) || (threshold <? max_uncovered)
    then Incomplete else Complete in
  mkCoverageReceipt sess epoch (lg_capture_rate_hz L)
    (total_len spoken)
    (sat_sub (total_len spoken) (total_len uncovered))
    (map (λ '(s, e), mkTailRange sess epoch s e) uncovered)
    max_uncovered threshold status
    (se_producer speech) (availability_as_str (se_availability speech)) (Some observed).

Definition assess_seal_coverage (L : AcousticLedger) (sess : string) (epoch : Z)
    (speech : AcousticSpeechEvidence) (threshold : Z) : SealCoverageReceipt :=
  match measurement_gap L sess epoch speech with
  | inl gap => coverage_refuse L sess epoch speech threshold gap
  | inr observed =>
      if existsb (λ '(_, e), observed <? e) (speech_spans speech ++ committed_spans L sess epoch)
      then coverage_refuse L sess epoch speech threshold GapPartialObservation
      else coverage_receipt L sess epoch speech threshold observed
  end.

Definition record_seal_coverage (L : AcousticLedger) (receipt : SealCoverageReceipt)
    : bool * AcousticLedger :=
  let binds_this_ledger :=
    existsb (in_capture (cr_session_id receipt) (cr_capture_epoch receipt))
      (btree_keys (lg_committed L))
    || is_empty L in
  if negb binds_this_ledger
     || existsb (λ r, negb (String.eqb (tr_session r) (cr_session_id receipt))
                      || negb (tr_capture_epoch r =? cr_capture_epoch receipt))
          (cr_uncovered_speech_ranges receipt)
  then (false, L)
  else (true, L <| lg_latest_seal_coverage := Some receipt |>).

(* ------------------------------------------------------------------ *)
(** ** Interval lemmas *)

Lemma in_range_iff z s e : in_range z (s, e) ↔ s <= z < e.
Proof. done. Qed.

Lemma in_spans_singleton z r : in_spans z [r] ↔ in_range z r.
Proof. rewrite in_spans_cons. split; [|tauto]. intros [?|H]; [done|by apply in_spans_nil in H]. Qed.

Lemma in_spans_perm z l1 l2 : l1 ≡ₚ l2 → in_spans z l1 ↔ in_spans z l2.
Proof. intros Hp. unfold in_spans. by setoid_rewrite Hp. Qed.

Lemma in_spans_flat_map {A} z (f : A → list (Z * Z)) l :
  in_spans z (flat_map f l) ↔ ∃ x, x ∈ l ∧ in_spans z (f x).
Proof.
  induction l as [|x l IH]; simpl.
  - split; [intros H; by apply in_spans_nil in H|intros (? & H & _); by apply not_elem_of_nil in H].
  - rewrite in_spans_app, IH. setoid_rewrite elem_of_cons. naive_solver.
Qed.

Lemma in_spans_filter_nonempty z l :
  in_spans z (List.filter (λ '(s, e), s <? e) l) ↔ in_spans z l.
Proof.
  induction l as [|[s e] l IH]; simpl; [done|].
  destruct (s <? e) eqn:Hse; rewrite ?in_spans_cons, IH; [done|].
  zbool. unfold in_range; simpl. split; [tauto|]. intros [?|?]; [lia|done].
Qed.

#[global] Instance pair_le_trans : Transitive pair_le.
Proof. intros [] [] []. unfold pair_le. simpl. lia. Qed.

#[global] Instance pair_le_total : Total pair_le.
Proof. intros [] []. unfold pair_le. simpl. lia. Qed.

Lemma merge_from_spec cur l :
  StronglySorted (λ a b : Z * Z, a.1 <= b.1) l → Forall (λ r : Z * Z, r.1 < r.2) (cur :: l) →
  Forall (λ r : Z * Z, cur.1 <= r.1) l →
  spans_ok (merge_from cur l) ∧
  (∀ z, in_spans z (merge_from cur l) ↔ in_spans z (cur :: l)) ∧
  Forall (λ r : Z * Z, cur.1 <= r.1) (merge_from cur l).
Proof.
  intros Hs. revert cur. induction Hs as [|[s e] l Hs IH Hx]; intros [cs ce] Hne Hst; simpl in *.
  - split; [split; [constructor; [constructor|constructor]|done]|].
    split; [done|]. by constructor; [simpl; lia|].
  - rewrite !Forall_cons in Hne; simpl in Hne. destruct Hne as (Hc & Hse & Hne).
    apply Forall_cons in Hst as [Hcs Hst]; simpl in *.
    assert (Hst' : Forall (λ r : Z * Z, s <= r.1) l).
    { exact Hx. }
    destruct (s <=? ce) eqn:Hm; zbool.
    + destruct (IH (cs, Z.max ce e)) as (H1 & H2 & H3).
      { constructor; [simpl; lia|done]. } { done. }
      split; [done|]. split; [|done]. intros z. rewrite H2, !in_spans_cons.
      unfold in_range; simpl.
      assert (cs <= z < Z.max ce e ↔ cs <= z < ce ∨ s <= z < e) as -> by lia. tauto.
    + destruct (IH (s, e)) as ((H1 & H1') & H2 & H3).
      { constructor; [simpl; lia|done]. } { done. }
      simpl in H3. split; [split|split].
      * constructor; [done|]. eapply Forall_impl; [exact H3|]. intros []; simpl; lia.
      * constructor; [simpl; lia|done].
      * intros z. rewrite (in_spans_cons z (cs, ce)), H2, !in_spans_cons. done.
      * constructor; [simpl; lia|]. eapply Forall_impl; [exact H3|]. intros []; simpl; lia.
Qed.

Lemma merged_ranges_spec l :
  spans_ok (merged_ranges l) ∧ ∀ z, in_spans z (merged_ranges l) ↔ in_spans z l.
Proof.
  unfold merged_ranges. set (f := List.filter _ l).
  pose proof (merge_sort_Permutation pair_le f) as Hp.
  pose proof (StronglySorted_merge_sort pair_le f) as Hs.
  assert (Hne : Forall (λ r : Z * Z, r.1 < r.2) (merge_sort pair_le f)).
  { rewrite Hp. rewrite Forall_forall. intros [s e] Hin.
    apply list_elem_of_In, filter_In in Hin as [_ ?]. zbool. simpl. lia. }
  assert (Hin : ∀ z, in_spans z (merge_sort pair_le f) ↔ in_spans z l).
  { intros z. rewrite (in_spans_perm z _ _ Hp). apply in_spans_filter_nonempty. }
  destruct (merge_sort pair_le f) as [|r l'].
  - split; [apply spans_ok_nil|done].
  - apply StronglySorted_inv in Hs as [Hs Hr].
    assert (Hle : ∀ a b : Z * Z, pair_le a b → a.1 <= b.1) by (intros [] [] H; unfold pair_le in H; simpl in *; lia).
    destruct (merge_from_spec r l') as (H1 & H2 & _); [|done|..].
    { clear -Hs Hle. induction Hs as [|x l Hs IH Hx]; constructor; [done|].
      eapply Forall_impl; [exact Hx|]. intros. by apply Hle. }
    { eapply Forall_impl; [exact Hr|]. intros. by apply Hle. }
    split; [done|]. intros z. by rewrite H2.
Qed.

Definition occ_range (o : OccurrenceIdentity) : Z * Z := (sample_start o, sample_end o).

Lemma punch_out_spec o (r : Z * Z) :
  r.1 < r.2 → is_anchored o = true →
  spans_ok (punch_out o r) ∧
  (∀ z, in_spans z (punch_out o r) ↔ in_range z r ∧ ¬ in_range z (occ_range o)) ∧
  Forall (λ p : Z * Z, r.1 <= p.1 ∧ p.2 <= r.2) (punch_out o r).
Proof.
  destruct r as [s e]. simpl. intros Hse Ha. unfold is_anchored in Ha. zbool.
  unfold punch_out, spans_ok.
  destruct (_ || _) eqn:Hd.
  - split; [by repeat constructor|]. split; [|by repeat constructor; simpl; lia].
    intros z. rewrite in_spans_singleton. unfold in_range, occ_range; simpl.
    apply orb_true_iff in Hd as [?|?]; zbool; lia.
  - zbool.
    destruct (s <? sample_start o) eqn:H1, (sample_end o <? e) eqn:H2; zbool; simpl;
      (split; [split; repeat constructor; simpl; lia|]); split;
      try (repeat constructor; simpl; lia); intros z;
      rewrite ?in_spans_cons; unfold in_range, occ_range; simpl;
      pose proof (in_spans_nil z); intuition lia.
Qed.

(** Refining every span inside itself keeps the spans well formed. *)
Lemma flat_map_spans_ok (f : Z * Z → list (Z * Z)) l :
  spans_ok l →
  (∀ r, r ∈ l → spans_ok (f r) ∧ Forall (λ p : Z * Z, r.1 <= p.1 ∧ p.2 <= r.2) (f r)) →
  spans_ok (flat_map f l).
Proof.
  intros [Hs Hne] Hf. induction Hs as [|r l Hs IH Hr]; simpl; [apply spans_ok_nil|].
  apply Forall_cons in Hne as [Hr0 Hne].
  destruct (Hf r) as [[H1 H2] H3]; [by left|].
  destruct IH as [I1 I2]; [done|intros; apply Hf; by right|].
  split; [|by rewrite Forall_app].
  apply StronglySorted_app. split; [|done]. intros x y Hx Hy.
  apply list_elem_of_In, in_flat_map in Hy as (r' & Hr' & Hy).
  apply list_elem_of_In in Hr', Hy.
  pose proof (Forall_elem _ _ _ Hr Hr') as Hlt.
  destruct (Hf r') as [_ H3']; [by right|].
  pose proof (Forall_elem _ _ _ H3 Hx). pose proof (Forall_elem _ _ _ H3' Hy).
  simpl in *. lia.
Qed.

Lemma spans_ok_nonempty l r : r ∈ l → spans_ok l → r.1 < r.2.
Proof. intros Hr [_ H]. by pose proof (Forall_elem _ _ _ H Hr). Qed.

(** Punching a list of debts out of one range. *)
Lemma fold_punch_spec debt l (lo hi : Z) :
  Forall (λ o, is_anchored o = true) debt →
  spans_ok l → Forall (λ p : Z * Z, lo <= p.1 ∧ p.2 <= hi) l →
  let l' := fold_left (λ pieces o, flat_map (punch_out o) pieces) debt l in
  spans_ok l' ∧ Forall (λ p : Z * Z, lo <= p.1 ∧ p.2 <= hi) l' ∧
  ∀ z, in_spans z l' ↔ in_spans z l ∧ ∀ o, o ∈ debt → ¬ in_range z (occ_range o).
Proof.
  intros Hd. revert l. induction Hd as [|o debt Ho Hd IH]; intros l Hok Hb; simpl.
  - split; [done|]. split; [done|]. intros z. split; [|tauto].
    intros H. split; [done|]. intros o Ho. by apply not_elem_of_nil in Ho.
  - assert (Hok' : spans_ok (flat_map (punch_out o) l)).
    { apply flat_map_spans_ok; [done|]. intros r Hr.
      destruct (punch_out_spec o r) as (? & _ & ?); [by eapply spans_ok_nonempty|done|done]. }
    assert (Hb' : Forall (λ p : Z * Z, lo <= p.1 ∧ p.2 <= hi) (flat_map (punch_out o) l)).
    { rewrite Forall_forall. intros p Hp.
      apply list_elem_of_In, in_flat_map in Hp as (r & Hr & Hp). apply list_elem_of_In in Hr, Hp.
      destruct (punch_out_spec o r) as (_ & _ & H3); [by eapply spans_ok_nonempty|done|].
      pose proof (Forall_elem _ _ _ H3 Hp). pose proof (Forall_elem _ _ _ Hb Hr). simpl in *. lia. }
    destruct (IH _ Hok' Hb') as (H1 & H2 & H3). split; [done|]. split; [done|].
    intros z. rewrite H3, in_spans_flat_map. setoid_rewrite elem_of_cons. split.
    + intros [(r & Hr & Hin) Hall].
      destruct (punch_out_spec o r) as (_ & Hz & _); [by eapply spans_ok_nonempty|done|].
      apply Hz in Hin as [? ?]. split; [by exists r|]. intros o' [->|?]; auto.
    + intros [(r & Hr & Hin) Hall]. split; [|auto]. exists r. split; [done|].
      destruct (punch_out_spec o r) as (_ & Hz & _); [by eapply spans_ok_nonempty|done|].
      apply Hz. auto.
Qed.

Lemma subtract_debt_spec debt l :
  Forall (λ o, is_anchored o = true) debt → spans_ok l →
  spans_ok (subtract_debt debt l) ∧
  ∀ z, in_spans z (subtract_debt debt l) ↔
    in_spans z l ∧ ∀ o, o ∈ debt → ¬ in_range z (occ_range o).
Proof.
  intros Hd Hok. unfold subtract_debt.
  assert (Hone : ∀ r : Z * Z, r ∈ l →
    let l' := fold_left (λ pieces o, flat_map (punch_out o) pieces) debt [r] in
    spans_ok l' ∧ Forall (λ p : Z * Z, r.1 <= p.1 ∧ p.2 <= r.2) l' ∧
    ∀ z, in_spans z l' ↔ in_spans z [r] ∧ ∀ o, o ∈ debt → ¬ in_range z (occ_range o)).
  { intros r Hr. apply fold_punch_spec; [done| |].
    - split; repeat constructor. by eapply spans_ok_nonempty.
    - by repeat constructor. }
  split.
  - apply flat_map_spans_ok; [done|]. intros r Hr. destruct (Hone r Hr) as (? & ? & _). done.
  - intros z. rewrite in_spans_flat_map. split.
    + intros (r & Hr & Hin). destruct (Hone r Hr) as (_ & _ & H3).
      apply H3 in Hin as [Hin ?]. rewrite in_spans_singleton in Hin. split; [by exists r|done].
    + intros [(r & Hr & Hin) Hall]. exists r. split; [done|].
      destruct (Hone r Hr) as (_ & _ & H3). apply H3. by rewrite in_spans_singleton.
Qed.

(** The cursor walk returns exactly the samples of the range nobody covered. *)
Lemma uncovered_in_spec cursor speech_end covered :
  spans_ok covered →
  spans_ok (uncovered_in cursor speech_end covered) ∧
  Forall (λ p : Z * Z, cursor <= p.1 ∧ p.2 <= speech_end) (uncovered_in cursor speech_end covered) ∧
  ∀ z, in_spans z (uncovered_in cursor speech_end covered) ↔
    cursor <= z < speech_end ∧ ¬ in_spans z covered.
Proof.
  revert cursor. induction covered as [|[cs ce] rest IH]; intros cursor Hok; simpl.
  - destruct (cursor <? speech_end) eqn:Hc; zbool.
    + split; [split; repeat constructor; simpl; lia|]. split; [repeat constructor; simpl; lia|].
      intros z. rewrite in_spans_singleton. unfold in_range; simpl.
      pose proof (in_spans_nil z). tauto.
    + split; [apply spans_ok_nil|]. split; [done|]. intros z.
      pose proof (in_spans_nil z). intuition lia.
  - destruct Hok as [Hs Hne]. apply StronglySorted_inv in Hs as [Hs Hx].
    apply Forall_cons in Hne as [Hc Hne]. simpl in *.
    assert (Hok : spans_ok rest) by done.
    assert (Hrest : ∀ z, in_spans z rest → ce < z).
    { intros z (r & Hr & Hz). pose proof (Forall_elem _ _ _ Hx Hr). unfold in_range in Hz.
      simpl in *. lia. }
    destruct ((ce <=? cursor) || (speech_end <=? cs)) eqn:Hskip.
    + destruct (IH cursor Hok) as (H1 & H2 & H3). split; [done|]. split; [done|].
      intros z. rewrite H3, in_spans_cons. unfold in_range; simpl.
      apply orb_true_iff in Hskip as [?|?]; zbool; intuition lia.
    + zbool. set (cursor' := Z.min (Z.max cursor ce) speech_end).
      set (gap := if cursor <? cs then _ else _).
      assert (Hgap : spans_ok gap ∧ Forall (λ p : Z * Z, cursor <= p.1 ∧ p.2 <= cs ∧ p.2 <= speech_end) gap
                     ∧ ∀ z, in_spans z gap ↔ cursor <= z < Z.min cs speech_end).
      { unfold gap. destruct (cursor <? cs) eqn:?; zbool.
        - split; [split; repeat constructor; simpl; lia|]. split; [repeat constructor; simpl; lia|].
          intros z. by rewrite in_spans_singleton.
        - split; [apply spans_ok_nil|]. split; [done|]. intros z.
          pose proof (in_spans_nil z). intuition lia. }
      destruct Hgap as (Hg1 & Hg2 & Hg3).
      destruct (speech_end <=? cursor') eqn:Hbrk; zbool.
      * split; [done|]. split; [eapply Forall_impl; [exact Hg2|]; simpl; intros; lia|].
        intros z. rewrite Hg3, in_spans_cons. unfold in_range; simpl.
        specialize (Hrest z). unfold cursor' in *. intuition lia.
      * destruct (IH cursor' Hok) as (H1 & H2 & H3). split; [|split].
        -- destruct Hg1, H1. split; [|by apply Forall_app]. apply StronglySorted_app.
           split; [|done]. intros x y Hx' Hy.
           pose proof (Forall_elem _ _ _ Hg2 Hx'). pose proof (Forall_elem _ _ _ H2 Hy).
           simpl in *. lia.
        -- apply Forall_app. split; (eapply Forall_impl; [eassumption|]); simpl; intros; lia.
        -- intros z. rewrite in_spans_app, Hg3, H3, in_spans_cons. unfold in_range; simpl.
           specialize (Hrest z). unfold cursor' in *. split; [intuition lia|].
           intros [? Hn]. destruct (decide (z < cs)); [left; lia|right].
           split; [|tauto]. destruct (decide (z < ce)); [exfalso; apply Hn; left; lia|lia].
Qed.

Lemma uncovered_speech_spec speech covered :
  spans_ok speech → spans_ok covered →
  spans_ok (uncovered_speech speech covered) ∧
  ∀ z, in_spans z (uncovered_speech speech covered) ↔ in_spans z speech ∧ ¬ in_spans z covered.
Proof.
  intros Hsp Hco. unfold uncovered_speech. split.
  - apply flat_map_spans_ok; [done|]. intros [s e] Hr.
    destruct (uncovered_in_spec s e covered Hco) as (? & ? & _). done.
  - intros z. rewrite in_spans_flat_map. unfold in_spans at 2. split.
    + intros ([s e] & Hr & Hin). apply uncovered_in_spec in Hin as [? ?]; [|done].
      split; [by exists (s, e)|done].
    + intros [([s e] & Hr & Hz) Hn]. exists (s, e). split; [done|].
      by apply uncovered_in_spec.
Qed.

(* ------------------------------------------------------------------ *)
(** ** Measures *)

Lemma range_len_nonempty (r : Z * Z) : r.1 < r.2 → range_len r = r.2 - r.1.
Proof. unfold range_len. mach. Qed.

Lemma total_len_nonneg l : 0 <= total_len l.
Proof.
  apply zsum_nonneg. rewrite Forall_map. rewrite Forall_forall.
  intros r _. unfold range_len. mach.
Qed.

Lemma max_len_spec l n : 0 <= n → max_len l <= n ↔ ∀ r, r ∈ l → range_len r <= n.
Proof.
  intros Hn. unfold max_len. induction l as [|r l IH]; simpl.
  - split; [|lia]. intros _ r Hr. by apply not_elem_of_nil in Hr.
  - setoid_rewrite elem_of_cons. split.
    + intros H r' [->|Hr']; [lia|]. apply IH; [lia|done].
    + intros H. apply Z.max_lub; [apply H; by left|]. apply IH. auto.
Qed.

Lemma total_len_cons r l : total_len (r :: l) = range_len r + total_len l.
Proof. done. Qed.

Lemma total_len_app l1 l2 : total_len (l1 ++ l2) = total_len l1 + total_len l2.
Proof. unfold total_len. by rewrite map_app, zsum_app. Qed.

(** Well-formed spans inside [lo, hi) measure at most [hi - lo]. *)
Lemma total_len_bound l lo hi :
  spans_ok l → lo <= hi → Forall (λ p : Z * Z, lo <= p.1 ∧ p.2 <= hi) l →
  total_len l <= hi - lo.
Proof.
  intros [Hs Hne]. revert lo. induction Hs as [|r l Hs IH Hr]; intros lo Hlh Hb.
  { unfold total_len; simpl; lia. }
  apply Forall_cons in Hne as [Hr0 Hne]. apply Forall_cons in Hb as [Hb0 Hb].
  rewrite total_len_cons, range_len_nonempty by done.
  assert (total_len l <= hi - r.2); [|simpl in *; lia].
  apply IH; [done|simpl in *; lia|]. rewrite Forall_forall in Hr, Hb |- *.
  intros p Hp. specialize (Hr p Hp). specialize (Hb p Hp). simpl in *. lia.
Qed.

(** The gaps left by the cursor walk never measure more than the speech. *)
Lemma uncovered_total_le speech covered :
  spans_ok speech → spans_ok covered →
  total_len (uncovered_speech speech covered) <= total_len speech.
Proof.
  intros Hsp Hco. unfold uncovered_speech.
  assert (Hne : Forall (λ r : Z * Z, r.1 < r.2) speech) by apply Hsp.
  clear Hsp. induction Hne as [|[s e] l Hr Hne IH]; simpl in *; [done|].
  rewrite total_len_app, total_len_cons, range_len_nonempty by done. simpl in *.
  destruct (uncovered_in_spec s e covered Hco) as (H1 & H2 & _).
  pose proof (total_len_bound _ s e H1 ltac:(lia) H2). lia.
Qed.

(* ------------------------------------------------------------------ *)
(** ** What a receipt states about samples *)

Definition speech_sample (speech : AcousticSpeechEvidence) (z : Z) : Prop :=
  ∃ r, r ∈ se_ranges speech ∧ tr_sample_start r <= z < tr_sample_end r.

Definition committed_sample (L : AcousticLedger) (sess : string) (epoch z : Z) : Prop :=
  ∃ o c, lg_committed L !! o = Some c ∧ in_capture sess epoch o = true ∧
    sample_start o <= z < sample_end o.

Definition debt_sample (L : AcousticLedger) (sess : string) (epoch z : Z) : Prop :=
  ∃ o, o ∈ lg_pending_text_recovery L ∧ in_capture sess epoch o = true ∧
    complete_decode_covers (lg_complete_decode_spans L) o = false ∧
    sample_start o <= z < sample_end o.

Definition uncovered_sample (r : SealCoverageReceipt) (z : Z) : Prop :=
  ∃ u, u ∈ cr_uncovered_speech_ranges r ∧ tr_sample_start u <= z < tr_sample_end u.

(** Every occurrence that owes a recovery names audio. *)
Definition debt_anchored (L : AcousticLedger) : Prop :=
  ∀ o, o ∈ lg_pending_text_recovery L → is_anchored o = true.

Lemma elem_of_btree_elements o s : o ∈ btree_elements s ↔ o ∈ s.
Proof. unfold btree_elements. by rewrite merge_sort_Permutation, elem_of_elements. Qed.

Lemma elem_of_btree_keys {A} o (m : gmap OccurrenceIdentity A) :
  o ∈ btree_keys m ↔ is_Some (m !! o).
Proof.
  unfold btree_keys. rewrite merge_sort_Permutation, list_elem_of_fmap. split.
  - intros ([o' x] & -> & H). apply elem_of_map_to_list in H. by exists x.
  - intros [x H]. exists (o, x). by rewrite elem_of_map_to_list.
Qed.

Lemma elem_of_list_filter {A} (p : A → bool) l x :
  x ∈ List.filter p l ↔ p x = true ∧ x ∈ l.
Proof. rewrite !list_elem_of_In, filter_In. tauto. Qed.

Lemma elem_of_pending L sess epoch o :
  o ∈ pending_text_recoveries L sess epoch ↔
    o ∈ lg_pending_text_recovery L ∧ in_capture sess epoch o = true ∧
    complete_decode_covers (lg_complete_decode_spans L) o = false.
Proof.
  unfold pending_text_recoveries. rewrite elem_of_list_filter, elem_of_btree_elements.
  rewrite andb_true_iff, negb_true_iff. tauto.
Qed.

Lemma speech_spans_spec speech z :
  in_spans z (speech_spans speech) ↔ speech_sample speech z.
Proof.
  unfold speech_spans. rewrite (proj2 (merged_ranges_spec _)). unfold in_spans, speech_sample.
  split.
  - intros (r & Hr & Hz). apply list_elem_of_In, in_map_iff in Hr as (t & <- & Ht).
    apply list_elem_of_In in Ht. by exists t.
  - intros (t & Ht & Hz). exists (tr_sample_start t, tr_sample_end t). split; [|done].
    apply list_elem_of_In, in_map_iff. exists t. by rewrite <- list_elem_of_In.
Qed.

Lemma committed_spans_spec L sess epoch z :
  in_spans z (committed_spans L sess epoch) ↔ committed_sample L sess epoch z.
Proof.
  unfold committed_spans. rewrite (proj2 (merged_ranges_spec _)).
  unfold in_spans, committed_sample. split.
  - intros (r & Hr & Hz). apply list_elem_of_In, in_map_iff in Hr as (o & <- & Ho).
    apply list_elem_of_In in Ho. rewrite elem_of_list_filter, elem_of_btree_keys in Ho.
    destruct Ho as [? [c Hc]]. by exists o, c.
  - intros (o & c & Hc & Ho & Hz). exists (sample_start o, sample_end o). split; [|done].
    apply list_elem_of_In, in_map_iff. exists o. split; [done|]. apply list_elem_of_In.
    rewrite elem_of_list_filter, elem_of_btree_keys. split; [done|]. by exists c.
Qed.

Section receipt.
  Context (L : AcousticLedger) (sess : string) (epoch : Z)
    (speech : AcousticSpeechEvidence) (threshold observed : Z) (Hd : debt_anchored L).

Let debt := pending_text_recoveries L sess epoch.
Let covered := subtract_debt debt (committed_spans L sess epoch).
Let uncovered := uncovered_speech (speech_spans speech) covered.

Lemma debt_forall : Forall (λ o, is_anchored o = true) debt.
  Proof. apply Forall_forall. intros o Ho. apply elem_of_pending in Ho as [? _]. auto. Qed.

Lemma covered_spec :
    spans_ok covered ∧
    ∀ z, in_spans z covered ↔ committed_sample L sess epoch z ∧ ¬ debt_sample L sess epoch z.
  Proof.
    destruct (subtract_debt_spec debt (committed_spans L sess epoch) debt_forall) as [H1 H2].
    { apply merged_ranges_spec. }
    split; [done|]. intros z. unfold covered. rewrite H2, committed_spans_spec.
    assert ((∀ o, o ∈ debt → ¬ in_range z (occ_range o)) ↔ ¬ debt_sample L sess epoch z) as ->.
    { unfold debt_sample, debt. setoid_rewrite elem_of_pending. unfold in_range, occ_range.
      simpl. naive_solver. }
    done.
  Qed.

Lemma uncovered_spec :
    spans_ok uncovered ∧
    ∀ z, in_spans z uncovered ↔ speech_sample speech z ∧
      ¬ (committed_sample L sess epoch z ∧ ¬ debt_sample L sess epoch z).
  Proof.
    destruct covered_spec as [H1 H2].
    destruct (uncovered_speech_spec (speech_spans speech) covered) as [H3 H4];
      [apply merged_ranges_spec|done|].
    split; [done|]. intros z. unfold uncovered. rewrite H4, speech_spans_spec, H2. done.
  Qed.

Lemma uncovered_le : total_len uncovered <= total_len (speech_spans speech).
  Proof. apply uncovered_total_le; [apply merged_ranges_spec|apply covered_spec]. Qed.

Lemma receipt_uncovered z :
    uncovered_sample (coverage_receipt L sess epoch speech threshold observed) z ↔
    in_spans z uncovered.
  Proof.
    unfold uncovered_sample, in_spans. simpl. fold debt covered uncovered. split.
    - intros (u & Hu & Hz). apply list_elem_of_In, in_map_iff in Hu as ([s e] & <- & Hr).
      exists (s, e). split; [by apply list_elem_of_In|done].
    - intros ([s e] & Hr & Hz). exists (mkTailRange sess epoch s e). split; [|done].
      apply list_elem_of_In, in_map_iff. exists (s, e). split; [done|]. by apply list_elem_of_In.
  Qed.
End receipt.

(** The receipts of the two refusing paths carry a reason; only a measured
    take has none. *)
Lemma assess_measured L sess epoch speech threshold :
  unavailable_reason (cr_status (assess_seal_coverage L sess epoch speech threshold)) = None →
  ∃ observed, measurement_gap L sess epoch speech = inr observed ∧
    assess_seal_coverage L sess epoch speech threshold =
    coverage_receipt L sess epoch speech threshold observed.
Proof.
  unfold assess_seal_coverage. destruct (measurement_gap _ _ _ _) as [gap|observed]; simpl; [done|].
  destruct (existsb _ _); simpl; [done|]. intros _. by exists observed.
Qed.

Lemma tail_len_map sess epoch l :
  map (λ u, sat_sub (tr_sample_end u) (tr_sample_start u))
    (map (λ '(s, e), mkTailRange sess epoch s e) l) = map range_len l.
Proof. rewrite map_map. apply map_ext. by intros [s e]. Qed.

(** C4: a receipt that is not Unavailable partitions the measured speech
    exactly: a sample is reported uncovered iff it is measured speech and not
    committed audio free of text debt. *)
Theorem coverage_receipt_exact L sess epoch speech threshold
    (Hdebt : debt_anchored L) (Hth : 0 <= threshold) :
  let r := assess_seal_coverage L sess epoch speech threshold in
  unavailable_reason (cr_status r) = None →
  (∀ z, uncovered_sample r z ↔
     speech_sample speech z ∧
     ¬ (committed_sample L sess epoch z ∧ ¬ debt_sample L sess epoch z)) ∧
  cr_covered_samples r
    + zsum (map (λ u, sat_sub (tr_sample_end u) (tr_sample_start u))
              (cr_uncovered_speech_ranges r)) = cr_speech_samples r ∧
  0 <= cr_covered_samples r ∧
  (is_complete (cr_status r) = true ↔
     (∀ o, o ∈ lg_pending_text_recovery L → in_capture sess epoch o = true →
        complete_decode_covers (lg_complete_decode_spans L) o = true) ∧
     ∀ u, u ∈ cr_uncovered_speech_ranges r →
        tr_sample_end u - tr_sample_start u <= threshold).
Proof.
  intros r Hr. destruct (assess_measured _ _ _ _ _ Hr) as (observed & _ & Heq).
  unfold r. rewrite Heq. clear r Hr Heq.
  pose proof (uncovered_le L sess epoch speech Hdebt) as Hle.
  destruct (uncovered_spec L sess epoch speech Hdebt) as [Hok Hspec].
  split; [|split; [|split]].
  - intros z. by rewrite receipt_uncovered, Hspec.
  - simpl. rewrite tail_len_map. fold (total_len (uncovered_speech (speech_spans speech)
      (subtract_debt (pending_text_recoveries L sess epoch) (committed_spans L sess epoch)))).
    mach.
  - simpl. mach.
  - simpl. set (unc := uncovered_speech _ _) in *.
    set (debt := pending_text_recoveries L sess epoch).
    assert (Hnil : debt = [] ↔ ∀ o, o ∈ lg_pending_text_recovery L →
      in_capture sess epoch o = true →
      complete_decode_covers (lg_complete_decode_spans L) o = true).
    { split.
      - intros Hn o Ho Hc. destruct (complete_decode_covers _ o) eqn:Hcov; [done|].
        assert (Hin : o ∈ debt) by (by apply elem_of_pending). rewrite Hn in Hin.
        by apply not_elem_of_nil in Hin.
      - intros Hall. destruct debt as [|o l] eqn:Hde; [done|exfalso].
        assert (Hin : o ∈ debt) by (rewrite Hde; by left).
        apply elem_of_pending in Hin as (? & ? & ?). rewrite Hall in *; done. }
    rewrite <- Hnil.
    assert (Hlen : (∀ u, u ∈ map (λ '(s, e), mkTailRange sess epoch s e) unc →
      tr_sample_end u - tr_sample_start u <= threshold) ↔ max_len unc <= threshold).
    { rewrite max_len_spec by done. split.
      - intros H [s e] Hr. rewrite range_len_nonempty by (by eapply spans_ok_nonempty).
        apply (H (mkTailRange sess epoch s e)). apply list_elem_of_In, in_map_iff.
        exists (s, e). split; [done|]. by apply list_elem_of_In.
      - intros H u Hu. apply list_elem_of_In, in_map_iff in Hu as ([s e] & <- & Hr).
        apply list_elem_of_In in Hr. specialize (H _ Hr).
        rewrite range_len_nonempty in H by (by eapply spans_ok_nonempty). done. }
    rewrite Hlen. destruct (bool_decide (debt = [])) eqn:Hb; zbool; simpl.
    + destruct (threshold <? max_len unc) eqn:Hm; zbool; simpl; intuition lia.
    + intuition done.
Qed.

(** The take is measured by an authenticated observer up to its last sample. *)
Definition authenticated (L : AcousticLedger) (sess : string) (epoch : Z)
    (speech : AcousticSpeechEvidence) : Prop :=
  ce_session (se_identity speech) = sess ∧ ce_capture_epoch (se_identity speech) = epoch ∧
  (se_producer speech = CAPTURE_ENERGY_PRODUCER ∨ se_producer speech = SILERO_BOUNDARIES_PRODUCER) ∧
  (∀ r, r ∈ se_ranges speech →
     tr_session r = sess ∧ tr_capture_epoch r = epoch ∧ tr_sample_start r < tr_sample_end r) ∧
  ∃ n, se_availability speech = Observed n ∧
    ∀ z, speech_sample speech z ∨ committed_sample L sess epoch z → z < n.

Lemma measurement_gap_inr L sess epoch speech n :
  measurement_gap L sess epoch speech = inr n ↔
    ce_session (se_identity speech) = sess ∧ ce_capture_epoch (se_identity speech) = epoch ∧
    (se_producer speech = CAPTURE_ENERGY_PRODUCER ∨
     se_producer speech = SILERO_BOUNDARIES_PRODUCER) ∧
    (∀ r, r ∈ se_ranges speech →
       tr_session r = sess ∧ tr_capture_epoch r = epoch ∧ tr_sample_start r < tr_sample_end r) ∧
    se_availability speech = Observed n.
Proof.
  unfold measurement_gap, identity_matches.
  destruct (String.eqb_spec (ce_session (se_identity speech)) sess) as [Hs|Hs]; simpl;
    [|split; [done|tauto]].
  destruct (Z.eqb_spec (ce_capture_epoch (se_identity speech)) epoch) as [He|He]; simpl;
    [|split; [done|tauto]].
  destruct (se_availability speech) as [m| | | |] eqn:Ha; simpl;
    [|by split; [done|intros (_ & _ & _ & _ & ?)]..].
  destruct (existsb _ (se_ranges speech)) eqn:Hf.
  { split; [done|]. intros (_ & _ & _ & Hr & _). apply existsb_true in Hf as (r & Hin & Hf).
    destruct (Hr r Hin) as (E1 & E2 & _).
    rewrite E1, E2, String.eqb_refl, Z.eqb_refl in Hf. done. }
  pose proof (proj1 (existsb_false _ _) Hf) as Hforeign.
  destruct (existsb (λ r, tr_sample_end r <=? tr_sample_start r) _) eqn:Hi.
  { rewrite orb_true_r. split; [done|]. intros (_ & _ & _ & Hr & _).
    apply existsb_true in Hi as (r & Hin & Hi). destruct (Hr r Hin) as (_ & _ & ?). zbool. lia. }
  pose proof (proj1 (existsb_false _ _) Hi) as Hinv. rewrite orb_false_r.
  assert (Hranges : ∀ r, r ∈ se_ranges speech →
    tr_session r = sess ∧ tr_capture_epoch r = epoch ∧ tr_sample_start r < tr_sample_end r).
  { intros r Hr. specialize (Hforeign r Hr). specialize (Hinv r Hr). simpl in *.
    apply orb_false_iff in Hforeign as [F1 F2]. rewrite negb_false_iff in F1, F2.
    apply String.eqb_eq in F1. zbool. done. }
  destruct (String.eqb_spec (se_producer speech) CAPTURE_ENERGY_PRODUCER),
    (String.eqb_spec (se_producer speech) SILERO_BOUNDARIES_PRODUCER);
    simpl; split; intros H; simplify_eq; try tauto;
    destruct H as (_ & _ & _ & _ & ?); by simplify_eq.
Qed.

Lemma spans_bounded l n :
  spans_ok l → existsb (λ '(_, e), n <? e) l = false ↔ ∀ z, in_spans z l → z < n.
Proof.
  intros Hok. rewrite existsb_false. split.
  - intros H z ([s e] & Hr & Hz). specialize (H _ Hr). simpl in H. zbool.
    unfold in_range in Hz; simpl in Hz. lia.
  - intros H [s e] Hr. apply Z.ltb_ge. pose proof (spans_ok_nonempty _ _ Hr Hok). simpl in *.
    specialize (H (e - 1)). assert (e - 1 < n); [|lia]. apply H. exists (s, e).
    split; [done|]. unfold in_range; simpl. lia.
Qed.

(** the take is certified exactly when an authenticated observer measured
    all of it, and a refused receipt claims no sample and no completeness. *)
Theorem coverage_available_iff L sess epoch speech threshold :
  let r := assess_seal_coverage L sess epoch speech threshold in
  (unavailable_reason (cr_status r) = None ↔ authenticated L sess epoch speech) ∧
  (unavailable_reason (cr_status r) ≠ None →
     is_complete (cr_status r) = false ∧ cr_speech_samples r = 0 ∧
     cr_covered_samples r = 0 ∧ cr_uncovered_speech_ranges r = [] ∧ cr_observed_samples r = None).
Proof.
  simpl. unfold assess_seal_coverage.
  destruct (measurement_gap L sess epoch speech) as [gap|n] eqn:Hg.
  { simpl. split; [|done]. split; [done|]. intros (Hs & He & Hp & Hr & n & Ha & _). exfalso.
    assert (measurement_gap L sess epoch speech = inr n) by (by apply measurement_gap_inr).
    congruence. }
  apply measurement_gap_inr in Hg as (Hs & He & Hp & Hr & Ha).
  assert (Hb : existsb (λ '(_, e), n <? e) (speech_spans speech ++ committed_spans L sess epoch)
               = false ↔ ∀ z, speech_sample speech z ∨ committed_sample L sess epoch z → z < n).
  { rewrite existsb_app, orb_false_iff.
    rewrite (spans_bounded (speech_spans speech)) by apply merged_ranges_spec.
    rewrite (spans_bounded (committed_spans L sess epoch)) by apply merged_ranges_spec.
    setoid_rewrite speech_spans_spec. setoid_rewrite committed_spans_spec. naive_solver. }
  destruct (existsb _ (_ ++ _)).
  - simpl. split; [|done]. split; [done|]. intros (_ & _ & _ & _ & n' & Ha' & Hz).
    rewrite Ha in Ha'. simplify_eq. apply Hb in Hz. done.
  - simpl. assert (Hnone : ∀ b : bool,
      unavailable_reason (if b then Incomplete else Complete) = None) by (by intros []).
    rewrite Hnone. split; [|done]. split; [|done]. intros _.
    repeat (split; [done|]). exists n. split; [done|]. by apply Hb.
Qed.

(** Text debt is only ever owed by qualified, hence anchored, occurrences. *)
Lemma require_text_recovery_anchored L o :
  (∀ o' s, lg_evidence L !! o' = Some s → is_anchored o' = true) →
  debt_anchored L → debt_anchored (require_text_recovery L o).2.
Proof.
  intros Hev Hd. unfold require_text_recovery.
  destruct (_ || _ || _) eqn:Hg; simpl; [done|]. zbool. intros o'. simpl.
  intros [->%elem_of_singleton|Ho']%elem_of_union; [|by apply Hd].
  unfold is_qualified in H. zbool. destruct H as [s Hs]. by apply (Hev _ s).
Qed.

(** ** Witnesses *)

Definition ex_capture : CaptureEvidenceIdentity := mkCaptureIdentity "s" 1.
Definition ex_held (a b : Z) : OccurrenceIdentity := mkOccurrence "s" 1 a b.
Definition ex_committed (a b : Z) : CommittedObservation :=
  mkCommitted Whisper 0 [] "word".

(** Two committed occurrences, the second of which still owes a recovery. *)
Definition ex_ledger : AcousticLedger :=
  ledger_new
    <| lg_committed := {[ ex_held 0 100 := ex_committed 0 100;
                          ex_held 100 200 := ex_committed 100 200 ]} |>
    <| lg_pending_text_recovery := {[ ex_held 100 200 ]} |>.

Definition ex_speech : AcousticSpeechEvidence :=
  mkSpeechEvidence ex_capture SILERO_BOUNDARIES_PRODUCER (Observed 500)
    [mkTailRange "s" 1 20 150; mkTailRange "s" 1 140 300].

Example ex_receipt :
  (λ r, (cr_speech_samples r, cr_covered_samples r,
         map (λ u, (tr_sample_start u, tr_sample_end u)) (cr_uncovered_speech_ranges r),
         coverage_status_as_str (cr_status r)))
    (assess_seal_coverage ex_ledger "s" 1 ex_speech 50)
  = (280, 80, [(100, 300)], "incomplete").
Proof. vm_compute. reflexivity. Qed.

Lemma coverage_receipt_exact_witness :
  let r := assess_seal_coverage ex_ledger "s" 1 ex_speech 50 in
  cr_covered_samples r
    + zsum (map (λ u, sat_sub (tr_sample_end u) (tr_sample_start u))
              (cr_uncovered_speech_ranges r)) = cr_speech_samples r ∧
  ∀ z, uncovered_sample r z ↔
     speech_sample ex_speech z ∧
     ¬ (committed_sample ex_ledger "s" 1 z ∧ ¬ debt_sample ex_ledger "s" 1 z).
Proof.
  assert (Hd : debt_anchored ex_ledger).
  { intros o Ho. simpl in Ho. apply elem_of_singleton in Ho. by subst o. }
  destruct (coverage_receipt_exact ex_ledger "s" 1 ex_speech 50 Hd ltac:(lia)) as (H1 & H2 & _).
  { vm_compute. reflexivity. }
  split; assumption.
Defined.
