(* ===== verification/LedgerDecision.v ===== *)
(** LedgerDecision: admitting one observation
    (core/pipeline/acoustic_ledger.rs, [decide_observation], [admit], the
    non-mutating admissions, [record_layer_decision] and [conservation]).

    [admit] is the whole-label lane: the call of [admit_slot_batch] with no
    word slots, no slot revision and no slot operations.  In that lane the slot
    bookkeeping of the batch is empty and is left out.  What the lane asks of
    the word-evidence modules (slot_ops.rs, word_adjudication.rs) is the class
    [WordDebt]; the theorems hold for every implementation of it. *)

From S2P Require Import Prelude.
From S2P Require Import Text.
From S2P Require Import GroupAlignment.
From S2P Require Import LedgerIdentity.
From S2P Require Import LedgerSpans.
From S2P Require Import CaptureEvidence.
From S2P Require Import LedgerState.
From S2P Require Import LedgerCoverage.
From Stdlib Require Import Floats.SpecFloat.
#[local] Open Scope Z_scope.

(* ------------------------------------------------------------------ *)
(** ** Binary32 arithmetic of the clock-lie test *)

(** [n as f32] of an unsigned integer, rounded to nearest even. *)
Definition f32_of_u64 (n : Z) : spec_float := binary_normalize 24 128 n 0 false.

Definition f32_div : spec_float → spec_float → spec_float := SFdiv 24 128.
Definition f32_lt : spec_float → spec_float → bool := SFltb.

Definition CLOCK_LIE_CHARS_PER_SEC : spec_float := f32_of_u64 30.

Definition is_clock_lie (chars : Z) (duration_secs : spec_float) : bool :=
  f32_lt (f32_of_u64 0) duration_secs
  && f32_lt CLOCK_LIE_CHARS_PER_SEC (f32_div (f32_of_u64 chars) duration_secs).

(* ------------------------------------------------------------------ *)
(** ** Held labels *)

Definition slot_le (a b : WordSlot) : Prop :=
  ws_sample_start a < ws_sample_start b ∨
  (ws_sample_start a = ws_sample_start b ∧
   (ws_sample_end a < ws_sample_end b ∨
    (ws_sample_end a = ws_sample_end b ∧ String.leb (ws_text a) (ws_text b) = true))).

#[global] Instance slot_le_dec a b : Decision (slot_le a b).
Proof. unfold slot_le; apply _. Defined.

Definition compose_label (slots : list WordSlot) : string := join_space (map ws_text slots).

Definition recompose (c : CommittedObservation) : CommittedObservation :=
  let slots := merge_sort slot_le (co_slots c) in
  mkCommitted (co_producer c) (co_generation c) slots (compose_label slots).

Definition committed_empty (observation : ObservationIdentity) : CommittedObservation :=
  mkCommitted (producer observation) (generation observation) [] "".

Definition label_slot (observation : ObservationIdentity) (text : string) : WordSlot :=
  mkWordSlot (sample_start (occurrence observation)) (sample_end (occurrence observation))
    text (producer observation) observation Unwitnessed None false.

Definition committed_from_label (observation : ObservationIdentity) (text : string)
    : CommittedObservation :=
  recompose (mkCommitted (producer observation) (generation observation)
               [label_slot observation text] "").

(* ------------------------------------------------------------------ *)
(** ** Answer history *)

Definition reserve_generation (h : ProducerHistory) (g : Z) : ProducerHistory :=
  h <| ph_highest_generation :=
         Some (match ph_highest_generation h with None => g | Some held => Z.max held g end) |>.

Definition note_answered (L : AcousticLedger) (observation : ObservationIdentity) : AcousticLedger :=
  let o := occurrence observation in
  let owner := default OwnerHistory_default (lg_owner_history L !! o) in
  let history := default ProducerHistory_default (oh_producers owner !! producer observation) in
  let newer := match ph_latest_answered history with
               | None => true
               | Some (g, _) => g <=? generation observation
               end in
  let history' :=
    if newer
    then history <| ph_latest_answered := Some (generation observation, request observation) |>
    else history in
  let owner' :=
    owner <| oh_answered := oh_answered owner + 1 |>
          <| oh_producers ::= <[producer observation :=
                                  reserve_generation history' (generation observation)]> |> in
  L <| lg_answered ::= union {[ observation ]} |>
    <| lg_owner_history ::= <[o := owner']> |>.

(** [None] is the panic of the exhausted generation counter. *)
Definition next_word_observation (L : AcousticLedger) (p : ObservationProducer) (req : Z)
    (o : OccurrenceIdentity) : option ObservationIdentity :=
  let history := owner ← lg_owner_history L !! o; oh_producers owner !! p in
  let prior := h ← history; ph_latest_answered h in
  g ← match (h ← history; ph_highest_generation h) with
      | None => Some 0
      | Some held => checked_add held 1
      end;
  Some (mkObservation p (match prior with Some (_, r) => r | None => req end) g o).

Definition retain_slot_alternative (L : AcousticLedger) (observation : ObservationIdentity)
    (candidate : string) (sources : list WordSlot) (reason : string) : AcousticLedger :=
  let alternative := mkSlotAlternative observation candidate sources reason in
  if bool_decide (alternative ∈ lg_slot_alternatives L) then L
  else L <| lg_slot_alternatives ::= λ l, l ++ [alternative] |>.

(* ------------------------------------------------------------------ *)
(** ** Slot operations and their index *)

Definition index_slot_outputs (index : nat) (occurrences : list OccurrenceIdentity)
    (m : gmap OccurrenceIdentity (list nat)) : gmap OccurrenceIdentity (list nat) :=
  foldl (λ m o, <[o := default [] (m !! o) ++ [index]]> m) m occurrences.

(** The distinct occurrences of the outputs, in first-seen order. *)
Definition output_occurrences (outputs : list WordSlot) : list OccurrenceIdentity :=
  foldl (λ seen output,
    let o := occurrence (ws_observation output) in
    if bool_decide (o ∈ seen) then seen else seen ++ [o]) [] outputs.

Definition record_slot_operation (L : AcousticLedger) (receipt : SlotOperationReceipt)
    : AcousticLedger :=
  let index := length (lg_slot_operations L) in
  L <| lg_slot_operation_index ::=
         index_slot_outputs index (output_occurrences (so_outputs receipt)) |>
    <| lg_slot_operations ::= λ l, l ++ [receipt] |>.

Definition slot_own_range (slot : WordSlot) : OccurrenceIdentity :=
  mkOccurrence (session (occurrence (ws_observation slot)))
    (capture_epoch (occurrence (ws_observation slot)))
    (ws_sample_start slot) (ws_sample_end slot).

Definition receipt_source_ranges (receipt : SlotOperationReceipt) (slot : WordSlot)
    : option (list OccurrenceIdentity) :=
  if existsb (λ output, bool_decide (output = slot)) (so_outputs receipt)
  then Some (if bool_decide (so_kind receipt = SlotSplit) || (1 <? length (so_outputs receipt))%nat
             then [slot_own_range slot] else so_source_ranges receipt)
  else None.

(** [find_map] of the iterator. *)
Fixpoint find_map {A B} (f : A → option B) (l : list A) : option B :=
  match l with
  | [] => None
  | x :: l' => match f x with Some y => Some y | None => find_map f l' end
  end.

Definition slot_source_ranges_indexed (L : AcousticLedger) (slot : WordSlot)
    : list OccurrenceIdentity :=
  let positions := default [] (lg_slot_operation_index L !! occurrence (ws_observation slot)) in
  default [slot_own_range slot]
    (find_map (λ position, receipt ← lg_slot_operations L !! position;
                           receipt_source_ranges receipt slot) (rev positions)).

(** The definition before the index, the witness of debug builds. *)
Definition slot_source_ranges_by_scan (L : AcousticLedger) (slot : WordSlot)
    : list OccurrenceIdentity :=
  default [slot_own_range slot]
    (find_map (λ receipt, receipt_source_ranges receipt slot) (rev (lg_slot_operations L))).

Definition slot_source_ranges : AcousticLedger → WordSlot → list OccurrenceIdentity :=
  slot_source_ranges_indexed.

(* ------------------------------------------------------------------ *)
(** ** Clock lies and the covered span *)

Definition replace_neighbour (L : AcousticLedger) (authorizer : OccurrenceIdentity)
    (sources : list WordSlot) : option OccurrenceIdentity :=
  List.find (λ flagged,
    match relate authorizer flagged with Same | Overlapping _ => true | _ => false end
    && existsb (λ source,
         negb (bool_decide (occurrence (ws_observation source) = flagged))
         && same_capture (occurrence (ws_observation source)) flagged) sources)
    (btree_elements (lg_clock_lie_occurrences L)).

Definition note_covered_span (L : AcousticLedger) (o : OccurrenceIdentity) : AcousticLedger :=
  if negb (is_anchored o) then L
  else
    L <| lg_first_covered_sample :=
           Some (match lg_first_covered_sample L with
                 | Some current => Z.min current (sample_start o)
                 | None => sample_start o
                 end) |>
      <| lg_last_covered_sample :=
           Some (match lg_last_covered_sample L with
                 | Some current => Z.max current (sample_end o)
                 | None => sample_end o
                 end) |>.

Definition held_clock_lie (rate : Z) (o : OccurrenceIdentity) (held : CommittedObservation) : bool :=
  is_clock_lie (Z.of_nat (chars_count (co_label held)))
    (f32_div (f32_of_u64 (sample_len o)) (f32_of_u64 rate)).

Definition still_clock_lie (L : AcousticLedger) (rate : Z) (o : OccurrenceIdentity) : bool :=
  match lg_committed L !! o with
  | Some held => held_clock_lie rate o held
  | None => false
  end.

Definition note_clock_lie (L : AcousticLedger) (observation : ObservationIdentity)
    (decision : MutationReceipt) : bool * AcousticLedger :=
  match lg_capture_rate_hz L with
  | None => (false, L)
  | Some rate =>
    if rate <=? 0 then (false, L)
    else
      let L1 := L <| lg_clock_lie_occurrences ::=
                       filter (λ o, still_clock_lie L rate o = true) |> in
      match decision with
      | Insert _ | Correct _ _ _ | Preserve _ _ =>
        let o := occurrence observation in
        match lg_committed L !! o with
        | None => (false, L1)
        | Some held =>
          if is_anchored o && held_clock_lie rate o held
          then (true, L1 <| lg_clock_lie_occurrences ::= union {[ o ]} |>)
          else (false, L1)
        end
      | _ => (false, L1)
      end
  end.

(** [bind_capture_rate]. *)
Definition bind_capture_rate (L : AcousticLedger) (rate : Z) : AcousticLedger :=
  if 0 <? rate then L <| lg_capture_rate_hz := Some rate |> else L.

(* ------------------------------------------------------------------ *)
(** ** The decision

    One definition per stretch of [decide_observation], in its order. *)

Section decision.
Context {tables : CharTables}.

Definition align_error_reason (e : AlignError) : string := "group_alignment_ambiguous".

(** The formatter authors presentation only. *)
Definition decide_formatter (L : AcousticLedger) (obs : ObservationIdentity) (text : string)
    (has_word_pins : bool) : AcousticLedger * MutationReceipt :=
  let o := occurrence obs in
  let L' :=
    if has_word_pins then L
    else match lg_committed L !! o with
         | Some held =>
             if (length (co_slots held) =? 1)%nat && negb (String.eqb (co_label held) text)
             then retain_slot_alternative L obs text (co_slots held)
                    "whole_label_has_no_word_targets"
             else L
         | None => L
         end in
  (L', Refuse o AuthorityConflict).

(** A whole label over held words, or over a word deleted for silence. *)
Definition word_pins_hold (L : AcousticLedger) (obs : ObservationIdentity) : bool :=
  let o := occurrence obs in
  match slots_of L o with
  | None => false
  | Some slots =>
      existsb (λ slot, bool_decide (ws_observation slot ∈ lg_word_pin_observations L)) slots
      || (bool_decide (slots = [])
          && negb (bool_decide (producer obs = ManualHuman))
          && existsb (λ d, bool_decide (occurrence (so_observation (wd_operation d)) = o))
               (lg_word_deletions L))
  end.

(** A human edit of a sealed occurrence, the only supersession it accepts. *)
Definition decide_manual_edit (L : AcousticLedger) (obs : ObservationIdentity) (text : string)
    (has_word_pins : bool) (supersedes_seal : string) : AcousticLedger * MutationReceipt :=
  let o := occurrence obs in
  let held := lg_committed L !! o in
  let superseded_label := match held with Some previous => co_label previous | None => "" end in
  let from := match held with Some previous => co_producer previous | None => ManualHuman end in
  let manual_ordinal := Z.of_nat (length (lg_manual_edits L)) in
  let L1 := note_covered_span L o in
  let L2 :=
    match held with
    | Some current =>
        if has_word_pins
        then L1 <| lg_committed ::= <[o := current <| co_producer := producer obs |>
                                                   <| co_generation := generation obs |>]> |>
        else L1 <| lg_committed ::= <[o := committed_from_label obs text]> |>
    | None =>
        L1 <| lg_committed ::= <[o := if has_word_pins then committed_empty obs
                                      else committed_from_label obs text]> |>
    end in
  let receipt_id := ("manual-" +:+ show_u64 (request obs) +:+ "-" +:+ show_u64 (generation obs)
                     +:+ "-" +:+ show_u64 manual_ordinal)%string in
  let L3 := L2 <| lg_manual_edits ::= λ l,
    l ++ [mkManualEdit receipt_id o supersedes_seal superseded_label text obs] |> in
  (L3, match held with
       | Some _ => Correct o from ManualHuman
       | None => Insert o
       end).

(** The whole-label revision of an unsealed occurrence whose authority allows it. *)
Definition revise_label (L : AcousticLedger) (obs : ObservationIdentity) (text : string)
    (held : CommittedObservation) : AcousticLedger * MutationReceipt :=
  let o := occurrence obs in
  let replaced := (L <| lg_committed ::= <[o := committed_from_label obs text]> |>,
                   Correct o (co_producer held) (producer obs)) in
  match co_slots held with
  | [source] =>
    if (ws_sample_start source =? sample_start o) && (ws_sample_end source =? sample_end o)
       && negb (bool_decide (producer obs = ManualHuman))
    then
      let '(label, retained, reason) :=
        match preserve_group_content (ws_text source) text with
        | inr (label, retained) => (label, retained, "held_token_retained"%string)
        | inl e => (ws_text source, true, align_error_reason e)
        end in
      if retained then
        let L1 := retain_slot_alternative L obs text (co_slots held) reason in
        (record_slot_operation L1
           (mkSlotOperation obs SlotCorrect (co_slots held) (co_slots held)
              (slot_source_ranges L1 source) (reason +:+ "/held_token_retained/v1")),
         Preserve o (co_producer held))
      else
        let output := source <| ws_text := label |> <| ws_producer := producer obs |>
                             <| ws_observation := obs |> in
        let source_ranges := slot_source_ranges L source in
        let current := recompose (held <| co_producer := producer obs |>
                                       <| co_generation := generation obs |>
                                       <| co_slots := [output] |>) in
        let L1 := L <| lg_committed ::= <[o := current]> |> in
        (record_slot_operation L1
           (mkSlotOperation obs SlotCorrect (co_slots held) [output] source_ranges
              "group_alignment/v1"),
         Correct o (co_producer held) (producer obs))
    else replaced
  | _ => replaced
  end.

(** A hypothesis about an occurrence the ledger already holds. *)
Definition decide_held (L : AcousticLedger) (obs : ObservationIdentity) (text : string)
    (slot_revision has_word_pins : bool) (held : CommittedObservation)
    : AcousticLedger * MutationReceipt :=
  let o := occurrence obs in
  let outranks := authority_rank (co_producer held) <? authority_rank (producer obs) in
  let same_lane_revision :=
    bool_decide (producer obs = co_producer held) && (co_generation held <? generation obs) in
  if String.eqb (co_label held) text then (L, Preserve o (co_producer held))
  else if outranks || same_lane_revision || slot_revision then
    if negb has_word_pins
       && bool_decide (is_Some (replace_neighbour L o (co_slots held)))
    then (retain_slot_alternative L obs text (co_slots held) "clock_lie", Refuse o ClockLie)
    else
      let L1 := note_covered_span L o in
      if has_word_pins then
        (L1 <| lg_committed ::= <[o := held <| co_producer := producer obs |>
                                            <| co_generation := generation obs |>]> |>,
         Correct o (co_producer held) (producer obs))
      else revise_label L1 obs text held
  else
    (if negb has_word_pins && (length (co_slots held) =? 1)%nat
     then retain_slot_alternative L obs text (co_slots held) "protected_source"
     else L,
     Refuse o AuthorityConflict).

(** Whether an Observed measurement heard no speech in the claimed range. *)
Definition measured_silent (L : AcousticLedger) (o : OccurrenceIdentity) : bool :=
  match lg_speech_evidence L with
  | Some speech =>
      match se_availability speech with
      | Observed _ =>
          negb (existsb (λ r, (tr_sample_start r <? sample_end o)
                              && (sample_start o <? tr_sample_end r)) (se_ranges speech))
      | _ => false
      end
  | None => false
  end.

(** A hypothesis about an occurrence nobody committed. *)
Definition decide_new (L : AcousticLedger) (obs : ObservationIdentity) (text : string)
    (has_word_pins : bool) : AcousticLedger * MutationReceipt :=
  let o := occurrence obs in
  let overlaps :=
    existsb (λ c, match relate o c with Overlapping _ => true | _ => false end)
      (btree_keys (lg_committed L)) in
  let shown := L <| lg_kept_visible ::= Z.add 1 |> in
  if overlaps && negb has_word_pins
  then (shown, KeepVisibleUnanchored o text OverlapWithoutWordPins)
  else if negb (bool_decide (producer obs = ManualHuman)) && negb has_word_pins
          && measured_silent L o
  then (shown, KeepVisibleUnanchored o text NoMeasuredSpeech)
  else
    ((note_covered_span L o)
       <| lg_committed ::= <[o := if has_word_pins then committed_empty obs
                                  else committed_from_label obs text]> |>,
     Insert o).

Definition decide_observation (L : AcousticLedger) (obs : ObservationIdentity) (text : string)
    (slot_revision has_word_pins : bool) : AcousticLedger * MutationReceipt :=
  let o := occurrence obs in
  if negb (is_anchored o) then
    (note_answered (L <| lg_kept_visible ::= Z.add 1 |>) obs,
     KeepVisibleUnanchored o text ZeroWidth)
  else if bool_decide (obs ∈ lg_answered L) then
    (note_answered L obs, Refuse o BatchDuplicate)
  else
    let L := note_answered L obs in
    if bool_decide (producer obs = Formatter) then decide_formatter L obs text has_word_pins
    else
      let sealed_by := sl_receipt_id <$> lg_seals L !! o in
      if bool_decide (is_Some sealed_by) && negb (bool_decide (producer obs = ManualHuman))
      then (L, Refuse o SealedReplay)
      else
        match lg_committed L !! o with
        | Some held =>
          if negb has_word_pins && word_pins_hold L obs then (L, Preserve o (co_producer held))
          else
            match sealed_by with
            | Some seal => decide_manual_edit L obs text has_word_pins seal
            | None =>
              if trim_is_empty text && negb (bool_decide (producer obs = ManualHuman))
              then (L, Preserve o (co_producer held))
              else decide_held L obs text slot_revision has_word_pins held
            end
        | None =>
            match sealed_by with
            | Some seal => decide_manual_edit L obs text has_word_pins seal
            | None =>
              if trim_is_empty text && negb (bool_decide (producer obs = ManualHuman))
              then (L, Refuse o EmptyLabel)
              else decide_new L obs text has_word_pins
            end
        end.
End decision.

(** The latest snapshot of the capture observer. *)
Definition record_speech_evidence (L : AcousticLedger) (speech : AcousticSpeechEvidence)
    : AcousticLedger := L <| lg_speech_evidence := Some speech |>.

(* ------------------------------------------------------------------ *)
(** ** Receipts of the decision *)

Definition record_layer_decision (L : AcousticLedger) (obs : ObservationIdentity) (text : string)
    (decision : MutationReceipt) (clock_lie_blocker : option OccurrenceIdentity)
    : AcousticLedger :=
  let o := occurrence obs in
  let ordinal := Z.of_nat (length (lg_trail L)) in
  let predecessor := owner ← lg_owner_history L !! o; last (oh_trail_ordinals owner) in
  let serials := match lg_evidence L !! o with Some s => [s] | None => [] end in
  let blocker :=
    match clock_lie_blocker with
    | Some b => Some b
    | None =>
        match decision with
        | Refuse _ ClockLie => replace_neighbour L o (default [] (slots_of L o))
        | _ => None
        end
    end in
  let '(clock_lie, L1) := note_clock_lie L obs decision in
  let receipt_id :=
    (layer_label (producer obs) +:+ "-" +:+ show_u64 (request obs) +:+ "-"
     +:+ show_u64 (generation obs) +:+ "-" +:+ show_u64 ordinal)%string in
  let owner := default OwnerHistory_default (lg_owner_history L1 !! o) in
  let L2 :=
    L1 <| lg_trail ::= λ l,
            l ++ [mkLayerDecision ordinal receipt_id obs text (split_whitespace text) serials
                    decision predecessor clock_lie blocker] |>
       <| lg_owner_history ::=
            <[o := owner <| oh_trail_ordinals ::= λ l, l ++ [ordinal] |>]> |>
       <| lg_issued_receipts ::= Z.add 1 |> in
  let name reason :=
    L2 <| lg_named_refusals ::=
            λ m, <[reason := default 0 (m !! reason) + 1]> m |> in
  match decision with
  | Refuse _ reason => name (refuse_as_str reason)
  | KeepVisibleUnanchored _ _ reason => name (no_authority_as_str reason)
  | Preserve _ _ | Correct _ _ _ | Insert _ => L2 <| lg_delivered_observations ::= Z.add 1 |>
  end.

(* ------------------------------------------------------------------ *)
(** ** Admissions that cannot mutate *)

Definition keep_visible_unanchored (L : AcousticLedger) (obs : ObservationIdentity)
    (text : string) (reason : NoAuthorityReason) : AcousticLedger * MutationReceipt :=
  let L1 := L <| lg_offered_observations ::= Z.add 1 |> <| lg_kept_visible ::= Z.add 1 |> in
  let decision := KeepVisibleUnanchored (occurrence obs) text reason in
  (record_layer_decision (note_answered L1 obs) obs text decision None, decision).

Definition refuse_replacement (L : AcousticLedger) (obs : ObservationIdentity)
    (text : string) (reason : RefuseReason) : AcousticLedger * MutationReceipt :=
  let o := occurrence obs in
  let L1 := note_answered (L <| lg_offered_observations ::= Z.add 1 |>) obs in
  let preserves :=
    trim_is_empty text
    && match reason with EmptyLabel | SlotAdmissionRejected => true | _ => false end in
  let decision :=
    match lg_committed L1 !! o with
    | Some held => if preserves then Preserve o (co_producer held) else Refuse o reason
    | None => Refuse o reason
    end in
  (record_layer_decision L1 obs text decision None, decision).

Definition refuse_replayed_range (L : AcousticLedger) (obs : ObservationIdentity)
    (text : string) : AcousticLedger * MutationReceipt :=
  refuse_replacement L obs text ReplayedRangeIdentity.

Definition note_unrecovered_speech (L : AcousticLedger) (o : OccurrenceIdentity)
    : AcousticLedger * MutationReceipt :=
  let obs := mkObservation Whisper (sample_start o) (sample_end o) o in
  if bool_decide (obs ∈ lg_answered L) then (L, Refuse o UnrecoveredSpeech)
  else refuse_replacement L obs "" UnrecoveredSpeech.

(* ------------------------------------------------------------------ *)
(** ** The whole-label lane *)

(** What admission asks of the word-evidence modules: the words a committed
    batch leaves for adjudication, and which text debt returned decodes settle.
    The first writes only the adjudication state; the others only read. *)
Class WordDebt := {
  remember_word_outputs : AcousticLedger → ObservationIdentity → WordAdjudicationState;
  unresolved_rejected_pins : AcousticLedger → OccurrenceIdentity → list WordSlot;
  retained_recovery_source : AcousticLedger → OccurrenceIdentity → bool;
  returned_word_scope_accounted : AcousticLedger → ObservationIdentity → bool
}.

(** A ledger that holds no word evidence settles nothing by decode windows. *)
Definition no_word_evidence : WordDebt := {|
  remember_word_outputs := λ L _, lg_word_adjudication L;
  unresolved_rejected_pins := λ _ _, [];
  retained_recovery_source := λ _ _, false;
  returned_word_scope_accounted := λ _ _, false
|}.

Section admission.
Context {tables : CharTables} {debt : WordDebt}.

Definition reconcile_returned_word_debt (L : AcousticLedger) (owner : OccurrenceIdentity)
    : AcousticLedger :=
  if negb (text_recovery_pending L owner)
     && negb (bool_decide (is_Some (lg_rejected_word_pins L !! owner)))
  then L
  else
    let unresolved := unresolved_rejected_pins L owner in
    let L1 :=
      match unresolved with
      | [] => L <| lg_rejected_word_pins ::= delete owner |>
      | _ => L <| lg_rejected_word_pins ::= <[owner := unresolved]> |>
      end in
    if negb (retained_recovery_source L1 owner)
       && negb (bool_decide (is_Some (lg_rejected_word_pins L1 !! owner)))
       && match slots_of L1 owner with
          | Some pins =>
              existsb (λ pin, returned_word_scope_accounted L1 (ws_observation pin)) pins
          | None => false
          end
    then L1 <| lg_pending_text_recovery ::= λ s, s ∖ {[ owner ]} |>
    else L1.

Definition pinned_sources (L : AcousticLedger) (o : OccurrenceIdentity) : list WordSlot :=
  List.filter (λ slot, bool_decide (ws_observation slot ∈ lg_word_pin_observations L))
    (default [] (slots_of L o)).

(** Whether this label may settle the text debt of its occurrence. *)
Definition authorized_recovery (L : AcousticLedger) (obs : ObservationIdentity) (text : string)
    : bool :=
  bool_decide (pinned_sources L (occurrence obs) = [])
  && negb (trim_is_empty text)
  && match producer obs with Whisper | CloudLive | ManualHuman => true | _ => false end
  && match lg_committed L !! occurrence obs with
     | None => true
     | Some held =>
         (authority_rank (co_producer held) <? authority_rank (producer obs))
         || (bool_decide (producer obs = co_producer held)
             && (co_generation held <? generation obs))
     end.

(** Alternatives a whole label leaves over held words and deleted words. *)
Definition retain_label_alternatives (L : AcousticLedger) (obs : ObservationIdentity)
    (text : string) : AcousticLedger :=
  let o := occurrence obs in
  let pinned := pinned_sources L o in
  let L1 :=
    if negb (bool_decide (pinned = [])) && negb (bool_decide (text_of L o = Some text))
    then retain_slot_alternative L obs text pinned "whole_label_has_no_word_targets"
    else L in
  if negb (bool_decide (producer obs = ManualHuman)) && bool_decide (slots_of L1 o = Some [])
  then
    let deleted :=
      flat_map (λ d, so_sources (wd_operation d))
        (List.filter (λ d, bool_decide (occurrence (so_observation (wd_operation d)) = o))
           (lg_word_deletions L1)) in
    if bool_decide (deleted = []) then L1
    else retain_slot_alternative L1 obs text deleted "word_targets_required_after_no_speech"
  else L1.

(** The debt bookkeeping after the decision. *)
Definition settle_text_debt (L : AcousticLedger) (obs : ObservationIdentity)
    (authorized : bool) (decision : MutationReceipt) : AcousticLedger :=
  let o := occurrence obs in
  let human := bool_decide (producer obs = ManualHuman) in
  let stands := grants_mutation decision
                || match decision with Preserve _ _ => true | _ => false end in
  let L1 :=
    if authorized && human && stands then L <| lg_rejected_word_pins ::= delete o |>
    else if grants_mutation decision then reconcile_returned_word_debt L o
    else L in
  let retained_refused := negb human && retained_recovery_source L1 o in
  let recovery_accounted :=
    negb (text_recovery_pending L1 o) || human || returned_word_scope_accounted L1 obs in
  if authorized && recovery_accounted && negb retained_refused
     && negb (bool_decide (is_Some (lg_rejected_word_pins L1 !! o))) && stands
  then L1 <| lg_pending_text_recovery ::= λ s, s ∖ {[ o ]} |>
  else L1.

Definition admit_observation (L : AcousticLedger) (obs : ObservationIdentity) (text : string)
    : AcousticLedger * MutationReceipt :=
  let L1 := L <| lg_offered_observations ::= Z.add 1 |> in
  let authorized := authorized_recovery L1 obs text in
  let L2 := retain_label_alternatives L1 obs text in
  let '(L3, decision) := decide_observation L2 obs text false false in
  let L4 :=
    if grants_mutation decision
    then L3 <| lg_word_adjudication := remember_word_outputs L3 obs |> else L3 in
  let L5 := record_layer_decision L4 obs text decision None in
  (settle_text_debt L5 obs authorized decision, decision).

Fixpoint admit_all (L : AcousticLedger) (items : list (ObservationIdentity * string))
    : AcousticLedger * list MutationReceipt :=
  match items with
  | [] => (L, [])
  | (obs, text) :: items' =>
      let '(L1, r) := admit_observation L obs text in
      let '(L2, rs) := admit_all L1 items' in
      (L2, r :: rs)
  end.
End admission.

(* ------------------------------------------------------------------ *)
(** ** Conservation *)

Record ConservationTally := mkTally {
  ct_observations_in : Z;
  ct_receipts_out : Z;
  ct_occurrences_held : Z;
  ct_observations_delivered : Z;
  ct_kept_visible_unanchored : Z;
  ct_refusals_by_reason : gmap string Z
}.

Definition conservation (L : AcousticLedger) : ConservationTally :=
  mkTally (lg_offered_observations L) (lg_issued_receipts L)
    (Z.of_nat (size (lg_committed L))) (lg_delivered_observations L) (lg_kept_visible L)
    (lg_named_refusals L).

Definition named_total (m : gmap string Z) : Z := map_fold (λ _ n acc, n + acc) 0 m.

Definition residue (t : ConservationTally) : Z :=
  ct_observations_in t - ct_observations_delivered t - named_total (ct_refusals_by_reason t).

Definition admit_batch {tables : CharTables} {debt : WordDebt} (L : AcousticLedger)
    (items : list (ObservationIdentity * string))
    : AcousticLedger * (list MutationReceipt * ConservationTally) :=
  let '(L', receipts) := admit_all L items in
  (L', (receipts, conservation L')).

#[global] Arguments decide_observation : simpl never.
#[global] Arguments decide_manual_edit : simpl never.
#[global] Arguments decide_held : simpl never.
#[global] Arguments decide_new : simpl never.
#[global] Arguments record_layer_decision : simpl never.
#[global] Arguments keep_visible_unanchored : simpl never.
#[global] Arguments refuse_replacement : simpl never.
#[global] Arguments admit_observation : simpl never.
#[global] Arguments settle_text_debt : simpl never.
