(* ===== verification/LedgerDecisionFacts.v ===== *)
(** LedgerDecisionFacts: what admission guarantees.

    Conservation (one receipt per offer, none lost and none counted twice),
    the immutability of sealed labels, and the authority order of corrections,
    each for every implementation of the word-evidence interface and every
    character table. *)

From S2P Require Import Prelude.
From S2P Require Import Text.
From S2P Require Import GroupAlignment.
From S2P Require Import LedgerIdentity.
From S2P Require Import LedgerSpans.
From S2P Require Import LedgerState.
From S2P Require Import LedgerCoverage.
From S2P Require Import LedgerDecision.
#[local] Open Scope Z_scope.

(* ------------------------------------------------------------------ *)
(** ** Frame of the decision *)

(** What no decision writes: counters, trail, evidence, frontiers and seals. *)
Record same_books (L L' : AcousticLedger) : Prop := {
  sb_offered : lg_offered_observations L' = lg_offered_observations L;
  sb_issued : lg_issued_receipts L' = lg_issued_receipts L;
  sb_delivered : lg_delivered_observations L' = lg_delivered_observations L;
  sb_named : lg_named_refusals L' = lg_named_refusals L;
  sb_trail : lg_trail L' = lg_trail L;
  sb_evidence : lg_evidence L' = lg_evidence L;
  sb_frontiers : lg_frontiers L' = lg_frontiers L;
  sb_seals : lg_seals L' = lg_seals L;
  sb_terminal : lg_terminal_seals L' = lg_terminal_seals L
}.

#[global] Instance same_books_refl : Reflexive same_books.
Proof. by split. Qed.

#[global] Instance same_books_trans : Transitive same_books.
Proof. intros L1 L2 L3 [] []. split; congruence. Qed.

Ltac books := solve [split; reflexivity].

Lemma retain_slot_alternative_books L obs c s r : same_books L (retain_slot_alternative L obs c s r).
Proof. unfold retain_slot_alternative. case_bool_decide; [done|books]. Qed.

Lemma retain_slot_alternative_history L obs c s r :
  lg_owner_history (retain_slot_alternative L obs c s r) = lg_owner_history L.
Proof. unfold retain_slot_alternative. by case_bool_decide. Qed.

Lemma retain_slot_alternative_committed L obs c s r :
  lg_committed (retain_slot_alternative L obs c s r) = lg_committed L.
Proof. unfold retain_slot_alternative. by case_bool_decide. Qed.

Lemma retain_slot_alternative_edits L obs c s r :
  lg_manual_edits (retain_slot_alternative L obs c s r) = lg_manual_edits L.
Proof. unfold retain_slot_alternative. by case_bool_decide. Qed.

Lemma note_covered_span_books L o : same_books L (note_covered_span L o).
Proof. unfold note_covered_span. destruct (negb _); [done|books]. Qed.

Lemma note_covered_span_history L o :
  lg_owner_history (note_covered_span L o) = lg_owner_history L.
Proof. unfold note_covered_span. by destruct (negb _). Qed.

Lemma note_covered_span_committed L o :
  lg_committed (note_covered_span L o) = lg_committed L.
Proof. unfold note_covered_span. by destruct (negb _). Qed.

Lemma note_covered_span_edits L o :
  lg_manual_edits (note_covered_span L o) = lg_manual_edits L.
Proof. unfold note_covered_span. by destruct (negb _). Qed.

Lemma record_slot_operation_books L r : same_books L (record_slot_operation L r).
Proof. books. Qed.

Lemma note_answered_books L obs : same_books L (note_answered L obs).
Proof. books. Qed.

Create Rewrite HintDb ledger.
#[export] Hint Rewrite retain_slot_alternative_history retain_slot_alternative_committed
  retain_slot_alternative_edits note_covered_span_history note_covered_span_committed
  note_covered_span_edits : ledger.

#[export] Hint Resolve retain_slot_alternative_books note_covered_span_books
  record_slot_operation_books note_answered_books : s2p.

Section facts.
Context {tables : CharTables}.

(** The shape of every decision: which label it leaves, and under which
    receipt.  [dec_ok sealed obs L (L', r)] is the contract the branches share. *)
Record decision_ok (L L' : AcousticLedger) (obs : ObservationIdentity) (r : MutationReceipt)
    : Prop := {
  do_books : same_books L L';
  do_history : lg_owner_history L' = lg_owner_history L;
  do_frame : ∀ o, o ≠ occurrence obs → lg_committed L' !! o = lg_committed L !! o;
  do_still : grants_mutation r = false → lg_committed L' = lg_committed L;
  do_insert : ∀ o, r = Insert o → o = occurrence obs ∧
    lg_committed L !! o = None ∧ is_Some (lg_committed L' !! o);
  do_correct : ∀ o p q, r = Correct o p q → o = occurrence obs ∧
    is_Some (lg_committed L !! o) ∧ is_Some (lg_committed L' !! o)
}.

Lemma decide_formatter_ok L obs text pins :
  let '(L', r) := decide_formatter L obs text pins in
  decision_ok L L' obs r ∧ lg_manual_edits L' = lg_manual_edits L ∧ grants_mutation r = false.
Proof.
  unfold decide_formatter.
  assert (H : ∀ L', L' = L ∨ (∃ c s w, L' = retain_slot_alternative L obs c s w) →
    decision_ok L L' obs (Refuse (occurrence obs) AuthorityConflict) ∧
    lg_manual_edits L' = lg_manual_edits L ∧
    grants_mutation (Refuse (occurrence obs) AuthorityConflict) = false).
  { intros L' [->|(c & s & w & ->)]; (split; [|by autorewrite with ledger]);
      split; intros; autorewrite with ledger in *; simplify_eq; auto with s2p; done. }
  apply H. destruct pins; [by left|].
  destruct (lg_committed L !! occurrence obs); [|by left].
  destruct (_ && _); [right; eauto|by left].
Qed.

(** Writing the label of the observed occurrence only. *)
Lemma committed_write_ok L obs v (r : MutationReceipt) L1 :
  same_books L L1 → lg_owner_history L1 = lg_owner_history L →
  lg_committed L1 = <[occurrence obs := v]> (lg_committed L) →
  match r with
  | Insert o => o = occurrence obs ∧ lg_committed L !! o = None
  | Correct o _ _ => o = occurrence obs ∧ is_Some (lg_committed L !! o)
  | _ => False
  end →
  decision_ok L L1 obs r.
Proof.
  intros Hb Hh Hc Hr. split; [done|done| | | |].
  - intros o Ho. rewrite Hc. by rewrite lookup_insert_ne.
  - by destruct r.
  - intros o ->. destruct Hr as [-> ?]. rewrite Hc, lookup_insert_eq. eauto.
  - intros o p q ->. destruct Hr as [-> ?]. rewrite Hc, lookup_insert_eq. eauto.
Qed.

(** A decision that leaves every label. *)
Lemma no_write_ok L obs (r : MutationReceipt) L1 :
  same_books L L1 → lg_owner_history L1 = lg_owner_history L →
  lg_committed L1 = lg_committed L → grants_mutation r = false →
  decision_ok L L1 obs r.
Proof.
  intros Hb Hh Hc Hr. split; try done.
  - intros o _. by rewrite Hc.
  - by intros o ->.
  - by intros o p q ->.
Qed.

Lemma decide_manual_edit_ok L obs text pins seal :
  let '(L', r) := decide_manual_edit L obs text pins seal in
  decision_ok L L' obs r ∧ grants_mutation r = true ∧
  ∃ e, lg_manual_edits L' = lg_manual_edits L ++ [e] ∧ me_occurrence e = occurrence obs ∧
    me_supersedes_seal e = seal ∧ me_label e = text ∧ me_observation e = obs ∧
    me_superseded_label e = default ""%string (text_of L (occurrence obs)).
Proof.
  unfold decide_manual_edit, text_of.
  pose proof (note_covered_span_books L (occurrence obs)) as Hb.
  destruct (lg_committed L !! occurrence obs) as [held|] eqn:Hh; [destruct pins|];
    (split; [|split; [done|]]);
    first [ eexists; simpl; autorewrite with ledger; split; [reflexivity|]; done
          | eapply committed_write_ok; simpl; autorewrite with ledger;
            [destruct Hb; split; done|done|reflexivity|done] ].
Qed.

Lemma revise_label_ok L obs text held :
  lg_committed L !! occurrence obs = Some held →
  let '(L', r) := revise_label L obs text held in
  decision_ok L L' obs r ∧ lg_manual_edits L' = lg_manual_edits L.
Proof.
  intros Hh. unfold revise_label.
  assert (Hrep : decision_ok L
      (L <| lg_committed ::= <[occurrence obs := committed_from_label obs text]> |>) obs
      (Correct (occurrence obs) (co_producer held) (producer obs))).
  { eapply committed_write_ok; [books|done|reflexivity|eauto]. }
  destruct (co_slots held) as [|source [|]]; [done| |done].
  destruct (_ && _ && _); [|done].
  destruct (match preserve_group_content _ _ with inr _ => _ | inl _ => _ end)
    as [[label retained] reason].
  destruct retained.
  - split; [|simpl; by autorewrite with ledger].
    apply no_write_ok; simpl; autorewrite with ledger; try done.
    etrans; [apply retain_slot_alternative_books|apply record_slot_operation_books].
  - split; [|done]. eapply committed_write_ok; [books|done|reflexivity|eauto].
Qed.

Lemma decision_ok_after L L1 L' obs r :
  same_books L L1 → lg_owner_history L1 = lg_owner_history L →
  lg_committed L1 = lg_committed L → decision_ok L1 L' obs r → decision_ok L L' obs r.
Proof.
  intros Hb Hh Hc [Db Dh Df Ds Di Dc]. rewrite Hc in *. split; try done.
  - by etrans.
  - congruence.
Qed.

Lemma decide_held_ok L obs text rev pins held :
  lg_committed L !! occurrence obs = Some held →
  let '(L', r) := decide_held L obs text rev pins held in
  decision_ok L L' obs r ∧ lg_manual_edits L' = lg_manual_edits L.
Proof.
  intros Hh. unfold decide_held.
  destruct (String.eqb _ _).
  { split; [|done]. by apply no_write_ok. }
  destruct (_ || _ || _).
  - destruct (_ && _).
    { split; [|by autorewrite with ledger].
      apply no_write_ok; autorewrite with ledger; auto with s2p. }
    destruct pins.
    + split; [|simpl; by autorewrite with ledger].
      pose proof (note_covered_span_books L (occurrence obs)) as Hb.
      eapply committed_write_ok; simpl; autorewrite with ledger;
        [destruct Hb; split; done|done|reflexivity|eauto].
    + pose proof (revise_label_ok (note_covered_span L (occurrence obs)) obs text held) as H.
      destruct (revise_label _ _ _ _) as [L' r].
      destruct H as [H1 H2]; [by autorewrite with ledger|].
      autorewrite with ledger in H2. split; [|done].
      eapply decision_ok_after; [apply note_covered_span_books|..|exact H1];
        by autorewrite with ledger.
  - split; [|destruct (_ && _); by autorewrite with ledger].
    apply no_write_ok; try done; destruct (_ && _); autorewrite with ledger; auto with s2p; done.
Qed.

Lemma decide_new_ok L obs text pins :
  lg_committed L !! occurrence obs = None →
  let '(L', r) := decide_new L obs text pins in
  decision_ok L L' obs r ∧ lg_manual_edits L' = lg_manual_edits L.
Proof.
  intros Hh. unfold decide_new.
  destruct (_ && _); [split; [|done]; by apply no_write_ok|].
  destruct (_ && _); [split; [|done]; by apply no_write_ok|].
  split; [|simpl; by autorewrite with ledger].
  pose proof (note_covered_span_books L (occurrence obs)) as Hb.
  eapply committed_write_ok; simpl; autorewrite with ledger;
    [destruct Hb; split; done|done|reflexivity|done].
Qed.

(** The contract of a whole decision, the answer noted included. *)
Record decided (L L' : AcousticLedger) (obs : ObservationIdentity) (text : string)
    (r : MutationReceipt) : Prop := {
  de_books : same_books L L';
  de_history : lg_owner_history L' = lg_owner_history (note_answered L obs);
  de_frame : ∀ o, o ≠ occurrence obs → lg_committed L' !! o = lg_committed L !! o;
  de_still : grants_mutation r = false → lg_committed L' = lg_committed L;
  de_insert : ∀ o, r = Insert o → o = occurrence obs ∧
    lg_committed L !! o = None ∧ is_Some (lg_committed L' !! o);
  de_correct : ∀ o p q, r = Correct o p q → o = occurrence obs ∧
    is_Some (lg_committed L !! o) ∧ is_Some (lg_committed L' !! o);
  de_edits : lg_manual_edits L `prefix_of` lg_manual_edits L';
  de_sealed : ∀ s, lg_seals L !! occurrence obs = Some s →
    (lg_committed L' = lg_committed L ∧ lg_manual_edits L' = lg_manual_edits L) ∨
    (producer obs = ManualHuman ∧ grants_mutation r = true ∧
     ∃ e, lg_manual_edits L' = lg_manual_edits L ++ [e] ∧ me_occurrence e = occurrence obs ∧
       me_supersedes_seal e = sl_receipt_id s ∧ me_label e = text ∧ me_observation e = obs ∧
       me_superseded_label e = default ""%string (text_of L (occurrence obs)))
}.

Lemma decided_of L L' obs text r :
  decision_ok (note_answered L obs) L' obs r →
  lg_manual_edits L `prefix_of` lg_manual_edits L' →
  (∀ s, lg_seals L !! occurrence obs = Some s →
    (lg_committed L' = lg_committed L ∧ lg_manual_edits L' = lg_manual_edits L) ∨
    (producer obs = ManualHuman ∧ grants_mutation r = true ∧
     ∃ e, lg_manual_edits L' = lg_manual_edits L ++ [e] ∧ me_occurrence e = occurrence obs ∧
       me_supersedes_seal e = sl_receipt_id s ∧ me_label e = text ∧ me_observation e = obs ∧
       me_superseded_label e = default ""%string (text_of L (occurrence obs)))) →
  decided L L' obs text r.
Proof. intros [] Hp Hs. split; try done. etrans; [apply note_answered_books|done]. Qed.

(** An unsealed branch owes nothing to the sealed clause. *)
Lemma decided_unsealed L L' obs text r :
  lg_seals L !! occurrence obs = None →
  decision_ok (note_answered L obs) L' obs r → lg_manual_edits L' = lg_manual_edits L →
  decided L L' obs text r.
Proof. intros Hn H He. apply decided_of; [done|by rewrite He|]. intros s. by rewrite Hn. Qed.

(** A branch that grants nothing keeps a sealed label. *)
Lemma decided_still L L' obs text r :
  decision_ok (note_answered L obs) L' obs r → grants_mutation r = false →
  lg_manual_edits L' = lg_manual_edits L → decided L L' obs text r.
Proof. intros H Hr He. apply decided_of; [done|by rewrite He|]. intros s _. left. split; [|done]. by apply H. Qed.

Lemma decide_observation_ok L obs text rev pins :
  let '(L', r) := decide_observation L obs text rev pins in decided L L' obs text r.
Proof.
  unfold decide_observation. set (L1 := note_answered L obs).
  destruct (negb (is_anchored (occurrence obs))).
  { apply decided_still; [|done|done]. by apply no_write_ok. }
  destruct (bool_decide (obs ∈ lg_answered L)).
  { apply decided_still; [|done|done]. by apply no_write_ok. }
  destruct (bool_decide (producer obs = Formatter)).
  { pose proof (decide_formatter_ok L1 obs text pins) as H.
    destruct (decide_formatter _ _ _ _). destruct H as (H1 & H2 & H3). by apply decided_still. }
  destruct (_ && _) eqn:Hseal; [apply decided_still; [by apply no_write_ok|done|done]|].
  change (lg_seals L1) with (lg_seals L) in *.
  assert (Hman : ∀ s, lg_seals L !! occurrence obs = Some s → producer obs = ManualHuman).
  { intros s Hs. rewrite Hs in Hseal. cbn in Hseal.
    apply negb_false_iff in Hseal. by zbool. }
  clear Hseal.
  destruct (lg_committed L1 !! occurrence obs) as [held|] eqn:Hh.
  - destruct (_ && _); [apply decided_still; [by apply no_write_ok|done|done]|].
    destruct (lg_seals L !! occurrence obs) as [s|] eqn:Hs;
      unfold fmap, option_fmap, option_map.
    + pose proof (decide_manual_edit_ok L1 obs text pins (sl_receipt_id s)) as H.
      destruct (decide_manual_edit _ _ _ _ _). destruct H as (H1 & H2 & H3).
      apply decided_of; [exact H1|destruct H3 as (e & -> & _); by apply prefix_app_r|].
      intros s' Hs'. simplify_eq. right. eauto.
    + destruct (_ && _); [apply decided_still; [by apply no_write_ok|done|done]|].
      pose proof (decide_held_ok L1 obs text rev pins held Hh) as H.
      destruct (decide_held _ _ _ _ _ _). destruct H. by apply decided_unsealed.
  - destruct (lg_seals L !! occurrence obs) as [s|] eqn:Hs;
      unfold fmap, option_fmap, option_map.
    + pose proof (decide_manual_edit_ok L1 obs text pins (sl_receipt_id s)) as H.
      destruct (decide_manual_edit _ _ _ _ _). destruct H as (H1 & H2 & H3).
      apply decided_of; [exact H1|destruct H3 as (e & -> & _); by apply prefix_app_r|].
      intros s' Hs'. simplify_eq. right. eauto.
    + destruct (_ && _); [apply decided_still; [by apply no_write_ok|done|done]|].
      pose proof (decide_new_ok L1 obs text pins Hh) as H.
      destruct (decide_new _ _ _ _). destruct H. by apply decided_unsealed.
Qed.

(* ------------------------------------------------------------------ *)
(** ** One counted receipt per offer *)

Lemma named_total_bump (m : gmap string Z) k :
  named_total (<[k := default 0 (m !! k) + 1]> m) = named_total m + 1.
Proof.
  unfold named_total. destruct (m !! k) as [n|] eqn:Hk; simpl.
  - rewrite <- insert_delete_eq.
    rewrite map_fold_insert_L by (apply lookup_delete_eq || (intros; lia)).
    rewrite (map_fold_delete_L (λ _ n acc, n + acc) 0 k n m) by (done || (intros; lia)). lia.
  - rewrite map_fold_insert_L by (done || (intros; lia)). lia.
Qed.

Definition history_of (L : AcousticLedger) (o : OccurrenceIdentity) : OwnerHistory :=
  default OwnerHistory_default (lg_owner_history L !! o).

(** The step every counted admission takes. *)
Record counted (L L' : AcousticLedger) (obs : ObservationIdentity) (r : MutationReceipt) : Prop := {
  co_offered : lg_offered_observations L' = lg_offered_observations L + 1;
  co_issued : lg_issued_receipts L' = lg_issued_receipts L + 1;
  co_tally : lg_delivered_observations L' + named_total (lg_named_refusals L') =
             lg_delivered_observations L + named_total (lg_named_refusals L) + 1;
  co_trail : ∃ e, lg_trail L' = lg_trail L ++ [e] ∧
    ld_ordinal e = Z.of_nat (length (lg_trail L)) ∧ ld_observation e = obs ∧ ld_decision e = r;
  co_history : history_of L' (occurrence obs) =
    (history_of (note_answered L obs) (occurrence obs))
      <| oh_trail_ordinals ::= λ l, l ++ [Z.of_nat (length (lg_trail L))] |>;
  co_others : ∀ o, o ≠ occurrence obs → lg_owner_history L' !! o = lg_owner_history L !! o;
  co_seals : lg_seals L' = lg_seals L;
  co_evidence : lg_evidence L' = lg_evidence L;
  co_terminal : lg_terminal_seals L' = lg_terminal_seals L
}.

Lemma note_clock_lie_books L obs d :
  same_books L (note_clock_lie L obs d).2 ∧
  lg_owner_history (note_clock_lie L obs d).2 = lg_owner_history L ∧
  lg_committed (note_clock_lie L obs d).2 = lg_committed L ∧
  lg_manual_edits (note_clock_lie L obs d).2 = lg_manual_edits L.
Proof.
  unfold note_clock_lie. destruct (lg_capture_rate_hz L) as [rate|]; [|done].
  destruct (rate <=? 0); [done|].
  assert (Hd : ∀ L', L' = L ∨ (∃ v, L' = L <| lg_clock_lie_occurrences := v |>) →
    same_books L L' ∧ lg_owner_history L' = lg_owner_history L ∧
    lg_committed L' = lg_committed L ∧ lg_manual_edits L' = lg_manual_edits L).
  { intros L' [->|(v & ->)]; [done|]. split; [books|done]. }
  apply Hd. right.
  destruct d; simpl; try (eexists; reflexivity);
    (destruct (lg_committed L !! occurrence obs); [destruct (_ && _)|]); simpl;
    eexists; reflexivity.
Qed.

(** Recording a decision over a ledger in which [n] observations of the
    occurrence are answered. *)
Lemma record_layer_decision_counted L0 L obs text r b :
  same_books (L0 <| lg_offered_observations ::= Z.add 1 |>) L →
  lg_owner_history L = lg_owner_history (note_answered L0 obs) →
  let L' := record_layer_decision L obs text r b in
  counted L0 L' obs r ∧ lg_committed L' = lg_committed L ∧
  lg_manual_edits L' = lg_manual_edits L ∧ lg_evidence L' = lg_evidence L ∧
  lg_frontiers L' = lg_frontiers L ∧ lg_terminal_seals L' = lg_terminal_seals L.
Proof.
  intros [] Hh. unfold record_layer_decision.
  pose proof (note_clock_lie_books L obs r) as (Hb & Hhist & Hc & He).
  destruct (note_clock_lie L obs r) as [lie L1]. simpl in Hb, Hhist, Hc, He.
  destruct Hb. simpl in *.
  assert (Hlen : length (lg_trail L) = length (lg_trail L0)) by congruence.
  split; [|destruct r; simpl; repeat split; congruence].
  split.
  - destruct r; simpl; rewrite sb_offered1, sb_offered0; lia.
  - destruct r; simpl; rewrite sb_issued1, sb_issued0; lia.
  - destruct r; simpl; rewrite ?named_total_bump, ?sb_named1, ?sb_named0, ?sb_delivered1,
      ?sb_delivered0; lia.
  - destruct r; simpl; rewrite sb_trail1, sb_trail0; (eexists; split; [reflexivity|done]).
  - destruct r; unfold history_of at 1; simpl; rewrite lookup_insert_eq; simpl;
      by rewrite Hhist, Hh, Hlen.
  - intros x Hx. destruct r; simpl; rewrite lookup_insert_ne by done; rewrite Hhist, Hh; simpl;
      by rewrite lookup_insert_ne.
  - destruct r; simpl; congruence.
  - destruct r; simpl; congruence.
  - destruct r; simpl; congruence.
Qed.

(** Retaining alternatives and settling debt write neither books nor labels. *)
Record side_step (L L' : AcousticLedger) : Prop := {
  ss_books : same_books L L';
  ss_history : lg_owner_history L' = lg_owner_history L;
  ss_committed : lg_committed L' = lg_committed L;
  ss_edits : lg_manual_edits L' = lg_manual_edits L
}.

#[local] Instance side_step_refl : Reflexive side_step.
Proof. by split. Qed.

#[local] Instance side_step_trans : Transitive side_step.
Proof. intros L1 L2 L3 [] []. split; [by etrans|congruence..]. Qed.

Lemma retain_side_step L obs c s w : side_step L (retain_slot_alternative L obs c s w).
Proof. split; autorewrite with ledger; auto with s2p. Qed.

Lemma retain_label_alternatives_side_step L obs text :
  side_step L (retain_label_alternatives L obs text).
Proof.
  unfold retain_label_alternatives. set (L1 := if _ && _ then _ else L).
  assert (H1 : side_step L L1) by (unfold L1; destruct (_ && _); [apply retain_side_step|done]).
  clearbody L1. etrans; [exact H1|]. destruct (_ && _); [|done]. case_bool_decide; [done|apply retain_side_step].
Qed.

Section debt.
Context {debt : WordDebt}.

Lemma reconcile_side_step L o : side_step L (reconcile_returned_word_debt L o).
Proof.
  unfold reconcile_returned_word_debt. destruct (_ && _); [done|].
  set (L1 := match unresolved_rejected_pins L o with [] => _ | _ => _ end).
  assert (H1 : side_step L L1) by (unfold L1; destruct (unresolved_rejected_pins L o); by split).
  clearbody L1. etrans; [exact H1|]. destruct (_ && _); by split.
Qed.

Lemma settle_text_debt_side_step L obs a d : side_step L (settle_text_debt L obs a d).
Proof.
  unfold settle_text_debt.
  set (L1 := if a && _ && _ then _ else _).
  assert (H1 : side_step L L1).
  { unfold L1. destruct (a && _ && _); [by split|].
    destruct (grants_mutation d); [apply reconcile_side_step|done]. }
  clearbody L1. etrans; [exact H1|]. destruct (_ && _); by split.
Qed.

(** What one whole-label admission does. *)
Record admitted (L L' : AcousticLedger) (obs : ObservationIdentity) (text : string)
    (r : MutationReceipt) : Prop := {
  ad_counted : counted L L' obs r;
  ad_frame : ∀ o, o ≠ occurrence obs → lg_committed L' !! o = lg_committed L !! o;
  ad_still : grants_mutation r = false → lg_committed L' = lg_committed L;
  ad_insert : ∀ o, r = Insert o → o = occurrence obs ∧
    lg_committed L !! o = None ∧ is_Some (lg_committed L' !! o);
  ad_correct : ∀ o p q, r = Correct o p q → o = occurrence obs ∧
    is_Some (lg_committed L !! o) ∧ is_Some (lg_committed L' !! o);
  ad_edits : lg_manual_edits L `prefix_of` lg_manual_edits L';
  ad_sealed : ∀ s, lg_seals L !! occurrence obs = Some s →
    (lg_committed L' = lg_committed L ∧ lg_manual_edits L' = lg_manual_edits L) ∨
    (producer obs = ManualHuman ∧ grants_mutation r = true ∧
     ∃ e, lg_manual_edits L' = lg_manual_edits L ++ [e] ∧ me_occurrence e = occurrence obs ∧
       me_supersedes_seal e = sl_receipt_id s ∧ me_label e = text ∧ me_observation e = obs ∧
       me_superseded_label e = default ""%string (text_of L (occurrence obs)))
}.

Lemma admit_ok L obs text :
  let '(L', r) := admit_observation L obs text in admitted L L' obs text r.
Proof.
  unfold admit_observation.
  set (L1 := L <| lg_offered_observations ::= Z.add 1 |>).
  pose proof (retain_label_alternatives_side_step L1 obs text) as [Hb2 Hh2 Hc2 He2].
  set (L2 := retain_label_alternatives L1 obs text) in *.
  pose proof (decide_observation_ok L2 obs text false false) as Hd.
  destruct (decide_observation L2 obs text false false) as [L3 r].
  set (L4 := if grants_mutation r then _ else L3).
  assert (H4 : side_step L3 L4) by (unfold L4; destruct (grants_mutation r); by split).
  destruct H4 as [Hb4 Hh4 Hc4 He4]. destruct Hd as [Hb3 Hh3 Hf3 Hs3 Hi3 Hr3 Hp3 Hm3].
  assert (Hb : same_books L1 L4) by (etrans; [exact Hb2|etrans; [exact Hb3|exact Hb4]]).
  assert (Hh : lg_owner_history L4 = lg_owner_history (note_answered L obs)).
  { rewrite Hh4, Hh3. unfold note_answered. simpl. by rewrite Hh2. }
  pose proof (record_layer_decision_counted L L4 obs text r None Hb Hh) as (Hk & Hc5 & He5 & _).
  set (L5 := record_layer_decision L4 obs text r None) in *.
  pose proof (settle_text_debt_side_step L5 obs (authorized_recovery L1 obs text) r)
    as [Hb6 Hh6 Hc6 He6].
  set (L6 := settle_text_debt L5 obs _ r) in *.
  assert (Hc : lg_committed L6 = lg_committed L3) by congruence.
  assert (Hc0 : lg_committed L2 = lg_committed L) by done.
  assert (He : lg_manual_edits L6 = lg_manual_edits L3) by congruence.
  assert (He0 : lg_manual_edits L2 = lg_manual_edits L) by done.
  assert (Hseal : lg_seals L2 = lg_seals L) by apply Hb2.
  split.
  - destruct Hk, Hb6. split; try congruence.
    + destruct co_trail0 as (e & ? & ?). exists e. split; [congruence|done].
    + unfold history_of at 1. rewrite Hh6. exact co_history0.
    + intros o Ho. rewrite Hh6. auto.
  - intros o Ho. rewrite Hc, <- Hc0. auto.
  - intros Hg. rewrite Hc, <- Hc0. auto.
  - intros o Ho. rewrite Hc, <- Hc0. auto.
  - intros o p q Ho. rewrite Hc, <- Hc0. eauto.
  - by rewrite He, <- He0.
  - rewrite Hc, He, <- Hc0, <- He0, <- Hseal. intros s Hs. unfold text_of. rewrite <- Hc0.
    exact (Hm3 s Hs).
Qed.

Lemma keep_visible_counted L obs text reason :
  let '(L', r) := keep_visible_unanchored L obs text reason in
  counted L L' obs r ∧ lg_committed L' = lg_committed L ∧ lg_manual_edits L' = lg_manual_edits L.
Proof.
  unfold keep_visible_unanchored.
  edestruct (record_layer_decision_counted L
    (note_answered (L <| lg_offered_observations ::= Z.add 1 |> <| lg_kept_visible ::= Z.add 1 |>) obs)
    obs text (KeepVisibleUnanchored (occurrence obs) text reason) None) as (H & Hc & He & _);
    [books|done|]. simpl in Hc, He. done.
Qed.

Lemma refuse_replacement_counted L obs text reason :
  let '(L', r) := refuse_replacement L obs text reason in
  counted L L' obs r ∧ lg_committed L' = lg_committed L ∧ lg_manual_edits L' = lg_manual_edits L.
Proof.
  unfold refuse_replacement. set (r := match _ !! _ with Some _ => _ | None => _ end).
  edestruct (record_layer_decision_counted L
    (note_answered (L <| lg_offered_observations ::= Z.add 1 |>) obs)
    obs text r None) as (H & Hc & He & _); [books|done|]. done.
Qed.

(* ------------------------------------------------------------------ *)
(** ** Runs *)

(** The admission calls a session makes on its ledger. *)
Inductive LedgerOp :=
  | OpAdmit (obs : ObservationIdentity) (text : string)
  | OpKeepVisible (obs : ObservationIdentity) (text : string) (reason : NoAuthorityReason)
  | OpRefuse (obs : ObservationIdentity) (text : string) (reason : RefuseReason)
  | OpReplayed (obs : ObservationIdentity) (text : string)
  | OpUnrecovered (o : OccurrenceIdentity)
  | OpRequireRecovery (o : OccurrenceIdentity)
  | OpBindRate (rate : Z).

(** Each call with the receipts it returns. *)
Definition ledger_op (L : AcousticLedger) (op : LedgerOp) : AcousticLedger * list MutationReceipt :=
  match op with
  | OpAdmit obs text => let '(L', r) := admit_observation L obs text in (L', [r])
  | OpKeepVisible obs text reason =>
      let '(L', r) := keep_visible_unanchored L obs text reason in (L', [r])
  | OpRefuse obs text reason => let '(L', r) := refuse_replacement L obs text reason in (L', [r])
  | OpReplayed obs text => let '(L', r) := refuse_replayed_range L obs text in (L', [r])
  | OpUnrecovered o => let '(L', r) := note_unrecovered_speech L o in (L', [r])
  | OpRequireRecovery o => ((require_text_recovery L o).2, [])
  | OpBindRate rate => (bind_capture_rate L rate, [])
  end.

Definition run_ops (L : AcousticLedger) (ops : list LedgerOp) : AcousticLedger :=
  fold_left (λ L op, (ledger_op L op).1) ops L.

(** Every op is one counted admission that touches labels as [admit] may, or
    leaves books, labels and history as they were. *)
Lemma ledger_op_cases L op :
  let L' := (ledger_op L op).1 in
  (∃ obs r, counted L L' obs r ∧
     ((lg_committed L' = lg_committed L ∧ lg_manual_edits L' = lg_manual_edits L) ∨
      ∃ text, op = OpAdmit obs text ∧ admitted L L' obs text r)) ∨
  side_step L L'.
Proof.
  destruct op as [obs text|obs text reason|obs text reason|obs text|o|o|rate]; unfold ledger_op.
  - left. pose proof (admit_ok L obs text) as H. destruct (admit_observation L obs text) as [L' r]. cbn [fst].
    exists obs, r. split; [apply H|]. right. by exists text.
  - left. pose proof (keep_visible_counted L obs text reason) as H.
    destruct (keep_visible_unanchored _ _ _ _) as [L' r]. exists obs, r. cbn [fst]. naive_solver.
  - left. pose proof (refuse_replacement_counted L obs text reason) as H.
    destruct (refuse_replacement _ _ _ _) as [L' r]. exists obs, r. cbn [fst]. naive_solver.
  - left. unfold refuse_replayed_range.
    pose proof (refuse_replacement_counted L obs text ReplayedRangeIdentity) as H.
    destruct (refuse_replacement _ _ _ _) as [L' r]. exists obs, r. cbn [fst]. naive_solver.
  - unfold note_unrecovered_speech. case_bool_decide; [by right|]. left.
    set (obs := mkObservation _ _ _ _).
    pose proof (refuse_replacement_counted L obs "" UnrecoveredSpeech) as H'.
    destruct (refuse_replacement _ _ _ _) as [L' r]. exists obs, r. cbn [fst]. naive_solver.
  - right. unfold require_text_recovery. destruct (_ || _); [done|by split].
  - right. unfold bind_capture_rate. destruct (0 <? rate); [by split|done].
Qed.

(** The accounts of a ledger: one stored receipt per offer, delivered or named,
    and each owner's answers are exactly its entries of the trail. *)
Record books_ok (L : AcousticLedger) : Prop := {
  bk_in_out : lg_offered_observations L = lg_issued_receipts L;
  bk_trail : lg_issued_receipts L = Z.of_nat (length (lg_trail L));
  bk_named : lg_issued_receipts L =
    lg_delivered_observations L + named_total (lg_named_refusals L);
  bk_owner : ∀ o, oh_answered (history_of L o) =
    Z.of_nat (length (oh_trail_ordinals (history_of L o)));
  bk_ordinal : ∀ i e, lg_trail L !! i = Some e → ld_ordinal e = Z.of_nat i ∧
    Z.of_nat i ∈ oh_trail_ordinals (history_of L (occurrence (ld_observation e)));
  bk_owned : ∀ o n, n ∈ oh_trail_ordinals (history_of L o) →
    ∃ i e, n = Z.of_nat i ∧ lg_trail L !! i = Some e ∧ occurrence (ld_observation e) = o
}.

Lemma books_ok_new : books_ok ledger_new.
Proof.
  split; try done; intros; unfold history_of in *; simpl in *; rewrite lookup_empty in *; try done.
  by apply not_elem_of_nil in H.
Qed.

Lemma counted_books_ok L L' obs r : counted L L' obs r → books_ok L → books_ok L'.
Proof.
  intros [Co Ci Ct (e & Ht & He1 & He2 & He3) Ch Cx _ _ _] [B1 B2 B3 B4 B5 B6].
  set (n := length (lg_trail L)) in *.
  assert (Hsame : ∀ o, o ≠ occurrence obs → history_of L' o = history_of L o).
  { intros o Ho. unfold history_of. by rewrite Cx. }
  assert (Hans : history_of L' (occurrence obs) = history_of L' (occurrence obs)) by done.
  assert (Hord : oh_trail_ordinals (history_of L' (occurrence obs)) =
    oh_trail_ordinals (history_of L (occurrence obs)) ++ [Z.of_nat n]).
  { rewrite Ch. unfold history_of, note_answered. simpl. by rewrite lookup_insert_eq. }
  assert (Hcount : oh_answered (history_of L' (occurrence obs)) =
    oh_answered (history_of L (occurrence obs)) + 1).
  { rewrite Ch. unfold history_of, note_answered. simpl. by rewrite lookup_insert_eq. }
  split.
  - lia.
  - rewrite Ht, length_app. simpl. fold n. lia.
  - lia.
  - intros o. destruct (decide (o = occurrence obs)) as [->|Ho].
    + rewrite Hcount, Hord, length_app, B4. simpl. lia.
    + rewrite Hsame by done. apply B4.
  - intros i e' Hi. rewrite Ht in Hi. apply lookup_app_Some in Hi as [Hi|[Hi1 Hi2]].
    + destruct (B5 _ _ Hi) as [? Hin]. split; [done|].
      destruct (decide (occurrence (ld_observation e') = occurrence obs)) as [Ho|Ho].
      * rewrite Ho, Hord in *. apply elem_of_app. by left.
      * by rewrite Hsame.
    + fold n in Hi1, Hi2. apply list_lookup_singleton_Some in Hi2 as [? <-].
      replace i with n by lia. split; [done|]. rewrite He2, Hord. apply elem_of_app. right.
      by apply list_elem_of_singleton.
  - intros o m Hm. destruct (decide (o = occurrence obs)) as [->|Ho].
    + rewrite Hord in Hm. apply elem_of_app in Hm as [Hm|Hm].
      * destruct (B6 _ _ Hm) as (i & e' & ? & ? & ?). exists i, e'. split; [done|]. split; [|done].
        rewrite Ht. by apply lookup_app_l_Some.
      * apply list_elem_of_singleton in Hm. exists n, e. split; [done|].
        split; [|by rewrite He2]. rewrite Ht. by apply list_lookup_middle.
    + rewrite Hsame in Hm by done. destruct (B6 _ _ Hm) as (i & e' & ? & ? & ?).
      exists i, e'. split; [done|]. split; [|done]. rewrite Ht. by apply lookup_app_l_Some.
Qed.

Lemma side_step_books_ok L L' : side_step L L' → books_ok L → books_ok L'.
Proof.
  intros [[] Hh _ _] []. assert (He : ∀ o, history_of L' o = history_of L o)
    by (intros o; unfold history_of; by rewrite Hh).
  split; try congruence; setoid_rewrite He; rewrite ?sb_trail0; try done.
Qed.

Lemma run_ops_books_ok L ops : books_ok L → books_ok (run_ops L ops).
Proof.
  revert L. induction ops as [|op ops IH]; intros L HL; simpl; [done|]. apply IH.
  destruct (ledger_op_cases L op) as [(obs & r & H & _)|H];
    [by eapply counted_books_ok|by eapply side_step_books_ok].
Qed.

(* ------------------------------------------------------------------ *)
(** ** Authority *)

(** How the holder of an occurrence may change. *)
Definition takes_over (L : AcousticLedger) (obs : ObservationIdentity)
    (c c' : CommittedObservation) : Prop :=
  c' = c ∨
  (co_producer c' = producer obs ∧ co_generation c' = generation obs ∧
   producer obs ≠ Formatter ∧
   ((is_Some (lg_seals L !! occurrence obs) ∧ producer obs = ManualHuman) ∨
    authority_rank (co_producer c) < authority_rank (producer obs) ∨
    (producer obs = co_producer c ∧ co_generation c < generation obs))).

Lemma revise_label_holder L obs text c :
  lg_committed L !! occurrence obs = Some c →
  let '(L', _) := revise_label L obs text c in
  ∃ c', lg_committed L' !! occurrence obs = Some c' ∧
    (c' = c ∨ (co_producer c' = producer obs ∧ co_generation c' = generation obs)).
Proof.
  intros Hc. unfold revise_label.
  assert (Hrep : ∃ c',
    <[occurrence obs := committed_from_label obs text]> (lg_committed L) !! occurrence obs = Some c' ∧
    (c' = c ∨ (co_producer c' = producer obs ∧ co_generation c' = generation obs))).
  { rewrite lookup_insert_eq. eexists. split; [done|]. by right. }
  destruct (co_slots c) as [|source [|]]; [done| |done].
  destruct (_ && _ && _); [|done].
  destruct (match preserve_group_content _ _ with inr _ => _ | inl _ => _ end)
    as [[label retained] reason].
  destruct retained; simpl; autorewrite with ledger.
  - exists c. auto.
  - rewrite lookup_insert_eq. eexists. split; [done|]. by right.
Qed.

Lemma decide_held_holder L obs text c :
  lg_committed L !! occurrence obs = Some c → producer obs ≠ Formatter →
  let '(L', _) := decide_held L obs text false false c in
  ∃ c', lg_committed L' !! occurrence obs = Some c' ∧ takes_over L obs c c'.
Proof.
  intros Hc Hf. unfold decide_held.
  destruct (String.eqb _ _); [exists c; split; [done|by left]|].
  destruct (_ || _ || false) eqn:Hauth.
  - destruct (negb false && _).
    { autorewrite with ledger. exists c. split; [done|by left]. }
    pose proof (revise_label_holder (note_covered_span L (occurrence obs)) obs text c) as H.
    destruct (revise_label _ _ _ _) as [L' r].
    destruct H as (c' & Hc' & Hh); [by autorewrite with ledger|].
    exists c'. split; [done|]. destruct Hh as [->|[? ?]]; [by left|right].
    split; [done|]. split; [done|]. split; [done|]. right.
    rewrite orb_false_r in Hauth. apply orb_true_iff in Hauth as [?|?]; zbool; auto.
  - clear Hauth. exists c. split; [|by left]. destruct (_ && _); by autorewrite with ledger.
Qed.

Lemma decide_manual_edit_holder L obs text pins seal c :
  lg_committed L !! occurrence obs = Some c →
  let '(L', _) := decide_manual_edit L obs text pins seal in
  ∃ c', lg_committed L' !! occurrence obs = Some c' ∧
    co_producer c' = producer obs ∧ co_generation c' = generation obs.
Proof.
  intros Hc. unfold decide_manual_edit. rewrite Hc.
  destruct pins; simpl; rewrite lookup_insert_eq; (eexists; split; [reflexivity|done]).
Qed.

Lemma decide_observation_holder L obs text c :
  lg_committed L !! occurrence obs = Some c →
  let '(L', _) := decide_observation L obs text false false in
  ∃ c', lg_committed L' !! occurrence obs = Some c' ∧ takes_over L obs c c'.
Proof.
  intros Hc. unfold decide_observation.
  set (L1 := note_answered L obs).
  assert (Hc1 : lg_committed L1 !! occurrence obs = Some c) by done.
  assert (Hkeep : ∃ c', lg_committed L1 !! occurrence obs = Some c' ∧ takes_over L obs c c').
  { exists c. split; [done|by left]. }
  destruct (negb (is_anchored (occurrence obs))); [done|].
  destruct (bool_decide (obs ∈ lg_answered L)); [done|].
  destruct (decide (producer obs = Formatter)) as [Hf|Hf].
  { rewrite bool_decide_true by done. unfold decide_formatter. cbn [negb].
    rewrite Hc1. destruct (_ && _); autorewrite with ledger; done. }
  rewrite bool_decide_false by done.
  destruct (_ && _) eqn:Hseal; [done|].
  change (lg_seals L1) with (lg_seals L) in *.
  assert (Hman : ∀ s, lg_seals L !! occurrence obs = Some s → producer obs = ManualHuman).
  { intros s Hs. rewrite Hs in Hseal. cbn in Hseal.
    apply negb_false_iff in Hseal. by zbool. }
  clear Hseal. rewrite Hc1. destruct (_ && _); [done|].
  destruct (lg_seals L !! occurrence obs) as [s|] eqn:Hs; unfold fmap, option_fmap, option_map in *.
  - pose proof (decide_manual_edit_holder L1 obs text false (sl_receipt_id s) c Hc1) as H.
    destruct (decide_manual_edit _ _ _ _ _). destruct H as (c' & ? & ? & ?). exists c'.
    split; [done|]. right. repeat (split; [done|]). left. rewrite Hs. split; [eauto|].
    by apply (Hman s).
  - destruct (_ && _); [done|].
    pose proof (decide_held_holder L1 obs text c Hc1 Hf) as H.
    destruct (decide_held _ _ _ _ _ _). done.
Qed.

Lemma admit_holder L obs text c :
  lg_committed L !! occurrence obs = Some c →
  ∃ c', lg_committed (admit_observation L obs text).1 !! occurrence obs = Some c' ∧ takes_over L obs c c'.
Proof.
  intros Hc. unfold admit_observation.
  set (L1 := L <| lg_offered_observations ::= Z.add 1 |>).
  pose proof (retain_label_alternatives_side_step L1 obs text) as [Hb2 Hh2 Hc2 _].
  set (L2 := retain_label_alternatives L1 obs text) in *.
  assert (Hc' : lg_committed L2 !! occurrence obs = Some c) by (by rewrite Hc2).
  pose proof (decide_observation_holder L2 obs text c Hc') as H.
  pose proof (decide_observation_ok L2 obs text false false) as Hd.
  destruct (decide_observation L2 obs text false false) as [L3 r].
  destruct H as (c' & Hl & Ht). cbn [fst]. exists c'.
  set (L4 := if grants_mutation r then _ else L3).
  assert (H4 : side_step L3 L4) by (unfold L4; destruct (grants_mutation r); by split).
  pose proof (settle_text_debt_side_step (record_layer_decision L4 obs text r None) obs
    (authorized_recovery L1 obs text) r) as [_ _ Hc6 _].
  rewrite Hc6.
  edestruct (record_layer_decision_counted L L4 obs text r None) as (_ & Hc5 & _).
  { etrans; [exact Hb2|]. etrans; [apply Hd|apply H4]. }
  { rewrite (ss_history _ _ H4), (de_history _ _ _ _ _ Hd). unfold note_answered. simpl.
    by rewrite Hh2. }
  rewrite Hc5, (ss_committed _ _ H4). split; [done|].
  unfold takes_over in *. by rewrite (sb_seals _ _ Hb2) in Ht.
Qed.

Lemma takes_over_rank L obs c c' :
  takes_over L obs c c' → authority_rank (co_producer c) <= authority_rank (co_producer c').
Proof.
  assert (Hmax : ∀ p, authority_rank p <= authority_rank ManualHuman) by (intros []; simpl; lia).
  intros [->|(Hp & _ & _ & H)]; [lia|]. rewrite Hp.
  destruct H as [[_ ->]|[?|[-> _]]]; [apply Hmax|lia|lia].
Qed.

(** on an unsealed occurrence a whole label takes over only with a higher
    authority rank, or in the holder's own lane with a newer generation. *)
Theorem correction_authority L obs text c
    (Hheld : lg_committed L !! occurrence obs = Some c)
    (Hopen : lg_seals L !! occurrence obs = None) :
  ∃ c', lg_committed (admit_observation L obs text).1 !! occurrence obs = Some c' ∧
    (c' = c ∨
     (co_producer c' = producer obs ∧ co_generation c' = generation obs ∧
      producer obs ≠ Formatter ∧
      (authority_rank (co_producer c) < authority_rank (producer obs) ∨
       (producer obs = co_producer c ∧ co_generation c < generation obs)))).
Proof.
  destruct (admit_holder L obs text c Hheld) as (c' & Hc & Ht). exists c'. split; [done|].
  destruct Ht as [?|(? & ? & ? & [[Hs _]|?])]; [auto| |auto].
  rewrite Hopen in Hs. by destruct Hs.
Qed.

Lemma ledger_op_rank L op o c :
  lg_committed L !! o = Some c →
  ∃ c', lg_committed (ledger_op L op).1 !! o = Some c' ∧
    authority_rank (co_producer c) <= authority_rank (co_producer c').
Proof.
  intros Hc.
  destruct (ledger_op_cases L op) as [(obs & r & _ & [[H _]|(text & -> & Ha)])|[_ _ H _]].
  - rewrite H. exists c. split; [done|lia].
  - destruct (decide (o = occurrence obs)) as [->|Ho].
    + destruct (admit_holder L obs text c Hc) as (c' & Hc' & Ht). exists c'.
      split; [|by eapply takes_over_rank]. unfold ledger_op.
      by destruct (admit_observation L obs text).
    + rewrite (ad_frame _ _ _ _ _ Ha) by done. exists c. split; [done|lia].
  - rewrite H. exists c. split; [done|lia].
Qed.

(** over any run of admissions an occurrence that is held stays held, and
    the authority rank of its holder never drops. *)
Theorem authority_never_drops L ops o c
    (Hheld : lg_committed L !! o = Some c) :
  ∃ c', lg_committed (run_ops L ops) !! o = Some c' ∧
    authority_rank (co_producer c) <= authority_rank (co_producer c').
Proof.
  revert L c Hheld. induction ops as [|op ops IH]; intros L c Hc; simpl.
  - exists c. split; [done|lia].
  - destruct (ledger_op_rank L op o c Hc) as (c1 & Hc1 & Hr1).
    destruct (IH _ _ Hc1) as (c2 & Hc2 & Hr2). exists c2. split; [done|lia].
Qed.

(* ------------------------------------------------------------------ *)
(** ** Conservation and seals over runs *)

(** C2: every run of admissions on a new ledger stores exactly one receipt per
    offer, in a trail whose ordinals are its positions; delivered and named
    receipts account for all of them, and each occurrence's answers are exactly
    its own entries of the trail. *)
Theorem conservation_law ops :
  let L := run_ops ledger_new ops in
  ct_observations_in (conservation L) = ct_receipts_out (conservation L) ∧
  residue (conservation L) = 0 ∧
  ct_receipts_out (conservation L) = Z.of_nat (length (lg_trail L)) ∧
  (∀ i e, lg_trail L !! i = Some e → ld_ordinal e = Z.of_nat i) ∧
  (∀ o, oh_answered (history_of L o) = Z.of_nat (length (oh_trail_ordinals (history_of L o)))) ∧
  (∀ o n, n ∈ oh_trail_ordinals (history_of L o) ↔
     ∃ i e, n = Z.of_nat i ∧ lg_trail L !! i = Some e ∧ occurrence (ld_observation e) = o).
Proof.
  intros L. destruct (run_ops_books_ok ledger_new ops books_ok_new) as [B1 B2 B3 B4 B5 B6].
  fold L in B1, B2, B3, B4, B5, B6. unfold residue, conservation. simpl.
  split; [done|]. split; [lia|]. split; [done|]. split; [by apply B5|]. split; [done|].
  intros o n. split; [apply B6|]. intros (i & e & -> & He & <-). by apply B5.
Qed.

Lemma ledger_op_sealed L op o s :
  lg_seals L !! o = Some s →
  let L' := (ledger_op L op).1 in
  lg_seals L' !! o = Some s ∧ lg_manual_edits L `prefix_of` lg_manual_edits L' ∧
  (lg_committed L' !! o = lg_committed L !! o ∨
   ∃ e, e ∈ lg_manual_edits L' ∧ me_occurrence e = o ∧ me_supersedes_seal e = sl_receipt_id s ∧
     producer (me_observation e) = ManualHuman ∧ op = OpAdmit (me_observation e) (me_label e)).
Proof.
  intros Hs. simpl.
  destruct (ledger_op_cases L op) as [(obs & r & Hk & [[H He]|(text & Hop & Ha)])|[Hb _ H He]].
  - rewrite (co_seals _ _ _ _ Hk), H, He. auto.
  - rewrite (co_seals _ _ _ _ Hk). split; [done|].
    destruct (decide (o = occurrence obs)) as [->|Ho].
    + destruct (ad_sealed _ _ _ _ _ Ha s Hs) as [[Hc He]|(Hp & _ & e & He & ? & ? & ? & Hob & _)].
      * rewrite He. split; [done|]. left. by rewrite Hc.
      * rewrite He. split; [by apply prefix_app_r|]. right. exists e. subst op.
        split; [apply elem_of_app; right; by apply list_elem_of_singleton|].
        split; [done|]. split; [done|]. subst. split; [|done]. done.
    + split; [apply Ha|]. left. by rewrite (ad_frame _ _ _ _ _ Ha).
  - rewrite (sb_seals _ _ Hb), H, He. auto.
Qed.

(** C3: a seal is never lifted, and the label of a sealed occurrence only ever
    changes through an admitted human edit, which leaves a receipt naming the
    seal it supersedes. *)
Theorem sealed_label_immutable L ops o s
    (Hsealed : lg_seals L !! o = Some s) :
  let L' := run_ops L ops in
  lg_seals L' !! o = Some s ∧
  (lg_committed L' !! o = lg_committed L !! o ∨
   ∃ e, e ∈ lg_manual_edits L' ∧ me_occurrence e = o ∧ me_supersedes_seal e = sl_receipt_id s ∧
     producer (me_observation e) = ManualHuman ∧ OpAdmit (me_observation e) (me_label e) ∈ ops).
Proof.
  assert (Hgen : ∀ ops L, lg_seals L !! o = Some s →
    lg_seals (run_ops L ops) !! o = Some s ∧
    lg_manual_edits L `prefix_of` lg_manual_edits (run_ops L ops) ∧
    (lg_committed (run_ops L ops) !! o = lg_committed L !! o ∨
     ∃ e, e ∈ lg_manual_edits (run_ops L ops) ∧ me_occurrence e = o ∧
       me_supersedes_seal e = sl_receipt_id s ∧
       producer (me_observation e) = ManualHuman ∧
       OpAdmit (me_observation e) (me_label e) ∈ ops)).
  { clear. intros ops. induction ops as [|op ops IH]; intros L Hs; simpl; [auto|].
    destruct (ledger_op_sealed L op o s Hs) as (Hs1 & Hp1 & Hc1).
    destruct (IH _ Hs1) as (Hs2 & Hp2 & Hc2).
    split; [done|]. split; [by etrans|].
    destruct Hc2 as [Hc2|(e & ? & ? & ? & ? & ?)];
      [|right; exists e; repeat (split; [done|]); by right].
    destruct Hc1 as [Hc1|(e & Hin & ? & ? & ? & ->)]; [left; congruence|right].
    exists e. split; [|repeat (split; [done|]); by left].
    destruct Hp2 as [l Hl]. rewrite Hl. apply elem_of_app. by left. }
  destruct (Hgen ops L Hsealed) as (? & _ & ?). done.
Qed.
End debt.
End facts.

(* ------------------------------------------------------------------ *)
(** ** The slot index *)

(** The positions kept for an occurrence are, in order, those of the receipts
    with an output on it. *)
Definition touches (o : OccurrenceIdentity) (r : SlotOperationReceipt) : bool :=
  existsb (λ output, bool_decide (occurrence (ws_observation output) = o)) (so_outputs r).

Fixpoint positions_from (k : nat) (o : OccurrenceIdentity) (l : list SlotOperationReceipt) : list nat :=
  match l with
  | [] => []
  | r :: l' => if touches o r then k :: positions_from (S k) o l' else positions_from (S k) o l'
  end.

Definition index_ok (L : AcousticLedger) : Prop :=
  ∀ o, default [] (lg_slot_operation_index L !! o) = positions_from 0 o (lg_slot_operations L).

Lemma positions_from_app k o l1 l2 :
  positions_from k o (l1 ++ l2) = positions_from k o l1 ++ positions_from (k + length l1) o l2.
Proof.
  revert k. induction l1 as [|r l1 IH]; intros k; simpl; [by rewrite Nat.add_0_r|].
  rewrite IH. replace (k + S (length l1))%nat with (S k + length l1)%nat by lia.
  by destruct (touches o r).
Qed.

Lemma output_occurrences_spec outputs o :
  NoDup (output_occurrences outputs) ∧
  (o ∈ output_occurrences outputs ↔
   existsb (λ output, bool_decide (occurrence (ws_observation output) = o)) outputs = true).
Proof.
  unfold output_occurrences.
  assert (Hg : ∀ outputs seen, NoDup seen →
    let l := foldl (λ seen output, let o := occurrence (ws_observation output) in
      if bool_decide (o ∈ seen) then seen else seen ++ [o]) seen outputs in
    NoDup l ∧ (o ∈ l ↔ o ∈ seen ∨
      existsb (λ output, bool_decide (occurrence (ws_observation output) = o)) outputs = true)).
  { clear. induction outputs as [|w outputs IH]; intros seen Hn; simpl.
    { split; [done|]. naive_solver. }
    case_bool_decide as Hin.
    - destruct (IH seen Hn) as [H1 H2]. split; [done|]. rewrite H2. case_bool_decide; simpl; naive_solver.
    - destruct (IH (seen ++ [occurrence (ws_observation w)])) as [H1 H2].
      { apply NoDup_app. split; [done|]. split; [|apply NoDup_singleton].
        intros x Hx Hx'. apply list_elem_of_singleton in Hx'. by subst. }
      split; [done|]. rewrite H2, elem_of_app, list_elem_of_singleton.
      case_bool_decide; simpl; naive_solver. }
  destruct (Hg outputs [] ltac:(constructor)) as [H1 H2]. split; [done|]. rewrite H2.
  split; [intros [H|H]; [by apply not_elem_of_nil in H|done]|auto].
Qed.

Lemma index_slot_outputs_lookup i os m o :
  NoDup os →
  default [] (index_slot_outputs i os m !! o) =
  default [] (m !! o) ++ (if bool_decide (o ∈ os) then [i] else []).
Proof.
  unfold index_slot_outputs. revert m. induction os as [|o' os IH]; intros m Hn; simpl.
  - by rewrite app_nil_r.
  - apply NoDup_cons in Hn as [Ho' Hn]. rewrite IH by done.
    destruct (decide (o' = o)) as [->|Hne].
    + rewrite lookup_insert_eq. simpl. rewrite (bool_decide_false (o ∈ os)) by done.
      rewrite bool_decide_true by (by left). by rewrite app_nil_r.
    + rewrite lookup_insert_ne by done. f_equal.
      assert (o ∈ o' :: os ↔ o ∈ os) as Hiff by (rewrite elem_of_cons; naive_solver).
      by rewrite (bool_decide_ext _ _ Hiff).
Qed.

Lemma record_slot_operation_index_ok L r : index_ok L → index_ok (record_slot_operation L r).
Proof.
  intros Hok o. unfold record_slot_operation. simpl.
  destruct (output_occurrences_spec (so_outputs r) o) as [Hn Hin].
  rewrite index_slot_outputs_lookup by done. rewrite Hok, positions_from_app. f_equal.
  simpl. unfold touches. case_bool_decide as Ho.
  - apply Hin in Ho. by rewrite Ho.
  - destruct (existsb _ _); [|done]. destruct Ho. by apply Hin.
Qed.

Lemma receipt_source_ranges_touches r slot x :
  receipt_source_ranges r slot = Some x → touches (occurrence (ws_observation slot)) r = true.
Proof.
  unfold receipt_source_ranges, touches. destruct (existsb _ (so_outputs r)) eqn:He; [|done].
  intros _. apply existsb_true in He as (w & Hw & He). zbool. subst w.
  apply existsb_true. exists slot. split; [done|]. by rewrite bool_decide_true.
Qed.

Lemma find_map_app {A B} (f : A → option B) l1 l2 :
  find_map f (l1 ++ l2) = match find_map f l1 with Some y => Some y | None => find_map f l2 end.
Proof. induction l1 as [|x l1 IH]; simpl; [done|]. by destruct (f x). Qed.

Lemma find_map_positions (g : SlotOperationReceipt → option (list OccurrenceIdentity)) o l :
  (∀ r x, g r = Some x → touches o r = true) →
  ∀ (all : list SlotOperationReceipt) k, (∀ i, (i < length l)%nat → all !! (k + i)%nat = l !! i) →
  find_map (λ p, r ← all !! p; g r) (rev (positions_from k o l)) = find_map g (rev l).
Proof.
  intros Hg all. induction l as [|r l IH] using rev_ind; intros k Hall; simpl; [done|].
  rewrite positions_from_app, !rev_app_distr. simpl.
  rewrite length_app in Hall. simpl in Hall.
  assert (IHl : find_map (λ p, r ← all !! p; g r) (rev (positions_from k o l)) = find_map g (rev l)).
  { apply IH. intros i Hi. rewrite Hall by lia. by rewrite lookup_app_l. }
  assert (Hr : all !! (k + length l)%nat = Some r).
  { rewrite Hall by lia. by rewrite list_lookup_middle. }
  destruct (touches o r) eqn:Ht; simpl.
  - rewrite Hr. simpl. by destruct (g r).
  - destruct (g r) as [x|] eqn:Hx; [|done]. apply Hg in Hx. congruence.
Qed.

(** for every history of slot operations the per-occurrence index answers
    the source ranges of a slot exactly as a reverse scan of the whole history. *)
Theorem slot_index_equivalence receipts slot :
  let L := fold_left record_slot_operation receipts ledger_new in
  slot_source_ranges_indexed L slot = slot_source_ranges_by_scan L slot.
Proof.
  intros L. assert (Hok : index_ok L).
  { unfold L. clear L. assert (H0 : index_ok ledger_new) by done. revert H0.
    generalize ledger_new. induction receipts as [|r rs IH]; intros L HL; simpl; [done|].
    by apply IH, record_slot_operation_index_ok. }
  unfold slot_source_ranges_indexed, slot_source_ranges_by_scan. rewrite Hok. f_equal.
  apply (find_map_positions (λ receipt, receipt_source_ranges receipt slot)); [|done].
  intros r x. apply receipt_source_ranges_touches.
Qed.

(* ------------------------------------------------------------------ *)
(** ** Witnesses *)

#[local] Existing Instance ascii_tables.
#[local] Existing Instance no_word_evidence.

Definition ex_obs (p : ObservationProducer) (g : Z) (a b : Z) : ObservationIdentity :=
  mkObservation p 0 g (mkOccurrence "s" 1 a b).

(** Apple, then Whisper on the same range, then a repeat, then silence. *)
Definition ex_ops : list LedgerOp :=
  [OpBindRate 16000; OpAdmit (ex_obs Apple 0 0 16000) "dzien dobry";
   OpAdmit (ex_obs Whisper 0 0 16000) "Dzien dobry."; OpAdmit (ex_obs Whisper 0 0 16000) "x";
   OpAdmit (ex_obs Apple 1 8000 24000) "overlap"; OpUnrecovered (mkOccurrence "s" 1 30000 32000)].

Example ex_run :
  let L := run_ops ledger_new ex_ops in
  (text_of L (mkOccurrence "s" 1 0 16000),
   map (λ e, receipt_as_str (ld_decision e)) (lg_trail L), residue (conservation L))
  = (Some "Dzien dobry."%string,
     ["insert"; "correct"; "refuse"; "keep_visible_unanchored"; "refuse"]%string, 0).
Proof. vm_compute. reflexivity. Qed.

Definition ex_open : AcousticLedger :=
  run_ops ledger_new [OpAdmit (ex_obs Apple 0 0 16000) "dzien dobry"].

Definition ex_apple_holds : CommittedObservation :=
  committed_from_label (ex_obs Apple 0 0 16000) "dzien dobry".

Lemma correction_authority_witness :
  ∃ c', lg_committed (admit_observation ex_open (ex_obs Whisper 0 0 16000) "Dzien dobry.").1
          !! mkOccurrence "s" 1 0 16000 = Some c' ∧ co_producer c' = Whisper.
Proof.
  destruct (correction_authority ex_open (ex_obs Whisper 0 0 16000) "Dzien dobry." ex_apple_holds)
    as (c' & H & _).
  - vm_compute. reflexivity.
  - vm_compute. reflexivity.
  - exists c'. split; [exact H|]. vm_compute in H. injection H as <-. reflexivity.
Defined.

Lemma authority_never_drops_witness :
  ∃ c', lg_committed (run_ops ex_open ex_ops) !! mkOccurrence "s" 1 0 16000 = Some c' ∧
    0 <= authority_rank (co_producer c').
Proof.
  apply (authority_never_drops ex_open ex_ops (mkOccurrence "s" 1 0 16000) ex_apple_holds).
  vm_compute. reflexivity.
Defined.

Definition ex_seal : LedgerSealReceipt :=
  mkSeal [] ScopeOccurrence "seal-1" (mkOccurrence "s" 1 0 16000) [mkOccurrence "s" 1 0 16000] []
    16000 (mkFrontier (mkOccurrence "s" 1 0 16000) ∅ ∅) [].

Definition ex_sealed : AcousticLedger :=
  ex_open <| lg_seals := {[ mkOccurrence "s" 1 0 16000 := ex_seal ]} |>.

Definition ex_human : ObservationIdentity := ex_obs ManualHuman 0 0 16000.

Lemma sealed_label_immutable_witness :
  let L' := run_ops ex_sealed [OpAdmit (ex_obs Whisper 0 0 16000) "no"; OpAdmit ex_human "yes"] in
  lg_seals L' !! mkOccurrence "s" 1 0 16000 = Some ex_seal ∧
  text_of L' (mkOccurrence "s" 1 0 16000) = Some "yes"%string.
Proof.
  destruct (sealed_label_immutable ex_sealed
    [OpAdmit (ex_obs Whisper 0 0 16000) "no"; OpAdmit ex_human "yes"]
    (mkOccurrence "s" 1 0 16000) ex_seal) as [H _].
  - vm_compute. reflexivity.
  - split; [exact H|]. vm_compute. reflexivity.
Defined.
