(* ===== verification/LedgerSeal.v ===== *)
(** LedgerSeal: when an occurrence, and a capture, is final
    (core/pipeline/acoustic_ledger.rs, the observation frontier, [mint_seal],
    [seal], [seal_terminal], [terminal_finality] and the authentication of
    seals; word_adjudication.rs for the lexical part of a seal).

    The frontier of a range is closed when every scheduled producer has
    returned.  A seal needs a closed frontier, a closed VAD boundary, a label,
    no text debt and a receipt for every answer; once minted it is never
    replaced. *)

From S2P Require Import Prelude.
From S2P Require Import Text.
From S2P Require Import GroupAlignment.
From S2P Require Import LedgerIdentity.
From S2P Require Import LedgerSpans.
From S2P Require Import CaptureEvidence.
From S2P Require Import LedgerState.
From S2P Require Import LedgerCoverage.
From S2P Require Import LedgerDecision.
#[local] Open Scope Z_scope.

(* ------------------------------------------------------------------ *)
(** ** Observation frontier *)

Definition frontier_scheduled (coverage : OccurrenceIdentity) (producers : list ObservationProducer)
    : ObservationFrontier :=
  mkFrontier coverage (list_to_set producers) ∅.

(** [schedule]: whether the producer was newly inserted. *)
Definition frontier_schedule (f : ObservationFrontier) (p : ObservationProducer)
    : bool * ObservationFrontier :=
  (bool_decide (p ∉ fr_scheduled f), f <| fr_scheduled ::= union {[ p ]} |>).

Definition record_return (f : ObservationFrontier) (p : ObservationProducer) : ObservationFrontier :=
  if bool_decide (p ∈ fr_scheduled f) then f <| fr_returned ::= union {[ p ]} |> else f.

(** In declaration order, the order of the set. *)
Definition open_producers (f : ObservationFrontier) : list ObservationProducer :=
  List.filter (λ p, bool_decide (p ∈ fr_scheduled f ∖ fr_returned f)) all_producers.

Definition is_closed (f : ObservationFrontier) : bool :=
  bool_decide (fr_scheduled f ⊆ fr_returned f).

Definition frontier_as_str (f : ObservationFrontier) : string :=
  if is_closed f then "closed" else "open".

Definition schedule_frontier (L : AcousticLedger) (coverage : OccurrenceIdentity)
    (producers : list ObservationProducer) : AcousticLedger :=
  L <| lg_frontiers ::= <[coverage := frontier_scheduled coverage producers]> |>.

Definition schedule_observer (L : AcousticLedger) (coverage : OccurrenceIdentity)
    (p : ObservationProducer) : bool * AcousticLedger :=
  if bool_decide (is_Some (lg_seals L !! coverage)) then (false, L)
  else
    match lg_frontiers L !! coverage with
    | None => (false, L)
    | Some f =>
        if is_closed f then (false, L)
        else let '(scheduled, f') := frontier_schedule f p in
             (scheduled, L <| lg_frontiers ::= <[coverage := f']> |>)
    end.

(** No component of the owner is in lexical conflict. *)
Definition word_labels_settled (L : AcousticLedger) (owner : OccurrenceIdentity) : bool :=
  negb (existsb (λ c, bool_decide (wa_owner c = owner) && wa_conflict c)
          (was_components (lg_word_adjudication L))).

Definition label_missing (L : AcousticLedger) (o : OccurrenceIdentity) : bool :=
  match text_of L o with None => true | Some text => trim_is_empty text end.

Definition schedule_settled_formatter (L : AcousticLedger) (coverage : OccurrenceIdentity)
    : bool * AcousticLedger :=
  if is_sealed L coverage || text_recovery_pending L coverage
     || negb (word_labels_settled L coverage) || label_missing L coverage
  then (false, L)
  else
    match lg_frontiers L !! coverage with
    | None => (false, L)
    | Some f =>
        if negb (is_closed f) then (false, L)
        else let '(scheduled, f') := frontier_schedule f Formatter in
             (scheduled, L <| lg_frontiers ::= <[coverage := f']> |>)
    end.

Definition schedule_late_apple_label (L : AcousticLedger) (obs : ObservationIdentity)
    (text : string) : bool * AcousticLedger :=
  let o := occurrence obs in
  if negb (bool_decide (producer obs = Apple)) || trim_is_empty text
     || negb (match serial_of L o with Some s => vad_closed s | None => false end)
     || is_sealed L o || bool_decide (is_Some (lg_committed L !! o))
     || bool_decide (obs ∈ lg_answered L)
  then (false, L)
  else
    match lg_frontiers L !! o with
    | None => (false, L)
    | Some f =>
        if negb (is_closed f) || negb (bool_decide (Whisper ∈ fr_returned f))
           || bool_decide (Apple ∈ fr_scheduled f) || bool_decide (Lexicon ∈ fr_scheduled f)
        then (false, L)
        else
          let f' := (frontier_schedule (frontier_schedule f Apple).2 Lexicon).2 in
          (true, L <| lg_frontiers ::= <[o := f']> |>)
    end.

Definition note_frontier_return {debt : WordDebt} (L : AcousticLedger)
    (coverage : OccurrenceIdentity) (p : ObservationProducer) : bool * AcousticLedger :=
  let '(closed, L1) :=
    match lg_frontiers L !! coverage with
    | Some f =>
        let f' := record_return f p in
        (negb (is_closed f) && is_closed f', L <| lg_frontiers ::= <[coverage := f']> |>)
    | None => (false, L)
    end in
  (closed, reconcile_returned_word_debt L1 coverage).

(* ------------------------------------------------------------------ *)
(** ** Lexical finality *)

Definition word_trials_pending (L : AcousticLedger) (owner : OccurrenceIdentity) : bool :=
  existsb (λ c, bool_decide (wa_owner c = owner) && wa_conflict c
                && (negb (wa_attempted c) || bool_decide (is_Some (wa_trial c))))
    (was_components (lg_word_adjudication L)).

Definition has_deferred_anchor_words (L : AcousticLedger) (owner : OccurrenceIdentity) : bool :=
  existsb (λ held, bool_decide (dw_owner held = owner))
    (was_deferred_anchor_words (lg_word_adjudication L)).

Definition word_finality (L : AcousticLedger) (owner : OccurrenceIdentity) : list WordFinality :=
  map (λ c, mkWordFinality (wa_targets c) (wa_incumbent c) (wa_conflict c) (wa_last_trial c))
    (List.filter (λ c, bool_decide (wa_owner c = owner))
       (was_components (lg_word_adjudication L)))
  ++ map (λ held, mkWordFinality [dw_target held] (dw_hypothesis held) true None)
       (List.filter (λ held, bool_decide (dw_owner held = owner))
          (was_deferred_anchor_words (lg_word_adjudication L))).

Definition close_word_components (L : AcousticLedger) (owner : OccurrenceIdentity)
    : AcousticLedger :=
  L <| lg_word_adjudication ::= λ w,
    let w1 := w <| was_components ::=
                     List.filter (λ c, negb (bool_decide (wa_owner c = owner))) |> in
    let w2 := if was_retain_closed_history w1 then w1
              else w1 <| was_choices ::=
                     List.filter (λ c, negb (bool_decide (occurrence (wch_observation c) = owner))) |> in
    match was_input w2 with
    | Some input =>
        if bool_decide (occurrence (wei_observation input) = owner)
        then w2 <| was_input := None |> else w2
    | None => w2
    end |>.

(* ------------------------------------------------------------------ *)
(** ** Seals *)

Definition seal_id (scope : LedgerSealScope) (coverage : OccurrenceIdentity) : string :=
  ("seal-" +:+ scope_as_str scope +:+ "-" +:+ session coverage +:+ "-"
   +:+ show_u64 (capture_epoch coverage) +:+ "-" +:+ show_u64 (sample_start coverage)
   +:+ "-" +:+ show_u64 (sample_end coverage))%string.

Definition mint_seal (L : AcousticLedger) (o : OccurrenceIdentity)
    : SealRefusal + LedgerSealReceipt :=
  if text_recovery_pending L o then inl TextRecoveryPending
  else if word_trials_pending L o || has_deferred_anchor_words L o then inl FrontierOpen
  else
    match lg_evidence L !! o with
    | None => inl NotQualified
    | Some serial =>
      if negb (vad_closed serial) then inl VadDidNotClose
      else
        match lg_frontiers L !! o with
        | None => inl FrontierUnknown
        | Some frontier =>
          if negb (is_closed frontier) then inl FrontierOpen
          else if label_missing L o then inl LabelMissing
          else
            let owner := lg_owner_history L !! o in
            let answered := match owner with Some h => oh_answered h | None => 0 end in
            let ordinals := match owner with Some h => oh_trail_ordinals h | None => [] end in
            if negb (Z.of_nat (length ordinals) =? answered) then inl ObservationsWithoutReceipts
            else
              inr (mkSeal (word_finality L o) ScopeOccurrence (seal_id ScopeOccurrence o) o [o]
                     [serial] (default (sample_end o) (ser_vad_close_sample serial)) frontier
                     ordinals)
        end
    end.

(** [seal]: the receipt held, minted on the first call. *)
Definition seal (L : AcousticLedger) (o : OccurrenceIdentity)
    : AcousticLedger * (SealRefusal + LedgerSealReceipt) :=
  match lg_seals L !! o with
  | Some held => (L, inr held)
  | None =>
      match mint_seal L o with
      | inl refusal => (L, inl refusal)
      | inr receipt =>
          (close_word_components
             (L <| lg_seals ::= <[o := receipt]> |>
                <| lg_unsealed_qualified ::= λ s, s ∖ {[ o ]} |>) o,
           inr receipt)
      end
  end.

(** [for occurrence in &in_epoch { self.seal(occurrence)?; }] *)
Fixpoint seal_each (L : AcousticLedger) (l : list OccurrenceIdentity)
    : AcousticLedger * option SealRefusal :=
  match l with
  | [] => (L, None)
  | o :: l' =>
      match seal L o with
      | (L', inl refusal) => (L', Some refusal)
      | (L', inr _) => seal_each L' l'
      end
  end.

(** The seals of the epoch, in order; [None] when one is missing. *)
Fixpoint collect_seals (L : AcousticLedger) (l : list OccurrenceIdentity)
    : option (list LedgerSealReceipt) :=
  match l with
  | [] => Some []
  | o :: l' => s ← lg_seals L !! o; rest ← collect_seals L l'; Some (s :: rest)
  end.

(** Receipts compare field by field; the floats of a serial compare as numbers
    in the code and as bit patterns here, which agree on the finite evidence a
    serial is minted from up to the sign of zero. *)
#[global] Instance LedgerSealReceipt_eq_dec : EqDecision LedgerSealReceipt.
Proof. solve_decision. Defined.

(** [now] is the wall clock in milliseconds, when it reads one. *)
Definition seal_terminal (L : AcousticLedger) (now : option Z) (sess : string) (epoch : Z)
    : AcousticLedger * (SealRefusal + LedgerSealReceipt) :=
  if negb (bool_decide (pending_text_recoveries L sess epoch = []))
  then (L, inl TextRecoveryPending)
  else if match lg_latest_seal_coverage L with
          | Some c => String.eqb (cr_session_id c) sess && (cr_capture_epoch c =? epoch)
                      && (bool_decide (cr_status c = Incomplete)
                          || bool_decide (is_Some (unavailable_reason (cr_status c))))
          | None => false
          end
  then (L, inl CoverageIncomplete)
  else
    let in_epoch := List.filter (in_capture sess epoch) (btree_keys (lg_evidence L)) in
    match in_epoch with
    | [] => (L, inl NotQualified)
    | first :: _ =>
      match seal_each L in_epoch with
      | (L1, Some refusal) => (L1, inl refusal)
      | (L1, None) =>
        match collect_seals L1 in_epoch with
        | None => (L1, inl OccurrenceStillOpen)
        | Some seals =>
          let last_o := default first (last in_epoch) in
          let coverage := mkOccurrence sess epoch (sample_start first) (sample_end last_o) in
          let receipt :=
            mkSeal (flat_map sl_word_finality seals) ScopeTerminal
              (seal_id ScopeTerminal coverage) coverage in_epoch (flat_map sl_serials seals)
              (fold_left Z.max (map sl_vad_close_sample seals) 0)
              (frontier_scheduled coverage []) (flat_map sl_layer_trail_ordinals seals) in
          if bool_decide (receipt ∈ lg_terminal_seals L1) then (L1, inr receipt)
          else
            (L1 <| lg_terminal_seals ::= λ l, l ++ [receipt] |>
                <| lg_transcript_seal_timestamp_ms :=
                     match lg_transcript_seal_timestamp_ms L1 with
                     | Some t => Some t
                     | None => now
                     end |>,
             inr receipt)
        end
      end
    end.

Definition seal_of (L : AcousticLedger) (o : OccurrenceIdentity) : option LedgerSealReceipt :=
  lg_seals L !! o.

Definition authenticates_seal (L : AcousticLedger) (receipt : LedgerSealReceipt) : bool :=
  match sl_scope receipt with
  | ScopeOccurrence => bool_decide (seal_of L (sl_coverage receipt) = Some receipt)
  | ScopeTerminal => bool_decide (receipt ∈ lg_terminal_seals L)
  end.

Definition authenticates_seal_reference (L : AcousticLedger) (o : OccurrenceIdentity) (id : string)
    : bool :=
  match seal_of L o with Some s => String.eqb (sl_receipt_id s) id | None => false end
  || existsb (λ s, String.eqb (sl_receipt_id s) id && bool_decide (o ∈ sl_sealed_occurrences s))
       (lg_terminal_seals L).

(** Decisions after the seal, by position in the trail. *)
Definition layer_trail_for (L : AcousticLedger) (o : OccurrenceIdentity) : list LayerDecisionReceipt :=
  match lg_owner_history L !! o with
  | None => []
  | Some h => omap (λ n, lg_trail L !! Z.to_nat n) (oh_trail_ordinals h)
  end.

Definition post_seal_decisions (L : AcousticLedger) (o : OccurrenceIdentity)
    : list LayerDecisionReceipt :=
  match lg_seals L !! o with
  | None => []
  | Some s =>
      List.filter (λ e, negb (bool_decide (ld_ordinal e ∈ sl_layer_trail_ordinals s)))
        (layer_trail_for L o)
  end.

(* ------------------------------------------------------------------ *)
(** ** Finality of a capture *)

Inductive TerminalFinalityRefusalReason :=
  | CoverageRefused | FinalityTextRecoveryPending | TerminalReceiptMissing.

Inductive TerminalFinality :=
  | FinalSealed (receipt : LedgerSealReceipt)
  | ObservedSilence (receipt : SealCoverageReceipt)
  | FinalRefused (sess : string) (epoch : Z) (reason : TerminalFinalityRefusalReason)
      (coverage : option SealCoverageReceipt).

(** The latest coverage receipt, when it is about this capture. *)
Definition coverage_of (L : AcousticLedger) (sess : string) (epoch : Z)
    : option SealCoverageReceipt :=
  match lg_latest_seal_coverage L with
  | Some c => if String.eqb (cr_session_id c) sess && (cr_capture_epoch c =? epoch)
              then Some c else None
  | None => None
  end.

(** Qualified and committed ranges of the capture. *)
Definition capture_ranges (L : AcousticLedger) (sess : string) (epoch : Z)
    : list OccurrenceIdentity :=
  List.filter (in_capture sess epoch)
    (btree_keys (lg_evidence L) ++ btree_keys (lg_committed L)).

(** A terminal receipt that still covers everything the capture holds. *)
Definition covers_capture (L : AcousticLedger) (sess : string) (epoch : Z)
    (receipt : LedgerSealReceipt) : bool :=
  in_capture sess epoch (sl_coverage receipt)
  && forallb (λ o, bool_decide (o ∈ sl_sealed_occurrences receipt)) (capture_ranges L sess epoch)
  && forallb (λ o, bool_decide (is_Some (lg_evidence L !! o))) (sl_sealed_occurrences receipt).

Definition silence_receipt (c : SealCoverageReceipt) : bool :=
  is_complete (cr_status c) && (cr_speech_samples c =? 0) && (cr_covered_samples c =? 0)
  && bool_decide (cr_uncovered_speech_ranges c = [])
  && String.eqb (cr_availability c) "observed" && bool_decide (is_Some (cr_observed_samples c)).

Definition terminal_finality (L : AcousticLedger) (sess : string) (epoch : Z) : TerminalFinality :=
  let coverage := coverage_of L sess epoch in
  let refused reason := FinalRefused sess epoch reason coverage in
  if negb (bool_decide (pending_text_recoveries L sess epoch = []))
  then refused FinalityTextRecoveryPending
  else if match coverage with Some c => negb (is_complete (cr_status c)) | None => false end
  then refused CoverageRefused
  else
    match List.find (covers_capture L sess epoch) (rev (lg_terminal_seals L)) with
    | Some receipt => FinalSealed receipt
    | None =>
        match capture_ranges L sess epoch, coverage with
        | [], Some c => if silence_receipt c then ObservedSilence c else refused TerminalReceiptMissing
        | _, _ => refused TerminalReceiptMissing
        end
    end.
