(* ===== verification/LedgerSealFacts.v ===== *)
(** LedgerSealFacts: what a seal and a final capture guarantee.

    The frontier protocol (a frontier closes exactly when every scheduled
    producer has returned, and the closing return is reported once), the
    conditions under which a seal is minted, the permanence of seals, and the
    completeness of terminal finality. *)

From S2P Require Import Prelude.
From S2P Require Import Text.
From S2P Require Import GroupAlignment.
From S2P Require Import LedgerIdentity.
From S2P Require Import LedgerSpans.
From S2P Require Import LedgerState.
From S2P Require Import LedgerCoverage.
From S2P Require Import LedgerDecision.
From S2P Require Import LedgerDecisionFacts.
From S2P Require Import LedgerSeal.
#[local] Open Scope Z_scope.

(* ------------------------------------------------------------------ *)
(** ** Frontier protocol *)

Lemma record_return_scheduled f p : fr_scheduled (record_return f p) = fr_scheduled f.
Proof. unfold record_return. by case_bool_decide. Qed.

Lemma record_return_returned f p q :
  q ∈ fr_returned (record_return f p) ↔ q ∈ fr_returned f ∨ (q = p ∧ p ∈ fr_scheduled f).
Proof. unfold record_return. case_bool_decide; simpl; set_solver. Qed.

Lemma record_returns_spec rs f q :
  fr_scheduled (fold_left record_return rs f) = fr_scheduled f ∧
  (q ∈ fr_returned (fold_left record_return rs f) ↔
   q ∈ fr_returned f ∨ (q ∈ rs ∧ q ∈ fr_scheduled f)).
Proof.
  revert f. induction rs as [|p rs IH]; intros f; simpl.
  - split; [done|]. set_solver.
  - destruct (IH (record_return f p)) as [H1 H2].
    rewrite H1, H2, record_return_scheduled, record_return_returned. split; [done|]. set_solver.
Qed.

Lemma is_closed_spec f : is_closed f = true ↔ ∀ p, p ∈ fr_scheduled f → p ∈ fr_returned f.
Proof. unfold is_closed. rewrite bool_decide_eq_true. set_solver. Qed.

(** A closed frontier stays closed. *)
Lemma record_return_closed f p : is_closed f = true → is_closed (record_return f p) = true.
Proof.
  rewrite !is_closed_spec. intros H q. rewrite record_return_scheduled, record_return_returned.
  auto.
Qed.

Section returns.
Context {debt : WordDebt}.

(** Returns of producers about one range, with the answer of each call. *)
Fixpoint note_returns (L : AcousticLedger) (o : OccurrenceIdentity)
    (rs : list ObservationProducer) : AcousticLedger * list bool :=
  match rs with
  | [] => (L, [])
  | p :: rs' =>
      let '(b, L1) := note_frontier_return L o p in
      let '(L2, bs) := note_returns L1 o rs' in
      (L2, b :: bs)
  end.

Lemma reconcile_frontiers L o :
  lg_frontiers (reconcile_returned_word_debt L o) = lg_frontiers L.
Proof.
  unfold reconcile_returned_word_debt. destruct (_ && _); [done|].
  set (L1 := match unresolved_rejected_pins L o with [] => _ | _ => _ end).
  assert (H1 : lg_frontiers L1 = lg_frontiers L)
    by (unfold L1; by destruct (unresolved_rejected_pins L o)).
  clearbody L1. by destruct (_ && _).
Qed.

Lemma note_frontier_return_frontier L o p f :
  lg_frontiers L !! o = Some f →
  let '(b, L') := note_frontier_return L o p in
  lg_frontiers L' !! o = Some (record_return f p) ∧
  b = negb (is_closed f) && is_closed (record_return f p).
Proof.
  intros Hf. unfold note_frontier_return. rewrite Hf. simpl.
  rewrite reconcile_frontiers. simpl. by rewrite lookup_insert_eq.
Qed.

Lemma note_returns_closed L o rs f :
  lg_frontiers L !! o = Some f → is_closed f = true →
  count_occ Bool.bool_dec (note_returns L o rs).2 true = 0%nat.
Proof.
  revert L f. induction rs as [|p rs IH]; intros L f Hf Hc; simpl; [done|].
  pose proof (note_frontier_return_frontier L o p f Hf) as H.
  destruct (note_frontier_return L o p) as [b L1]. destruct H as [Hf1 ->].
  specialize (IH L1 _ Hf1 (record_return_closed f p Hc)).
  destruct (note_returns L1 o rs). simpl in *. by rewrite Hc.
Qed.

(** after any returns on a scheduled range the frontier is closed exactly
    when every scheduled producer returned (returns of producers nobody
    scheduled count for nothing), and the call that closes it, and no other,
    answers that it closed. *)
Theorem frontier_protocol L o producers rs :
  let L0 := schedule_frontier L o producers in
  let '(L', answers) := note_returns L0 o rs in
  ∃ f, lg_frontiers L' !! o = Some f ∧
    (is_closed f = true ↔ ∀ p, p ∈ producers → p ∈ rs) ∧
    count_occ Bool.bool_dec answers true =
      (if is_closed f && negb (bool_decide (producers = [])) then 1%nat else 0%nat).
Proof.
  simpl. set (L0 := schedule_frontier L o producers).
  set (f0 := frontier_scheduled o producers).
  assert (Hgen : ∀ rs L0 f0, lg_frontiers L0 !! o = Some f0 →
    let '(L', answers) := note_returns L0 o rs in
    lg_frontiers L' !! o = Some (fold_left record_return rs f0) ∧
    (is_closed f0 = false → count_occ Bool.bool_dec answers true =
      if is_closed (fold_left record_return rs f0) then 1%nat else 0%nat)).
  { clear. induction rs as [|p rs IH]; intros L f Hf; simpl.
    { split; [done|]. by intros ->. }
    pose proof (note_frontier_return_frontier L o p f Hf) as H.
    destruct (note_frontier_return L o p) as [b L1]. destruct H as [Hf1 ->].
    specialize (IH L1 _ Hf1). pose proof (note_returns_closed L1 o rs _ Hf1) as Hc.
    destruct (note_returns L1 o rs) as [L2 bs]. destruct IH as [IH1 IH2].
    split; [done|]. intros Ho. rewrite Ho. simpl in *.
    destruct (is_closed (record_return f p)) eqn:Hr; simpl.
    - rewrite Hc by done.
      assert (Hs : is_closed (fold_left record_return rs (record_return f p)) = true).
      { revert Hr. generalize (record_return f p). clear. induction rs; intros f Hf; simpl; [done|].
        by apply IHrs, record_return_closed. }
      by rewrite Hs.
    - by apply IH2. }
  specialize (Hgen rs L0 f0). pose proof (note_returns_closed L0 o rs f0) as Hnil.
  assert (Hf0 : lg_frontiers L0 !! o = Some f0) by (simpl; by rewrite lookup_insert_eq).
  destruct (note_returns L0 o rs) as [L' answers]. destruct (Hgen Hf0) as [H1 H2].
  eexists. split; [exact H1|].
  assert (Hiff : is_closed (fold_left record_return rs f0) = true ↔ ∀ p, p ∈ producers → p ∈ rs).
  { rewrite is_closed_spec. setoid_rewrite (λ q, proj2 (record_returns_spec rs f0 q)).
    rewrite (proj1 (record_returns_spec rs f0 Apple)). simpl. set_solver. }
  split; [done|]. destruct (decide (producers = [])) as [->|Hp].
  - rewrite bool_decide_true by done. simpl. rewrite andb_false_r. by apply Hnil.
  - rewrite bool_decide_false by done. simpl. rewrite andb_true_r. apply H2.
    unfold is_closed. apply bool_decide_eq_false. unfold f0. simpl. intros Hs.
    destruct producers as [|p ps]; [done|]. set_solver.
Qed.
End returns.

(* ------------------------------------------------------------------ *)
(** ** Minting a seal *)

(** What an occurrence must have before it can be sealed. *)
Record sealable (L : AcousticLedger) (o : OccurrenceIdentity) (serial : AcousticSerial)
    (frontier : ObservationFrontier) : Prop := {
  sb_no_debt : text_recovery_pending L o = false;
  sb_no_trial : word_trials_pending L o = false;
  sb_no_deferred : has_deferred_anchor_words L o = false;
  sb_serial : lg_evidence L !! o = Some serial;
  sb_vad : vad_closed serial = true;
  sb_frontier : lg_frontiers L !! o = Some frontier;
  sb_closed : is_closed frontier = true;
  sb_label : ∃ text, text_of L o = Some text ∧ trim_is_empty text = false;
  sb_answers : Z.of_nat (length (oh_trail_ordinals
      (default OwnerHistory_default (lg_owner_history L !! o)))) =
    oh_answered (default OwnerHistory_default (lg_owner_history L !! o))
}.

Lemma label_missing_false L o :
  label_missing L o = false ↔ ∃ text, text_of L o = Some text ∧ trim_is_empty text = false.
Proof.
  unfold label_missing. destruct (text_of L o) as [t|]; split; try naive_solver.
Qed.

Lemma owner_answers (h : option OwnerHistory) :
  match h with Some h => oh_answered h | None => 0 end =
  oh_answered (default OwnerHistory_default h).
Proof. by destruct h. Qed.

Lemma owner_ordinals (h : option OwnerHistory) :
  match h with Some h => oh_trail_ordinals h | None => [] end =
  oh_trail_ordinals (default OwnerHistory_default h).
Proof. by destruct h. Qed.

(** The receipt of a successful seal. *)
Definition sealed_as (L : AcousticLedger) (o : OccurrenceIdentity) (serial : AcousticSerial)
    (frontier : ObservationFrontier) (r : LedgerSealReceipt) : Prop :=
  sl_scope r = ScopeOccurrence ∧ sl_coverage r = o ∧ sl_sealed_occurrences r = [o] ∧
  sl_serials r = [serial] ∧ sl_frontier r = frontier ∧
  sl_layer_trail_ordinals r =
    oh_trail_ordinals (default OwnerHistory_default (lg_owner_history L !! o)).

Lemma mint_seal_inv L o r :
  mint_seal L o = inr r → ∃ serial frontier, sealable L o serial frontier ∧ sealed_as L o serial frontier r.
Proof.
  unfold mint_seal. intros H.
  destruct (text_recovery_pending L o) eqn:Hd; [done|].
  destruct (_ || _) eqn:Hw in H; [done|]. apply orb_false_iff in Hw as [Hw1 Hw2].
  destruct (lg_evidence L !! o) as [serial|] eqn:He; [|done].
  destruct (vad_closed serial) eqn:Hv; [|done]. cbn [negb] in H.
  destruct (lg_frontiers L !! o) as [f|] eqn:Hf; [|done].
  destruct (is_closed f) eqn:Hc; [|done]. cbn [negb] in H.
  destruct (label_missing L o) eqn:Hl; [done|].
  rewrite owner_answers, owner_ordinals in H.
  destruct (_ =? _) eqn:Ha in H; [|done]. cbn [negb] in H. injection H as <-.
  apply label_missing_false in Hl. zbool.
  exists serial, f. split; [by split|done].
Qed.

Lemma mint_seal_intro L o serial frontier :
  sealable L o serial frontier → ∃ r, mint_seal L o = inr r.
Proof.
  intros []. unfold mint_seal. rewrite sb_no_debt0.
  rewrite sb_no_trial0, sb_no_deferred0. simpl. rewrite sb_serial0, sb_vad0, sb_frontier0, sb_closed0.
  apply label_missing_false in sb_label0. rewrite sb_label0. simpl.
  rewrite owner_answers, owner_ordinals.
  match goal with |- context [?a =? ?b] => replace (a =? b) with true by (symmetry; by apply Z.eqb_eq) end.
  simpl. eauto.
Qed.

(** an unsealed occurrence is sealed exactly when it owes no text and no
    lexical trial, its voice boundary and its frontier are closed, it holds a
    non-blank label and every answer has its receipt; the receipt then names
    this serial, this frontier and this occurrence's own trail.  Otherwise
    nothing changes. *)
Theorem seal_exact L o
    (Hopen : lg_seals L !! o = None) :
  let '(L', result) := seal L o in
  match result with
  | inr r => (∃ serial frontier, sealable L o serial frontier ∧ sealed_as L o serial frontier r) ∧
             lg_seals L' = <[o := r]> (lg_seals L)
  | inl _ => (∀ serial frontier, ¬ sealable L o serial frontier) ∧ L' = L
  end.
Proof.
  unfold seal. rewrite Hopen. destruct (mint_seal L o) as [e|r] eqn:Hm.
  - split; [|done]. intros serial f Hs. apply mint_seal_intro in Hs as [r Hr]. congruence.
  - split; [by apply mint_seal_inv|done].
Qed.

(** What sealing leaves alone: everything but seals, the open set and the
    lexical components it closes. *)
Lemma seal_frame L o :
  let '(L', _) := seal L o in
  lg_committed L' = lg_committed L ∧ lg_evidence L' = lg_evidence L ∧
  lg_owner_history L' = lg_owner_history L ∧ lg_trail L' = lg_trail L ∧
  lg_frontiers L' = lg_frontiers L ∧ lg_terminal_seals L' = lg_terminal_seals L ∧
  lg_pending_text_recovery L' = lg_pending_text_recovery L ∧
  lg_latest_seal_coverage L' = lg_latest_seal_coverage L ∧
  lg_transcript_seal_timestamp_ms L' = lg_transcript_seal_timestamp_ms L ∧
  lg_manual_edits L' = lg_manual_edits L ∧
  (∀ o' s, lg_seals L !! o' = Some s → lg_seals L' !! o' = Some s).
Proof.
  unfold seal. destruct (lg_seals L !! o) as [h|] eqn:Hh; [done|].
  destruct (mint_seal L o); [done|]. simpl. do 10 (split; [done|]).
  intros o' s' Hs. rewrite lookup_insert_ne; [done|]. intros ->. congruence.
Qed.

Lemma seal_result L o :
  let '(L', result) := seal L o in
  match result with
  | inr r => lg_seals L' !! o = Some r
  | inl _ => L' = L
  end.
Proof.
  unfold seal. destruct (lg_seals L !! o) as [h|] eqn:Hh; [done|].
  destruct (mint_seal L o); [done|]. simpl. by rewrite lookup_insert_eq.
Qed.

(** C: sealing twice returns the first receipt and changes nothing more. *)
Theorem seal_idempotent L o r
    (Hsealed : (seal L o).2 = inr r) :
  seal (seal L o).1 o = ((seal L o).1, inr r).
Proof.
  pose proof (seal_result L o) as H. destruct (seal L o) as [L' x]. simpl in *. subst x.
  unfold seal. by rewrite H.
Qed.

(* ------------------------------------------------------------------ *)
(** ** Terminal seals *)

(** The frame of [seal_each], seals only ever being added. *)
Record seal_step (L L' : AcousticLedger) : Prop := {
  sst_committed : lg_committed L' = lg_committed L;
  sst_evidence : lg_evidence L' = lg_evidence L;
  sst_pending : lg_pending_text_recovery L' = lg_pending_text_recovery L;
  sst_spans : lg_complete_decode_spans L' = lg_complete_decode_spans L;
  sst_coverage : lg_latest_seal_coverage L' = lg_latest_seal_coverage L;
  sst_terminal : lg_terminal_seals L' = lg_terminal_seals L;
  sst_history : lg_owner_history L' = lg_owner_history L;
  sst_seals : ∀ o s, lg_seals L !! o = Some s → lg_seals L' !! o = Some s
}.

#[local] Instance seal_step_refl : Reflexive seal_step.
Proof. by split. Qed.

#[local] Instance seal_step_trans : Transitive seal_step.
Proof. intros L1 L2 L3 [] []. split; try congruence. auto. Qed.

Lemma seal_seal_step L o : seal_step L (seal L o).1.
Proof.
  pose proof (seal_frame L o) as H. destruct (seal L o) as [L' x] eqn:Hs. simpl.
  destruct H as (H1 & H2 & H3 & H4 & H5 & H6 & H7 & H8 & H9 & H10 & H11). split; try done.
  unfold seal in Hs. destruct (lg_seals L !! o); [by simplify_eq|].
  destruct (mint_seal L o); by simplify_eq.
Qed.

Lemma seal_each_step L l : seal_step L (seal_each L l).1.
Proof.
  revert L. induction l as [|o l IH]; intros L; simpl; [done|].
  pose proof (seal_seal_step L o) as H. destruct (seal L o) as [L1 [e|r]]; [done|].
  simpl in H. etrans; [exact H|apply IH].
Qed.

Lemma seal_each_sealed L l :
  (seal_each L l).2 = None → ∀ o, o ∈ l → is_Some (lg_seals (seal_each L l).1 !! o).
Proof.
  revert L. induction l as [|o l IH]; intros L; simpl; [set_solver|].
  pose proof (seal_result L o) as Hr. destruct (seal L o) as [L1 [e|r]]; [done|].
  intros Hn x Hx. apply elem_of_cons in Hx as [->|Hx]; [|by apply IH].
  exists r. by apply (sst_seals _ _ (seal_each_step L1 l)).
Qed.

Lemma collect_seals_some L l :
  (∀ o, o ∈ l → is_Some (lg_seals L !! o)) →
  ∃ seals, collect_seals L l = Some seals ∧
    Forall2 (λ o s, lg_seals L !! o = Some s) l seals.
Proof.
  induction l as [|o l IH]; intros Hs; simpl; [by exists []|].
  destruct (Hs o) as [s Hso]; [by left|]. destruct IH as (rest & -> & Hf).
  { intros x Hx. apply Hs. by right. }
  rewrite Hso. simpl. exists (s :: rest). split; [done|]. by constructor.
Qed.

(** The qualified occurrences of a capture, in capture order. *)
Definition epoch_evidence (L : AcousticLedger) (sess : string) (epoch : Z)
    : list OccurrenceIdentity :=
  List.filter (in_capture sess epoch) (btree_keys (lg_evidence L)).

Lemma elem_filter {A} (p : A → bool) l x : x ∈ List.filter p l ↔ x ∈ l ∧ p x = true.
Proof. rewrite !list_elem_of_In. apply filter_In. Qed.

Lemma epoch_evidence_spec L sess epoch o :
  o ∈ epoch_evidence L sess epoch ↔ in_capture sess epoch o = true ∧ is_Some (lg_evidence L !! o).
Proof. unfold epoch_evidence. rewrite elem_filter, btree_keys_spec. tauto. Qed.

(** a terminal seal succeeds only over a capture that owes no text and whose
    coverage is not known to be incomplete or unavailable, and then every
    qualified occurrence of the capture holds its own seal and is named, in
    capture order, by the receipt, which the ledger keeps; no seal held before
    is changed, and a refusal adds no terminal receipt. *)
Theorem seal_terminal_complete L now sess epoch :
  let '(L', result) := seal_terminal L now sess epoch in
  (∀ o s, lg_seals L !! o = Some s → lg_seals L' !! o = Some s) ∧
  match result with
  | inl _ => lg_terminal_seals L' = lg_terminal_seals L
  | inr r =>
      pending_text_recoveries L sess epoch = [] ∧
      (∀ c, coverage_of L sess epoch = Some c → cr_status c ≠ Incomplete ∧
         unavailable_reason (cr_status c) = None) ∧
      r ∈ lg_terminal_seals L' ∧ sl_scope r = ScopeTerminal ∧
      sl_sealed_occurrences r = epoch_evidence L sess epoch ∧
      (∀ o, in_capture sess epoch o = true → is_Some (lg_evidence L !! o) →
         is_Some (lg_seals L' !! o))
  end.
Proof.
  unfold seal_terminal.
  case_bool_decide as Hp; cbn [negb]; [|done].
  match goal with |- context [if ?b then (L, inl CoverageIncomplete) else _] => destruct b eqn:Hcov end;
    [done|].
  change (List.filter (in_capture sess epoch) (btree_keys (lg_evidence L)))
    with (epoch_evidence L sess epoch).
  destruct (epoch_evidence L sess epoch) as [|first rest] eqn:He; [done|].
  rewrite <- He. set (l := epoch_evidence L sess epoch) in *.
  pose proof (seal_each_step L l) as Hstep. pose proof (seal_each_sealed L l) as Hsealed.
  destruct (seal_each L l) as [L1 [refusal|]] eqn:Hl; simpl in Hstep, Hsealed.
  { split; [apply Hstep|apply Hstep]. }
  specialize (Hsealed eq_refl).
  destruct (collect_seals_some L1 l Hsealed) as (seals & -> & Hf).
  set (receipt := mkSeal _ _ _ _ _ _ _ _ _).
  assert (Hall : ∀ o, in_capture sess epoch o = true → is_Some (lg_evidence L !! o) →
    is_Some (lg_seals L1 !! o)).
  { intros o Ho Hev. apply Hsealed, epoch_evidence_spec. done. }
  assert (Hc : ∀ c, coverage_of L sess epoch = Some c → cr_status c ≠ Incomplete ∧
         unavailable_reason (cr_status c) = None).
  { intros c. unfold coverage_of. destruct (lg_latest_seal_coverage L) as [c'|]; [|done].
    destruct (String.eqb (cr_session_id c') sess && (cr_capture_epoch c' =? epoch)) eqn:Hm; [|done].
    intros [= ->]. simpl in Hcov. apply orb_false_iff in Hcov as [H1 H2].
    apply bool_decide_eq_false in H1, H2. split; [done|].
    destruct (unavailable_reason (cr_status c)); [|done]. by destruct H2. }
  case_bool_decide as Hr; (split; [apply Hstep|]); split_and!; try done.
  simpl. apply elem_of_app. right. by apply list_elem_of_singleton.
Qed.

(* ------------------------------------------------------------------ *)
(** ** Terminal finality *)

Lemma capture_ranges_spec L sess epoch o :
  o ∈ capture_ranges L sess epoch ↔
  in_capture sess epoch o = true ∧ (is_Some (lg_evidence L !! o) ∨ is_Some (lg_committed L !! o)).
Proof.
  unfold capture_ranges. rewrite elem_filter, elem_of_app, !btree_keys_spec. tauto.
Qed.

(** A receipt that still accounts for everything the capture holds. *)
Definition accounts_for (L : AcousticLedger) (sess : string) (epoch : Z) (r : LedgerSealReceipt)
    : Prop :=
  r ∈ lg_terminal_seals L ∧ in_capture sess epoch (sl_coverage r) = true ∧
  (∀ o, in_capture sess epoch o = true →
     is_Some (lg_evidence L !! o) ∨ is_Some (lg_committed L !! o) → o ∈ sl_sealed_occurrences r) ∧
  (∀ o, o ∈ sl_sealed_occurrences r → is_Some (lg_evidence L !! o)).

Lemma covers_capture_spec L sess epoch r :
  r ∈ lg_terminal_seals L → (covers_capture L sess epoch r = true ↔ accounts_for L sess epoch r).
Proof.
  intros Hr. unfold covers_capture, accounts_for. rewrite !andb_true_iff, !forallb_true.
  setoid_rewrite bool_decide_eq_true. setoid_rewrite capture_ranges_spec. naive_solver.
Qed.

Lemma find_receipt_some {A} (p : A → bool) l x : List.find p l = Some x → x ∈ l ∧ p x = true.
Proof. intros H. apply List.find_some in H as [H1 H2]. split; [by apply list_elem_of_In|done]. Qed.

Lemma find_receipt_none {A} (p : A → bool) l x : List.find p l = None → x ∈ l → p x = false.
Proof. intros H Hx. apply (List.find_none _ _ H). by apply list_elem_of_In. Qed.

(** No text debt is open and no coverage of the capture is short. *)
Definition settled (L : AcousticLedger) (sess : string) (epoch : Z) : Prop :=
  pending_text_recoveries L sess epoch = [] ∧
  (∀ c, coverage_of L sess epoch = Some c → is_complete (cr_status c) = true).

(** C5: a capture is final as Sealed exactly when it owes no text, its coverage
    (when measured) is complete and some terminal receipt names every occurrence
    it has qualified or committed; it is final as ObservedSilence only when it
    holds no occurrence at all and a complete observed coverage measured no
    speech; every other capture is refused. *)
Theorem terminal_finality_exact L sess epoch :
  ((∃ r, terminal_finality L sess epoch = FinalSealed r) ↔
     settled L sess epoch ∧ ∃ r, accounts_for L sess epoch r) ∧
  (∀ r, terminal_finality L sess epoch = FinalSealed r → accounts_for L sess epoch r) ∧
  (∀ c, terminal_finality L sess epoch = ObservedSilence c →
     settled L sess epoch ∧ coverage_of L sess epoch = Some c ∧ cr_speech_samples c = 0 ∧
     cr_uncovered_speech_ranges c = [] ∧
     ∀ o, in_capture sess epoch o = true →
       lg_evidence L !! o = None ∧ lg_committed L !! o = None).
Proof.
  unfold terminal_finality, settled.
  set (cov := coverage_of L sess epoch).
  case_bool_decide as Hp; cbn [negb].
  2:{ split; [|done]. split; [by intros [? ?]|]. by intros [[? _] _]. }
  assert (Hc : match cov with Some c => negb (is_complete (cr_status c)) | None => false end = false ↔
    ∀ c, cov = Some c → is_complete (cr_status c) = true).
  { destruct cov as [c|]; [|naive_solver]. rewrite negb_false_iff. naive_solver. }
  destruct (match cov with Some c => _ | None => false end).
  { split; [|done]. split; [by intros [? ?]|]. intros [[_ H] _]. by apply Hc in H. }
  assert (Hcov : ∀ c, cov = Some c → is_complete (cr_status c) = true) by (by apply Hc).
  destruct (List.find _ _) as [r|] eqn:Hf.
  - apply find_receipt_some in Hf as [Hin Hr]. rewrite list_elem_of_In, <- in_rev, <- list_elem_of_In in Hin.
    apply covers_capture_spec in Hr; [|done].
    split; [|split; [intros r' [= <-]; done|done]]. split; [|eauto]. intros _. split; [done|eauto].
  - assert (Hnone : ∀ r, ¬ accounts_for L sess epoch r).
    { intros r Ha. pose proof Ha as [Hin _]. apply covers_capture_spec in Ha; [|done].
      rewrite (find_receipt_none _ _ r Hf) in Ha; [done|].
      by rewrite list_elem_of_In, <- in_rev, <- list_elem_of_In. }
    destruct (capture_ranges L sess epoch) as [|x l] eqn:Hr.
    2:{ split; [|done]. split; [by intros [? ?]|]. intros [_ [r Hr']]. by apply Hnone in Hr'. }
    assert (Hempty : ∀ o, in_capture sess epoch o = true →
      lg_evidence L !! o = None ∧ lg_committed L !! o = None).
    { intros o Ho. pose proof (capture_ranges_spec L sess epoch o) as Hs. rewrite Hr in Hs.
      rewrite !eq_None_not_Some. split; intros H;
        apply (not_elem_of_nil o), Hs; auto. }
    destruct cov as [c|].
    + destruct (silence_receipt c) eqn:Hsil.
      * split; [split; [by intros [? ?]|intros [_ [r Hr']]; by apply Hnone in Hr']|].
        split; [done|]. intros c' [= <-]. unfold silence_receipt in Hsil. zbool. done.
      * split; [|done]. split; [by intros [? ?]|]. intros [_ [r Hr']]. by apply Hnone in Hr'.
    + split; [|done]. split; [by intros [? ?]|]. intros [_ [r Hr']]. by apply Hnone in Hr'.
Qed.

Lemma seal_terminal_frame L now sess epoch :
  let L' := (seal_terminal L now sess epoch).1 in
  lg_committed L' = lg_committed L ∧ lg_evidence L' = lg_evidence L ∧
  pending_text_recoveries L' sess epoch = pending_text_recoveries L sess epoch ∧
  coverage_of L' sess epoch = coverage_of L sess epoch ∧
  lg_owner_history L' = lg_owner_history L ∧
  lg_terminal_seals L `prefix_of` lg_terminal_seals L' ∧
  (∀ o s, lg_seals L !! o = Some s → lg_seals L' !! o = Some s).
Proof.
  assert (Hstep : ∀ L', seal_step L L' → ∀ x t,
    let L'' := L' <| lg_terminal_seals ::= λ l, l ++ x |> <| lg_transcript_seal_timestamp_ms := t |> in
    lg_committed L'' = lg_committed L ∧ lg_evidence L'' = lg_evidence L ∧
    pending_text_recoveries L'' sess epoch = pending_text_recoveries L sess epoch ∧
    coverage_of L'' sess epoch = coverage_of L sess epoch ∧
    lg_owner_history L'' = lg_owner_history L ∧
    lg_terminal_seals L `prefix_of` lg_terminal_seals L'' ∧
    (∀ o s, lg_seals L !! o = Some s → lg_seals L'' !! o = Some s)).
  { intros L' [] x t. simpl. split_and!; try done.
    - unfold pending_text_recoveries. simpl. by rewrite sst_pending0, sst_spans0.
    - unfold coverage_of. simpl. by rewrite sst_coverage0.
    - rewrite sst_terminal0. by apply prefix_app_r. }
  assert (Hplain : ∀ L', seal_step L L' → lg_committed L' = lg_committed L ∧ lg_evidence L' = lg_evidence L ∧
    pending_text_recoveries L' sess epoch = pending_text_recoveries L sess epoch ∧
    coverage_of L' sess epoch = coverage_of L sess epoch ∧
    lg_owner_history L' = lg_owner_history L ∧
    lg_terminal_seals L `prefix_of` lg_terminal_seals L' ∧
    (∀ o s, lg_seals L !! o = Some s → lg_seals L' !! o = Some s)).
  { intros L' H'. pose proof (Hstep L' H' [] (lg_transcript_seal_timestamp_ms L')) as H.
    simpl in H. rewrite app_nil_r in H. exact H. }
  unfold seal_terminal.
  destruct (negb _); [by apply Hplain|].
  match goal with |- context [if ?b then (L, inl CoverageIncomplete) else _] => destruct b end;
    [by apply Hplain|].
  destruct (List.filter _ _) as [|first rest]; [by apply Hplain|].
  pose proof (seal_each_step L (first :: rest)) as Hs.
  destruct (seal_each L (first :: rest)) as [L1 [refusal|]]; [by apply Hplain|].
  destruct (collect_seals _ _); [|by apply Hplain].
  case_bool_decide; [by apply Hplain|]. by apply Hstep.
Qed.

(** once a settled capture is sealed terminally, and everything committed
    had qualified, the capture is final as Sealed. *)
Theorem seal_terminal_then_final L now sess epoch L' r
    (Hsettled : settled L sess epoch)
    (Hqualified : ∀ o, in_capture sess epoch o = true → is_Some (lg_committed L !! o) →
       is_Some (lg_evidence L !! o))
    (Hseal : seal_terminal L now sess epoch = (L', inr r)) :
  ∃ r', terminal_finality L' sess epoch = FinalSealed r' ∧ accounts_for L' sess epoch r'.
Proof.
  pose proof (seal_terminal_complete L now sess epoch) as Hc.
  pose proof (seal_terminal_frame L now sess epoch) as Hf.
  assert (Hcap : in_capture sess epoch (sl_coverage r) = true).
  { revert Hseal. unfold seal_terminal. destruct (negb _); [done|].
    match goal with |- context [if ?b then (L, inl CoverageIncomplete) else _] => destruct b end; [done|].
    destruct (List.filter _ _); [done|]. destruct (seal_each _ _) as [? []]; [done|].
    destruct (collect_seals _ _); [|done].
    case_bool_decide; intros [= <- <-]; unfold in_capture; simpl; by rewrite String.eqb_refl, Z.eqb_refl. }
  rewrite Hseal in Hc, Hf. simpl in Hc, Hf.
  destruct Hc as (_ & Hp & _ & Hr & _ & Hocc & _).
  destruct Hf as (Hcom & Hev & Hpend & Hcov & _).
  pose proof (terminal_finality_exact L' sess epoch) as (Hex & Hsound & _).
  assert (accounts_for L' sess epoch r) as Hacc.
  { split; [done|]. split; [done|]. rewrite Hcom, Hev, Hocc. split.
    - intros o Ho [He|He]; apply epoch_evidence_spec; auto.
    - intros o. by rewrite epoch_evidence_spec; intros [_ ?]. }
  destruct (proj2 Hex) as [r' Hr'].
  - unfold settled in *. rewrite Hpend, Hcov. eauto.
  - eauto.
Qed.

(* ------------------------------------------------------------------ *)
(** ** Witnesses *)

#[local] Existing Instance no_word_evidence.

Definition ex_range : OccurrenceIdentity := mkOccurrence "s" 1 0 16000.

Definition ex_serial : AcousticSerial :=
  mkSerial 1 "digest" ex_range 0 0 0 0 (Some 0) (Some 16000) "cal".

(** A committed Apple label, qualified, with its one producer returned. *)
Definition ex_ready : AcousticLedger :=
  (note_frontier_return (schedule_frontier ex_open ex_range [Apple]) ex_range Apple).2
    <| lg_evidence := {[ ex_range := ex_serial ]} |>.

Definition ex_receipt : LedgerSealReceipt :=
  mkSeal [] ScopeOccurrence "seal-occurrence-s-1-0-16000" ex_range [ex_range] [ex_serial] 16000
    (mkFrontier ex_range {[ Apple ]} {[ Apple ]}) [0].

Lemma seal_exact_witness :
  lg_seals ex_ready !! ex_range = None ∧
  let '(L', result) := seal ex_ready ex_range in
  match result with inr _ => is_Some (lg_seals L' !! ex_range) | inl _ => False end.
Proof.
  assert (H : lg_seals ex_ready !! ex_range = None) by (vm_compute; reflexivity).
  split; [exact H|]. pose proof (seal_exact ex_ready ex_range H) as Hs.
  destruct (seal ex_ready ex_range) as [L' [e|r]] eqn:He.
  - vm_compute in He. discriminate.
  - destruct Hs as [_ ->]. rewrite lookup_insert_eq. by exists r.
Defined.

Lemma seal_idempotent_witness :
  seal (seal ex_ready ex_range).1 ex_range = ((seal ex_ready ex_range).1, inr ex_receipt).
Proof. apply (seal_idempotent ex_ready ex_range ex_receipt). vm_compute. reflexivity. Defined.

Lemma seal_terminal_then_final_witness :
  ∃ L' r, seal_terminal ex_ready (Some 7) "s" 1 = (L', inr r) ∧
    ∃ r', terminal_finality L' "s" 1 = FinalSealed r'.
Proof.
  destruct (seal_terminal ex_ready (Some 7) "s" 1) as [L' [e|r]] eqn:He;
    [exfalso; vm_compute in He; discriminate|].
  exists L', r. split; [reflexivity|].
  destruct (seal_terminal_then_final ex_ready (Some 7) "s" 1 L' r) as (r' & Hr' & _).
  - split; [vm_compute; reflexivity|]. intros c Hc. vm_compute in Hc. discriminate.
  - intros o _ [c Hc]. assert (Hd : dom (lg_committed ex_ready) = {[ ex_range ]}).
    { vm_compute. reflexivity. }
    apply elem_of_dom_2 in Hc. rewrite Hd in Hc. apply elem_of_singleton in Hc as ->.
    exists ex_serial. vm_compute. reflexivity.
  - exact He.
  - exists r'. exact Hr'.
Defined.
