(* ===== verification/LedgerEvidence.v ===== *)
(** LedgerEvidence: when a region of audio counts as speech, and what its
    words may cite (core/pipeline/acoustic_ledger.rs: calibration, [qualify],
    the acoustic serial, word ownership by pin, word receipts, [compose],
    derivations and the authority of cumulative finals).

    A float is its IEEE-754 bit pattern, decoded for comparison.  SHA-256 is a
    parameter: a function from bytes to bytes. *)

From S2P Require Import Prelude.
From S2P Require Import Text.
From S2P Require Import GroupAlignment.
From S2P Require Import LedgerIdentity.
From S2P Require Import LedgerSpans.
From S2P Require Import LedgerState.
From S2P Require Import LedgerCoverage.
From S2P Require Import LedgerDecision.
From Stdlib Require Import Floats.SpecFloat.
#[local] Open Scope Z_scope.
#[local] Open Scope mach_scope.

(* ------------------------------------------------------------------ *)
(** ** Binary64 *)

(** The number a 64-bit pattern denotes. *)
Definition f64_of_bits (b : Z) : spec_float :=
  let sign := Z.testbit b 63 in
  let e := Z.land (Z.shiftr b 52) 2047 in
  let m := Z.land b (2 ^ 52 - 1) in
  if e =? 2047 then (if m =? 0 then S754_infinity sign else S754_nan)
  else if e =? 0 then
    match m with Zpos p => S754_finite sign p (-1074) | _ => S754_zero sign end
  else
    match m + 2 ^ 52 with Zpos p => S754_finite sign p (e - 1075) | _ => S754_nan end.

(** [a < b] on [f64]; false when either is NaN. *)
Definition f64_lt (a b : Z) : bool := SFltb (f64_of_bits a) (f64_of_bits b).

(* ------------------------------------------------------------------ *)
(** ** Evidence and serials *)

Record EnergyCalibration := mkCalibration {
  cal_version : string;
  cal_min_energy_integral : Z;
  cal_min_valley_samples : Z
}.

Record AcousticEvidence := mkEvidence {
  ev_occurrence : OccurrenceIdentity;
  ev_duration_ms : Z;
  ev_energy_integral : Z;
  ev_mean_rms_dbfs : Z;
  ev_peak_dbfs : Z;
  ev_vad_open_sample : option Z;
  ev_vad_close_sample : option Z;
  ev_calibration_version : string
}.

Inductive AdmissionRefusal :=
  | RegionZeroWidth | BelowCalibratedEnergy | VadDidNotOpen | CalibrationMismatch.

Definition admission_refusal_as_str (r : AdmissionRefusal) : string :=
  match r with
  | RegionZeroWidth => "zero_width"
  | BelowCalibratedEnergy => "below_calibrated_energy"
  | VadDidNotOpen => "vad_did_not_open"
  | CalibrationMismatch => "calibration_mismatch"
  end.

Inductive AdmissionReceipt :=
  | Qualified (o : OccurrenceIdentity) (serial : AcousticSerial)
  | AdmissionRefused (o : OccurrenceIdentity) (reason : AdmissionRefusal).

Definition admission_is_qualified (r : AdmissionReceipt) : bool :=
  match r with Qualified _ _ => true | AdmissionRefused _ _ => false end.

Definition admission_serial (r : AdmissionReceipt) : option AcousticSerial :=
  match r with Qualified _ serial => Some serial | AdmissionRefused _ _ => None end.

Definition ACOUSTIC_SERIAL_VERSION : Z := 1.
Definition ACOUSTIC_SERIAL_DOMAIN : string := "codescribe.acoustic-serial.v1".

Definition boundary (sample : option Z) : string :=
  match sample with Some value => show_u64 value | None => "none" end.

(** The lines before the last. *)
Definition canonical_lines (e : AcousticEvidence) : list string :=
  [ACOUSTIC_SERIAL_DOMAIN; show_u64 ACOUSTIC_SERIAL_VERSION;
   session (ev_occurrence e); show_u64 (capture_epoch (ev_occurrence e));
   show_u64 (sample_start (ev_occurrence e)); show_u64 (sample_end (ev_occurrence e));
   show_u64 (ev_duration_ms e); show_u64 (ev_energy_integral e);
   show_u64 (ev_mean_rms_dbfs e); show_u64 (ev_peak_dbfs e);
   boundary (ev_vad_open_sample e); boundary (ev_vad_close_sample e)].

Definition canonical_input (e : AcousticEvidence) : string :=
  join_lines (canonical_lines e ++ [ev_calibration_version e]).

(** [format!("{byte:02x}")]. *)
Definition hex_digit (n : Z) : Ascii.ascii :=
  Ascii.ascii_of_N (Z.to_N (if n <? 10 then 48 + n else 87 + n)).

Definition hex_byte (b : Z) : string :=
  String (hex_digit (b `div` 16)) (String (hex_digit (b `mod` 16)) "").

Section serial.
Context (sha256 : string → list Z).

Definition digest_of (e : AcousticEvidence) : string :=
  String.concat "" (map hex_byte (sha256 (canonical_input e))).

Definition mint (e : AcousticEvidence) : AcousticSerial :=
  mkSerial ACOUSTIC_SERIAL_VERSION (digest_of e) (ev_occurrence e) (ev_duration_ms e)
    (ev_energy_integral e) (ev_mean_rms_dbfs e) (ev_peak_dbfs e) (ev_vad_open_sample e)
    (ev_vad_close_sample e) (ev_calibration_version e).

Definition qualify (L : AcousticLedger) (e : AcousticEvidence) (cal : EnergyCalibration)
    : AcousticLedger * AdmissionReceipt :=
  let o := ev_occurrence e in
  let refuse reason := (L, AdmissionRefused o reason) in
  if negb (is_anchored o) then refuse RegionZeroWidth
  else if negb (String.eqb (ev_calibration_version e) (cal_version cal))
  then refuse CalibrationMismatch
  else if f64_lt (ev_energy_integral e) (cal_min_energy_integral cal)
  then refuse BelowCalibratedEnergy
  else if negb (match ev_vad_open_sample e with
                | Some open => open <=? sample_start o | None => false end)
  then refuse VadDidNotOpen
  else
    let serial := mint e in
    let L1 :=
      L <| lg_evidence ::= <[o := serial]> |>
        <| lg_qualified_by_end ::=
             λ m, <[sample_end o := {[ o ]} ∪ default ∅ (m !! sample_end o)]> m |> in
    let L2 := if is_sealed L1 o then L1
              else L1 <| lg_unsealed_qualified ::= union {[ o ]} |> in
    (L2, Qualified o serial).

Definition qualify_all (L : AcousticLedger) (l : list (AcousticEvidence * EnergyCalibration))
    : AcousticLedger :=
  fold_left (λ L x, (qualify L x.1 x.2).1) l L.
End serial.

Definition qualified_occurrences (L : AcousticLedger) : list OccurrenceIdentity :=
  btree_keys (lg_evidence L).

(** Whether a qualified owner is in the current window. *)
Definition overlaps_window (range owner : OccurrenceIdentity) : bool :=
  is_anchored range && same_capture owner range && (sample_start owner <? sample_end range).

(** The owners whose acoustic end is past the start of the range, by end, then
    sorted. *)
Definition qualified_occurrences_overlapping (L : AcousticLedger) (range : OccurrenceIdentity)
    : list OccurrenceIdentity :=
  let ends := merge_sort Z.le (List.filter (λ e, sample_start range <? e)
                                 (map_to_list (lg_qualified_by_end L)).*1) in
  merge_sort occ_le
    (List.filter (overlaps_window range)
       (flat_map (λ e, btree_elements (default ∅ (lg_qualified_by_end L !! e))) ends)).

(* ------------------------------------------------------------------ *)
(** ** Owners of pins *)

Definition pin_inside_by_midpoint (start end_ : Z) (pin : OccurrenceIdentity) : bool :=
  declared_range_contains_midpoint start end_ (sample_start pin) (sample_end pin).

Definition owner_candidate (L : AcousticLedger) (pin owner : OccurrenceIdentity) : bool :=
  same_capture pin owner && is_qualified L owner
  && pin_inside_by_midpoint (sample_start owner) (sample_end owner) pin.

(** The key [(!sealed, start, Reverse(end))], smaller or equal. *)
Definition owner_key_le (L : AcousticLedger) (a b : OccurrenceIdentity) : bool :=
  let open x := negb (is_sealed L x) in
  if Bool.eqb (open a) (open b) then
    if sample_start a =? sample_start b then sample_end b <=? sample_end a
    else sample_start a <? sample_start b
  else open b.

(** [max_by_key] over the candidates, the last of equal maxima. *)
Fixpoint best_owner (L : AcousticLedger) (pin : OccurrenceIdentity) (i : nat)
    (best : option (nat * OccurrenceIdentity)) (owners : list OccurrenceIdentity)
    : option (nat * OccurrenceIdentity) :=
  match owners with
  | [] => best
  | owner :: rest =>
      let best' :=
        if owner_candidate L pin owner then
          match best with
          | Some (j, held) => if owner_key_le L held owner then Some (i, owner) else best
          | None => Some (i, owner)
          end
        else best in
      best_owner L pin (S i) best' rest
  end.

Definition word_owner_index (L : AcousticLedger) (pin : OccurrenceIdentity)
    (owners : list OccurrenceIdentity) : option nat :=
  if negb (is_anchored pin) then None else fst <$> best_owner L pin 0 None owners.

(** The members a pin falls into: by midpoint for words, whole for utterances. *)
Definition member_holds (word_grain : bool) (pin member : OccurrenceIdentity) : bool :=
  same_capture pin member
  && if word_grain then pin_inside_by_midpoint (sample_start member) (sample_end member) pin
     else (sample_start member <=? sample_start pin) && (sample_end pin <=? sample_end member).

Definition enumerate {A} (l : list A) : list (nat * A) := zip (seq 0 (length l)) l.

Definition classify_overlap_pin (L : AcousticLedger) (pin : OccurrenceIdentity)
    (admit_start admit_end : Z) (open_members : list OccurrenceIdentity) (word_grain : bool)
    : OverlapPinClass :=
  if negb (is_anchored pin) then UnanchoredPin ZeroWidth
  else if negb (existsb (same_capture pin) open_members) then UnanchoredPin NoRange
  else
    match (if word_grain then word_owner_index L pin open_members else None) with
    | Some member_index => ExclusiveTail member_index
    | None =>
      let inside_admit :=
        if word_grain then pin_inside_by_midpoint admit_start admit_end pin
        else (admit_start <=? sample_start pin) && (sample_end pin <=? admit_end) in
      if word_grain || inside_admit then
        match List.filter (λ m, member_holds word_grain pin m.2) (enumerate open_members) with
        | [(member_index, _)] => ExclusiveTail member_index
        | _ => UnanchoredPin OverlapWithoutWordPins
        end
      else
        let overlaps_admit := (admit_start <? sample_end pin) && (sample_start pin <? admit_end) in
        if negb overlaps_admit
           && existsb (λ held, same_capture pin held && is_anchored held
                               && (sample_start held <=? sample_start pin)
                               && (sample_end pin <=? sample_end held))
                (btree_keys (lg_committed L))
        then Replay
        else UnanchoredPin OverlapWithoutWordPins
    end.

(* ------------------------------------------------------------------ *)
(** ** Word receipts and composition *)

Inductive EvidenceRefusal :=
  | NoSerialCited | EmptyToken | CoverageOutsideCitedSerials | OccurrenceNotQualified.

Definition evidence_refusal_as_str (r : EvidenceRefusal) : string :=
  match r with
  | NoSerialCited => "no_serial_cited"
  | EmptyToken => "empty_token"
  | CoverageOutsideCitedSerials => "coverage_outside_cited_serials"
  | OccurrenceNotQualified => "occurrence_not_qualified"
  end.

Record WordEvidenceReceipt := mkWordReceipt {
  wr_token : string;
  wr_token_ordinal : nat;
  wr_producer : ObservationProducer;
  wr_generation : Z;
  wr_serials : list AcousticSerial;
  wr_token_sample_start : option Z;
  wr_token_sample_end : option Z;
  wr_source_pcm_ranges : list OccurrenceIdentity;
  wr_group_accuracy : bool;
  wr_confidence : option WordConfidence;
  wr_surface_rewritten : bool
}.

Definition supports (c : Z * Z) (serial : AcousticSerial) : bool :=
  (c.1 <? c.2) && (sample_start (ser_occurrence serial) <=? c.1)
  && (c.2 <=? sample_end (ser_occurrence serial)).

Definition cite (token : string) (token_ordinal : nat) (obs : ObservationIdentity)
    (serials : list AcousticSerial) (coverage : option (Z * Z))
    : EvidenceRefusal + WordEvidenceReceipt :=
  if trim_is_empty token then inl EmptyToken
  else if bool_decide (serials = []) then inl NoSerialCited
  else if match coverage with
          | Some c => negb (existsb (supports c) serials)
          | None => false
          end
  then inl CoverageOutsideCitedSerials
  else
    inr (mkWordReceipt token token_ordinal (producer obs) (generation obs) serials
           (fst <$> coverage) (snd <$> coverage)
           match coverage with
           | Some (s, e) => [mkOccurrence (session (occurrence obs))
                               (capture_epoch (occurrence obs)) s e]
           | None => []
           end
           (negb (bool_decide (is_Some coverage))) None false).

Definition cited_occurrences (w : WordEvidenceReceipt) : list OccurrenceIdentity :=
  map ser_occurrence (wr_serials w).

Record OccurrenceComposition := mkComposition {
  cmp_coverage : OccurrenceIdentity;
  cmp_tokens : list WordEvidenceReceipt
}.

Definition occurrence_count (c : OccurrenceComposition) : nat :=
  size (list_to_set (flat_map cited_occurrences (cmp_tokens c)) : gset OccurrenceIdentity).

Definition token_count (c : OccurrenceComposition) : nat := length (cmp_tokens c).

Definition is_fully_signed (c : OccurrenceComposition) : bool :=
  forallb (λ w, negb (bool_decide (wr_serials w = []))) (cmp_tokens c).

(** The words of one slot, each signed with the serial of its occurrence. *)
Fixpoint compose_words (slot : WordSlot) (serial : AcousticSerial)
    (ranges : list OccurrenceIdentity) (ordinal : nat) (words : list string)
    : EvidenceRefusal + list WordEvidenceReceipt :=
  match words with
  | [] => inr []
  | word :: rest =>
      let? receipt :=
        cite word ordinal (ws_observation slot) [serial]
          (if (length ranges =? 1)%nat then Some (ws_sample_start slot, ws_sample_end slot)
           else None) in
      let? tail := compose_words slot serial ranges (S ordinal) rest in
      inr (receipt <| wr_source_pcm_ranges := ranges |>
                   <| wr_group_accuracy := (1 <? length ranges)%nat
                                           || (1 <? length (split_whitespace (ws_text slot)))%nat |>
                   <| wr_confidence := ws_confidence slot |>
                   <| wr_surface_rewritten := ws_surface_rewritten slot |> :: tail)
  end.

(** The running ordinal of an observation, and its new value. *)
Fixpoint ordinal_of (ords : list (ObservationIdentity * nat)) (obs : ObservationIdentity) : nat :=
  match ords with
  | [] => 0
  | (o, n) :: ords' => if decide (o = obs) then n else ordinal_of ords' obs
  end.

Fixpoint bump_ordinal (ords : list (ObservationIdentity * nat)) (obs : ObservationIdentity)
    (k : nat) : list (ObservationIdentity * nat) :=
  match ords with
  | [] => [(obs, k)]
  | (o, n) :: ords' => if decide (o = obs) then (o, (n + k)%nat) :: ords'
                       else (o, n) :: bump_ordinal ords' obs k
  end.

Fixpoint compose_slots (L : AcousticLedger) (serial : AcousticSerial)
    (ords : list (ObservationIdentity * nat)) (slots : list WordSlot)
    : EvidenceRefusal + list WordEvidenceReceipt :=
  match slots with
  | [] => inr []
  | slot :: rest =>
      let words := split_whitespace (ws_text slot) in
      let? here := compose_words slot serial (slot_source_ranges L slot)
                     (ordinal_of ords (ws_observation slot)) words in
      let? tail := compose_slots L serial
                     (bump_ordinal ords (ws_observation slot) (length words)) rest in
      inr (here ++ tail)
  end.

(** An occurrence with no tokens is allowed only when its words were deleted. *)
Definition deleted_whole (L : AcousticLedger) (o : OccurrenceIdentity) (held : CommittedObservation)
    : bool :=
  bool_decide (co_slots held = [])
  && existsb (λ d, bool_decide (occurrence (so_observation (wd_operation d)) = o))
       (lg_word_deletions L).

Definition inside_coverage (coverage o : OccurrenceIdentity) : bool :=
  same_capture o coverage && (sample_start coverage <=? sample_start o)
  && (sample_end o <=? sample_end coverage).

Definition compose_occurrence (L : AcousticLedger) (o : OccurrenceIdentity)
    (held : CommittedObservation) : EvidenceRefusal + list WordEvidenceReceipt :=
  match lg_evidence L !! o with
  | None => inl OccurrenceNotQualified
  | Some serial =>
      let? tokens := compose_slots L serial [] (co_slots held) in
      if bool_decide (tokens = []) && negb (deleted_whole L o held) then inl EmptyToken
      else inr tokens
  end.

Fixpoint compose_all (L : AcousticLedger) (l : list OccurrenceIdentity)
    : EvidenceRefusal + list WordEvidenceReceipt :=
  match l with
  | [] => inr []
  | o :: rest =>
      match lg_committed L !! o with
      | None => compose_all L rest
      | Some held =>
          let? here := compose_occurrence L o held in
          let? tail := compose_all L rest in
          inr (here ++ tail)
      end
  end.

Definition composed_occurrences (L : AcousticLedger) (coverage : OccurrenceIdentity)
    : list OccurrenceIdentity :=
  List.filter (inside_coverage coverage) (btree_keys (lg_committed L)).

Definition compose (L : AcousticLedger) (coverage : OccurrenceIdentity)
    : EvidenceRefusal + OccurrenceComposition :=
  let? tokens := compose_all L (composed_occurrences L coverage) in
  inr (mkComposition coverage tokens).

(* ------------------------------------------------------------------ *)
(** ** Derivations *)

Definition parents (d : OccurrenceDerivation) : list OccurrenceIdentity :=
  match d with
  | DerivationSplit parent _ | DerivationRefine parent _ => [parent]
  | DerivationMerge ps _ => ps
  end.

Definition children (d : OccurrenceDerivation) : list OccurrenceIdentity :=
  match d with
  | DerivationSplit _ cs => cs
  | DerivationMerge _ child | DerivationRefine _ child => [child]
  end.

Definition range_inside (inner outer : OccurrenceIdentity) : bool :=
  negb ((sample_start inner <? sample_start outer) || (sample_end outer <? sample_end inner)).

(** [windows(2).all(..)] over the sorted children. *)
Fixpoint separated (valley : Z) (l : list OccurrenceIdentity) : bool :=
  match l with
  | a :: (b :: _) as rest =>
      (valley <=? sat_sub (sample_start b) (sample_end a)) && separated valley rest
  | _ => true
  end.

Definition rejects (d : OccurrenceDerivation) (cal : EnergyCalibration) : option string :=
  match parents d, children d with
  | [], _ | _, [] => Some "derivation_without_endpoints"%string
  | anchor :: _, _ =>
      let ends := parents d ++ children d in
      if existsb (λ c, negb (is_anchored c)) ends
      then Some "derivation_endpoint_unanchored"%string
      else if existsb (λ c, negb (same_capture c anchor)) ends
      then Some "derivation_crosses_capture"%string
      else
        match d with
        | DerivationSplit parent cs =>
            if (length cs <? 2)%nat then Some "split_without_two_children"%string
            else if existsb (λ c, negb (range_inside c parent)) cs
            then Some "split_child_outside_parent"%string
            else if negb (separated (cal_min_valley_samples cal) (merge_sort occ_le cs))
            then Some "split_without_calibrated_valley"%string
            else None
        | DerivationMerge ps child =>
            if (length ps <? 2)%nat then Some "merge_without_two_parents"%string
            else if existsb (λ p, negb (range_inside p child)) ps
            then Some "merge_parent_outside_child"%string
            else None
        | DerivationRefine parent child =>
            if negb (range_inside child parent) then Some "refine_child_outside_parent"%string
            else None
        end
  end.

Definition record_derivation (L : AcousticLedger) (d : OccurrenceDerivation)
    (cal : EnergyCalibration) : AcousticLedger * (string + unit) :=
  match rejects d cal with
  | Some reason => (L, inl reason)
  | None =>
      if existsb (λ p, negb (is_qualified L p)) (parents d)
      then (L, inl "derivation_parent_not_qualified"%string)
      else (L <| lg_derivations ::= λ l, l ++ [d] |>, inr tt)
  end.

Definition derivations_of (L : AcousticLedger) (o : OccurrenceIdentity)
    : list OccurrenceDerivation :=
  List.filter (λ d, existsb (λ c, bool_decide (c = o)) (parents d ++ children d))
    (lg_derivations L).

(* ------------------------------------------------------------------ *)
(** ** Cumulative finals *)

Inductive CumulativeFinalAdmission :=
  | WhollyNovel
  | AlignInside (canvas_words_under_authority : Z)
  | NoAnchor (reason : NoAuthorityReason).

(** Newest first, until the first disjoint range. *)
Fixpoint words_under (window : OccurrenceIdentity) (l : list (OccurrenceIdentity * Z))
    (touched : bool) (words : Z) : bool * Z :=
  match l with
  | [] => (touched, words)
  | (o, n) :: rest =>
      match relate window o with
      | Same | Overlapping _ => words_under window rest true (words + n)
      | Disjoint => (touched, words)
      | Unanchored | DifferentCapture => words_under window rest touched words
      end
  end.

Definition comparable (window : OccurrenceIdentity) (committed : list (OccurrenceIdentity * Z))
    : list (OccurrenceIdentity * Z) :=
  List.filter (λ c, is_anchored c.1 && same_capture c.1 window) committed.

Definition cumulative_decide (window : OccurrenceIdentity)
    (committed : list (OccurrenceIdentity * Z)) : CumulativeFinalAdmission :=
  if negb (is_anchored window) then NoAnchor ZeroWidth
  else
    match comparable window committed with
    | [] => NoAnchor NoRange
    | l =>
        let '(touched, words) := words_under window (rev l) false 0 in
        if touched then AlignInside words else WhollyNovel
    end.

Definition for_cumulative_restatement (open_occurrences : list (OccurrenceIdentity * Z))
    : CumulativeFinalAdmission :=
  let words := zsum (map snd open_occurrences) in
  if words =? 0 then NoAnchor NoRange else AlignInside words.

Definition authorized_canvas (a : CumulativeFinalAdmission) (canvas : list string) : list string :=
  match a with
  | WhollyNovel => []
  | AlignInside words =>
      let take := Z.min words (Z.of_nat (length canvas)) in
      drop (length canvas - Z.to_nat take) canvas
  | NoAnchor _ => canvas
  end.

Definition clamp_known_prefix (a : CumulativeFinalAdmission) (matcher_known_words : Z) : Z :=
  match a with
  | WhollyNovel => 0
  | AlignInside words => Z.min matcher_known_words words
  | NoAnchor _ => matcher_known_words
  end.

Definition cumulative_as_str (a : CumulativeFinalAdmission) : string :=
  match a with
  | WhollyNovel => "wholly_novel"
  | AlignInside _ => "align_inside"
  | NoAnchor _ => "no_anchor"
  end.
