(* ===== verification/LedgerEvidenceFacts.v ===== *)
(** LedgerEvidenceFacts: what evidence guarantees.

    The serial's input determines the evidence it was minted from, qualification
    admits exactly the calibrated regions, the window index answers like a scan
    of every qualified owner, a pin has one best owner, a composed document
    cites the serial of each word's own occurrence, and a split is accepted only
    over real valleys. *)

From S2P Require Import Prelude.
From S2P Require Import Text.
From S2P Require Import GroupAlignment.
From S2P Require Import LedgerIdentity.
From S2P Require Import LedgerSpans.
From S2P Require Import LedgerState.
From S2P Require Import LedgerCoverage.
From S2P Require Import LedgerDecision.
From S2P Require Import LedgerDecisionFacts.
From S2P Require Import LedgerSeal.
From S2P Require Import LedgerSealFacts.
From S2P Require Import LedgerEvidence.
#[local] Open Scope Z_scope.

(* ------------------------------------------------------------------ *)
(** ** The serial's input *)

(** The widths of the fields: every number is a [u64]. *)
Record evidence_wf (e : AcousticEvidence) : Prop := {
  ewf_epoch : is_u64 (capture_epoch (ev_occurrence e));
  ewf_start : is_u64 (sample_start (ev_occurrence e));
  ewf_end : is_u64 (sample_end (ev_occurrence e));
  ewf_duration : is_u64 (ev_duration_ms e);
  ewf_energy : is_u64 (ev_energy_integral e);
  ewf_mean : is_u64 (ev_mean_rms_dbfs e);
  ewf_peak : is_u64 (ev_peak_dbfs e);
  ewf_open : ∀ s, ev_vad_open_sample e = Some s → is_u64 s;
  ewf_close : ∀ s, ev_vad_close_sample e = Some s → is_u64 s
}.

Lemma boundary_inj a b :
  (∀ s, a = Some s → is_u64 s) → (∀ s, b = Some s → is_u64 s) → boundary a = boundary b → a = b.
Proof.
  assert (Hnone : ∀ n, is_u64 n → show_u64 n ≠ "none"%string).
  { intros n Hn H. pose proof (read_show_u64 n Hn) as Hr. rewrite H in Hr.
    vm_compute in Hr. subst n. vm_compute in H. done. }
  intros Ha Hb. destruct a as [a|], b as [b|]; simpl; intros H; try done.
  - f_equal. apply show_u64_inj; auto.
  - by apply Hnone in H; auto.
  - symmetry in H. by apply Hnone in H; auto.
Qed.

Lemma boundary_one_line a : (∀ s, a = Some s → is_u64 s) → one_line (boundary a) = true.
Proof. intros Ha. destruct a as [s|]; simpl; [apply show_u64_one_line; auto|done]. Qed.

Lemma canonical_lines_one_line e :
  evidence_wf e → one_line (session (ev_occurrence e)) = true →
  Forall (λ s, one_line s = true) (canonical_lines e).
Proof.
  intros [] Hs. unfold canonical_lines.
  repeat constructor; try done;
    first [by apply show_u64_one_line | by apply boundary_one_line | apply show_u64_one_line; mach].
Qed.

(** over sessions named in one line the canonical input of a serial is
    injective: two pieces of evidence with the same digest input are the same
    evidence, to the bit of every float and the presence of every voice
    boundary, whatever the calibration version is called. *)
Theorem canonical_input_injective e1 e2
    (Hwf1 : evidence_wf e1) (Hwf2 : evidence_wf e2)
    (Hs1 : one_line (session (ev_occurrence e1)) = true)
    (Hs2 : one_line (session (ev_occurrence e2)) = true)
    (Heq : canonical_input e1 = canonical_input e2) :
  e1 = e2.
Proof.
  unfold canonical_input in Heq. apply join_lines_inj in Heq as [Hl Hv];
    [|done|by apply canonical_lines_one_line|by apply canonical_lines_one_line].
  destruct e1 as [[s1 ep1 st1 en1] d1 i1 m1 p1 o1 c1 v1], e2 as [[s2 ep2 st2 en2] d2 i2 m2 p2 o2 c2 v2].
  destruct Hwf1, Hwf2. simpl in *.
  injection Hl as H1 H2 H3 H4 H5 H6 H7 H8 H9 H10.
  apply show_u64_inj in H2, H3, H4, H5, H6, H7, H8; try done.
  apply boundary_inj in H9, H10; try done. by subst.
Qed.

(* ------------------------------------------------------------------ *)
(** ** Qualification *)

Section qualify.
Context (sha256 : string → list Z).
Local Abbreviation qualify := (qualify sha256).
Local Abbreviation qualify_all := (qualify_all sha256).
Local Abbreviation mint := (mint sha256).

(** The existence predicate. *)
Definition exists_as_speech (e : AcousticEvidence) (cal : EnergyCalibration) : Prop :=
  is_anchored (ev_occurrence e) = true ∧ ev_calibration_version e = cal_version cal ∧
  f64_lt (ev_energy_integral e) (cal_min_energy_integral cal) = false ∧
  ∃ open, ev_vad_open_sample e = Some open ∧ open <= sample_start (ev_occurrence e).

Lemma qualify_cases L e cal :
  (exists_as_speech e cal ∧ (qualify L e cal).2 = Qualified (ev_occurrence e) (mint e)) ∨
  (¬ exists_as_speech e cal ∧ ∃ reason, qualify L e cal = (L, AdmissionRefused (ev_occurrence e) reason)).
Proof.
  unfold LedgerEvidence.qualify, exists_as_speech.
  destruct (is_anchored (ev_occurrence e)) eqn:Ha; cbn [negb]; [|right; split; [by intros [? _]|eauto]].
  destruct (String.eqb_spec (ev_calibration_version e) (cal_version cal)); cbn [negb];
    [|right; split; [by intros (? & ? & _)|eauto]].
  destruct (f64_lt _ _) eqn:He; [right; split; [by intros (_ & _ & ? & _)|eauto]|].
  destruct (ev_vad_open_sample e) as [open|] eqn:Hv; cbn [negb].
  - destruct (open <=? _) eqn:Ho; cbn [negb]; zbool.
    + left. split; [eauto 6|done].
    + right. split; [|eauto]. intros (_ & _ & _ & x & [= <-] & ?). lia.
  - right. split; [|eauto]. by intros (_ & _ & _ & x & ? & ?).
Qed.

Lemma qualify_evidence L e cal :
  lg_evidence (qualify L e cal).1 =
    (if admission_is_qualified (qualify L e cal).2
     then <[ev_occurrence e := mint e]> (lg_evidence L) else lg_evidence L) ∧
  lg_qualified_by_end (qualify L e cal).1 =
    (if admission_is_qualified (qualify L e cal).2
     then <[sample_end (ev_occurrence e) :=
              {[ ev_occurrence e ]} ∪ default ∅ (lg_qualified_by_end L !! sample_end (ev_occurrence e))]>
            (lg_qualified_by_end L)
     else lg_qualified_by_end L).
Proof.
  unfold LedgerEvidence.qualify.
  destruct (negb _); [done|]. destruct (negb _); [done|]. destruct (f64_lt _ _); [done|].
  destruct (negb _); [done|]. simpl. by destruct (is_sealed _ _).
Qed.

(** a region qualifies exactly when it has samples, was measured under the
    calibration that judges it, is not below the energy floor and was opened
    by voice detection at or before its first sample; then its serial is held
    under its own coordinate and nothing else of the evidence changes; a
    refused region changes nothing. *)
Theorem qualify_exact L e cal :
  let '(L', receipt) := qualify L e cal in
  (admission_is_qualified receipt = true ↔ exists_as_speech e cal) ∧
  (exists_as_speech e cal →
     receipt = Qualified (ev_occurrence e) (mint e) ∧
     lg_evidence L' = <[ev_occurrence e := mint e]> (lg_evidence L) ∧
     lg_committed L' = lg_committed L ∧ lg_seals L' = lg_seals L ∧
     (ev_occurrence e ∈ lg_unsealed_qualified L' ∨ is_sealed L (ev_occurrence e) = true)) ∧
  (¬ exists_as_speech e cal → L' = L).
Proof.
  pose proof (qualify_cases L e cal) as H. pose proof (qualify_evidence L e cal) as [He _].
  destruct (LedgerEvidence.qualify _ _ _ _) as [L' r] eqn:Hq. simpl in *.
  destruct H as [[Hx ->]|[Hx [reason [= -> ->]]]].
  - split; [by split|]. split; [|done]. intros _. simpl in He.
    assert (H : lg_committed L' = lg_committed L ∧ lg_seals L' = lg_seals L ∧
      (ev_occurrence e ∈ lg_unsealed_qualified L' ∨ is_sealed L (ev_occurrence e) = true)).
    { revert Hq. unfold LedgerEvidence.qualify.
      destruct (negb _); [done|]. destruct (negb _); [done|]. destruct (f64_lt _ _); [done|].
      destruct (negb _); [done|].
      match goal with |- context [is_sealed ?a ?b] => change (is_sealed a b) with (is_sealed L b) end.
      destruct (is_sealed L _); intros [= <-]; simpl; [auto|]. split_and!; try done. set_solver. }
    tauto.
  - split; [by split|done].
Qed.

(* ------------------------------------------------------------------ *)
(** ** The window index *)

(** The index by acoustic end holds the qualified owners, each under its end. *)
Definition by_end_ok (L : AcousticLedger) : Prop :=
  ∀ e o, o ∈ default ∅ (lg_qualified_by_end L !! e) ↔ sample_end o = e ∧ is_Some (lg_evidence L !! o).

Lemma qualify_by_end_ok L e cal : by_end_ok L → by_end_ok (qualify L e cal).1.
Proof.
  unfold by_end_ok. intros Hok end_ o. destruct (qualify_evidence L e cal) as [-> ->].
  destruct (admission_is_qualified _); [|apply Hok].
  destruct (decide (sample_end (ev_occurrence e) = end_)) as [<-|Hne].
  - rewrite lookup_insert_eq. simpl. rewrite elem_of_union, elem_of_singleton, Hok.
    destruct (decide (o = ev_occurrence e)) as [->|Hne].
    + rewrite lookup_insert_eq. naive_solver.
    + rewrite lookup_insert_ne by done. naive_solver.
  - rewrite lookup_insert_ne by done. rewrite Hok.
    destruct (decide (o = ev_occurrence e)) as [->|Hne'].
    + naive_solver.
    + by rewrite lookup_insert_ne.
Qed.

Lemma qualify_all_by_end_ok L l : by_end_ok L → by_end_ok (qualify_all L l).
Proof.
  revert L. induction l as [|[e cal] l IH]; intros L HL; simpl; [done|].
  by apply IH, qualify_by_end_ok.
Qed.

Lemma NoDup_flat_map {A B} (f : A → list B) l :
  NoDup l → (∀ a, NoDup (f a)) → (∀ a b x, x ∈ f a → x ∈ f b → a = b) → NoDup (flat_map f l).
Proof.
  intros Hl Hf Hd. induction Hl as [|a l Ha Hl IH]; simpl; [constructor|].
  apply NoDup_app. split; [apply Hf|]. split; [|done].
  intros x Hx Hin. apply list_elem_of_In, in_flat_map in Hin as (b & Hb & Hx').
  apply list_elem_of_In in Hb, Hx'. by rewrite (Hd a b x Hx Hx') in Ha.
Qed.

Lemma NoDup_list_filter {A} (p : A → bool) l : NoDup l → NoDup (List.filter p l).
Proof.
  intros H. apply NoDup_ListNoDup, List.NoDup_filter. by apply NoDup_ListNoDup.
Qed.

Lemma elem_list_filter {A} (p : A → bool) l x : x ∈ List.filter p l ↔ x ∈ l ∧ p x = true.
Proof. rewrite !list_elem_of_In. apply filter_In. Qed.

Lemma StronglySorted_list_filter {A} (R : relation A) (p : A → bool) l :
  StronglySorted R l → StronglySorted R (List.filter p l).
Proof.
  induction 1 as [|x l Hs IH Hx]; simpl; [constructor|]. destruct (p x); [|done].
  constructor; [done|]. rewrite Forall_forall in *. intros y Hy.
  apply elem_list_filter in Hy as [Hy _]. auto.
Qed.

(** for every history of qualifications the index by acoustic end answers a
    window query with exactly the qualified owners that overlap the window, in
    capture order, as a scan of every owner would. *)
Theorem window_index_exact qualifications range :
  let L := qualify_all ledger_new qualifications in
  qualified_occurrences_overlapping L range =
  List.filter (λ o, overlaps_window range o && (sample_start range <? sample_end o))
    (qualified_occurrences L).
Proof.
  intros L. assert (Hok : by_end_ok L).
  { apply qualify_all_by_end_ok. intros e o. simpl. rewrite !lookup_empty. simpl.
    split; [set_solver|]. intros [_ H]. by apply is_Some_None in H. }
  unfold qualified_occurrences_overlapping, qualified_occurrences. symmetry.
  apply occ_sort_unique; [by apply StronglySorted_list_filter, btree_keys_sorted|].
  assert (Hin : ∀ e o, o ∈ btree_elements (default ∅ (lg_qualified_by_end L !! e)) ↔
      sample_end o = e ∧ is_Some (lg_evidence L !! o)).
  { intros e o. rewrite btree_elements_spec. apply Hok. }
  apply NoDup_Permutation.
  - apply NoDup_list_filter, btree_keys_NoDup.
  - apply NoDup_list_filter, NoDup_flat_map.
    + rewrite merge_sort_Permutation. apply NoDup_list_filter, NoDup_fst_map_to_list.
    + intros e. apply btree_elements_NoDup.
    + intros a b x Ha Hb. apply Hin in Ha as [<- _], Hb as [<- _]. done.
  - intros o. rewrite !elem_list_filter, btree_keys_spec, andb_true_iff.
    assert (Hflat : o ∈ flat_map (λ e, btree_elements (default ∅ (lg_qualified_by_end L !! e)))
        (merge_sort Z.le (List.filter (λ e, sample_start range <? e)
           (map_to_list (lg_qualified_by_end L)).*1)) ↔
      is_Some (lg_evidence L !! o) ∧ (sample_start range <? sample_end o) = true).
    { rewrite list_elem_of_In, in_flat_map. setoid_rewrite <- list_elem_of_In.
      setoid_rewrite Hin. setoid_rewrite (merge_sort_Permutation Z.le).
      setoid_rewrite elem_list_filter. split.
      - intros (e & [_ He] & <- & Ho). done.
      - intros [Ho He]. exists (sample_end o). split; [|done]. split; [|done].
        assert (Hm : o ∈ default ∅ (lg_qualified_by_end L !! sample_end o)) by (apply Hok; done).
        destruct (lg_qualified_by_end L !! sample_end o) as [s|] eqn:Hs; [|set_solver].
        apply list_elem_of_fmap. exists (sample_end o, s). split; [done|].
        by apply elem_of_map_to_list. }
    rewrite Hflat. naive_solver.
Qed.
End qualify.

(* ------------------------------------------------------------------ *)
(** ** Owners of pins *)

Section owners.
Context (L : AcousticLedger) (pin : OccurrenceIdentity).

Lemma owner_key_total a b : owner_key_le L a b = true ∨ owner_key_le L b a = true.
Proof.
  unfold owner_key_le. destruct (is_sealed L a), (is_sealed L b); simpl; auto.
  all: rewrite (Z.eqb_sym (sample_start b)); destruct (_ =? _) eqn:?; zbool;
    rewrite ?Z.leb_le, ?Z.ltb_lt; lia.
Qed.

Lemma owner_key_trans a b c :
  owner_key_le L a b = true → owner_key_le L b c = true → owner_key_le L a c = true.
Proof.
  unfold owner_key_le.
  destruct (is_sealed L a), (is_sealed L b), (is_sealed L c); simpl; try done;
    destruct (Z.eqb_spec (sample_start a) (sample_start b));
    destruct (Z.eqb_spec (sample_start b) (sample_start c));
    destruct (Z.eqb_spec (sample_start a) (sample_start c));
    rewrite ?Z.leb_le, ?Z.ltb_lt; lia.
Qed.

(** The best of the owners seen so far, [seen] being the owners before [i]. *)
Definition best_of (seen : list OccurrenceIdentity) (best : option (nat * OccurrenceIdentity)) : Prop :=
  match best with
  | None => ∀ o, o ∈ seen → owner_candidate L pin o = false
  | Some (i, o) =>
      seen !! i = Some o ∧ owner_candidate L pin o = true ∧
      ∀ j o', seen !! j = Some o' → owner_candidate L pin o' = true →
        owner_key_le L o' o = true ∧ ((i < j)%nat → owner_key_le L o o' = false)
  end.

Lemma best_of_snoc_skip seen best o :
  best_of seen best → owner_candidate L pin o = false → best_of (seen ++ [o]) best.
Proof.
  intros Hb Ho. destruct best as [[i x]|]; simpl in *.
  - destruct Hb as (Hi & Hc & Hmax). split; [by apply lookup_app_l_Some|]. split; [done|].
    intros j o' Hj Hc'. apply lookup_app_Some in Hj as [Hj|[_ Hj]]; [eauto|].
    apply list_lookup_singleton_Some in Hj as [_ <-]. congruence.
  - intros x Hx. apply elem_of_app in Hx as [Hx|Hx]; [auto|].
    by apply list_elem_of_singleton in Hx as ->.
Qed.

Lemma best_of_snoc_take seen best o :
  best_of seen best → owner_candidate L pin o = true →
  best_of (seen ++ [o])
    match best with
    | Some (j, held) => if owner_key_le L held o then Some (length seen, o) else best
    | None => Some (length seen, o)
    end.
Proof.
  intros Hb Ho.
  assert (Hnew : (∀ j o', seen !! j = Some o' → owner_candidate L pin o' = true →
      owner_key_le L o' o = true) → best_of (seen ++ [o]) (Some (length seen, o))).
  { intros Hle. simpl. split; [by apply list_lookup_middle|]. split; [done|].
    intros j o' Hj Hc'. apply lookup_app_Some in Hj as [Hj|[Hj1 Hj]].
    - split; [eauto|]. apply lookup_lt_Some in Hj. lia.
    - apply list_lookup_singleton_Some in Hj as [Hj <-].
      split; [by destruct (owner_key_total o o)|lia]. }
  destruct best as [[i x]|]; simpl in Hb.
  - destruct Hb as (Hi & Hc & Hmax). destruct (owner_key_le L x o) eqn:Hle.
    + apply Hnew. intros j o' Hj Hc'. destruct (Hmax j o' Hj Hc') as [H _].
      by eapply owner_key_trans.
    + simpl. split; [by apply lookup_app_l_Some|]. split; [done|].
      intros j o' Hj Hc'. apply lookup_app_Some in Hj as [Hj|[_ Hj]]; [eauto|].
      apply list_lookup_singleton_Some in Hj as [_ <-]. split; [|done].
      destruct (owner_key_total o x); congruence.
  - apply Hnew. intros j o' Hj Hc'. apply list_elem_of_lookup_2 in Hj. rewrite Hb in Hc'; done.
Qed.

Lemma best_owner_best_of rest seen best :
  best_of seen best → best_of (seen ++ rest) (best_owner L pin (length seen) best rest).
Proof.
  revert seen best. induction rest as [|o rest IH]; intros seen best Hb; simpl.
  - by rewrite app_nil_r.
  - replace (S (length seen)) with (length (seen ++ [o])) by (rewrite length_app; simpl; lia).
    replace (seen ++ o :: rest) with ((seen ++ [o]) ++ rest) by (by rewrite <- app_assoc).
    apply IH. destruct (owner_candidate L pin o) eqn:Ho.
    + by apply best_of_snoc_take.
    + by apply best_of_snoc_skip.
Qed.

(** a word pin goes to the best of the qualified owners of its capture that
    contain its centre: open before sealed, then the later start, then the
    shorter extent, then the later in the list; no owner is chosen only when
    none qualifies. *)
Theorem word_owner_index_best owners :
  match word_owner_index L pin owners with
  | Some i => ∃ o, owners !! i = Some o ∧ owner_candidate L pin o = true ∧
      ∀ j o', owners !! j = Some o' → owner_candidate L pin o' = true →
        owner_key_le L o' o = true ∧ ((i < j)%nat → owner_key_le L o o' = false)
  | None => is_anchored pin = false ∨ ∀ o, o ∈ owners → owner_candidate L pin o = false
  end.
Proof.
  unfold word_owner_index. destruct (is_anchored pin); [cbn [negb]|by left].
  assert (Hbo : best_of owners (best_owner L pin 0 None owners)).
  { apply (best_owner_best_of owners []). simpl. set_solver. }
  destruct (best_owner L pin 0 None owners) as [[i o]|]; simpl in *; [eauto|by right].
Qed.
End owners.

(* ------------------------------------------------------------------ *)
(** ** Composition *)

Definition slot_words (slots : list WordSlot) : list string :=
  flat_map (λ slot, split_whitespace (ws_text slot)) slots.

Lemma cite_inv token n obs serials c w :
  cite token n obs serials c = inr w →
  wr_token w = token ∧ wr_serials w = serials ∧ wr_producer w = producer obs ∧
  (∀ s e, c = Some (s, e) → ∃ serial, serial ∈ serials ∧
     sample_start (ser_occurrence serial) <= s < e ∧ e <= sample_end (ser_occurrence serial)).
Proof.
  unfold cite. destruct (trim_is_empty token); [done|]. case_bool_decide; [done|].
  destruct c as [[s e]|]; simpl.
  - destruct (existsb _ serials) eqn:He; simpl; [|done]. intros [= <-]. simpl. split_and!; try done.
    intros s' e' [= <- <-]. apply existsb_true in He as (serial & Hin & Hs).
    unfold supports in Hs. simpl in Hs. zbool. exists serial. split; [done|]. lia.
  - intros [= <-]. done.
Qed.

Lemma compose_words_inv slot serial ranges n words ws :
  compose_words slot serial ranges n words = inr ws →
  map wr_token ws = words ∧ Forall (λ w, wr_serials w = [serial]) ws.
Proof.
  revert n ws. induction words as [|word words IH]; intros n ws; simpl.
  - intros [= <-]. done.
  - destruct (cite _ _ _ _ _) as [|w] eqn:Hc; [done|].
    destruct (compose_words _ _ _ _ words) as [|tail] eqn:Ht; [done|].
    intros [= <-]. destruct (IH _ _ Ht) as [<- Hf]. apply cite_inv in Hc as (<- & Hs & _).
    simpl. split; [done|]. constructor; done.
Qed.

Lemma compose_slots_inv L serial ords slots ws :
  compose_slots L serial ords slots = inr ws →
  map wr_token ws = slot_words slots ∧ Forall (λ w, wr_serials w = [serial]) ws.
Proof.
  revert ords ws. induction slots as [|slot slots IH]; intros ords ws; cbn [compose_slots].
  - intros [= <-]. done.
  - destruct (compose_words _ _ _ _ _) as [|here] eqn:Hh; [done|].
    destruct (compose_slots _ _ _ slots) as [|tail] eqn:Ht; [done|].
    intros [= <-]. apply compose_words_inv in Hh as [Hw Hs].
    destruct (IH _ _ Ht) as [Hw' Hs']. rewrite map_app, Hw, Hw'.
    split; [done|]. by apply Forall_app.
Qed.

(** One occurrence's share of a composed document. *)
Definition composed_share (L : AcousticLedger) (o : OccurrenceIdentity)
    (ws : list WordEvidenceReceipt) : Prop :=
  ∃ held serial, lg_committed L !! o = Some held ∧ lg_evidence L !! o = Some serial ∧
    map wr_token ws = slot_words (co_slots held) ∧
    Forall (λ w, wr_serials w = [serial]) ws ∧
    (ws ≠ [] ∨ deleted_whole L o held = true).

Lemma compose_all_inv L l ws :
  (∀ o, o ∈ l → is_Some (lg_committed L !! o)) →
  compose_all L l = inr ws →
  ∃ shares, Forall2 (composed_share L) l shares ∧ ws = concat shares.
Proof.
  revert ws. induction l as [|o l IH]; intros ws Hl; simpl.
  - intros [= <-]. exists []. done.
  - destruct (Hl o) as [held Hh]; [by left|]. rewrite Hh. unfold compose_occurrence.
    destruct (lg_evidence L !! o) as [serial|] eqn:He; [|done].
    destruct (compose_slots _ _ _ _) as [|here] eqn:Hs; [done|].
    destruct (_ && _) eqn:Hd; [done|].
    destruct (compose_all L l) as [|tail] eqn:Ht; [done|]. intros [= <-].
    destruct (IH tail) as (shares & Hf & ->); [intros x Hx; apply Hl; by right|done|].
    exists (here :: shares). split; [|done]. constructor; [|done].
    apply compose_slots_inv in Hs as [Hw Hf'].
    exists held, serial. split_and!; try done.
    destruct (decide (here = [])) as [->|]; [right|by left].
    rewrite bool_decide_true in Hd by done. by apply negb_false_iff in Hd.
Qed.

(** a document composes only when every occurrence it covers is qualified
    and holds words or an explicit deletion; its tokens are then, in capture
    order, exactly the words of the held slots, each signed with the serial of
    its own occurrence. *)
Theorem compose_signed L coverage c
    (Hok : compose L coverage = inr c) :
  cmp_coverage c = coverage ∧ is_fully_signed c = true ∧
  ∃ shares, cmp_tokens c = concat shares ∧
    Forall2 (composed_share L) (composed_occurrences L coverage) shares.
Proof.
  unfold compose in Hok. destruct (compose_all _ _) as [|ws] eqn:Hc; [done|].
  injection Hok as <-. apply compose_all_inv in Hc as (shares & Hf & ->).
  - split; [done|]. split; [|by exists shares]. unfold is_fully_signed. simpl.
    apply forallb_true. intros w Hw. apply list_elem_of_In, in_concat in Hw as (ws & Hws & Hw).
    apply list_elem_of_In in Hws, Hw.
    apply (Forall2_Forall_r _ (λ ws, Forall (λ w, wr_serials w ≠ []) ws)) in Hf.
    + by rewrite bool_decide_false by (apply (Forall_elem _ _ _ (Forall_elem _ _ _ Hf Hws) Hw)).
    + apply Forall_forall. intros o _ xs (held & serial & _ & _ & _ & Hs & _).
      eapply Forall_impl; [exact Hs|]. simpl. by intros x ->.
  - intros o Ho. apply elem_list_filter in Ho as [Ho _]. by apply btree_keys_spec.
Qed.

(* ------------------------------------------------------------------ *)
(** ** Derivations *)

Lemma separated_pairwise valley l i j a b :
  0 < valley → Forall (λ o, is_anchored o = true) l → separated valley l = true →
  l !! i = Some a → l !! j = Some b → (i < j)%nat →
  sample_end a + valley <= sample_start b.
Proof.
  intros Hv. revert i j a b. induction l as [|x l IH]; intros i j a b Hf Hs Ha Hb Hij; [done|].
  apply Forall_cons in Hf as [Hx Hf]. destruct j as [|j]; [lia|]. simpl in Hb.
  destruct l as [|y l]; [done|]. cbn [separated] in Hs. apply andb_true_iff in Hs as [Hxy Hs].
  apply Z.leb_le in Hxy. unfold sat_sub in Hxy.
  destruct i as [|i]; simpl in Ha.
  - injection Ha as <-. destruct j as [|j]; simpl in Hb.
    + injection Hb as <-. lia.
    + assert (Hyb : sample_end y + valley <= sample_start b)
        by (apply (IH 0%nat (S j) y b); done || lia).
      apply Forall_cons in Hf as [Hy _]. unfold is_anchored in Hy. zbool. lia.
  - apply (IH i j a b); done || lia.
Qed.

(** a split is recorded only over real valleys: under a positive valley
    floor its children lie inside the qualified parent and, in capture order,
    every two of them are at least the floor apart; recording any derivation
    appends it and leaves everything else of the ledger, the parents' serials
    included, as it was. *)
Theorem derivation_sound L parent cs cal L'
    (Hfloor : 0 < cal_min_valley_samples cal)
    (Hok : record_derivation L (DerivationSplit parent cs) cal = (L', inr tt)) :
  is_Some (lg_evidence L !! parent) ∧ (2 <= length cs)%nat ∧
  (∀ c, c ∈ cs → is_anchored c = true ∧ same_capture c parent = true ∧
     sample_start parent <= sample_start c ∧ sample_end c <= sample_end parent) ∧
  (∀ i j a b, merge_sort occ_le cs !! i = Some a → merge_sort occ_le cs !! j = Some b →
     (i < j)%nat → sample_end a + cal_min_valley_samples cal <= sample_start b) ∧
  L' = L <| lg_derivations := lg_derivations L ++ [DerivationSplit parent cs] |>.
Proof.
  unfold record_derivation in Hok. destruct (rejects _ _) eqn:Hr; [done|].
  destruct (existsb _ (parents _)) eqn:Hq; [done|]. injection Hok as <-.
  unfold rejects in Hr. simpl parents in Hr. simpl children in Hr.
  destruct cs as [|c0 cs0] eqn:Hcs; [done|]. rewrite <- Hcs in *.
  destruct (existsb _ ([parent] ++ cs)) eqn:Ha in Hr; [done|].
  destruct (existsb _ ([parent] ++ cs)) eqn:Hc in Hr; [done|].
  destruct (length cs <? 2)%nat eqn:Hn; [done|].
  destruct (existsb _ cs) eqn:Hi in Hr; [done|].
  destruct (separated _ _) eqn:Hs; [|done].
  rewrite existsb_false in Ha, Hc, Hi, Hq. apply Nat.ltb_ge in Hn.
  assert (Hanch : ∀ c, c ∈ cs → is_anchored c = true).
  { intros c Hin. specialize (Ha c). apply negb_false_iff, Ha. by right. }
  split_and!; try done.
  - specialize (Hq parent). simpl in Hq. apply negb_false_iff in Hq; [|by left].
    unfold is_qualified in Hq. by zbool.
  - intros c Hin. split_and!; [by apply Hanch|..].
    + specialize (Hc c). apply negb_false_iff, Hc. by right.
    + specialize (Hi c Hin). unfold range_inside in Hi. zbool. lia.
    + specialize (Hi c Hin). unfold range_inside in Hi. zbool. lia.
  - intros i j a b Hia Hjb Hij. apply (separated_pairwise _ (merge_sort occ_le cs) i j a b); try done.
    apply Forall_forall. intros o Ho. apply Hanch. by rewrite merge_sort_Permutation in Ho.
Qed.

(* ------------------------------------------------------------------ *)
(** ** Cumulative finals *)

Definition overlapping_words (window : OccurrenceIdentity) (l : list (OccurrenceIdentity * Z)) : Z :=
  zsum (map snd (List.filter (λ c, match relate window c.1 with
                                   | Same | Overlapping _ => true | _ => false end) l)).

Lemma words_under_bound window l touched words :
  Forall (λ c, 0 <= c.2) l →
  words <= (words_under window l touched words).2 <= words + overlapping_words window l ∧
  ((words_under window l touched words).1 = false → touched = false).
Proof.
  unfold overlapping_words. revert touched words.
  induction l as [|[o n] l IH]; intros touched words Hf; simpl; [split; [lia|done]|].
  apply Forall_cons in Hf as [Hn Hf]. simpl in Hn.
  assert (Hnn : 0 <= zsum (map snd (List.filter (λ c, match relate window c.1 with
                                   | Same | Overlapping _ => true | _ => false end) l))).
  { apply zsum_nonneg, Forall_fmap, Forall_forall. intros x Hx. apply elem_list_filter in Hx as [Hx _].
    by apply (Forall_elem _ _ _ Hf). }
  destruct (relate window o) eqn:Hr; simpl; unfold zsum in *; simpl;
    try (destruct (IH touched words Hf) as [? ?]; split; [lia|done]);
    try (destruct (IH true (words + n) Hf) as [? H2]; split; [lia|];
         intros H3; specialize (H2 H3); done).
Qed.

Lemma overlapping_words_rev window l : overlapping_words window (rev l) = overlapping_words window l.
Proof.
  unfold overlapping_words. induction l as [|c l IH]; simpl; [done|].
  rewrite List.filter_app, map_app, zsum_app, IH. simpl.
  destruct (relate window c.1); simpl; unfold zsum; simpl; lia.
Qed.

(** a cumulative final whose window is anchored and comparable never claims
    more known words than the committed occurrences its window shares audio
    with actually hold, and is aligned only against that many of the canvas's
    last words. *)
Theorem cumulative_authority_bounded window committed matcher canvas
    (Hwords : Forall (λ c, 0 <= c.2) committed)
    (Hanchored : is_anchored window = true)
    (Hcomparable : comparable window committed ≠ []) :
  let a := cumulative_decide window committed in
  let bound := overlapping_words window (comparable window committed) in
  clamp_known_prefix a matcher <= bound ∧
  authorized_canvas a canvas `suffix_of` canvas ∧
  Z.of_nat (length (authorized_canvas a canvas)) <= bound.
Proof.
  unfold cumulative_decide. rewrite Hanchored. cbn [negb].
  destruct (comparable window committed) as [|c0 l0] eqn:Hc; [done|]. rewrite <- Hc.
  assert (Hf : Forall (λ c, 0 <= c.2) (comparable window committed)).
  { apply Forall_forall. intros x Hx. apply elem_list_filter in Hx as [Hx _].
    by apply (Forall_elem _ _ _ Hwords). }
  assert (Hr : Forall (λ c, 0 <= c.2) (rev (comparable window committed))).
  { apply Forall_forall. intros x Hx. rewrite list_elem_of_In, <- in_rev, <- list_elem_of_In in Hx.
    by apply (Forall_elem _ _ _ Hf). }
  pose proof (words_under_bound window _ false 0 Hr) as [Hb _].
  rewrite overlapping_words_rev in Hb.
  destruct (words_under _ _ _ _) as [touched words]. simpl in Hb.
  destruct touched; simpl.
  - split; [lia|]. split; [eexists; symmetry; apply take_drop|]. rewrite length_drop. lia.
  - split; [lia|]. split; [|lia]. exists canvas. by rewrite app_nil_r.
Qed.

(** A final is wholly novel once its newest comparable occurrence is disjoint,
    even when it shares audio with an older one. *)
Theorem wholly_novel_over_older_audio :
  ∃ window committed older,
    cumulative_decide window committed = WhollyNovel ∧ older ∈ committed ∧
    relate window older.1 = Overlapping 500.
Proof.
  exists (mkOccurrence "s" 1 1000 2000),
    [(mkOccurrence "s" 1 0 1500, 3); (mkOccurrence "s" 1 3000 4000, 2)],
    (mkOccurrence "s" 1 0 1500, 3).
  split; [reflexivity|]. split; [by left|reflexivity].
Qed.

(* ------------------------------------------------------------------ *)
(** ** Witnesses *)

Definition ex_evidence (version : string) : AcousticEvidence :=
  mkEvidence ex_range 4607182418800017408 4607182418800017408 0 0 (Some 0) None version.

Lemma ex_evidence_wf version : evidence_wf (ex_evidence version).
Proof. split; simpl; try (intros s [= <-]); mach; discriminate. Defined.

Lemma canonical_input_injective_witness :
  canonical_input (ex_evidence "v1") = canonical_input (ex_evidence ("v" ++ "1")%string) ∧
  ex_evidence "v1" = ex_evidence ("v" ++ "1")%string.
Proof.
  split; [reflexivity|].
  apply canonical_input_injective;
    [apply ex_evidence_wf|apply ex_evidence_wf|reflexivity|reflexivity|reflexivity].
Defined.

Lemma compose_signed_witness :
  ∃ c, compose ex_ready ex_range = inr c ∧
    map wr_token (cmp_tokens c) = ["dzien"; "dobry"]%string ∧ is_fully_signed c = true.
Proof.
  destruct (compose ex_ready ex_range) as [e|c] eqn:Hc; [exfalso; vm_compute in Hc; discriminate|].
  exists c. destruct (compose_signed ex_ready ex_range c Hc) as (_ & Hs & _).
  split; [reflexivity|]. split; [|exact Hs]. vm_compute in Hc. injection Hc as <-. reflexivity.
Defined.

Definition ex_calibration : EnergyCalibration := mkCalibration "v1" 0 800.

Lemma derivation_sound_witness :
  is_Some (lg_evidence ex_ready !! ex_range).
Proof.
  apply (derivation_sound ex_ready ex_range
    [mkOccurrence "s" 1 9000 16000; mkOccurrence "s" 1 0 8000] ex_calibration
    (record_derivation ex_ready (DerivationSplit ex_range
       [mkOccurrence "s" 1 9000 16000; mkOccurrence "s" 1 0 8000]) ex_calibration).1).
  - reflexivity.
  - vm_compute. reflexivity.
Defined.

Lemma cumulative_authority_bounded_witness :
  clamp_known_prefix (cumulative_decide (mkOccurrence "s" 1 1000 2000)
    [(mkOccurrence "s" 1 0 500, 4); (mkOccurrence "s" 1 500 1500, 3)]) 9 <= 3.
Proof.
  apply (cumulative_authority_bounded (mkOccurrence "s" 1 1000 2000)
    [(mkOccurrence "s" 1 0 500, 4); (mkOccurrence "s" 1 500 1500, 3)] 9 []).
  - repeat constructor; simpl; lia.
  - reflexivity.
  - vm_compute. discriminate.
Defined.
