(* ===== verification/LedgerDocument.v ===== *)
(** LedgerDocument: receipts for documents presented over the ledger
    (core/pipeline/acoustic_ledger.rs: manual document captures and revisions,
    consultation presentations, incremental shapings).

    None of these operations writes a label, a serial or a seal: each
    authenticates a rewrite against the state the ledger holds and keeps a
    receipt.  Fresh identifiers and SHA-256 come from outside. *)

From S2P Require Import Prelude.
From S2P Require Import Text.
From S2P Require Import GroupAlignment.
From S2P Require Import LedgerIdentity.
From S2P Require Import LedgerSpans.
From S2P Require Import LedgerState.
From S2P Require Import LedgerCoverage.
From S2P Require Import LedgerDecision.
From S2P Require Import LedgerSeal.
From S2P Require Import LedgerEvidence.
#[local] Open Scope Z_scope.
#[local] Open Scope string_scope.
#[local] Open Scope list_scope.

Inductive DocumentRevisionProvenance :=
  | UserEdit | Retranscribe | FormatterProvenance | LightPlusProvenance | Navigation.

Definition provenance_as_str (p : DocumentRevisionProvenance) : string :=
  match p with
  | UserEdit => "user-edit"
  | Retranscribe => "retranscribe"
  | FormatterProvenance => "formatter"
  | LightPlusProvenance => "light-plus"
  | Navigation => "navigation"
  end.

(* ------------------------------------------------------------------ *)
(** ** Captures of manual documents *)

Definition capture_matches (owner : ManualDocumentCaptureReceipt) (sess : string) (epoch : Z) : bool :=
  String.eqb (mc_session_id owner) sess && (mc_capture_epoch owner =? epoch)%Z.

(** The coverage receipt, when there is one, is about this capture. *)
Definition coverage_belongs (L : AcousticLedger) (sess : string) (epoch : Z) : bool :=
  match lg_latest_seal_coverage L with
  | Some c => String.eqb (cr_session_id c) sess && (cr_capture_epoch c =? epoch)%Z
  | None => true
  end.

(** [uuid] is a fresh identifier. *)
Definition bind_manual_document_capture (uuid : string) (L : AcousticLedger) (sess : string)
    (epoch : Z) : AcousticLedger * (string + ManualDocumentCaptureReceipt) :=
  if String.eqb sess "" || (epoch =? 0)%Z then (L, inl "manual_capture_identity_missing")
  else
    match lg_manual_document_capture L with
    | Some owner =>
        if capture_matches owner sess epoch then (L, inr owner)
        else (L, inl "manual_capture_owner_mismatch")
    | None =>
        if existsb (λ o, negb (in_capture sess epoch o))
             (btree_keys (lg_evidence L) ++ btree_keys (lg_committed L)
              ++ btree_keys (lg_frontiers L) ++ btree_elements (lg_pending_text_recovery L))
           || negb (coverage_belongs L sess epoch)
        then (L, inl "manual_capture_owner_mismatch")
        else
          let owner := mkDocumentCapture ("manual-capture-" +:+ uuid) sess epoch None in
          (L <| lg_manual_document_capture := Some owner |>, inr owner)
    end.

Definition complete_manual_document_capture (L : AcousticLedger)
    (owner : ManualDocumentCaptureReceipt) (source_revision : Z)
    : AcousticLedger * (string + ManualDocumentCaptureReceipt) :=
  match lg_manual_document_capture L with
  | None => (L, inl "manual_capture_not_opened")
  | Some bound =>
      if negb (bool_decide (bound = owner)) || bool_decide (is_Some (mc_source_revision bound))
      then (L, inl "manual_capture_completion_replayed")
      else
        let bound' := bound <| mc_source_revision := Some source_revision |> in
        (L <| lg_manual_document_capture := Some bound' |>, inr bound')
  end.

Definition authenticates_manual_document_capture (L : AcousticLedger)
    (owner : ManualDocumentCaptureReceipt) : bool :=
  bool_decide (lg_manual_document_capture L = Some owner).

Definition has_manual_document_capture (L : AcousticLedger) (sess : string) (epoch : Z) : bool :=
  match lg_manual_document_capture L with
  | Some owner => capture_matches owner sess epoch
  | None => false
  end
  && forallb (in_capture sess epoch)
       (btree_keys (lg_evidence L) ++ btree_keys (lg_frontiers L)
        ++ btree_elements (lg_pending_text_recovery L))
  && coverage_belongs L sess epoch.

(* ------------------------------------------------------------------ *)
(** ** Revisions of whole documents *)

Definition explicit_intent (p : DocumentRevisionProvenance) : bool :=
  match p with UserEdit | Retranscribe | Navigation => true | _ => false end.

Definition authenticates_manual_document_revision (L : AcousticLedger)
    (r : ManualDocumentRevisionReceipt) : bool :=
  bool_decide (r ∈ lg_manual_document_revisions L)
  && if negb (bool_decide (md_source_occurrences r = []))
     then bool_decide (md_capture_receipt_id r = None) && bool_decide (md_capture_epoch r = None)
     else
       match lg_manual_document_capture L with
       | Some owner =>
           bool_decide (is_Some (mc_source_revision owner))
           && String.eqb (mc_session_id owner) (md_session_id r)
           && bool_decide (Some (mc_capture_epoch owner) = md_capture_epoch r)
           && bool_decide (Some (mc_receipt_id owner) = md_capture_receipt_id r)
           && bool_decide (md_source_seal_receipts r = [])
           && existsb (String.eqb (md_provenance r)) ["user-edit"; "retranscribe"; "navigation"]
       | None => false
       end.

(** The completed capture that owns a document without source occurrences. *)
Definition revision_capture (L : AcousticLedger) (sess : string) (source_revision : Z)
    (source_occurrences : list OccurrenceIdentity) (p : DocumentRevisionProvenance)
    : string + option ManualDocumentCaptureReceipt :=
  match source_occurrences with
  | _ :: _ => inr None
  | [] =>
      if negb (explicit_intent p) then inl "manual_document_explicit_intent_required"
      else
        match lg_manual_document_capture L with
        | Some owner =>
            if negb (String.eqb (mc_session_id owner) sess
                     && bool_decide (is_Some (mc_source_revision owner)))
            then inl "manual_document_completed_capture_missing"
            else if negb (has_manual_document_capture L sess (mc_capture_epoch owner))
            then inl "manual_document_capture_epoch_mismatch"
            else if negb (is_empty L) && bool_decide (lg_manual_document_revisions L = [])
            then inl "manual_document_committed_source_missing"
            else
              let expected :=
                match last (lg_manual_document_revisions L) with
                | Some previous => Some (md_revision previous)
                | None => mc_source_revision owner
                end in
              if negb (bool_decide (expected = Some source_revision))
              then inl "manual_document_source_revision_stale"
              else inr (Some owner)
        | None => inl "manual_document_completed_capture_missing"
        end
  end.

Definition record_manual_document_revision (L : AcousticLedger) (sess : string)
    (source_revision revision : Z) (rendered_text : string)
    (source_occurrences : list OccurrenceIdentity) (p : DocumentRevisionProvenance)
    : AcousticLedger * (string + ManualDocumentRevisionReceipt) :=
  if String.eqb sess "" then (L, inl "manual_document_session_missing")
  else if trim_is_empty rendered_text then (L, inl "manual_document_text_empty")
  else if negb (bool_decide (checked_add source_revision 1 = Some revision))
  then (L, inl "manual_document_revision_nonconsecutive")
  else
    match revision_capture L sess source_revision source_occurrences p with
    | inl reason => (L, inl reason)
    | inr capture =>
        if existsb (λ o, negb (String.eqb (session o) sess) || negb (is_qualified L o)
                         || negb (bool_decide (is_Some (lg_committed L !! o)))) source_occurrences
        then (L, inl "manual_document_occurrence_not_committed")
        else
          let ordinal := Z.of_nat (length (lg_manual_document_revisions L)) in
          let receipt :=
            mkDocumentRevision
              (provenance_as_str p +:+ "-" +:+ sess +:+ "-" +:+ show_u64 source_revision +:+ "-"
               +:+ show_u64 revision +:+ "-" +:+ show_u64 ordinal)
              (provenance_as_str p) sess source_revision revision source_occurrences
              (map sl_receipt_id (omap (seal_of L) source_occurrences)) rendered_text
              (mc_capture_epoch <$> capture) (mc_receipt_id <$> capture) in
          (L <| lg_manual_document_revisions ::= λ l, l ++ [receipt] |>, inr receipt)
    end.

(* ------------------------------------------------------------------ *)
(** ** Consultation presentations *)

Record ConsultationPresentationInput := mkConsultationInput {
  ci_consultation_id : string;
  ci_turn_id : string;
  ci_source_revision : Z;
  ci_revision : Z;
  ci_members : list ConsultationPresentationMember;
  ci_rendered_text : string
}.

(** One member still stands exactly as it was presented. *)
Definition member_current (L : AcousticLedger) (m : ConsultationPresentationMember) : bool :=
  let o := cm_occurrence m in
  is_qualified L o && negb (text_recovery_pending L o)
  && match lg_frontiers L !! o with Some f => is_closed f | None => false end
  && bool_decide (text_of L o = Some (cm_source_label m))
  && negb (trim_is_empty (cm_source_label m))
  && match seal_of L o with
     | Some s => String.eqb (sl_receipt_id s) (cm_seal_receipt m)
     | None => false
     end.

(** Members in order from [end_], each current; the end of the last. *)
Fixpoint check_members (L : AcousticLedger) (sess : string) (epoch end_ : Z)
    (members : list ConsultationPresentationMember) : string + Z :=
  match members with
  | [] => inr end_
  | m :: rest =>
      let o := cm_occurrence m in
      if negb (in_capture sess epoch o) || (sample_start o <? end_)%Z || negb (is_anchored o)
      then inl "consultation_presentation_member_order"
      else if negb (member_current L m) then inl "consultation_presentation_source_changed"
      else check_members L sess epoch (sample_end o) rest
  end.

(** What the ledger knows inside the span of the group, in capture order. *)
Definition known_inside (L : AcousticLedger) (sess : string) (epoch start end_ : Z)
    : list OccurrenceIdentity :=
  btree_elements (list_to_set (List.filter
    (λ o, in_capture sess epoch o && (sample_start o <? end_)%Z && (start <? sample_end o)%Z)
    (btree_keys (lg_evidence L) ++ btree_keys (lg_committed L)))).

Definition record_consultation_presentation (L : AcousticLedger)
    (input : ConsultationPresentationInput)
    : AcousticLedger * (string + ConsultationPresentationReceipt) :=
  let refuse reason := (L, inl reason) in
  if trim_is_empty (ci_consultation_id input) || trim_is_empty (ci_turn_id input)
  then refuse "consultation_presentation_identity_missing"
  else if trim_is_empty (ci_rendered_text input)
  then refuse "consultation_presentation_text_empty"
  else if negb (bool_decide (checked_add (ci_source_revision input) 1 = Some (ci_revision input)))
  then refuse "consultation_presentation_revision_nonconsecutive"
  else
    match ci_members input with
    | [] => refuse "consultation_presentation_members_missing"
    | first :: _ =>
      let sess := session (cm_occurrence first) in
      let epoch := capture_epoch (cm_occurrence first) in
      let start := sample_start (cm_occurrence first) in
      if String.eqb sess "" || (epoch =? 0)%Z
      then refuse "consultation_presentation_capture_missing"
      else
        match check_members L sess epoch start (ci_members input) with
        | inl reason => refuse reason
        | inr end_ =>
          if negb (bool_decide (known_inside L sess epoch start end_
                                = map cm_occurrence (ci_members input)))
          then refuse "consultation_presentation_members_incomplete"
          else if existsb (λ r, String.eqb (cp_consultation_id r) (ci_consultation_id input)
                                && String.eqb (cp_turn_id r) (ci_turn_id input))
                    (lg_consultation_presentations L)
          then refuse "consultation_presentation_turn_repeated"
          else if existsb (λ r, existsb (λ old, existsb
                      (λ m, bool_decide (cm_occurrence old = cm_occurrence m)) (ci_members input))
                      (cp_members r)) (lg_consultation_presentations L)
          then refuse "consultation_presentation_group_overlaps"
          else
            let receipt :=
              mkConsultation
                ("max-group-" +:+ sess +:+ "-" +:+ show_u64 epoch +:+ "-"
                 +:+ show_u64 (Z.of_nat (length (lg_consultation_presentations L))))
                (ci_consultation_id input) (ci_turn_id input) (ci_source_revision input)
                (ci_revision input) (ci_members input) (ci_rendered_text input) in
            (L <| lg_consultation_presentations ::= λ l, l ++ [receipt] |>, inr receipt)
        end
    end.

(* ------------------------------------------------------------------ *)
(** ** Incremental shaping *)

Record IncrementalShapingInput := mkShapingInput {
  si_session_id : string;
  si_source_revision : Z;
  si_revision : Z;
  si_occurrence : OccurrenceIdentity;
  si_source_label : string;
  si_left_context : string;
  si_shaped_text : string;
  si_sentence_break_before : bool
}.

(** What shaping asks of light_plus.rs: the deterministic live pass. *)
Class LightPlus := apply_live_span : string → string → bool → string.

Section shaping.
Context {light : LightPlus} (sha256 : string → list Z).

(** [hex::encode(Sha256::digest(..))]. *)
Definition sha256_hex (s : string) : string := String.concat "" (map hex_byte (sha256 s)).

Definition shaping_held (L : AcousticLedger) (o : OccurrenceIdentity)
    : option IncrementalShapingReceipt :=
  index ← lg_latest_incremental_shaping L !! o; lg_incremental_shapings L !! index.

Definition record_incremental_shaping (L : AcousticLedger) (input : IncrementalShapingInput)
    : AcousticLedger * (string + IncrementalShapingReceipt) :=
  let refuse reason := (L, inl reason) in
  let o := si_occurrence input in
  if String.eqb (si_session_id input) "" then refuse "incremental_shaping_session_missing"
  else if trim_is_empty (si_shaped_text input) then refuse "incremental_shaping_text_empty"
  else if negb (bool_decide (checked_add (si_source_revision input) 1 = Some (si_revision input)))
  then refuse "incremental_shaping_revision_nonconsecutive"
  else if negb (String.eqb (session o) (si_session_id input))
  then refuse "incremental_shaping_session_mismatch"
  else if negb (is_qualified L o) || negb (bool_decide (is_Some (lg_committed L !! o)))
  then refuse "incremental_shaping_occurrence_not_committed"
  else if negb (bool_decide (text_of L o = Some (si_source_label input)))
  then refuse "incremental_shaping_source_label_stale"
  else if String.eqb (si_source_label input) (si_shaped_text input)
  then refuse "incremental_shaping_unchanged"
  else if negb (String.eqb (apply_live_span (si_left_context input) (si_source_label input)
                              (si_sentence_break_before input)) (si_shaped_text input))
  then refuse "incremental_shaping_not_deterministic"
  else if match shaping_held L o with
          | Some held => String.eqb (is_source_label held) (si_source_label input)
                         && String.eqb (is_shaped_text held) (si_shaped_text input)
                         && String.eqb (is_left_context held) (si_left_context input)
          | None => false
          end
  then refuse "incremental_shaping_unchanged"
  else
    let ordinal := length (lg_incremental_shapings L) in
    let receipt :=
      mkShaping
        (provenance_as_str LightPlusProvenance +:+ "-incremental-" +:+ si_session_id input +:+ "-"
         +:+ show_u64 (sample_start o) +:+ "-" +:+ show_u64 (sample_end o) +:+ "-"
         +:+ show_u64 (si_source_revision input) +:+ "-" +:+ show_u64 (si_revision input) +:+ "-"
         +:+ show_u64 (Z.of_nat ordinal))
        (provenance_as_str LightPlusProvenance) (si_session_id input) (si_source_revision input)
        (si_revision input) o (sl_receipt_id <$> seal_of L o) (si_sentence_break_before input)
        (si_source_label input) (si_left_context input) (sha256_hex (si_left_context input))
        (si_shaped_text input) in
    (L <| lg_latest_incremental_shaping ::= <[o := ordinal]> |>
       <| lg_incremental_shapings ::= λ l, l ++ [receipt] |>, inr receipt).
End shaping.

Definition dash : Ascii.ascii := Ascii.ascii_of_nat 45.
Definition plus_sign : Ascii.ascii := Ascii.ascii_of_nat 43.

(** [rsplit('-').next()]: what follows the last dash. *)
Fixpoint after_last_dash (s : string) : string :=
  match s with
  | EmptyString => EmptyString
  | String c s' =>
      if existsb (Ascii.eqb dash) (String.list_ascii_of_string s') then after_last_dash s'
      else if Ascii.eqb c dash then s' else s
  end.

(** [parse::<usize>()]: an optional plus sign, then decimal digits in range. *)
Definition parse_usize (s : string) : option Z :=
  let digits := match s with
                | String c s' => if Ascii.eqb c plus_sign then s' else s
                | EmptyString => s
                end in
  if negb (String.eqb digits "") && all_digits digits
     && (read_dec 0 digits <=? u64_max)%Z
  then Some (read_dec 0 digits) else None.

Definition authenticates_incremental_shaping (L : AcousticLedger) (r : IncrementalShapingReceipt)
    : bool :=
  bool_decide ((ordinal ← parse_usize (after_last_dash (is_receipt_id r));
                lg_incremental_shapings L !! Z.to_nat ordinal) = Some r).
