(* ===== verification/LedgerDocumentFacts.v ===== *)
(** LedgerDocumentFacts: what document receipts guarantee.

    A receipt is kept only for a rewrite of what the ledger holds now, it
    authenticates from then on, and no label, serial or seal is written. *)

From S2P Require Import Prelude.
From S2P Require Import Text.
From S2P Require Import GroupAlignment.
From S2P Require Import LedgerIdentity.
From S2P Require Import LedgerSpans.
From S2P Require Import LedgerState.
From S2P Require Import LedgerCoverage.
From S2P Require Import LedgerDecision.
From S2P Require Import LedgerDecisionFacts.
From S2P Require Import LedgerSeal.
From S2P Require Import LedgerSealFacts.
From S2P Require Import LedgerEvidence.
From S2P Require Import LedgerEvidenceFacts.
From S2P Require Import LedgerDocument.
#[local] Open Scope Z_scope.

(** No acoustic state is written. *)
Record acoustics_kept (L L' : AcousticLedger) : Prop := {
  ak_committed : lg_committed L' = lg_committed L;
  ak_evidence : lg_evidence L' = lg_evidence L;
  ak_seals : lg_seals L' = lg_seals L;
  ak_trail : lg_trail L' = lg_trail L;
  ak_frontiers : lg_frontiers L' = lg_frontiers L
}.

Lemma checked_add_some a b c : checked_add a b = Some c → c = a + b.
Proof. unfold checked_add. destruct (_ <=? _); congruence. Qed.

(* ------------------------------------------------------------------ *)
(** ** Whole documents *)

Lemma revision_capture_inv L sess rev sources p c :
  revision_capture L sess rev sources p = inr c →
  match sources with
  | _ :: _ => c = None
  | [] => explicit_intent p = true ∧ ∃ owner, c = Some owner ∧
      lg_manual_document_capture L = Some owner ∧ mc_session_id owner = sess ∧
      is_Some (mc_source_revision owner) ∧
      match last (lg_manual_document_revisions L) with
      | Some previous => md_revision previous = rev
      | None => mc_source_revision owner = Some rev
      end
  end.
Proof.
  unfold revision_capture. destruct sources as [|o l]; [|by intros [= <-]].
  destruct (explicit_intent p); cbn [negb]; [|done].
  destruct (lg_manual_document_capture L) as [owner|]; [|done].
  destruct (String.eqb_spec (mc_session_id owner) sess); cbn [negb andb]; [|done].
  case_bool_decide as Hr; cbn [negb]; [|done].
  destruct (negb (has_manual_document_capture _ _ _)); [done|].
  destruct (negb (is_empty L) && _); [done|].
  case_bool_decide as He; cbn [negb]; [|done]. intros [= <-].
  split; [done|]. exists owner. split_and!; try done.
  destruct (last (lg_manual_document_revisions L)); congruence.
Qed.

(** a whole-document revision is kept only as the next revision of its
    source, over occurrences of the session that are all qualified and
    committed, or over a completed capture whose last revision it continues;
    the receipt then authenticates, and no acoustic state changes. *)
Theorem document_revision_authenticates L sess source_revision revision text sources p L' r
    (Hok : record_manual_document_revision L sess source_revision revision text sources p
           = (L', inr r)) :
  authenticates_manual_document_revision L' r = true ∧ acoustics_kept L L' ∧
  lg_manual_document_revisions L' = lg_manual_document_revisions L ++ [r] ∧
  revision = source_revision + 1 ∧ md_rendered_text r = text ∧ md_source_occurrences r = sources ∧
  (∀ o, o ∈ sources → session o = sess ∧ is_Some (lg_evidence L !! o) ∧
     is_Some (lg_committed L !! o)) ∧
  (sources = [] → ∀ previous, last (lg_manual_document_revisions L) = Some previous →
     md_revision previous = source_revision).
Proof.
  unfold record_manual_document_revision in Hok.
  destruct (String.eqb sess ""); [done|]. destruct (trim_is_empty text); [done|].
  case_bool_decide as Hrev; cbn [negb] in Hok; [|done]. apply checked_add_some in Hrev.
  destruct (revision_capture L sess source_revision sources p) as [|capture] eqn:Hc; [done|].
  apply revision_capture_inv in Hc.
  destruct (existsb _ sources) eqn:Hs; [done|]. injection Hok as <- <-.
  assert (Hsrc : ∀ o, o ∈ sources → session o = sess ∧ is_Some (lg_evidence L !! o) ∧
     is_Some (lg_committed L !! o)).
  { intros o Ho. rewrite existsb_false in Hs. specialize (Hs o Ho). unfold is_qualified in Hs.
    zbool. by apply String.eqb_eq in H. }
  split_and!; try done.
  - unfold authenticates_manual_document_revision. simpl.
    rewrite bool_decide_true by (apply elem_of_app; right; by apply list_elem_of_singleton).
    destruct sources as [|o l]; simpl.
    + destruct Hc as (Hp & owner & -> & Ho & Hsess & Hdone & _). rewrite Ho. simpl.
      rewrite Hsess, String.eqb_refl, !bool_decide_true by done. by destruct p.
    + by rewrite Hc.
  - intros -> previous Hl. destruct Hc as (_ & owner & _ & _ & _ & _ & Hc). by rewrite Hl in Hc.
Qed.

(* ------------------------------------------------------------------ *)
(** ** Consultations *)

Definition member_ranges (r : ConsultationPresentationReceipt) : list OccurrenceIdentity :=
  map cm_occurrence (cp_members r).

(** No turn is answered twice and no occurrence belongs to two groups. *)
Definition presentations_ok (L : AcousticLedger) : Prop :=
  ∀ i j r s, lg_consultation_presentations L !! i = Some r →
    lg_consultation_presentations L !! j = Some s → i ≠ j →
    (cp_consultation_id r, cp_turn_id r) ≠ (cp_consultation_id s, cp_turn_id s) ∧
    ∀ o, o ∈ member_ranges r → o ∉ member_ranges s.

(** A member that stands as presented. *)
Definition stands (L : AcousticLedger) (m : ConsultationPresentationMember) : Prop :=
  is_Some (lg_evidence L !! cm_occurrence m) ∧ text_recovery_pending L (cm_occurrence m) = false ∧
  text_of L (cm_occurrence m) = Some (cm_source_label m) ∧
  ∃ s, lg_seals L !! cm_occurrence m = Some s ∧ sl_receipt_id s = cm_seal_receipt m.

Lemma member_current_stands L m : member_current L m = true → stands L m.
Proof.
  unfold member_current, stands, is_qualified, seal_of. intros H. zbool.
  split_and!; try done.
  destruct (lg_seals L !! cm_occurrence m) as [s|]; [|done]. exists s. split; [done|].
  by apply String.eqb_eq.
Qed.

Lemma check_members_inv L sess epoch end_ members last_end :
  check_members L sess epoch end_ members = inr last_end →
  Forall (λ m, in_capture sess epoch (cm_occurrence m) = true ∧ stands L m ∧
               end_ <= sample_start (cm_occurrence m)) members ∧
  StronglySorted (λ a b, sample_end (cm_occurrence a) <= sample_start (cm_occurrence b)) members.
Proof.
  revert end_. induction members as [|m rest IH]; intros end_; simpl; [intros; split; constructor|].
  destruct (negb (in_capture sess epoch (cm_occurrence m)) || _ || _) eqn:Ho; [done|].
  destruct (member_current L m) eqn:Hm; cbn [negb]; [|done]. intros H.
  apply IH in H as [Hf Hs]. apply member_current_stands in Hm. zbool.
  unfold is_anchored in H0. zbool.
  split; constructor; try done.
  - eapply Forall_impl; [exact Hf|]. simpl. intros x (? & ? & ?). split_and!; try done. lia.
  - eapply Forall_impl; [exact Hf|]. simpl. by intros x (? & ? & ?).
Qed.

Lemma known_inside_spec L sess epoch start end_ o :
  o ∈ known_inside L sess epoch start end_ ↔
  (is_Some (lg_evidence L !! o) ∨ is_Some (lg_committed L !! o)) ∧
  in_capture sess epoch o = true ∧ sample_start o < end_ ∧ start < sample_end o.
Proof.
  unfold known_inside. rewrite btree_elements_spec, elem_of_list_to_set, elem_list_filter,
    elem_of_app, !btree_keys_spec, !andb_true_iff, !Z.ltb_lt. tauto.
Qed.

(** a consultation answer is presented only over a group of occurrences in
    capture order without overlap, each qualified, free of text debt, sealed
    under the named seal and still holding the named label, and the group is
    everything the ledger knows inside its span; presentations never repeat a
    turn or share an occurrence. *)
Theorem consultation_exact L input L' r
    (Hok : record_consultation_presentation L input = (L', inr r)) :
  cp_members r = ci_members input ∧ acoustics_kept L L' ∧
  Forall (stands L) (cp_members r) ∧
  StronglySorted (λ a b, sample_end (cm_occurrence a) <= sample_start (cm_occurrence b))
    (cp_members r) ∧
  (∃ first end_, head (cp_members r) = Some first ∧
     ∀ o, o ∈ member_ranges r ↔
       (is_Some (lg_evidence L !! o) ∨ is_Some (lg_committed L !! o)) ∧
       same_capture o (cm_occurrence first) = true ∧
       sample_start o < end_ ∧ sample_start (cm_occurrence first) < sample_end o) ∧
  (presentations_ok L → presentations_ok L').
Proof.
  unfold record_consultation_presentation in Hok.
  destruct (_ || _) in Hok; [done|]. destruct (trim_is_empty _) in Hok; [done|].
  destruct (negb (bool_decide _)) in Hok; [done|].
  destruct (ci_members input) as [|first rest] eqn:Hm; [done|]. rewrite <- Hm in Hok.
  destruct (_ || _) in Hok; [done|].
  destruct (check_members _ _ _ _ _) as [|end_] eqn:Hc; [done|].
  case_bool_decide as Hk; cbn [negb] in Hok; [|done].
  destruct (existsb _ _) eqn:Hturn in Hok; [done|].
  destruct (existsb _ _) eqn:Hover in Hok; [done|]. injection Hok as <- <-. simpl.
  apply check_members_inv in Hc as [Hf Hs].
  split; [done|]. split; [done|]. split; [|split; [done|]].
  { eapply Forall_impl; [exact Hf|]. by intros m (_ & ? & _). }
  split.
  - exists first, end_. split; [by rewrite Hm|]. intros o. unfold member_ranges.
    cbn [cp_members]. rewrite <- Hk, known_inside_spec. unfold in_capture, same_capture. done.
  - intros HL i j a b. simpl. intros Hi Hj Hne.
    rewrite existsb_false in Hturn, Hover.
    assert (Hnew : ∀ old, old ∈ lg_consultation_presentations L →
      (cp_consultation_id old, cp_turn_id old) ≠ (ci_consultation_id input, ci_turn_id input) ∧
      ∀ o, o ∈ member_ranges old → o ∉ map cm_occurrence (ci_members input)).
    { intros old Hold. specialize (Hturn old Hold). specialize (Hover old Hold). split.
      - intros [= E1 E2]. rewrite E1, E2, !String.eqb_refl in Hturn. done.
      - intros o Ho Hin. rewrite existsb_false in Hover.
        apply list_elem_of_fmap in Ho as (x & -> & Hx). specialize (Hover x Hx).
        rewrite existsb_false in Hover. apply list_elem_of_fmap in Hin as (y & Hxy & Hy).
        specialize (Hover y Hy). by apply bool_decide_eq_false in Hover. }
    apply lookup_app_Some in Hi as [Hi|[Hi1 Hi]], Hj as [Hj|[Hj1 Hj]].
    + by apply (HL i j).
    + apply list_lookup_singleton_Some in Hj as [_ <-]. simpl.
      apply Hnew. by eapply list_elem_of_lookup_2.
    + apply list_lookup_singleton_Some in Hi as [_ <-]. simpl.
      apply list_elem_of_lookup_2 in Hj. destruct (Hnew b Hj) as [H1 H2].
      split; [congruence|]. intros o Ho Hb. by apply (H2 o).
    + apply list_lookup_singleton_Some in Hi as [Hi _], Hj as [Hj _]. lia.
Qed.

(* ------------------------------------------------------------------ *)
(** ** Shapings *)

Definition no_dash (s : string) : bool :=
  negb (existsb (Ascii.eqb dash) (String.list_ascii_of_string s)).

Lemma existsb_dash_app a b :
  existsb (Ascii.eqb dash) (String.list_ascii_of_string (a +:+ b)%string) =
  existsb (Ascii.eqb dash) (String.list_ascii_of_string a)
  || existsb (Ascii.eqb dash) (String.list_ascii_of_string b).
Proof. induction a as [|c a IH]; simpl; [done|]. by rewrite IH, orb_assoc. Qed.

Lemma after_last_dash_app a s : no_dash s = true → after_last_dash (a +:+ String dash s)%string = s.
Proof.
  unfold no_dash. intros Hs. apply negb_true_iff in Hs. induction a as [|c a IH].
  - change ("" +:+ String dash s)%string with (String dash s). cbn [after_last_dash].
    by rewrite Hs, Ascii.eqb_refl.
  - change (String c a +:+ String dash s)%string with (String c (a +:+ String dash s)%string).
    cbn [after_last_dash]. rewrite existsb_dash_app. cbn [String.list_ascii_of_string existsb].
    by rewrite Ascii.eqb_refl, orb_true_l, orb_true_r.
Qed.

Lemma digits_not_empty fuel n acc : (fuel ≠ O ∨ acc ≠ ""%string) → digits_fuel fuel n acc ≠ ""%string.
Proof.
  revert n acc. induction fuel as [|fuel IH]; intros n acc H; cbn [digits_fuel].
  - by destruct H.
  - destruct (n <? 10); [done|]. apply IH. by right.
Qed.

Lemma all_digits_no_dash s : all_digits s = true → no_dash s = true.
Proof.
  unfold all_digits, no_dash. induction s as [|c s IH]; [done|].
  cbn [String.list_ascii_of_string forallb existsb]. intros H.
  apply andb_true_iff in H as [Hc Hs]. apply IH in Hs. apply negb_true_iff in Hs.
  rewrite Hs, orb_false_r. destruct (Ascii.eqb_spec dash c) as [<-|]; [|done].
  by vm_compute in Hc.
Qed.

Lemma parse_show_u64 n : is_u64 n → parse_usize (show_u64 n) = Some n.
Proof.
  intros Hn. unfold parse_usize.
  pose proof (show_u64_digits n Hn) as Hd. pose proof (read_show_u64 n Hn) as Hr.
  pose proof (digits_not_empty 20 n "" ltac:(by left)) as Hne. fold (show_u64 n) in Hne.
  destruct (show_u64 n) as [|c s]; [done|].
  assert (Hplus : Ascii.eqb c plus_sign = false).
  { unfold all_digits in Hd. cbn [String.list_ascii_of_string forallb] in Hd.
    apply andb_true_iff in Hd as [Hc _].
    destruct (Ascii.eqb_spec c plus_sign) as [->|]; [by vm_compute in Hc|done]. }
  rewrite Hplus, Hd, Hr. simpl.
  destruct (n <=? u64_max) eqn:Hm; [done|]. zbool. mach.
Qed.

(** Every kept shaping ends its identifier with its position. *)
Definition shapings_ok (L : AcousticLedger) : Prop :=
  ∀ i r, lg_incremental_shapings L !! i = Some r →
    ∃ a, is_receipt_id r = (a +:+ String dash (show_u64 (Z.of_nat i)))%string.

Lemma ends_with_app x y s :
  (∃ a, y = (a +:+ s)%string) → ∃ a, (x +:+ y)%string = (a +:+ s)%string.
Proof.
  intros [a ->]. exists (x +:+ a)%string. induction x as [|c x IH]; [done|].
  change (String c (x +:+ a +:+ s) = String c ((x +:+ a) +:+ s))%string. by rewrite IH.
Qed.

Lemma shapings_authenticate L :
  shapings_ok L → Z.of_nat (length (lg_incremental_shapings L)) <= u64_max →
  ∀ r, r ∈ lg_incremental_shapings L → authenticates_incremental_shaping L r = true.
Proof.
  intros Hok Hlen r Hr. apply list_elem_of_lookup in Hr as [i Hi].
  destruct (Hok i r Hi) as [a Ha]. pose proof (lookup_lt_Some _ _ _ Hi) as Hlt.
  assert (Hu : is_u64 (Z.of_nat i)) by mach.
  unfold authenticates_incremental_shaping. apply bool_decide_eq_true.
  rewrite Ha, after_last_dash_app by (by apply all_digits_no_dash, show_u64_digits).
  rewrite parse_show_u64 by done. simpl. by rewrite Nat2Z.id.
Qed.

Section shaping.
Context {light : LightPlus} (sha256 : string → list Z).

(** a shaping is kept only for a qualified committed occurrence, against
    the exact label it holds, when its text is what the deterministic pass
    makes of that label and differs from it; the label stays as it was, and
    this receipt and every receipt kept before authenticate. *)
Theorem shaping_authenticates L input L' r
    (Hids : shapings_ok L)
    (Hroom : Z.of_nat (length (lg_incremental_shapings L)) < u64_max)
    (Hok : record_incremental_shaping sha256 L input = (L', inr r)) :
  text_of L (si_occurrence input) = Some (si_source_label input) ∧
  is_Some (lg_evidence L !! si_occurrence input) ∧
  is_shaped_text r = apply_live_span (is_left_context r) (is_source_label r)
                       (is_sentence_break_before r) ∧
  is_shaped_text r ≠ is_source_label r ∧ acoustics_kept L L' ∧ shapings_ok L' ∧
  lg_incremental_shapings L' = lg_incremental_shapings L ++ [r] ∧
  (∀ x, x ∈ lg_incremental_shapings L' → authenticates_incremental_shaping L' x = true).
Proof.
  unfold record_incremental_shaping in Hok.
  destruct (String.eqb (si_session_id input) ""); [done|].
  destruct (trim_is_empty _) in Hok; [done|].
  destruct (negb (bool_decide _)) in Hok; [done|].
  destruct (negb (String.eqb _ _)) in Hok; [done|].
  destruct (_ || _) eqn:Hq in Hok; [done|].
  case_bool_decide as Ht; cbn [negb] in Hok; [|done].
  destruct (String.eqb_spec (si_source_label input) (si_shaped_text input)) as [|Hne]; [done|].
  destruct (String.eqb_spec (apply_live_span (si_left_context input) (si_source_label input)
                              (si_sentence_break_before input)) (si_shaped_text input)) as [Hd|];
    cbn [negb] in Hok; [|done].
  destruct (match shaping_held _ _ with Some _ => _ | None => _ end); [done|].
  injection Hok as HL Hr. unfold is_qualified in Hq. zbool.
  assert (Hlist : lg_incremental_shapings L' = lg_incremental_shapings L ++ [r]).
  { by rewrite <- HL, <- Hr. }
  assert (Hkeep : acoustics_kept L L') by (rewrite <- HL; done).
  assert (Hids' : shapings_ok L').
  { intros i x Hi. rewrite Hlist in Hi. apply lookup_app_Some in Hi as [Hi|[Hi1 Hi]]; [by apply Hids|].
    apply list_lookup_singleton_Some in Hi as [Hi <-].
    replace i with (length (lg_incremental_shapings L)) by lia. rewrite <- Hr. simpl.
    do 11 apply ends_with_app. by exists ""%string. }
  split_and!; try done.
  - by rewrite <- Hr.
  - rewrite <- Hr. simpl. congruence.
  - apply shapings_authenticate; [done|]. rewrite Hlist, length_app. simpl. lia.
Qed.
End shaping.

(* ------------------------------------------------------------------ *)
(** ** Witnesses *)

(** A sealed capture of one occurrence. *)
Definition ex_document : AcousticLedger := (seal ex_ready ex_range).1.

Lemma document_revision_authenticates_witness :
  ∃ L' r, record_manual_document_revision ex_document "s" 4 5 "Dzien dobry." [ex_range] UserEdit
            = (L', inr r) ∧ authenticates_manual_document_revision L' r = true.
Proof.
  destruct (record_manual_document_revision ex_document "s" 4 5 "Dzien dobry." [ex_range] UserEdit)
    as [L' [e|r]] eqn:H; [exfalso; vm_compute in H; discriminate|].
  exists L', r. split; [reflexivity|].
  apply (document_revision_authenticates ex_document "s" 4 5 "Dzien dobry." [ex_range] UserEdit L' r H).
Defined.

Definition ex_consultation : ConsultationPresentationInput :=
  mkConsultationInput "c" "t" 4 5
    [mkConsultationMember ex_range "dzien dobry" "seal-occurrence-s-1-0-16000"] "Odpowiedz.".

Lemma consultation_exact_witness :
  ∃ L' r, record_consultation_presentation ex_document ex_consultation = (L', inr r) ∧
    Forall (stands ex_document) (cp_members r).
Proof.
  destruct (record_consultation_presentation ex_document ex_consultation) as [L' [e|r]] eqn:H;
    [exfalso; vm_compute in H; discriminate|].
  exists L', r. split; [reflexivity|].
  apply (consultation_exact ex_document ex_consultation L' r H).
Defined.

(** A pass that only ends the sentence, and a constant digest. *)
Definition ex_light : LightPlus := λ _ s _, (s +:+ ".")%string.
Definition ex_sha256 : string → list Z := λ _, [0; 255].

Definition ex_shaping : IncrementalShapingInput :=
  mkShapingInput "s" 4 5 ex_range "dzien dobry" "" "dzien dobry." false.

Lemma shaping_authenticates_witness :
  ∃ L' r, record_incremental_shaping (light := ex_light) ex_sha256 ex_document ex_shaping = (L', inr r) ∧
    authenticates_incremental_shaping L' r = true.
Proof.
  destruct (record_incremental_shaping (light := ex_light) ex_sha256 ex_document ex_shaping)
    as [L' [e|r]] eqn:H; [exfalso; vm_compute in H; discriminate|].
  exists L', r. split; [reflexivity|].
  destruct (shaping_authenticates (light := ex_light) ex_sha256 ex_document ex_shaping L' r)
    as (_ & _ & _ & _ & _ & _ & Hl & Ha).
  - intros i x Hi. exfalso. vm_compute in Hi. destruct i; discriminate Hi.
  - vm_compute. reflexivity.
  - exact H.
  - apply Ha. rewrite Hl. apply elem_of_app. right. by apply list_elem_of_singleton.
Defined.

(** An occurrence that no seal closes is shaped all the same. *)
Theorem shaping_accepts_unsealed :
  ∃ L' r, is_sealed ex_ready ex_range = false ∧
    record_incremental_shaping (light := ex_light) ex_sha256 ex_ready ex_shaping = (L', inr r) ∧
    is_source_seal_receipt r = None.
Proof.
  destruct (record_incremental_shaping (light := ex_light) ex_sha256 ex_ready ex_shaping)
    as [L' [e|r]] eqn:H; [exfalso; vm_compute in H; discriminate|].
  exists L', r. split; [vm_compute; reflexivity|]. split; [reflexivity|].
  vm_compute in H. injection H as _ <-. reflexivity.
Qed.
