(* ===== verification/LedgerSession.v ===== *)
(** LedgerSession: the ledger as one state machine.

    Every operation of the ledger modelled in this development is one step of a
    capture: admissions, qualification, the frontier protocol, seals, coverage,
    derivations and document receipts.  The invariant of the reachable ledgers
    joins the books of admission with the soundness of every seal, and gives
    the end-to-end guarantee of a final capture. *)

From S2P Require Import Prelude.
From S2P Require Import Text.
From S2P Require Import GroupAlignment.
From S2P Require Import LedgerIdentity.
From S2P Require Import LedgerSpans.
From S2P Require Import CaptureEvidence.
From S2P Require Import LedgerState.
From S2P Require Import LedgerCoverage.
From S2P Require Import LedgerDecision.
From S2P Require Import LedgerDecisionFacts.
From S2P Require Import LedgerSeal.
From S2P Require Import LedgerSealFacts.
From S2P Require Import LedgerEvidence.
From S2P Require Import LedgerEvidenceFacts.
From S2P Require Import LedgerDocument.
#[local] Open Scope Z_scope.

Section session.
Context {tables : CharTables} {debt : WordDebt} {light : LightPlus} (sha256 : string → list Z).

Inductive CaptureOp :=
  | CAdmission (op : LedgerOp)
  | CQualify (e : AcousticEvidence) (cal : EnergyCalibration)
  | CScheduleFrontier (o : OccurrenceIdentity) (ps : list ObservationProducer)
  | CScheduleObserver (o : OccurrenceIdentity) (p : ObservationProducer)
  | CScheduleFormatter (o : OccurrenceIdentity)
  | CScheduleLateApple (obs : ObservationIdentity) (text : string)
  | CReturn (o : OccurrenceIdentity) (p : ObservationProducer)
  | CCoverage (sess : string) (epoch : Z) (speech : AcousticSpeechEvidence) (threshold : Z)
  | CSpeech (speech : AcousticSpeechEvidence)
  | CDecodeSpan (obs : ObservationIdentity) (span : Z * Z)
  | CSeal (o : OccurrenceIdentity)
  | CSealTerminal (now : option Z) (sess : string) (epoch : Z)
  | CDerivation (d : OccurrenceDerivation) (cal : EnergyCalibration)
  | CBindCapture (uuid sess : string) (epoch : Z)
  | CCompleteCapture (owner : ManualDocumentCaptureReceipt) (revision : Z)
  | CRevision (sess : string) (source_revision revision : Z) (text : string)
      (sources : list OccurrenceIdentity) (p : DocumentRevisionProvenance)
  | CConsultation (input : ConsultationPresentationInput)
  | CShaping (input : IncrementalShapingInput).

(** One operation of the capture. *)
Definition capture_op (L : AcousticLedger) (op : CaptureOp) : AcousticLedger :=
  match op with
  | CAdmission op => (ledger_op L op).1
  | CQualify e cal => (qualify sha256 L e cal).1
  | CScheduleFrontier o ps => schedule_frontier L o ps
  | CScheduleObserver o p => (schedule_observer L o p).2
  | CScheduleFormatter o => (schedule_settled_formatter L o).2
  | CScheduleLateApple obs text => (schedule_late_apple_label L obs text).2
  | CReturn o p => (note_frontier_return L o p).2
  | CCoverage sess epoch speech threshold =>
      (record_seal_coverage L (assess_seal_coverage L sess epoch speech threshold)).2
  | CSpeech speech => record_speech_evidence L speech
  | CDecodeSpan obs span =>
      L <| lg_complete_decode_spans ::= λ m, record_complete_decode_span m obs span |>
  | CSeal o => (seal L o).1
  | CSealTerminal now sess epoch => (seal_terminal L now sess epoch).1
  | CDerivation d cal => (record_derivation L d cal).1
  | CBindCapture uuid sess epoch => (bind_manual_document_capture uuid L sess epoch).1
  | CCompleteCapture owner revision => (complete_manual_document_capture L owner revision).1
  | CRevision sess source_revision revision text sources p =>
      (record_manual_document_revision L sess source_revision revision text sources p).1
  | CConsultation input => (record_consultation_presentation L input).1
  | CShaping input => (record_incremental_shaping sha256 L input).1
  end.

Definition run_capture (L : AcousticLedger) (ops : list CaptureOp) : AcousticLedger :=
  fold_left capture_op ops L.

(* ------------------------------------------------------------------ *)
(** ** Steps that leave seals and books *)

(** Nothing the invariant reads is written. *)
Record quiet (L L' : AcousticLedger) : Prop := {
  qt_offered : lg_offered_observations L' = lg_offered_observations L;
  qt_issued : lg_issued_receipts L' = lg_issued_receipts L;
  qt_delivered : lg_delivered_observations L' = lg_delivered_observations L;
  qt_named : lg_named_refusals L' = lg_named_refusals L;
  qt_trail : lg_trail L' = lg_trail L;
  qt_history : lg_owner_history L' = lg_owner_history L;
  qt_evidence : lg_evidence L' = lg_evidence L;
  qt_seals : lg_seals L' = lg_seals L;
  qt_terminal : lg_terminal_seals L' = lg_terminal_seals L
}.

#[local] Instance quiet_refl : Reflexive quiet.
Proof. by split. Qed.

#[local] Instance quiet_trans : Transitive quiet.
Proof. intros L1 L2 L3 [] []. split; congruence. Qed.

Lemma side_step_quiet L L' : side_step L L' → quiet L L'.
Proof. intros [[] ? _ _]. by split. Qed.

(** Operations that are guards around one write. *)
Ltac quiet_step :=
  repeat first
    [ match goal with
      | |- quiet ?L ?L' => first [ unify L L'; reflexivity | solve [split; reflexivity] ]
      end
    | match goal with
      | |- context [if ?b then _ else _] => destruct b
      | |- context [match ?x with _ => _ end] => destruct x
      end ].

Lemma schedule_observer_quiet L o p : quiet L (schedule_observer L o p).2.
Proof. unfold schedule_observer, frontier_schedule. quiet_step. Qed.

Lemma schedule_formatter_quiet L o : quiet L (schedule_settled_formatter L o).2.
Proof. unfold schedule_settled_formatter, frontier_schedule. quiet_step. Qed.

Lemma schedule_late_apple_quiet L obs text : quiet L (schedule_late_apple_label L obs text).2.
Proof. unfold schedule_late_apple_label. quiet_step. Qed.

Lemma note_return_quiet L o p : quiet L (note_frontier_return L o p).2.
Proof.
  unfold note_frontier_return. destruct (lg_frontiers L !! o) as [f|]; simpl.
  - etrans; [|apply side_step_quiet, reconcile_side_step]. by split.
  - apply side_step_quiet, reconcile_side_step.
Qed.

Lemma coverage_quiet L receipt : quiet L (record_seal_coverage L receipt).2.
Proof. unfold record_seal_coverage. quiet_step. Qed.

Lemma derivation_quiet L d cal : quiet L (record_derivation L d cal).1.
Proof. unfold record_derivation. quiet_step. Qed.

Lemma bind_quiet uuid L sess epoch : quiet L (bind_manual_document_capture uuid L sess epoch).1.
Proof. unfold bind_manual_document_capture. quiet_step. Qed.

Lemma complete_quiet L owner revision : quiet L (complete_manual_document_capture L owner revision).1.
Proof. unfold complete_manual_document_capture. quiet_step. Qed.

Lemma revision_quiet L sess sr r text sources p :
  quiet L (record_manual_document_revision L sess sr r text sources p).1.
Proof. unfold record_manual_document_revision. quiet_step. Qed.

Lemma consultation_quiet L input : quiet L (record_consultation_presentation L input).1.
Proof. unfold record_consultation_presentation. quiet_step. Qed.

Lemma shaping_quiet L input : quiet L (record_incremental_shaping sha256 L input).1.
Proof. unfold record_incremental_shaping. quiet_step. Qed.

(* ------------------------------------------------------------------ *)
(** ** The invariant of a capture *)

(** An occurrence seal that was earned. *)
Definition seal_earned (L : AcousticLedger) (o : OccurrenceIdentity) (s : LedgerSealReceipt) : Prop :=
  sl_scope s = ScopeOccurrence ∧ sl_coverage s = o ∧ sl_sealed_occurrences s = [o] ∧
  is_closed (sl_frontier s) = true ∧
  (∃ serial, sl_serials s = [serial] ∧ vad_closed serial = true) ∧ is_Some (lg_evidence L !! o).

Record session_ok (L : AcousticLedger) : Prop := {
  so_books : books_ok L;
  so_seals : ∀ o s, lg_seals L !! o = Some s → seal_earned L o s;
  so_terminal : ∀ r, r ∈ lg_terminal_seals L → sl_scope r = ScopeTerminal ∧
    ∀ o, o ∈ sl_sealed_occurrences r → is_Some (lg_seals L !! o)
}.

Lemma session_ok_new : session_ok ledger_new.
Proof.
  split; [apply books_ok_new|by intros ? ?|].
  intros r Hr. by apply not_elem_of_nil in Hr.
Qed.

Lemma quiet_session_ok L L' : quiet L L' → session_ok L → session_ok L'.
Proof.
  intros [] [[] Hs Ht]. assert (He : ∀ o, history_of L' o = history_of L o)
    by (intros o; unfold history_of; by rewrite qt_history0).
  split.
  - split; try congruence; setoid_rewrite He; rewrite ?qt_trail0; try done.
  - intros o s. rewrite qt_seals0. unfold seal_earned. rewrite qt_evidence0. apply Hs.
  - rewrite qt_terminal0, qt_seals0. apply Ht.
Qed.

Lemma ledger_op_session_ok L op : session_ok L → session_ok (ledger_op L op).1.
Proof.
  intros HL. destruct (ledger_op_cases L op) as [(obs & r & Hk & _)|H].
  - destruct HL as [Hb Hs Ht]. split; [by eapply counted_books_ok|..].
    + intros o s. rewrite (co_seals _ _ _ _ Hk). unfold seal_earned.
      rewrite (co_evidence _ _ _ _ Hk). apply Hs.
    + rewrite (co_terminal _ _ _ _ Hk), (co_seals _ _ _ _ Hk). apply Ht.
  - eapply quiet_session_ok; [by apply side_step_quiet|done].
Qed.

Lemma qualify_session_ok L e cal : session_ok L → session_ok (qualify sha256 L e cal).1.
Proof.
  intros [Hb Hs Ht]. unfold qualify.
  destruct (negb _); [done|]. destruct (negb _); [done|]. destruct (f64_lt _ _); [done|].
  destruct (negb _); [done|]. simpl.
  match goal with |- session_ok ?x => set (L2 := x) end.
  assert (H : lg_seals L2 = lg_seals L ∧ lg_terminal_seals L2 = lg_terminal_seals L ∧
    lg_evidence L2 = <[ev_occurrence e := mint sha256 e]> (lg_evidence L) ∧ books_ok L2).
  { unfold L2. destruct (is_sealed _ _); simpl; split_and!; try done; (destruct Hb; by split). }
  destruct H as (H1 & H2 & H3 & H4). split; [done|..].
  - intros o s. rewrite H1. intros Ho. destruct (Hs o s Ho) as (? & ? & ? & ? & ? & He).
    unfold seal_earned. rewrite H3. split_and!; try done.
    destruct (decide (o = ev_occurrence e)) as [->|];
      [rewrite lookup_insert_eq; eauto|by rewrite lookup_insert_ne].
  - rewrite H1, H2. apply Ht.
Qed.

(** Sealing leaves the books. *)
Lemma seal_books_ok L o : books_ok L → books_ok (seal L o).1.
Proof.
  intros Hb. unfold seal. destruct (lg_seals L !! o); [done|]. destruct (mint_seal L o); [done|].
  simpl. destruct Hb. by split.
Qed.

Lemma seal_session_ok L o : session_ok L → session_ok (seal L o).1.
Proof.
  intros [Hb Hs Ht]. pose proof (seal_books_ok L o Hb) as Hb'.
  destruct (lg_seals L !! o) as [h|] eqn:Hh.
  { unfold seal in *. rewrite Hh in *. done. }
  pose proof (seal_exact L o Hh) as He. pose proof (seal_frame L o) as Hf.
  destruct (seal L o) as [L' [refusal|r]]; simpl in *.
  { destruct He as [_ ->]. done. }
  destruct He as [(serial & f & Hok & Has) Hseals].
  destruct Hf as (_ & Hev & _ & _ & _ & Hterm & _ & _ & _ & _ & Hmono).
  split; [done|..].
  - intros x s. rewrite Hseals. unfold seal_earned. rewrite Hev.
    destruct (decide (x = o)) as [->|Hne].
    + rewrite lookup_insert_eq. intros [= <-]. destruct Has as (-> & -> & -> & -> & -> & _).
      destruct Hok. split_and!; try done; eauto.
    + rewrite lookup_insert_ne by done. apply Hs.
  - intros r'. rewrite Hterm. intros Hr. destruct (Ht r' Hr) as [H1 H2]. split; [done|].
    intros x Hx. destruct (H2 x Hx) as [s Hsx]. eauto.
Qed.

Lemma seal_each_session_ok L l : session_ok L → session_ok (seal_each L l).1.
Proof.
  revert L. induction l as [|o l IH]; intros L HL; simpl; [done|].
  pose proof (seal_session_ok L o HL) as H. destruct (seal L o) as [L' [e|r]]; [done|].
  by apply IH.
Qed.

Lemma seal_terminal_session_ok L now sess epoch :
  session_ok L → session_ok (seal_terminal L now sess epoch).1.
Proof.
  intros HL. pose proof (seal_terminal_complete L now sess epoch) as Hc. revert Hc.
  unfold seal_terminal. destruct (negb _); [done|].
  match goal with |- context [if ?b then (L, inl CoverageIncomplete) else _] => destruct b end; [done|].
  destruct (List.filter _ _) as [|first rest] eqn:Hl; [done|].
  pose proof (seal_each_session_ok L (first :: rest) HL) as H1.
  destruct (seal_each L (first :: rest)) as [L1 [refusal|]]; [done|]. simpl in H1.
  destruct (collect_seals _ _) as [seals|]; [|done].
  case_bool_decide; [done|]. simpl. intros (_ & _ & _ & Hr & Hscope & Hocc & Hall).
  destruct H1 as [Hb Hs Ht]. split; [destruct Hb; by split|done|]. simpl. intros r Hin.
  apply elem_of_app in Hin as [Hin|Hin]; [auto|]. apply list_elem_of_singleton in Hin as ->.
  split; [done|]. intros o Ho. cbn [sl_sealed_occurrences] in Ho. rewrite <- Hl in Ho.
  apply elem_list_filter in Ho as [Ho Hcap]. apply btree_keys_spec in Ho. by apply Hall.
Qed.

Lemma capture_op_session_ok L op : session_ok L → session_ok (capture_op L op).
Proof.
  intros HL. destruct op; simpl;
    first [ by apply ledger_op_session_ok | by apply qualify_session_ok | by apply seal_session_ok
          | by apply seal_terminal_session_ok
          | eapply quiet_session_ok; [|exact HL];
            first [ apply schedule_observer_quiet | apply schedule_formatter_quiet
                  | apply schedule_late_apple_quiet | apply note_return_quiet | apply coverage_quiet
                  | apply derivation_quiet | apply bind_quiet | apply complete_quiet
                  | apply revision_quiet | apply consultation_quiet | apply shaping_quiet
                  | by split ] ].
Qed.

Lemma run_capture_session_ok L ops : session_ok L → session_ok (run_capture L ops).
Proof.
  revert L. induction ops as [|op ops IH]; intros L HL; simpl; [done|].
  by apply IH, capture_op_session_ok.
Qed.

(* ------------------------------------------------------------------ *)
(** ** Guarantees of a capture *)

(** on every ledger a capture can reach, no seal is ever refused for want of
    receipts: each answer of each occurrence left exactly one. *)
Theorem receipts_never_missing ops o :
  mint_seal (run_capture ledger_new ops) o ≠ inl ObservationsWithoutReceipts.
Proof.
  set (L := run_capture ledger_new ops).
  pose proof (run_capture_session_ok _ ops session_ok_new) as [[_ _ _ Hown _ _] _ _].
  fold L in Hown. specialize (Hown o). unfold history_of in Hown. unfold mint_seal.
  rewrite owner_answers, owner_ordinals.
  set (h := default OwnerHistory_default (lg_owner_history L !! o)) in *.
  rewrite Hown, Z.eqb_refl. cbn [negb].
  destruct (text_recovery_pending L o); [done|]. destruct (_ || _); [done|].
  destruct (lg_evidence L !! o); [|done]. destruct (negb _); [done|].
  destruct (lg_frontiers L !! o); [|done]. destruct (negb _); [done|].
  by destruct (label_missing L o).
Qed.

(** on every ledger a capture can reach, every issued receipt
    authenticates, and each occurrence seal stands on qualified evidence, a
    closed voice boundary and a closed frontier. *)
Theorem issued_seals_authentic ops o s :
  let L := run_capture ledger_new ops in
  (lg_seals L !! o = Some s → authenticates_seal L s = true ∧ seal_earned L o s) ∧
  (s ∈ lg_terminal_seals L → authenticates_seal L s = true ∧
     ∀ x, x ∈ sl_sealed_occurrences s → authenticates_seal_reference L x (sl_receipt_id s) = true).
Proof.
  intros L. pose proof (run_capture_session_ok _ ops session_ok_new) as [_ Hs Ht]. fold L in Hs, Ht.
  unfold authenticates_seal, authenticates_seal_reference, seal_of. split.
  - intros Ho. pose proof (Hs o s Ho) as He. split; [|done].
    destruct He as (-> & -> & _). by apply bool_decide_eq_true.
  - intros Hin. destruct (Ht s Hin) as [-> _]. split; [by apply bool_decide_eq_true|].
    intros x Hx. apply orb_true_iff. right. apply existsb_true. exists s. split; [done|].
    by rewrite String.eqb_refl, bool_decide_true.
Qed.

(** C1: whatever the capture does, when it is final as Sealed every occurrence
    it has qualified or committed holds its own earned seal. *)
Theorem final_capture_is_sealed ops sess epoch r o
    (Hfinal : terminal_finality (run_capture ledger_new ops) sess epoch = FinalSealed r)
    (Hcapture : in_capture sess epoch o = true)
    (Hheld : is_Some (lg_evidence (run_capture ledger_new ops) !! o) ∨
             is_Some (lg_committed (run_capture ledger_new ops) !! o)) :
  ∃ s, lg_seals (run_capture ledger_new ops) !! o = Some s ∧
    seal_earned (run_capture ledger_new ops) o s.
Proof.
  pose proof (run_capture_session_ok _ ops session_ok_new) as [_ Hs Ht].
  destruct (terminal_finality_exact (run_capture ledger_new ops) sess epoch) as (_ & Hsound & _).
  destruct (Hsound r Hfinal) as (Hr & _ & Hall & _).
  destruct (Ht r Hr) as [_ Hsealed]. destruct (Hsealed o (Hall o Hcapture Hheld)) as [s Hso].
  exists s. split; [done|]. by apply Hs.
Qed.

Lemma capture_op_grows L op :
  lg_seals L ⊆ lg_seals (capture_op L op) ∧
  lg_terminal_seals L `prefix_of` lg_terminal_seals (capture_op L op).
Proof.
  assert (Hq : ∀ L', quiet L L' → lg_seals L ⊆ lg_seals L' ∧
    lg_terminal_seals L `prefix_of` lg_terminal_seals L').
  { intros L' []. rewrite qt_seals0, qt_terminal0. done. }
  destruct op; simpl;
    try (apply Hq; first [ apply schedule_observer_quiet | apply schedule_formatter_quiet
                  | apply schedule_late_apple_quiet | apply note_return_quiet | apply coverage_quiet
                  | apply derivation_quiet | apply bind_quiet | apply complete_quiet
                  | apply revision_quiet | apply consultation_quiet | apply shaping_quiet
                  | by split ]; fail).
  - destruct (ledger_op_cases L op) as [(obs & r & Hk & _)|H]; [|by apply Hq, side_step_quiet].
    by rewrite (co_seals _ _ _ _ Hk), (co_terminal _ _ _ _ Hk).
  - pose proof (qualify_exact sha256 L e cal) as H. unfold qualify in *.
    destruct (negb _); [done|]. destruct (negb _); [done|]. destruct (f64_lt _ _); [done|].
    destruct (negb _); [done|]. simpl. by destruct (is_sealed _ _).
  - pose proof (seal_frame L o) as H. destruct (seal L o). simpl.
    destruct H as (_ & _ & _ & _ & _ & -> & _ & _ & _ & _ & H). split; [|done].
    by apply map_subseteq_spec.
  - pose proof (seal_terminal_frame L now sess epoch) as (_ & _ & _ & _ & _ & H1 & H2).
    split; [by apply map_subseteq_spec|done].
Qed.

(** no operation of a capture ever withdraws or changes a receipt: every
    occurrence seal and every terminal seal issued so far is still held, in
    its place, whatever is done next. *)
Theorem issued_seals_permanent L ops :
  lg_seals L ⊆ lg_seals (run_capture L ops) ∧
  lg_terminal_seals L `prefix_of` lg_terminal_seals (run_capture L ops).
Proof.
  revert L. induction ops as [|op ops IH]; intros L; simpl; [done|].
  destruct (capture_op_grows L op), (IH (capture_op L op)). split; by etrans.
Qed.
End session.

(* ------------------------------------------------------------------ *)
(** ** Witness *)

#[local] Existing Instance ascii_tables.
#[local] Existing Instance no_word_evidence.

Definition ex_capture_digest : string → list Z := λ _, [0; 255].
Definition ex_capture_light : LightPlus := λ _ s _, s.

(** One phrase from admission to the terminal seal. *)
Definition ex_capture : list CaptureOp :=
  [CAdmission (OpAdmit (ex_obs Apple 0 0 16000) "dzien dobry");
   CQualify (mkEvidence ex_range 0 4607182418800017408 0 0 (Some 0) (Some 16000) "v1")
     (mkCalibration "v1" 4602678819172646912 800);
   CScheduleFrontier ex_range [Apple]; CReturn ex_range Apple; CSealTerminal (Some 7) "s" 1].

Local Abbreviation ex_final :=
  (run_capture (light := ex_capture_light) ex_capture_digest ledger_new ex_capture).

Lemma final_capture_is_sealed_witness :
  ∃ s, lg_seals ex_final !! ex_range = Some s ∧ seal_earned ex_final ex_range s.
Proof.
  destruct (terminal_finality ex_final "s" 1) as [r|r|] eqn:Hf;
    [|exfalso; vm_compute in Hf; discriminate|exfalso; vm_compute in Hf; discriminate].
  assert (Hq : bool_decide (is_Some (lg_evidence ex_final !! ex_range)) = true)
    by (vm_compute; reflexivity).
  exact (final_capture_is_sealed (light := ex_capture_light) ex_capture_digest ex_capture "s" 1 r
    ex_range Hf eq_refl (or_introl (bool_decide_eq_true_1 _ Hq))).
Defined.
