(* ===== verification/WordLabels.v ===== *)
(** WordLabels: what the word lane compares of labels, and the context a decode
    window gives a word (core/pipeline/acoustic_ledger/word_adjudication.rs and
    [normalize_word_token] of acoustic_ledger.rs).

    A label is compared as its characters; the tables of Unicode are the class
    [CharTables]. *)

From S2P Require Import Prelude.
From S2P Require Import Text.
From S2P Require Import GroupAlignment.
#[local] Open Scope Z_scope.

(* ------------------------------------------------------------------ *)
(** ** Decode context *)

Definition FULL_CONTEXT_QUALITY : Z := 1000000.
Definition BAND_RIGHTS_FLOOR : Z := FULL_CONTEXT_QUALITY `div` 2.

Definition context_quality (start end_ : Z) (decode : Z * Z) : Z :=
  let '(lo, hi) := decode in
  if (hi <=? lo) || (end_ <=? start) || (start <? lo) || (hi <? end_) then 0
  else
    let margin := Z.min (start - lo) (hi - end_) in
    Z.min ((margin * 3 * FULL_CONTEXT_QUALITY) `div` (hi - lo)) FULL_CONTEXT_QUALITY.

(** At the floor a word has a sixth of the window on either side. *)
Lemma context_quality_floor start end_ lo hi :
  BAND_RIGHTS_FLOOR <= context_quality start end_ (lo, hi) ↔
  lo < hi ∧ start < end_ ∧
  hi - lo <= 6 * (start - lo) ∧ hi - lo <= 6 * (hi - end_).
Proof.
  unfold context_quality, BAND_RIGHTS_FLOOR, FULL_CONTEXT_QUALITY.
  destruct ((hi <=? lo) || (end_ <=? start) || (start <? lo) || (hi <? end_)) eqn:H.
  - rewrite !orb_true_iff, !Z.leb_le, !Z.ltb_lt in H. split; [|lia]. intros Hq. vm_compute in Hq. by destruct Hq.
  - rewrite !orb_false_iff, !Z.leb_gt, !Z.ltb_ge in H. change (1000000 `div` 2) with 500000.
    set (m := Z.min (start - lo) (hi - end_)). assert (Hm : m <= start - lo ∧ m <= hi - end_) by lia.
    assert (500000 <= (m * 3 * 1000000) `div` (hi - lo) ↔ hi - lo <= 6 * m) as Hq.
    { split; intros Hd.
      - destruct (Z.le_gt_cases (hi - lo) (6 * m)) as [|Hgt]; [done|].
        assert ((m * 3 * 1000000) `div` (hi - lo) < 500000) by (apply Z.div_lt_upper_bound; lia). lia.
      - apply Z.div_le_lower_bound; lia. }
    lia.
Qed.

(* ------------------------------------------------------------------ *)
(** ** Labels *)

(** The characters of a text, and its words as characters. *)
Definition code_points (s : string) : list Z := map fst (utf8_chars s).

Fixpoint split_points (cur : list Z) (l : list Z) : list (list Z) :=
  match l with
  | [] => match cur with [] => [] | _ => [rev cur] end
  | c :: l' =>
      if is_whitespace c
      then match cur with [] => split_points [] l' | _ => rev cur :: split_points [] l' end
      else split_points (c :: cur) l'
  end.

(** [text.split_whitespace().nth(1).is_none()]: at most one word. *)
Definition one_word_at_most (text : string) : bool := (length (split_whitespace text) <=? 1)%nat.

Section labels.
  Context {tables : CharTables}.

Definition normalize_points (word : list Z) : list Z :=
  to_lowercase (trim_matches (λ ch, negb (is_alphanumeric ch)) word).

Definition normalize_word_token (word : string) : list Z := normalize_points (code_points word).

Definition label_equal (a b : string) : bool :=
  bool_decide (normalize_word_token a = normalize_word_token b).

(** [filter(is_alphanumeric).flat_map(char::to_lowercase)]. *)
Definition letters (text : string) : list Z :=
  flat_map (λ c, to_lowercase [c]) (List.filter is_alphanumeric (code_points text)).

Fixpoint shared_prefix (a b : list Z) : nat :=
  match a, b with
  | x :: a', y :: b' => if x =? y then S (shared_prefix a' b') else O
  | _, _ => O
  end.

Definition respelled_toward_fence (held heard : string) (right_fence : bool) : bool :=
  if negb (one_word_at_most held) || negb (one_word_at_most heard) then false
  else
    let side text := if right_fence then letters text else rev (letters text) in
    let held := side held in
    let heard := side heard in
    let budget := (Nat.max (length held) (length heard) `div` 3)%nat in
    let shared := shared_prefix held heard in
    (0 <? budget)%nat && (length held - shared <=? budget)%nat && (length heard - shared <=? budget)%nat.

Definition same_letters (a b : string) : bool :=
  negb (bool_decide (letters a = [])) && bool_decide (letters a = letters b).

(** The words of a label, normalized, with typographic apostrophes as ASCII. *)
Definition label_words (label : list Z) : list (list Z) :=
  List.filter (λ word, negb (bool_decide (word = [])))
    (map (λ token, map (λ c, if c =? 8217 then 39 else c) (normalize_points token)) (split_points [] label)).

Definition NEGATIONS : list (list Z) :=
  map code_points ["nie"; "bez"; "nigdy"; "not"; "never"; "without"; "don't"; "doesn't"; "can't"; "cannot"; "won't";
    "isn't"; "aren't"]%string.

Fixpoint negations_from (before : list Z) (words : list (list Z)) : list (list Z * list Z * list Z) :=
  match words with
  | [] => []
  | word :: rest =>
      (if bool_decide (word ∈ NEGATIONS) then [(before, word, hd [] rest)] else []) ++ negations_from word rest
  end.

Definition negation_contexts_points (label : list Z) : list (list Z * list Z * list Z) :=
  negations_from [] (label_words label).

Definition negation_contexts (label : string) : list (list Z * list Z * list Z) :=
  negation_contexts_points (code_points label).

(** [words.join(" ")]. *)
Fixpoint join_points (words : list (list Z)) : list Z :=
  match words with
  | [] => []
  | [word] => word
  | word :: rest => word ++ 32 :: join_points rest
  end.

(** Some run of the candidate equal to the stub has no negation beside it. *)
Definition unreversed (held_words cand_words : list (list Z)) : bool :=
  existsb (λ start,
      bool_decide (take (length held_words) (drop start cand_words) = held_words)
      && let from := (start - 1)%nat in
         let to := Nat.min (start + length held_words + 1) (length cand_words) in
         bool_decide (negation_contexts_points (join_points (take (to - from) (drop from cand_words))) = []))
    (seq 0 (S (length cand_words - length held_words))).

Definition coarse_polarity_disagrees (held candidate : string) : bool :=
  let held_neg := negation_contexts held in
  let cand_neg := negation_contexts candidate in
  if bool_decide (held_neg = cand_neg) then false
  else
    let held_words := label_words (code_points held) in
    let cand_words := label_words (code_points candidate) in
    let longer := negb (bool_decide (held_words = [])) && (length held_words <? length cand_words)%nat in
    if longer && bool_decide (take (length held_words) cand_words = held_words)
    then
      let prefix_end := Nat.min (length held_words + 1) (length cand_words) in
      negb (bool_decide (negation_contexts_points (join_points (take prefix_end cand_words)) = held_neg))
    else if bool_decide (held_neg = []) && longer && unreversed held_words cand_words then false
    else true.
End labels.

Example polarity_example :
  let t := ascii_tables in
  coarse_polarity_disagrees "jest" "czy nie jest" = true ∧
  coarse_polarity_disagrees "jest" "czy on tu jest nie" = true ∧
  coarse_polarity_disagrees "jest" "jest tam, bo nie" = false ∧
  respelled_toward_fence "obudzilem." "obudzila" true = true.
Proof. by vm_compute. Qed.
