(* ===== verification/WordGeometry.v ===== *)
(** WordGeometry: where a word lies, and whether a decode heard all of it
    (core/pipeline/acoustic_ledger/speech_anchor.rs and slot_ops.rs).

    Two words are the same word when their measured bursts or, where nothing was
    measured, their declared ranges say so.  A decode heard a whole word when the
    word keeps one encoder frame from each fence of the decode, or when the
    capture measured quiet at that fence. *)

From S2P Require Import Prelude.
From S2P Require Import Text.
From S2P Require Import GroupAlignment.
From S2P Require Import LedgerIdentity.
From S2P Require Import CaptureEvidence.
From S2P Require Import CaptureEnergy.
From S2P Require Import LedgerState.
From S2P Require Import LedgerCoverage.
From S2P Require Import LedgerDecision.
From S2P Require Import WordLabels.
#[local] Open Scope Z_scope.

Definition is_some {A} (x : option A) : bool := match x with Some _ => true | None => false end.

(* ------------------------------------------------------------------ *)
(** ** Bursts *)

Definition anchor_span (anchor : OccurrenceIdentity) (declared : Z * Z) : OccurrenceIdentity :=
  let '(start, end_) := declared in
  let clipped_start := Z.max start (sample_start anchor) in
  let clipped_end := Z.min end_ (sample_end anchor) in
  let '(span_start, span_end) := if clipped_start <? clipped_end then (clipped_start, clipped_end) else (start, end_) in
  mkOccurrence (session anchor) (capture_epoch anchor) span_start span_end.

Definition from_anchors (anchors : list OccurrenceIdentity) (declared : Z * Z) : WordAnchorIdentity :=
  mkWordAnchor anchors (map (λ anchor, anchor_span anchor declared) anchors).

Definition ranges_meet (a b : OccurrenceIdentity) : bool :=
  (sample_start a <? sample_end b) && (sample_start b <? sample_end a).

Definition spans_share (a b : OccurrenceIdentity) : bool :=
  declared_ranges_share_word (sample_start a) (sample_end a) (sample_start b) (sample_end b).

Definition shares_word (self other : WordAnchorIdentity) : bool :=
  existsb (λ l : OccurrenceIdentity * OccurrenceIdentity,
      existsb (λ r : OccurrenceIdentity * OccurrenceIdentity,
          same_capture l.1 r.1 && ranges_meet l.1 r.1 && spans_share l.2 r.2)
        (combine (wai_anchors other) (wai_spans other)))
    (combine (wai_anchors self) (wai_spans self)).

(** The last record of a word of this observation with these bounds. *)
Definition record_of (L : AcousticLedger) (slot : WordSlot) : option AnchorWordRecord :=
  List.find (λ record, bool_decide (ws_observation (awr_slot record) = ws_observation slot)
                       && (ws_sample_start (awr_slot record) =? ws_sample_start slot)
                       && (ws_sample_end (awr_slot record) =? ws_sample_end slot))
    (rev (lg_anchor_words L)).

(* ------------------------------------------------------------------ *)
(** ** Spelling lineage *)

(** A dictionary spelling of exactly this word. *)
Definition respells (word : WordSlot) (operation : SlotOperationReceipt) : option WordSlot :=
  match so_sources operation with
  | [source] =>
      if bool_decide (so_kind operation = SlotCorrect)
         && bool_decide (so_observation operation = ws_observation word)
         && bool_decide (so_outputs operation = [word])
         && (ws_sample_start source =? ws_sample_start word)
         && (ws_sample_end source =? ws_sample_end word)
         && bool_decide (occurrence (ws_observation source) = occurrence (ws_observation word))
      then Some source else None
  | _ => None
  end.

(** The operations from the last one back; a step goes on with the earlier ones. *)
Fixpoint spelling_source (word : WordSlot) (back : list SlotOperationReceipt) : option WordSlot :=
  if negb (bool_decide (ws_producer word = Lexicon)) then Some word
  else
    match back with
    | [] => None
    | operation :: earlier =>
        match respells word operation with
        | Some source => spelling_source source earlier
        | None => spelling_source word earlier
        end
    end.

Definition geometry_preserving_word_source (L : AcousticLedger) (source : WordSlot) : option WordSlot :=
  spelling_source source (rev (lg_slot_operations L)).

Definition complete_word_source (L : AcousticLedger) (source : WordSlot) : option WordSlot :=
  match geometry_preserving_word_source L source with
  | Some word =>
      if bool_decide (ws_observation word ∈ lg_word_pin_observations L)
         && match lg_complete_decoded_words L !! ws_observation word with
            | Some ranges => bool_decide ((ws_sample_start word, ws_sample_end word) ∈ ranges)
            | None => false
            end
      then Some word else None
  | None => None
  end.

Definition complete_word_slot (L : AcousticLedger) (source : WordSlot) : bool :=
  is_some (complete_word_source L source).

Definition push_new {A} `{EqDecision A} (l : list A) (x : A) : list A :=
  if bool_decide (x ∈ l) then l else l ++ [x].

Definition descendants (L : AcousticLedger) (source : WordSlot) : list WordSlot :=
  foldl (λ held operation,
      if existsb (λ s, bool_decide (s ∈ held)) (so_sources operation)
      then foldl push_new held (so_outputs operation) else held)
    [source] (lg_slot_operations L).

Definition slot_descends_from (L : AcousticLedger) (pin source : WordSlot) : bool :=
  bool_decide (pin ∈ descendants L source).

(* ------------------------------------------------------------------ *)
(** ** The same word *)

Definition word_anchor_identity (L : AcousticLedger) (slot : WordSlot) : option WordAnchorIdentity :=
  match geometry_preserving_word_source L slot with
  | Some slot => awr_identity <$> record_of L slot
  | None => None
  end.

Definition original_anchor_word_range (L : AcousticLedger) (slot : WordSlot) : option OccurrenceIdentity :=
  match geometry_preserving_word_source L slot with
  | Some slot => awr_original <$> record_of L slot
  | None => None
  end.

Definition word_anchor_source (L : AcousticLedger) (slot : WordSlot) : option (WordPin * nat) :=
  (λ record, (awr_original_pin record, awr_lexical_index record)) <$> record_of L slot.

(** A sequence binding names the source the candidate stands for. *)
Definition correspondence (L : AcousticLedger) (candidate source : WordSlot) : option bool :=
  match record_of L candidate with
  | Some record =>
      match awr_sequence_source record with
      | Some target =>
          if bool_decide (ws_observation target = ws_observation source)
          then Some (bool_decide (target = source)) else None
      | None => None
      end
  | None => None
  end.

Definition measured_as (measured : WordAnchorIdentity) (word : WordSlot) : bool :=
  existsb (λ span, same_capture span (occurrence (ws_observation word))
             && declared_ranges_share_word (sample_start span) (sample_end span)
                  (ws_sample_start word) (ws_sample_end word)) (wai_spans measured).

Definition same_anchored_word (L : AcousticLedger) (l r : WordSlot) : bool :=
  match match correspondence L l r with Some m => Some m | None => correspondence L r l end with
  | Some matches => matches
  | None =>
      match word_anchor_identity L l, word_anchor_identity L r with
      | Some a, Some b => shares_word a b
      | Some a, None => measured_as a r
      | None, Some b => measured_as b l
      | None, None =>
          same_capture (occurrence (ws_observation l)) (occurrence (ws_observation r))
          && declared_ranges_share_word (ws_sample_start l) (ws_sample_end l) (ws_sample_start r) (ws_sample_end r)
      end
  end.

Definition unmeasured_pair (L : AcousticLedger) (l r : WordSlot) : bool :=
  negb (is_some (word_anchor_identity L l)) && negb (is_some (word_anchor_identity L r)).

Definition same_anchor_assignment (L : AcousticLedger) (l r : WordSlot) : bool :=
  match word_anchor_identity L l, word_anchor_identity L r with
  | Some a, Some b => bool_decide (a = b)
  | _, _ => false
  end.

Definition has_whitespace (text : string) : bool := existsb is_whitespace (code_points text).

Definition coarse_word_source (L : AcousticLedger) (source : WordSlot) : bool :=
  negb (bool_decide (ws_observation source ∈ lg_word_pin_observations L))
  || (has_whitespace (ws_text source) && (length (slot_source_ranges L source) =? 1)%nat).

Definition declared_pin_targets_source (L : AcousticLedger) (source pin : WordSlot) : bool :=
  let shares start end_ := declared_ranges_share_word start end_ (ws_sample_start pin) (ws_sample_end pin) in
  shares (ws_sample_start source) (ws_sample_end source)
  || existsb (λ range, same_capture range (occurrence (ws_observation pin))
                       && shares (sample_start range) (sample_end range)) (slot_source_ranges L source).

Definition pins_meet (source pin : WordSlot) : bool :=
  (ws_sample_start source <? ws_sample_end pin) && (ws_sample_start pin <? ws_sample_end source).

Definition pin_targets_source (L : AcousticLedger) (source pin : WordSlot) : bool :=
  match word_anchor_identity L source with
  | Some _ => same_anchored_word L source pin
  | None =>
      match word_anchor_identity L pin with
      | Some identity =>
          same_anchored_word L source pin
          || (coarse_word_source L source && pins_meet source pin
              && existsb (λ anchor, same_capture anchor (occurrence (ws_observation source))
                            && (sample_start anchor <? ws_sample_end source)
                            && (ws_sample_start source <? sample_end anchor)) (wai_anchors identity))
      | None =>
          (bool_decide (ws_producer source = ManualHuman) && pins_meet source pin)
          || declared_pin_targets_source L source pin
      end
  end.

Definition one_word (text : string) : bool := (length (split_whitespace text) =? 1)%nat.

Definition word_slot_targets_pin (L : AcousticLedger) (source : WordSlot) (pin : OccurrenceIdentity) : bool :=
  bool_decide (ws_observation source ∈ lg_word_pin_observations L)
  && one_word (ws_text source) && is_anchored pin
  && same_capture pin (occurrence (ws_observation source))
  && pin_targets_source L source
       (source <| ws_sample_start := sample_start pin |> <| ws_sample_end := sample_end pin |>).

Section with_tables.
Context {tables : CharTables}.

Definition count_where {A} (p : A → bool) (l : list A) : nat := length (List.filter p l).

Definition repetition_target_ambiguous (L : AcousticLedger) (sources pins : list WordSlot) : bool :=
  existsb (λ pin,
      let key := normalize_word_token (ws_text pin) in
      let same_key slot := bool_decide (normalize_word_token (ws_text slot) = key) in
      negb (bool_decide (key = []))
      && ((1 <? count_where (λ source, same_anchored_word L source pin && same_key source) sources)%nat
          || existsb (λ source, same_anchored_word L source pin
                        && (1 <? count_where (λ other, same_anchored_word L source other && same_key other) pins)%nat)
               sources)) pins.

Definition SPARSE_LABEL_MIN_SPAN_MS : Z := 1500.
Definition SPARSE_LABEL_MAX_CHARS_PER_SEC : Z := 4.

Definition sparse_label_owner (L : AcousticLedger) (owner : OccurrenceIdentity) : bool :=
  match lg_capture_rate_hz L, text_of L owner with
  | Some rate, Some text =>
      let span := sat_sub (sample_end owner) (sample_start owner) in
      let chars := Z.of_nat (count_where is_alphanumeric (code_points text)) in
      (sat_mul rate SPARSE_LABEL_MIN_SPAN_MS <=? sat_mul span 1000)
      && (sat_mul chars rate <? sat_mul SPARSE_LABEL_MAX_CHARS_PER_SEC span)
  | _, _ => false
  end.
End with_tables.
