(* ===== verification/DecodeFences.v ===== *)
(** DecodeFences: whether a decode heard a whole word, and what a decode that
    returned no words accounts for (core/pipeline/acoustic_ledger/slot_ops.rs,
    with [record_word_decode_bounds] of word_adjudication.rs).

    A fence of a decode is an edge of the samples it was given.  Timestamps are
    trusted to one encoder frame of 20 ms, so a word closer than that to a fence
    counts as whole only when the capture measured quiet there. *)

From S2P Require Import Prelude.
From S2P Require Import Text.
From S2P Require Import GroupAlignment.
From S2P Require Import LedgerIdentity.
From S2P Require Import LedgerSpans.
From S2P Require Import CaptureEvidence.
From S2P Require Import CaptureEnergy.
From S2P Require Import LedgerState.
From S2P Require Import LedgerCoverage.
From S2P Require Import LedgerDecision.
From S2P Require Import WordLabels.
From S2P Require Import WordGeometry.
#[local] Open Scope Z_scope.

(** The encoder frame on the capture clock, rounded up, and one sample. *)
Definition resolution (L : AcousticLedger) : Z :=
  sat_add ((default 16000 (lg_capture_rate_hz L) + 49) / 50) 1.

Definition decode_window (owner : OccurrenceIdentity) (start end_ : Z) : OccurrenceIdentity :=
  mkOccurrence (session owner) (capture_epoch owner) start end_.

Definition measured_speech_for (L : AcousticLedger) (source : OccurrenceIdentity) : option AcousticSpeechEvidence :=
  match lg_speech_evidence L with
  | Some speech =>
      match observed_samples (se_availability speech) with
      | Some observed =>
          if is_anchored source
             && identity_matches (se_identity speech) (session source) (capture_epoch source)
             && (String.eqb (se_producer speech) CAPTURE_ENERGY_PRODUCER
                 || String.eqb (se_producer speech) SILERO_BOUNDARIES_PRODUCER)
             && (sample_end source <=? observed)
             && forallb (λ range, let range := occurrence_of_tail range in
                          same_capture range source && is_anchored range && (sample_end range <=? observed))
                  (se_ranges speech)
          then Some speech else None
      | None => None
      end
  | None => None
  end.

(** A quiet receipt for exactly this range of the owner's capture. *)
Definition quiet_receipt (owner : OccurrenceIdentity) (start end_ : Z) (quiet : list OccurrenceIdentity) : bool :=
  existsb (λ q, same_capture q owner && (sample_start q =? start) && (sample_end q =? end_)) quiet.

Definition energy_speaks (energy : DecodeFenceEnergy) (owner : OccurrenceIdentity) (start end_ : Z) : bool :=
  is_some (voiced_hops_in (session owner) (capture_epoch owner) start end_ (dfe_owner energy)).

Definition decode_fence_is_quiet (L : AcousticLedger) (owner : OccurrenceIdentity) (start end_ : Z) : bool :=
  bool_decide (checked_sub end_ start = Some (resolution L))
  && match lg_decode_fence_energy L with
     | None =>
         match lg_replay_quiet_fences L with
         | Some ranges => quiet_receipt owner start end_ ranges
         | None => false
         end
     | Some energy =>
         (end_ <=? dfe_captured_samples energy) && energy_speaks energy owner start end_
         && quiet_receipt owner start end_ (dfe_quiet_ranges energy)
     end.

(** The speech of the capture crosses the left fence and reaches the word. *)
Definition onset_crossed (L : AcousticLedger) (owner : OccurrenceIdentity) (start end_ word_start : Z) : bool :=
  match measured_speech_for L (decode_window owner start end_) with
  | None => false
  | Some speech => existsb (λ range, (tr_sample_start range <=? start) && (word_start <? tr_sample_end range)) (se_ranges speech)
  end.

Definition decode_word_onset_complete (L : AcousticLedger) (owner : OccurrenceIdentity) (start end_ word_start : Z) : bool :=
  if (end_ <=? start) || (word_start <? start) || (end_ <=? word_start) then false
  else if resolution L <? word_start - start then true
  else if (start <? word_start) && negb (onset_crossed L owner start end_ word_start) then true
  else if match lg_decode_fence_energy L with
          | Some energy => (dfe_captured_samples energy <? end_) || negb (energy_speaks energy owner start end_)
          | None => false
          end then false
  else
    match checked_add start (resolution L) with
    | Some edge_end => (edge_end <=? end_) && decode_fence_is_quiet L owner start edge_end
    | None => false
    end.

Definition decode_word_fence_incomplete (L : AcousticLedger) (owner : OccurrenceIdentity)
    (start end_ word_start word_end : Z) : bool :=
  if (end_ <=? start) || (word_start <? start) || (word_end <=? word_start) || (end_ <? word_end) then true
  else if resolution L <? end_ - word_end then false
  else
    let window := decode_window owner start end_ in
    match measured_speech_for L window with
    | None => word_end =? end_
    | Some speech =>
        let crosses := existsb (λ range, (tr_sample_start range <? word_end) && (end_ <=? tr_sample_end range))
                         (se_ranges speech) in
        if negb crosses && (word_end <? end_) then false
        else
          let edge_start := Z.max (sat_sub end_ (resolution L)) start in
          negb (decode_fence_is_quiet L window edge_start end_)
    end.

(** The staged input, when it is this observation's. *)
Definition word_evidence_input (L : AcousticLedger) (observation : ObservationIdentity) : option WordEvidenceInput :=
  match was_input (lg_word_adjudication L) with
  | Some input => if bool_decide (wei_observation input = observation) then Some input else None
  | None => None
  end.

Definition new_word_decode_fence_incomplete (L : AcousticLedger) (observation : ObservationIdentity)
    (word : WordSlot) : bool :=
  let owner := occurrence observation in
  let bounds := lg_decoded_word_windows L !! observation in
  let incomplete start end_ (decode : option (Z * Z)) :=
    match decode with
    | Some (lo, hi) =>
        ((start <? sample_start owner) && negb (decode_word_onset_complete L owner lo hi start))
        || decode_word_fence_incomplete L owner lo hi start end_
    | None => false
    end in
  let matching :=
    match word_evidence_input L observation with
    | Some input =>
        List.filter (λ pin, (Z.max (sw_sample_start pin) (sample_start owner) =? ws_sample_start word)
                            && (Z.min (sw_sample_end pin) (sample_end owner) =? ws_sample_end word)) (wei_words input)
    | None => []
    end in
  match matching with
  | [] => incomplete (ws_sample_start word) (ws_sample_end word) bounds
  | _ => existsb (λ pin, incomplete (sw_sample_start pin) (sw_sample_end pin)
                           (match sw_decode pin with Some d => Some d | None => bounds end)) matching
  end.

Definition option_min (l : list Z) : option Z :=
  match l with [] => None | z :: l' => Some (foldl Z.min z l') end.

Definition option_max (l : list Z) : option Z :=
  match l with [] => None | z :: l' => Some (foldl Z.max z l') end.

(** How far from its fences the decode of an observation held the stretch. *)
Definition decode_margin (L : AcousticLedger) (start end_ : Z) (decoder : ObservationIdentity) : option Z :=
  match lg_decoded_word_windows L !! decoder with
  | Some (lo, hi) => if (lo <=? start) && (end_ <=? hi) then Some (Z.min (start - lo) (hi - end_)) else None
  | None => None
  end.

Definition retokenizing_decode_hears_wider (L : AcousticLedger) (observation : ObservationIdentity)
    (sources : list WordSlot) : bool :=
  match option_min (map ws_sample_start sources), option_max (map ws_sample_end sources) with
  | Some start, Some end_ =>
      match decode_margin L start end_ observation with
      | Some ours =>
          forallb (λ source, match decode_margin L start end_ (ws_observation source) with
                             | Some theirs => theirs <? ours
                             | None => false
                             end) sources
      | None => false
      end
  | _, _ => false
  end.

(* ------------------------------------------------------------------ *)
(** ** Bounds of the decode a batch of words came from *)

Definition decode_pair (start end_ : option Z) : option (Z * Z) :=
  match start, end_ with Some s, Some e => Some (s, e) | _, _ => None end.

Definition pin_decode (pin : WordPin) : option (Z * Z) :=
  decode_pair (pn_decode_sample_start pin) (pn_decode_sample_end pin).

Definition pin_onset_complete (L : AcousticLedger) (observation : ObservationIdentity) (pin : WordPin) : bool :=
  match pin_decode pin with
  | Some (start, end_) =>
      if bool_decide (producer observation = Whisper)
      then decode_word_onset_complete L (occurrence observation) start end_ (pn_sample_start pin)
      else start <? pn_sample_start pin
  | None => false
  end.

(** [None] is the panic of [decode_sample_start.unwrap()]. *)
Definition pin_fence_complete (L : AcousticLedger) (observation : ObservationIdentity) (pin : WordPin) : option bool :=
  match pn_decode_sample_end pin with
  | None => Some false
  | Some end_ =>
      if bool_decide (producer observation = Whisper)
      then
        if pn_sample_end pin <=? end_
        then
          match pn_decode_sample_start pin with
          | Some start =>
              Some (negb (decode_word_fence_incomplete L (occurrence observation) start end_
                            (pn_sample_start pin) (pn_sample_end pin)))
          | None => None
          end
        else Some false
      else Some (pn_sample_end pin <? end_)
  end.

(** The decode span a batch heard: all of the window but a word a fence cut. *)
Fixpoint heard_span (L : AcousticLedger) (observation : ObservationIdentity) (words : list WordPin) (span : Z * Z) :
    option (Z * Z) :=
  match words with
  | [] => Some span
  | pin :: words =>
      match pin_fence_complete L observation pin with
      | None => None
      | Some fence =>
          heard_span L observation words
            (if pin_onset_complete L observation pin then span.1 else Z.max span.1 (pn_sample_end pin),
             if fence then span.2 else Z.min span.2 (pn_sample_start pin))
      end
  end.

Definition complete_pins (L : AcousticLedger) (observation : ObservationIdentity) (words : list WordPin) : list (Z * Z) :=
  let owner := occurrence observation in
  map (λ pin, (Z.max (pn_sample_start pin) (sample_start owner), Z.min (pn_sample_end pin) (sample_end owner)))
    (List.filter (λ pin, pin_onset_complete L observation pin
                         && default false (pin_fence_complete L observation pin)
                         && (pn_sample_start pin <? pn_sample_end pin) && one_word (pn_text pin)) words).

Definition first_decode (words : list WordPin) : option (Z * Z) :=
  match words with [] => None | pin :: _ => pin_decode pin end.

(** [None]: the source panics. *)
Definition record_word_decode_bounds (L : AcousticLedger) (observation : ObservationIdentity) (words : list WordPin) :
    option AcousticLedger :=
  let complete_words := complete_pins L observation words in
  let insert_complete L :=
    if existsb (λ pin, is_some (pn_decode_sample_start pin) || is_some (pn_decode_sample_end pin)) words
    then L <| lg_complete_decoded_words ::= <[observation := complete_words]> |> else L in
  match first_decode words with
  | None => Some (insert_complete L)
  | Some (start, end_) =>
      match heard_span L observation words (start, end_) with
      | None => None
      | Some span =>
          let L := insert_complete L in
          if (start <? end_)
             && forallb (λ pin, bool_decide (pn_decode_sample_start pin = Some start)
                                && bool_decide (pn_decode_sample_end pin = Some end_)
                                && (start <=? pn_sample_start pin) && (pn_sample_end pin <=? end_)) words
          then
            Some (L <| lg_decoded_word_windows ::= <[observation := (start, end_)]> |>
                    <| lg_complete_decode_spans ::= λ spans, record_complete_decode_span spans observation span |>)
          else Some L
      end
  end.

(* ------------------------------------------------------------------ *)
(** ** Decodes that returned no word *)

Definition outranks (L : AcousticLedger) (observation : ObservationIdentity) (held : WordSlot) : bool :=
  match complete_word_source L held with
  | Some source => authority_rank (producer observation) <=? authority_rank (ws_producer source)
  | None => false
  end.

(** What one held word accounts for. *)
Definition pin_accounts (L : AcousticLedger) (observation : ObservationIdentity) (held_owner : OccurrenceIdentity)
    (committed : CommittedObservation) (pin : WordSlot) : list (Z * Z) :=
  match complete_word_source L pin with
  | None => []
  | Some source =>
      if negb (bool_decide (ws_observation pin ∈ lg_word_pin_observations L))
         || (authority_rank (ws_producer source) <? authority_rank (producer observation))
      then []
      else
        map (λ range, (sample_start range, sample_end range)) (slot_source_ranges L pin)
        ++ (if negb (bool_decide (is_Some (lg_rejected_word_pins L !! held_owner)))
               && forallb (outranks L observation) (co_slots committed)
            then match lg_decoded_word_windows L !! ws_observation source with
                 | Some window => [window]
                 | None => []
                 end
            else [])
  end.

Definition accounted_ranges (L : AcousticLedger) (observation : ObservationIdentity) : list (Z * Z) :=
  merge_sort pair_le
    (flat_map (λ kv : OccurrenceIdentity * CommittedObservation,
         if same_capture kv.1 (occurrence observation)
         then flat_map (pin_accounts L observation kv.1 kv.2) (co_slots kv.2) else [])
      (map_to_list (lg_committed L))).

Definition advance (accounted : list (Z * Z)) (cursor : Z) : Z :=
  foldl (λ (cursor : Z) (r : Z * Z), if (r.1 <=? cursor) && (cursor <? r.2) then r.2 else cursor) cursor accounted.

Definition empty_decode_scope_accounted (L : AcousticLedger) (observation : ObservationIdentity) (start end_ : Z) : bool :=
  match measured_speech_for L (decode_window (occurrence observation) start end_) with
  | None => false
  | Some speech =>
      let accounted := accounted_ranges L observation in
      forallb (λ range, Z.min (tr_sample_end range) end_ <=? advance accounted (Z.max (tr_sample_start range) start))
        (se_ranges speech)
  end.

Section empty_decodes.
Context {tables : CharTables} {debt : WordDebt}.

Definition record_empty_decode_work (L : AcousticLedger) (observation : ObservationIdentity)
    (decode : OccurrenceIdentity) : AcousticLedger * bool :=
  let owner := occurrence observation in
  if negb (bool_decide (producer observation = Whisper))
     || negb (same_capture decode owner) || negb (is_qualified L owner) || is_sealed L owner
     || bool_decide (observation ∈ lg_answered L)
     || bool_decide (observation ∈ lg_successful_empty_decodes L)
     || bool_decide (is_Some (lg_decoded_word_windows L !! observation))
     || (sample_end owner <=? sample_start decode) || (sample_end decode <=? sample_start owner)
     || negb (is_some (measured_speech_for L decode))
  then (L, false)
  else
    let history := default OwnerHistory_default (lg_owner_history L !! owner) in
    let of_producer := default ProducerHistory_default (oh_producers history !! producer observation) in
    let L := L <| lg_successful_empty_decodes ::= union {[ observation ]} |>
               <| lg_owner_history ::= <[owner := history <| oh_producers ::=
                    <[producer observation := reserve_generation of_producer (generation observation)]> |>]> |>
               <| lg_decoded_word_windows ::= <[observation := (sample_start decode, sample_end decode)]> |> in
    let accounted := empty_decode_scope_accounted L observation (sample_start decode) (sample_end decode) in
    let L := if accounted then L else (require_text_recovery L owner).2 in
    (reconcile_returned_word_debt L owner, accounted).

Definition has_returned_decode_work (L : AcousticLedger) (observation : ObservationIdentity)
    (decode : OccurrenceIdentity) : bool :=
  same_capture decode (occurrence observation)
  && bool_decide (observation ∈ lg_successful_empty_decodes L)
  && bool_decide (lg_decoded_word_windows L !! observation = Some (sample_start decode, sample_end decode)).
End empty_decodes.
