(* ===== verification/DecodeFencesFacts.v ===== *)
(** DecodeFencesFacts: a decode without words accounts for a stretch of speech
    exactly when every measured sample of it is already covered. *)

From S2P Require Import Prelude.
From S2P Require Import Text.
From S2P Require Import GroupAlignment.
From S2P Require Import LedgerIdentity.
From S2P Require Import LedgerSpans.
From S2P Require Import CaptureEvidence.
From S2P Require Import LedgerState.
From S2P Require Import LedgerCoverage.
From S2P Require Import LedgerDecision.
From S2P Require Import WordGeometry.
From S2P Require Import DecodeFences.
#[local] Open Scope Z_scope.

#[global] Instance pair_le_trans : Transitive pair_le.
Proof. intros [] [] []. unfold pair_le. simpl. lia. Qed.

#[global] Instance pair_le_total : Total pair_le.
Proof. intros [] []. unfold pair_le. simpl. lia. Qed.

Lemma advance_stuck l cursor : (∀ r, r ∈ l → cursor < r.1) → advance l cursor = cursor.
Proof.
  unfold advance. induction l as [|r l IH]; intros Hl; simpl; [done|].
  rewrite (proj2 (Z.leb_gt r.1 cursor)) by (apply Hl; by left). simpl. apply IH. intros x Hx. apply Hl. by right.
Qed.

(** The sweep over sorted ranges reaches [limit] iff nothing before is missing. *)
Lemma advance_exact l cursor limit :
  StronglySorted pair_le l →
  limit <= advance l cursor ↔ ∀ z, cursor <= z < limit → in_spans z l.
Proof.
  intros Hs. revert cursor. induction Hs as [|[lo hi] l Hs IH Hall]; intros cursor.
  - unfold advance. simpl. split; [lia|]. intros H. destruct (Z.le_gt_cases limit cursor); [done|].
    exfalso. apply (in_spans_nil cursor), H. lia.
  - change (advance ((lo, hi) :: l) cursor)
      with (advance l (if (lo <=? cursor) && (cursor <? hi) then hi else cursor)).
    destruct (lo <=? cursor) eqn:Hlo; simpl; zbool.
    + destruct (cursor <? hi) eqn:Hhi; zbool; rewrite IH; setoid_rewrite in_spans_cons; unfold in_range; simpl; split.
      * intros H z Hz. destruct (Z.lt_ge_cases z hi); [left; lia|right; apply H; lia].
      * intros H z Hz. destruct (H z ltac:(lia)) as [?|?]; [lia|done].
      * intros H z Hz. right. by apply H.
      * intros H z Hz. destruct (H z Hz) as [?|?]; [lia|done].
    + assert (Hlater : ∀ r, r ∈ (lo, hi) :: l → cursor < r.1).
      { intros r [->|Hr]%elem_of_cons; [done|]. rewrite Forall_forall in Hall. specialize (Hall r Hr).
        unfold pair_le in Hall. simpl in Hall. lia. }
      rewrite advance_stuck by (intros r Hr; apply Hlater; by right). split; [lia|].
      intros H. destruct (Z.le_gt_cases limit cursor); [done|].
      destruct (H cursor ltac:(lia)) as (r & Hr & Hin). specialize (Hlater r Hr). unfold in_range in Hin. lia.
Qed.

Lemma accounted_sorted L observation : StronglySorted pair_le (accounted_ranges L observation).
Proof. apply StronglySorted_merge_sort; apply _. Qed.

