(* ===== verification/WordEvidence.v ===== *)
(** WordEvidence: the evidence behind one word of the ledger
    (core/pipeline/acoustic_ledger/word_adjudication.rs).

    A component is the dispute over some current words of an owner: the
    incumbent, at most two hypotheses of Apple and three of Whisper, and the
    decode frames seen. *)

From S2P Require Import Prelude.
From S2P Require Import Text.
From S2P Require Import GroupAlignment.
From S2P Require Import LedgerIdentity.
From S2P Require Import LedgerState.
From S2P Require Import LedgerCoverage.
From S2P Require Import LedgerDecision.
From S2P Require Import WordLabels.
From S2P Require Import WordGeometry.
From S2P Require Import DecodeFences.
#[local] Open Scope Z_scope.

(** [collect::<Option<Vec<_>>>()]. *)
Fixpoint collect_options {A} (l : list (option A)) : option (list A) :=
  match l with
  | [] => Some []
  | x :: l' => match x, collect_options l' with Some a, Some r => Some (a :: r) | _, _ => None end
  end.

(* ------------------------------------------------------------------ *)
(** ** Hypotheses and components *)

Definition family (h : WordHypothesis) : ObservationProducer :=
  if bool_decide (producer (wh_observation h) = AppleDictation)
     || match wh_backend h with Some backend => ends_with backend ":apple_speech" | None => false end
  then Apple else producer (wh_observation h).

Definition hypothesis_capture (h : WordHypothesis) (capture : OccurrenceIdentity) : bool :=
  same_capture (occurrence (wh_observation h)) capture.

Definition has_decode (c : WordAdjudication) (capture : OccurrenceIdentity) (decode : option (Z * Z)) : bool :=
  match decode with
  | None => false
  | Some decode =>
      (same_capture (wa_owner c) capture && bool_decide (decode ∈ wa_seen_decodes c))
      || existsb (λ h, bool_decide (family h = Whisper) && hypothesis_capture h capture
                       && bool_decide (wh_decode h = Some decode)) (wa_whisper c ++ [wa_incumbent c])
  end.

Definition support (c : WordAdjudication) : list WordHypothesis :=
  let l := wa_apple c ++ wa_whisper c in
  if wh_complete (wa_incumbent c) && negb (bool_decide (wa_incumbent c ∈ l)) then l ++ [wa_incumbent c] else l.

(** Keep the last [n]. *)
Definition keep_last {A} (n : nat) (l : list A) : list A := drop (length l - n) l.

(** The order of Whisper hypotheses: by the end, then the start of the frame. *)
Definition decode_key (h : WordHypothesis) : Z * Z :=
  match wh_decode h with Some (s, e) => (e, s) | None => (-1, -1) end.

Definition decode_le (a b : WordHypothesis) : Prop :=
  (decode_key a).1 < (decode_key b).1 ∨ (decode_key a).1 = (decode_key b).1 ∧ (decode_key a).2 <= (decode_key b).2.

#[global] Instance decode_le_dec a b : Decision (decode_le a b).
Proof. unfold decode_le; apply _. Defined.

Definition same_frame (hypothesis prior : WordHypothesis) : bool :=
  bool_decide (family prior = Whisper) && bool_decide (wh_decode prior = wh_decode hypothesis)
  && hypothesis_capture prior (occurrence (wh_observation hypothesis)).

(** [iter_mut().find(p)] and a replacement of what it found. *)
Fixpoint replace_first {A} (p : A → bool) (f : A → A) (l : list A) : list A :=
  match l with
  | [] => []
  | x :: l' => if p x then f x :: l' else x :: replace_first p f l'
  end.

Definition observe_hypothesis (h : WordHypothesis) (c : WordAdjudication) : WordAdjudication * bool :=
  match family h with
  | Apple =>
      if match last (wa_apple c) with
         | Some prior =>
             (bool_decide (producer (wh_observation prior) = producer (wh_observation h))
              && (generation (wh_observation h) <? generation (wh_observation prior)))
             || (bool_decide (wh_original_text prior = wh_original_text h) && bool_decide (wh_pins prior = wh_pins h))
         | None => false
         end
      then (c, false)
      else
        let l := wa_apple c ++ [h] in
        (c <| wa_apple := if (2 <? length l)%nat then tail l else l |>, true)
  | Whisper =>
      match wh_decode h with
      | None => (c, false)
      | Some decode =>
          let fresh := negb (bool_decide (decode ∈ wa_seen_decodes c)) in
          let c := c <| wa_seen_decodes ::= (λ s, {[ decode ]} ∪ s) |> in
          if existsb (same_frame h) (wa_whisper c)
          then
            (c <| wa_whisper ::= replace_first (same_frame h)
                    (λ prior, if generation (wh_observation prior) <? generation (wh_observation h) then h else prior) |>,
             false)
          else
            let l := merge_sort decode_le (wa_whisper c ++ [h]) in
            (c <| wa_whisper := if (3 <? length l)%nat then tail l else l |>, fresh)
      end
  | _ => (c, false)
  end.

(* ------------------------------------------------------------------ *)
(** ** Staged input *)

Definition input_trial (L : AcousticLedger) (obs : ObservationIdentity) : option WordTrial :=
  match word_evidence_input L obs with Some input => wei_trial input | None => None end.

Definition with_words (f : WordAdjudicationState → WordAdjudicationState) (L : AcousticLedger) : AcousticLedger :=
  L <| lg_word_adjudication ::= f |>.

Definition restore_word_evidence (input : WordEvidenceInput) (L : AcousticLedger) : AcousticLedger :=
  with_words (λ w, w <| was_input := Some input |>) L.

(** The bound provider answers for these pins. *)
Definition provider_matches (obs : ObservationIdentity) (original : list WordPin) (request : TailRequestIdentity) : bool :=
  match producer obs with Whisper | AppleDictation => true | _ => false end
  && String.eqb (tr_session (tq_range request)) (session (occurrence obs))
  && (tr_capture_epoch (tq_range request) =? capture_epoch (occurrence obs))
  && forallb (λ pin, bool_decide (pn_decode_sample_start pin = Some (tr_sample_start (tq_range request)))
                     && bool_decide (pn_decode_sample_end pin = Some (tr_sample_end (tq_range request)))) original.

Definition staged_word (pin : WordPin) : SourceWord :=
  mkSourceWord None (pn_sample_start pin) (pn_sample_end pin)
    (if pn_surface_rewritten pin then None else Some (pn_text pin)) (pn_text pin) (pn_confidence pin)
    (pn_surface_rewritten pin) (decode_pair (pn_decode_sample_start pin) (pn_decode_sample_end pin)).

Definition stage_word_evidence (obs : ObservationIdentity) (original : list WordPin) (backend : option string)
    (finality : string) (L : AcousticLedger) : AcousticLedger :=
  let provider :=
    match was_provider (lg_word_adjudication L) with
    | Some p => if provider_matches obs original p.1.1.1 then Some p else None
    | None => None
    end in
  restore_word_evidence
    (mkEvidenceInput
       ((λ p : TailRequestIdentity * string * string * string, p.1.1.1) <$> provider)
       obs (map staged_word original)
       (match backend with
        | Some b => Some b
        | None => (λ p : TailRequestIdentity * string * string * string, p.1.1.2) <$> provider
        end)
       (match provider with Some p => p.1.2 | None => finality end)
       (match provider with Some p => p.2 | None => "capture_word_pins" end)
       None) L.

Definition bind_word_provider (identity : TailRequestIdentity) (backend stability timing : string)
    (L : AcousticLedger) : AcousticLedger :=
  with_words (λ w, w <| was_provider := Some (identity, backend, stability, timing) |>) L.

Definition refresh_word (pins : list WordPin) (source : SourceWord) : SourceWord :=
  match List.find (λ pin, (pn_sample_start pin =? sw_sample_start source) && (pn_sample_end pin =? sw_sample_end source)) pins with
  | Some pin => source <| sw_surface := pn_text pin |> <| sw_surface_rewritten := pn_surface_rewritten pin |>
  | None => source
  end.

Definition prepare_word_evidence (obs : ObservationIdentity) (pins : list WordPin) (L : AcousticLedger) : AcousticLedger :=
  let L :=
    match was_input (lg_word_adjudication L) with
    | Some input =>
        if bool_decide (wei_observation input = obs) then L else stage_word_evidence obs pins None "unknown" L
    | None => stage_word_evidence obs pins None "unknown" L
    end in
  with_words (λ w, w <| was_input ::= (λ i, (λ input, input <| wei_words ::= map (refresh_word pins) |>) <$> i) |>) L.
