(* ===== verification/WordComponents.v ===== *)
(** WordComponents: how the components of a dispute are built, joined and split
    (core/pipeline/acoustic_ledger/word_adjudication.rs).

    A hypothesis is read off the words of one observation.  A component over
    several words is assembled from the witnesses of its members that name every
    word; a settled component of several words can be separated again. *)

From S2P Require Import Prelude.
From S2P Require Import Text.
From S2P Require Import GroupAlignment.
From S2P Require Import LedgerIdentity.
From S2P Require Import LedgerState.
From S2P Require Import LedgerCoverage.
From S2P Require Import LedgerDecision.
From S2P Require Import WordLabels.
From S2P Require Import WordGeometry.
From S2P Require Import DecodeFences.
From S2P Require Import WordEvidence.
#[local] Open Scope Z_scope.

Definition WORD_POLICY : string := "word-adjudication/v35-window-position".
Definition MAX_OPEN_COMPONENTS : nat := 4096.

Definition targets_of (slots : list WordSlot) : list SlotTarget := map slot_target_of slots.

Definition word_source_ranges (L : AcousticLedger) (sources : list WordSlot) : list OccurrenceIdentity :=
  merge_sort occ_le (foldl push_new [] (flat_map (slot_source_ranges L) sources)).

Definition names (targets : list SlotTarget) (target : SlotTarget) : bool := bool_decide (target ∈ targets).

Definition provisional_apple_revision (L : AcousticLedger) (observation : ObservationIdentity) (sources : list WordSlot) : bool :=
  bool_decide (producer observation = Apple)
  && negb (bool_decide (sources = []))
  && forallb (λ source, bool_decide (ws_producer source = Apple)) sources
  && match word_evidence_input L observation with
     | Some input =>
         forallb (λ source, existsb (λ pin, (sw_sample_start pin =? ws_sample_start source)
                                            && (sw_sample_end pin =? ws_sample_end source)) (wei_words input)) sources
     | None => false
     end
  && negb (existsb (λ c, existsb (names (targets_of sources)) (wa_targets c) && negb (bool_decide (wa_whisper c = [])))
             (was_components (lg_word_adjudication L))).

(** The decode of the observation: its saved window, or the one its words share. *)
Definition observed_decode (L : AcousticLedger) (observation : ObservationIdentity) : option (Z * Z) :=
  match lg_decoded_word_windows L !! observation with
  | Some decode => Some decode
  | None =>
      match word_evidence_input L observation with
      | Some input =>
          match wei_words input with
          | [] => None
          | pin :: _ =>
              match sw_decode pin with
              | Some decode =>
                  if forallb (λ pin, bool_decide (sw_decode pin = Some decode)) (wei_words input)
                  then Some decode else None
              | None => None
              end
          end
      | None => None
      end
  end.

Definition asr_source_scope_complete (L : AcousticLedger) (observation : ObservationIdentity) (sources : list WordSlot) : bool :=
  if bool_decide (producer observation = ManualHuman)
     || forallb (coarse_word_source L) sources
     || provisional_apple_revision L observation sources
  then true
  else
    match observed_decode L observation with
    | None => false
    | Some (start, end_) =>
        (start <? end_)
        && forallb (λ range, same_capture range (occurrence observation)
                             && (start <=? sample_start range) && (sample_end range <=? end_))
             (word_source_ranges L sources)
    end.

(* ------------------------------------------------------------------ *)
(** ** The hypothesis of an observation *)

Definition word_count (text : string) : nat := length (split_whitespace text).

Definition nth_word (text : string) (n : nat) : option string := split_whitespace text !! n.

(** The raw spelling of an anchored pin, from the only original pin like it. *)
Definition staged_original (input : option WordEvidenceInput) (same_observation : bool) (pin : WordPin) (position : nat) :
    option string :=
  match input with
  | Some input =>
      if negb same_observation then None
      else
        match List.filter (λ source, (sw_sample_start source =? pn_sample_start pin)
                             && (sw_sample_end source =? pn_sample_end pin)
                             && bool_decide (sw_decode source = pin_decode pin)
                             && String.eqb (sw_surface source) (pn_text pin)) (wei_words input) with
        | [source] =>
            match sw_original_text source with
            | Some raw => if (word_count raw =? word_count (pn_text pin))%nat then nth_word raw position else None
            | None => None
            end
        | _ => None
        end
  | None => None
  end.

Definition source_word_of (L : AcousticLedger) (observation : ObservationIdentity) (output : WordSlot) : SourceWord :=
  let input := word_evidence_input L observation in
  match word_anchor_source L output with
  | Some (pin, position) =>
      mkSourceWord (Some (Z.of_nat position)) (pn_sample_start pin) (pn_sample_end pin)
        (match staged_original input (bool_decide (ws_observation output = observation)) pin position with
         | Some raw => Some raw
         | None => if pn_surface_rewritten pin then None else nth_word (pn_text pin) position
         end)
        (ws_text output) (ws_confidence output) (pn_surface_rewritten pin) (pin_decode pin)
  | None =>
      match match input with
            | Some input =>
                List.find (λ pin,
                    (Z.max (sw_sample_start pin) (sample_start (occurrence observation)) =? ws_sample_start output)
                    && (Z.min (sw_sample_end pin) (sample_end (occurrence observation)) =? ws_sample_end output))
                  (wei_words input)
            | None => None
            end with
      | Some pin => pin
      | None =>
          mkSourceWord None (ws_sample_start output) (ws_sample_end output)
            (if ws_surface_rewritten output then None else Some (ws_text output))
            (ws_text output) (ws_confidence output) (ws_surface_rewritten output)
            (lg_decoded_word_windows L !! ws_observation output)
      end
  end.

(** The decode every pin names. *)
Definition common_decode (pins : list SourceWord) : option (Z * Z) :=
  match pins with
  | [] => None
  | pin :: _ =>
      match sw_decode pin with
      | Some decode => if forallb (λ pin, bool_decide (sw_decode pin = Some decode)) pins then Some decode else None
      | None => None
      end
  end.

Definition original_text_of (pins : list SourceWord) : option string :=
  join_space <$> collect_options (map sw_original_text pins).

(** From the first to the last sample of the sources and the pins. *)
Definition span_of (ranges : list OccurrenceIdentity) (pins : list SourceWord) : Z * Z :=
  (default 0 (option_min (map sample_start ranges ++ map sw_sample_start pins)),
   default 0 (option_max (map sample_end ranges ++ map sw_sample_end pins))).

Definition decode_holds (decode : option (Z * Z)) (span : Z * Z) : bool :=
  match decode with Some (s, e) => (s <=? span.1) && (span.2 <=? e) | None => false end.

Definition decode_nonempty (decode : option (Z * Z)) : bool :=
  match decode with Some (s, e) => s <? e | None => false end.

Definition quality_of (decode : option (Z * Z)) (span : Z * Z) : Z :=
  match decode with Some decode => context_quality span.1 span.2 decode | None => 0 end.

Definition pin_boundaries_complete (L : AcousticLedger) (observation : ObservationIdentity) (decode : Z * Z) (pin : SourceWord) : bool :=
  let '(s, e) := decode in
  (if bool_decide (producer observation = Whisper)
   then decode_word_onset_complete L (occurrence observation) s e (sw_sample_start pin)
   else s <? sw_sample_start pin)
  && negb (decode_word_fence_incomplete L (occurrence observation) s e (sw_sample_start pin) (sw_sample_end pin)).

Definition recorded_complete (L : AcousticLedger) (output : WordSlot) : bool :=
  match lg_complete_decoded_words L !! ws_observation output with
  | Some ranges => bool_decide ((ws_sample_start output, ws_sample_end output) ∈ ranges)
  | None => false
  end.

Definition hypothesis (L : AcousticLedger) (observation : ObservationIdentity) (sources outputs : list WordSlot) : WordHypothesis :=
  let input := word_evidence_input L observation in
  let pins := map (source_word_of L observation) outputs in
  let decode := common_decode pins in
  let span := span_of (word_source_ranges L sources) pins in
  let measured := negb (bool_decide (pins = [])) && forallb (λ pin, sw_sample_start pin <? sw_sample_end pin) pins in
  let timing := match input with Some input => wei_timing input | None => "capture_word_pins"%string end in
  let complete :=
    measured && (String.eqb timing "capture_word_pins" || String.eqb timing "exact_sample_range")
    && decode_nonempty decode && decode_holds decode span in
  let acoustic_boundaries_complete :=
    complete
    && (if negb (is_some input) && bool_decide (producer observation = Whisper)
        then forallb (recorded_complete L) outputs
        else match decode with
             | Some decode => forallb (pin_boundaries_complete L observation decode) pins
             | None => false
             end) in
  mkHypothesis (input ← input; wei_producer_request input) observation pins (targets_of sources) decode
    (original_text_of pins) (compose_label outputs) (input ← input; wei_backend input)
    (match input with Some input => wei_finality input | None => "unknown"%string end) timing
    complete acoustic_boundaries_complete (quality_of decode span).

(* ------------------------------------------------------------------ *)
(** ** Choices *)

Definition push_choice (choice : WordChoiceReceipt) (L : AcousticLedger) : AcousticLedger :=
  with_words (λ w, w <| was_choices ::= λ l, l ++ [choice] |>) L.

Definition record_word_choice (L : AcousticLedger) (observation : ObservationIdentity) (sources outputs : list WordSlot)
    (reason : string) (accepted : bool) : AcousticLedger :=
  let targets := targets_of sources in
  let support :=
    match List.find (λ c, bool_decide (wa_targets c = targets)) (was_components (lg_word_adjudication L)) with
    | Some c => support c
    | None => []
    end in
  push_choice
    (mkChoice WORD_POLICY observation targets (word_source_ranges L sources) (hypothesis L observation sources outputs)
       support (if accepted then compose_label outputs else compose_label sources) reason accepted false) L.

(* ------------------------------------------------------------------ *)
(** ** A component over several words *)

(** Two hypotheses of one producer pass. *)
Definition same_pass (held h : WordHypothesis) : bool :=
  bool_decide (family held = family h) && bool_decide (wh_backend held = wh_backend h)
  && same_capture (occurrence (wh_observation held)) (occurrence (wh_observation h))
  && let same_request :=
       (request (wh_observation held) =? request (wh_observation h))
       && (generation (wh_observation held) =? generation (wh_observation h)) in
     if bool_decide (family held = Whisper)
     then is_some (wh_decode held) && bool_decide (wh_decode held = wh_decode h)
          && match wh_producer_request held, wh_producer_request h with
             | Some a, Some b => bool_decide (a = b)
             | None, None => same_request
             | _, _ => false
             end
     else same_request.

Abbreviation WitnessGroup := (WordHypothesis * list SlotTarget)%type.

Definition join_pass (h : WordHypothesis) (targets : list SlotTarget) (g : WitnessGroup) : WitnessGroup :=
  (g.1 <| wh_complete ::= λ b, b && wh_complete h |>
       <| wh_acoustic_boundaries_complete ::= λ b, b && wh_acoustic_boundaries_complete h |>
       <| wh_pins ::= λ pins, foldl push_new pins (wh_pins h) |>,
   foldl push_new g.2 targets).

Definition add_witness (targets : list SlotTarget) (groups : list WitnessGroup) (h : WordHypothesis) : list WitnessGroup :=
  if existsb (λ g : WitnessGroup, same_pass g.1 h) groups
  then replace_first (λ g : WitnessGroup, same_pass g.1 h) (join_pass h targets) groups
  else groups ++ [(h, targets)].

Definition witness_groups (members : list WordAdjudication) : list WitnessGroup :=
  foldl (λ groups member, foldl (add_witness (wa_targets member)) groups (support member)) [] members.

(** The order of pins: start, end, position ([None] first). *)
Definition position_key (pin : SourceWord) : Z :=
  match sw_lexical_position pin with Some p => p | None => -1 end.

Definition pin_le (a b : SourceWord) : Prop :=
  sw_sample_start a < sw_sample_start b
  ∨ sw_sample_start a = sw_sample_start b
    ∧ (sw_sample_end a < sw_sample_end b ∨ sw_sample_end a = sw_sample_end b ∧ position_key a <= position_key b).

#[global] Instance pin_le_dec a b : Decision (pin_le a b).
Proof. unfold pin_le; apply _. Defined.

Definition pins_conflict (a b : SourceWord) : bool :=
  (sw_sample_start b <? sw_sample_end a)
  && negb ((sw_sample_start a =? sw_sample_start b) && (sw_sample_end a =? sw_sample_end b)
           && match sw_lexical_position a, sw_lexical_position b with Some l, Some r => l <? r | _, _ => false end).

Fixpoint some_pins_conflict (pins : list SourceWord) : bool :=
  match pins with
  | a :: (b :: _) as rest => pins_conflict a b || some_pins_conflict rest
  | _ => false
  end.

(** A group that names every word and has no overlapping pins, as one witness. *)
Definition whole_witness (targets : list SlotTarget) (ranges : list OccurrenceIdentity) (g : WitnessGroup) :
    option WordHypothesis :=
  if negb (forallb (names g.2) targets) then None
  else
    let pins := merge_sort pin_le (wh_pins g.1) in
    if some_pins_conflict pins then None
    else
      let span := span_of ranges pins in
      let complete := wh_complete g.1 && decode_holds (wh_decode g.1) span in
      Some (g.1 <| wh_pins := pins |> <| wh_original_text := original_text_of pins |>
                <| wh_surface := join_space (map sw_surface pins) |> <| wh_targets := targets |>
                <| wh_complete := complete |>
                <| wh_acoustic_boundaries_complete ::= λ b, b && complete |>
                <| wh_q := quality_of (wh_decode g.1) span |>).

Definition observe_witness (h : WordHypothesis) (c : WordAdjudication) : WordAdjudication := (observe_hypothesis h c).1.

Definition members_of (L : AcousticLedger) (owner : OccurrenceIdentity) (targets : list SlotTarget) : list WordAdjudication :=
  List.filter (λ c, bool_decide (wa_owner c = owner) && forallb (names targets) (wa_targets c))
    (was_components (lg_word_adjudication L)).

(** [None]: the source indexes the first of no words. *)
Definition component_for_sources (L : AcousticLedger) (owner : OccurrenceIdentity) (sources : list WordSlot) :
    option WordAdjudication :=
  match sources with
  | [] => None
  | first :: _ =>
      let targets := targets_of sources in
      let members := members_of L owner targets in
      let incumbent := hypothesis L (ws_observation first) sources sources in
      let incumbent :=
        if existsb (λ source, negb (bool_decide (ws_observation source = ws_observation first))) sources
        then incumbent <| wh_original_text := None |> <| wh_complete := false |>
                       <| wh_acoustic_boundaries_complete := false |>
        else incumbent in
      let component :=
        mkAdjudication owner targets incumbent [] [] (⋃ map wa_seen_decodes members)
          (existsb wa_conflict members) (existsb wa_attempted members) (existsb wa_fresh_attempted members)
          None (find_map wa_last_trial members) in
      let component :=
        foldl (λ c h, observe_witness h c) component
          (omap (whole_witness targets (word_source_ranges L sources)) (witness_groups members)) in
      Some (if bool_decide (wa_apple component = []) && bool_decide (wa_whisper component = [])
               && is_some (wh_original_text (wa_incumbent component))
            then observe_witness (wa_incumbent component) component else component)
  end.

(* ------------------------------------------------------------------ *)
(** ** Separating a settled component *)

Fixpoint position_of {A} (p : A → bool) (l : list A) : option nat :=
  match l with
  | [] => None
  | x :: l' => if p x then Some O else S <$> position_of p l'
  end.

Definition project_word_hypothesis (L : AcousticLedger) (h : WordHypothesis) (source : WordSlot) : WordHypothesis :=
  let projected := h <| wh_targets := [slot_target_of source] |> in
  match (if (length (wh_pins h) =? length (wh_targets h))%nat
         then position ← position_of (λ target, bool_decide (target = slot_target_of source)) (wh_targets h);
              wh_pins h !! position
         else None) with
  | None =>
      projected <| wh_pins := [] |> <| wh_original_text := None |> <| wh_surface := ""%string |>
                <| wh_complete := false |> <| wh_acoustic_boundaries_complete := false |> <| wh_q := 0 |>
  | Some pin =>
      let span := span_of (word_source_ranges L [source]) [pin] in
      let complete := wh_complete h && decode_nonempty (wh_decode h) && decode_holds (wh_decode h) span in
      projected <| wh_pins := [pin] |> <| wh_original_text := sw_original_text pin |> <| wh_surface := sw_surface pin |>
                <| wh_complete := complete |> <| wh_acoustic_boundaries_complete ::= λ b, b && complete |>
                <| wh_q := quality_of (wh_decode h) span |>
  end.

Definition separated_word (L : AcousticLedger) (component : WordAdjudication) (source : WordSlot) : WordAdjudication :=
  component <| wa_targets := [slot_target_of source] |>
            <| wa_incumbent := (project_word_hypothesis L (wa_incumbent component) source) <| wh_surface := ws_text source |> |>
            <| wa_apple ::= map (λ h, project_word_hypothesis L h source) |>
            <| wa_whisper ::= map (λ h, project_word_hypothesis L h source) |>.

(** Settled, and only partly named by the targets. *)
Definition splits_on (owner : OccurrenceIdentity) (targets : list SlotTarget) (component : WordAdjudication) : bool :=
  bool_decide (wa_owner component = owner) && negb (wa_conflict component)
  && negb (is_some (wa_trial component))
  && existsb (names targets) (wa_targets component)
  && negb (forallb (names targets) (wa_targets component)).

Definition slots_named (L : AcousticLedger) (owner : OccurrenceIdentity) (targets : list SlotTarget) : list WordSlot :=
  List.filter (λ slot, names targets (slot_target_of slot)) (default [] (slots_of L owner)).

Definition overlaps_other (owner : OccurrenceIdentity) (index : nat) (component : WordAdjudication)
    (components : list WordAdjudication) : bool :=
  existsb (λ m : nat * WordAdjudication,
      negb (m.1 =? index)%nat && bool_decide (wa_owner m.2 = owner)
      && existsb (names (wa_targets component)) (wa_targets m.2))
    (enumerate components).

(** The loop that prepares every split, and refuses before any is applied. *)
Fixpoint prepare_splits (L : AcousticLedger) (owner : OccurrenceIdentity) (targets : list SlotTarget)
    (all : list WordAdjudication) (count : nat) (rows : list (nat * WordAdjudication)) :
    string + list (nat * list WordAdjudication) :=
  match rows with
  | [] => inr []
  | (index, component) :: rows =>
      if negb (splits_on owner targets component) then prepare_splits L owner targets all count rows
      else if overlaps_other owner index component all then inl "overlapping_adjudication_scope"%string
      else
        let sources := slots_named L owner (wa_targets component) in
        if negb (length sources =? length (wa_targets component))%nat || existsb (coarse_word_source L) sources
        then inl "partial_adjudication_scope"%string
        else
          let count := (count - 1 + length sources)%nat in
          if (MAX_OPEN_COMPONENTS <? count)%nat then inl "evidence_capacity"%string
          else
            match prepare_splits L owner targets all count rows with
            | inl reason => inl reason
            | inr splits => inr ((index, map (separated_word L component) sources) :: splits)
            end
  end.

Definition remove_nth {A} (n : nat) (l : list A) : list A := take n l ++ drop (S n) l.

Definition apply_split (components : list WordAdjudication) (split : nat * list WordAdjudication) : list WordAdjudication :=
  remove_nth split.1 components ++ split.2.

Definition split_settled_word_components (L : AcousticLedger) (owner : OccurrenceIdentity) (targets : list SlotTarget) :
    string + AcousticLedger :=
  let components := was_components (lg_word_adjudication L) in
  match prepare_splits L owner targets components (length components) (enumerate components) with
  | inl reason => inl reason
  | inr splits =>
      inr (with_words (λ w, w <| was_components := foldl apply_split components (rev splits) |>) L)
  end.
