(* ===== verification/WordDecision.v ===== *)
(** WordDecision: whether one observation may change the words it names
    (core/pipeline/acoustic_ledger/word_adjudication.rs, [adjudicate_word_sources]
    and [remember_word_outputs]).

    Everything the source establishes about the candidate is a field of
    [WordCase]; the chain of refusals and permissions over it is [word_verdict],
    in the order of the source. *)

From S2P Require Import Prelude.
From S2P Require Import Text.
From S2P Require Import GroupAlignment.
From S2P Require Import LedgerIdentity.
From S2P Require Import CaptureEvidence.
From S2P Require Import LedgerState.
From S2P Require Import LedgerCoverage.
From S2P Require Import LedgerDecision.
From S2P Require Import WordLabels.
From S2P Require Import WordGeometry.
From S2P Require Import DecodeFences.
From S2P Require Import WordEvidence.
From S2P Require Import WordComponents.
#[local] Open Scope Z_scope.

Definition acoustic_producer (p : ObservationProducer) : bool :=
  match p with Apple | AppleDictation | Whisper => true | _ => false end.

Definition acoustic_pair (a b : ObservationProducer) : bool := acoustic_producer a && acoustic_producer b.

(** [a.zip(b).is_some_and(p)]. *)
Definition both {A B} (p : A → B → bool) (a : option A) (b : option B) : bool :=
  match a, b with Some a, Some b => p a b | _, _ => false end.

Definition unresolved_word_target_groups (L : AcousticLedger) (owner : OccurrenceIdentity) : list (list SlotTarget) :=
  map wa_targets
    (List.filter (λ c, bool_decide (wa_owner c = owner) && (wa_conflict c || is_some (wa_trial c))
                       && (1 <? length (wa_targets c))%nat)
       (was_components (lg_word_adjudication L))).

(** The session's own Silero evidence of speech over every one of these ranges. *)
Definition silero_over (speech : AcousticSpeechEvidence) (ranges : list (Z * Z)) : bool :=
  is_observed speech && String.eqb (se_producer speech) SILERO_BOUNDARIES_PRODUCER
  && existsb (λ range, forallb (λ r : Z * Z, (tr_sample_start range <? r.2) && (r.1 <? tr_sample_end range)) ranges)
       (se_ranges speech).

Definition slot_span (slot : WordSlot) : Z * Z := (ws_sample_start slot, ws_sample_end slot).

Definition unwitnessed (slot : WordSlot) : bool :=
  match ws_witness slot with Unwitnessed | Absent _ => true | _ => false end.

Section decision.
Context {tables : CharTables}.

Definition labels_agree : option string → option string → bool := both label_equal.

(** Dictation answers for one coarse Whisper word on its exact range. *)
Definition coarse_witness (L : AcousticLedger) (observation : ObservationIdentity) (sources outputs : list WordSlot) : bool :=
  match sources, outputs with
  | [source], [output] =>
      bool_decide (producer observation = AppleDictation)
      && coarse_word_source L source && bool_decide (ws_producer source = Whisper) && unwitnessed source
      && (ws_sample_start source =? ws_sample_start output) && (ws_sample_end source =? ws_sample_end output)
      && match word_evidence_input L observation with
         | Some input =>
             match wei_words input with
             | [word] =>
                 match sw_decode word with
                 | Some (start, end_) =>
                     (start <? sw_sample_start word) && (sw_sample_end word <? end_)
                     && (start <=? ws_sample_start source) && (ws_sample_end source <=? end_)
                 | None => false
                 end
             | _ => false
             end
         | None => false
         end
      && match lg_speech_evidence L with
         | Some speech =>
             identity_matches (se_identity speech) (session (occurrence observation)) (capture_epoch (occurrence observation))
             && silero_over speech [slot_span output]
         | None => false
         end
  | _, _ => false
  end.

Definition independent_pair (L : AcousticLedger) (source output : WordSlot) : bool :=
  bool_decide (ws_producer source = Whisper) && unwitnessed source
  && is_some (word_anchor_identity L source) && is_some (word_anchor_identity L output)
  && same_anchored_word L source output
  && match lg_speech_evidence L with
     | Some speech => silero_over speech [slot_span source; slot_span output]
     | None => false
     end.

(** One-word labels Apple or dictation heard for these words. *)
Definition independent_labels (L : AcousticLedger) (targets : list SlotTarget) (c : WordAdjudication) : list string :=
  List.filter one_word_at_most
    (map sa_candidate
       (List.filter (λ a, match producer (sa_observation a) with Apple | AppleDictation => true | _ => false end
                          && existsb (λ source, names targets (slot_target_of source)) (sa_sources a))
          (lg_slot_alternatives L))
     ++ omap wh_original_text (wa_apple c)).

(** A complete Whisper hypothesis with this label. *)
Definition whisper_says (raw : option string) (h : WordHypothesis) : bool :=
  bool_decide (family h = Whisper) && wh_complete h && wh_acoustic_boundaries_complete h
  && labels_agree (wh_original_text h) raw.

Definition whisper_support (raw : option string) (c : WordAdjudication) : nat :=
  size (list_to_set (map wh_decode (List.filter (whisper_says raw) (support c))) : gset (option (Z * Z))).

Definition apple_veto (raw : option string) (negation_disagrees : bool) (c : WordAdjudication) : bool :=
  match last (wa_apple c) with
  | Some h =>
      both (λ a b, negb (label_equal a b)) (wh_original_text h) raw
      && ((wh_complete h && wh_acoustic_boundaries_complete h) || negation_disagrees)
  | None => false
  end.

(** Prior support for a trial's label, from other PCM. *)
Definition confirms_trial (candidate : WordHypothesis) (apple : option WordHypothesis) (h : WordHypothesis) : bool :=
  ((bool_decide (family h = Whisper) && wh_complete h && wh_acoustic_boundaries_complete h
    && is_some (wh_decode h) && negb (bool_decide (wh_decode h = wh_decode candidate)))
   || (bool_decide (family h = Apple) && bool_decide (apple = Some h)))
  && labels_agree (wh_original_text h) (wh_original_text candidate).

(** The incumbent's own decode cut its speech. *)
Definition incumbent_cut (L : AcousticLedger) (owner : OccurrenceIdentity) (incumbent : WordHypothesis) : bool :=
  match wh_decode incumbent with
  | Some (start, end_) =>
      existsb (λ pin, negb (decode_word_onset_complete L owner start end_ (sw_sample_start pin))
                      || decode_word_fence_incomplete L owner start end_ (sw_sample_start pin) (sw_sample_end pin))
        (wh_pins incumbent)
  | None => false
  end.

(** The candidate respells the side of the incumbent its window cut. *)
Definition respells_cut_side (incumbent candidate : WordHypothesis) : bool :=
  match wh_original_text incumbent, wh_original_text candidate, wh_decode incumbent,
        option_min (map sw_sample_start (wh_pins incumbent)), option_max (map sw_sample_end (wh_pins incumbent)) with
  | Some held, Some heard, Some (lo, hi), Some start, Some end_ =>
      respelled_toward_fence held heard (sat_sub hi end_ <? sat_sub start lo)
  | _, _, _, _, _ => false
  end.

Record WordCase := mkCase {
  cs_provisional_apple : bool;
  cs_complete : bool;
  cs_independent_witness : bool;
  cs_complete_fence_authority : bool;
  cs_window_position_authority : bool;
  cs_geometry_preserves_complete_source : bool;
  cs_trial : bool;
  cs_confirmed_trial : bool;
  cs_band_rights : bool;
  cs_negation_disagrees : bool;
  cs_repeated_label : bool;
  cs_agreement : bool;
  cs_boundaries_complete : bool;
  cs_fresh : bool;
  cs_raw : bool;
  cs_raw_disagrees : bool;
  cs_same_geometry : bool;
  cs_preserves_word_partition : bool;
  cs_conflict : bool
}.

Definition lexical_resolved (k : WordCase) : bool :=
  cs_independent_witness k || cs_complete_fence_authority k || cs_window_position_authority k
  || cs_provisional_apple k || cs_confirmed_trial k
  || (negb (cs_trial k) && cs_complete k && cs_boundaries_complete k && cs_agreement k && cs_fresh k && cs_band_rights k).

Definition word_verdict (k : WordCase) : bool * string :=
  if cs_provisional_apple k then (true, "apple_provisional_revision"%string)
  else if negb (cs_complete k) then (false, "incomplete_source_scope"%string)
  else if cs_independent_witness k then (true, "independent_same_speech_range"%string)
  else if cs_complete_fence_authority k then (true, "live_complete_fences"%string)
  else if cs_window_position_authority k then (true, "window_position"%string)
  else if negb (cs_geometry_preserves_complete_source k) then (false, "incomplete_acoustic_boundary"%string)
  else if cs_trial k
  then if cs_confirmed_trial k then (true, "trial_confirmed"%string) else (false, "trial_unresolved"%string)
  else if negb (cs_band_rights k) then (false, "outside_publication_band"%string)
  else if cs_negation_disagrees k && negb (lexical_resolved k)
  then (false, "negation_requires_lexical_evidence"%string)
  else if cs_repeated_label k
  then ((cs_same_geometry k && negb (cs_conflict k) && cs_raw k && negb (cs_raw_disagrees k)) || lexical_resolved k,
        "same_label_evidence"%string)
  else if lexical_resolved k then (true, "source_agreement"%string)
  else if negb (cs_preserves_word_partition k) then (false, "partition_requires_lexical_evidence"%string)
  else (false, "lexical_disagreement"%string).

Definition negations_disagree (L : AcousticLedger) (sources outputs : list WordSlot) : bool :=
  if forallb (coarse_word_source L) sources
  then coarse_polarity_disagrees (compose_label sources) (compose_label outputs)
  else negb (bool_decide (negation_contexts (compose_label sources) = negation_contexts (compose_label outputs))).

(** The candidate is from the middle of its window, or may speak from its edge. *)
Definition band_rights (raw_disagrees : bool) (candidate incumbent : WordHypothesis) (prior : list WordHypothesis) : bool :=
  negb (bool_decide (family candidate = Whisper)) || negb raw_disagrees
  || negb (is_some (wh_original_text incumbent)) || (BAND_RIGHTS_FLOOR <=? wh_q candidate)
  || existsb (λ h, (BAND_RIGHTS_FLOOR <=? wh_q h) && labels_agree (wh_original_text h) (wh_original_text candidate)) prior.

Definition window_position_authority (L : AcousticLedger) (targets : list SlotTarget) (single : bool)
    (candidate : WordHypothesis) (prior : list WordHypothesis) (c : WordAdjudication) : bool :=
  let incumbent := wa_incumbent c in
  let heard := independent_labels L targets c in
  single && bool_decide (family candidate = Whisper) && wh_acoustic_boundaries_complete candidate
  && (BAND_RIGHTS_FLOOR <=? wh_q candidate)
  && respells_cut_side incumbent candidate
  && bool_decide (family incumbent = Whisper) && (wh_q incumbent <? BAND_RIGHTS_FLOOR)
  && match wh_decode incumbent with
     | Some decode => negb (bool_decide (wh_decode candidate = Some decode))
     | None => false
     end
  && negb (existsb (λ h, bool_decide (family h = Whisper) && wh_complete h
                         && negb (bool_decide (wh_decode h = wh_decode incumbent))
                         && labels_agree (wh_original_text h) (wh_original_text incumbent)) prior)
  && match wh_original_text candidate with
     | Some raw => existsb (λ label, label_equal label raw) heard
     | None => false
     end
  && negb (match wh_original_text incumbent with
           | Some held => existsb (λ label, label_equal label held) heard
           | None => false
           end).

(** What the ledger establishes about a candidate for a component; [c] has
    already observed it, [prior] is the support before. *)
Definition word_case (L : AcousticLedger) (observation : ObservationIdentity) (sources outputs : list WordSlot)
    (candidate : WordHypothesis) (prior : list WordHypothesis) (c : WordAdjudication) (fresh : bool) : WordCase :=
  let targets := targets_of sources in
  let raw := wh_original_text candidate in
  let incumbent := wa_incumbent c in
  let coarse := coarse_witness L observation sources outputs in
  let negation := negations_disagree L sources outputs in
  let complete := asr_source_scope_complete L observation sources && (wh_complete candidate || coarse) in
  let boundaries := wh_acoustic_boundaries_complete candidate in
  let trial := input_trial L observation in
  let apple := last (wa_apple c) in
  let raw_disagrees := both (λ a b, negb (label_equal a b)) raw (wh_original_text incumbent) in
  let veto := apple_veto raw negation c in
  let same_geometry :=
    (length sources =? length outputs)%nat
    && forallb (λ p : WordSlot * WordSlot, bool_decide (slot_span p.1 = slot_span p.2)) (combine sources outputs) in
  let single := (length sources =? 1)%nat && (length outputs =? 1)%nat in
  {| cs_provisional_apple := provisional_apple_revision L observation sources && fresh;
     cs_complete := complete;
     cs_independent_witness :=
       coarse
       || (bool_decide (producer observation = AppleDictation) && complete && boundaries
           && (length sources =? length outputs)%nat
           && forallb (λ p : WordSlot * WordSlot, independent_pair L p.1 p.2) (combine sources outputs));
     cs_complete_fence_authority :=
       fresh && complete && boundaries && is_some raw && negb negation
       && incumbent_cut L (occurrence observation) incumbent;
     cs_window_position_authority :=
       negb (is_some trial) && fresh && complete && raw_disagrees && negb negation && negb veto
       && window_position_authority L targets single candidate prior c;
     cs_geometry_preserves_complete_source := boundaries || negb (existsb (complete_word_slot L) sources);
     cs_trial := is_some trial;
     cs_confirmed_trial :=
       match trial with
       | Some trial => bool_decide (wa_trial c = Some trial) && bool_decide (wt_targets trial = targets)
       | None => false
       end
       && fresh && complete && boundaries && is_some raw && existsb (confirms_trial candidate apple) prior;
     cs_band_rights := band_rights raw_disagrees candidate incumbent prior;
     cs_negation_disagrees := negation;
     cs_repeated_label := label_equal (wh_surface candidate) (compose_label sources);
     cs_agreement :=
       is_some raw
       && ((labels_agree (a ← apple; wh_original_text a) raw && (0 <? whisper_support raw c)%nat)
           || ((2 <=? whisper_support raw c)%nat && negb veto));
     cs_boundaries_complete := boundaries;
     cs_fresh := fresh;
     cs_raw := is_some raw;
     cs_raw_disagrees := raw_disagrees;
     cs_same_geometry := same_geometry;
     cs_preserves_word_partition := single && same_geometry;
     cs_conflict := wa_conflict c |}.

(** The dispute after a verdict. *)
Definition settle_conflict (k : WordCase) (candidate : WordHypothesis) (c : WordAdjudication) : WordAdjudication :=
  let raw := wh_original_text candidate in
  let apple := a ← last (wa_apple c); wh_original_text a in
  let apple_disagrees :=
    bool_decide (family candidate = Apple) && is_some raw
    && negb (labels_agree raw (wh_original_text (wa_incumbent c)))
    && existsb (λ h, bool_decide (family h = Whisper) && wh_complete h) (support c) in
  let held_whisper_disagrees :=
    cs_repeated_label k && is_some apple && negb (labels_agree apple raw)
    && bool_decide (family candidate = Whisper) && cs_complete k in
  let c :=
    if (cs_complete k && (negb (cs_repeated_label k) || cs_raw_disagrees k) && negb (lexical_resolved k))
       || apple_disagrees || held_whisper_disagrees
    then c <| wa_conflict := true |> else c in
  if lexical_resolved k
  then
    let c := c <| wa_conflict := false |> <| wa_attempted := false |> in
    if cs_trial k then c else c <| wa_trial := None |>
  else c.

Definition drop_members (owner : OccurrenceIdentity) (targets : list SlotTarget) (l : list WordAdjudication) :
    list WordAdjudication :=
  List.filter (λ c, negb (bool_decide (wa_owner c = owner)) || negb (forallb (names targets) (wa_targets c))) l.

Definition with_components (f : list WordAdjudication → list WordAdjudication) (L : AcousticLedger) : AcousticLedger :=
  with_words (λ w, w <| was_components ::= f |>) L.

(** The component for these words, taken out of the ledger; [inl] is the refusal. *)
Definition take_component (L : AcousticLedger) (observation : ObservationIdentity) (sources : list WordSlot) :
    string + (AcousticLedger * WordAdjudication) :=
  let targets := targets_of sources in
  let components := was_components (lg_word_adjudication L) in
  match position_of (λ c, bool_decide (wa_targets c = targets)) components with
  | Some index =>
      match components !! index with
      | Some c => inr (with_components (remove_nth index) L, c)
      | None => inl "evidence_capacity"%string
      end
  | None =>
      if (MAX_OPEN_COMPONENTS <=? length components)%nat then inl "evidence_capacity"%string
      else
        match component_for_sources L (occurrence observation) sources with
        | Some c => inr (with_components (drop_members (occurrence observation) targets) L, c)
        | None => inl "evidence_capacity"%string
        end
  end.

Definition stale_apple (candidate : WordHypothesis) (c : WordAdjudication) : bool :=
  bool_decide (family candidate = Apple)
  && match last (wa_apple c) with
     | Some prior =>
         bool_decide (producer (wh_observation prior) = producer (wh_observation candidate))
         && (generation (wh_observation candidate) <=? generation (wh_observation prior))
     | None => false
     end.

(** From the component on. *)
Definition adjudicate_component (L : AcousticLedger) (observation : ObservationIdentity) (sources outputs : list WordSlot)
    (candidate : WordHypothesis) (rest : AcousticLedger) (c : WordAdjudication) : AcousticLedger * bool :=
  if stale_apple candidate c
  then (record_word_choice (with_components (λ l, l ++ [c]) rest) observation sources outputs "stale_apple_generation" false, false)
  else
    let prior := support c in
    let repeated_decode :=
      bool_decide (family candidate = Whisper) && has_decode c (occurrence (wh_observation candidate)) (wh_decode candidate) in
    let '(c, observed) := observe_hypothesis candidate c in
    let fresh := observed && negb repeated_decode in
    let k := word_case L observation sources outputs candidate prior c fresh in
    let '(accepted, reason) := word_verdict k in
    let c := settle_conflict k candidate c in
    (push_choice
       (mkChoice WORD_POLICY observation (targets_of sources) (word_source_ranges rest sources) candidate (support c)
          (if accepted then compose_label outputs else compose_label sources) reason accepted (lexical_resolved k))
       (with_components (λ l, l ++ [c]) rest), accepted).

Definition adjudicate_word_sources (L : AcousticLedger) (observation : ObservationIdentity)
    (sources outputs : list WordSlot) : AcousticLedger * option bool :=
  let refuse L reason := (record_word_choice L observation sources outputs reason false, Some false) in
  let targets := targets_of sources in
  let owner := occurrence observation in
  if match input_trial L observation with
     | Some trial => negb (bool_decide (wt_targets trial = targets))
     | None => false
     end
  then refuse L "trial_target_mismatch"%string
  else if bool_decide (sources = [])
          || (forallb (coarse_word_source L) sources && negb (negations_disagree L sources outputs)
              && negb (coarse_witness L observation sources outputs))
          || negb (forallb (λ source, acoustic_pair (ws_producer source) (producer observation)) sources)
  then (L, None)
  else if existsb (λ group, existsb (names targets) group && negb (forallb (names targets) group))
            (unresolved_word_target_groups L owner)
  then refuse L "partial_adjudication_scope"%string
  else
    match split_settled_word_components L owner targets with
    | inl reason => refuse L reason
    | inr L =>
        let candidate := hypothesis L observation sources outputs in
        match take_component L observation sources with
        | inl reason => refuse L reason
        | inr (rest, c) =>
            let '(L, accepted) := adjudicate_component L observation sources outputs candidate rest c in
            (L, Some accepted)
        end
    end.
End decision.

(* ------------------------------------------------------------------ *)
(** ** After admission *)

(** A witness of the words an operation replaced is a witness of its outputs. *)
Definition advance_targets (old new : list SlotTarget) (h : WordHypothesis) : WordHypothesis :=
  h <| wh_targets ::= map (λ target,
         match position_of (λ o, bool_decide (o = target)) old with
         | Some position => default target (new !! position)
         | None => target
         end) |>.

Definition remember_operation (L : AcousticLedger) (observation : ObservationIdentity)
    (components : list WordAdjudication) (op : SlotOperationReceipt) : list WordAdjudication :=
  if bool_decide (so_outputs op = []) then components
  else
    let targets := targets_of (so_sources op) in
    let next_targets := targets_of (so_outputs op) in
    replace_first (λ c, bool_decide (wa_targets c = targets))
      (λ c,
        let c :=
          if (length targets =? length next_targets)%nat
          then c <| wa_apple ::= map (advance_targets targets next_targets) |>
                 <| wa_whisper ::= map (advance_targets targets next_targets) |>
          else c in
        c <| wa_targets := next_targets |>
          <| wa_incumbent := hypothesis L observation (so_outputs op) (so_outputs op) |>)
      components.

Definition new_component (owner : OccurrenceIdentity) (target : SlotTarget) (h : WordHypothesis) : WordAdjudication :=
  observe_witness h (mkAdjudication owner [target] h [] [] ∅ false false false None None).

Definition remember_output (L : AcousticLedger) (observation : ObservationIdentity)
    (components : list WordAdjudication) (output : WordSlot) : list WordAdjudication :=
  let target := slot_target_of output in
  if negb (match ws_producer output with Apple | Whisper => true | _ => false end)
     || existsb (λ c, names (wa_targets c) target) components
     || (MAX_OPEN_COMPONENTS <=? length components)%nat
  then components
  else components ++ [new_component (occurrence observation) target (hypothesis L observation [output] [output])].

Definition remember_outputs (L : AcousticLedger) (observation : ObservationIdentity) : AcousticLedger :=
  let outputs := default [] (slots_of L (occurrence observation)) in
  let operations := List.filter (λ op, bool_decide (so_observation op = observation)) (lg_slot_operations L) in
  let components := foldl (remember_operation L observation) (was_components (lg_word_adjudication L)) operations in
  let components :=
    List.filter (λ c, negb (bool_decide (wa_owner c = occurrence observation))
                      || forallb (names (targets_of outputs)) (wa_targets c)) components in
  let components :=
    foldl (remember_output L observation) components
      (List.filter (λ output, bool_decide (ws_observation output = observation)) outputs) in
  with_components (λ _, components) L.

(** Admission, with the words of this lane. *)
Definition adjudicated_debt (debt : WordDebt) : WordDebt := {|
  remember_word_outputs := λ L observation, lg_word_adjudication (remember_outputs L observation);
  unresolved_rejected_pins := unresolved_rejected_pins;
  retained_recovery_source := retained_recovery_source;
  returned_word_scope_accounted := returned_word_scope_accounted
|}.
