(* ===== verification/WordDecisionFacts.v ===== *)
(** WordDecisionFacts: one decode frame counts once, and a Whisper word never
    replaces another label on its own say. *)

From S2P Require Import Prelude.
From S2P Require Import Text.
From S2P Require Import GroupAlignment.
From S2P Require Import LedgerIdentity.
From S2P Require Import CaptureEvidence.
From S2P Require Import LedgerState.
From S2P Require Import LedgerCoverage.
From S2P Require Import LedgerDecision.
From S2P Require Import WordLabels.
From S2P Require Import WordGeometry.
From S2P Require Import DecodeFences.
From S2P Require Import WordEvidence.
From S2P Require Import WordComponents.
From S2P Require Import WordDecision.
#[local] Open Scope Z_scope.

(* ------------------------------------------------------------------ *)
(** ** Observing *)

Lemma elem_replace_first {A} (p : A → bool) (f : A → A) l x :
  x ∈ replace_first p f l → x ∈ l ∨ ∃ y, y ∈ l ∧ p y = true ∧ x = f y.
Proof.
  induction l as [|y l IH]; simpl; [by left|]. destruct (p y) eqn:Hp.
  - intros [->|H]%elem_of_cons; [right; exists y; split_and!; [by left|done..]|left; by right].
  - intros [->|H]%elem_of_cons; [left; by left|].
    destruct (IH H) as [?|(z & ? & ? & ?)]; [left; by right|right; exists z; split_and!; [by right|done..]].
Qed.

Lemma length_replace_first {A} (p : A → bool) (f : A → A) l : length (replace_first p f l) = length l.
Proof. induction l as [|y l IH]; simpl; [done|]. destruct (p y); simpl; congruence. Qed.

Lemma elem_tail {A} (l : list A) x : x ∈ tail l → x ∈ l.
Proof. destruct l; simpl; [done|]. by right. Qed.

(** What a Whisper observation changes of a component. *)
Lemma observe_whisper h c c' fresh :
  family h = Whisper → observe_hypothesis h c = (c', fresh) →
  wa_apple c' = wa_apple c ∧ wa_incumbent c' = wa_incumbent c ∧
  (∀ x, x ∈ wa_whisper c' → x = h ∨ x ∈ wa_whisper c) ∧
  (∀ d, d ∈ wa_seen_decodes c' ↔ d ∈ wa_seen_decodes c ∨ wh_decode h = Some d) ∧
  (fresh = true → ∃ d, wh_decode h = Some d ∧ d ∉ wa_seen_decodes c) ∧
  ((length (wa_whisper c) <= 3)%nat → (length (wa_whisper c') <= 3)%nat).
Proof.
  unfold observe_hypothesis. intros ->. destruct (wh_decode h) as [d|] eqn:Hd; [|intros; simplify_eq].
  - cbn. destruct (existsb (same_frame h) (wa_whisper c)) eqn:Hframe; intros; simplify_eq/=.
    + split_and!; [done..| | |done|].
      * intros x [Hx|(y & Hy & _ & ->)]%elem_replace_first; [by right|]. case_match; [by left|by right].
      * intros e. rewrite elem_of_union, elem_of_singleton. split; [intros [->|]; [by right|by left]|].
        intros [|[= ->]]; [by right|by left].
      * by rewrite length_replace_first.
    + split_and!; [done..| | | |].
      * intros x Hx.
        assert (Hm : x ∈ merge_sort decode_le (wa_whisper c ++ [h])) by (case_match; [by apply elem_tail|done]).
        rewrite merge_sort_Permutation in Hm. apply elem_of_app in Hm as [Hm|Hm]; [by right|].
        apply list_elem_of_singleton in Hm. by left.
      * intros e. rewrite elem_of_union, elem_of_singleton. split; [intros [->|]; [by right|by left]|].
        intros [|[= ->]]; [by right|by left].
      * intros Hf. exists d. split; [done|]. by apply negb_true_iff, bool_decide_eq_false in Hf.
      * intros Hl. assert (Hlen : length (merge_sort decode_le (wa_whisper c ++ [h])) = S (length (wa_whisper c))).
        { rewrite merge_sort_Permutation, length_app. simpl. lia. }
        destruct (merge_sort decode_le (wa_whisper c ++ [h])) as [|? [|? [|? [|? ?]]]]; simpl in *; lia.
  - split_and!; try done; [by right|]. intros e. split; [by left|]. by intros [|].
Qed.

Lemma observe_other h c c' fresh :
  family h ≠ Whisper → observe_hypothesis h c = (c', fresh) →
  wa_whisper c' = wa_whisper c ∧ wa_seen_decodes c' = wa_seen_decodes c ∧
  ((length (wa_apple c) <= 2)%nat → (length (wa_apple c') <= 2)%nat).
Proof.
  unfold observe_hypothesis. intros Hf. destruct (family h) eqn:Hfam; try done; try (intros; simplify_eq; done).
  case_match; intros; simplify_eq; [done|]. cbn. split_and!; [done..|]. intros Hl.
  assert (length (wa_apple c ++ [h]) <= 3)%nat by (rewrite length_app; simpl; lia).
  destruct (wa_apple c ++ [h]) as [|? [|? [|? ?]]]; simpl in *; lia.
Qed.

Lemma elem_support h c : h ∈ support c ↔ h ∈ wa_apple c ∨ h ∈ wa_whisper c ∨ (wh_complete (wa_incumbent c) = true ∧ h = wa_incumbent c).
Proof.
  unfold support. destruct (wh_complete (wa_incumbent c)) eqn:Hc; simpl.
  - case_bool_decide as Hin; simpl; rewrite !elem_of_app, ?list_elem_of_singleton; [|naive_solver].
    apply elem_of_app in Hin. naive_solver.
  - rewrite elem_of_app. naive_solver.
Qed.

Lemma support_observe_whisper h c c' fresh x :
  family h = Whisper → observe_hypothesis h c = (c', fresh) → x ∈ support c' → x = h ∨ x ∈ support c.
Proof.
  intros Hf Hobs. destruct (observe_whisper _ _ _ _ Hf Hobs) as (Ha & Hi & Hw & _).
  rewrite !elem_support, Ha, Hi. intros [?|[Hx|?]]; [by right; left| |by right; right; right].
  apply Hw in Hx as [->|]; [by left|by right; right; left].
Qed.

(** A component over a sequence of hypotheses, with what each call returned. *)
Fixpoint observe_all (c : WordAdjudication) (hs : list WordHypothesis) : WordAdjudication * list (WordHypothesis * bool) :=
  match hs with
  | [] => (c, [])
  | h :: hs =>
      let '(c, fresh) := observe_hypothesis h c in
      let '(c, log) := observe_all c hs in (c, (h, fresh) :: log)
  end.

Definition fresh_frame (d : Z * Z) (entry : WordHypothesis * bool) : bool :=
  entry.2 && bool_decide (family entry.1 = Whisper) && bool_decide (wh_decode entry.1 = Some d).

Definition fresh_count (d : Z * Z) (log : list (WordHypothesis * bool)) : nat := length (List.filter (fresh_frame d) log).

Lemma fresh_count_bound hs c c' log d :
  observe_all c hs = (c', log) →
  (fresh_count d log <= if bool_decide (d ∈ wa_seen_decodes c) then 0 else 1)%nat.
Proof.
  revert c log. induction hs as [|h hs IH]; intros c log; simpl; [intros; simplify_eq; unfold fresh_count; simpl; case_match; lia|].
  destruct (observe_hypothesis h c) as [c1 fresh] eqn:Hobs. destruct (observe_all c1 hs) as [c2 log1] eqn:Hall.
  intros. simplify_eq. specialize (IH _ _ Hall).
  unfold fresh_count in *. cbn [List.filter]. unfold fresh_frame at 1. cbn [fst snd].
  destruct (decide (family h = Whisper)) as [Hf|Hf].
  - destruct (observe_whisper _ _ _ _ Hf Hobs) as (_ & _ & _ & Hseen & Hfresh & _).
    rewrite (bool_decide_eq_true_2 _ Hf), andb_true_r.
    destruct (fresh && bool_decide (wh_decode h = Some d)) eqn:Hhit; simpl.
    + zbool. destruct (Hfresh ltac:(done)) as (e & He & Hnew). assert (e = d) as -> by congruence.
      rewrite (bool_decide_eq_false_2 _ Hnew).
      rewrite bool_decide_eq_true_2 in IH by (apply Hseen; by right). lia.
    + clear Hhit. etransitivity; [exact IH|]. case_bool_decide as H1; case_bool_decide as H2; try lia.
      exfalso. apply H1, Hseen. by left.
  - destruct (observe_other _ _ _ _ Hf Hobs) as (_ & Hseen & _).
    rewrite (bool_decide_eq_false_2 _ Hf), andb_false_r. simpl. by rewrite Hseen in IH.
Qed.

Lemma observe_all_bounds hs c c' log :
  observe_all c hs = (c', log) → (length (wa_apple c) <= 2)%nat → (length (wa_whisper c) <= 3)%nat →
  (length (wa_apple c') <= 2)%nat ∧ (length (wa_whisper c') <= 3)%nat.
Proof.
  revert c log. induction hs as [|h hs IH]; intros c log; simpl; [intros; by simplify_eq|].
  destruct (observe_hypothesis h c) as [c1 fresh] eqn:Hobs. destruct (observe_all c1 hs) as [c2 log1] eqn:Hall.
  intros ? Ha Hw. simplify_eq. apply (IH _ _ Hall); destruct (decide (family h = Whisper)) as [Hf|Hf].
  - by destruct (observe_whisper _ _ _ _ Hf Hobs) as (-> & _).
  - destruct (observe_other _ _ _ _ Hf Hobs) as (_ & _ & H). auto.
  - destruct (observe_whisper _ _ _ _ Hf Hobs) as (_ & _ & _ & _ & _ & H). auto.
  - by destruct (observe_other _ _ _ _ Hf Hobs) as (-> & _).
Qed.

(* ------------------------------------------------------------------ *)
(** ** What an accepted word stands on *)

Section evidence.
  Context {tables : CharTables}.

  (** Another frame, or Apple, already says the candidate's word. *)
Definition corroborated (candidate : WordHypothesis) (c : WordAdjudication) : Prop :=
    ∃ h, (h ∈ wa_apple c ∨
          (h ∈ support c ∧ family h = Whisper ∧ wh_complete h = true ∧ wh_acoustic_boundaries_complete h = true ∧
           wh_decode h ≠ wh_decode candidate)) ∧
      labels_agree (wh_original_text h) (wh_original_text candidate) = true.

  (** The window of the incumbent cut it, and another engine heard the candidate. *)
Definition edge_respelled (L : AcousticLedger) (targets : list SlotTarget) (candidate : WordHypothesis)
      (c : WordAdjudication) : Prop :=
    wh_q (wa_incumbent c) < BAND_RIGHTS_FLOOR <= wh_q candidate ∧
    ∃ raw label, wh_original_text candidate = Some raw ∧ label ∈ independent_labels L targets c ∧
      label_equal label raw = true.

Lemma whisper_says_elem raw h : whisper_says raw h = true →
    family h = Whisper ∧ wh_complete h = true ∧ wh_acoustic_boundaries_complete h = true ∧
    labels_agree (wh_original_text h) raw = true.
  Proof. unfold whisper_says. intros H. zbool. done. Qed.

Lemma two_frames_other raw candidate c :
    (2 <= whisper_support raw c)%nat →
    ∃ h, h ∈ support c ∧ whisper_says raw h = true ∧ wh_decode h ≠ wh_decode candidate.
  Proof.
    unfold whisper_support. set (X := list_to_set _). intros Hsize.
    destruct (decide (X ⊆ {[ wh_decode candidate ]})) as [Hsub|Hno].
    { apply subseteq_size in Hsub. rewrite size_singleton in Hsub. lia. }
    assert (∃ d, d ∈ X ∧ d ≠ wh_decode candidate) as (d & Hd & Hne).
    { destruct (set_choose_or_empty (X ∖ {[ wh_decode candidate ]})) as [[d Hd]|He].
      - apply elem_of_difference in Hd as [Hd Hn]. exists d. split; [done|]. by rewrite elem_of_singleton in Hn.
      - exfalso. apply Hno. intros d Hd. destruct (decide (d = wh_decode candidate)) as [->|Hne]; [by apply elem_of_singleton|].
        exfalso. apply (not_elem_of_empty (C := gset (option (Z * Z))) d), He, elem_of_difference. split; [done|]. by rewrite elem_of_singleton. }
    apply elem_of_list_to_set, list_elem_of_fmap in Hd as (h & -> & Hh).
    apply list_elem_of_In, List.filter_In in Hh as [Hin Hsays]. exists h.
    split_and!; [by apply list_elem_of_In|done|done].
  Qed.

Lemma window_elem L targets single candidate prior c :
    window_position_authority L targets single candidate prior c = true → edge_respelled L targets candidate c.
  Proof.
    unfold window_position_authority, edge_respelled. intros H. zbool. split; [lia|].
    destruct (wh_original_text candidate) as [raw|]; [|done]. exists raw.
    match goal with H : existsb (λ label, label_equal label raw) _ = true |- _ => apply existsb_true in H as (label & Hin & He) end.
    by exists label.
  Qed.
End evidence.

Lemma labels_agree_sym {tables : CharTables} a b : labels_agree a b = labels_agree b a.
Proof.
  destruct a, b; simpl; try done. unfold label_equal. apply bool_decide_ext. split; congruence.
Qed.

(** An accepted verdict over a Whisper word of another label. *)
Lemma accepted_whisper_case {tables : CharTables} L observation sources outputs candidate prior c fresh :
  producer observation = Whisper → family candidate = Whisper →
  wh_surface candidate = compose_label outputs →
  label_equal (compose_label outputs) (compose_label sources) = false →
  (word_verdict (word_case L observation sources outputs candidate prior c fresh)).1 = true →
  fresh = true ∧
  ((∃ h, h ∈ prior ∧ confirms_trial candidate (last (wa_apple c)) h = true) ∨
   (∃ apple, last (wa_apple c) = Some apple ∧
      labels_agree (wh_original_text apple) (wh_original_text candidate) = true) ∨
   (2 <= whisper_support (wh_original_text candidate) c)%nat ∨
   incumbent_cut L (occurrence observation) (wa_incumbent c) = true ∨
   edge_respelled L (targets_of sources) candidate c).
Proof.
  intros Hp Hfam Hsurf Hlabel Hv.
  assert (Hcoarse : coarse_witness L observation sources outputs = false).
  { unfold coarse_witness. destruct sources as [|? [|]], outputs as [|? [|]]; try done. by rewrite Hp. }
  set (k := word_case _ _ _ _ _ _ _ _) in *.
  assert (Hprov : cs_provisional_apple k = false).
  { assert (Hno : provisional_apple_revision L observation sources = false)
      by (unfold provisional_apple_revision; by rewrite bool_decide_eq_false_2 by congruence).
    subst k. unfold word_case, cs_provisional_apple. by rewrite Hno. }
  assert (Hind : cs_independent_witness k = false) by (subst k; unfold word_case, cs_independent_witness; by rewrite Hcoarse, Hp).
  assert (Hrep : cs_repeated_label k = false) by (subst k; unfold word_case, cs_repeated_label; by rewrite Hsurf).
  assert (Hfresh : cs_fresh k = true → fresh = true) by done.
  assert (Hfence : cs_complete_fence_authority k = true → fresh = true ∧ incumbent_cut L (occurrence observation) (wa_incumbent c) = true).
  { subst k. unfold word_case, cs_complete_fence_authority. intros H. zbool. done. }
  assert (Hwin : cs_window_position_authority k = true → fresh = true ∧ edge_respelled L (targets_of sources) candidate c).
  { subst k. unfold word_case, cs_window_position_authority. intros H. zbool. split; [done|]. by eapply window_elem. }
  assert (Htrial : cs_confirmed_trial k = true →
    fresh = true ∧ ∃ h, h ∈ prior ∧ confirms_trial candidate (last (wa_apple c)) h = true).
  { subst k. unfold word_case, cs_confirmed_trial. intros H. zbool. split; [done|]. by apply existsb_true. }
  assert (Hagree : cs_agreement k = true →
    (∃ apple, last (wa_apple c) = Some apple ∧ labels_agree (wh_original_text apple) (wh_original_text candidate) = true)
    ∨ (2 <= whisper_support (wh_original_text candidate) c)%nat).
  { subst k. unfold word_case, cs_agreement. intros H. zbool. rename select (_ || _ = true) into Hor. apply orb_true_iff in Hor as [Hor|Hor]; zbool.
    - left. destruct (last (wa_apple c)) as [apple|]; [|done]. by exists apple.
    - right. by apply Nat.leb_le. }
  clearbody k. clear Hcoarse.
  assert (Hres : lexical_resolved k = true →
    cs_complete_fence_authority k = true ∨ cs_window_position_authority k = true ∨ cs_confirmed_trial k = true
    ∨ cs_fresh k = true ∧ cs_agreement k = true).
  { unfold lexical_resolved. rewrite Hind, Hprov. simpl. rewrite !orb_true_iff.
    intros [[[[H|H]|H]|H]|H]; [by left|by right; left|done|by right; right; left|]. zbool. right; right; right. by split. }
  unfold word_verdict in Hv. rewrite Hprov, Hind, Hrep in Hv.
  destruct (negb (cs_complete k)); [done|].
  destruct (cs_complete_fence_authority k).
  { destruct (Hfence eq_refl). split; [done|]. by right; right; right; left. }
  destruct (cs_window_position_authority k).
  { destruct (Hwin eq_refl). split; [done|]. by right; right; right; right. }
  destruct (negb _); [done|]. destruct (cs_trial k).
  { destruct (cs_confirmed_trial k); [|done]. destruct (Htrial eq_refl). split; [done|]. by left. }
  destruct (negb (cs_band_rights k)); [done|]. destruct (cs_negation_disagrees k && _); [done|].
  destruct (lexical_resolved k); [|by destruct (negb _)].
  destruct Hres as [?|[?|[Ht|[Hf Ha]]]]; [done|done|done| |].
  { destruct (Htrial Ht). split; [done|]. by left. }
  split; [by apply Hfresh|]. destruct (Hagree Ha); [by right; left|by right; right; left].
Qed.

(* ------------------------------------------------------------------ *)
(** ** Properties *)

(** one decode frame is one witness: over any sequence of hypotheses a
    component observes, a Whisper frame is reported fresh at most once, and never
    when its identity was already retained, however the bounded history of at most
    two Apple and three Whisper hypotheses has rolled. *)
Theorem frame_fresh_once hs c :
  (length (wa_apple c) <= 2)%nat → (length (wa_whisper c) <= 3)%nat →
  (length (wa_apple (observe_all c hs).1) <= 2)%nat ∧ (length (wa_whisper (observe_all c hs).1) <= 3)%nat ∧
  ∀ d, (fresh_count d (observe_all c hs).2 <= if bool_decide (d ∈ wa_seen_decodes c) then 0 else 1)%nat.
Proof.
  intros Ha Hw. destruct (observe_all c hs) as [c' log] eqn:Hall.
  destruct (observe_all_bounds _ _ _ _ Hall Ha Hw) as [Ha' Hw']. split_and!; [done..|].
  intros d. by apply (fresh_count_bound hs c c').
Qed.

(** C8: a Whisper word never replaces a different label on its own say: whenever
    adjudication accepts one, its decode frame is new to the component, and
    another frame or Apple already said the same word, or the incumbent's own
    decode had cut it, or the incumbent sat at the edge of its window and another
    engine had heard the new spelling. *)
Theorem whisper_never_corroborates_itself {tables : CharTables} L observation sources outputs L' :
  adjudicate_word_sources L observation sources outputs = (L', Some true) →
  producer observation = Whisper →
  label_equal (compose_label outputs) (compose_label sources) = false →
  ∃ L1 rest c, split_settled_word_components L (occurrence observation) (targets_of sources) = inr L1 ∧
    take_component L1 observation sources = inr (rest, c) ∧
    let candidate := hypothesis L1 observation sources outputs in
    (family candidate = Whisper →
     has_decode c (occurrence observation) (wh_decode candidate) = false ∧
     (corroborated candidate c ∨ incumbent_cut L1 (occurrence observation) (wa_incumbent c) = true
      ∨ edge_respelled L1 (targets_of sources) candidate c)).
Proof.
  unfold adjudicate_word_sources. intros Hadj Hp Hlabel.
  destruct (match input_trial L observation with Some _ => _ | None => _ end); [done|].
  destruct (_ || negb _); [done|]. destruct (existsb _ _); [done|].
  destruct (split_settled_word_components _ _ _) as [|L1] eqn:Hsplit; [done|].
  destruct (take_component L1 observation sources) as [|[rest c]] eqn:Htake; [done|].
  exists L1, rest, c. split; [done|]. split; [done|]. set (candidate := hypothesis L1 observation sources outputs) in *. intros Hfam.
  unfold adjudicate_component in Hadj. destruct (stale_apple candidate c); [done|].
  destruct (observe_hypothesis candidate c) as [c2 observed] eqn:Hobs.
  destruct (word_verdict _) as [accepted reason] eqn:Hverdict. simplify_eq.
  pose proof (accepted_whisper_case L1 observation sources outputs candidate (support c) c2
                (observed && negb (bool_decide (family candidate = Whisper)
                  && has_decode c (occurrence (wh_observation candidate)) (wh_decode candidate)))
                Hp Hfam eq_refl Hlabel) as Hcase.
  rewrite Hverdict in Hcase. destruct (Hcase eq_refl) as [Hfresh Hevidence]. clear Hcase Hverdict.
  rewrite (bool_decide_eq_true_2 _ Hfam) in Hfresh. zbool. split; [done|].
  destruct (observe_whisper _ _ _ _ Hfam Hobs) as (Happle & Hinc & _).
  unfold corroborated.
  destruct Hevidence as [(h & Hh & Hc)|[(apple & Hlast & Hl)|[Htwo|[Hcut|Hedge]]]].
  - left. exists h. unfold confirms_trial in Hc. zbool. split; [|done].
    match goal with H : _ || _ = true |- _ => apply orb_true_iff in H as [Hw|Ha] end; zbool.
    + right. by split_and!.
    + left. rewrite <- Happle. by apply last_Some_elem_of.
  - left. exists apple. split; [left|done]. rewrite <- Happle. by apply last_Some_elem_of.
  - left. destruct (two_frames_other _ candidate _ Htwo) as (h & Hin & Hsays & Hne).
    apply whisper_says_elem in Hsays as (? & ? & ? & ?).
    destruct (support_observe_whisper _ _ _ _ _ Hfam Hobs Hin) as [->|Hold]; [done|].
    exists h. split; [right; by split_and!|done].
  - right; left. by rewrite <- Hinc.
  - right; right. unfold edge_respelled, independent_labels in *. by rewrite Hinc, Happle in Hedge.
Qed.

(* ------------------------------------------------------------------ *)
(** ** Witnesses *)

Section example.
Let o := mkOccurrence "s" 1 0 48000.
Let held := mkObservation Whisper 1 0 o.
Let heard := mkObservation Whisper 2 1 o.

Definition disputed_slot : WordSlot := mkWordSlot 16000 20000 "pot" Whisper held Unwitnessed None false.
Definition corrected_slot : WordSlot := mkWordSlot 16000 20000 "kot" Whisper heard Unwitnessed None false.

Definition frame_hypothesis (decode : Z * Z) (raw : string) : WordHypothesis :=
    mkHypothesis None (mkObservation Whisper (decode.1) 0 o) [mkSourceWord None 16000 20000 (Some raw) raw None false (Some decode)]
      [slot_target_of disputed_slot] (Some decode) (Some raw) raw None "final" "capture_word_pins" true true 1000000.

  (** One frame holds "pot", another already said "kot"; the third is coming in. *)
Definition disputed_ledger : AcousticLedger :=
    ledger_new <| lg_committed := {[ o := mkCommitted Whisper 0 [disputed_slot] "pot" ]} |>
               <| lg_word_pin_observations := {[ held ]} |>
               <| lg_word_adjudication ::= λ w,
                    w <| was_components :=
                           [mkAdjudication o [slot_target_of disputed_slot] (frame_hypothesis (0, 48000) "pot") []
                              [frame_hypothesis (1000, 47000) "kot"; frame_hypothesis (0, 48000) "pot"]
                              {[ (0, 48000); (1000, 47000) ]} true false false None None] |>
                      <| was_input :=
                           Some (mkEvidenceInput None heard
                             [mkSourceWord None 16000 20000 (Some "kot") "kot" None false (Some (2000, 46000))]%string
                             None "final" "capture_word_pins" None) |> |>.
End example.

Definition empty_component : WordAdjudication :=
  mkAdjudication (mkOccurrence "s" 1 0 48000) [] (frame_hypothesis (0, 48000) "pot") [] [] ∅ false false false None None.

(** The same frame, twice. *)
Definition twice : list WordHypothesis :=
  [frame_hypothesis (2000, 46000) "kot"; frame_hypothesis (2000, 46000) "kot"].

Lemma frame_fresh_once_witness :
  map snd (observe_all empty_component twice).2 = [true; false] ∧
  (fresh_count (2000%Z, 46000%Z) (observe_all empty_component twice).2 <= 1)%nat.
Proof.
  split; [vm_compute; reflexivity|].
  destruct (frame_fresh_once twice empty_component) as (_ & _ & H); [vm_compute; lia|vm_compute; lia|].
  exact (H (2000, 46000)).
Defined.

Definition disputed_component : WordAdjudication :=
  mkAdjudication (mkOccurrence "s" 1 0 48000) [slot_target_of disputed_slot] (frame_hypothesis (0, 48000) "pot") []
    [frame_hypothesis (1000, 47000) "kot"; frame_hypothesis (0, 48000) "pot"]
    {[ (0, 48000); (1000, 47000) ]} true false false None None.

Lemma whisper_never_corroborates_itself_witness :
  let t := ascii_tables in
  (adjudicate_word_sources disputed_ledger (ws_observation corrected_slot) [disputed_slot] [corrected_slot]).2 = Some true ∧
  corroborated (hypothesis disputed_ledger (ws_observation corrected_slot) [disputed_slot] [corrected_slot])
    disputed_component.
Proof.
  intros t.
  assert (Hacc : (adjudicate_word_sources disputed_ledger (ws_observation corrected_slot) [disputed_slot]
                    [corrected_slot]).2 = Some true) by (vm_compute; reflexivity).
  split; [exact Hacc|].
  assert (Hs : split_settled_word_components disputed_ledger (mkOccurrence "s" 1 0 48000) (targets_of [disputed_slot])
               = inr disputed_ledger) by (vm_compute; reflexivity).
  assert (Ht : snd <$> (match take_component disputed_ledger (ws_observation corrected_slot) [disputed_slot] with
                        | inl _ => None | inr p => Some p end) = Some disputed_component) by (vm_compute; reflexivity).
  destruct (adjudicate_word_sources disputed_ledger (ws_observation corrected_slot) [disputed_slot] [corrected_slot])
    as [L' accepted] eqn:Hadj. simpl in Hacc. subst accepted.
  destruct (whisper_never_corroborates_itself disputed_ledger (ws_observation corrected_slot) [disputed_slot]
              [corrected_slot] L' Hadj eq_refl ltac:(vm_compute; reflexivity)) as (L1 & rest & c & Hsplit & Htake & Hrest).
  change (occurrence (ws_observation corrected_slot)) with (mkOccurrence "s" 1 0 48000) in Hsplit.
  rewrite Hs in Hsplit. injection Hsplit as <-. rewrite Htake in Ht. injection Ht as ->.
  destruct (Hrest ltac:(vm_compute; reflexivity)) as (_ & [Hc|[Hcut|[Hedge _]]]); [exact Hc| |].
  - exfalso. vm_compute in Hcut. discriminate.
  - exfalso. vm_compute in Hedge. by destruct Hedge.
Defined.
