(* ===== verification/WordTrials.v ===== *)
(** WordTrials: bounded requests for one more decode of disputed words
    (core/pipeline/acoustic_ledger/word_adjudication.rs).

    A trial names its words, an identity drawn from a counter and whether it
    spends new native work.  A component spends one shared and one fresh trial;
    the trail replays an opened trial by [restore_word_trial].  The digest of a
    closed trial is the SHA-256 of its JSON, a parameter. *)

From S2P Require Import Prelude.
From S2P Require Import Text.
From S2P Require Import GroupAlignment.
From S2P Require Import LedgerIdentity.
From S2P Require Import LedgerState.
From S2P Require Import LedgerCoverage.
From S2P Require Import LedgerDecision.
From S2P Require Import WordLabels.
From S2P Require Import WordGeometry.
From S2P Require Import DecodeFences.
From S2P Require Import WordEvidence.
From S2P Require Import WordComponents.
From S2P Require Import WordDecision.
#[local] Open Scope Z_scope.

Definition components_of (L : AcousticLedger) : list WordAdjudication := was_components (lg_word_adjudication L).

Definition best_q (c : WordAdjudication) : Z := default 0 (option_max (map wh_q (wa_whisper c))).

(* ------------------------------------------------------------------ *)
(** ** The words of a trial *)

Definition budget_spent (fresh_decode : bool) (c : WordAdjudication) : bool :=
  if fresh_decode then wa_fresh_attempted c else wa_attempted c.

(** A held range of the disputed words reaches this word. *)
Definition in_lineage (ranges : list OccurrenceIdentity) (slot : WordSlot) : bool :=
  existsb (λ range, same_capture range (occurrence (ws_observation slot))
             && (sample_start range <? ws_sample_end slot) && (ws_sample_start slot <? sample_end range)) ranges.

Definition word_trial_sources (L : AcousticLedger) (index : nat) (fresh_decode : bool) : option (list WordSlot) :=
  match components_of L !! index with
  | None => None
  | Some component =>
      match slots_of L (wa_owner component) with
      | None => None
      | Some current =>
          let disputed slot := names (wa_targets component) (slot_target_of slot) in
          let held := List.filter disputed current in
          if bool_decide (held = []) || negb (length held =? length (wa_targets component))%nat then None
          else
            let ranges := word_source_ranges L held in
            if bool_decide (ranges = []) then None
            else
              let sources := List.filter (λ slot, disputed slot || in_lineage ranges slot) current in
              if existsb (λ slot, negb (disputed slot)
                            && (coarse_word_source L slot
                                || negb (match ws_producer slot with Apple | Whisper => true | _ => false end))) sources
              then None
              else
                let targets := targets_of sources in
                if existsb (λ member, bool_decide (wa_owner member = wa_owner component)
                              && existsb (names targets) (wa_targets member)
                              && (negb (forallb (names targets) (wa_targets member))
                                  || is_some (wa_trial member) || budget_spent fresh_decode member))
                     (components_of L)
                then None else Some sources
      end
  end.

Definition group_word_trial_component (L : AcousticLedger) (index : nat) (sources : list WordSlot) :
    option (AcousticLedger * nat) :=
  match components_of L !! index with
  | None => None
  | Some component =>
      let targets := targets_of sources in
      if bool_decide (wa_targets component = targets) then Some (L, index)
      else
        let owner := wa_owner component in
        match component_for_sources L owner sources with
        | None => None
        | Some grouped =>
            let kept := List.filter (λ member, negb (bool_decide (wa_owner member = owner))
                                        || negb (existsb (names targets) (wa_targets member))) (components_of L) in
            Some (with_components (λ _, kept ++ [grouped]) L, length kept)
        end
  end.

(* ------------------------------------------------------------------ *)
(** ** Opening and closing *)

(** The component takes the trial and pays for it. *)
Definition spend (trial : WordTrial) (c : WordAdjudication) : WordAdjudication :=
  c <| wa_attempted := true |> <| wa_fresh_attempted ::= λ b, b || wt_fresh_decode trial |>
    <| wa_trial := Some trial |>.

Definition start_trial (trial : WordTrial) (index : nat) (L : AcousticLedger) : AcousticLedger :=
  with_words (λ w, w <| was_next_trial := wt_id trial |>
                     <| was_components ::= alter (spend trial) index |>
                     <| was_active_trials ::= λ l, l ++ [trial] |>) L.

Definition open_word_trial (L : AcousticLedger) (index : nat) (fresh_decode : bool) : option (AcousticLedger * WordTrial) :=
  match components_of L !! index with
  | None => None
  | Some component =>
      let sources := slots_named L (wa_owner component) (wa_targets component) in
      if negb (length sources =? length (wa_targets component))%nat then None
      else
        let trial :=
          mkTrial (sat_add (was_next_trial (lg_word_adjudication L)) 1) (wa_owner component) (wa_targets component)
            (word_source_ranges L sources) (best_q component) fresh_decode in
        Some (start_trial trial index L, trial)
  end.

Section trials.
Context {tables : CharTables} (trial_digest : WordTrial → list Z).

Definition close_component (trial : WordTrial) (reason : string) (c : WordAdjudication) : WordAdjudication :=
  if bool_decide (wa_trial c = Some trial)
  then c <| wa_trial := None |> <| wa_attempted := wa_conflict c |>
         <| wa_last_trial := Some (mkTrialReceipt trial reason) |>
  else c.

Definition close_word_trial (L : AcousticLedger) (trial : WordTrial) (reason : string) : AcousticLedger :=
  if bool_decide (is_Some (was_closed_trials (lg_word_adjudication L) !! wt_id trial)) then L
  else
    with_words (λ w, w <| was_active_trials ::= List.filter (λ active, negb (bool_decide (active = trial))) |>
                       <| was_components ::= map (close_component trial reason) |>
                       <| was_closed_trials ::= <[wt_id trial := trial_digest trial]> |>) L.

(** The component a recorded trial is about, before or after grouping. *)
Definition restorable (trial : WordTrial) (c : WordAdjudication) : bool :=
  bool_decide (wa_owner c = wt_owner trial) && bool_decide (wa_targets c = wt_targets trial)
  && wa_conflict c && negb (is_some (wa_trial c)) && negb (budget_spent (wt_fresh_decode trial) c).

Definition expands_to (L : AcousticLedger) (trial : WordTrial) (row : nat * WordAdjudication) : bool :=
  bool_decide (wa_owner row.2 = wt_owner trial) && wa_conflict row.2
  && match word_trial_sources L row.1 (wt_fresh_decode trial) with
     | Some expanded => bool_decide (targets_of expanded = wt_targets trial)
     | None => false
     end.

Definition restore_index (L : AcousticLedger) (trial : WordTrial) : option nat :=
  match position_of (restorable trial) (components_of L) with
  | Some index => Some index
  | None => fst <$> List.find (expands_to L trial) (enumerate (components_of L))
  end.

Definition restore_word_trial (L : AcousticLedger) (trial : WordTrial) : string + AcousticLedger :=
  let w := lg_word_adjudication L in
  if bool_decide (trial ∈ was_active_trials w) then inr L
  else
    match was_closed_trials w !! wt_id trial with
    | Some digest =>
        if bool_decide (digest = trial_digest trial) then inr L else inl "closed trial identity differs"%string
    | None =>
        let sources := slots_named L (wt_owner trial) (wt_targets trial) in
        if negb (length sources =? length (wt_targets trial))%nat
           || negb (bool_decide (word_source_ranges L sources = wt_source_ranges trial))
        then inl "recorded trial source ranges differ"%string
        else if negb (wt_id trial =? sat_add (was_next_trial w) 1)
        then inl "recorded trial sequence differs"%string
        else
          match restore_index L trial with
          | None => inl "recorded trial has no current unresolved component"%string
          | Some index =>
              match group_word_trial_component L index sources with
              | Some (L, index) => inr (start_trial trial index L)
              | None => inl "recorded trial has no current unresolved component"%string
              end
          end
    end.

(* ------------------------------------------------------------------ *)
(** ** Choosing a trial *)

(** Enough witnesses before stop: two complete frames, or a first banded one
    that Apple's incomplete label leaves open. *)
Definition ripe (evidence : WordAdjudication) : bool :=
  let support := support evidence in
  let frames :=
    size (list_to_set (omap wh_decode (List.filter (λ h, bool_decide (family h = Whisper) && wh_complete h) support))
            : gset (Z * Z)) in
  let first_banded_witness :=
    match last (wa_apple evidence) with
    | Some apple =>
        negb (wh_complete apple && wh_acoustic_boundaries_complete apple)
        && is_some (wh_original_text apple)
        && existsb (λ h, bool_decide (family h = Whisper) && wh_complete h && wh_acoustic_boundaries_complete h
                         && is_some (wh_decode h) && (BAND_RIGHTS_FLOOR <=? wh_q h)
                         && is_some (wh_original_text h)) support
    | None => false
    end in
  (2 <=? frames)%nat || first_banded_witness.

(** A returned frame covers every range of the words whole, and is new to them. *)
Definition coverage_serves (L : AcousticLedger) (coverage : OccurrenceIdentity) (evidence : WordAdjudication)
    (ranges : list OccurrenceIdentity) : bool :=
  negb (has_decode evidence coverage (Some (sample_start coverage, sample_end coverage)))
  && forallb (λ range,
       same_capture range coverage
       && decode_word_onset_complete L range (sample_start coverage) (sample_end coverage) (sample_start range)
       && (sample_end range <=? sample_end coverage)
       && negb (decode_word_fence_incomplete L range (sample_start coverage) (sample_end coverage)
                  (sample_start range) (sample_end range))) ranges.

(** Required padding, and the retained bounds of the capture. *)
Definition TrialContext : Type := Z * (Z * Z).

Definition planned_decode (padding start end_ : Z) (retained : Z * Z) : Z * Z :=
  (Z.max (sat_sub start padding) retained.1, Z.min (sat_add end_ padding) retained.2).

Definition context_complete (owner : OccurrenceIdentity) (coverage : option OccurrenceIdentity)
    (context : option TrialContext) (evidence : WordAdjudication) (ranges : list OccurrenceIdentity) : bool :=
  match context with
  | None => true
  | Some (padding, retained) =>
      let start := default 0 (option_min (map sample_start ranges)) in
      let end_ := default 0 (option_max (map sample_end ranges)) in
      let decode := planned_decode padding start end_ retained in
      (retained.1 <=? start) && (end_ <=? retained.2)
      && match coverage with
         | None => negb (has_decode evidence owner (Some decode))
         | Some range => (sample_start range <=? decode.1) && (decode.2 <=? sample_end range)
         end
  end.

Definition trial_candidate (L : AcousticLedger) (stopping : bool) (coverage : option OccurrenceIdentity)
    (context : option TrialContext) (horizon : Z) (fresh_decode : bool) (row : nat * WordAdjudication) :
    option (nat * list WordSlot) :=
  let '(index, c) := row in
  if negb (wa_conflict c) || (horizon <? sample_end (wa_owner c)) || is_sealed L (wa_owner c) then None
  else
    match word_trial_sources L index fresh_decode with
    | None => None
    | Some sources =>
        match (if bool_decide (targets_of sources = wa_targets c) then Some c
               else component_for_sources L (wa_owner c) sources) with
        | None => None
        | Some evidence =>
            if negb stopping && negb (ripe evidence) then None
            else
              let ranges := word_source_ranges L sources in
              if match coverage with Some coverage => negb (coverage_serves L coverage evidence ranges) | None => false end
              then None
              else if context_complete (wa_owner c) coverage context evidence ranges then Some (index, sources) else None
        end
    end.

(** [max_by_key]: the last of the greatest. *)
Fixpoint max_by_key {A} (key : A → Z) (best : option A) (l : list A) : option A :=
  match l with
  | [] => best
  | x :: l' =>
      max_by_key key (match best with Some b => if key b <=? key x then Some x else Some b | None => Some x end) l'
  end.

Definition select_word_trial (L : AcousticLedger) (stopping : bool) (coverage : option OccurrenceIdentity)
    (context : option TrialContext) (horizon : Z) (fresh_decode : bool) : AcousticLedger * option WordTrial :=
  let candidates :=
    omap (trial_candidate L stopping coverage context horizon fresh_decode) (enumerate (components_of L)) in
  let key (row : nat * list WordSlot) := match components_of L !! row.1 with Some c => best_q c | None => 0 end in
  match max_by_key key None candidates with
  | None => (L, None)
  | Some (index, sources) =>
      match group_word_trial_component L index sources with
      | None => (L, None)
      | Some (L, index) =>
          match open_word_trial L index fresh_decode with
          | Some (L, trial) => (L, Some trial)
          | None => (L, None)
          end
      end
  end.

Definition next_word_trial_in (L : AcousticLedger) (stopping : bool) (coverage : option OccurrenceIdentity)
    (context : option TrialContext) : AcousticLedger * option WordTrial :=
  select_word_trial L stopping coverage context u64_max false.

Definition next_word_trial_before_horizon (L : AcousticLedger) (stopping : bool) (coverage : option OccurrenceIdentity)
    (context : option TrialContext) (horizon : Z) : AcousticLedger * option WordTrial :=
  select_word_trial L stopping coverage context horizon true.

(* ------------------------------------------------------------------ *)
(** ** The horizon *)

Definition unattempted (c : WordAdjudication) : bool := wa_conflict c && negb (wa_attempted c).

Definition owners_with_unattempted_conflicts (L : AcousticLedger) : gset OccurrenceIdentity :=
  list_to_set (map wa_owner (List.filter unattempted (components_of L))).

(** [while let Some(index) = position(..)]; the fuel counts rounds. *)
Fixpoint close_horizon (fuel : nat) (L : AcousticLedger) (owner : OccurrenceIdentity) (closed : nat) :
    option (AcousticLedger * nat) :=
  match position_of (λ c, unattempted c && bool_decide (wa_owner c = owner)) (components_of L) with
  | None => Some (L, closed)
  | Some index =>
      match open_word_trial L index false with
      | None => Some (L, closed)
      | Some (L, trial) =>
          match fuel with
          | O => None
          | S fuel => close_horizon fuel (close_word_trial L trial "admission_horizon_closed") owner (S closed)
          end
      end
  end.

Definition close_word_adjudication_horizon (L : AcousticLedger) (owner : OccurrenceIdentity) : option (AcousticLedger * nat) :=
  close_horizon (length (components_of L)) L owner 0.

(* ------------------------------------------------------------------ *)
(** ** Returned evidence *)

Definition pin_range (trial : WordTrial) (pin : WordPin) : OccurrenceIdentity :=
  mkOccurrence (session (wt_owner trial)) (capture_epoch (wt_owner trial)) (pn_sample_start pin) (pn_sample_end pin).

(** A word outside the trial would be addressed by the pin. *)
Definition touches_outside (L : AcousticLedger) (trial : WordTrial) (current : list WordSlot) (pin : WordPin) : bool :=
  let range := pin_range trial pin in
  existsb (λ slot, negb (names (wt_targets trial) (slot_target_of slot))
             && (word_slot_targets_pin L slot range
                 || (coarse_word_source L slot && is_anchored range
                     && same_capture range (occurrence (ws_observation slot))
                     && (ws_sample_start slot <? sample_end range) && (sample_start range <? ws_sample_end slot)))) current.

Definition word_trial_input_refusal (L : AcousticLedger) (observation : ObservationIdentity) (words : list WordPin) :
    option string :=
  match input_trial L observation with
  | None => None
  | Some trial =>
      let current := default [] (slots_of L (wt_owner trial)) in
      if negb (bool_decide (occurrence observation = wt_owner trial)) || is_sealed L (wt_owner trial)
         || negb (forallb (λ target, existsb (λ slot, bool_decide (slot_target_of slot = target)) current) (wt_targets trial))
         || negb (existsb (λ c, bool_decide (wa_trial c = Some trial)) (components_of L))
      then Some "stale_target"%string
      else if bool_decide (words = []) || existsb (touches_outside L trial current) words
      then Some "trial_target_mismatch"%string
      else None
  end.

Definition trial_targets_pin (L : AcousticLedger) (trial : WordTrial) (current : list WordSlot) (pin : WordPin) : bool :=
  let range := pin_range trial pin in
  existsb (λ slot, names (wt_targets trial) (slot_target_of slot)
             && (word_slot_targets_pin L slot range
                 || (coarse_word_source L slot && is_anchored range
                     && same_capture range (occurrence (ws_observation slot))
                     && (ws_sample_start slot <=? sample_start range) && (sample_end range <=? ws_sample_end slot)))) current.

Definition confirmed_choice (L : AcousticLedger) (observation : ObservationIdentity) : bool :=
  match List.find (λ choice, bool_decide (wch_observation choice = observation)) (rev (was_choices (lg_word_adjudication L))) with
  | Some choice => String.eqb (wch_reason choice) "trial_confirmed"
  | None => false
  end.

(** The trial's evidence is staged, admitted by the word lane, and the trial
    closed, whatever the admission said. *)
Definition admit_word_trial {R} (admit_word_slots : AcousticLedger → ObservationIdentity → list WordPin → AcousticLedger * R)
    (L : AcousticLedger) (trial : WordTrial) (observation : ObservationIdentity) (words original : list WordPin) :
    AcousticLedger * R :=
  let current := default [] (slots_of L (wt_owner trial)) in
  let pins := List.filter (trial_targets_pin L trial current) words in
  let raw := List.filter (trial_targets_pin L trial current) original in
  let L := stage_word_evidence observation raw None "unknown" L in
  let L := with_words (λ w, w <| was_input ::= fmap (λ input, input <| wei_trial := Some trial |>) |>) L in
  let refusal := word_trial_input_refusal L observation pins in
  let '(L, receipt) := admit_word_slots L observation pins in
  let resolved := confirmed_choice L observation in
  (close_word_trial L trial
     (match refusal with Some reason => reason | None => if resolved then "resolved" else "unresolved" end)%string,
   receipt).

(* ------------------------------------------------------------------ *)
(** ** What formatting may read *)

(** The frames of one settled word; [None] is a contradiction in one frame. *)
Fixpoint witness_frames (frames : gmap (Z * Z) string) (l : list WordHypothesis) : option (gmap (Z * Z) string) :=
  match l with
  | [] => Some frames
  | h :: l =>
      match wh_decode h, wh_original_text h with
      | Some decode, Some raw =>
          if one_word raw
          then
            match frames !! decode with
            | Some prior => if String.eqb prior raw then witness_frames (<[decode := raw]> frames) l else None
            | None => witness_frames (<[decode := raw]> frames) l
            end
          else witness_frames frames l
      | _, _ => witness_frames frames l
      end
  end.

Definition dictionary_witness (owner : OccurrenceIdentity) (h : WordHypothesis) : bool :=
  bool_decide (family h = Whisper) && wh_complete h && wh_acoustic_boundaries_complete h
  && (BAND_RIGHTS_FLOOR <=? wh_q h) && same_capture (occurrence (wh_observation h)) owner
  && (length (wh_pins h) =? 1)%nat.

Definition common_frames (common : option (gmap (Z * Z) string)) (frames : gmap (Z * Z) string) : gmap (Z * Z) string :=
  match common with
  | None => frames
  | Some prior =>
      merge (λ label raw, match label, raw with
                          | Some label, Some raw => Some (label ++ " " ++ raw)%string
                          | _, _ => None
                          end) prior frames
  end.

(** [None]: the source returns no witness at all. *)
Fixpoint dictionary_frames (L : AcousticLedger) (owner : OccurrenceIdentity) (common : option (gmap (Z * Z) string))
    (targets : list SlotTarget) : option (gmap (Z * Z) string) :=
  match targets with
  | [] => Some (default ∅ common)
  | target :: targets =>
      match List.find (λ c, bool_decide (wa_owner c = owner) && bool_decide (wa_targets c = [target])) (components_of L) with
      | None => None
      | Some component =>
          if wa_conflict component || is_some (wa_trial component) then None
          else
            match witness_frames ∅ (List.filter (dictionary_witness owner) (support component)) with
            | None => None
            | Some frames => dictionary_frames L owner (Some (common_frames common frames)) targets
            end
      end
  end.

Definition dictionary_witnesses (L : AcousticLedger) (owner : OccurrenceIdentity) (targets : list SlotTarget) :
    gmap (Z * Z) string :=
  if bool_decide (targets = []) || is_sealed L owner then ∅
  else default ∅ (dictionary_frames L owner None targets).
End trials.
