(* ===== verification/WordTrialsFacts.v ===== *)
(** WordTrialsFacts: the horizon always closes, a recorded trial reopens exactly
    the state that opened it, and trial identities are never reused. *)

From S2P Require Import Prelude.
From S2P Require Import Text.
From S2P Require Import GroupAlignment.
From S2P Require Import LedgerIdentity.
From S2P Require Import LedgerState.
From S2P Require Import LedgerCoverage.
From S2P Require Import LedgerDecision.
From S2P Require Import WordLabels.
From S2P Require Import WordGeometry.
From S2P Require Import DecodeFences.
From S2P Require Import WordEvidence.
From S2P Require Import WordComponents.
From S2P Require Import WordDecision.
From S2P Require Import WordTrials.
#[local] Open Scope Z_scope.

(* ------------------------------------------------------------------ *)
(** ** Positions *)

Lemma position_of_Some {A} (p : A → bool) l i :
  position_of p l = Some i ↔
  ∃ x, l !! i = Some x ∧ p x = true ∧ ∀ j y, (j < i)%nat → l !! j = Some y → p y = false.
Proof.
  revert i. induction l as [|x l IH]; intros i; simpl; [by split; [|intros (? & ? & _)]|].
  destruct (p x) eqn:Hp.
  - split.
    + intros [= <-]. exists x. split_and!; [done..|]. intros j y Hj. lia.
    + intros (y & Hi & Hy & Hbefore). destruct i as [|i]; [done|].
      specialize (Hbefore O x ltac:(lia) eq_refl). congruence.
  - destruct (position_of p l) as [j|] eqn:Hpos; simpl.
    + specialize (proj1 (IH j) eq_refl) as (y & Hj & Hy & Hbefore). split.
      * intros [= <-]. exists y. split_and!; [done..|]. intros [|k] z Hk Hz; simpl in Hz; [by simplify_eq|].
        apply (Hbefore k z); [lia|done].
      * intros (z & Hi & Hz & Hb). destruct i as [|i]; [simplify_eq/=; congruence|]. simpl in Hi. f_equal.
        destruct (Nat.lt_trichotomy i j) as [Hlt|[->|Hlt]]; [|done|].
        -- specialize (Hbefore i z Hlt Hi). congruence.
        -- specialize (Hb (S j) y ltac:(lia) Hj). congruence.
    + split; [done|]. intros (z & Hi & Hz & Hb). destruct i as [|i]; [simplify_eq/=; congruence|]. simpl in Hi.
      enough (position_of p l = Some i) by congruence. rewrite Hpos. apply IH. exists z. split_and!; [done..|].
      intros j y Hj Hy. apply (Hb (S j) y); [lia|done].
Qed.

Lemma position_of_None {A} (p : A → bool) l : position_of p l = None ↔ ∀ x, x ∈ l → p x = false.
Proof.
  induction l as [|x l IH]; simpl; [split; [by intros _ ? ?%elem_of_nil|done]|].
  destruct (p x) eqn:Hp.
  - split; [done|]. intros H. rewrite H in Hp; [done|by left].
  - rewrite fmap_None, IH. split.
    + intros H y [->|Hy]%elem_of_cons; auto.
    + intros H y Hy. apply H. by right.
Qed.

(* ------------------------------------------------------------------ *)
(** ** The horizon *)

Section horizon.
  Context {tables : CharTables} (trial_digest : WordTrial → list Z).
  Context (owner : OccurrenceIdentity).

Definition due (c : WordAdjudication) : bool := unattempted c && bool_decide (wa_owner c = owner).

Definition due_count (L : AcousticLedger) : nat := length (List.filter due (components_of L)).

Lemma closed_not_due trial reason c : wa_attempted c = true → due (close_component trial reason c) = false.
  Proof.
    unfold due, unattempted, close_component. intros Ha. case_bool_decide; simpl; [|by rewrite Ha, andb_false_r].
    by destruct (wa_conflict c).
  Qed.

Lemma closed_due trial reason c : due (close_component trial reason c) = true → due c = true.
  Proof.
    unfold due, unattempted, close_component. case_bool_decide; simpl; [|done].
    by destruct (wa_conflict c).
  Qed.

Lemma filter_map_le {A} (p : A → bool) (f : A → A) l :
    (∀ x, p (f x) = true → p x = true) → (length (List.filter p (map f l)) <= length (List.filter p l))%nat.
  Proof.
    intros Hp. induction l as [|x l IH]; simpl; [done|].
    destruct (p (f x)) eqn:Hfx; [rewrite (Hp _ Hfx); simpl; lia|]. destruct (p x); simpl; lia.
  Qed.

Lemma alter_split {A} (f : A → A) l i x :
    l !! i = Some x → alter f i l = take i l ++ f x :: drop (S i) l.
  Proof.
    revert i. induction l as [|y l IH]; intros [|i] Hi; simpl in *; simplify_eq; [by rewrite drop_0|].
    f_equal. by apply IH.
  Qed.

Lemma round_progress L index L' trial reason :
    position_of due (components_of L) = Some index → open_word_trial L index false = Some (L', trial) →
    (due_count (close_word_trial trial_digest L' trial reason) < due_count L)%nat.
  Proof.
    intros Hpos Hopen. apply position_of_Some in Hpos as (c & Hi & Hdue & _).
    unfold open_word_trial in Hopen. rewrite Hi in Hopen. case_match; [done|]. simplify_eq.
    unfold due_count at 2. rewrite <- (take_drop_middle _ _ _ Hi), List.filter_app, length_app. simpl. rewrite Hdue. simpl.
    match goal with |- context [start_trial ?t _ _] => set (trial := t) in * end.
    assert (Halter : components_of (start_trial trial index L)
                     = take index (components_of L) ++ spend trial c :: drop (S index) (components_of L))
      by (by apply alter_split).
    unfold due_count, close_word_trial. case_bool_decide.
    - rewrite Halter, List.filter_app, length_app. simpl.
      unfold due at 2, unattempted. simpl. rewrite andb_false_r. simpl. lia.
    - unfold components_of at 1. cbn. change (was_components (lg_word_adjudication L)) with (components_of L).
      rewrite (alter_split _ _ _ _ Hi), map_app, List.filter_app, length_app. cbn [map List.filter].
      rewrite closed_not_due by done.
      pose proof (filter_map_le due _ (take index (components_of L)) (closed_due trial reason)).
      pose proof (filter_map_le due _ (drop (S index) (components_of L)) (closed_due trial reason)). lia.
  Qed.

Lemma close_horizon_total fuel L closed :
    (due_count L <= fuel)%nat → ∃ L' n, close_horizon trial_digest fuel L owner closed = Some (L', n) ∧
      (∀ index, position_of due (components_of L') = Some index → open_word_trial L' index false = None).
  Proof.
    revert L closed. induction fuel as [|fuel IH]; intros L closed Hfuel; cbn [close_horizon]; fold due;
      destruct (position_of due (components_of L)) as [index|] eqn:Hpos;
      try (eexists _, _; split; [done|]; intros i; rewrite Hpos; congruence);
      (destruct (open_word_trial L index false) as [[L' trial]|] eqn:Hopen;
       [|eexists _, _; split; [done|]; intros i; rewrite Hpos; intros [= <-]; done]);
      pose proof (round_progress L index L' trial "admission_horizon_closed" Hpos Hopen); [lia|].
    apply IH. lia.
  Qed.
End horizon.

(* ------------------------------------------------------------------ *)
(** ** The words of a trial *)

Lemma targets_filter (p : SlotTarget → bool) slots :
  List.filter (λ slot, names (targets_of (List.filter (λ s, p (slot_target_of s)) slots)) (slot_target_of slot)) slots
  = List.filter (λ slot, p (slot_target_of slot)) slots.
Proof.
  assert (Hp : ∀ slot, slot ∈ slots →
    names (targets_of (List.filter (λ s, p (slot_target_of s)) slots)) (slot_target_of slot) = p (slot_target_of slot)).
  { intros slot Hin. apply eq_bool_prop_intro. unfold names, targets_of. rewrite bool_decide_spec, list_elem_of_fmap. split.
    - intros (s & -> & Hs). apply list_elem_of_In, List.filter_In in Hs as [_ ->]. done.
    - intros Hps. exists slot. split; [done|]. apply list_elem_of_In, List.filter_In.
      split; [by apply list_elem_of_In|by apply Is_true_true]. }
  induction slots as [|x l IH]; [done|].
  set (ts := targets_of _) in *. clearbody ts. clear IH.
  revert Hp. generalize (x :: l) as m. induction m as [|y m IHm]; intros Hp; simpl; [done|].
  rewrite Hp by by left. rewrite IHm; [done|]. intros s Hs. apply Hp. by right.
Qed.

(** What a trial may address: all the disputed words and their lineage, none of
    them held by another trial or split by another component. *)
Lemma word_trial_sources_spec L index fresh sources :
  word_trial_sources L index fresh = Some sources →
  ∃ c, components_of L !! index = Some c ∧
    sources = slots_named L (wa_owner c) (targets_of sources) ∧
    (∃ target, target ∈ wa_targets c ∧ target ∈ targets_of sources) ∧
    ∀ m, m ∈ components_of L → wa_owner m = wa_owner c →
      (∃ target, target ∈ wa_targets m ∧ target ∈ targets_of sources) →
      (∀ target, target ∈ wa_targets m → target ∈ targets_of sources) ∧ wa_trial m = None ∧ budget_spent fresh m = false.
Proof.
  unfold word_trial_sources. intros H. destruct (components_of L !! index) as [c|] eqn:Hc; [|done].
  destruct (slots_of L (wa_owner c)) as [current|] eqn:Hcur; [|done].
  set (held := List.filter _ current) in *.
  destruct (bool_decide (held = []) || _) eqn:Hheld; [done|]. zbool.
  set (ranges := word_source_ranges L held) in *. destruct (bool_decide (ranges = [])) eqn:Hranges; [done|].
  set (P := λ target, names (wa_targets c) target
       || existsb (λ range, same_capture range (occurrence (st_observation target))
             && (sample_start range <? st_sample_end target) && (st_sample_start target <? sample_end range)) ranges).
  set (found := List.filter _ current) in H.
  assert (Hfound : found = List.filter (λ slot, P (slot_target_of slot)) current) by done. clearbody found.
  destruct (existsb _ found); [done|].
  destruct (existsb _ (components_of L)) eqn:Hmembers; [done|]. simplify_eq.
  exists c. split; [done|]. split_and!.
  - unfold slots_named. rewrite Hcur. simpl. by rewrite (targets_filter P).
  - destruct held as [|slot held'] eqn:Hh; [done|].
    assert (Hslot : slot ∈ held) by (rewrite Hh; by left). subst held.
    apply list_elem_of_In, List.filter_In in Hslot as [Hin Hnames].
    exists (slot_target_of slot). split; [by apply bool_decide_eq_true in Hnames|].
    apply list_elem_of_fmap. exists slot. split; [done|]. apply list_elem_of_In, List.filter_In.
    split; [done|]. unfold P. by rewrite Hnames.
  - intros m Hm Howner (target & Ht1 & Ht2). rewrite existsb_false in Hmembers. specialize (Hmembers _ Hm).
    rewrite (bool_decide_eq_true_2 _ Howner) in Hmembers.
    assert (Hover : existsb (names (targets_of (List.filter (λ slot, P (slot_target_of slot)) current))) (wa_targets m) = true).
    { apply existsb_true. exists target. split; [done|]. by apply bool_decide_eq_true. }
    rewrite Hover in Hmembers. simpl in Hmembers. zbool. split_and!; [|by destruct (wa_trial m)|done].
    intros t Ht. rewrite forallb_true in *. rename select (∀ x, x ∈ wa_targets m → _) into Hall.
    specialize (Hall _ Ht). by apply bool_decide_eq_true in Hall.
Qed.

(* ------------------------------------------------------------------ *)
(** ** Replay *)

(** No word of an owner is in two of its components. *)
Definition components_disjoint (L : AcousticLedger) : Prop :=
  ∀ i j a b, components_of L !! i = Some a → components_of L !! j = Some b → wa_owner a = wa_owner b →
    (∃ target, target ∈ wa_targets a ∧ target ∈ wa_targets b) → i = j.

(** Every trial the ledger knows was drawn from the counter. *)
Definition trial_ids_issued (L : AcousticLedger) : Prop :=
  let w := lg_word_adjudication L in
  0 <= was_next_trial w < u64_max ∧
  (∀ trial, trial ∈ was_active_trials w → wt_id trial <= was_next_trial w) ∧
  (∀ id, is_Some (was_closed_trials w !! id) → id <= was_next_trial w).

Lemma max_by_key_in {A} (key : A → Z) best l x :
  max_by_key key best l = Some x → best = Some x ∨ x ∈ l.
Proof.
  revert best. induction l as [|y l IH]; intros best; simpl; [by left|].
  intros [H|H]%IH; [|right; by right].
  destruct best as [b|]; [case_match|]; simplify_eq; try (right; by left). by left.
Qed.

Lemma enumerate_lookup {A} (l : list A) i x : l !! i = Some x → (i, x) ∈ enumerate l.
Proof.
  unfold enumerate. intros Hi.
  enough (∀ k, ((k + i)%nat, x) ∈ combine (seq k (length l)) l) as Hk by apply (Hk O).
  revert i Hi. induction l as [|y l IH]; intros [|i] Hi k; simpl in *; try done.
  - simplify_eq. rewrite Nat.add_0_r. by left.
  - right. rewrite <- Nat.add_succ_comm. by apply IH.
Qed.

Lemma observe_owner h c : wa_owner (observe_witness h c) = wa_owner c ∧ wa_targets (observe_witness h c) = wa_targets c.
Proof. unfold observe_witness, observe_hypothesis. repeat (case_match; simpl); done. Qed.

Lemma foldl_observe_owner hs c :
  wa_owner (foldl (λ c h, observe_witness h c) c hs) = wa_owner c ∧ wa_targets (foldl (λ c h, observe_witness h c) c hs) = wa_targets c.
Proof.
  revert c. induction hs as [|h hs IH]; intros c; simpl; [done|].
  destruct (IH (observe_witness h c)) as [-> ->]. apply observe_owner.
Qed.

Lemma component_for_sources_names L owner sources c :
  component_for_sources L owner sources = Some c → wa_owner c = owner ∧ wa_targets c = targets_of sources.
Proof.
  unfold component_for_sources. destruct sources as [|first rest]; [done|]. intros H. simplify_eq.
  case_match; [|apply foldl_observe_owner].
  match goal with |- context [observe_witness ?h ?c] => destruct (observe_owner h c) as [-> ->] end. apply foldl_observe_owner.
Qed.

Section replay.
  Context {tables : CharTables} (trial_digest : WordTrial → list Z).
  Context (L : AcousticLedger) (disjoint : components_disjoint L).

Lemma restore_index_exact index c trial :
    components_of L !! index = Some c → wa_targets c = wt_targets trial → wa_targets c ≠ [] → wa_owner c = wt_owner trial →
    wa_conflict c = true → wa_trial c = None → budget_spent (wt_fresh_decode trial) c = false →
    restore_index L trial = Some index.
  Proof.
    intros Hc Ht Hne Ho Hconf Htrial Hbudget. unfold restore_index.
    replace (position_of _ _) with (Some index); [done|]. symmetry. apply position_of_Some.
    exists c. split; [done|]. split.
    - unfold restorable. rewrite Ho, Ht, Hconf, Htrial, Hbudget. by rewrite !bool_decide_eq_true_2.
    - intros j y Hj Hy. destruct (restorable trial y) eqn:Hr; [|done]. unfold restorable in Hr. zbool.
      assert (j = index); [|lia]. eapply disjoint; [done|done|congruence|].
      destruct (wa_targets c) as [|t ts] eqn:Hts; [done|]. exists t. split; [|by left].
      replace (wa_targets y) with (t :: ts) by congruence. by left.
  Qed.

Lemma restore_index_expands index c trial sources :
    components_of L !! index = Some c → word_trial_sources L index (wt_fresh_decode trial) = Some sources →
    wa_owner c = wt_owner trial → wa_conflict c = true → targets_of sources = wt_targets trial →
    wa_targets c ≠ wt_targets trial →
    ∃ j d, restore_index L trial = Some j ∧ components_of L !! j = Some d ∧ wa_owner d = wt_owner trial ∧
      wa_targets d ≠ wt_targets trial.
  Proof.
    intros Hc Hs Ho Hconf Ht Hne.
    destruct (word_trial_sources_spec _ _ _ _ Hs) as (c' & Hc' & _ & (t & Ht1 & Ht2) & _).
    assert (c' = c) as -> by congruence.
    unfold restore_index.
    destruct (position_of (restorable trial) (components_of L)) as [k|] eqn:Hk.
    { exfalso. apply position_of_Some in Hk as (m & Hm & Hr & _). unfold restorable in Hr. zbool.
      assert (k = index) as ->; [|congruence]. eapply disjoint; [done|done|congruence|].
      exists t. split; [|done]. congruence. }
    destruct (List.find (expands_to L trial) (enumerate (components_of L))) as [[j d]|] eqn:Hfind.
    - apply find_some in Hfind as [Hin Hex]. apply list_elem_of_In, elem_of_enumerate in Hin.
      exists j, d. unfold expands_to in Hex. simpl in Hex. zbool. split_and!; [done..|]. intros Heq.
      destruct (word_trial_sources L j (wt_fresh_decode trial)) as [expanded|] eqn:Hexp; [|done]. zbool.
      destruct (word_trial_sources_spec _ _ _ _ Hexp) as (d' & Hd' & _ & Hshare & Hmembers).
      assert (d' = d) as -> by congruence.
      destruct (Hmembers d) as (_ & Hnone & Hunspent); [by eapply list_elem_of_lookup_2|done|done|].
      rewrite position_of_None in Hk. specialize (Hk d ltac:(by eapply list_elem_of_lookup_2)).
      unfold restorable in Hk. rewrite Hnone, Hunspent in Hk.
      rewrite !bool_decide_eq_true_2 in Hk by done. rename select (wa_conflict d = true) into Hcd.
      by rewrite Hcd in Hk.
    - exfalso. pose proof (find_none _ _ Hfind (index, c)) as Hno.
      rewrite <- list_elem_of_In in Hno. specialize (Hno (enumerate_lookup _ _ _ Hc)).
      unfold expands_to in Hno. simpl in Hno. rewrite Hs, Hconf, !bool_decide_eq_true_2 in Hno by done. done.
  Qed.
End replay.

Lemma group_result L index c sources L1 i1 :
  components_of L !! index = Some c → group_word_trial_component L index sources = Some (L1, i1) →
  (wa_targets c = targets_of sources ∧ L1 = L ∧ i1 = index) ∨
  (wa_targets c ≠ targets_of sources ∧ ∃ f grouped, L1 = with_components f L ∧
     components_of L1 !! i1 = Some grouped ∧ wa_owner grouped = wa_owner c ∧ wa_targets grouped = targets_of sources).
Proof.
  unfold group_word_trial_component. intros ->. case_bool_decide as Heq; intros H; [left; by simplify_eq|right].
  split; [done|]. destruct (component_for_sources L (wa_owner c) sources) as [grouped|] eqn:Hg; [|done].
  apply component_for_sources_names in Hg as [Ho Ht]. simplify_eq. eexists _, grouped. split; [done|].
  split_and!; [|done..]. by apply list_lookup_middle.
Qed.

(** Grouping looks at the component for its owner only. *)
Lemma group_same_owner L i j c d sources :
  components_of L !! i = Some c → components_of L !! j = Some d → wa_owner c = wa_owner d →
  wa_targets c ≠ targets_of sources → wa_targets d ≠ targets_of sources →
  group_word_trial_component L i sources = group_word_trial_component L j sources.
Proof.
  intros Hc Hd Ho Hnc Hnd. unfold group_word_trial_component. rewrite Hc, Hd, Ho.
  by rewrite !bool_decide_eq_false_2.
Qed.


(* ------------------------------------------------------------------ *)
(** ** Identities *)

(** The operations of the lane that read or write trials. *)
Inductive trial_step {tables : CharTables} (trial_digest : WordTrial → list Z) : AcousticLedger → AcousticLedger → Prop :=
  | step_select L stopping coverage context horizon fresh_decode :
      trial_step trial_digest L (select_word_trial L stopping coverage context horizon fresh_decode).1
  | step_close L trial reason :
      trial ∈ was_active_trials (lg_word_adjudication L)
      ∨ is_Some (was_closed_trials (lg_word_adjudication L) !! wt_id trial) →
      trial_step trial_digest L (close_word_trial trial_digest L trial reason)
  | step_restore L trial L' :
      restore_word_trial trial_digest L trial = inr L' → trial_step trial_digest L L'
  | step_adjudicate L observation sources outputs :
      trial_step trial_digest L (adjudicate_word_sources L observation sources outputs).1
  | step_remember L observation :
      trial_step trial_digest L (remember_outputs L observation)
  | step_stage L input :
      trial_step trial_digest L (restore_word_evidence input L).

(** Open trials are distinct and drawn from the counter, no identity is both open
    and closed, and a component can hold an open trial only. *)
Definition trial_book (n : nat) (L : AcousticLedger) : Prop :=
  let w := lg_word_adjudication L in
  0 <= was_next_trial w <= Z.of_nat n ∧
  NoDup (map wt_id (was_active_trials w)) ∧
  (∀ t, t ∈ was_active_trials w → wt_id t <= was_next_trial w ∧ was_closed_trials w !! wt_id t = None) ∧
  (∀ id, is_Some (was_closed_trials w !! id) → id <= was_next_trial w) ∧
  (∀ c t, c ∈ components_of L → wa_trial c = Some t → t ∈ was_active_trials w).

(** The counters are untouched and no component gains a trial. *)
Definition keeps_trials (L L' : AcousticLedger) : Prop :=
  let w := lg_word_adjudication L in
  let w' := lg_word_adjudication L' in
  was_next_trial w' = was_next_trial w ∧ was_active_trials w' = was_active_trials w ∧
  was_closed_trials w' = was_closed_trials w ∧
  ∀ c' t, c' ∈ components_of L' → wa_trial c' = Some t → ∃ c, c ∈ components_of L ∧ wa_trial c = Some t.

#[global] Instance keeps_trials_refl : Reflexive keeps_trials.
Proof. intros L. repeat split; eauto. Qed.

#[global] Instance keeps_trials_trans : Transitive keeps_trials.
Proof.
  intros L1 L2 L3 (H1 & H2 & H3 & H4) (K1 & K2 & K3 & K4). repeat split; [congruence..|].
  intros c t Hc Ht. destruct (K4 c t Hc Ht) as (d & Hd & Hdt). by apply (H4 d).
Qed.

Lemma keeps_trials_book n L L' : keeps_trials L L' → trial_book n L → trial_book (S n) L'.
Proof.
  intros (H1 & H2 & H3 & H4) (B1 & B2 & B3 & B4 & B5). unfold trial_book. rewrite H1, H2, H3.
  split_and!; [lia|lia|done..|].
  intros c t Hc Ht. destruct (H4 c t Hc Ht) as (d & Hd & Hdt). by apply (B5 d).
Qed.

Lemma keeps_trials_components L f :
  (∀ c' t, c' ∈ f (components_of L) → wa_trial c' = Some t → ∃ c, c ∈ components_of L ∧ wa_trial c = Some t) →
  keeps_trials L (with_components f L).
Proof. intros Hf. repeat split. exact Hf. Qed.

Lemma push_choice_keeps choice L : keeps_trials L (push_choice choice L).
Proof. repeat split. intros c t Hc Ht. by exists c. Qed.

Lemma observe_trial h c : wa_trial (observe_hypothesis h c).1 = wa_trial c.
Proof. unfold observe_hypothesis. repeat (case_match; simpl); done. Qed.

Lemma foldl_observe_trial hs c : wa_trial (foldl (λ c h, observe_witness h c) c hs) = wa_trial c.
Proof. revert c. induction hs as [|h hs IH]; intros c; simpl; [done|]. rewrite IH. apply observe_trial. Qed.

Lemma component_for_sources_trial L owner sources c : component_for_sources L owner sources = Some c → wa_trial c = None.
Proof.
  unfold component_for_sources. destruct sources as [|first rest]; [done|]. intros H. simplify_eq.
  case_match; [unfold observe_witness at 1; rewrite observe_trial|]; apply foldl_observe_trial.
Qed.

Lemma settle_conflict_trial {tables : CharTables} k h c t : wa_trial (settle_conflict k h c) = Some t → wa_trial c = Some t.
Proof. unfold settle_conflict. repeat (case_match; simpl); done. Qed.

Lemma elem_remove_nth {A} (l : list A) i x : x ∈ remove_nth i l → x ∈ l.
Proof. unfold remove_nth. intros [H|H]%elem_of_app; [by eapply elem_take|by eapply elem_drop]. Qed.

Lemma prepare_splits_trials L owner targets all count rows splits index words c :
  prepare_splits L owner targets all count rows = inr splits → (index, words) ∈ splits → c ∈ words → wa_trial c = None.
Proof.
  revert count splits. induction rows as [|[i comp] rows IH]; intros count splits; simpl.
  { intros [= <-] H%elem_of_nil. done. }
  destruct (splits_on owner targets comp) eqn:Hs; simpl; [|by apply IH].
  destruct (overlaps_other _ _ _ _); [done|]. destruct (_ || _); [done|]. destruct (_ <? _)%nat; [done|].
  destruct (prepare_splits L owner targets all _ rows) as [|splits'] eqn:Hp; [done|]. intros [= <-].
  intros [H|H]%elem_of_cons Hc; [|by eapply IH]. simplify_eq. apply list_elem_of_fmap in Hc as (slot & -> & _).
  unfold splits_on in Hs. zbool. simpl. by destruct (wa_trial comp).
Qed.

Lemma split_keeps L owner targets L' : split_settled_word_components L owner targets = inr L' → keeps_trials L L'.
Proof.
  unfold split_settled_word_components. destruct (prepare_splits _ _ _ _ _ _) as [|splits] eqn:Hp; [done|].
  intros [= <-]. apply (keeps_trials_components L (λ _, foldl apply_split _ (rev splits))). fold (components_of L).
  assert (Hnone : ∀ split c, split ∈ rev splits → c ∈ split.2 → wa_trial c = None).
  { intros [i ws] c Hin Hc. eapply prepare_splits_trials; [done| |done]. simpl. by rewrite list_elem_of_In, <- in_rev, <- list_elem_of_In in Hin. }
  revert Hnone. generalize (rev splits) as l. generalize (components_of L) as cs.
  intros cs l. revert cs. induction l as [|[i ws] l IH]; intros cs Hnone c t; simpl; [by eauto|].
  intros Hc Ht. destruct (IH (apply_split cs (i, ws)) ltac:(intros; eapply Hnone; [by right|done]) c t Hc Ht) as (d & Hd & Hdt).
  unfold apply_split in Hd. apply elem_of_app in Hd as [Hd|Hd]; [exists d; split; [by eapply elem_remove_nth|done]|].
  simpl in Hd. rewrite (Hnone (i, ws) d) in Hdt; [done|by left|done].
Qed.

Lemma take_component_keeps L observation sources rest c :
  take_component L observation sources = inr (rest, c) →
  keeps_trials L rest ∧ ∀ t, wa_trial c = Some t → ∃ d, d ∈ components_of L ∧ wa_trial d = Some t.
Proof.
  unfold take_component. fold (components_of L). destruct (position_of _ _) as [i|] eqn:Hpos.
  - destruct (components_of L !! i) as [d|] eqn:Hd; [|done]. intros [= <- <-]. split.
    + apply keeps_trials_components. intros c' t Hc Ht. exists c'. split; [by eapply elem_remove_nth|done].
    + intros t Ht. exists d. split; [by eapply list_elem_of_lookup_2|done].
  - destruct (_ <=? _)%nat; [done|]. destruct (component_for_sources _ _ _) as [d|] eqn:Hd; [|done].
    intros [= <- <-]. split.
    + apply keeps_trials_components. intros c' t Hc Ht. exists c'. split; [|done].
      apply list_elem_of_In, List.filter_In in Hc as [Hc _]. by apply list_elem_of_In.
    + intros t Ht. apply component_for_sources_trial in Hd. congruence.
Qed.

Lemma append_component_keeps L rest c :
  keeps_trials L rest → (∀ t, wa_trial c = Some t → ∃ d, d ∈ components_of L ∧ wa_trial d = Some t) →
  keeps_trials L (with_components (λ l, l ++ [c]) rest).
Proof.
  intros (H1 & H2 & H3 & H4) Hc. repeat split; try done.
  intros c' t [Hin|Hin]%elem_of_app Ht; [by apply (H4 c')|].
  apply list_elem_of_singleton in Hin as ->. by apply Hc.
Qed.

Lemma adjudicate_keeps {tables : CharTables} L observation sources outputs :
  keeps_trials L (adjudicate_word_sources L observation sources outputs).1.
Proof.
  unfold adjudicate_word_sources, record_word_choice.
  destruct (match input_trial L observation with Some _ => _ | None => _ end); [apply push_choice_keeps|].
  destruct (_ || negb _); [done|]. destruct (existsb _ _); [apply push_choice_keeps|].
  destruct (split_settled_word_components _ _ _) as [|L1] eqn:Hsplit; [apply push_choice_keeps|].
  apply split_keeps in Hsplit. transitivity L1; [done|]. clear Hsplit L.
  destruct (take_component L1 observation sources) as [|[rest c]] eqn:Htake; [apply push_choice_keeps|].
  apply take_component_keeps in Htake as [Hrest Hc].
  unfold adjudicate_component, record_word_choice. destruct (stale_apple _ c); simpl.
  { etransitivity; [|apply push_choice_keeps]. by apply append_component_keeps. }
  destruct (observe_hypothesis _ c) as [c2 observed] eqn:Hobs.
  pose proof (observe_trial (hypothesis L1 observation sources outputs) c) as Htr. rewrite Hobs in Htr. simpl in Htr.
  destruct (word_verdict _) as [accepted reason]. simpl.
  etransitivity; [|apply push_choice_keeps]. apply append_component_keeps; [done|].
  intros t Ht%settle_conflict_trial. apply Hc. congruence.
Qed.

Lemma replace_first_elem {A} (p : A → bool) (f : A → A) l x :
  x ∈ replace_first p f l → x ∈ l ∨ ∃ y, y ∈ l ∧ x = f y.
Proof.
  induction l as [|y l IH]; simpl; [by left|]. destruct (p y).
  - intros [->|H]%elem_of_cons; [right; exists y; split; [by left|done]|left; by right].
  - intros [->|H]%elem_of_cons; [left; by left|].
    destruct (IH H) as [?|(z & ? & ?)]; [left; by right|right; exists z; split; [by right|done]].
Qed.

Lemma remember_keeps L observation : keeps_trials L (remember_outputs L observation).
Proof.
  unfold remember_outputs. apply (keeps_trials_components L (λ _, _)). fold (components_of L).
  assert (Hops : ∀ ops cs c t, c ∈ foldl (remember_operation L observation) cs ops → wa_trial c = Some t →
            ∃ d, d ∈ cs ∧ wa_trial d = Some t).
  { induction ops as [|op ops IH]; intros cs c t Hc Ht; simpl in Hc; [by exists c|].
    destruct (IH _ _ _ Hc Ht) as (d & Hd & Hdt). unfold remember_operation in Hd.
    case_bool_decide; [by exists d|]. apply replace_first_elem in Hd as [Hd|(e & He & ->)]; [by exists d|].
    exists e. split; [done|]. revert Hdt. case_match; done. }
  assert (Houts : ∀ outs cs c t, c ∈ foldl (remember_output L observation) cs outs → wa_trial c = Some t →
            ∃ d, d ∈ cs ∧ wa_trial d = Some t).
  { induction outs as [|out outs IH]; intros cs c t Hc Ht; simpl in Hc; [by exists c|].
    destruct (IH _ _ _ Hc Ht) as (d & Hd & Hdt). unfold remember_output in Hd.
    destruct (_ || _) in Hd; [by exists d|]. apply elem_of_app in Hd as [Hd|Hd]; [by exists d|].
    apply list_elem_of_singleton in Hd as ->. unfold new_component, observe_witness in Hdt. by rewrite observe_trial in Hdt. }
  intros c t Hc Ht. destruct (Houts _ _ _ _ Hc Ht) as (d & Hd & Hdt).
  apply list_elem_of_In, List.filter_In in Hd as [Hd _]. apply list_elem_of_In in Hd. by eapply Hops.
Qed.

Lemma start_trial_book n L L1 index trial :
  trial_book n L → keeps_trials L L1 → Z.of_nat n < u64_max →
  wt_id trial = sat_add (was_next_trial (lg_word_adjudication L1)) 1 →
  trial_book (S n) (start_trial trial index L1).
Proof.
  intros (B1 & B2 & B3 & B4 & B5) (H1 & H2 & H3 & H4) Hn Hid. rewrite H1 in Hid.
  assert (Hid' : wt_id trial = was_next_trial (lg_word_adjudication L) + 1) by (rewrite Hid; mach).
  unfold trial_book, start_trial. cbn. rewrite H2, H3, Hid'. split_and!; [lia|lia| | | |].
  - rewrite map_app. apply NoDup_app. split_and!; [done| |apply NoDup_singleton].
    intros id (t & -> & Ht)%list_elem_of_fmap Heq%list_elem_of_singleton. destruct (B3 t Ht). lia.
  - intros t [Ht|Ht]%elem_of_app; [destruct (B3 t Ht); split; [lia|done]|].
    apply list_elem_of_singleton in Ht as ->. split; [lia|]. destruct (was_closed_trials _ !! _) eqn:Hc; [|done].
    specialize (B4 _ (mk_is_Some _ _ Hc)). lia.
  - intros id Hid2. specialize (B4 id Hid2). lia.
  - intros c t Hc Ht. unfold components_of in Hc. cbn in Hc. apply list_elem_of_lookup in Hc as (i & Hi).
    rewrite list_lookup_alter in Hi. case_decide.
    + apply fmap_Some in Hi as (d & _ & ->). simpl in Ht. simplify_eq. apply elem_of_app. right. by left.
    + apply list_elem_of_lookup_2 in Hi.
      destruct (H4 c t Hi Ht) as (d & Hd & Hdt). apply elem_of_app. left. by apply (B5 d).
Qed.

Lemma group_keeps L index sources L1 i1 : group_word_trial_component L index sources = Some (L1, i1) → keeps_trials L L1.
Proof.
  unfold group_word_trial_component. destruct (components_of L !! index); [|done].
  case_bool_decide; [by intros [= <- <-]|]. destruct (component_for_sources _ _ _) as [g|] eqn:Hg; [|done].
  intros [= <- <-]. apply (keeps_trials_components L (λ _, _)). intros c t [Hc|Hc]%elem_of_app Ht.
  - exists c. split; [|done]. apply list_elem_of_In, List.filter_In in Hc as [Hc _]. by apply list_elem_of_In.
  - apply list_elem_of_singleton in Hc as ->. apply component_for_sources_trial in Hg. congruence.
Qed.

Lemma NoDup_map_filter {A B} (f : A → B) p l : NoDup (map f l) → NoDup (map f (List.filter p l)).
Proof.
  induction l as [|x l IH]; simpl; [done|]. intros [Hx Hl]%NoDup_cons. destruct (p x); [|by apply IH].
  simpl. apply NoDup_cons. split; [|by apply IH]. intros (y & Hy & Hin)%list_elem_of_fmap. apply Hx.
  apply list_elem_of_fmap. exists y. split; [done|]. apply list_elem_of_In, List.filter_In in Hin as [Hin _].
  by apply list_elem_of_In.
Qed.

Lemma NoDup_map_inj {A B} (f : A → B) l x y : NoDup (map f l) → x ∈ l → y ∈ l → f x = f y → x = y.
Proof.
  induction l as [|z l IH]; simpl; [by intros _ ?%elem_of_nil|]. intros [Hz Hl]%NoDup_cons.
  assert (Hno : ∀ w, w ∈ l → f w ≠ f z).
  { intros w Hw Heq. apply Hz. apply list_elem_of_fmap. by exists w. }
  intros [->|Hx]%elem_of_cons [->|Hy]%elem_of_cons Heq; [done| | |by apply IH].
  - by destruct (Hno y Hy).
  - by destruct (Hno x Hx).
Qed.

Lemma trial_step_book {tables : CharTables} (trial_digest : WordTrial → list Z) n L L' :
  trial_step trial_digest L L' → Z.of_nat n < u64_max → trial_book n L → trial_book (S n) L'.
Proof.
  intros Hstep Hn Hbook. destruct Hstep as [L stopping coverage context horizon fresh|L trial reason Hissued|L trial L' Hr|L o s u|L o|L input].
  - unfold select_word_trial. destruct (max_by_key _ _ _) as [[index sources]|]; [|by apply (keeps_trials_book n L)].
    destruct (group_word_trial_component _ _ _) as [[L1 i1]|] eqn:Hg; [|by apply (keeps_trials_book n L)].
    apply group_keeps in Hg. unfold open_word_trial.
    destruct (components_of L1 !! i1); [|by apply (keeps_trials_book n L)].
    destruct (negb _); [by apply (keeps_trials_book n L)|]. by eapply start_trial_book.
  - unfold close_word_trial. case_bool_decide as Hclosed; [by apply (keeps_trials_book n L)|].
    destruct Hissued as [Hactive|]; [|done]. destruct Hbook as (B1 & B2 & B3 & B4 & B5).
    unfold trial_book. cbn. split_and!; [lia|lia| | | |].
    + by apply NoDup_map_filter.
    + intros t Ht. apply list_elem_of_In, List.filter_In in Ht as [Ht Hne]. apply list_elem_of_In in Ht.
      destruct (B3 t Ht) as [Hle Hnone]. split; [done|]. rewrite lookup_insert_ne; [done|].
      intros Heq. zbool. apply Hne. by eapply (NoDup_map_inj wt_id).
    + intros id. destruct (decide (id = wt_id trial)) as [->|Hne]; [intros _; by apply B3|].
      rewrite lookup_insert_ne by done. apply B4.
    + intros c t Hc Ht. apply list_elem_of_fmap in Hc as (d & -> & Hd).
      unfold close_component in Ht. case_bool_decide as Hdt; [done|].
      apply list_elem_of_In, List.filter_In. split; [apply list_elem_of_In; by apply (B5 d)|].
      apply negb_true_iff, bool_decide_eq_false. congruence.
  - unfold restore_word_trial in Hr. case_bool_decide; [simplify_eq; by apply (keeps_trials_book n L')|].
    destruct (was_closed_trials _ !! _) eqn:Hc.
    { case_bool_decide; [|done]. simplify_eq. by apply (keeps_trials_book n L'). }
    destruct (_ || _); [done|]. destruct (negb _) eqn:Hid; [done|].
    destruct (restore_index L trial) as [index|]; [|done].
    destruct (group_word_trial_component L index _) as [[L1 i1]|] eqn:Hg; [|done]. simplify_eq.
    apply group_keeps in Hg. eapply start_trial_book; [done|done|done|]. zbool. destruct Hg as (-> & _). done.
  - eapply keeps_trials_book; [|done]. apply adjudicate_keeps.
  - eapply keeps_trials_book; [|done]. apply remember_keeps.
  - eapply keeps_trials_book; [|done]. repeat split. intros c t Hc Ht. by exists c.
Qed.

(* ------------------------------------------------------------------ *)
(** ** Properties *)



(* ------------------------------------------------------------------ *)
(** ** Witnesses *)

Section example.
Let o := mkOccurrence "s" 1 0 48000.
Let heard := mkObservation Whisper 1 0 o.

Definition example_slot (start end_ : Z) (text : string) : WordSlot :=
    mkWordSlot start end_ text Whisper heard Unwitnessed None false.

Definition example_hypothesis (decode : Z * Z) (raw : string) : WordHypothesis :=
    mkHypothesis None (mkObservation Whisper (decode.1) 0 o)
      [mkSourceWord None 16000 20000 (Some raw) raw None false (Some decode)]
      [slot_target_of (example_slot 16000 20000 "kot")] (Some decode) (Some raw) raw None "final" "capture_word_pins"
      true true 1000000.

Definition example_component (slot : WordSlot) (conflict : bool) (whisper : list WordHypothesis) : WordAdjudication :=
    mkAdjudication o [slot_target_of slot] (example_hypothesis (0, 48000) (ws_text slot)) [] whisper ∅ conflict
      false false None None.

  (** Two words that overlap; the first is disputed by two frames. *)
Definition example_ledger : AcousticLedger :=
    let kot := example_slot 16000 20000 "kot" in
    let miau := example_slot 19000 23000 "miau" in
    ledger_new <| lg_committed := {[ o := mkCommitted Whisper 0 [kot; miau] "kot miau" ]} |>
               <| lg_word_pin_observations := {[ heard ]} |>
               <| lg_word_adjudication ::= λ w, w <| was_components :=
                    [example_component kot true [example_hypothesis (0, 48000) "kot"; example_hypothesis (1000, 47000) "pot"];
                     example_component miau false []] |> |>.
End example.

Definition no_digest (_ : WordTrial) : list Z := [].

Lemma example_disjoint : components_disjoint example_ledger.
Proof.
  intros i j a b Ha Hb _ (t & Hta & Htb).
  destruct i as [|[|i]], j as [|[|j]]; try done; simplify_eq/=;
    repeat match goal with H : t ∈ _ |- _ => apply list_elem_of_singleton in H end; subst; discriminate.
Qed.



