(* ===== verification/HotkeyConfig.v ===== *)
(** HotkeyConfig: the hotkey settings and their runtime mirror
    (core/config/types.rs, the hotkey enums; app/os/hotkeys/config.rs).

    The runtime keeps every setting in an atomic; [Atomics] is their joint
    value.  One u16 packs the three mode bindings, the channel modifier and the
    Fn-tap flag, one u32 the widget chord. *)

From S2P Require Import Prelude.
From S2P Require Import Text.
#[local] Open Scope Z_scope.

(* ------------------------------------------------------------------ *)
(** ** Settings *)

Inductive WorkMode := Dictation | Formatting | Assistive.

Inductive ShortcutBinding :=
  | BindDisabled | HoldFn | HoldCtrl | HoldCtrlAlt | HoldCtrlShift | HoldCtrlCmd
  | DoubleCtrl | DoubleLeftOption | DoubleRightOption.

#[global] Instance ShortcutBinding_eq_dec : EqDecision ShortcutBinding.
Proof. solve_decision. Defined.

Inductive DeferredInsertShortcut :=
  | InsertDisabled | CommandOptionV | CommandShiftV | CommandControlV.

#[global] Instance DeferredInsertShortcut_eq_dec : EqDecision DeferredInsertShortcut.
Proof. solve_decision. Defined.

Inductive HoldArmModifier := ArmShift | ArmCmd.

#[global] Instance HoldArmModifier_eq_dec : EqDecision HoldArmModifier.
Proof. solve_decision. Defined.

Inductive ChannelModifier := ChannelCtrl | ChannelFn | ChannelOff.

#[global] Instance ChannelModifier_eq_dec : EqDecision ChannelModifier.
Proof. solve_decision. Defined.

(** [Letter] holds an ASCII uppercase byte. *)
Inductive WidgetShortcutKey := Letter (letter : Z) | SpaceKey.

#[global] Instance WidgetShortcutKey_eq_dec : EqDecision WidgetShortcutKey.
Proof. solve_decision. Defined.

Record WidgetShortcut := mkWidget {
  wg_ctrl : bool;
  wg_option : bool;
  wg_cmd : bool;
  wg_shift : bool;
  wg_key : WidgetShortcutKey
}.

#[global] Instance WidgetShortcut_eq_dec : EqDecision WidgetShortcut.
Proof. solve_decision. Defined.

Definition WidgetShortcut_default : WidgetShortcut := mkWidget true false false true (Letter 66).

(** Whether the detector can start a mode from a gesture. *)
Definition mode_binding_reachable (mode : WorkMode) (binding : ShortcutBinding) : bool :=
  match binding with
  | BindDisabled => true
  | HoldFn | HoldCtrl | HoldCtrlAlt | HoldCtrlShift | HoldCtrlCmd | DoubleCtrl =>
      match mode with Dictation => true | _ => false end
  | DoubleLeftOption => match mode with Formatting => true | _ => false end
  | DoubleRightOption => match mode with Assistive => true | _ => false end
  end.

Definition records_with_fn (b : ShortcutBinding) : bool :=
  match b with HoldFn => true | _ => false end.

Definition records_with_ctrl (b : ShortcutBinding) : bool :=
  match b with
  | HoldCtrl | HoldCtrlAlt | HoldCtrlShift | HoldCtrlCmd | DoubleCtrl => true
  | _ => false
  end.

Record RecordingKeys := mkRecordingKeys {
  rk_fn_key : bool;
  rk_fn_binding : bool;
  rk_ctrl : bool
}.

Definition from_bindings (bindings : list ShortcutBinding) (fn_tap : bool) : RecordingKeys :=
  let fn_binding := existsb records_with_fn bindings in
  mkRecordingKeys (fn_binding || fn_tap) fn_binding (existsb records_with_ctrl bindings).

(** A key that records gives way to the other; [ChannelOff] when both record. *)
Definition channel_modifier_for (keys : RecordingKeys) (requested : ChannelModifier)
    : ChannelModifier :=
  match requested with
  | ChannelFn =>
      if rk_fn_key keys then (if rk_ctrl keys then ChannelOff else ChannelCtrl) else ChannelFn
  | ChannelCtrl =>
      if rk_ctrl keys then (if rk_fn_key keys then ChannelOff else ChannelFn) else ChannelCtrl
  | ChannelOff => ChannelOff
  end.

(* ------------------------------------------------------------------ *)
(** ** The widget chord on the wire *)

Definition wire_token (k : WidgetShortcutKey) : string :=
  match k with
  | SpaceKey => "space"
  | Letter letter => String (ascii_lower (Ascii.ascii_of_N (Z.to_N letter))) ""
  end.

(** Canonical token: modifiers in the order ctrl, option, cmd, shift, then the
    key. *)
Definition widget_wire_id (w : WidgetShortcut) : string :=
  String.concat "+"
    ((if wg_ctrl w then ["ctrl"%string] else []) ++ (if wg_option w then ["option"%string] else [])
     ++ (if wg_cmd w then ["cmd"%string] else []) ++ (if wg_shift w then ["shift"%string] else [])
     ++ [wire_token (wg_key w)]).

Definition plus_char : Ascii.ascii := Ascii.ascii_of_nat 43.

(** [split('+')]. *)
Fixpoint split_plus (s : string) : list string :=
  match s with
  | EmptyString => [""%string]
  | String c s' =>
      if Ascii.eqb c plus_char then ""%string :: split_plus s'
      else match split_plus s' with
           | [] => [String c ""]
           | t :: ts => String c t :: ts
           end
  end.

Definition widget_validate (w : WidgetShortcut) : string + WidgetShortcut :=
  if negb (wg_ctrl w || wg_option w || wg_cmd w)
  then inl "Widget shortcut needs Control, Option or Command: a plain or Shift-only key types"%string
  else if wg_cmd w && wg_shift w && negb (wg_ctrl w) && negb (wg_option w)
          && bool_decide (wg_key w = SpaceKey)
  then inl "Command+Shift+Space already summons the Agent window"%string
  else inr w.

Definition letter_token (token : string) : option Z :=
  match token with
  | String c EmptyString =>
      let v := ascii_val c in
      if (97 <=? v) && (v <=? 122) then Some (v - 32) else None
  | _ => None
  end.

(** One token, over the chord and the key read so far. *)
Definition widget_token (state : WidgetShortcut * option WidgetShortcutKey) (token : string)
    : string + WidgetShortcut * option WidgetShortcutKey :=
  let '(w, key) := state in
  if existsb (String.eqb token) ["ctrl"; "control"]%string
  then inr (w <| wg_ctrl := true |>, key)
  else if existsb (String.eqb token) ["option"; "alt"; "opt"]%string
  then inr (w <| wg_option := true |>, key)
  else if existsb (String.eqb token) ["cmd"; "command"]%string
  then inr (w <| wg_cmd := true |>, key)
  else if String.eqb token "shift" then inr (w <| wg_shift := true |>, key)
  else if String.eqb token "space" then inr (w, Some SpaceKey)
  else match letter_token token with
       | Some letter => inr (w, Some (Letter letter))
       | None => inl ("Unknown widget shortcut token: " +:+ token)%string
       end.

Fixpoint widget_tokens (state : WidgetShortcut * option WidgetShortcutKey) (tokens : list string)
    : string + WidgetShortcut * option WidgetShortcutKey :=
  match tokens with
  | [] => inr state
  | token :: rest =>
      match widget_token state token with
      | inl e => inl e
      | inr state' => widget_tokens state' rest
      end
  end.

(** [FromStr]; the texts of the errors that quote their input are shortened. *)
Definition widget_from_str (value : string) : string + WidgetShortcut :=
  let tokens := map (λ t, to_ascii_lowercase (trim t)) (split_plus value) in
  match widget_tokens (mkWidget false false false false SpaceKey, None) tokens with
  | inl e => inl e
  | inr (w, None) => inl "Widget shortcut names no key (a letter or space)"%string
  | inr (w, Some key) => widget_validate (w <| wg_key := key |>)
  end.

(* ------------------------------------------------------------------ *)
(** ** Packed atomics *)

Record ModeHotkeyBindings := mkBindings {
  mb_dictation : ShortcutBinding;
  mb_formatting : ShortcutBinding;
  mb_assistive : ShortcutBinding
}.

#[global] Instance ModeHotkeyBindings_eq_dec : EqDecision ModeHotkeyBindings.
Proof. solve_decision. Defined.

Record HotkeyRuntimeConfig := mkHotkeyConfig {
  hc_mode_bindings : ModeHotkeyBindings;
  hc_hold_exclusive : bool;
  hc_hold_arm_modifier : HoldArmModifier;
  hc_hold_start_delay_ms : Z;
  hc_double_tap_interval_ms : Z;
  hc_deferred_insert_shortcut : DeferredInsertShortcut;
  hc_channel_modifier : ChannelModifier;
  hc_widget_shortcut : WidgetShortcut;
  hc_fn_tap_toggles_dictation : bool;
  hc_middle_mouse_acts_as_fn : bool;
  hc_middle_mouse_agent_gesture : bool
}.

#[global] Instance HotkeyRuntimeConfig_eq_dec : EqDecision HotkeyRuntimeConfig.
Proof. solve_decision. Defined.

Definition encode_shortcut_binding (b : ShortcutBinding) : Z :=
  match b with
  | BindDisabled => 0 | HoldFn => 1 | HoldCtrl => 2 | HoldCtrlAlt => 3 | HoldCtrlShift => 4
  | HoldCtrlCmd => 5 | DoubleCtrl => 6 | DoubleLeftOption => 7 | DoubleRightOption => 8
  end.

Definition decode_shortcut_binding (value : Z) : ShortcutBinding :=
  match value with
  | 0 => BindDisabled | 1 => HoldFn | 2 => HoldCtrl | 3 => HoldCtrlAlt | 4 => HoldCtrlShift
  | 5 => HoldCtrlCmd | 6 => DoubleCtrl | 7 => DoubleLeftOption | 8 => DoubleRightOption
  | _ => BindDisabled
  end.

Definition encode_mode_hotkey_bindings (b : ModeHotkeyBindings) : Z :=
  Z.lor (Z.lor (encode_shortcut_binding (mb_dictation b))
               (Z.shiftl (encode_shortcut_binding (mb_formatting b)) 4))
        (Z.shiftl (encode_shortcut_binding (mb_assistive b)) 8).

Definition decode_mode_hotkey_bindings (raw : Z) : ModeHotkeyBindings :=
  mkBindings (decode_shortcut_binding (Z.land raw 15))
    (decode_shortcut_binding (Z.land (Z.shiftr raw 4) 15))
    (decode_shortcut_binding (Z.land (Z.shiftr raw 8) 15)).

Definition encode_hold_arm_modifier (a : HoldArmModifier) : Z :=
  match a with ArmShift => 0 | ArmCmd => 1 end.

Definition decode_hold_arm_modifier (value : Z) : HoldArmModifier :=
  match value with 1 => ArmCmd | _ => ArmShift end.

Definition encode_deferred_insert_shortcut (s : DeferredInsertShortcut) : Z :=
  match s with
  | InsertDisabled => 0 | CommandOptionV => 1 | CommandShiftV => 2 | CommandControlV => 3
  end.

Definition decode_deferred_insert_shortcut (value : Z) : DeferredInsertShortcut :=
  match value with
  | 1 => CommandOptionV | 2 => CommandShiftV | 3 => CommandControlV | _ => InsertDisabled
  end.

Definition encode_channel_modifier (m : ChannelModifier) : Z :=
  match m with ChannelCtrl => 0 | ChannelFn => 1 | ChannelOff => 2 end.

Definition decode_channel_modifier (value : Z) : ChannelModifier :=
  match value with 1 => ChannelFn | 2 => ChannelOff | _ => ChannelCtrl end.

Definition encode_widget_shortcut (w : WidgetShortcut) : Z :=
  let key := match wg_key w with SpaceKey => 0 | Letter letter => letter end in
  let bit (b : bool) (n : Z) := Z.shiftl (Z.b2z b) n in
  Z.lor (Z.lor (Z.lor (Z.lor (bit (wg_ctrl w) 8) (bit (wg_option w) 9)) (bit (wg_cmd w) 10))
               (bit (wg_shift w) 11)) key.

Definition decode_widget_shortcut (value : Z) : WidgetShortcut :=
  let byte := Z.land value 255 in
  let with_key key :=
    mkWidget (Z.testbit value 8) (Z.testbit value 9) (Z.testbit value 10) (Z.testbit value 11) key in
  if byte =? 0 then with_key SpaceKey
  else if (65 <=? byte) && (byte <=? 90) then with_key (Letter byte)
  else WidgetShortcut_default.

(** The process-global atomics. *)
Record Atomics := mkAtomics {
  at_gestures : Z;
  at_exclusive : bool;
  at_arm : Z;
  at_hold_delay : Z;
  at_interval : Z;
  at_deferred_insert : Z;
  at_widget : Z;
  at_middle_fn : bool;
  at_middle_gesture : bool
}.

Definition MODE_BINDINGS_MASK : Z := 4095.
Definition CHANNEL_MODIFIER_MASK : Z := 12288.
Definition FN_TAP_MASK : Z := 16384.

(** [(current & !mask) | value] on a u16. *)
Definition update_gesture_bits (a : Atomics) (mask value : Z) : Atomics :=
  a <| at_gestures := Z.lor (Z.land (at_gestures a) (65535 - mask)) value |>.

Definition set_mode_hotkey_bindings (a : Atomics) (b : ModeHotkeyBindings) : Atomics :=
  update_gesture_bits a MODE_BINDINGS_MASK (encode_mode_hotkey_bindings b).

Definition set_channel_modifier (a : Atomics) (m : ChannelModifier) : Atomics :=
  update_gesture_bits a CHANNEL_MODIFIER_MASK (Z.shiftl (encode_channel_modifier m) 12).

Definition clamp_interval (ms : Z) : Z := Z.max 100 (Z.min ms 450).

Definition set_double_tap_interval_ms (a : Atomics) (ms : Z) : Atomics :=
  a <| at_interval := clamp_interval ms |>.

Definition set_exclusive_mode (a : Atomics) (enabled : bool) : Atomics :=
  a <| at_exclusive := enabled |>.

Definition set_hold_arm_modifier (a : Atomics) (arm : HoldArmModifier) : Atomics :=
  a <| at_arm := encode_hold_arm_modifier arm |>.

Definition set_hold_start_delay_ms (a : Atomics) (ms : Z) : Atomics := a <| at_hold_delay := ms |>.

Definition set_deferred_insert_shortcut (a : Atomics) (s : DeferredInsertShortcut) : Atomics :=
  a <| at_deferred_insert := encode_deferred_insert_shortcut s |>.

Definition set_widget_shortcut (a : Atomics) (w : WidgetShortcut) : Atomics :=
  a <| at_widget := encode_widget_shortcut w |>.

Definition set_middle_mouse_acts_as_fn (a : Atomics) (enabled : bool) : Atomics :=
  a <| at_middle_fn := enabled |>.

Definition set_middle_mouse_agent_gesture (a : Atomics) (enabled : bool) : Atomics :=
  a <| at_middle_gesture := enabled |>.

Definition get_hotkey_runtime_config (a : Atomics) : HotkeyRuntimeConfig :=
  mkHotkeyConfig (decode_mode_hotkey_bindings (at_gestures a)) (at_exclusive a)
    (decode_hold_arm_modifier (at_arm a)) (at_hold_delay a) (at_interval a)
    (decode_deferred_insert_shortcut (at_deferred_insert a))
    (decode_channel_modifier (Z.shiftr (Z.land (at_gestures a) CHANNEL_MODIFIER_MASK) 12))
    (decode_widget_shortcut (at_widget a))
    (negb (Z.land (at_gestures a) FN_TAP_MASK =? 0))
    (at_middle_fn a) (at_middle_gesture a).

(** The snapshot a write is compared with and stores. *)
Definition normalized (c : HotkeyRuntimeConfig) : HotkeyRuntimeConfig :=
  c <| hc_double_tap_interval_ms := clamp_interval (hc_double_tap_interval_ms c) |>.

Definition pack_gestures (c : HotkeyRuntimeConfig) : Z :=
  Z.lor (Z.lor (encode_mode_hotkey_bindings (hc_mode_bindings c))
               (Z.shiftl (encode_channel_modifier (hc_channel_modifier c)) 12))
        (if hc_fn_tap_toggles_dictation c then FN_TAP_MASK else 0).

(** The stores of an apply, in the code's order. *)
Definition store_hotkey_config (a : Atomics) (c : HotkeyRuntimeConfig) : Atomics :=
  let a := a <| at_gestures := pack_gestures c |> in
  let a := set_exclusive_mode a (hc_hold_exclusive c) in
  let a := set_hold_arm_modifier a (hc_hold_arm_modifier c) in
  let a := set_hold_start_delay_ms a (hc_hold_start_delay_ms c) in
  let a := set_double_tap_interval_ms a (hc_double_tap_interval_ms c) in
  let a := set_deferred_insert_shortcut a (hc_deferred_insert_shortcut c) in
  let a := set_widget_shortcut a (hc_widget_shortcut c) in
  let a := set_middle_mouse_acts_as_fn a (hc_middle_mouse_acts_as_fn c) in
  set_middle_mouse_agent_gesture a (hc_middle_mouse_agent_gesture c).

(** Whether the apply writes, and the atomics after it. *)
Definition apply_hotkey_runtime_config (a : Atomics) (config : HotkeyRuntimeConfig)
    : bool * Atomics :=
  let c := normalized config in
  if bool_decide (get_hotkey_runtime_config a = c) then (false, a)
  else (true, store_hotkey_config a c).

(** The boot packing of bindings: Fn hold, left Option, right Option. *)
Definition DEFAULT_MODE_BINDINGS_ENCODED : Z := Z.lor (Z.lor 1 (Z.shiftl 7 4)) (Z.shiftl 8 8).

(* ------------------------------------------------------------------ *)
(** ** Round trips *)

Definition widget_wf (w : WidgetShortcut) : Prop :=
  match wg_key w with Letter l => 65 <= l <= 90 | SpaceKey => True end.

(** A property of every letter, by evaluation. *)
Lemma letters_forall (P : Z → bool) :
  forallb P (map (λ n, 65 + Z.of_nat n) (seq 0 26)) = true → ∀ l, 65 <= l <= 90 → P l = true.
Proof.
  intros H l Hl. rewrite forallb_true in H. apply H, list_elem_of_fmap.
  exists (Z.to_nat (l - 65)). split; [lia|]. apply elem_of_seq. lia.
Qed.

Lemma widget_decode_encode w : widget_wf w → decode_widget_shortcut (encode_widget_shortcut w) = w.
Proof.
  destruct w as [c o m s [l|]]; unfold widget_wf; simpl; intros Hl.
  - pose proof (letters_forall (λ l, bool_decide (decode_widget_shortcut (encode_widget_shortcut
      (mkWidget c o m s (Letter l))) = mkWidget c o m s (Letter l)))) as H.
    cbv beta in H. specialize (H ltac:(destruct c, o, m, s; vm_compute; reflexivity) l Hl).
    by apply bool_decide_eq_true in H.
  - destruct c, o, m, s; vm_compute; reflexivity.
Qed.

Lemma gestures_decode_pack c :
  decode_mode_hotkey_bindings (pack_gestures c) = hc_mode_bindings c ∧
  decode_channel_modifier (Z.shiftr (Z.land (pack_gestures c) CHANNEL_MODIFIER_MASK) 12)
    = hc_channel_modifier c ∧
  negb (Z.land (pack_gestures c) FN_TAP_MASK =? 0) = hc_fn_tap_toggles_dictation c.
Proof.
  unfold pack_gestures. destruct c as [[d f a] ex arm hd it ins ch w tap mf mg]. cbn.
  destruct d, f, a, ch, tap; vm_compute; auto.
Qed.

(** applying a configuration makes the runtime snapshot equal to it, with
    the double-tap interval clamped to 100..450 ms, whatever the atomics held;
    an apply that changes nothing writes nothing, so applying twice writes at
    most once. *)
Theorem apply_config_roundtrip a config
    (Hwidget : widget_wf (hc_widget_shortcut config)) :
  let '(wrote, a') := apply_hotkey_runtime_config a config in
  get_hotkey_runtime_config a' = normalized config ∧
  100 <= hc_double_tap_interval_ms (get_hotkey_runtime_config a') <= 450 ∧
  (wrote = false ↔ get_hotkey_runtime_config a = normalized config) ∧
  apply_hotkey_runtime_config a' config = (false, a').
Proof.
  assert (Hclamp : ∀ z, 100 <= clamp_interval z <= 450) by (intros; unfold clamp_interval; lia).
  assert (Hid : ∀ z, clamp_interval (clamp_interval z) = clamp_interval z)
    by (intros; unfold clamp_interval; lia).
  unfold apply_hotkey_runtime_config at 1. case_bool_decide as Heq.
  - split; [done|]. split; [rewrite Heq; apply Hclamp|]. split; [done|].
    unfold apply_hotkey_runtime_config. by rewrite bool_decide_true.
  - set (a' := store_hotkey_config a (normalized config)).
    assert (Hget : get_hotkey_runtime_config a' = normalized config).
    { destruct (gestures_decode_pack (normalized config)) as (H1 & H2 & H3).
      assert (Ha : a' = mkAtomics (pack_gestures (normalized config)) (hc_hold_exclusive config)
        (encode_hold_arm_modifier (hc_hold_arm_modifier config)) (hc_hold_start_delay_ms config)
        (clamp_interval (hc_double_tap_interval_ms (normalized config)))
        (encode_deferred_insert_shortcut (hc_deferred_insert_shortcut config))
        (encode_widget_shortcut (hc_widget_shortcut config)) (hc_middle_mouse_acts_as_fn config)
        (hc_middle_mouse_agent_gesture config)) by (by destruct a).
      rewrite Ha. unfold get_hotkey_runtime_config. cbn [at_gestures at_exclusive at_arm at_hold_delay
        at_interval at_deferred_insert at_widget at_middle_fn at_middle_gesture].
      rewrite H1, H2, H3, widget_decode_encode by done.
      destruct config as [b ex arm hd it ins ch w tap mf mg]. unfold normalized. cbn.
      rewrite Hid. destruct arm, ins; reflexivity. }
    split; [done|]. split; [rewrite Hget; apply Hclamp|]. split; [split; [done|congruence]|].
    unfold apply_hotkey_runtime_config. by rewrite bool_decide_true.
Qed.


(** one key, one role: the modifier in effect for a channel digit is never a
    key that records dictation, and it is the requested one whenever that key
    does not record. *)
Theorem channel_modifier_exclusive bindings fn_tap requested :
  let keys := from_bindings bindings fn_tap in
  let m := channel_modifier_for keys requested in
  (m = ChannelFn → rk_fn_key keys = false ∧ fn_tap = false ∧ ∀ b, b ∈ bindings → b ≠ HoldFn) ∧
  (m = ChannelCtrl → ∀ b, b ∈ bindings → records_with_ctrl b = false) ∧
  (m = ChannelOff → requested = ChannelOff ∨ (rk_fn_key keys = true ∧ rk_ctrl keys = true)) ∧
  (requested = ChannelFn → rk_fn_key keys = false → m = ChannelFn) ∧
  (requested = ChannelCtrl → rk_ctrl keys = false → m = ChannelCtrl).
Proof.
  intros keys m.
  assert (Hfn : rk_fn_key keys = false → fn_tap = false ∧ ∀ b, b ∈ bindings → b ≠ HoldFn).
  { unfold keys, from_bindings. simpl. intros H. apply orb_false_iff in H as [H ->]. split; [done|].
    rewrite existsb_false in H. intros b Hb ->. by specialize (H _ Hb). }
  assert (Hct : rk_ctrl keys = false → ∀ b, b ∈ bindings → records_with_ctrl b = false).
  { unfold keys, from_bindings. simpl. by rewrite existsb_false. }
  unfold m, channel_modifier_for.
  destruct requested, (rk_fn_key keys) eqn:Hf, (rk_ctrl keys) eqn:Hc; naive_solver.
Qed.

#[global] Instance sum_eq_dec' : EqDecision (string + WidgetShortcut).
Proof. solve_decision. Defined.

(** reading a widget chord's wire token back gives that chord when it is
    allowed, and the refusal the recorder gives when it is not: parsing and
    recording never disagree. *)
Theorem widget_wire_roundtrip w
    (Hwidget : widget_wf w) :
  widget_from_str (widget_wire_id w) = widget_validate w ∧
  (widget_validate w = inr w ↔
     (wg_ctrl w || wg_option w || wg_cmd w = true) ∧
     w ≠ mkWidget false false true true SpaceKey).
Proof.
  destruct w as [c o m s key]. split.
  - destruct key as [l|]; unfold widget_wf in Hwidget; simpl in Hwidget.
    + pose proof (letters_forall (λ l, bool_decide (widget_from_str (widget_wire_id
        (mkWidget c o m s (Letter l))) = widget_validate (mkWidget c o m s (Letter l))))) as H.
      cbv beta in H. specialize (H ltac:(destruct c, o, m, s; vm_compute; reflexivity) l Hwidget).
      by apply bool_decide_eq_true in H.
    + destruct c, o, m, s; vm_compute; reflexivity.
  - unfold widget_validate. simpl.
    destruct c, o, m, s, key as [l|]; simpl; split; try naive_solver;
      intros [? H]; try done; case_bool_decide; naive_solver.
Qed.

(* ------------------------------------------------------------------ *)
(** ** Witnesses *)

(** A configuration with an interval out of range. *)
Definition ex_hotkeys : HotkeyRuntimeConfig :=
  mkHotkeyConfig (mkBindings HoldFn DoubleLeftOption DoubleRightOption) false ArmShift 800 900
    InsertDisabled ChannelCtrl WidgetShortcut_default false false false.

Definition ex_atomics : Atomics := mkAtomics DEFAULT_MODE_BINDINGS_ENCODED false 0 800 200 0 0 false false.

Lemma apply_config_roundtrip_witness :
  let '(wrote, a') := apply_hotkey_runtime_config ex_atomics ex_hotkeys in
  wrote = true ∧ hc_double_tap_interval_ms (get_hotkey_runtime_config a') = 450.
Proof.
  pose proof (apply_config_roundtrip ex_atomics ex_hotkeys) as H.
  assert (Hw : widget_wf (hc_widget_shortcut ex_hotkeys)) by (cbv; split; discriminate).
  specialize (H Hw). destruct (apply_hotkey_runtime_config ex_atomics ex_hotkeys) as [wrote a'] eqn:He.
  destruct H as (-> & _). split; [|reflexivity]. vm_compute in He. congruence.
Defined.

Lemma widget_wire_roundtrip_witness :
  widget_from_str "ctrl+shift+b" = inr WidgetShortcut_default.
Proof.
  assert (Hw : widget_wf WidgetShortcut_default) by (cbv; split; discriminate).
  exact (proj1 (widget_wire_roundtrip WidgetShortcut_default Hw)).
Defined.
