(* ===== verification/HotkeyDetector.v ===== *)
(** HotkeyDetector: the gesture state machine
    (app/os/hotkeys/detector.rs, [HotkeyDetector::feed] and [poll]).

    An [Instant] is a number of nanoseconds.  Log lines are left out: they
    change no field but [hd_wrong_arm_logged], which is kept. *)

From S2P Require Import Prelude.
From S2P Require Import HotkeyConfig.
#[local] Open Scope Z_scope.

(* ------------------------------------------------------------------ *)
(** ** Inputs and events *)

Definition TAP_MAX_MS : Z := 220.
Definition SCROLL_POINTS_PER_STEP : Z := 30.
Definition SCROLL_MAX_STEPS : Z := 5.

Inductive HoldAction := Down | Up.

#[global] Instance HoldAction_eq_dec : EqDecision HoldAction.
Proof. solve_decision. Defined.

Inductive HoldMode := Raw | Chat | Selection.

#[global] Instance HoldMode_eq_dec : EqDecision HoldMode.
Proof. solve_decision. Defined.

Inductive AgentGestureInput :=
  | MiddleClick | Scroll (steps : Z) | LeftClick | Cancel.

Inductive DoubleTapGesture := GestureLeftOption | GestureRightOption.
Inductive DoubleTapBlockReason := BindingDisabled | ModifierComboActive.

Definition gesture_token (g : DoubleTapGesture) : string :=
  match g with GestureLeftOption => "left_option" | GestureRightOption => "right_option" end.

Definition block_reason_token (r : DoubleTapBlockReason) : string :=
  match r with
  | BindingDisabled => "binding_disabled" | ModifierComboActive => "modifier_combo_active"
  end.

Definition blocked_double_tap_diagnostic_line (g : DoubleTapGesture) (r : DoubleTapBlockReason)
    : string :=
  ("blocked_double_tap gesture=" +:+ gesture_token g +:+ " reason=" +:+ block_reason_token r)%string.

Inductive HotkeyEvent :=
  | ShowAgent
  | ToggleWidget
  | InsertHere
  | Hold (action : HoldAction) (mode : HoldMode)
  | HoldUpdate (mode : HoldMode)
  | AttachSelection
  | ToggleNormal
  | ToggleRaw
  | ToggleAssistive
  | AgentChannel (digit : Z)
  | DoubleTapBlocked (gesture : DoubleTapGesture) (reason : DoubleTapBlockReason)
  | AgentGesture (input : AgentGestureInput).

Record ModifierFlags := mkFlags {
  mf_ctrl : bool; mf_alt : bool; mf_shift : bool; mf_cmd : bool
}.

Definition flags_match (self required : ModifierFlags) (exclusive : bool) : bool :=
  if exclusive then
    Bool.eqb (mf_ctrl self) (mf_ctrl required) && Bool.eqb (mf_alt self) (mf_alt required)
    && Bool.eqb (mf_shift self) (mf_shift required) && Bool.eqb (mf_cmd self) (mf_cmd required)
  else
    (negb (mf_ctrl required) || mf_ctrl self) && (negb (mf_alt required) || mf_alt self)
    && (negb (mf_shift required) || mf_shift self) && (negb (mf_cmd required) || mf_cmd self).

Record HotkeyModifierSnapshot := mkMods {
  ms_ctrl : bool; ms_option : bool; ms_shift : bool; ms_cmd : bool; ms_fn_key : bool
}.

Inductive HotkeyPhysicalKey :=
  | KLeftOption | KRightOption | KLeftControl | KRightControl | KFn | KSpace | KV
  | KLetter (letter : Z) | KDigit (digit : Z) | KOther.

#[global] Instance HotkeyPhysicalKey_eq_dec : EqDecision HotkeyPhysicalKey.
Proof. solve_decision. Defined.

Definition is_option (k : HotkeyPhysicalKey) : bool :=
  match k with KLeftOption | KRightOption => true | _ => false end.

Definition is_right_option (k : HotkeyPhysicalKey) : bool :=
  match k with KRightOption => true | _ => false end.

Definition is_ctrl (k : HotkeyPhysicalKey) : bool :=
  match k with KLeftControl | KRightControl => true | _ => false end.

Inductive HotkeyDetectorInput :=
  | KeyDown (now : Z) (key : HotkeyPhysicalKey) (modifiers : HotkeyModifierSnapshot)
  | KeyUp (key : HotkeyPhysicalKey) (modifiers : HotkeyModifierSnapshot)
  | FlagsChanged (now : Z) (key : HotkeyPhysicalKey) (modifiers : HotkeyModifierSnapshot)
  | MiddleButton (now : Z) (pressed : bool) (modifiers : HotkeyModifierSnapshot)
  | ScrollWheel (lines points : Z) (continuous momentum : bool).

Definition digit_from_virtual_keycode (keycode : Z) : option Z :=
  match keycode with
  | 29 => Some 0 | 18 => Some 1 | 19 => Some 2 | 20 => Some 3 | 21 => Some 4 | 23 => Some 5
  | 22 => Some 6 | 26 => Some 7 | 28 => Some 8 | 25 => Some 9
  | 82 => Some 0 | 83 => Some 1 | 84 => Some 2 | 85 => Some 3 | 86 => Some 4 | 87 => Some 5
  | 88 => Some 6 | 89 => Some 7 | 91 => Some 8 | 92 => Some 9
  | _ => None
  end.

(* ------------------------------------------------------------------ *)
(** ** State *)

Record HotkeyDetector := mkDetector {
  hd_hold_active : bool;
  hd_hold_active_ts : option Z;
  hd_hold_mode : HoldMode;
  hd_hold_event_sent : bool;
  hd_last_left_tap_ts : option Z;
  hd_last_right_tap_ts : option Z;
  hd_last_ctrl_tap_ts : option Z;
  hd_ctrl_down : bool;
  hd_ctrl_down_ts : option Z;
  hd_option_down : bool;
  hd_option_side : option bool;
  hd_option_down_ts : option Z;
  hd_last_hid_key_down : option Z;
  hd_key_pressed_during_modifier : bool;
  hd_show_agent_space_down : bool;
  hd_toggle_widget_key_down : bool;
  hd_insert_here_v_down : bool;
  hd_wrong_arm_logged : bool;
  hd_arm_modifier_down : bool;
  hd_agent_channel_digit_down : option Z;
  hd_fn_press_pending : bool;
  hd_fn_press_started : option Z;
  hd_hold_up_owed : bool;
  hd_middle_press_started : option Z;
  hd_middle_hold_promoted : bool;
  hd_scroll_points : Z
}.

Definition detector_default : HotkeyDetector :=
  mkDetector false None Raw false None None None false None false None None None false false false
    false false false None false None false None false 0.

(* ------------------------------------------------------------------ *)
(** ** Helpers *)

(** [now - previous], zero when out of order. *)
Definition elapsed_between (now previous : Z) : Z := sat_sub now previous.

(** [Duration::from_millis]. *)
Definition millis (ms : Z) : Z := ms * 1000000.

Definition middle_button_dictates (c : HotkeyRuntimeConfig) : bool :=
  hc_middle_mouse_acts_as_fn c && bool_decide (mb_dictation (hc_mode_bindings c) = HoldFn).

Definition channel_chord_matches (m : ChannelModifier) (mods : HotkeyModifierSnapshot) : bool :=
  if ms_cmd mods then false
  else match m with
       | ChannelCtrl => ms_ctrl mods && negb (ms_fn_key mods)
       | ChannelFn => ms_fn_key mods && negb (ms_ctrl mods)
       | ChannelOff => false
       end.

Definition widget_shortcut_key_matches (wanted : WidgetShortcutKey) (key : HotkeyPhysicalKey)
    : bool :=
  match wanted, key with
  | SpaceKey, KSpace => true
  | Letter 86, KV => true
  | Letter wanted, KLetter pressed => wanted =? pressed
  | _, _ => false
  end.

Definition widget_shortcut_matches (w : WidgetShortcut) (key : HotkeyPhysicalKey)
    (mods : HotkeyModifierSnapshot) : bool :=
  widget_shortcut_key_matches (wg_key w) key
  && Bool.eqb (ms_ctrl mods) (wg_ctrl w) && Bool.eqb (ms_option mods) (wg_option w)
  && Bool.eqb (ms_cmd mods) (wg_cmd w) && Bool.eqb (ms_shift mods) (wg_shift w)
  && negb (ms_fn_key mods).

Definition deferred_insert_modifiers_match (s : DeferredInsertShortcut)
    (mods : HotkeyModifierSnapshot) : bool :=
  match s with
  | InsertDisabled => false
  | CommandOptionV =>
      ms_cmd mods && ms_option mods && negb (ms_ctrl mods) && negb (ms_shift mods)
      && negb (ms_fn_key mods)
  | CommandShiftV =>
      ms_cmd mods && ms_shift mods && negb (ms_ctrl mods) && negb (ms_option mods)
      && negb (ms_fn_key mods)
  | CommandControlV =>
      ms_cmd mods && ms_ctrl mods && negb (ms_option mods) && negb (ms_shift mods)
      && negb (ms_fn_key mods)
  end.

(** Whether this tap closes a pair, and the tap kept. *)
Definition consume_double_tap (last_tap : option Z) (now interval_ms : Z) : bool * option Z :=
  match last_tap with
  | Some previous =>
      if elapsed_between now previous <=? millis interval_ms then (true, None) else (false, Some now)
  | None => (false, Some now)
  end.

Definition register_double_tap (last_tap : option Z) (now interval_ms : Z) (event : HotkeyEvent)
    : option HotkeyEvent * option Z :=
  let '(paired, last_tap') := consume_double_tap last_tap now interval_ms in
  (if paired then Some event else None, last_tap').

Definition register_blocked_option_double_tap (d : HotkeyDetector) (released_right : bool)
    (now interval_ms : Z) (reason : DoubleTapBlockReason)
    : HotkeyDetector * option HotkeyEvent :=
  if released_right then
    let '(paired, last_tap) := consume_double_tap (hd_last_right_tap_ts d) now interval_ms in
    (d <| hd_last_left_tap_ts := None |> <| hd_last_right_tap_ts := last_tap |>,
     if paired then Some (DoubleTapBlocked GestureRightOption reason) else None)
  else
    let '(paired, last_tap) := consume_double_tap (hd_last_left_tap_ts d) now interval_ms in
    (d <| hd_last_right_tap_ts := None |> <| hd_last_left_tap_ts := last_tap |>,
     if paired then Some (DoubleTapBlocked GestureLeftOption reason) else None).

Definition arm_modifier_is_down (mods : HotkeyModifierSnapshot) (arm : HoldArmModifier) : bool :=
  match arm with ArmShift => ms_shift mods | ArmCmd => ms_cmd mods end.

Definition hold_base_pressed (mods : HotkeyModifierSnapshot) (b : ShortcutBinding) : bool :=
  match b with
  | HoldFn => ms_fn_key mods
  | HoldCtrl => ms_ctrl mods
  | HoldCtrlAlt => ms_ctrl mods && ms_option mods
  | HoldCtrlShift => ms_ctrl mods && ms_shift mods
  | HoldCtrlCmd => ms_ctrl mods && ms_cmd mods
  | BindDisabled | DoubleCtrl | DoubleLeftOption | DoubleRightOption => false
  end.

Definition check_hold_combo (mods : HotkeyModifierSnapshot) (b : ShortcutBinding) : bool :=
  if ms_option mods && negb match b with HoldCtrlAlt | HoldFn => true | _ => false end
  then false
  else hold_base_pressed mods b.

(** No binding arms an assistive hold. *)
Definition assistive_hold_binding (b : ShortcutBinding) : option ShortcutBinding := None.

Definition compute_hold_mode (shift cmd : bool) (b : ShortcutBinding) (exclusive : bool)
    (arm : HoldArmModifier) : HoldMode := Raw.

(** [emitted.or(other)]. *)
Definition or_event (emitted other : option HotkeyEvent) : option HotkeyEvent :=
  match emitted with Some e => Some e | None => other end.

(* ------------------------------------------------------------------ *)
(** ** Middle button, wheel and timer *)

Definition begin_middle_hold (d : HotkeyDetector) (started : Z) : HotkeyDetector :=
  d <| hd_hold_active := true |> <| hd_hold_active_ts := Some started |> <| hd_hold_mode := Raw |>
    <| hd_hold_event_sent := true |> <| hd_arm_modifier_down := false |>.

Definition end_middle_hold (d : HotkeyDetector) : HotkeyDetector * option HotkeyEvent :=
  if negb (hd_hold_active d) then (d, None)
  else (d <| hd_hold_active := false |> <| hd_hold_active_ts := None |>
          <| hd_arm_modifier_down := false |>,
        if hd_hold_event_sent d then Some (Hold Up (hd_hold_mode d)) else None).

Definition handle_agent_middle_button (d : HotkeyDetector) (now : Z) (pressed : bool)
    (c : HotkeyRuntimeConfig) : HotkeyDetector * option HotkeyEvent :=
  if pressed then
    (if bool_decide (hd_middle_press_started d = None) && negb (hd_middle_hold_promoted d)
     then d <| hd_middle_press_started := Some now |> else d, None)
  else if hd_middle_hold_promoted d then
    end_middle_hold (d <| hd_middle_hold_promoted := false |> <| hd_middle_press_started := None |>)
  else
    match hd_middle_press_started d with
    | None => (d, None)
    | Some started =>
        let d := d <| hd_middle_press_started := None |> in
        if middle_button_dictates c && negb (hd_hold_active d)
           && (millis (hc_hold_start_delay_ms c) <=? elapsed_between now started)
        then ((begin_middle_hold d started) <| hd_hold_up_owed := true |>, Some (Hold Down Raw))
        else (d, Some (AgentGesture MiddleClick))
    end.

Definition i64_max : Z := 2 ^ 63 - 1.

(** [saturating_add] on [i64]. *)
Definition sat_add_i64 (a b : Z) : Z := Z.max (- 2 ^ 63) (Z.min i64_max (a + b)).

Definition handle_scroll (d : HotkeyDetector) (lines points : Z) (continuous momentum : bool)
    : HotkeyDetector * option HotkeyEvent :=
  if continuous && momentum then (d, None)
  else
    let '(d', steps) :=
      if continuous then
        let total := sat_add_i64 (hd_scroll_points d) points in
        let steps := Z.quot total SCROLL_POINTS_PER_STEP in
        (d <| hd_scroll_points := total - steps * SCROLL_POINTS_PER_STEP |>, steps)
      else (d <| hd_scroll_points := 0 |>, Z.sgn lines) in
    if steps =? 0 then (d', None)
    else
      (d', Some (AgentGesture
             (Scroll (- Z.max (- SCROLL_MAX_STEPS) (Z.min SCROLL_MAX_STEPS steps))))).

Definition poll (d : HotkeyDetector) (now : Z) (c : HotkeyRuntimeConfig)
    : HotkeyDetector * option HotkeyEvent :=
  let delay := millis (hc_hold_start_delay_ms c) in
  if hd_hold_up_owed d then
    (d <| hd_hold_up_owed := false |> <| hd_hold_active := false |> <| hd_hold_active_ts := None |>
       <| hd_arm_modifier_down := false |>,
     Some (Hold Up (hd_hold_mode d)))
  else if match hd_middle_press_started d with
          | Some started =>
              hc_middle_mouse_agent_gesture c && middle_button_dictates c
              && negb (hd_middle_hold_promoted d) && negb (hd_hold_active d)
              && (delay <=? elapsed_between now started)
          | None => false
          end
  then
    (begin_middle_hold (d <| hd_middle_hold_promoted := true |>)
       (default 0 (hd_middle_press_started d)),
     Some (Hold Down Raw))
  else if negb (hc_fn_tap_toggles_dictation c) || negb (hd_fn_press_pending d) then (d, None)
  else
    match hd_fn_press_started d with
    | None => (d, None)
    | Some started =>
        if elapsed_between now started <? delay then (d, None)
        else
          let d := d <| hd_fn_press_pending := false |> <| hd_fn_press_started := None |> in
          if negb (bool_decide (mb_dictation (hc_mode_bindings c) = HoldFn)) then (d, None)
          else
            (d <| hd_hold_active := true |> <| hd_hold_active_ts := Some started |>
               <| hd_hold_mode := Raw |> <| hd_hold_event_sent := true |>
               <| hd_arm_modifier_down := false |>,
             Some (Hold Down Raw))
    end.

Definition observe_hid_key_down (d : HotkeyDetector) (at_ : Z) : HotkeyDetector :=
  d <| hd_last_hid_key_down := Some at_ |>.

(* ------------------------------------------------------------------ *)
(** ** Keys *)

(** A key inside the start delay cancels the hold it found. *)
Definition cancel_hold_in_delay (d : HotkeyDetector) (now : Z) (mods : HotkeyModifierSnapshot)
    (c : HotkeyRuntimeConfig) : HotkeyDetector * option HotkeyEvent :=
  let base_held :=
    hold_base_pressed mods (mb_dictation (hc_mode_bindings c))
    || match assistive_hold_binding (mb_assistive (hc_mode_bindings c)) with
       | Some b => hold_base_pressed mods b
       | None => false
       end in
  if base_held && hd_hold_active d
     && match hd_hold_active_ts d with
        | Some ts => elapsed_between now ts <? millis (hc_hold_start_delay_ms c)
        | None => false
        end
  then
    (d <| hd_hold_active := false |> <| hd_hold_active_ts := None |>
       <| hd_hold_event_sent := false |> <| hd_arm_modifier_down := false |>
       <| hd_key_pressed_during_modifier := true |>,
     Some (Hold Up (hd_hold_mode d)))
  else (d, None).

Definition handle_key_down (d : HotkeyDetector) (now : Z) (key : HotkeyPhysicalKey)
    (mods : HotkeyModifierSnapshot) (c : HotkeyRuntimeConfig)
    : HotkeyDetector * option HotkeyEvent :=
  match (match key with
         | KDigit digit =>
             if channel_chord_matches (hc_channel_modifier c) mods then Some digit else None
         | _ => None
         end) with
  | Some digit =>
      if bool_decide (hd_agent_channel_digit_down d = Some digit) then (d, None)
      else (d <| hd_agent_channel_digit_down := Some digit |>
              <| hd_key_pressed_during_modifier := true |>, Some (AgentChannel digit))
  | None =>
      let d :=
        if hd_fn_press_pending d
        then d <| hd_fn_press_pending := false |> <| hd_fn_press_started := None |>
               <| hd_key_pressed_during_modifier := true |>
        else d in
      if bool_decide (key = KV)
         && deferred_insert_modifiers_match (hc_deferred_insert_shortcut c) mods
      then if hd_insert_here_v_down d then (d, None)
           else (d <| hd_insert_here_v_down := true |>, Some InsertHere)
      else if bool_decide (key = KSpace) && ms_cmd mods && ms_shift mods && negb (ms_ctrl mods)
              && negb (ms_option mods) && negb (ms_fn_key mods)
      then if hd_show_agent_space_down d then (d, None)
           else (d <| hd_show_agent_space_down := true |>, Some ShowAgent)
      else if widget_shortcut_matches (hc_widget_shortcut c) key mods
      then if hd_toggle_widget_key_down d then (d, None)
           else (d <| hd_toggle_widget_key_down := true |>, Some ToggleWidget)
      else
        let '(d, emitted) := cancel_hold_in_delay d now mods c in
        let d :=
          if ms_ctrl mods && (hd_ctrl_down d || hd_hold_active d)
          then d <| hd_key_pressed_during_modifier := true |> <| hd_last_ctrl_tap_ts := None |>
          else d in
        let d :=
          if ms_option mods && hd_option_down d
          then d <| hd_key_pressed_during_modifier := true |> <| hd_last_left_tap_ts := None |>
                 <| hd_last_right_tap_ts := None |>
          else d in
        (d, emitted)
  end.

Definition handle_key_up (d : HotkeyDetector) (key : HotkeyPhysicalKey)
    (mods : HotkeyModifierSnapshot) (c : HotkeyRuntimeConfig) : HotkeyDetector :=
  let d :=
    match key with
    | KDigit digit =>
        if bool_decide (hd_agent_channel_digit_down d = Some digit)
        then d <| hd_agent_channel_digit_down := None |> else d
    | _ => d
    end in
  let d := if bool_decide (key = KSpace) then d <| hd_show_agent_space_down := false |> else d in
  let d := if widget_shortcut_key_matches (wg_key (hc_widget_shortcut c)) key
           then d <| hd_toggle_widget_key_down := false |> else d in
  let d := if bool_decide (key = KV) then d <| hd_insert_here_v_down := false |> else d in
  if negb (ms_ctrl mods) && negb (ms_option mods) && negb (ms_cmd mods) && negb (ms_fn_key mods)
  then d <| hd_key_pressed_during_modifier := false |> else d.

(* ------------------------------------------------------------------ *)
(** ** Modifiers *)

Definition clean_fn (mods : HotkeyModifierSnapshot) : bool :=
  ms_fn_key mods && negb (ms_ctrl mods) && negb (ms_option mods) && negb (ms_shift mods)
  && negb (ms_cmd mods).

Definition combo_active (mods : HotkeyModifierSnapshot) (c : HotkeyRuntimeConfig) : bool :=
  match assistive_hold_binding (mb_assistive (hc_mode_bindings c)) with
  | Some b => check_hold_combo mods b
  | None => false
  end
  || check_hold_combo mods (mb_dictation (hc_mode_bindings c)).

Definition mode_now (mods : HotkeyModifierSnapshot) (c : HotkeyRuntimeConfig) : HoldMode :=
  if match assistive_hold_binding (mb_assistive (hc_mode_bindings c)) with
     | Some b => check_hold_combo mods b
     | None => false
     end
  then Selection
  else compute_hold_mode (ms_shift mods) (ms_cmd mods) (mb_dictation (hc_mode_bindings c))
         (hc_hold_exclusive c) (hc_hold_arm_modifier c).

(** The edge of the arm diagnostic. *)
Definition note_wrong_arm (d : HotkeyDetector) (mods : HotkeyModifierSnapshot)
    (c : HotkeyRuntimeConfig) : HotkeyDetector :=
  let base_for_arm := hold_base_pressed mods (mb_dictation (hc_mode_bindings c)) in
  let wrong_arm :=
    match hc_hold_arm_modifier c with
    | ArmShift => ms_cmd mods && negb (ms_shift mods)
    | ArmCmd => ms_shift mods && negb (ms_cmd mods)
    end in
  if base_for_arm && wrong_arm && negb (hd_wrong_arm_logged d)
  then d <| hd_wrong_arm_logged := true |>
  else if negb wrong_arm then d <| hd_wrong_arm_logged := false |> else d.

(** A clean Fn press opens the tap-or-hold question. *)
Definition open_fn_press (d : HotkeyDetector) (now : Z) (key : HotkeyPhysicalKey)
    (mods : HotkeyModifierSnapshot) (c : HotkeyRuntimeConfig) : HotkeyDetector :=
  if hc_fn_tap_toggles_dictation c && (bool_decide (key = KFn) && clean_fn mods)
     && negb (hd_hold_active d) && negb (hd_fn_press_pending d) && negb (hd_hold_up_owed d)
  then d <| hd_fn_press_pending := true |> <| hd_fn_press_started := Some now |>
  else d.

(** The hold transition of the combo. *)
Definition hold_transition (d : HotkeyDetector) (now : Z) (mods : HotkeyModifierSnapshot)
    (c : HotkeyRuntimeConfig) : HotkeyDetector * option HotkeyEvent :=
  let arm_now := arm_modifier_is_down mods (hc_hold_arm_modifier c) in
  let suppress_hold_down := hd_fn_press_pending d && clean_fn mods && negb (hd_hold_active d) in
  let d :=
    if hd_fn_press_pending d && ms_fn_key mods && negb (clean_fn mods)
    then d <| hd_fn_press_pending := false |> <| hd_fn_press_started := None |> else d in
  if combo_active mods c && negb (hd_hold_active d) && negb suppress_hold_down then
    (d <| hd_hold_active := true |> <| hd_hold_active_ts := Some now |>
       <| hd_hold_mode := mode_now mods c |> <| hd_hold_event_sent := true |>
       <| hd_arm_modifier_down := arm_now |>,
     Some (Hold Down (mode_now mods c)))
  else if combo_active mods c && hd_hold_active d then
    (d <| hd_arm_modifier_down := arm_now |>,
     if arm_now && negb (hd_arm_modifier_down d) then Some AttachSelection else None)
  else if negb (combo_active mods c) && hd_hold_active d then
    (d <| hd_hold_active := false |> <| hd_arm_modifier_down := false |>
       <| hd_hold_active_ts := None |>,
     if hd_hold_event_sent d then Some (Hold Up (hd_hold_mode d)) else None)
  else (d, None).

(** The release of a pending Fn press: a tap, or a hold the timer missed. *)
Definition resolve_fn_release (d : HotkeyDetector) (emitted : option HotkeyEvent) (now : Z)
    (mods : HotkeyModifierSnapshot) (c : HotkeyRuntimeConfig)
    : HotkeyDetector * option HotkeyEvent :=
  if negb (ms_fn_key mods) && hd_fn_press_pending d then
    let held_for :=
      match hd_fn_press_started d with Some ts => elapsed_between now ts | None => 0 end in
    let delay := millis (hc_hold_start_delay_ms c) in
    let d := d <| hd_fn_press_started := None |> <| hd_fn_press_pending := false |> in
    if hc_fn_tap_toggles_dictation c && (held_for <? delay)
    then (d, or_event emitted (Some ToggleRaw))
    else if bool_decide (mb_dictation (hc_mode_bindings c) = HoldFn) && (delay <=? held_for)
    then
      (d <| hd_hold_active := true |> <| hd_hold_active_ts := Some now |> <| hd_hold_mode := Raw |>
         <| hd_hold_event_sent := true |> <| hd_hold_up_owed := true |>,
       or_event emitted (Some (Hold Down Raw)))
    else (d, emitted)
  else (d, emitted).

(** Double-tap Control, when it is the dictation gesture. *)
Definition raw_toggle (d : HotkeyDetector) (now : Z) (key : HotkeyPhysicalKey)
    (mods : HotkeyModifierSnapshot) (c : HotkeyRuntimeConfig)
    : HotkeyDetector * option HotkeyEvent :=
  let '(d, toggle) :=
    if is_ctrl key && ms_ctrl mods && negb (hd_ctrl_down d) then
      (d <| hd_ctrl_down := true |> <| hd_ctrl_down_ts := Some now |>, None)
    else if is_ctrl key && negb (ms_ctrl mods) && hd_ctrl_down d then
      let held_for :=
        match hd_ctrl_down_ts d with Some ts => elapsed_between now ts | None => 0 end in
      let d := d <| hd_ctrl_down := false |> <| hd_ctrl_down_ts := None |> in
      if (held_for <=? millis TAP_MAX_MS) && negb (ms_shift mods) && negb (ms_option mods)
         && negb (ms_cmd mods) && negb (hd_key_pressed_during_modifier d)
      then
        let '(toggle, last_tap) :=
          register_double_tap (hd_last_ctrl_tap_ts d) now (hc_double_tap_interval_ms c) ToggleRaw in
        (d <| hd_last_ctrl_tap_ts := last_tap |>, toggle)
      else (d <| hd_last_ctrl_tap_ts := None |> <| hd_key_pressed_during_modifier := false |>, None)
    else (d, None) in
  (if negb (ms_ctrl mods) && negb (ms_option mods) && negb (ms_cmd mods)
   then d <| hd_key_pressed_during_modifier := false |> else d, toggle).

(** Option is tracked even when no Option gesture is bound. *)
Definition track_option (d : HotkeyDetector) (now : Z) (key : HotkeyPhysicalKey)
    (mods : HotkeyModifierSnapshot) : HotkeyDetector :=
  if is_option key then
    if ms_option mods
    then d <| hd_option_down := true |> <| hd_option_side := Some (is_right_option key) |>
           <| hd_option_down_ts := Some now |>
    else d <| hd_option_down := false |> <| hd_option_side := None |> <| hd_option_down_ts := None |>
  else if negb (ms_option mods)
  then d <| hd_option_down := false |> <| hd_option_side := None |> <| hd_option_down_ts := None |>
  else d.

Definition forget_taps (d : HotkeyDetector) : HotkeyDetector :=
  d <| hd_last_left_tap_ts := None |> <| hd_last_right_tap_ts := None |>.

(** A clean Option tap, routed to its toggle or blocked with a reason. *)
Definition option_tap (d : HotkeyDetector) (released_right blocks : bool) (now : Z)
    (c : HotkeyRuntimeConfig) : HotkeyDetector * option HotkeyEvent :=
  let interval := hc_double_tap_interval_ms c in
  if blocks then
    register_blocked_option_double_tap d released_right now interval ModifierComboActive
  else if released_right then
    let d := d <| hd_last_left_tap_ts := None |> in
    if bool_decide (mb_assistive (hc_mode_bindings c) = DoubleRightOption) then
      let '(toggle, last_tap) :=
        register_double_tap (hd_last_right_tap_ts d) now interval ToggleAssistive in
      (d <| hd_last_right_tap_ts := last_tap |>, toggle)
    else register_blocked_option_double_tap d released_right now interval BindingDisabled
  else if bool_decide (mb_formatting (hc_mode_bindings c) = DoubleLeftOption) then
    let d := d <| hd_last_right_tap_ts := None |> in
    let '(toggle, last_tap) :=
      register_double_tap (hd_last_left_tap_ts d) now interval ToggleNormal in
    (d <| hd_last_left_tap_ts := last_tap |>, toggle)
  else register_blocked_option_double_tap d released_right now interval BindingDisabled.

(** The release of Option; [None] keeps what was emitted and stops there. *)
Definition option_release (d : HotkeyDetector) (now : Z) (key : HotkeyPhysicalKey)
    (mods : HotkeyModifierSnapshot) (c : HotkeyRuntimeConfig)
    : HotkeyDetector * option (option HotkeyEvent) :=
  let released_right := is_right_option key in
  let pressed_side := hd_option_side d in
  let option_down_ts := hd_option_down_ts d in
  let held_for := match option_down_ts with Some ts => elapsed_between now ts | None => 0 end in
  let typed_meanwhile :=
    match option_down_ts, hd_last_hid_key_down d with
    | Some down, Some at_ => (down <=? at_) && (at_ <=? now)
    | _, _ => false
    end in
  let d := d <| hd_option_down := false |> <| hd_option_side := None |>
             <| hd_option_down_ts := None |> in
  if negb (is_option key) then
    (forget_taps d <| hd_key_pressed_during_modifier := false |>, None)
  else if match pressed_side with
          | Some pressed_right => negb (Bool.eqb pressed_right released_right)
          | None => false
          end
  then (forget_taps d, None)
  else
    let blocks :=
      match mb_dictation (hc_mode_bindings c) with
      | HoldCtrlAlt => ms_ctrl mods || hd_hold_active d
      | _ => ms_ctrl mods || ms_cmd mods || hd_hold_active d
      end in
    if hd_key_pressed_during_modifier d
    then (d <| hd_key_pressed_during_modifier := false |>, None)
    else if typed_meanwhile || (millis TAP_MAX_MS <? held_for) then (forget_taps d, None)
    else let '(d, toggle) := option_tap d released_right blocks now c in (d, Some toggle).

Definition handle_flags_changed (d : HotkeyDetector) (now : Z) (key : HotkeyPhysicalKey)
    (mods : HotkeyModifierSnapshot) (c : HotkeyRuntimeConfig)
    : HotkeyDetector * option HotkeyEvent :=
  let bindings := hc_mode_bindings c in
  let normal_toggle_enabled := bool_decide (mb_formatting bindings = DoubleLeftOption) in
  let assistive_toggle_enabled := bool_decide (mb_assistive bindings = DoubleRightOption) in
  let d := note_wrong_arm d mods c in
  let d := open_fn_press d now key mods c in
  let '(d, emitted) := hold_transition d now mods c in
  let '(d, emitted) := resolve_fn_release d emitted now mods c in
  if bool_decide (mb_dictation bindings = DoubleCtrl) then
    let '(d, toggle) := raw_toggle d now key mods c in (d, or_event emitted toggle)
  else if negb normal_toggle_enabled && negb assistive_toggle_enabled then
    (track_option d now key mods, emitted)
  else
    let settle (d : HotkeyDetector) :=
      if negb (ms_ctrl mods) && negb (ms_option mods) && negb (ms_cmd mods)
         && negb (ms_fn_key mods)
      then d <| hd_key_pressed_during_modifier := false |> else d in
    if is_option key && ms_option mods && negb (hd_option_down d) then
      (settle (d <| hd_option_down := true |> <| hd_option_side := Some (is_right_option key) |>
                 <| hd_option_down_ts := Some now |>), emitted)
    else if negb (ms_option mods) && hd_option_down d then
      match option_release d now key mods c with
      | (d, None) => (d, emitted)
      | (d, Some toggle) => (settle d, or_event emitted toggle)
      end
    else (settle d, emitted).

Definition feed (d : HotkeyDetector) (input : HotkeyDetectorInput) (c : HotkeyRuntimeConfig)
    : HotkeyDetector * option HotkeyEvent :=
  match input with
  | KeyDown now key mods => handle_key_down d now key mods c
  | KeyUp key mods => (handle_key_up d key mods c, None)
  | FlagsChanged now key mods => handle_flags_changed d now key mods c
  | MiddleButton now pressed mods =>
      if hc_middle_mouse_agent_gesture c then handle_agent_middle_button d now pressed c
      else if negb (hc_middle_mouse_acts_as_fn c) then (d, None)
      else handle_flags_changed d now KFn
             (mods <| ms_fn_key := pressed || ms_fn_key mods |>) c
  | ScrollWheel lines points continuous momentum => handle_scroll d lines points continuous momentum
  end.
