(* ===== verification/HotkeyFacts.v ===== *)
(** HotkeyFacts: theorems about the gesture state machine.

    A run feeds inputs, polls the timer and notes HID keys, each step under the
    configuration of its moment.  The theorems say what the stream of events
    can contain. *)

From S2P Require Import Prelude.
From S2P Require Import HotkeyConfig.
From S2P Require Import HotkeyDetector.
#[local] Open Scope Z_scope.

(* ------------------------------------------------------------------ *)
(** ** Runs *)

Inductive DetectorStep :=
  | Feed (input : HotkeyDetectorInput) (c : HotkeyRuntimeConfig)
  | Poll (now : Z) (c : HotkeyRuntimeConfig)
  | ObserveHid (at_ : Z).

Definition detector_step (d : HotkeyDetector) (s : DetectorStep)
    : HotkeyDetector * option HotkeyEvent :=
  match s with
  | Feed input c => feed d input c
  | Poll now c => poll d now c
  | ObserveHid at_ => (observe_hid_key_down d at_, None)
  end.

Definition step_config (s : DetectorStep) : option HotkeyRuntimeConfig :=
  match s with Feed _ c | Poll _ c => Some c | ObserveHid _ => None end.

Fixpoint run_detector (d : HotkeyDetector) (steps : list DetectorStep)
    : HotkeyDetector * list HotkeyEvent :=
  match steps with
  | [] => (d, [])
  | s :: rest =>
      let '(d', e) := detector_step d s in
      let '(d'', es) := run_detector d' rest in
      (d'', option_list e ++ es)
  end.

(** Whether a recording is announced after an event; [None] when the event
    repeats the announcement it follows. *)
Definition announce (on : bool) (e : HotkeyEvent) : option bool :=
  match e with
  | Hold Down _ => if on then None else Some true
  | Hold Up _ => if on then Some false else None
  | _ => Some on
  end.

Fixpoint announced (on : bool) (es : list HotkeyEvent) : option bool :=
  match es with
  | [] => Some on
  | e :: rest => on' ← announce on e; announced on' rest
  end.

(** An owed Hold Up is settled by the timer before the next key or button. *)
Definition settles_owed (s : DetectorStep) : bool :=
  match s with
  | Poll _ _ | ObserveHid _ | Feed (KeyUp _ _) _ | Feed (ScrollWheel _ _ _ _) _ => true
  | _ => false
  end.

Fixpoint timely (d : HotkeyDetector) (steps : list DetectorStep) : bool :=
  match steps with
  | [] => true
  | s :: rest =>
      (negb (hd_hold_up_owed d) || settles_owed s) && timely (fst (detector_step d s)) rest
  end.

(** What one step may announce. *)
Definition announce_opt (on : bool) (e : option HotkeyEvent) : option bool :=
  match e with Some e => announce on e | None => Some on end.

Lemma announced_app on es es' :
  announced on (es ++ es') = on' ← announced on es; announced on' es'.
Proof. revert on. induction es as [|e es IH]; intros on; simpl; [done|]. by destruct (announce on e); simpl. Qed.

Lemma announced_option_list on e : announced on (option_list e) = announce_opt on e.
Proof. destruct e as [e|]; simpl; [|done]. by destruct (announce on e). Qed.

(* ------------------------------------------------------------------ *)
(** ** The hold invariant *)

(** The steps leave one of two sources of a second hold unused: a pending Fn
    press ([tap]) or the middle-button gesture. *)
Record hold_inv (tap_off : bool) (d : HotkeyDetector) : Prop := {
  hi_sent : hd_hold_active d = true → hd_hold_event_sent d = true;
  hi_owed : hd_hold_up_owed d = true → hd_hold_active d = true;
  hi_pending : hd_fn_press_pending d = true → tap_off = false ∧ hd_hold_active d = false
}.

Definition config_ok (tap_off : bool) (c : HotkeyRuntimeConfig) : bool :=
  if tap_off then negb (hc_fn_tap_toggles_dictation c)
  else negb (hc_middle_mouse_agent_gesture c).

(** A step from [d] to [d'] with event [e] keeps the invariant, and the event
    takes the announcement from the state before to the state after. *)
Definition hold_ok (tap_off : bool) (d d' : HotkeyDetector) (e : option HotkeyEvent) : Prop :=
  hold_inv tap_off d' ∧ announce_opt (hd_hold_active d) e = Some (hd_hold_active d').

Lemma hold_inv_default tap_off : hold_inv tap_off detector_default.
Proof. split; done. Qed.

(** A step that moves none of the hold fields and emits no hold event. *)
Definition hold_fields (d : HotkeyDetector) : bool * bool * bool * bool :=
  (hd_hold_active d, hd_hold_event_sent d, hd_hold_up_owed d, hd_fn_press_pending d).

Definition not_hold (e : option HotkeyEvent) : bool :=
  match e with Some (Hold _ _) => false | _ => true end.

Lemma hold_ok_frame tap_off d d' e :
  hold_inv tap_off d → hold_fields d' = hold_fields d → not_hold e = true →
  hold_ok tap_off d d' e.
Proof.
  intros [Hs Ho Hp] Hf He. unfold hold_fields in Hf.
  injection Hf as H1 H2 H3 H4. split.
  - split; rewrite ?H1, ?H2, ?H3, ?H4; done.
  - rewrite H1. destruct e as [[]|]; done.
Qed.

Lemma hold_ok_frame_l tap_off d0 d d' e :
  hold_fields d0 = hold_fields d → hold_ok tap_off d d' e → hold_ok tap_off d0 d' e.
Proof. intros Hf [H1 H2]. split; [done|]. by injection Hf as -> _ _ _. Qed.

Lemma hold_inv_frame tap_off d d' :
  hold_inv tap_off d → hold_fields d' = hold_fields d → hold_inv tap_off d'.
Proof. intros Hd Hf. by apply (hold_ok_frame tap_off d d' None). Qed.

(* ------------------------------------------------------------------ *)
(** ** Each operation keeps the hold invariant *)

Ltac hold_crush :=
  unfold config_ok in *; simpl in *;
  repeat match goal with
         | H : _ && _ = true |- _ => apply andb_true_iff in H as [??]
         | H : negb _ = true |- _ => apply negb_true_iff in H
         | H : negb _ = false |- _ => apply negb_false_iff in H
         end;
  simpl in *; unfold hold_ok; try (split; [split|]); simpl in *;
  repeat match goal with
         | H : hd_hold_active ?d = _ |- context [hd_hold_active ?d] => rewrite H
         | H : hd_hold_event_sent ?d = _ |- context [hd_hold_event_sent ?d] => rewrite H
         end;
  intuition congruence.

Lemma poll_hold_ok tap_off d now c :
  hold_inv tap_off d → config_ok tap_off c = true →
  hold_ok tap_off d (fst (poll d now c)) (snd (poll d now c)).
Proof.
  intros Hd Hc. pose proof Hd as [Hs Ho Hp]. unfold poll.
  destruct (hd_hold_up_owed d) eqn:Howed.
  { specialize (Ho eq_refl). hold_crush. }
  case_match eqn:Hmid.
  - assert (tap_off = true ∧ hd_hold_active d = false) as [-> Hact].
    { destruct (hd_middle_press_started d); [|done]. destruct tap_off; hold_crush. }
    hold_crush.
  - clear Hmid. case_match eqn:Htap; [by apply hold_ok_frame|].
    apply orb_false_iff in Htap as [Htap Hpend]. apply negb_false_iff in Htap, Hpend.
    destruct (Hp Hpend) as [-> Hact].
    repeat case_match; try (by apply hold_ok_frame); hold_crush.
Qed.

Lemma middle_hold_ok tap_off d now pressed c :
  hold_inv tap_off d → hd_hold_up_owed d = false → tap_off = true →
  hold_ok tap_off d (fst (handle_agent_middle_button d now pressed c))
    (snd (handle_agent_middle_button d now pressed c)).
Proof.
  intros Hd Howed ->. pose proof Hd as [Hs Ho Hp].
  unfold handle_agent_middle_button, end_middle_hold. simpl.
  repeat case_match; simpl in *; try (by apply hold_ok_frame); hold_crush.
Qed.

Lemma scroll_hold_ok tap_off d lines points continuous momentum :
  hold_inv tap_off d →
  hold_ok tap_off d (fst (handle_scroll d lines points continuous momentum))
    (snd (handle_scroll d lines points continuous momentum)).
Proof.
  intros Hd. unfold handle_scroll. destruct continuous, momentum; simpl; [by apply hold_ok_frame|..];
    case_match; by apply hold_ok_frame.
Qed.

Lemma key_up_frame d key mods c : hold_fields (handle_key_up d key mods c) = hold_fields d.
Proof. unfold handle_key_up, hold_fields. repeat case_match; done. Qed.

Lemma cancel_hold_ok tap_off d now mods c :
  hold_inv tap_off d → hd_hold_up_owed d = false →
  hold_ok tap_off d (fst (cancel_hold_in_delay d now mods c)) (snd (cancel_hold_in_delay d now mods c)).
Proof.
  intros Hd Howed. pose proof Hd as [Hs Ho Hp]. unfold cancel_hold_in_delay.
  destruct (hd_hold_active d) eqn:Hact; [|rewrite andb_false_r; by apply hold_ok_frame].
  case_match; [|by apply hold_ok_frame]. simpl. split; [split|]; simpl; try done.
  - congruence.
  - intros Hpe. by destruct (Hp Hpe).
  - by rewrite Hact.
Qed.

Lemma key_down_hold_ok tap_off d now key mods c :
  hold_inv tap_off d → hd_hold_up_owed d = false →
  hold_ok tap_off d (fst (handle_key_down d now key mods c)) (snd (handle_key_down d now key mods c)).
Proof.
  intros Hd Howed. pose proof Hd as [Hs Ho Hp]. unfold handle_key_down.
  destruct (match key with KDigit _ => _ | _ => _ end) as [digit|];
    [case_match; by apply hold_ok_frame|].
  set (d1 := if hd_fn_press_pending d then _ else d).
  assert (Hd1 : hold_inv tap_off d1) by (unfold d1; case_match; [split; done|done]).
  assert (Hact1 : hd_hold_active d1 = hd_hold_active d) by (unfold d1; by case_match).
  assert (Howed1 : hd_hold_up_owed d1 = false) by (unfold d1; by case_match).
  assert (Hok : hold_ok tap_off d1 (fst (cancel_hold_in_delay d1 now mods c))
    (snd (cancel_hold_in_delay d1 now mods c))) by by apply cancel_hold_ok.
  assert (Hmove : ∀ d' e, hold_ok tap_off d1 d' e → hold_ok tap_off d d' e).
  { intros d' e [H1 H2]. split; [done|]. by rewrite <- Hact1. }
  destruct (cancel_hold_in_delay d1 now mods c) as [d2 e2]. clearbody d1.
  apply Hmove. repeat case_match; simpl; try (by apply hold_ok_frame);
    destruct Hok as [Hi Ha]; (split; [by apply (hold_inv_frame _ d2)|done]).
Qed.

Lemma note_wrong_arm_frame d mods c : hold_fields (note_wrong_arm d mods c) = hold_fields d.
Proof. unfold note_wrong_arm. repeat case_match; done. Qed.

Lemma track_option_frame d now key mods : hold_fields (track_option d now key mods) = hold_fields d.
Proof. unfold track_option. repeat case_match; done. Qed.

Lemma raw_toggle_frame d now key mods c :
  hold_fields (fst (raw_toggle d now key mods c)) = hold_fields d ∧
  not_hold (snd (raw_toggle d now key mods c)) = true.
Proof.
  unfold raw_toggle, register_double_tap. repeat case_match; simplify_eq; simpl; done.
Qed.

Lemma option_tap_frame d right blocks now c :
  hold_fields (fst (option_tap d right blocks now c)) = hold_fields d ∧
  not_hold (snd (option_tap d right blocks now c)) = true.
Proof.
  unfold option_tap, register_blocked_option_double_tap, register_double_tap.
  repeat case_match; simplify_eq; simpl; done.
Qed.

Lemma option_release_frame d now key mods c :
  hold_fields (fst (option_release d now key mods c)) = hold_fields d ∧
  not_hold (default None (snd (option_release d now key mods c))) = true.
Proof.
  unfold option_release. set (d1 := d <| _ := _ |> <| _ := _ |> <| _ := _ |>).
  repeat (case_match; try done).
  all: match goal with H : option_tap ?x ?r ?b ?n ?k = (_, _) |- _ =>
         pose proof (option_tap_frame x r b n k) as Hf; rewrite H in Hf; by destruct Hf end.
Qed.

(** A pending Fn press may only be a clean, unheld one before its release is
    resolved. *)
Lemma hold_transition_ok tap_off d now mods c :
  hold_inv tap_off d → hd_hold_up_owed d = false →
  let d' := fst (hold_transition d now mods c) in
  let e := snd (hold_transition d now mods c) in
  announce_opt (hd_hold_active d) e = Some (hd_hold_active d') ∧
  (hd_hold_active d' = true → hd_hold_event_sent d' = true) ∧
  hd_hold_up_owed d' = false ∧
  (hd_fn_press_pending d' = true → tap_off = false ∧
     (hd_hold_active d' = true → ms_fn_key mods = false ∧ combo_active mods c = true) ∧
     (hd_hold_active d' = false → e = None)).
Proof.
  intros [Hs Ho Hp] Howed. unfold hold_transition.
  destruct (hd_hold_active d) eqn:Hact; destruct (combo_active mods c) eqn:Hc;
    destruct (hd_fn_press_pending d) eqn:Hpe; destruct (ms_fn_key mods) eqn:Hfn;
    destruct (clean_fn mods) eqn:Hcl; simpl; rewrite ?Hact, ?Hpe; simpl;
    rewrite ?Hs by done; try (unfold clean_fn in Hcl; rewrite Hfn in Hcl; done);
    repeat case_match; simpl; rewrite ?Hact, ?Hpe; naive_solver.
Qed.

Lemma combo_needs_fn mods c :
  mb_dictation (hc_mode_bindings c) = HoldFn → ms_fn_key mods = false → combo_active mods c = false.
Proof.
  intros Hb Hfn. unfold combo_active, check_hold_combo, hold_base_pressed. simpl. rewrite Hb, Hfn.
  by rewrite andb_false_r.
Qed.

Lemma open_fn_press_inv tap_off d now key mods c :
  hold_inv tap_off d → config_ok tap_off c = true →
  hold_inv tap_off (open_fn_press d now key mods c) ∧
  hd_hold_active (open_fn_press d now key mods c) = hd_hold_active d ∧
  hd_hold_up_owed (open_fn_press d now key mods c) = hd_hold_up_owed d.
Proof.
  intros [Hs Ho Hp] Hc. unfold open_fn_press. case_match; [|split; [split|]; done].
  split; [|done]. destruct tap_off; [hold_crush|].
  split; simpl; [done|done|]. intros _. split; [done|]. hold_crush.
Qed.

Lemma hold_part_ok tap_off d now key mods c :
  hold_inv tap_off d → hd_hold_up_owed d = false → config_ok tap_off c = true →
  let d2 := open_fn_press (note_wrong_arm d mods c) now key mods c in
  let r1 := hold_transition d2 now mods c in
  let r2 := resolve_fn_release (fst r1) (snd r1) now mods c in
  hold_ok tap_off d (fst r2) (snd r2).
Proof.
  intros Hd Howed Hc d2 r1.
  assert (Hn : hold_inv tap_off (note_wrong_arm d mods c))
    by (eapply hold_inv_frame; [done|apply note_wrong_arm_frame]).
  pose proof (note_wrong_arm_frame d mods c) as Hf. injection Hf as Ha1 _ Ho1 _.
  destruct (open_fn_press_inv tap_off (note_wrong_arm d mods c) now key mods c) as (Hi2 & Ha2 & Ho2);
    [done|done|]. fold d2 in Hi2, Ha2, Ho2.
  destruct (hold_transition_ok tap_off d2 now mods c) as (Hann & Hs & Ho & Hp);
    [done|congruence|]. fold r1 in Hann, Hs, Ho, Hp.
  assert (Hact : hd_hold_active d2 = hd_hold_active d) by congruence. rewrite Hact in Hann.
  destruct r1 as [d3 e3]. simpl in *. clearbody d2. clear Ha1 Ho1 Ha2 Ho2 Hn.
  unfold resolve_fn_release.
  destruct (ms_fn_key mods) eqn:Hfn; simpl.
  { split; [|done]. split; [done|congruence|]. intros Hpe. destruct (Hp Hpe) as (? & H1 & _).
    split; [done|]. destruct (hd_hold_active d3); [naive_solver|done]. }
  destruct (hd_fn_press_pending d3) eqn:Hpe; 
    [|split; [split|]; simpl; intros; [naive_solver|congruence|congruence|done]].
  destruct (Hp eq_refl) as (-> & H1 & H2). simpl.
  generalize (match hd_fn_press_started d3 with Some ts => elapsed_between now ts | None => 0 end).
  intros held.
  case_match eqn:Htap.
  - split; [split; simpl; [done|congruence|done]|]. simpl.
    destruct e3 as [e|]; simpl in *; done.
  - case_match eqn:Hlate.
    + apply andb_true_iff in Hlate as [Hb _]. apply bool_decide_eq_true in Hb.
      assert (Ha3 : hd_hold_active d3 = false).
      { destruct (hd_hold_active d3) eqn:E; [|done]. destruct (H1 eq_refl) as [_ H3].
        by rewrite combo_needs_fn in H3. }
      rewrite (H2 Ha3) in *. simpl in *. split; [split; done|]. simpl.
      injection Hann as ->. by rewrite Ha3.
    + split; [split; simpl; [done|congruence|done]|done].
Qed.

Lemma announce_or_event on e toggle on' :
  not_hold toggle = true → announce_opt on e = Some on' → announce_opt on (or_event e toggle) = Some on'.
Proof. destruct e as [e|], toggle as [[]|]; simpl; done. Qed.

Lemma hold_ok_then tap_off d d1 d2 e toggle :
  hold_ok tap_off d d1 e → hold_fields d2 = hold_fields d1 → not_hold toggle = true →
  hold_ok tap_off d d2 (or_event e toggle).
Proof.
  intros [Hi Ha] Hf Ht. split; [by eapply hold_inv_frame|]. apply announce_or_event; [done|].
  rewrite Ha. by injection Hf as -> _ _ _.
Qed.

Lemma or_event_none e : or_event e None = e.
Proof. by destruct e. Qed.

Lemma flags_hold_ok tap_off d now key mods c :
  hold_inv tap_off d → hd_hold_up_owed d = false → config_ok tap_off c = true →
  hold_ok tap_off d (fst (handle_flags_changed d now key mods c))
    (snd (handle_flags_changed d now key mods c)).
Proof.
  intros Hd Howed Hc. pose proof (hold_part_ok tap_off d now key mods c Hd Howed Hc) as H.
  unfold handle_flags_changed. cbv zeta in H |- *.
  destruct (hold_transition _ now mods c) as [d1 e1]. simpl in H.
  destruct (resolve_fn_release d1 e1 now mods c) as [d2 e2]. simpl in H.
  case_match.
  { pose proof (raw_toggle_frame d2 now key mods c) as [Hf Ht]. destruct (raw_toggle _ _ _ _ _).
    simpl in *. by eapply hold_ok_then. }
  case_match.
  { simpl. rewrite <- (or_event_none e2). eapply hold_ok_then; [done|apply track_option_frame|done]. }
  case_match.
  { simpl. rewrite <- (or_event_none e2). eapply hold_ok_then; [done| |done]. by case_match. }
  case_match.
  - pose proof (option_release_frame d2 now key mods c) as [Hf Ht].
    destruct (option_release d2 now key mods c) as [d3 [t|]]; simpl in *.
    + eapply hold_ok_then; [done| |done]. rewrite <- Hf. by case_match.
    + rewrite <- (or_event_none e2). by eapply hold_ok_then.
  - simpl. rewrite <- (or_event_none e2). eapply hold_ok_then; [done| |done]. by case_match.
Qed.

Lemma detector_step_ok tap_off d s :
  hold_inv tap_off d → negb (hd_hold_up_owed d) || settles_owed s = true →
  from_option (config_ok tap_off) true (step_config s) = true →
  hold_ok tap_off d (fst (detector_step d s)) (snd (detector_step d s)).
Proof.
  intros Hd Ht Hc. destruct s as [input c|now c|at_]; simpl in *.
  - destruct input as [now key mods|key mods|now key mods|now pressed mods|l p ct mo]; simpl in *;
      rewrite ?orb_false_r, ?negb_true_iff in Ht.
    + by apply key_down_hold_ok.
    + apply hold_ok_frame; [done|apply key_up_frame|done].
    + by apply flags_hold_ok.
    + destruct (hc_middle_mouse_agent_gesture c) eqn:Hg.
      * apply middle_hold_ok; [done|done|]. destruct tap_off; [done|]. simpl in Hc. by rewrite Hg in Hc.
      * case_match; [by apply hold_ok_frame|by apply flags_hold_ok].
    + by apply scroll_hold_ok.
  - by apply poll_hold_ok.
  - by apply hold_ok_frame.
Qed.

(** C40: over every run in which an owed Hold Up is settled by the timer before
    the next key, and which uses only one of Fn-tap and the middle-button
    gesture, the recordings announced alternate: each Hold Down opens one that
    is closed by exactly one Hold Up, and the detector's own state says which
    of the two comes next. *)
Theorem hold_alternation tap_off steps
    (Hconfig : ∀ s c, s ∈ steps → step_config s = Some c → config_ok tap_off c = true)
    (Htimely : timely detector_default steps = true) :
  let '(d, es) := run_detector detector_default steps in
  announced false es = Some (hd_hold_active d).
Proof.
  assert (H : ∀ d, hold_inv tap_off d → timely d steps = true →
    announced (hd_hold_active d) (snd (run_detector d steps))
      = Some (hd_hold_active (fst (run_detector d steps)))).
  2:{ specialize (H detector_default (hold_inv_default _) Htimely).
      by destruct (run_detector detector_default steps). }
  clear Htimely. induction steps as [|s steps IH]; intros d Hd Ht; simpl; [done|].
  simpl in Ht. apply andb_true_iff in Ht as [Ht1 Ht2].
  destruct (detector_step_ok tap_off d s) as [Hi Ha]; [done|done| |].
  { destruct (step_config s) as [c|] eqn:Hs; [|done]. simpl.
    apply (Hconfig s c); [apply list_elem_of_here|done]. }
  specialize (IH ltac:(intros s' c' Hin; apply Hconfig; by apply list_elem_of_further) _ Hi Ht2).
  destruct (detector_step d s) as [d' e]. simpl in *.
  destruct (run_detector d' steps) as [d'' es]. simpl in *.
  by rewrite announced_app, announced_option_list, Ha.
Qed.

(** the settling is needed: a Fn press released after its hold delay with
    no timer in between owes a Hold Up, and when the next modifier change comes
    before the timer both of them send it, so one recording is closed twice. *)
Theorem overdue_release_ends_twice now0 now1 now2 now3 c
    (Hbind : mb_dictation (hc_mode_bindings c) = HoldFn)
    (Htap : hc_fn_tap_toggles_dictation c = true)
    (Hlate : millis (hc_hold_start_delay_ms c) <= elapsed_between now1 now0)
    (Hform : mb_formatting (hc_mode_bindings c) = BindDisabled)
    (Hassist : mb_assistive (hc_mode_bindings c) = BindDisabled) :
  let none := mkMods false false false false false in
  snd (run_detector detector_default
        [Feed (FlagsChanged now0 KFn (mkMods false false false false true)) c;
         Feed (FlagsChanged now1 KFn none) c;
         Feed (FlagsChanged now2 KLeftOption none) c; Poll now3 c])
    = [Hold Down Raw; Hold Up Raw; Hold Up Raw].
Proof.
  intros none.
  assert (Hlt : (elapsed_between now1 now0 <? millis (hc_hold_start_delay_ms c)) = false)
    by (apply Z.ltb_ge; lia).
  assert (Hle : (millis (hc_hold_start_delay_ms c) <=? elapsed_between now1 now0) = true)
    by (apply Z.leb_le; lia).
  destruct c as [[dict form assi] ex arm delay interval ins ch wg tap mf mg]. simpl in *. subst.
  destruct arm; cbv -[elapsed_between millis Z.ltb Z.leb]; rewrite ?Hlt, ?Hle; reflexivity.
Qed.

(* ------------------------------------------------------------------ *)
(** ** Option taps *)

(** What an Option release reads of the state. *)
Definition option_fields (d : HotkeyDetector)
    : bool * option bool * option Z * option Z * bool * option Z :=
  (hd_option_down d, hd_option_side d, hd_option_down_ts d, hd_last_hid_key_down d,
   hd_key_pressed_during_modifier d, hd_last_left_tap_ts d).

(** The hold part moves no Option field and emits no formatting toggle. *)
Lemma hold_part_option d now key mods c :
  let d2 := open_fn_press (note_wrong_arm d mods c) now key mods c in
  let r1 := hold_transition d2 now mods c in
  let r2 := resolve_fn_release (fst r1) (snd r1) now mods c in
  option_fields (fst r2) = option_fields d ∧ snd r2 ≠ Some ToggleNormal.
Proof.
  unfold note_wrong_arm, open_fn_press. cbv zeta.
  set (d1 := if _ && negb (hd_wrong_arm_logged d) then _ else _).
  assert (option_fields d1 = option_fields d)
    as Hf1 by (unfold d1; repeat case_match; done). clearbody d1.
  set (d2 := if _ && negb (hd_hold_up_owed d1) then _ else _).
  assert (option_fields d2 = option_fields d)
    as Hf2 by (unfold d2; repeat case_match; done). clearbody d2. clear d1 Hf1.
  unfold hold_transition. cbv zeta.
  set (d3 := if _ && negb (clean_fn mods) then _ else _).
  assert (option_fields d3 = option_fields d)
    as Hf3 by (unfold d3; repeat case_match; done). clearbody d3.
  rewrite <- Hf3.
  destruct (combo_active mods c), (hd_hold_active d3); simpl;
    unfold resolve_fn_release;
    destruct (negb (hd_fn_press_pending d2 && clean_fn mods && negb (hd_hold_active d2))); simpl;
    repeat case_match; simpl; repeat split; simpl; try done; intros; simplify_eq; try congruence.
Qed.

Lemma option_tap_fires d right blocks now c d' :
  option_tap d right blocks now c = (d', Some ToggleNormal) →
  right = false ∧ blocks = false ∧ mb_formatting (hc_mode_bindings c) = DoubleLeftOption ∧
  ∃ previous, hd_last_left_tap_ts d = Some previous ∧
    elapsed_between now previous <= millis (hc_double_tap_interval_ms c).
Proof.
  unfold option_tap, register_blocked_option_double_tap, register_double_tap, consume_double_tap.
  intros H. destruct blocks, right; simpl in H;
    repeat case_match; simplify_eq; (split; [done|]); (split; [done|]);
    (split; [by eapply bool_decide_eq_true_1|]).
  eexists. split; [done|]. by apply Z.leb_le.
Qed.

(** the formatting toggle fires only on the release of the left Option key,
    bound to it, after a tap of at most 220 ms that follows another left tap
    within the double-tap interval, with no Control held, no hold running, and
    no key seen by either tap while Option was down. *)
Theorem option_toggle_sound d now key mods c d'
    (Hfire : handle_flags_changed d now key mods c = (d', Some ToggleNormal)) :
  mb_formatting (hc_mode_bindings c) = DoubleLeftOption ∧
  mb_dictation (hc_mode_bindings c) ≠ DoubleCtrl ∧
  key = KLeftOption ∧ ms_option mods = false ∧ ms_ctrl mods = false ∧
  hd_option_down d = true ∧ hd_option_side d ≠ Some true ∧
  hd_key_pressed_during_modifier d = false ∧ hd_hold_active d' = false ∧
  (∀ down, hd_option_down_ts d = Some down →
     elapsed_between now down <= millis TAP_MAX_MS ∧
     ∀ at_, hd_last_hid_key_down d = Some at_ → ¬ (down <= at_ <= now)) ∧
  ∃ previous, hd_last_left_tap_ts d = Some previous ∧
    elapsed_between now previous <= millis (hc_double_tap_interval_ms c).
Proof.
  unfold handle_flags_changed in Hfire. cbv zeta in Hfire.
  pose proof (hold_part_option d now key mods c) as [Hf Hn]. cbv zeta in Hf, Hn.
  destruct (hold_transition _ now mods c) as [d1 e1]. simpl in Hf, Hn.
  destruct (resolve_fn_release d1 e1 now mods c) as [d2 e2]. simpl in Hf, Hn.
  unfold option_fields in Hf. injection Hf as F1 F2 F3 F4 F5 F6.
  rewrite <- F1, <- F2, <- F3, <- F4, <- F5, <- F6. clear F1 F2 F3 F4 F5 F6.
  case_bool_decide as Hdict.
  { unfold raw_toggle, register_double_tap in Hfire. exfalso.
    repeat case_match; simplify_eq; destruct e2; simpl in *; congruence. }
  case_match; [congruence|]. case_match; [congruence|].
  case_match eqn:Hrel; [|congruence]. apply andb_true_iff in Hrel as [Hopt Hdown].
  apply negb_true_iff in Hopt.
  destruct (option_release d2 now key mods c) as [d3 [t|]] eqn:Hr; [|congruence].
  injection Hfire as Hd' He. assert (t = Some ToggleNormal) as ->
    by (destruct e2; simpl in *; congruence).
  assert (Ha' : hd_hold_active d' = hd_hold_active d2).
  { pose proof (option_release_frame d2 now key mods c) as [Hh _]. rewrite Hr in Hh.
    injection Hh as Hh _ _ _. rewrite <- Hh, <- Hd'. by case_match. }
  rewrite Ha'. clear Hd' Ha' He Hn d' e2. unfold option_release in Hr. cbv zeta in Hr.
  destruct (is_option key) eqn:Hkey; simpl in Hr; [|done].
  destruct (match hd_option_side d2 with Some _ => _ | None => _ end) eqn:Hside; [done|].
  destruct (hd_key_pressed_during_modifier d2) eqn:Hkp; [done|].
  destruct (_ || _) eqn:Htyped in Hr; [done|]. apply orb_false_iff in Htyped as [Htyped Hheld].
  match type of Hr with (let '(_, _) := option_tap ?x ?r ?b ?n ?k in _) = _ =>
    destruct (option_tap x r b n k) as [d4 t4] eqn:Htap end.
  injection Hr as -> ->. apply option_tap_fires in Htap as (Hright & Hblocks & Hform & prev & Hp1 & Hp2).
  rewrite Hright in Hside. simpl in Hp1.
  split; [done|]. split; [done|]. split; [by destruct key|]. split; [done|].
  assert (ms_ctrl mods = false ∧ hd_hold_active d2 = false) as [Hctrl Hact].
  { simpl in Hblocks. destruct (mb_dictation (hc_mode_bindings c)), (ms_ctrl mods),
      (hd_hold_active d2), (ms_cmd mods); done. }
  split; [done|]. split; [done|].
  split; [destruct (hd_option_side d2) as [[]|]; done|]. split; [done|]. split; [done|].
  split; [|by exists prev].
  intros down Hdts. rewrite Hdts in *. apply Z.ltb_ge in Hheld. split; [done|].
  intros at_ Hat. rewrite Hat in *. lia.
Qed.

(* ------------------------------------------------------------------ *)
(** ** Channel chords and the wheel *)

Definition is_channel (e : option HotkeyEvent) : bool :=
  match e with Some (AgentChannel _) => true | _ => false end.

Lemma flags_no_channel d now key mods c :
  is_channel (snd (handle_flags_changed d now key mods c)) = false.
Proof.
  unfold handle_flags_changed. cbv zeta. generalize (open_fn_press (note_wrong_arm d mods c) now key mods c).
  intros d0.
  assert (H1 : is_channel (snd (hold_transition d0 now mods c)) = false)
    by (unfold hold_transition; repeat case_match; done).
  destruct (hold_transition d0 now mods c) as [d1 e1]. simpl in H1.
  assert (H2 : is_channel (snd (resolve_fn_release d1 e1 now mods c)) = false)
    by (unfold resolve_fn_release; destruct e1; repeat case_match; done).
  destruct (resolve_fn_release d1 e1 now mods c) as [d2 e2]. simpl in H2.
  assert (Hor : ∀ t, is_channel t = false → is_channel (or_event e2 t) = false)
    by (intros; by destruct e2).
  case_match.
  { assert (H3 : is_channel (snd (raw_toggle d2 now key mods c)) = false)
      by (unfold raw_toggle, register_double_tap; repeat case_match; simplify_eq; done).
    destruct (raw_toggle _ _ _ _ _). by apply Hor. }
  case_match; [done|]. case_match; [done|]. case_match; [|done].
  destruct (option_release d2 now key mods c) as [d3 [t|]] eqn:Hr; [|done]. apply Hor.
  unfold option_release in Hr. cbv zeta in Hr.
  assert (Htap : ∀ x r b, is_channel (snd (option_tap x r b now c)) = false).
  { intros x r b. unfold option_tap, register_blocked_option_double_tap, register_double_tap.
    repeat case_match; simplify_eq; done. }
  repeat (case_match; try done); simplify_eq;
    match goal with H : option_tap ?x ?r ?b _ _ = _ |- _ => specialize (Htap x r b); by rewrite H in Htap end.
Qed.

(** a channel is summoned exactly by a digit key struck with the channel
    modifier and without Command, when that digit is not already down: no
    other input summons one, Command digits stay with the applications, and a
    held digit does not repeat. *)
Theorem agent_channel_exact d input c digit :
  snd (feed d input c) = Some (AgentChannel digit) ↔
  ∃ now mods, input = KeyDown now (KDigit digit) mods ∧
    hd_agent_channel_digit_down d ≠ Some digit ∧ ms_cmd mods = false ∧
    ((hc_channel_modifier c = ChannelCtrl ∧ ms_ctrl mods = true ∧ ms_fn_key mods = false) ∨
     (hc_channel_modifier c = ChannelFn ∧ ms_fn_key mods = true ∧ ms_ctrl mods = false)).
Proof.
  assert (Hnone : ∀ e, is_channel e = false → e ≠ Some (AgentChannel digit)) by (by intros ? ? ->).
  split.
  - destruct input as [now key mods|key mods|now key mods|now pressed mods|l p ct mo]; simpl; intros H.
    + destruct (match key with KDigit n => if channel_chord_matches (hc_channel_modifier c) mods
                 then Some n else None | _ => None end) as [n|] eqn:Hd.
      * assert (key = KDigit n ∧ channel_chord_matches (hc_channel_modifier c) mods = true) as [-> Hm].
        { destruct key; try done. by destruct (channel_chord_matches _ _); simplify_eq. }
        unfold handle_key_down in H. rewrite Hm in H. case_bool_decide; simplify_eq/=.
        exists now, mods. split; [done|]. split; [done|].
        unfold channel_chord_matches in Hm. destruct (ms_cmd mods), (hc_channel_modifier c),
          (ms_ctrl mods), (ms_fn_key mods); naive_solver.
      * exfalso. revert H. apply Hnone. unfold handle_key_down. rewrite Hd.
        generalize (if hd_fn_press_pending d then d <| hd_fn_press_pending := false |>
          <| hd_fn_press_started := None |> <| hd_key_pressed_during_modifier := true |> else d).
        intros d1. assert (Hc : is_channel (snd (cancel_hold_in_delay d1 now mods c)) = false)
          by (unfold cancel_hold_in_delay; repeat case_match; done).
        destruct (cancel_hold_in_delay d1 now mods c). repeat case_match; done.
    + done.
    + exfalso. revert H. apply Hnone, flags_no_channel.
    + exfalso. revert H. apply Hnone. case_match; [|case_match; [done|apply flags_no_channel]].
      unfold handle_agent_middle_button, end_middle_hold. repeat case_match; done.
    + exfalso. revert H. apply Hnone. unfold handle_scroll. repeat case_match; done.
  - intros (now & mods & -> & Hd & Hcmd & Hm). simpl. unfold handle_key_down, channel_chord_matches.
    destruct Hm as [(-> & H1 & H2)|(-> & H1 & H2)]; rewrite Hcmd, H1, H2; simpl;
      by rewrite bool_decide_false.
Qed.

(** a continuous device loses no movement: what it carried plus the points
    is whole steps of thirty points plus a carry of less than one step, in the
    direction of the movement, and the event sends those steps reversed and at
    most five of them; a notched wheel sends one step whatever its
    acceleration, and the momentum of a flick changes nothing. *)
Theorem scroll_exact d points lines
    (Hcarry : Z.abs (hd_scroll_points d) < SCROLL_POINTS_PER_STEP)
    (Hpoints : Z.abs points < 2 ^ 62) :
  (∃ steps, hd_scroll_points d + points
      = steps * SCROLL_POINTS_PER_STEP
        + hd_scroll_points (fst (handle_scroll d lines points true false)) ∧
    Z.abs (hd_scroll_points (fst (handle_scroll d lines points true false)))
      < SCROLL_POINTS_PER_STEP ∧
    ((steps = 0 ∧ snd (handle_scroll d lines points true false) = None) ∨
     ∃ n, snd (handle_scroll d lines points true false) = Some (AgentGesture (Scroll n)) ∧
       1 <= Z.abs n <= SCROLL_MAX_STEPS ∧ Z.sgn n = - Z.sgn steps ∧
       (Z.abs steps <= SCROLL_MAX_STEPS → n = - steps))) ∧
  (∀ momentum, handle_scroll d lines points false momentum
     = (d <| hd_scroll_points := 0 |>,
        if lines =? 0 then None else Some (AgentGesture (Scroll (- Z.sgn lines))))) ∧
  handle_scroll d lines points true true = (d, None).
Proof.
  unfold SCROLL_POINTS_PER_STEP, SCROLL_MAX_STEPS in *. split; [|split; [|done]].
  - unfold handle_scroll, sat_add_i64, i64_max, SCROLL_POINTS_PER_STEP, SCROLL_MAX_STEPS. simpl.
    rewrite (Z.max_r (- 2 ^ 63)) by lia. rewrite Z.min_r by lia.
    set (t := hd_scroll_points d + points). exists (Z.quot t 30).
    pose proof (Z.quot_rem' t 30) as Hq.
    assert (Hr : Z.abs (Z.rem t 30) < 30) by (pose proof (Z.rem_bound_abs t 30); lia).
    case_match eqn:Hz; simpl.
    + apply Z.eqb_eq in Hz. split; [lia|]. split; [|by left]. lia.
    + apply Z.eqb_neq in Hz. split; [lia|]. split; [lia|]. right. eexists. split; [done|]. lia.
  - intros momentum. unfold handle_scroll. simpl. f_equal.
    destruct (Z.sgn_spec lines) as [[? ->]|[[? ->]|[? ->]]], (Z.eqb_spec lines 0); simpl;
      try done; try lia.
Qed.

(* ------------------------------------------------------------------ *)
(** ** Witnesses *)

Definition ex_none : HotkeyModifierSnapshot := mkMods false false false false false.
Definition ex_fn : HotkeyModifierSnapshot := mkMods false false false false true.
Definition ex_option : HotkeyModifierSnapshot := mkMods false true false false false.
Definition ex_tap_config : HotkeyRuntimeConfig :=
  ex_hotkeys <| hc_fn_tap_toggles_dictation := true |>.

(** Two Fn presses under Fn-tap: a hold the timer promotes and a late release
    the timer settles. *)
Definition ex_hold_steps : list DetectorStep :=
  [Feed (FlagsChanged 0 KFn ex_fn) ex_tap_config; Poll (millis 900) ex_tap_config;
   Feed (FlagsChanged (millis 2000) KFn ex_none) ex_tap_config;
   Feed (FlagsChanged (millis 3000) KFn ex_fn) ex_tap_config;
   Feed (FlagsChanged (millis 4000) KFn ex_none) ex_tap_config;
   Poll (millis 4010) ex_tap_config;
   Feed (FlagsChanged (millis 5000) KFn ex_fn) ex_tap_config;
   Feed (FlagsChanged (millis 5100) KFn ex_none) ex_tap_config].

Lemma hold_alternation_witness :
  snd (run_detector detector_default ex_hold_steps)
    = [Hold Down Raw; Hold Up Raw; Hold Down Raw; Hold Up Raw; ToggleRaw] ∧
  let '(d, es) := run_detector detector_default ex_hold_steps in
  announced false es = Some (hd_hold_active d).
Proof.
  split; [vm_compute; reflexivity|]. apply (hold_alternation false).
  - assert (Hall : Forall (λ s, ∀ c, step_config s = Some c → config_ok false c = true) ex_hold_steps)
      by (repeat (constructor; [intros ? [=<-]; reflexivity|]); constructor).
    rewrite Forall_forall in Hall. intros s c Hs. by apply Hall.
  - vm_compute. reflexivity.
Defined.

Definition ex_late_config : HotkeyRuntimeConfig :=
  ex_tap_config <| hc_mode_bindings := mkBindings HoldFn BindDisabled BindDisabled |>.

Lemma overdue_release_ends_twice_witness :
  snd (run_detector detector_default
        [Feed (FlagsChanged 0 KFn ex_fn) ex_late_config;
         Feed (FlagsChanged (millis 900) KFn ex_none) ex_late_config;
         Feed (FlagsChanged (millis 910) KLeftOption ex_none) ex_late_config;
         Poll (millis 950) ex_late_config])
    = [Hold Down Raw; Hold Up Raw; Hold Up Raw].
Proof.
  apply (overdue_release_ends_twice 0 (millis 900) (millis 910) (millis 950) ex_late_config);
    try reflexivity. vm_compute. discriminate.
Defined.

(** Option down again, within the interval of an earlier left tap. *)
Definition ex_second_tap : HotkeyDetector :=
  detector_default <| hd_last_left_tap_ts := Some 0 |> <| hd_option_down := true |>
    <| hd_option_side := Some false |> <| hd_option_down_ts := Some (millis 100) |>.

Lemma option_toggle_sound_witness :
  snd (handle_flags_changed ex_second_tap (millis 200) KLeftOption ex_none ex_hotkeys)
    = Some ToggleNormal ∧
  ∃ previous, hd_last_left_tap_ts ex_second_tap = Some previous ∧
    elapsed_between (millis 200) previous <= millis (hc_double_tap_interval_ms ex_hotkeys).
Proof.
  split; [vm_compute; reflexivity|].
  destruct (option_toggle_sound ex_second_tap (millis 200) KLeftOption ex_none ex_hotkeys
    (fst (handle_flags_changed ex_second_tap (millis 200) KLeftOption ex_none ex_hotkeys)))
    as (_ & _ & _ & _ & _ & _ & _ & _ & _ & _ & H); [vm_compute; reflexivity|exact H].
Defined.

Lemma scroll_exact_witness :
  handle_scroll (detector_default <| hd_scroll_points := -20 |>) 0 (-80) true false
    = (detector_default <| hd_scroll_points := -10 |>, Some (AgentGesture (Scroll 3))) ∧
  handle_scroll (detector_default <| hd_scroll_points := -20 |>) 0 (-80) true true
    = (detector_default <| hd_scroll_points := -20 |>, None).
Proof.
  split; [vm_compute; reflexivity|].
  apply (scroll_exact (detector_default <| hd_scroll_points := -20 |>) (-80) 0); vm_compute; reflexivity.
Defined.
