(* ===== verification/HotkeyGestures.v ===== *)
(** HotkeyGestures: the lock-free word of the gesture settings
    (app/os/hotkeys/config.rs, [update_gesture_bits]).

    Several threads replace their own slice of one atomic word, each by a
    compare-exchange loop.  A step is one atomic access; the weak exchange may
    fail without reason. *)

From S2P Require Import Prelude.
From S2P Require Import HotkeyConfig.
#[local] Open Scope Z_scope.

(* ------------------------------------------------------------------ *)
(** ** Writers *)

(** Where a call of [update_gesture_bits] stands. *)
Inductive WriterPc := AtLoad | AtExchange (current : Z) | Returned.

Record Writer := mkWriter { wr_mask : Z; wr_value : Z; wr_pc : WriterPc }.

(** [(current & !mask) | value]. *)
Definition replace_bits (current mask value : Z) : Z :=
  Z.lor (Z.land current (65535 - mask)) value.

Record Gestures := mkGestures { ge_word : Z; ge_writers : list Writer }.

(** One atomic access of writer [i]. *)
Inductive gesture_step (g : Gestures) : Gestures → Prop :=
  | StepLoad i w :
      ge_writers g !! i = Some w → wr_pc w = AtLoad →
      gesture_step g (g <| ge_writers := <[i := w <| wr_pc := AtExchange (ge_word g) |>]> (ge_writers g) |>)
  | StepExchanged i w :
      ge_writers g !! i = Some w → wr_pc w = AtExchange (ge_word g) →
      gesture_step g
        (mkGestures (replace_bits (ge_word g) (wr_mask w) (wr_value w))
           (<[i := w <| wr_pc := Returned |>]> (ge_writers g)))
  | StepRefused i w current :
      ge_writers g !! i = Some w → wr_pc w = AtExchange current →
      gesture_step g (g <| ge_writers := <[i := w <| wr_pc := AtExchange (ge_word g) |>]> (ge_writers g) |>).

Definition call_of (mask_value : Z * Z) : Writer :=
  mkWriter (fst mask_value) (snd mask_value) AtLoad.

(** The calls one after the other, none interrupted. *)
Definition sequential (a : Atomics) (calls : list (Z * Z)) : Atomics :=
  fold_left (λ a c, update_gesture_bits a (fst c) (snd c)) calls a.

Definition all_returned (g : Gestures) : Prop :=
  Forall (λ w, wr_pc w = Returned) (ge_writers g).

(** A slice: a mask of the u16, and a value inside it. *)
Definition slice_wf (mask_value : Z * Z) : Prop :=
  0 <= fst mask_value < 65536 ∧ 0 <= snd mask_value ∧
  ∀ b, Z.testbit (snd mask_value) b = true → Z.testbit (fst mask_value) b = true.

Definition slices_disjoint (calls : list (Z * Z)) : Prop :=
  ∀ i j mi mj b, calls !! i = Some mi → calls !! j = Some mj →
    Z.testbit (fst mi) b = true → Z.testbit (fst mj) b = true → i = j.

(* ------------------------------------------------------------------ *)
(** ** Bits *)

Lemma u16_bits_above n b : 0 <= n < 65536 → 16 <= b → Z.testbit n b = false.
Proof.
  intros Hn Hb. destruct (Z.eq_dec n 0) as [->|]; [apply Z.bits_0|].
  apply Z.bits_above_log2; [lia|]. apply Z.lt_le_trans with 16; [|lia].
  apply Z.log2_lt_pow2; simpl; lia.
Qed.

Lemma u16_of_bits n : 0 <= n → (∀ b, 16 <= b → Z.testbit n b = false) → n < 65536.
Proof.
  intros Hn Hb. destruct (Z.eq_dec n 0); [lia|]. change 65536 with (2 ^ 16).
  apply Z.log2_lt_pow2; [lia|]. destruct (Z.lt_ge_cases (Z.log2 n) 16); [done|].
  pose proof (Z.bit_log2 n ltac:(lia)) as Hl. by rewrite Hb in Hl.
Qed.

Lemma u16_complement mask b :
  0 <= mask < 65536 → 0 <= b → Z.testbit (65535 - mask) b = (b <? 16) && negb (Z.testbit mask b).
Proof.
  intros Hm Hb. change 65535 with (Z.ones 16).
  assert (Hsub : Z.ldiff mask (Z.ones 16) = 0).
  { apply Z.bits_inj'. intros n Hn. rewrite Z.ldiff_spec, Z.bits_0.
    destruct (Z.ltb_spec n 16); [rewrite Z.ones_spec_low by lia; by rewrite andb_false_r|].
    by rewrite u16_bits_above by lia. }
  rewrite Z.sub_nocarry_ldiff by done. rewrite Z.ldiff_spec. f_equal.
  destruct (Z.ltb_spec b 16); [by apply Z.ones_spec_low; lia|by apply Z.ones_spec_high; lia].
Qed.

Lemma replace_bits_spec current mask value b :
  slice_wf (mask, value) → 0 <= current < 65536 → 0 <= b →
  Z.testbit (replace_bits current mask value) b
    = if Z.testbit mask b then Z.testbit value b else Z.testbit current b.
Proof.
  intros (Hm & Hv & Hin) Hc Hb. simpl in *. unfold replace_bits.
  rewrite Z.lor_spec, Z.land_spec, u16_complement by done. specialize (Hin b).
  destruct (Z.testbit mask b), (Z.testbit value b) eqn:Hvb; simpl;
    rewrite ?andb_false_r, ?orb_true_r, ?orb_false_r; try done.
  - by specialize (Hin eq_refl).
  - rewrite andb_true_r. destruct (Z.ltb_spec b 16); [by rewrite andb_true_r|].
    rewrite andb_false_r. by rewrite u16_bits_above.
Qed.

Lemma replace_bits_range current mask value :
  slice_wf (mask, value) → 0 <= current < 65536 → 0 <= replace_bits current mask value < 65536.
Proof.
  intros Hs Hc. pose proof Hs as (Hm & Hv & Hin). simpl in *.
  assert (Hpos : 0 <= replace_bits current mask value).
  { unfold replace_bits. apply Z.lor_nonneg. split; [apply Z.land_nonneg; lia|done]. }
  split; [done|]. apply u16_of_bits; [done|]. intros b Hb.
  rewrite replace_bits_spec by (done || lia). rewrite !u16_bits_above by lia. done.
Qed.

(* ------------------------------------------------------------------ *)
(** ** The word is what the returned calls made of it *)

(** The bit [b] after the calls in [done], over the word [word0]. *)
Definition bit_after (word0 : Z) (calls : list (Z * Z)) (b : Z) : bool :=
  fold_left (λ bit c, if Z.testbit (fst c) b then Z.testbit (snd c) b else bit) calls
    (Z.testbit word0 b).

Definition calls_of (ws : list Writer) : list (Z * Z) := map (λ w, (wr_mask w, wr_value w)) ws.

Lemma bit_after_untouched word0 calls b :
  Forall (λ c, Z.testbit (fst c) b = false) calls → bit_after word0 calls b = Z.testbit word0 b.
Proof.
  unfold bit_after. generalize (Z.testbit word0 b). induction calls as [|c calls IH]; intros bit H; [done|].
  apply Forall_cons in H as [Hc H]. simpl. rewrite Hc. by apply IH.
Qed.

Lemma bit_after_app word0 l1 l2 b :
  Forall (λ c, Z.testbit (fst c) b = false) l2 → bit_after word0 (l1 ++ l2) b = bit_after word0 l1 b.
Proof.
  intros H. unfold bit_after. rewrite fold_left_app.
  generalize (fold_left (λ bit c, if Z.testbit (fst c) b then Z.testbit (snd c) b else bit) l1
    (Z.testbit word0 b)). induction l2 as [|c l2 IH]; intros bit; [done|].
  apply Forall_cons in H as [Hc H]. simpl. rewrite Hc. by apply IH.
Qed.

Lemma bit_after_owner word0 l1 c l2 b :
  Z.testbit (fst c) b = true → Forall (λ c, Z.testbit (fst c) b = false) l2 →
  bit_after word0 (l1 ++ c :: l2) b = Z.testbit (snd c) b.
Proof.
  intros Hc H. change (c :: l2) with ([c] ++ l2). rewrite app_assoc, bit_after_app by done.
  unfold bit_after. rewrite fold_left_app. simpl. by rewrite Hc.
Qed.

(** Each bit has at most one owner; it is that owner's once its call returned,
    and the initial one before. *)
Record gestures_inv (word0 : Z) (calls : list (Z * Z)) (g : Gestures) : Prop := {
  gi_range : 0 <= ge_word g < 65536;
  gi_calls : calls_of (ge_writers g) = calls;
  gi_owned : ∀ i w b, 0 <= b → ge_writers g !! i = Some w → Z.testbit (wr_mask w) b = true →
    Z.testbit (ge_word g) b
      = match wr_pc w with Returned => Z.testbit (wr_value w) b | _ => Z.testbit word0 b end;
  gi_free : ∀ b, 0 <= b → Forall (λ c, Z.testbit (fst c) b = false) calls →
    Z.testbit (ge_word g) b = Z.testbit word0 b
}.

Lemma gestures_inv_init word0 calls :
  0 <= word0 < 65536 → gestures_inv word0 calls (mkGestures word0 (map call_of calls)).
Proof.
  intros H. split; simpl; [done| |intros i w b _ Hi _|done].
  - unfold calls_of, call_of. rewrite map_map. rewrite <- (map_id calls) at 2.
    apply map_ext. by intros [].
  - apply list_lookup_fmap_Some in Hi as (c & -> & _). done.
Qed.

Lemma calls_of_insert ws i w w' :
  ws !! i = Some w → wr_mask w' = wr_mask w → wr_value w' = wr_value w →
  calls_of (<[i := w']> ws) = calls_of ws.
Proof.
  intros Hi Hm Hv. unfold calls_of.
  change (map (λ w, (wr_mask w, wr_value w)) (<[i:=w']> ws))
    with ((λ w, (wr_mask w, wr_value w)) <$> <[i:=w']> ws).
  rewrite list_fmap_insert. apply list_insert_id. rewrite list_lookup_fmap, Hi. simpl. by rewrite Hm, Hv.
Qed.

(** A step that leaves the word alone. *)
Lemma gestures_inv_pc word0 calls g i w pc :
  gestures_inv word0 calls g → ge_writers g !! i = Some w → wr_pc w ≠ Returned → pc ≠ Returned →
  gestures_inv word0 calls (g <| ge_writers := <[i := w <| wr_pc := pc |>]> (ge_writers g) |>).
Proof.
  intros [Hr Hc Ho Hf] Hi Hpc Hpc'. split; simpl; [done| | |done].
  - by rewrite (calls_of_insert _ _ w).
  - intros j w' b Hb Hj Hm. destruct (decide (i = j)) as [<-|Hij].
    + rewrite list_lookup_insert_eq in Hj by (eapply lookup_lt_Some; done). injection Hj as <-. simpl in *.
      rewrite (Ho i w b) by done. by destruct (wr_pc w), pc.
    + rewrite list_lookup_insert_ne in Hj by done. by apply (Ho j).
Qed.

Lemma gestures_step_inv word0 calls g g' :
  Forall slice_wf calls → slices_disjoint calls →
  gestures_inv word0 calls g → gesture_step g g' → gestures_inv word0 calls g'.
Proof.
  intros Hwf Hdis Hinv Hstep. destruct Hstep as [i w Hi Hpc|i w Hi Hpc|i w cur Hi Hpc].
  - apply gestures_inv_pc; [done|done|by rewrite Hpc|done].
  - pose proof Hinv as [Hr Hc Ho Hf].
    assert (Hcall : ∀ j wj, ge_writers g !! j = Some wj → calls !! j = Some (wr_mask wj, wr_value wj)).
    { intros j wj Hj. rewrite <- Hc. unfold calls_of. by rewrite list_lookup_fmap, Hj. }
    assert (Hw : slice_wf (wr_mask w, wr_value w))
      by (rewrite Forall_forall in Hwf; eapply Hwf, list_elem_of_lookup_2, Hcall, Hi).
    split; simpl.
    + by apply replace_bits_range.
    + by rewrite (calls_of_insert _ _ w).
    + intros j w' b Hb Hj Hm. rewrite replace_bits_spec by done.
      destruct (decide (i = j)) as [<-|Hij].
      * rewrite list_lookup_insert_eq in Hj by (eapply lookup_lt_Some; done).
        injection Hj as <-. simpl in *. by rewrite Hm.
      * rewrite list_lookup_insert_ne in Hj by done.
        destruct (Z.testbit (wr_mask w) b) eqn:Hmi; [|by apply (Ho j)].
        destruct Hij. by eapply (Hdis i j _ _ b (Hcall _ _ Hi) (Hcall _ _ Hj)).
    + intros b Hb Hfree. rewrite replace_bits_spec by done.
      assert (Z.testbit (wr_mask w) b = false) as ->; [|by apply Hf].
      rewrite Forall_forall in Hfree. apply (Hfree (wr_mask w, wr_value w)).
      eapply list_elem_of_lookup_2, Hcall, Hi.
  - apply gestures_inv_pc; [done|done|by rewrite Hpc|done].
Qed.

Lemma gestures_run_inv word0 calls g g' :
  Forall slice_wf calls → slices_disjoint calls →
  gestures_inv word0 calls g → rtc gesture_step g g' → gestures_inv word0 calls g'.
Proof.
  intros Hwf Hdis Hinv Hrun. induction Hrun as [|g1 g2 g3 Hs _ IH]; [done|].
  apply IH. by apply (gestures_step_inv _ _ g1).
Qed.

Lemma sequential_bits a calls b :
  Forall slice_wf calls → 0 <= at_gestures a < 65536 → 0 <= b →
  0 <= at_gestures (sequential a calls) < 65536 ∧
  Z.testbit (at_gestures (sequential a calls)) b = bit_after (at_gestures a) calls b.
Proof.
  unfold sequential, bit_after. intros Hwf Ha Hb. revert a Ha.
  induction calls as [|[m v] calls IH]; intros a Ha; [done|].
  apply Forall_cons in Hwf as [Hs Hwf].
  destruct (IH Hwf (update_gesture_bits a m v)) as [H1 H2]; [by apply replace_bits_range|].
  simpl. split; [done|]. rewrite H2. f_equal. by apply (replace_bits_spec (at_gestures a) m v b).
Qed.

Lemma gestures_inv_final word0 calls g b :
  gestures_inv word0 calls g → all_returned g → slices_disjoint calls → 0 <= b →
  Z.testbit (ge_word g) b = bit_after word0 calls b.
Proof.
  intros [Hr Hc Ho Hf] Hall Hdis Hb.
  destruct (decide (Forall (λ c, Z.testbit (fst c) b = false) calls)) as [Hfree|Howned].
  { rewrite bit_after_untouched by done. by apply Hf. }
  assert (∃ i c, calls !! i = Some c ∧ Z.testbit (fst c) b = true) as (i & c & Hi & Hm).
  { apply not_Forall_Exists in Howned; [|intros x; apply bool_eq_dec].
    apply Exists_exists in Howned as (c & Hin & Hcb). apply list_elem_of_lookup_1 in Hin as [i Hi].
    exists i, c. split; [done|]. simpl in Hcb. by destruct (Z.testbit (fst c) b). }
  rewrite <- (take_drop_middle calls i c Hi) at 1. rewrite bit_after_owner; [|done|].
  - rewrite <- Hc in Hi. unfold calls_of in Hi. apply list_lookup_fmap_Some in Hi as (w & -> & Hw).
    rewrite (Ho i w) by done. unfold all_returned in Hall. rewrite Forall_forall in Hall.
    by rewrite (Hall w) by (eapply list_elem_of_lookup_2; done).
  - apply Forall_lookup. intros j d Hj. rewrite lookup_drop in Hj.
    destruct (Z.testbit (fst d) b) eqn:Hd; [|done].
    specialize (Hdis _ _ _ _ b Hi Hj Hm Hd). lia.
Qed.

(* ------------------------------------------------------------------ *)
(** ** No call blocks another *)

Definition waiting (w : Writer) : bool := match wr_pc w with Returned => false | _ => true end.

Definition pending_calls (ws : list Writer) : nat := length (filter (λ w, waiting w = true) ws).

Lemma pending_insert ws i w w' :
  ws !! i = Some w → waiting w = true → waiting w' = false →
  pending_calls ws = S (pending_calls (<[i := w']> ws)).
Proof.
  intros Hi Hw Hw'. rewrite <- (take_drop_middle ws i w Hi) at 1.
  rewrite insert_take_drop by (eapply lookup_lt_Some; done). unfold pending_calls.
  rewrite !filter_app, !filter_cons. rewrite decide_True by done.
  rewrite decide_False by congruence. rewrite !length_app. simpl. lia.
Qed.

Lemma pending_zero ws : pending_calls ws = 0%nat → Forall (λ w, wr_pc w = Returned) ws.
Proof.
  unfold pending_calls. intros H. apply length_zero_iff_nil in H. apply Forall_forall. intros w Hw.
  destruct (waiting w) eqn:Hb; [|unfold waiting in Hb; by destruct (wr_pc w)].
  assert (Hin : w ∈ filter (λ w, waiting w = true) ws) by by apply list_elem_of_filter.
  rewrite H in Hin. by apply not_elem_of_nil in Hin.
Qed.

Lemma pending_some ws : pending_calls ws ≠ 0%nat → ∃ i w, ws !! i = Some w ∧ waiting w = true.
Proof.
  unfold pending_calls. intros H.
  destruct (filter (λ w, waiting w = true) ws) as [|w l] eqn:Hf; [done|].
  assert (Hin : w ∈ filter (λ w, waiting w = true) ws) by (rewrite Hf; left).
  apply list_elem_of_filter in Hin as [Hw Hin]. apply list_elem_of_lookup_1 in Hin as [i Hi]. eauto.
Qed.

(** A writer that runs alone returns within two accesses. *)
Lemma writer_returns g i w :
  ge_writers g !! i = Some w → waiting w = true →
  ∃ g', rtc gesture_step g g' ∧
    ge_writers g' = <[i := w <| wr_pc := Returned |>]> (ge_writers g).
Proof.
  intros Hi Hw. set (w1 := w <| wr_pc := AtExchange (ge_word g) |>).
  set (g1 := g <| ge_writers := <[i := w1]> (ge_writers g) |>).
  assert (H1 : gesture_step g g1).
  { unfold waiting in Hw. destruct (wr_pc w) eqn:Hpc; [| |done].
    - by apply StepLoad.
    - by eapply StepRefused. }
  assert (Hlt : (i < length (ge_writers g))%nat) by (eapply lookup_lt_Some; done).
  eexists. split.
  - eapply rtc_l; [exact H1|]. apply rtc_once. apply (StepExchanged g1 i w1); [|done].
    simpl. by apply list_lookup_insert_eq.
  - simpl. rewrite list_insert_insert_eq. done.
Qed.

Lemma writers_can_return n g :
  pending_calls (ge_writers g) = n → ∃ g', rtc gesture_step g g' ∧ all_returned g'.
Proof.
  revert g. induction n as [|n IH]; intros g Hn.
  - exists g. split; [done|]. by apply pending_zero.
  - destruct (pending_some (ge_writers g)) as (i & w & Hi & Hw); [lia|].
    destruct (writer_returns g i w Hi Hw) as (g1 & H1 & Hws).
    destruct (IH g1) as (g2 & H2 & Hall).
    { rewrite Hws. rewrite (pending_insert _ i w (w <| wr_pc := Returned |>) Hi Hw) in Hn by done. lia. }
    exists g2. split; [by etrans|done].
Qed.

(** however the compare-exchange loops of several setters interleave, and
    whichever exchanges fail, no update is lost: once every call has returned
    the word is the one the calls leave when they run one after the other,
    provided their slices are disjoint; and from every moment on every call
    can return, so no setter waits for another. *)
Theorem gesture_updates_atomic a calls g
    (Hrange : 0 <= at_gestures a < 65536)
    (Hslices : Forall slice_wf calls)
    (Hdisjoint : slices_disjoint calls)
    (Hrun : rtc gesture_step (mkGestures (at_gestures a) (map call_of calls)) g) :
  (all_returned g → ge_word g = at_gestures (sequential a calls)) ∧
  ∃ g', rtc gesture_step g g' ∧ all_returned g' ∧ ge_word g' = at_gestures (sequential a calls).
Proof.
  pose proof (gestures_run_inv _ _ _ _ Hslices Hdisjoint (gestures_inv_init _ _ Hrange) Hrun) as Hinv.
  assert (Hfinal : ∀ g, gestures_inv (at_gestures a) calls g → all_returned g →
    ge_word g = at_gestures (sequential a calls)).
  { intros g' Hi Hall. apply Z.bits_inj'. intros b Hb.
    rewrite (gestures_inv_final _ _ _ b Hi Hall Hdisjoint Hb). by destruct (sequential_bits a calls b). }
  split; [by apply Hfinal|].
  destruct (writers_can_return _ g eq_refl) as (g' & Hs & Hall). exists g'. split; [done|]. split; [done|].
  apply Hfinal; [|done]. by apply (gestures_run_inv _ _ g).
Qed.

(* ------------------------------------------------------------------ *)
(** ** Witness *)

(** Bindings and channel modifier set by two threads at once; the second loads
    before the first exchanges, is refused and retries. *)
Definition ex_calls : list (Z * Z) :=
  [(MODE_BINDINGS_MASK, encode_mode_hotkey_bindings (mkBindings HoldCtrl BindDisabled BindDisabled));
   (CHANNEL_MODIFIER_MASK, Z.shiftl (encode_channel_modifier ChannelOff) 12)].

Definition ex_writers (pc1 pc2 : WriterPc) : list Writer :=
  [mkWriter MODE_BINDINGS_MASK 2 pc1; mkWriter CHANNEL_MODIFIER_MASK 8192 pc2].

Lemma ex_slices_disjoint : slices_disjoint ex_calls.
Proof.
  assert (H : ∀ b, Z.testbit 4095 b = true → Z.testbit 12288 b = true → False).
  { intros b H1 H2. assert (Hl : Z.testbit (Z.land 4095 12288) b = true) by (by rewrite Z.land_spec, H1, H2).
    by rewrite Z.bits_0 in Hl. }
  intros [|[|i]] [|[|j]] mi mj b Hi Hj Hbi Hbj; simplify_eq/=; try done; exfalso; eauto.
Qed.

Lemma gesture_updates_atomic_witness :
  let g := mkGestures 8194 (ex_writers Returned Returned) in
  ge_word g = at_gestures (sequential ex_atomics ex_calls) ∧
  hc_channel_modifier (get_hotkey_runtime_config (sequential ex_atomics ex_calls)) = ChannelOff.
Proof.
  intros g. split; [|vm_compute; reflexivity].
  refine (proj1 (gesture_updates_atomic ex_atomics ex_calls g _ _ ex_slices_disjoint _) _).
  - vm_compute. split; [discriminate|reflexivity].
  - assert (Hbits : ∀ m v, Z.land v m = v → ∀ b, Z.testbit v b = true → Z.testbit m b = true).
    { intros m v Hv b Hb. rewrite <- Hv, Z.land_spec in Hb. by apply andb_true_iff in Hb as [_ Hb]. }
    repeat (constructor; [split; [vm_compute; split; [discriminate|reflexivity]|];
      split; [vm_compute; discriminate|]; apply Hbits; vm_compute; reflexivity|]). constructor.
  - change (map call_of ex_calls) with (ex_writers AtLoad AtLoad).
    change (at_gestures ex_atomics) with 2161.
    eapply rtc_l; [by apply (StepLoad _ 0)|]. eapply rtc_l; [by apply (StepLoad _ 1)|]. simpl.
    eapply rtc_l; [by apply (StepExchanged _ 0 (mkWriter MODE_BINDINGS_MASK 2 (AtExchange 2161)))|]. simpl.
    eapply rtc_l; [by eapply (StepRefused _ 1)|]. simpl.
    eapply rtc_l; [by eapply (StepExchanged _ 1)|]. vm_compute. apply rtc_refl.
  - repeat constructor.
Defined.
