(* ===== verification/BTree.v ===== *)
(** BTree: string-keyed [BTreeMap]s as association lists in key order.

    The order is that of the bytes, as for Rust's [str]; iteration reads the
    list from the front. *)

From S2P Require Import Prelude.
#[local] Open Scope Z_scope.

Definition BTree (V : Type) := list (string * V).

Fixpoint btree_get {V} (k : string) (m : BTree V) : option V :=
  match m with
  | [] => None
  | (k', v) :: m' => if String.eqb k k' then Some v else btree_get k m'
  end.

Fixpoint btree_insert {V} (k : string) (v : V) (m : BTree V) : BTree V :=
  match m with
  | [] => [(k, v)]
  | (k', v') :: m' =>
      if String.eqb k k' then (k, v) :: m'
      else if String.ltb k k' then (k, v) :: m
      else (k', v') :: btree_insert k v m'
  end.

Fixpoint btree_remove {V} (k : string) (m : BTree V) : BTree V :=
  match m with
  | [] => []
  | (k', v') :: m' => if String.eqb k k' then m' else (k', v') :: btree_remove k m'
  end.

(** [entry(k).or_insert(v)]. *)
Definition btree_or_insert {V} (k : string) (v : V) (m : BTree V) : BTree V :=
  match btree_get k m with Some _ => m | None => btree_insert k v m end.

(** Keys strictly increase. *)
Definition btree_wf {V} (m : BTree V) : Prop :=
  StronglySorted (λ x y, String.ltb x.1 y.1 = true) m.

(* ------------------------------------------------------------------ *)
(** ** The order on keys *)

Lemma ascii_compare_N c d : Ascii.compare c d = N.compare (Ascii.N_of_ascii c) (Ascii.N_of_ascii d).
Proof. done. Qed.

Lemma ltb_trans a b c : String.ltb a b = true → String.ltb b c = true → String.ltb a c = true.
Proof.
  unfold String.ltb. revert b c. induction a as [|x a IH]; intros [|y b] [|z c]; simpl; try done.
  rewrite !ascii_compare_N.
  destruct (N.compare_spec (Ascii.N_of_ascii x) (Ascii.N_of_ascii y)),
    (N.compare_spec (Ascii.N_of_ascii y) (Ascii.N_of_ascii z)),
    (N.compare_spec (Ascii.N_of_ascii x) (Ascii.N_of_ascii z)); try done; try lia.
  apply IH.
Qed.

Lemma ltb_irrefl a : String.ltb a a = false.
Proof.
  unfold String.ltb. induction a as [|x a IH]; simpl; [done|].
  rewrite ascii_compare_N, N.compare_refl. done.
Qed.

Lemma ltb_total a b : String.eqb a b = false → String.ltb a b = false → String.ltb b a = true.
Proof.
  unfold String.ltb. intros Hne Hlt. rewrite String.compare_antisym in Hlt.
  destruct (String.compare b a) eqn:Hc; simpl in *; try done.
  apply String.compare_eq_iff in Hc as ->. by rewrite String.eqb_refl in Hne.
Qed.

(* ------------------------------------------------------------------ *)
(** ** Lookup *)

Section btree.
  Context {V : Type}.
  Implicit Types m : BTree V.

Lemma btree_get_insert k v m : btree_get k (btree_insert k v m) = Some v.
  Proof.
    induction m as [|[k' v'] m IH]; simpl; [by rewrite String.eqb_refl|].
    destruct (String.eqb k k') eqn:He; simpl; [by rewrite String.eqb_refl|].
    destruct (String.ltb k k'); simpl; [by rewrite String.eqb_refl|by rewrite He].
  Qed.

Lemma btree_get_insert_ne k k' v m : k ≠ k' → btree_get k' (btree_insert k v m) = btree_get k' m.
  Proof.
    intros Hne. assert (Hf : String.eqb k' k = false) by by apply String.eqb_neq.
    induction m as [|[k2 v2] m IH]; simpl; [by rewrite Hf|].
    destruct (String.eqb_spec k k2) as [->|]; simpl; [by rewrite Hf|].
    destruct (String.ltb k k2); simpl; [by rewrite Hf|]. by rewrite IH.
  Qed.

Lemma btree_get_remove_ne k k' m : k ≠ k' → btree_get k' (btree_remove k m) = btree_get k' m.
  Proof.
    intros Hne. induction m as [|[k2 v2] m IH]; simpl; [done|].
    destruct (String.eqb_spec k k2) as [->|]; simpl; [|by rewrite IH].
    by apply String.eqb_neq in Hne as Hf; rewrite String.eqb_sym, Hf.
  Qed.

Lemma btree_get_below k m :
    Forall (λ x, String.ltb k x.1 = true) m → btree_get k m = None.
  Proof.
    induction 1 as [|[k' v'] m Hk _ IH]; simpl in *; [done|].
    destruct (String.eqb_spec k k') as [->|]; [|done]. by rewrite ltb_irrefl in Hk.
  Qed.

Lemma btree_get_remove k m : btree_wf m → btree_get k (btree_remove k m) = None.
  Proof.
    induction 1 as [|[k' v'] m Hm IH Hk]; simpl in *; [done|].
    destruct (String.eqb_spec k k') as [->|Hne]; [by apply btree_get_below|].
    simpl. by rewrite (proj2 (String.eqb_neq _ _) Hne).
  Qed.

Lemma btree_insert_keys k v m (P : string → Prop) :
    P k → Forall (λ x, P x.1) m → Forall (λ x, P x.1) (btree_insert k v m).
  Proof.
    intros Hk. induction 1 as [|[k' v'] m Hk' Hm IH]; simpl in *; [by constructor|].
    repeat case_match; by repeat constructor.
  Qed.

Lemma btree_insert_wf k v m : btree_wf m → btree_wf (btree_insert k v m).
  Proof.
    unfold btree_wf. induction 1 as [|[k' v'] m Hm IH Hk]; simpl; [by repeat constructor|].
    destruct (String.eqb_spec k k') as [->|Hne]; [by constructor|].
    destruct (String.ltb k k') eqn:Hlt.
    - constructor; [by constructor|]. constructor; [done|].
      eapply Forall_impl; [exact Hk|]. simpl. intros [k2 v2] ?. by eapply ltb_trans.
    - constructor; [done|]. apply (btree_insert_keys k v m (λ k2, String.ltb k' k2 = true)); [|done].
      apply ltb_total; [by apply String.eqb_neq|done].
  Qed.

Lemma btree_remove_keys k m (P : string → Prop) :
    Forall (λ x, P x.1) m → Forall (λ x, P x.1) (btree_remove k m).
  Proof.
    induction 1 as [|[k' v'] m Hk' Hm IH]; simpl in *; [constructor|]. case_match; by try constructor.
  Qed.

Lemma btree_remove_wf k m : btree_wf m → btree_wf (btree_remove k m).
  Proof.
    unfold btree_wf. induction 1 as [|[k' v'] m Hm IH Hk]; simpl; [constructor|].
    case_match; [done|]. constructor; [done|].
    by apply (btree_remove_keys k m (λ k2, String.ltb k' k2 = true)).
  Qed.

Lemma btree_or_insert_wf k v m : btree_wf m → btree_wf (btree_or_insert k v m).
  Proof. unfold btree_or_insert. intros. case_match; [done|]. by apply btree_insert_wf. Qed.

Lemma btree_get_or_insert k v k' m :
    btree_get k' (btree_or_insert k v m)
      = match btree_get k' m with
        | Some v' => Some v'
        | None => if String.eqb k k' then Some v else None
        end.
  Proof.
    unfold btree_or_insert. destruct (btree_get k m) as [w|] eqn:Hk.
    - destruct (String.eqb_spec k k') as [->|]; [by rewrite Hk|]. by destruct (btree_get k' m).
    - destruct (String.eqb_spec k k') as [->|Hne]; [by rewrite Hk, btree_get_insert|].
      rewrite btree_get_insert_ne by done. by destruct (btree_get k' m).
  Qed.
End btree.
