(* ===== verification/AgentPermissions.v ===== *)
(** AgentPermissions: the allow / ask / deny policy of agent tools
    (core/agent/permissions.rs, core/agent/tool_grants.rs).

    The durable policy lives in the settings file, the older "always allow"
    grants in a file of their own.  [PermStore] is both; whether a write of
    either reaches the disk is an argument, since the code handles a failure. *)

From S2P Require Import Prelude.
From S2P Require Import Text.
From S2P Require Import BTree.
#[local] Open Scope Z_scope.
#[local] Open Scope mach_scope.

(* ------------------------------------------------------------------ *)
(** ** Levels, sources, tools *)

Inductive PermissionLevel := PermAllow | PermAsk | PermDeny.

#[global] Instance PermissionLevel_eq_dec : EqDecision PermissionLevel.
Proof. solve_decision. Defined.

Definition level_as_str (l : PermissionLevel) : string :=
  match l with PermAllow => "allow" | PermAsk => "ask" | PermDeny => "deny" end.

(** [PermissionLevel::parse]: an unknown level is an error. *)
Definition level_parse (raw : string) : string + PermissionLevel :=
  let token := to_ascii_lowercase (trim raw) in
  if String.eqb token "allow" then inr PermAllow
  else if String.eqb token "ask" then inr PermAsk
  else if String.eqb token "deny" then inr PermDeny
  else inl ("unknown permission level '" +:+ token +:+ "' (want allow|ask|deny)")%string.

Inductive PermissionSource := SourceThread | SourceTool | SourceServer | SourceDefault.

#[global] Instance PermissionSource_eq_dec : EqDecision PermissionSource.
Proof. solve_decision. Defined.

Definition source_as_str (s : PermissionSource) : string :=
  match s with
  | SourceThread => "thread" | SourceTool => "tool" | SourceServer => "server"
  | SourceDefault => "default"
  end.

Inductive ToolOrigin := Native | Mcp (server upstream_tool : string).

#[global] Instance ToolOrigin_eq_dec : EqDecision ToolOrigin.
Proof. solve_decision. Defined.

Inductive ToolRisk := ReadOnly | Mutating | ProcessControl | Network | Destructive | UnknownRisk.

#[global] Instance ToolRisk_eq_dec : EqDecision ToolRisk.
Proof. solve_decision. Defined.

Definition risk_as_str (r : ToolRisk) : string :=
  match r with
  | ReadOnly => "read_only" | Mutating => "mutating" | ProcessControl => "process_control"
  | Network => "network" | Destructive => "destructive" | UnknownRisk => "unknown"
  end.

Definition grant_key (server upstream_tool : string) : string :=
  (to_ascii_lowercase server +:+ ":" +:+ upstream_tool)%string.

Definition tool_identity (origin : ToolOrigin) (tool_name : string) : string :=
  match origin with
  | Mcp server upstream_tool => grant_key server upstream_tool
  | Native => ("native:" +:+ tool_name)%string
  end.

(* ------------------------------------------------------------------ *)
(** ** The policy *)

Record AgentPermissions := mkPermissions {
  ap_default : PermissionLevel;
  ap_read_only_default : PermissionLevel;
  ap_side_effect_default : PermissionLevel;
  ap_tools : BTree PermissionLevel;
  ap_servers : BTree PermissionLevel
}.

Definition AgentPermissions_default : AgentPermissions :=
  mkPermissions PermAsk PermAllow PermAsk [] [].

(** Older grants fill the gaps of the tool rules. *)
Definition with_legacy_grants (p : AgentPermissions) (granted : list string) : AgentPermissions :=
  p <| ap_tools ::= λ tools, fold_left (λ tools key, btree_or_insert key PermAllow tools) granted tools |>.

(** The rule of a server: its lower-case key, else the first key that spells it
    in any case. *)
Definition server_rule (p : AgentPermissions) (server : string) : option PermissionLevel :=
  match btree_get (to_ascii_lowercase server) (ap_servers p) with
  | Some level => Some level
  | None => snd <$> List.find (λ '(name, _), eq_ignore_ascii_case name server) (ap_servers p)
  end.

Definition risk_default (p : AgentPermissions) (risk : ToolRisk) : PermissionLevel :=
  match risk with
  | ReadOnly => ap_read_only_default p
  | Destructive => PermDeny
  | Mutating | ProcessControl | Network => ap_side_effect_default p
  | UnknownRisk => ap_default p
  end.

Definition resolve_with_source (p : AgentPermissions) (identity : string) (server : option string)
    (risk : ToolRisk) (thread_override : option PermissionLevel)
    : PermissionLevel * PermissionSource :=
  match thread_override with
  | Some level => (level, SourceThread)
  | None =>
      match btree_get identity (ap_tools p) with
      | Some level => (level, SourceTool)
      | None =>
          match server ≫= server_rule p with
          | Some level =>
              (match level, risk with PermAllow, UnknownRisk => PermAsk | _, _ => level end,
               SourceServer)
          | None => (risk_default p risk, SourceDefault)
          end
      end
  end.

Definition permissions_resolve (p : AgentPermissions) (identity : string) (server : option string)
    (risk : ToolRisk) (thread_override : option PermissionLevel) : PermissionLevel :=
  fst (resolve_with_source p identity server risk thread_override).

Definition origin_server (origin : ToolOrigin) : option string :=
  match origin with Mcp server _ => Some server | Native => None end.

Definition resolve_for_origin_with_source (p : AgentPermissions) (tool_name : string)
    (origin : ToolOrigin) (risk : ToolRisk) (thread_overrides : gmap string PermissionLevel)
    : PermissionLevel * PermissionSource :=
  let identity := tool_identity origin tool_name in
  resolve_with_source p identity (origin_server origin) risk (thread_overrides !! identity).

(* ------------------------------------------------------------------ *)
(** ** The grants file *)

(** What is at the path of [tool_grants.json]: an entry is the time of the
    consent. *)
Inductive GrantsDisk :=
  | GrantsMissing
  | GrantsUnparsable
  | GrantsUnreadable
  | GrantsFile (always_allow : BTree string).

Record PermStore := mkPermStore {
  ps_settings : option AgentPermissions;
  ps_grants : GrantsDisk
}.

(** Which writes reach the disk. *)
Record DiskOutcome := mkDisk { disk_settings : bool; disk_grants : bool }.

Definition load_granted (st : PermStore) : list string :=
  match ps_grants st with GrantsFile m => map fst m | _ => [] end.

Definition read_for_mutation (g : GrantsDisk) : string + BTree string :=
  match g with
  | GrantsFile m => inr m
  | GrantsMissing => inr []
  | GrantsUnparsable => inl "Refusing to modify unparsable tool grants file"%string
  | GrantsUnreadable => inl "Failed to read"%string
  end.

(** [write_atomic]: all or nothing. *)
Definition write_grants (disk : DiskOutcome) (st : PermStore) (m : BTree string)
    : PermStore * (string + unit) :=
  if disk_grants disk then (st <| ps_grants := GrantsFile m |>, inr tt)
  else (st, inl "Failed to move grants into place"%string).

Definition grant (disk : DiskOutcome) (now : string) (st : PermStore) (server upstream_tool : string)
    : PermStore * (string + unit) :=
  match read_for_mutation (ps_grants st) with
  | inl e => (st, inl e)
  | inr m => write_grants disk st (btree_insert (grant_key server upstream_tool) now m)
  end.

Definition revoke (disk : DiskOutcome) (st : PermStore) (key : string)
    : PermStore * (string + unit) :=
  match read_for_mutation (ps_grants st) with
  | inl e => (st, inl e)
  | inr m => write_grants disk st (btree_remove key m)
  end.

Definition grants_list (st : PermStore) : string + list (string * string) :=
  read_for_mutation (ps_grants st).

(* ------------------------------------------------------------------ *)
(** ** Durable operations *)

Definition permissions_load (st : PermStore) : AgentPermissions :=
  default AgentPermissions_default (ps_settings st).

Definition permissions_save (disk : DiskOutcome) (st : PermStore) (p : AgentPermissions)
    : PermStore * (string + unit) :=
  if disk_settings disk then (st <| ps_settings := Some p |>, inr tt)
  else (st, inl "Failed to persist agent.permissions to settings.json"%string).

(** What every decision reads once hot reload is on. *)
Definition live_policy (st : PermStore) : AgentPermissions :=
  with_legacy_grants (permissions_load st) (load_granted st).

Definition remember_allow (disk : DiskOutcome) (now : string) (st : PermStore)
    (server upstream_tool : string) : PermStore * (string + unit) :=
  let policy :=
    (permissions_load st) <| ap_tools ::= btree_insert (grant_key server upstream_tool) PermAllow |> in
  match permissions_save disk st policy with
  | (st, inl e) => (st, inl e)
  | (st, inr _) => grant disk now st server upstream_tool
  end.

Definition colon : Ascii.ascii := Ascii.ascii_of_nat 58.

Definition set_tool_level (disk : DiskOutcome) (now : string) (st : PermStore) (identity : string)
    (level : PermissionLevel) : PermStore * (string + unit) :=
  let identity := trim identity in
  if String.eqb identity "" then (st, inl "tool identity must not be empty"%string)
  else
    let policy := (permissions_load st) <| ap_tools ::= btree_insert identity level |> in
    match permissions_save disk st policy with
    | (st, inl e) => (st, inl e)
    | (st, inr _) =>
        (match split_once colon identity with
         | Some (server, tool) =>
             if String.eqb server "native" then st
             else match level with
                  | PermAllow => fst (grant disk now st server tool)
                  | PermAsk | PermDeny => fst (revoke disk st identity)
                  end
         | None => st
         end, inr tt)
    end.

Definition clear_tool_level (disk : DiskOutcome) (st : PermStore) (identity : string)
    : PermStore * (string + unit) :=
  let identity := trim identity in
  if String.eqb identity "" then (st, inl "tool identity must not be empty"%string)
  else
    let policy := (permissions_load st) <| ap_tools ::= btree_remove identity |> in
    match permissions_save disk st policy with
    | (st, inl e) => (st, inl e)
    | (st, inr _) =>
        (match split_once colon identity with
         | Some (server, _) =>
             if String.eqb server "native" then st else fst (revoke disk st identity)
         | None => st
         end, inr tt)
    end.

Definition set_server_level (disk : DiskOutcome) (st : PermStore) (server : string)
    (level : PermissionLevel) : PermStore * (string + unit) :=
  let server := trim server in
  if String.eqb server "" then (st, inl "server name must not be empty"%string)
  else
    permissions_save disk st
      ((permissions_load st) <| ap_servers ::= btree_insert (to_ascii_lowercase server) level |>).

Definition set_defaults (disk : DiskOutcome) (st : PermStore)
    (global read_only_default side_effect_default : PermissionLevel)
    : PermStore * (string + unit) :=
  permissions_save disk st
    ((permissions_load st) <| ap_default := global |> <| ap_read_only_default := read_only_default |>
       <| ap_side_effect_default := side_effect_default |>).

(** The approval card's "remember" box: where an "always allow" is persisted. *)
Inductive GrantTarget := TargetMcp (server upstream_tool : string) | TargetNative (identity : string).

Definition grant_persist (disk : DiskOutcome) (now : string) (st : PermStore) (t : GrantTarget)
    : PermStore * (string + unit) :=
  match t with
  | TargetMcp server upstream_tool => remember_allow disk now st server upstream_tool
  | TargetNative identity => set_tool_level disk now st identity PermAllow
  end.

(* ------------------------------------------------------------------ *)
(** ** Server names *)

(** What the configuration accepts as the name of an MCP server. *)
Definition validate_name (name : string) : string + unit :=
  let trimmed := trim name in
  if String.eqb trimmed "" then inl "MCP server name is empty"%string
  else if negb (String.eqb trimmed name)
  then inl "MCP server name must not have surrounding whitespace"%string
  else if negb (all_bytes (λ c, is_ascii_alphanumeric c || Ascii.eqb c (Ascii.ascii_of_nat 95)
                                || Ascii.eqb c (Ascii.ascii_of_nat 45)) name)
  then inl ("MCP server name " +:+ name +:+ " contains unsupported characters")%string
  else inr tt.
