(* ===== verification/AgentPermissionsFacts.v ===== *)
(** AgentPermissionsFacts: theorems about the durable tool policy. *)

From S2P Require Import Prelude.
From S2P Require Import Text.
From S2P Require Import BTree.
From S2P Require Import AgentPermissions.
#[local] Open Scope Z_scope.

(* ------------------------------------------------------------------ *)
(** ** The live policy *)

(** The individual rule of an identity in the policy a decision reads. *)
Definition live_rule (st : PermStore) (identity : string) : option PermissionLevel :=
  btree_get identity (ap_tools (live_policy st)).

Definition granted (st : PermStore) (identity : string) : bool :=
  existsb (String.eqb identity) (load_granted st).

Lemma legacy_fold_get identity keys tools :
  btree_get identity (fold_left (λ tools key, btree_or_insert key PermAllow tools) keys tools)
    = match btree_get identity tools with
      | Some l => Some l
      | None => if existsb (String.eqb identity) keys then Some PermAllow else None
      end.
Proof.
  revert tools. induction keys as [|k keys IH]; intros tools; simpl; [by destruct (btree_get identity tools)|].
  rewrite IH, btree_get_or_insert, (String.eqb_sym identity k).
  destruct (btree_get identity tools); [done|]. by destruct (String.eqb k identity).
Qed.

Lemma live_rule_eq st identity :
  live_rule st identity
    = match btree_get identity (ap_tools (permissions_load st)) with
      | Some l => Some l
      | None => if granted st identity then Some PermAllow else None
      end.
Proof. unfold live_rule, live_policy, with_legacy_grants. apply legacy_fold_get. Qed.

Lemma get_keys {V} k (m : BTree V) :
  existsb (String.eqb k) (map fst m) = bool_decide (is_Some (btree_get k m)).
Proof.
  induction m as [|[k' v'] m IH]; simpl; [done|]. by destruct (String.eqb k k').
Qed.

Lemma granted_get st identity m :
  ps_grants st = GrantsFile m → granted st identity = bool_decide (is_Some (btree_get identity m)).
Proof. unfold granted, load_granted. intros ->. apply get_keys. Qed.

(* ------------------------------------------------------------------ *)
(** ** Well-formed stores *)

Definition permissions_wf (p : AgentPermissions) : Prop :=
  btree_wf (ap_tools p) ∧ btree_wf (ap_servers p).

Definition grants_wf (st : PermStore) : Prop :=
  match ps_grants st with GrantsFile m => btree_wf m | _ => True end.

Definition store_wf (st : PermStore) : Prop :=
  permissions_wf (permissions_load st) ∧ grants_wf st.

Inductive PermOp :=
  | OpSetTool (identity : string) (level : PermissionLevel)
  | OpClearTool (identity : string)
  | OpSetServer (server : string) (level : PermissionLevel)
  | OpSetDefaults (global read_only side_effect : PermissionLevel)
  | OpRemember (server tool : string)
  | OpGrant (server tool : string)
  | OpRevoke (key : string).

Definition run_perm_op (disk : DiskOutcome) (now : string) (st : PermStore) (op : PermOp)
    : PermStore * (string + unit) :=
  match op with
  | OpSetTool identity level => set_tool_level disk now st identity level
  | OpClearTool identity => clear_tool_level disk st identity
  | OpSetServer server level => set_server_level disk st server level
  | OpSetDefaults global read_only side_effect => set_defaults disk st global read_only side_effect
  | OpRemember server tool => remember_allow disk now st server tool
  | OpGrant server tool => grant disk now st server tool
  | OpRevoke key => revoke disk st key
  end.

Lemma save_wf disk st p :
  store_wf st → permissions_wf p → store_wf (fst (permissions_save disk st p)).
Proof. intros [H1 H2] Hp. unfold permissions_save. by destruct (disk_settings disk); split. Qed.

Lemma write_grants_wf disk st m : store_wf st → btree_wf m → store_wf (fst (write_grants disk st m)).
Proof. intros [H1 H2] Hm. unfold write_grants. by destruct (disk_grants disk); split. Qed.

Lemma read_wf st m : grants_wf st → read_for_mutation (ps_grants st) = inr m → btree_wf m.
Proof.
  unfold grants_wf, read_for_mutation. intros H Hr. destruct (ps_grants st); simplify_eq; [|done].
  constructor.
Qed.

Lemma grant_wf disk now st server tool : store_wf st → store_wf (fst (grant disk now st server tool)).
Proof.
  intros H. unfold grant. destruct (read_for_mutation (ps_grants st)) as [e|m] eqn:Hr; [done|].
  apply write_grants_wf; [done|]. by eapply btree_insert_wf, read_wf; [apply H|].
Qed.

Lemma revoke_wf disk st key : store_wf st → store_wf (fst (revoke disk st key)).
Proof.
  intros H. unfold revoke. destruct (read_for_mutation (ps_grants st)) as [e|m] eqn:Hr; [done|].
  apply write_grants_wf; [done|]. by eapply btree_remove_wf, read_wf; [apply H|].
Qed.

#[local] Hint Resolve grant_wf revoke_wf btree_insert_wf btree_remove_wf : s2p.


(* ------------------------------------------------------------------ *)
(** ** Individual rules *)

(** The grants file after an operation on the key of one identity. *)
Lemma write_grants_settings disk st m :
  ps_settings (fst (write_grants disk st m)) = ps_settings st.
Proof. unfold write_grants. by destruct (disk_grants disk). Qed.

Lemma grant_settings disk now st server tool :
  ps_settings (fst (grant disk now st server tool)) = ps_settings st.
Proof. unfold grant. case_match; [done|apply write_grants_settings]. Qed.

Lemma revoke_settings disk st key : ps_settings (fst (revoke disk st key)) = ps_settings st.
Proof. unfold revoke. case_match; [done|apply write_grants_settings]. Qed.

Lemma load_of_settings st st' :
  ps_settings st' = ps_settings st → permissions_load st' = permissions_load st.
Proof. unfold permissions_load. by intros ->. Qed.

Lemma granted_write disk st m identity :
  granted (fst (write_grants disk st m)) identity
    = if disk_grants disk then bool_decide (is_Some (btree_get identity m)) else granted st identity.
Proof. unfold write_grants. destruct (disk_grants disk); [|done]. by apply granted_get. Qed.

Lemma read_granted st m identity :
  read_for_mutation (ps_grants st) = inr m →
  granted st identity = bool_decide (is_Some (btree_get identity m)).
Proof.
  unfold read_for_mutation. destruct (ps_grants st) eqn:Hg; intros; simplify_eq; [|by apply granted_get].
  unfold granted, load_granted. by rewrite Hg.
Qed.

Lemma read_fails_granted st e identity :
  read_for_mutation (ps_grants st) = inl e → granted st identity = false.
Proof.
  unfold read_for_mutation, granted, load_granted. by destruct (ps_grants st).
Qed.

Lemma granted_grant_ne disk now st server tool identity :
  identity ≠ grant_key server tool →
  granted (fst (grant disk now st server tool)) identity = granted st identity.
Proof.
  intros Hne. unfold grant. destruct (read_for_mutation (ps_grants st)) as [e|m] eqn:Hr; [done|].
  rewrite granted_write, (read_granted _ _ identity Hr).
  destruct (disk_grants disk); [|done]. by rewrite btree_get_insert_ne.
Qed.

Lemma granted_revoke disk st key identity :
  grants_wf st →
  granted (fst (revoke disk st key)) identity
    = granted st identity && negb (disk_grants disk && String.eqb identity key).
Proof.
  intros Hwf. unfold revoke. destruct (read_for_mutation (ps_grants st)) as [e|m] eqn:Hr.
  { simpl. by rewrite (read_fails_granted _ _ _ Hr). }
  rewrite granted_write, (read_granted _ _ identity Hr).
  destruct (disk_grants disk); simpl; [|by rewrite andb_true_r].
  destruct (String.eqb_spec identity key) as [->|Hne].
  - rewrite btree_get_remove by (by eapply read_wf). by rewrite andb_false_r.
  - rewrite btree_get_remove_ne by done. by rewrite andb_true_r.
Qed.

(** The server part of an identity is in lower case, as [tool_identity] writes
    it. *)
Definition canonical (identity : string) : Prop :=
  match split_once colon identity with
  | Some (server, _) => to_ascii_lowercase server = server
  | None => True
  end.

Lemma canonical_key identity server tool :
  canonical identity → split_once colon identity = Some (server, tool) →
  grant_key server tool = identity.
Proof.
  unfold canonical, grant_key. intros Hc Hs. rewrite Hs in Hc. rewrite Hc.
  apply split_once_app in Hs. by rewrite Hs.
Qed.

(** The two identities whose grants the legacy file never holds. *)
Definition outside_grants (identity : string) : bool :=
  match split_once colon identity with
  | Some (server, _) => String.eqb server "native"
  | None => true
  end.

(** an individual rule is durable: once setting it succeeds, the next
    decision reads exactly that level for the identity, whatever the grants
    file held and whether its own write succeeded, and every other identity
    keeps its rule; a rule that cannot be saved changes nothing. *)
Theorem set_tool_level_durable disk now st identity level st' r
    (Hwf : store_wf st)
    (Htrim : trim identity = identity)
    (Hcanonical : canonical identity)
    (Hset : set_tool_level disk now st identity level = (st', r)) :
  match r with
  | inr _ => live_rule st' identity = Some level ∧
             ∀ other, other ≠ identity → live_rule st' other = live_rule st other
  | inl _ => st' = st
  end.
Proof.
  unfold set_tool_level in Hset. rewrite Htrim in Hset.
  case_match; [by simplify_eq|].
  unfold permissions_save in Hset. destruct (disk_settings disk); [|by simplify_eq].
  set (st1 := st <| ps_settings := _ |>) in Hset. injection Hset as Hst' <-.
  assert (Hs : ps_settings st' = ps_settings st1).
  { rewrite <- Hst'. repeat case_match; try done; [apply grant_settings|apply revoke_settings..]. }
  assert (Hg : ∀ other, other ≠ identity → granted st' other = granted st other).
  { intros other Hne. rewrite <- Hst'. change (granted st other) with (granted st1 other).
    destruct (split_once colon identity) as [[server tool]|] eqn:Hsp; [|done].
    assert (Hk := canonical_key _ _ _ Hcanonical Hsp).
    destruct (String.eqb server "native"); [done|].
    assert (Hrev : granted (fst (revoke disk st1 identity)) other = granted st1 other).
    { rewrite granted_revoke by apply Hwf. rewrite (proj2 (String.eqb_neq _ _) Hne).
      by rewrite andb_false_r, andb_true_r. }
    destruct level; [|done|done]. apply granted_grant_ne. by rewrite Hk. }
  rewrite !live_rule_eq, (load_of_settings _ _ Hs).
  change (permissions_load st1)
    with ((permissions_load st) <| ap_tools ::= btree_insert identity level |>). simpl. split.
  - by rewrite btree_get_insert.
  - intros other Hne. rewrite !live_rule_eq, (load_of_settings _ _ Hs), Hg by done.
    change (permissions_load st1)
      with ((permissions_load st) <| ap_tools ::= btree_insert identity level |>). simpl.
    by rewrite btree_get_insert_ne by done.
Qed.

(** clearing a rule gives the identity back to inheritance unless the legacy
    grant survives: when it returns success the next decision reads no
    individual rule, except that a grant whose removal could not be written
    (the failure is discarded) comes back as Allow; other identities keep their
    rule. *)
Theorem clear_tool_level_exact disk st identity st'
    (Hwf : store_wf st)
    (Htrim : trim identity = identity)
    (Hclear : clear_tool_level disk st identity = (st', inr tt)) :
  live_rule st' identity
    = (if granted st identity && (negb (disk_grants disk) || outside_grants identity)
       then Some PermAllow else None) ∧
  ∀ other, other ≠ identity → live_rule st' other = live_rule st other.
Proof.
  unfold clear_tool_level in Hclear. rewrite Htrim in Hclear. case_match; [by simplify_eq|].
  unfold permissions_save in Hclear. destruct (disk_settings disk); [|by simplify_eq].
  set (st1 := st <| ps_settings := _ |>) in Hclear. injection Hclear as Hst'.
  assert (Hs : ps_settings st' = ps_settings st1)
    by (rewrite <- Hst'; repeat case_match; try done; apply revoke_settings).
  assert (Hg : ∀ other, granted st' other
    = granted st other && negb (disk_grants disk && negb (outside_grants identity)
                                && String.eqb other identity)).
  { intros other. rewrite <- Hst'. unfold outside_grants.
    change (granted st other) with (granted st1 other).
    destruct (split_once colon identity) as [[server tool]|]; simpl;
      [|by rewrite andb_false_r, andb_true_r].
    destruct (String.eqb server "native"); simpl; [by rewrite andb_false_r, andb_true_r|].
    rewrite granted_revoke by apply Hwf. by rewrite andb_true_r. }
  assert (Hl : permissions_load st1
    = (permissions_load st) <| ap_tools ::= btree_remove identity |>) by done.
  split.
  - rewrite live_rule_eq, (load_of_settings _ _ Hs), Hl, Hg. simpl.
    rewrite btree_get_remove by apply Hwf. rewrite String.eqb_refl, andb_true_r.
    by rewrite negb_andb, negb_involutive.
  - intros other Hne. rewrite !live_rule_eq, (load_of_settings _ _ Hs), Hl, Hg. simpl.
    rewrite btree_get_remove_ne by done. rewrite (proj2 (String.eqb_neq _ _) Hne).
    by rewrite andb_false_r, andb_true_r.
Qed.

(** remembering "always allow" is not undone by a failing grant: whenever
    the settings write succeeds the tool is allowed from the next decision on,
    also when the operation answers an error because the grants file could not
    be written; only a failed settings write leaves everything as it was. *)
Theorem remember_allow_exact disk now st server tool st' r
    (Hrun : remember_allow disk now st server tool = (st', r)) :
  (disk_settings disk = true → live_rule st' (grant_key server tool) = Some PermAllow) ∧
  (disk_settings disk = false → st' = st ∧ ∃ e, r = inl e) ∧
  (disk_settings disk = true →
   (∃ e, r = inl e) ↔ disk_grants disk = false ∨ ∃ e, read_for_mutation (ps_grants st) = inl e).
Proof.
  unfold remember_allow, permissions_save in Hrun.
  destruct (disk_settings disk); [|injection Hrun as <- <-; naive_solver].
  set (st1 := st <| ps_settings := _ |>) in Hrun.
  split; [|split; [done|]].
  - intros _. assert (Hs : ps_settings st' = ps_settings st1)
      by (rewrite <- (grant_settings disk now st1 server tool), Hrun; done).
    rewrite live_rule_eq, (load_of_settings _ _ Hs).
    change (permissions_load st1)
      with ((permissions_load st) <| ap_tools ::= btree_insert (grant_key server tool) PermAllow |>).
    simpl. by rewrite btree_get_insert.
  - intros _. unfold grant in Hrun. change (ps_grants st1) with (ps_grants st) in Hrun.
    destruct (read_for_mutation (ps_grants st)) as [e|m]; [injection Hrun as <- <-; naive_solver|].
    unfold write_grants in Hrun. destruct (disk_grants disk); injection Hrun as <- <-; naive_solver.
Qed.

(* ------------------------------------------------------------------ *)
(** ** Identities *)

Lemma alphanumeric_no_colon s p :
  all_bytes p s = true → p colon = false → split_once colon s = None.
Proof.
  intros H Hp. induction s as [|c s IH]; simpl in *; [done|]. apply andb_true_iff in H as [Hc H].
  destruct (Ascii.eqb_spec c colon) as [->|]; [congruence|]. by rewrite IH.
Qed.

Lemma lowercase_no_colon s :
  split_once colon s = None → split_once colon (to_ascii_lowercase s) = None.
Proof.
  induction s as [|c s IH]; simpl; [done|].
  assert (Hc : Ascii.eqb (ascii_lower c) colon = Ascii.eqb c colon)
    by (by destruct c as [[] [] [] [] [] [] [] []]).
  rewrite Hc. destruct (Ascii.eqb c colon); [done|].
  destruct (split_once colon s) as [[??]|]; [done|]. intros _. by rewrite IH.
Qed.

Lemma valid_name_no_colon s : validate_name s = inr tt → split_once colon s = None.
Proof.
  unfold validate_name. intros H. case_match; [done|]. case_match; [done|].
  case_match eqn:Ha; [done|]. apply negb_false_iff in Ha.
  by eapply alphanumeric_no_colon; [exact Ha|].
Qed.

Lemma key_split server tool :
  split_once colon server = None →
  split_once colon (grant_key server tool) = Some (to_ascii_lowercase server, tool).
Proof.
  intros H. unfold grant_key. change (":" +:+ tool)%string with (String colon tool).
  by apply split_once_first, lowercase_no_colon.
Qed.

Lemma native_split tool_name :
  split_once colon ("native:" +:+ tool_name)%string = Some ("native"%string, tool_name).
Proof. reflexivity. Qed.

(** the identity of a tool names the tool: over server names the
    configuration accepts, equal identities come from the same upstream tool of
    the same server up to case, or from the same native tool.  The one
    exception is a server called "native" in any case, whose tools share the
    identities, and so the rules, of native tools of the same name. *)
Theorem tool_identity_names_tool origin1 name1 origin2 name2
    (Hname1 : ∀ server tool, origin1 = Mcp server tool → validate_name server = inr tt)
    (Hname2 : ∀ server tool, origin2 = Mcp server tool → validate_name server = inr tt) :
  tool_identity origin1 name1 = tool_identity origin2 name2 ↔
  match origin1, origin2 with
  | Native, Native => name1 = name2
  | Mcp server1 tool1, Mcp server2 tool2 => eq_ignore_ascii_case server1 server2 = true ∧ tool1 = tool2
  | Native, Mcp server tool => eq_ignore_ascii_case server "native" = true ∧ tool = name1
  | Mcp server tool, Native => eq_ignore_ascii_case server "native" = true ∧ tool = name2
  end.
Proof.
  unfold eq_ignore_ascii_case. rewrite ?String.eqb_eq.
  assert (Hk : ∀ s t, validate_name s = inr tt →
    split_once colon (grant_key s t) = Some (to_ascii_lowercase s, t))
    by (intros; by apply key_split, valid_name_no_colon).
  destruct origin1 as [|s1 t1], origin2 as [|s2 t2]; cbn [tool_identity].
  - split; [|congruence]. intros H. apply (f_equal (split_once colon)) in H.
    rewrite !native_split in H. congruence.
  - rewrite String.eqb_eq. split.
    + intros H. apply (f_equal (split_once colon)) in H. rewrite Hk in H by eauto.
      rewrite native_split in H. injection H as <- <-. done.
    + intros [Hs ->]. unfold grant_key. by rewrite Hs.
  - rewrite String.eqb_eq. split.
    + intros H. apply (f_equal (split_once colon)) in H. rewrite Hk in H by eauto.
      rewrite native_split in H. by injection H as -> ->.
    + intros [Hs ->]. unfold grant_key. by rewrite Hs.
  - rewrite String.eqb_eq. split.
    + intros H. apply (f_equal (split_once colon)) in H. rewrite !Hk in H by eauto.
      by injection H as -> ->.
    + intros [Hs ->]. unfold grant_key. by rewrite Hs.
Qed.

(* ------------------------------------------------------------------ *)
(** ** Witnesses *)

Definition ex_disk : DiskOutcome := mkDisk true true.
Definition ex_store : PermStore :=
  mkPermStore (Some (AgentPermissions_default <| ap_tools := [("srv:write"%string, PermAllow)] |>))
    (GrantsFile [("srv:read"%string, "t0"%string); ("srv:write"%string, "t0"%string)]).

Lemma ex_store_wf : store_wf ex_store.
Proof. split; [split|]; repeat constructor. Qed.


Lemma set_tool_level_durable_witness :
  live_rule (fst (set_tool_level (mkDisk true false) "t1" ex_store "srv:read" PermDeny)) "srv:read"
    = Some PermDeny.
Proof.
  exact (proj1 (set_tool_level_durable (mkDisk true false) "t1" ex_store "srv:read" PermDeny _ (inr tt)
    ex_store_wf eq_refl eq_refl eq_refl)).
Defined.

Lemma clear_tool_level_exact_witness :
  live_rule (fst (clear_tool_level ex_disk ex_store "srv:write")) "srv:write" = None ∧
  live_rule (fst (clear_tool_level (mkDisk true false) ex_store "srv:write")) "srv:write"
    = Some PermAllow.
Proof.
  split.
  - exact (proj1 (clear_tool_level_exact ex_disk ex_store "srv:write" _ ex_store_wf eq_refl eq_refl)).
  - exact (proj1 (clear_tool_level_exact (mkDisk true false) ex_store "srv:write" _ ex_store_wf
      eq_refl eq_refl)).
Defined.

Lemma remember_allow_exact_witness :
  live_rule (fst (remember_allow (mkDisk true false) "t1" ex_store "Srv" "list")) "srv:list"
    = Some PermAllow ∧
  snd (remember_allow (mkDisk true false) "t1" ex_store "Srv" "list")
    = inl "Failed to move grants into place"%string.
Proof.
  split; [|reflexivity].
  exact (proj1 (remember_allow_exact (mkDisk true false) "t1" ex_store "Srv" "list" _ _ eq_refl) eq_refl).
Defined.

Lemma tool_identity_names_tool_witness :
  tool_identity (Mcp "Native" "type_text") "mcp__native__type_text"
    = tool_identity Native "type_text" ∧
  tool_identity (Mcp "srv" "Tool") "a" ≠ tool_identity (Mcp "srv" "tool") "a".
Proof.
  assert (Hn : ∀ server tool, Mcp "Native" "type_text" = Mcp server tool → validate_name server = inr tt)
    by (intros ? ? [= <- _]; reflexivity).
  assert (Hs : ∀ t server tool, Mcp "srv" t = Mcp server tool → validate_name server = inr tt)
    by (intros ? ? ? [= <- _]; reflexivity).
  split.
  - apply (proj2 (tool_identity_names_tool _ "mcp__native__type_text" Native "type_text" Hn
      ltac:(intros; discriminate))). split; reflexivity.
  - intros H. apply (proj1 (tool_identity_names_tool _ "a" _ "a" (Hs _) (Hs _))) in H as [_ H].
    discriminate.
Defined.
