(* ===== verification/Json.v ===== *)
(** Json: the JSON values tool calls carry.

    An object is its fields in the order the map iterates them.  A number is
    the text it prints as; no code here looks inside one. *)

From S2P Require Import Prelude.

#[warnings="-register-all"]
Inductive Value :=
  | VNull
  | VBool (b : bool)
  | VNumber (text : string)
  | VString (text : string)
  | VArray (items : list Value)
  | VObject (fields : list (string * Value)).

(** Induction through arrays and objects. *)
Section value_ind.
  Context (P : Value → Prop).
  Context (Hnull : P VNull) (Hbool : ∀ b, P (VBool b)) (Hnumber : ∀ t, P (VNumber t))
    (Hstring : ∀ t, P (VString t))
    (Harray : ∀ items, Forall P items → P (VArray items))
    (Hobject : ∀ fields, Forall (λ f, P f.2) fields → P (VObject fields)).

Fixpoint Value_ind' (v : Value) : P v :=
    match v with
    | VNull => Hnull
    | VBool b => Hbool b
    | VNumber t => Hnumber t
    | VString t => Hstring t
    | VArray items =>
        Harray items
          ((fix go (l : list Value) : Forall P l :=
              match l with
              | [] => List.Forall_nil _
              | v :: l' => @List.Forall_cons _ P v l' (Value_ind' v) (go l')
              end) items)
    | VObject fields =>
        Hobject fields
          ((fix go (l : list (string * Value)) : Forall (λ f, P f.2) l :=
              match l with
              | [] => List.Forall_nil _
              | f :: l' => @List.Forall_cons _ (λ f : string * Value, P f.2) f l' (Value_ind' f.2) (go l')
              end) fields)
    end.
End value_ind.

(** [s] is a string somewhere inside the value; keys do not count. *)
Inductive string_in : string → Value → Prop :=
  | in_string s : string_in s (VString s)
  | in_array s v items : v ∈ items → string_in s v → string_in s (VArray items)
  | in_object s k v fields : (k, v) ∈ fields → string_in s v → string_in s (VObject fields).

Definition as_str (v : Value) : option string := match v with VString s => Some s | _ => None end.

(** [iter().find_map(f)]. *)
Fixpoint find_map {A B} (f : A → option B) (l : list A) : option B :=
  match l with
  | [] => None
  | x :: l' => match f x with Some y => Some y | None => find_map f l' end
  end.

Lemma find_map_None {A B} (f : A → option B) l : find_map f l = None ↔ ∀ x, x ∈ l → f x = None.
Proof.
  induction l as [|x l IH]; simpl; [split; [intros _ y Hy; by apply not_elem_of_nil in Hy|done]|].
  destruct (f x) eqn:Hx.
  - split; [done|]. intros H. specialize (H x). rewrite Hx in H. by apply H; left.
  - rewrite IH. split; intros H y Hy; [apply elem_of_cons in Hy as [->|Hy]; auto|].
    apply H. by right.
Qed.

Lemma find_map_Some {A B} (f : A → option B) l y :
  find_map f l = Some y → ∃ x, x ∈ l ∧ f x = Some y.
Proof.
  induction l as [|x l IH]; simpl; [done|]. destruct (f x) eqn:Hx.
  - intros [= <-]. exists x. split; [left|done].
  - intros H. destruct (IH H) as (z & Hz & Hf). exists z. split; [by right|done].
Qed.
