(* ===== verification/SecretPaths.v ===== *)
(** SecretPaths: which strings name credential-bearing files
    (core/agent/secret_paths.rs). *)

From S2P Require Import Prelude.
From S2P Require Import Text.
From S2P Require Import Json.
#[local] Open Scope Z_scope.

Definition slash : Ascii.ascii := Ascii.ascii_of_nat 47.

Definition KEY_SUFFIXES : list string :=
  [".pem"; ".p12"; ".pfx"; ".key"; ".keychain-db"; ".keystore"]%string.

Definition KEY_STEMS : list string := ["id_rsa"; "id_ed25519"; "id_ecdsa"; "id_dsa"]%string.

Definition SECRET_DIRS : list string := ["/.ssh"; "/.aws"; "/.gnupg"; "/.kube"]%string.

Definition is_secret_basename (name : string) : bool :=
  starts_with name ".env"
  || (String.eqb name "mcp.json" || starts_with name "mcp.json.")
  || String.eqb name "tool_grants.json"
  || (String.eqb name ".netrc" || String.eqb name ".npmrc" || String.eqb name ".pgpass")
  || existsb (ends_with name) KEY_SUFFIXES
  || existsb (λ stem,
       String.eqb name stem
       || (starts_with name stem
           && bool_decide (String.get (String.length stem) name = Some (Ascii.ascii_of_nat 46))))
     KEY_STEMS.

Definition classify (text : string) : bool :=
  let trimmed := trim text in
  if String.eqb trimmed "" || negb (contains trimmed "/" || starts_with trimmed "~") then false
  else
    let lower := to_ascii_lowercase trimmed in
    let no_trailing := trim_end_matches (Ascii.eqb slash) lower in
    if existsb (λ dir, ends_with no_trailing dir || contains lower (dir +:+ "/")%string) SECRET_DIRS
    then true
    else is_secret_basename (after_last slash lower).

Fixpoint find_secret_path (input : Value) : option string :=
  match input with
  | VString text => if classify text then Some text else None
  | VArray items =>
      (fix go (l : list Value) :=
         match l with
         | [] => None
         | v :: l' => match find_secret_path v with Some s => Some s | None => go l' end
         end) items
  | VObject fields =>
      (fix go (l : list (string * Value)) :=
         match l with
         | [] => None
         | f :: l' => match find_secret_path f.2 with Some s => Some s | None => go l' end
         end) fields
  | _ => None
  end.

(* ------------------------------------------------------------------ *)

Lemma find_secret_array items : find_secret_path (VArray items) = find_map find_secret_path items.
Proof. induction items as [|v l IH]; [done|]. simpl in *. by rewrite IH. Qed.

Lemma find_secret_object fields :
  find_secret_path (VObject fields) = find_map (λ f, find_secret_path f.2) fields.
Proof. induction fields as [|f l IH]; [done|]. simpl in *. by rewrite IH. Qed.

Lemma find_secret_none input :
  find_secret_path input = None ↔ ∀ s, string_in s input → classify s = false.
Proof.
  induction input as [|b|t|t|items IH|fields IH] using Value_ind'.
  1-3: split; [intros _ s Hs; inversion Hs|done].
  - simpl. split; [|intros H; by rewrite H by constructor].
    intros H s Hs. inversion Hs; subst. by destruct (classify t).
  - rewrite find_secret_array, find_map_None. rewrite Forall_forall in IH. split.
    + intros H s Hs. inversion Hs as [|? v ? Hv Hsv|]; subst. by apply (IH v Hv); [apply H|].
    + intros H v Hv. apply (IH v Hv). intros s Hs. apply H. by econstructor.
  - rewrite find_secret_object, find_map_None. rewrite Forall_forall in IH. split.
    + intros H s Hs. inversion Hs as [| |? k v ? Hv Hsv]; subst.
      by apply (IH (k, v) Hv); [apply (H (k, v))|].
    + intros H [k v] Hv. apply (IH (k, v) Hv). intros s Hs. apply H. by econstructor.
Qed.

Lemma find_secret_some input : ∀ s,
  find_secret_path input = Some s → string_in s input ∧ classify s = true.
Proof.
  induction input as [|b|t|t|items IH|fields IH] using Value_ind'; intros s; try done.
  - simpl. destruct (classify t) eqn:Hc; [|done]. intros [= <-]. split; [constructor|done].
  - rewrite find_secret_array. intros H. apply find_map_Some in H as (v & Hv & H).
    rewrite Forall_forall in IH. apply (IH v Hv) in H as [H Hc]. split; [by econstructor|done].
  - rewrite find_secret_object. intros H. apply find_map_Some in H as ([k v] & Hv & H).
    rewrite Forall_forall in IH. apply (IH (k, v) Hv) in H as [H Hc]. split; [by econstructor|done].
Qed.

(** the scan of a tool input misses no string: it answers a path exactly
    when some string at any depth of the input is classified as secret, and
    what it answers is such a string. *)
Theorem find_secret_path_complete input :
  (find_secret_path input = None ↔ ∀ s, string_in s input → classify s = false) ∧
  ∀ s, find_secret_path input = Some s → string_in s input ∧ classify s = true.
Proof. split; [apply find_secret_none|apply find_secret_some]. Qed.

(** The paths the module's own tests list. *)
Example secret_paths :
  forallb classify
    ["/Users/op/.codescribe/.env"; "~/.codescribe/.env.debug"; "/Users/op/.codescribe/mcp.json";
     "/Users/op/.codescribe/mcp.json.backup-20260720"; "/Users/op/.codescribe/tool_grants.json";
     "~/.ssh/id_rsa"; "~/.ssh/known_hosts"; "~/.ssh"; "~/.ssh/"; "/Users/op/.aws";
     "/Users/op/.gnupg/"; "/Users/op/.aws/credentials"; "/certs/server.pem";
     "/Users/op/Library/Keychains/login.keychain-db"]%string = true.
Proof. vm_compute. reflexivity. Qed.

Example clean_paths :
  existsb classify
    ["/Users/op/project/src/main.rs"; "/Users/op/.codescribe/notes/todo.md";
     "~/.codescribe/transcriptions/2026-08-04/raw.txt"; "/Users/op/project/environment.md";
     "keychain_env_docs.md"; "/Users/op/project/notes.ssh.md"; "/Users/op/kessh/readme.md";
     "env"; "mcp.json"]%string = false.
Proof. vm_compute. reflexivity. Qed.
