(* ===== verification/Redaction.v ===== *)
(** Redaction: what of a tool call an operator may see
    (core/agent/redaction.rs).

    One redactor serves command lines and the argument snapshot of the approval
    card.  Printing a JSON value is serde_json's: [pretty] stands for it. *)

From S2P Require Import Prelude.
From S2P Require Import Text.
From S2P Require Import Json.
#[local] Open Scope Z_scope.

Definition REDACTED : string := "[REDACTED]".
Definition MAX_PREVIEW_STRING_CHARS : nat := 200.
Definition MAX_PREVIEW_ARGUMENTS_BYTES : nat := 4096.

Definition SENSITIVE_KEYS : list string :=
  ["token"; "password"; "passwd"; "secret"; "apikey"; "accesskey"; "privatekey";
   "authorization"; "cookie"; "credential"; "bearer"; "environment"]%string.

Fixpoint filter_bytes (p : Ascii.ascii → bool) (s : string) : string :=
  match s with
  | EmptyString => EmptyString
  | String c s' => if p c then String c (filter_bytes p s') else filter_bytes p s'
  end.

Definition contains_sensitive_key (key : string) : bool :=
  let normalized := to_ascii_lowercase (filter_bytes is_ascii_alphanumeric key) in
  existsb (contains normalized) SENSITIVE_KEYS.

(* ------------------------------------------------------------------ *)
(** ** Command lines *)

Record CommandRedactor := mkRedactor {
  rd_pending : Z;
  rd_quoted : option Ascii.ascii
}.

Definition redactor_new : CommandRedactor := mkRedactor 0 None.

Definition single_quote : Ascii.ascii := Ascii.ascii_of_nat 39.
Definition double_quote : Ascii.ascii := Ascii.ascii_of_nat 34.
Definition is_quote (c : Ascii.ascii) : bool := Ascii.eqb c single_quote || Ascii.eqb c double_quote.

Definition equals_sign : Ascii.ascii := Ascii.ascii_of_nat 61.
Definition colon_sign : Ascii.ascii := Ascii.ascii_of_nat 58.

Definition char_string (c : Ascii.ascii) : string := String c EmptyString.

(** The quote a token opens without closing it. *)
Definition opening_quote (token : string) : option Ascii.ascii :=
  match token with
  | EmptyString => None
  | String first rest =>
      if negb (is_quote first) then None
      else if negb (String.eqb rest "") && ends_with token (char_string first) then None
      else Some first
  end.

Definition is_bearer_or_basic (s : string) : bool :=
  eq_ignore_ascii_case s "bearer" || eq_ignore_ascii_case s "basic".

(** A token with a colon: a header; any other may be an option name or the bare
    scheme. *)
Definition redact_header (r : CommandRedactor) (token trimmed : string)
    : CommandRedactor * string :=
  match split_once colon_sign trimmed with
  | Some (name, value) =>
      if negb (contains_sensitive_key name) then (r, token)
      else
        match opening_quote token with
        | Some quote =>
            (r <| rd_quoted := Some quote |>,
             if String.eqb value "" then token
             else (char_string quote +:+ name +:+ ":" +:+ REDACTED)%string)
        | None =>
            if String.eqb value ""
            then (r <| rd_pending := if contains (to_ascii_lowercase name) "authorization"
                                     then 2 else 1 |>, token)
            else (if is_bearer_or_basic value then r <| rd_pending := 1 |> else r,
                  (name +:+ ":" +:+ REDACTED)%string)
        end
  | None =>
      (if (starts_with trimmed "-" && contains_sensitive_key trimmed) || is_bearer_or_basic trimmed
       then r <| rd_pending := 1 |> else r, token)
  end.

(** A token outside a quoted value and not a governed value. *)
Definition redact_marker (r : CommandRedactor) (token trimmed : string)
    : CommandRedactor * string :=
  match split_once equals_sign trimmed with
  | Some (name, value) =>
      if contains_sensitive_key name then
        (match opening_quote value with
         | Some quote => r <| rd_quoted := Some quote |> | None => r end,
         (name +:+ "=" +:+ REDACTED)%string)
      else redact_header r token trimmed
  | None => redact_header r token trimmed
  end.

Definition redact_token (r : CommandRedactor) (token : string) : CommandRedactor * string :=
  match rd_quoted r with
  | Some quote =>
      if ends_with token (char_string quote)
      then (r <| rd_quoted := None |>, (REDACTED +:+ char_string quote)%string)
      else (r, REDACTED)
  | None =>
      let trimmed := trim_matches is_quote token in
      if 0 <? rd_pending r then
        if negb (starts_with trimmed "-") then
          let r := r <| rd_pending ::= λ n, n - 1 |> in
          match opening_quote token with
          | Some quote =>
              (r <| rd_pending := 0 |> <| rd_quoted := Some quote |>,
               (char_string quote +:+ REDACTED)%string)
          | None => (r, REDACTED)
          end
        else redact_marker (r <| rd_pending := 0 |>) token trimmed
      else redact_marker r token trimmed
  end.

(** The chunks of a text: whitespace verbatim, each token redacted in turn. *)
Fixpoint redact_chunks (r : CommandRedactor) (l : list (bool * string))
    : CommandRedactor * list (bool * string) :=
  match l with
  | [] => (r, [])
  | (ws, s) :: l' =>
      let '(r, s') := if ws : bool then (r, s) else redact_token r s in
      let '(r, out) := redact_chunks r l' in
      (r, (ws, s') :: out)
  end.

Definition redact (r : CommandRedactor) (text : string) : CommandRedactor * string :=
  let '(r, out) := redact_chunks r (chunks (utf8_chars text)) in
  (r, String.concat "" (map snd out)).

Definition redact_command_line (text : string) : string := snd (redact redactor_new text).

(** [trim_start]. *)
Definition trim_start (s : string) : string :=
  unchars (drop_while (λ c, is_whitespace c.1) (utf8_chars s)).

Definition mask_words (text : string) : string :=
  String.concat "" (map (λ c : bool * string, if c.1 then c.2 else REDACTED) (chunks (utf8_chars text))).

Fixpoint take_while {A} (p : A → bool) (l : list A) : list A :=
  match l with
  | [] => []
  | x :: l' => if p x then x :: take_while p l' else []
  end.

(** An argv element that starts with a sensitive assignment or header. *)
Definition redact_owned_value (element : string) : option string :=
  let chars := utf8_chars element in
  let blank := λ c : Z * string, is_whitespace c.1 in
  let leading := take_while blank chars in
  let body := drop_while blank chars in
  let cut := λ c : Z * string, negb (String.eqb c.2 "=" || String.eqb c.2 ":" || blank c) in
  let name := unchars (take_while cut body) in
  match drop_while cut body with
  | [] => None
  | separator :: rest =>
      let rest := unchars rest in
      if blank separator then None
      else if trim_is_empty rest || negb (contains_sensitive_key (trim_matches is_quote name))
      then None
      else Some (unchars leading +:+ name +:+ separator.2 +:+ mask_words rest)%string
  end.

Definition redact_argument (r : CommandRedactor) (element : string) : CommandRedactor * string :=
  let value := trim_start element in
  if (0 <? rd_pending r) && negb (String.eqb value "") && negb (starts_with value "-")
  then (r <| rd_pending ::= λ n, n - 1 |>, REDACTED)
  else
    match redact_owned_value element with
    | Some owned => (redactor_new, owned)
    | None => let '(r, out) := redact r element in (r <| rd_quoted := None |>, out)
    end.

(* ------------------------------------------------------------------ *)
(** ** Argument snapshots *)

Definition NAME_FIELDS : list string :=
  ["key"; "name"; "header"; "field"; "variable"; "env"; "setting"]%string.

Definition VALUE_FIELDS : list string :=
  ["value"; "val"; "values"; "data"; "content"; "secret"]%string.

Definition is_name_field (key : string) : bool :=
  existsb (String.eqb (to_ascii_lowercase key)) NAME_FIELDS.

Definition names_a_sensitive_sibling (fields : list (string * Value)) : bool :=
  existsb (λ f,
    is_name_field f.1
    && match as_str f.2 with Some s => contains_sensitive_key s | None => false end) fields.

Definition is_value_field (key : string) : bool :=
  existsb (String.eqb (to_ascii_lowercase key)) VALUE_FIELDS.

Definition bound_string (text : string) : string :=
  let chars := utf8_chars text in
  if (length chars <=? MAX_PREVIEW_STRING_CHARS)%nat then text
  else
    (unchars (take MAX_PREVIEW_STRING_CHARS chars) +:+ "… ["
     +:+ show_u64 (Z.of_nat (length chars - MAX_PREVIEW_STRING_CHARS)) +:+ " more characters]")%string.

(** A property whose value is hidden. *)
Definition hidden_field (fields : list (string * Value)) (key : string) : bool :=
  contains_sensitive_key key || (names_a_sensitive_sibling fields && is_value_field key).

Fixpoint redact_argument_value (value : Value) (under_sensitive_key : bool) : Value :=
  if under_sensitive_key then VString REDACTED
  else
    match value with
    | VObject fields =>
        VObject (map (λ f, (f.1, redact_argument_value f.2 (hidden_field fields f.1))) fields)
    | VArray items =>
        VArray
          ((fix redact_argument_array (r : CommandRedactor) (items : list Value) : list Value :=
              match items with
              | [] => []
              | item :: rest =>
                  match item with
                  | VString text =>
                      let '(r, out) := redact_argument r text in
                      VString (bound_string out) :: redact_argument_array r rest
                  | _ =>
                      redact_argument_value item false :: redact_argument_array redactor_new rest
                  end
              end) redactor_new items)
    | VString text => VString (bound_string (redact_command_line text))
    | other => other
    end.

Fixpoint redact_argument_array (r : CommandRedactor) (items : list Value) : list Value :=
  match items with
  | [] => []
  | item :: rest =>
      match item with
      | VString text =>
          let '(r, out) := redact_argument r text in
          VString (bound_string out) :: redact_argument_array r rest
      | _ => redact_argument_value item false :: redact_argument_array redactor_new rest
      end
  end.

Definition is_char_boundary (s : string) (i : nat) : bool :=
  match String.get i s with
  | Some c => negb ((128 <=? byte_of c) && (byte_of c <? 192))
  | None => true
  end.

(** The loop that walks back to a character boundary. *)
Fixpoint boundary_cut (s : string) (cut : nat) : nat :=
  match cut with
  | O => O
  | S cut' => if is_char_boundary s cut then cut else boundary_cut s cut'
  end.

Definition bound_snapshot (snapshot : string) : string :=
  if (String.length snapshot <=? MAX_PREVIEW_ARGUMENTS_BYTES)%nat then snapshot
  else
    let cut := boundary_cut snapshot MAX_PREVIEW_ARGUMENTS_BYTES in
    (String.substring 0 cut snapshot +:+ String newline "… [truncated, "
     +:+ show_u64 (Z.of_nat (String.length snapshot - cut)) +:+ " more bytes]")%string.

Definition redacted_arguments (pretty : Value → string) (input : Value) : option string :=
  match input with
  | VNull | VObject [] => None
  | _ => Some (bound_snapshot (pretty (redact_argument_value input false)))
  end.

(** Lines of the module's own tests. *)
Example redact_ex1 :
  redact_command_line "curl -H 'X-Api-Key: live-key' https://example.test"
  = "curl -H 'X-Api-Key: [REDACTED]' https://example.test"%string.
Proof. vm_compute. reflexivity. Qed.

Example redact_ex2 :
  forallb (λ '(a, b), String.eqb (redact_command_line a) b)
    [("curl -H Authorization:Bearer live-key", "curl -H Authorization:[REDACTED] [REDACTED]");
     ("curl  -H 'Authorization: Bearer hunter2'  --token abc",
      "curl  -H 'Authorization: [REDACTED] [REDACTED]'  --token [REDACTED]");
     ("TOKEN=hunter2 curl --password swordfish example.test",
      "TOKEN=[REDACTED] curl --password [REDACTED] example.test");
     ("python tokenizer.py --delete-all", "python tokenizer.py --delete-all");
     ("mysql --password 'two words' -h db", "mysql --password '[REDACTED] [REDACTED]' -h db");
     ("curl -H 'Cookie: a=1; b=2' https://example.test",
      "curl -H 'Cookie: [REDACTED] [REDACTED]' https://example.test")]%string = true.
Proof. vm_compute. reflexivity. Qed.
