(* ===== verification/RedactionFacts.v ===== *)
(** RedactionFacts: what the redacted text of a call can depend on. *)

From S2P Require Import Prelude.
From S2P Require Import Text.
From S2P Require Import Json.
From S2P Require Import Redaction.
#[local] Open Scope Z_scope.

(* ------------------------------------------------------------------ *)
(** ** Public parts *)

(** An argv element a marker before it governs. *)
Definition governed_argument (r : CommandRedactor) (element : string) : Prop :=
  0 < rd_pending r ∧ trim_start element ≠ ""%string ∧ starts_with (trim_start element) "-" = false.

(** Two inputs with the same public part: they may differ at will under hidden
    properties and in the arguments a secret marker governs. *)
#[warnings="-register-all"]
Inductive public_eq : Value → Value → Prop :=
  | pe_same v : public_eq v v
  | pe_object fs gs :
      Forall2 (λ f g, f.1 = g.1 ∧ (hidden_field fs f.1 = true ∨ public_eq f.2 g.2)) fs gs →
      public_eq (VObject fs) (VObject gs)
  | pe_array l m : argv_eq redactor_new l m → public_eq (VArray l) (VArray m)
with argv_eq : CommandRedactor → list Value → list Value → Prop :=
  | ae_nil r : argv_eq r [] []
  | ae_governed r s t l m :
      governed_argument r s → governed_argument r t →
      argv_eq (r <| rd_pending ::= λ n, n - 1 |>) l m →
      argv_eq r (VString s :: l) (VString t :: m)
  | ae_string r s l m :
      argv_eq (fst (redact_argument r s)) l m → argv_eq r (VString s :: l) (VString s :: m)
  | ae_other r v w l m :
      as_str v = None → as_str w = None → public_eq v w → argv_eq redactor_new l m →
      argv_eq r (v :: l) (w :: m).

Lemma redact_value_array items :
  redact_argument_value (VArray items) false = VArray (redact_argument_array redactor_new items).
Proof.
  reflexivity.
Qed.

Lemma redact_array_other r v l :
  as_str v = None →
  redact_argument_array r (v :: l)
    = redact_argument_value v false :: redact_argument_array redactor_new l.
Proof. by destruct v. Qed.

Lemma public_eq_as_str v w : public_eq v w → as_str v = as_str w.
Proof. by destruct 1. Qed.

(* ------------------------------------------------------------------ *)
(** ** Name fields are public *)

Lemma lower_alphanumeric c : is_ascii_alphanumeric (ascii_lower c) = is_ascii_alphanumeric c.
Proof. by destruct c as [[] [] [] [] [] [] [] []]. Qed.

Lemma lower_filter s :
  to_ascii_lowercase (filter_bytes is_ascii_alphanumeric s)
    = filter_bytes is_ascii_alphanumeric (to_ascii_lowercase s).
Proof.
  induction s as [|c s IH]; simpl; [done|]. rewrite lower_alphanumeric.
  destruct (is_ascii_alphanumeric c); simpl; by rewrite IH.
Qed.

(** Only the lower-case form of a key matters. *)
Lemma sensitive_lower key : contains_sensitive_key (to_ascii_lowercase key) = contains_sensitive_key key.
Proof. unfold contains_sensitive_key. by rewrite lower_filter, lowercase_idem, <- lower_filter. Qed.

Lemma name_field_public key :
  is_name_field key = true →
  contains_sensitive_key key = false ∧ is_value_field key = false.
Proof.
  rewrite <- sensitive_lower. unfold is_name_field, is_value_field. generalize (to_ascii_lowercase key).
  intros k Hk. rewrite existsb_true in Hk. destruct Hk as (n & Hn & Hk). apply String.eqb_eq in Hk as ->.
  assert (Hall : forallb (λ n, negb (contains_sensitive_key n)
                                && negb (existsb (String.eqb n) VALUE_FIELDS)) NAME_FIELDS = true)
    by (vm_compute; reflexivity).
  rewrite forallb_true in Hall. specialize (Hall n Hn). by apply andb_true_iff in Hall as [H1%negb_true_iff H2%negb_true_iff].
Qed.

Lemma sibling_public fs0 fs gs :
  Forall2 (λ f g, f.1 = g.1 ∧ (hidden_field fs0 f.1 = true ∨ public_eq f.2 g.2)) fs gs →
  names_a_sensitive_sibling fs = names_a_sensitive_sibling gs.
Proof.
  unfold names_a_sensitive_sibling.
  induction 1 as [|[k v] [k' w] fs gs [Hk Hv] _ IH]; [done|]. cbn [existsb fst snd] in *. subst k'.
  rewrite IH. f_equal. destruct (is_name_field k) eqn:Hn; [|done].
  apply name_field_public in Hn as [Hs Hval]. unfold hidden_field in Hv.
  rewrite Hs, Hval, andb_false_r in Hv. destruct Hv as [Hv|Hv]; [done|].
  by rewrite (public_eq_as_str _ _ Hv).
Qed.

(* ------------------------------------------------------------------ *)
(** ** Noninterference *)

Lemma governed_argument_hidden r s :
  governed_argument r s → redact_argument r s = (r <| rd_pending ::= λ n, n - 1 |>, REDACTED).
Proof.
  intros (Hp & Hne & Hd). unfold redact_argument.
  rewrite (proj2 (Z.ltb_lt 0 _) Hp), (proj2 (String.eqb_neq _ _) Hne), Hd. done.
Qed.

Lemma redact_array_public items :
  Forall (λ v, ∀ w, public_eq v w → redact_argument_value v false = redact_argument_value w false) items →
  ∀ r m, argv_eq r items m → redact_argument_array r items = redact_argument_array r m.
Proof.
  induction 1 as [|v l Hv _ IH]; intros r m Hm; inversion Hm; subst; try done.
  - cbn [redact_argument_array]. rewrite !governed_argument_hidden by done. f_equal. by apply IH.
  - cbn [redact_argument_array]. destruct (redact_argument r s) as [r' out]. f_equal. by apply IH.
  - rewrite !redact_array_other by done. f_equal; [by apply Hv|by apply IH].
Qed.

Lemma redact_hidden v : redact_argument_value v true = VString REDACTED.
Proof. by destruct v. Qed.

Lemma redact_fields_public fs0 fs gs :
  Forall (λ f, ∀ w, public_eq f.2 w → redact_argument_value f.2 false = redact_argument_value w false) fs →
  Forall2 (λ f g, f.1 = g.1 ∧ (hidden_field fs0 f.1 = true ∨ public_eq f.2 g.2)) fs gs →
  map (λ f, (f.1, redact_argument_value f.2 (hidden_field fs0 f.1))) fs
    = map (λ f, (f.1, redact_argument_value f.2 (hidden_field fs0 f.1))) gs.
Proof.
  intros IH Hf. revert IH. induction Hf as [|[k v] [k' w] fs gs [Hk Hv] _ IHf]; intros IH; simpl in *; [done|].
  apply Forall_cons in IH as [Hvw IH]. subst k'. rewrite (IHf IH). f_equal. f_equal.
  destruct (hidden_field fs0 k) eqn:Hh; [by rewrite !redact_hidden|].
  destruct Hv as [Hv|Hv]; [done|]. by apply Hvw.
Qed.

Lemma redact_value_public v : ∀ w, public_eq v w → redact_argument_value v false = redact_argument_value w false.
Proof.
  induction v as [|b|t|t|items IH|fields IH] using Value_ind'; intros w Hw; inversion Hw; subst; try done.
  - rewrite !redact_value_array. f_equal. by apply redact_array_public.
  - match goal with H : Forall2 _ fields ?gs |- _ => rename H into Hf end.
    cbn [redact_argument_value]. f_equal. rewrite (redact_fields_public fields fields _ IH Hf).
    apply map_ext. intros f. unfold hidden_field. by rewrite (sibling_public _ _ _ Hf).
Qed.

(** C38: what an operator sees of a call does not depend on its secrets: two
    inputs that agree on their public parts, that is everywhere but under
    sensitive properties, value fields named by a sensitive sibling and the
    arguments a secret marker governs, produce the same argument card. *)
Theorem redaction_noninterference (pretty : Value → string) v w
    (Hpublic : public_eq v w) :
  redacted_arguments pretty v = redacted_arguments pretty w.
Proof.
  unfold redacted_arguments. rewrite (redact_value_public v w Hpublic).
  destruct Hpublic as [v|fs gs Hf|l m Hl]; [done| |done].
  destruct Hf; done.
Qed.

(* ------------------------------------------------------------------ *)
(** ** The action stays visible *)

(** An option without a value of its own. *)
Definition plain_option (token : string) : bool :=
  let trimmed := trim_matches is_quote token in
  starts_with trimmed "-" && bool_decide (split_once equals_sign trimmed = None)
  && bool_decide (split_once colon_sign trimmed = None).

Lemma plain_option_shown r token :
  rd_quoted r = None → plain_option token = true → snd (redact_token r token) = token.
Proof.
  intros Hq Ht. unfold plain_option in Ht. zbool. unfold redact_token. rewrite Hq.
  rewrite H. simpl.
  assert (Hm : ∀ r, snd (redact_marker r token (trim_matches is_quote token)) = token).
  { intros r'. unfold redact_marker, redact_header.
    repeat match goal with H : split_once _ _ = None |- _ => rewrite H; clear H end. done. }
  by destruct (0 <? rd_pending r).
Qed.

Lemma redact_chunks_layout r l :
  Forall2 (λ a b : bool * string, a.1 = b.1 ∧ (a.1 = true → a.2 = b.2)) l (snd (redact_chunks r l)).
Proof.
  revert r. induction l as [|[ws s] l IH]; intros r; simpl; [constructor|].
  destruct ws; simpl.
  - specialize (IH r). destruct (redact_chunks r l) as [r' out]. by constructor.
  - destruct (redact_token r s) as [r1 s']. specialize (IH r1).
    destruct (redact_chunks r1 l) as [r' out]. by constructor.
Qed.

Lemma redact_chunks_lookup r l i s :
  l !! i = Some (false, s) →
  snd (redact_chunks r l) !! i = Some (false, snd (redact_token (fst (redact_chunks r (take i l))) s)).
Proof.
  revert r i. induction l as [|[ws t] l IH]; intros r [|i]; simpl; try done.
  - intros [= -> ->]. destruct (redact_token r s) as [r1 s']. by destruct (redact_chunks r1 l).
  - intros Hi. destruct ws.
    + specialize (IH r i Hi). destruct (redact_chunks r l) as [r' out].
      destruct (redact_chunks r (take i l)). exact IH.
    + destruct (redact_token r t) as [r1 t']. specialize (IH r1 i Hi).
      destruct (redact_chunks r1 l) as [r' out]. destruct (redact_chunks r1 (take i l)). exact IH.
Qed.

(** redaction keeps the shape of a command line: spacing is kept to the
    byte, every word becomes one word, and an option without a value of its own
    is shown as it is unless it stands inside a quoted secret, so the card
    cannot hide the action a call takes. *)
Theorem redact_shows_action text :
  let words := chunks (utf8_chars text) in
  let shown := snd (redact_chunks redactor_new words) in
  redact_command_line text = String.concat "" (map snd shown) ∧
  Forall2 (λ a b : bool * string, a.1 = b.1 ∧ (a.1 = true → a.2 = b.2)) words shown ∧
  ∀ i word, words !! i = Some (false, word) → plain_option word = true →
    rd_quoted (fst (redact_chunks redactor_new (take i words))) = None →
    shown !! i = Some (false, word).
Proof.
  intros words shown. split; [|split; [apply redact_chunks_layout|]].
  - unfold redact_command_line, redact. fold words. unfold shown.
    by destruct (redact_chunks redactor_new words).
  - intros i word Hi Ho Hq. unfold shown. rewrite (redact_chunks_lookup _ _ _ _ Hi). f_equal. f_equal.
    by apply plain_option_shown.
Qed.

(** Two calls that differ in a header, in the value a sibling names and in the
    argument of an option. *)
Definition ex_call (credential password : string) : Value :=
  VObject
    [("headers", VObject [("Authorization", VString credential); ("Accept", VString "text/html")]);
     ("setting", VObject [("name", VString "GITHUB_TOKEN"); ("value", VString credential)]);
     ("args", VArray [VString "--password"; VString password; VString "--delete-all"])]%string.

Lemma redaction_noninterference_witness :
  redacted_arguments (λ v, match v with VObject f => String.concat "," (map fst f) | _ => "" end)
      (ex_call "Bearer a" "two words")
    = redacted_arguments (λ v, match v with VObject f => String.concat "," (map fst f) | _ => "" end)
      (ex_call "Basic bb" "p2").
Proof.
  apply (redaction_noninterference _ (ex_call "Bearer a" "two words") (ex_call "Basic bb" "p2")).
  apply pe_object. constructor; [split; [done|right]|constructor; [split; [done|right]|
    constructor; [split; [done|right]|constructor]]].
  - apply pe_object. constructor; [split; [done|left; vm_compute; reflexivity]|].
    constructor; [split; [done|right; apply pe_same]|constructor].
  - apply pe_object. constructor; [split; [done|right; apply pe_same]|].
    constructor; [split; [done|left; vm_compute; reflexivity]|constructor].
  - apply pe_array. apply ae_string. apply ae_governed;
      [split; [reflexivity|split; [discriminate|reflexivity]]..|].
    apply ae_string. constructor.
Defined.
