(* ===== verification/AgentGate.v ===== *)
(** AgentGate: the tool registry and its permission gate
    (core/agent/registry.rs).

    A validator and a handler look at the machine they run on; [W] is its
    state, and each call of one names the state it sees.  With hot reload the
    gate reads the durable store at every decision. *)

From S2P Require Import Prelude.
From S2P Require Import Text.
From S2P Require Import BTree.
From S2P Require Import AgentPermissions.
From S2P Require Import Json.
From S2P Require Import SecretPaths.
From S2P Require Import Redaction.
#[local] Open Scope Z_scope.

(* ------------------------------------------------------------------ *)
(** ** Data *)

Record ToolDefinition := mkToolDefinition {
  td_name : string;
  td_description : string;
  td_input_schema : Value
}.

Record ImageAsset := mkImageAsset {
  ia_asset_id : string;
  ia_path : string;
  ia_media_type : string;
  ia_size_bytes : Z
}.

Inductive ToolResultContent :=
  | ResultText (text : string)
  | ResultImage (data : list Byte.byte) (media_type : string)
  | ResultImageAsset (asset : ImageAsset)
  | ResultError (message : string).

Record ToolExecutionPolicy := mkToolPolicy {
  tp_origin : ToolOrigin;
  tp_risk : ToolRisk;
  tp_requires_approval : bool
}.

Definition policy_native (risk : ToolRisk) : ToolExecutionPolicy := mkToolPolicy Native risk false.

Definition policy_native_unclassified : ToolExecutionPolicy := policy_native UnknownRisk.

Record ToolCallPreview := mkPreview {
  pv_summary : string;
  pv_command : option string;
  pv_cwd : option string;
  pv_paths : list string
}.

Definition ToolCallPreview_default : ToolCallPreview := mkPreview "" None None [].

Record ToolApprovalRequest := mkApprovalRequest {
  ar_call_id : string;
  ar_session_id : string;
  ar_thread_id : string;
  ar_tool : string;
  ar_origin : ToolOrigin;
  ar_risk : ToolRisk;
  ar_summary : string;
  ar_command : option string;
  ar_cwd : option string;
  ar_paths : list string;
  ar_arguments : option string
}.

Inductive ToolDecision :=
  | DecisionAllow
  | RequireApproval (request : ToolApprovalRequest)
  | DecisionDeny (reason : string).

Record ToolCapability := mkCapability {
  tc_name : string;
  tc_identity : string;
  tc_origin : string;
  tc_server : option string;
  tc_risk : string;
  tc_effective : PermissionLevel;
  tc_source : PermissionSource;
  tc_requires_approval_flag : bool
}.

Section registry.
Context {W : Type}.

Record RegisteredTool := mkRegistered {
  rt_definition : ToolDefinition;
  rt_handler : W → Value → W * list ToolResultContent;
  rt_policy : ToolExecutionPolicy;
  rt_validator : option (W → Value → string + ToolCallPreview)
}.

Record ToolRegistry := mkRegistry {
  tr_tools : gmap string RegisteredTool;
  tr_policy : AgentPermissions;
  tr_hot_reload : bool;
  tr_thread_overrides : gmap string PermissionLevel;
  tr_thread_context_tools : gset string
}.

Definition registry_new : ToolRegistry := mkRegistry ∅ AgentPermissions_default false ∅ ∅.

(* ------------------------------------------------------------------ *)
(** ** Building a registry *)

Definition enable_thread_context (reg : ToolRegistry) (name : string) : ToolRegistry :=
  mkRegistry (tr_tools reg) (tr_policy reg) (tr_hot_reload reg) (tr_thread_overrides reg)
    ({[ name ]} ∪ tr_thread_context_tools reg).

Definition set_policy (reg : ToolRegistry) (policy : AgentPermissions) : ToolRegistry :=
  mkRegistry (tr_tools reg) policy (tr_hot_reload reg) (tr_thread_overrides reg)
    (tr_thread_context_tools reg).

Definition enable_policy_hot_reload (reg : ToolRegistry) : ToolRegistry :=
  mkRegistry (tr_tools reg) (tr_policy reg) true (tr_thread_overrides reg)
    (tr_thread_context_tools reg).

Definition set_granted (reg : ToolRegistry) (granted : list string) : ToolRegistry :=
  set_policy reg (with_legacy_grants (tr_policy reg) granted).

Definition set_thread_override (reg : ToolRegistry) (identity : string) (level : PermissionLevel)
    : ToolRegistry :=
  mkRegistry (tr_tools reg) (tr_policy reg) (tr_hot_reload reg)
    (<[identity := level]> (tr_thread_overrides reg)) (tr_thread_context_tools reg).

Definition register_with_policy (reg : ToolRegistry) (definition : ToolDefinition)
    (handler : W → Value → W * list ToolResultContent) (policy : ToolExecutionPolicy)
    (validator : option (W → Value → string + ToolCallPreview))
    : string + ToolRegistry :=
  let name := td_name definition in
  match tr_tools reg !! name with
  | Some _ => inl ("Tool '" +:+ name +:+ "' is already registered")%string
  | None =>
      inr (mkRegistry (<[name := mkRegistered definition handler policy validator]> (tr_tools reg))
             (tr_policy reg) (tr_hot_reload reg) (tr_thread_overrides reg)
             (tr_thread_context_tools reg))
  end.

Definition register_native (reg : ToolRegistry) (definition : ToolDefinition)
    (handler : W → Value → W * list ToolResultContent) (risk : ToolRisk) : string + ToolRegistry :=
  register_with_policy reg definition handler (policy_native risk) None.

Definition register (reg : ToolRegistry) (definition : ToolDefinition)
    (handler : W → Value → W * list ToolResultContent) : string + ToolRegistry :=
  register_with_policy reg definition handler policy_native_unclassified None.

(** [definitions]; the order is the map's. *)
Definition definitions (reg : ToolRegistry) : list ToolDefinition :=
  map (λ row, rt_definition (snd row)) (map_to_list (tr_tools reg)).

Definition registry_policy (reg : ToolRegistry) (name : string) : option ToolExecutionPolicy :=
  rt_policy <$> tr_tools reg !! name.

(* ------------------------------------------------------------------ *)
(** ** The gate *)

(** The requires-approval ratchet turns an inherited Allow into Ask. *)
Definition effective_level (reg : ToolRegistry) (policy : AgentPermissions) (name : string)
    (tool : RegisteredTool) : PermissionLevel * PermissionSource :=
  let '(level, source) :=
    resolve_for_origin_with_source policy name (tp_origin (rt_policy tool)) (tp_risk (rt_policy tool))
      (tr_thread_overrides reg) in
  (if tp_requires_approval (rt_policy tool) && bool_decide (source = SourceDefault)
      && bool_decide (level = PermAllow)
   then PermAsk else level, source).

(** The policy of a decision: the store's under hot reload, else the snapshot. *)
Definition current_policy (reg : ToolRegistry) (st : PermStore) : AgentPermissions :=
  if tr_hot_reload reg then live_policy st else tr_policy reg.

Definition find_secret_target (input : Value) (targets : list string) : option string :=
  match find_secret_path input with
  | Some secret => Some secret
  | None => find_map (λ target, find_secret_path (VString target)) targets
  end.

Definition is_external_destructive (policy : ToolExecutionPolicy) : bool :=
  match tp_origin policy with Mcp _ _ => true | Native => false end
  && bool_decide (tp_risk policy = Destructive).

(** The preview of an allowed call that touches a secret. *)
Definition note_secret (preview : ToolCallPreview) (secret : string) : ToolCallPreview :=
  let note := ("Touches secret-bearing path: " +:+ secret)%string in
  let summary :=
    if String.eqb (pv_summary preview) "" then note
    else (pv_summary preview +:+ " — " +:+ note)%string in
  mkPreview summary (pv_command preview) (pv_cwd preview)
    (if existsb (String.eqb secret) (pv_paths preview) then pv_paths preview
     else pv_paths preview ++ [secret]).

Definition run_validator (tool : RegisteredTool) (w : W) (input : Value) : string + ToolCallPreview :=
  match rt_validator tool with
  | Some validate => validate w input
  | None => inr ToolCallPreview_default
  end.

Definition decide_with_targets (pretty : Value → string) (reg : ToolRegistry) (st : PermStore) (w : W)
    (name : string) (input : Value) (call_id session_id thread_id : string)
    : ToolDecision * list string :=
  match tr_tools reg !! name with
  | None => (DecisionDeny ("Tool '" +:+ name +:+ "' is not registered")%string, [])
  | Some tool =>
      match run_validator tool w input with
      | inl error => (DecisionDeny error, [])
      | inr preview =>
          let targets := pv_paths preview in
          let policy := rt_policy tool in
          if is_external_destructive policy then
            (DecisionDeny ("External tool '" +:+ name +:+ "' is denied by policy ("
                           +:+ risk_as_str (tp_risk policy) +:+ ")")%string, targets)
          else
            let '(level, _) := effective_level reg (current_policy reg st) name tool in
            let '(level, preview) :=
              match (if bool_decide (level = PermAllow) then find_secret_target input targets
                     else None) with
              | Some secret => (PermAsk, note_secret preview secret)
              | None => (level, preview)
              end in
            (match level with
             | PermAllow => DecisionAllow
             | PermDeny => DecisionDeny ("Tool '" +:+ name +:+ "' is denied by operator policy")%string
             | PermAsk =>
                 RequireApproval
                   (mkApprovalRequest call_id session_id thread_id name (tp_origin policy)
                      (tp_risk policy) (redact_command_line (pv_summary preview))
                      (redact_command_line <$> pv_command preview) (pv_cwd preview)
                      (pv_paths preview) (redacted_arguments pretty input))
             end, targets)
      end
  end.

Definition decide (pretty : Value → string) (reg : ToolRegistry) (st : PermStore) (w : W)
    (name : string) (input : Value) (call_id session_id thread_id : string) : ToolDecision :=
  fst (decide_with_targets pretty reg st w name input call_id session_id thread_id).

(** Whether a call still resolves to the targets its decision was made on. *)
Definition confirm_targets (reg : ToolRegistry) (w : W) (name : string) (input : Value)
    (decided : list string) : string + unit :=
  match tr_tools reg !! name with
  | None => inl ("Tool '" +:+ name +:+ "' is not registered")%string
  | Some tool =>
      match (match rt_validator tool with
             | Some validate =>
                 match validate w input with inl e => inl e | inr preview => inr (pv_paths preview) end
             | None => inr []
             end) with
      | inl error => inl error
      | inr current =>
          if bool_decide (current = decided) then inr tt
          else inl ("Tool '" +:+ name +:+ "' call target changed after authorization")%string
      end
  end.

Definition dispatch (reg : ToolRegistry) (w : W) (name : string) (input : Value)
    : W * (string + list ToolResultContent) :=
  match tr_tools reg !! name with
  | None => (w, inl ("Tool '" +:+ name +:+ "' is not registered")%string)
  | Some tool => let '(w, out) := rt_handler tool w input in (w, inr out)
  end.

(** [object.insert("_thread_id", …)] in the object's key order. *)
Definition with_thread_id (input : Value) (thread_id : string) : Value :=
  match input with
  | VObject fields => VObject (btree_insert "_thread_id" (VString thread_id) fields)
  | other => other
  end.

Definition dispatch_in_thread (reg : ToolRegistry) (w : W) (name : string) (input : Value)
    (thread_id : string) : W * (string + list ToolResultContent) :=
  dispatch reg w name
    (if bool_decide (name ∈ tr_thread_context_tools reg) then with_thread_id input thread_id
     else input).

(* ------------------------------------------------------------------ *)
(** ** The settings list *)

Definition capability_of (reg : ToolRegistry) (name : string) (tool : RegisteredTool)
    : ToolCapability :=
  let policy := rt_policy tool in
  let '(effective, source) := effective_level reg (tr_policy reg) name tool in
  mkCapability name (tool_identity (tp_origin policy) name)
    (match tp_origin policy with
     | Native => "native" | Mcp server _ => "mcp:" +:+ server end)%string
    (origin_server (tp_origin policy)) (risk_as_str (tp_risk policy)) effective source
    (tp_requires_approval policy).

Fixpoint insert_capability (c : ToolCapability) (l : list ToolCapability) : list ToolCapability :=
  match l with
  | [] => [c]
  | d :: l' =>
      if String.ltb (tc_identity c) (tc_identity d) then c :: l else d :: insert_capability c l'
  end.

(** [sort_by] on the identity, stable. *)
Definition capabilities (reg : ToolRegistry) : list ToolCapability :=
  fold_left (λ l c, insert_capability c l)
    (map (λ '(name, tool), capability_of reg name tool) (map_to_list (tr_tools reg))) [].
End registry.

Arguments RegisteredTool : clear implicits.
Arguments ToolRegistry : clear implicits.
