(* ===== verification/AgentGateFacts.v ===== *)
(** AgentGateFacts: theorems about the permission gate. *)

From S2P Require Import Prelude.
From S2P Require Import Text.
From S2P Require Import BTree.
From S2P Require Import AgentPermissions.
From S2P Require Import Json.
From S2P Require Import SecretPaths.
From S2P Require Import Redaction.
From S2P Require Import AgentGate.
#[local] Open Scope Z_scope.

Section gate.
Context {W : Type}.
Implicit Types reg : ToolRegistry W.

(** The rules that let a tool run without asking. *)
Definition allowed_by_rule reg (p : AgentPermissions) (name : string) (tool : RegisteredTool W) : Prop :=
  let identity := tool_identity (tp_origin (rt_policy tool)) name in
  let risk := tp_risk (rt_policy tool) in
  match tr_thread_overrides reg !! identity with
  | Some level => level = PermAllow
  | None =>
      match btree_get identity (ap_tools p) with
      | Some level => level = PermAllow
      | None =>
          match origin_server (tp_origin (rt_policy tool)) ≫= server_rule p with
          | Some level => level = PermAllow ∧ risk ≠ UnknownRisk
          | None => risk_default p risk = PermAllow ∧ tp_requires_approval (rt_policy tool) = false
          end
      end
  end.

Lemma effective_allow reg p name tool :
  fst (effective_level reg p name tool) = PermAllow ↔ allowed_by_rule reg p name tool.
Proof.
  unfold effective_level, allowed_by_rule, resolve_for_origin_with_source, resolve_with_source.
  destruct (tr_thread_overrides reg !! _) as [l|].
  { simpl. rewrite andb_false_r. by destruct l. }
  destruct (btree_get _ _) as [l|].
  { simpl. rewrite andb_false_r. by destruct l. }
  destruct (_ ≫= _) as [l|]; simpl.
  { rewrite andb_false_r. simpl. destruct l, (tp_risk (rt_policy tool)); naive_solver. }
  rewrite andb_true_r.
  destruct (tp_requires_approval (rt_policy tool)), (risk_default p (tp_risk (rt_policy tool)));
    simpl; naive_solver.
Qed.

Lemma find_secret_target_none input targets :
  find_secret_target input targets = None ↔
  (∀ s, string_in s input → classify s = false) ∧ ∀ t, t ∈ targets → classify t = false.
Proof.
  pose proof (find_secret_none input) as Hin.
  unfold find_secret_target. rewrite <- Hin. destruct (find_secret_path input); [naive_solver|].
  rewrite find_map_None. split.
  - intros H. split; [done|]. intros t Ht. specialize (H t Ht). simpl in H. by destruct (classify t).
  - intros [_ H] t Ht. simpl. by rewrite H.
Qed.

(** C37: a call runs without asking exactly when its tool is registered, the
    validator accepts the input, the tool is not an external destructive one,
    the most specific rule that speaks is Allow (a server rule does not speak
    for a tool of unknown risk, a category default not for a tool that declares
    approval), and no string of the input at any depth and no resolved target
    names a secret-bearing path. *)
Theorem gate_allows_exact pretty reg st w name input call_id session_id thread_id :
  decide pretty reg st w name input call_id session_id thread_id = DecisionAllow ↔
  ∃ tool preview,
    tr_tools reg !! name = Some tool ∧ run_validator tool w input = inr preview ∧
    ¬ (tp_risk (rt_policy tool) = Destructive ∧ ∃ s t, tp_origin (rt_policy tool) = Mcp s t) ∧
    allowed_by_rule reg (current_policy reg st) name tool ∧
    (∀ s, string_in s input → classify s = false) ∧
    (∀ t, t ∈ pv_paths preview → classify t = false).
Proof.
  unfold decide, decide_with_targets. destruct (tr_tools reg !! name) as [tool|];
    [|split; [done|by intros (? & ? & ? & _)]].
  destruct (run_validator tool w input) as [e|preview] eqn:Hrun;
    [split; [done|intros (? & ? & [= <-] & ? & _); congruence]|].
  assert (Hd : is_external_destructive (rt_policy tool) = true ↔
    tp_risk (rt_policy tool) = Destructive ∧ ∃ s t, tp_origin (rt_policy tool) = Mcp s t).
  { unfold is_external_destructive. rewrite andb_true_iff, bool_decide_eq_true.
    destruct (tp_origin (rt_policy tool)); naive_solver. }
  pose proof (effective_allow reg (current_policy reg st) name tool) as Hl.
  pose proof (find_secret_target_none input (pv_paths preview)) as Hs.
  destruct (is_external_destructive (rt_policy tool)).
  { split; [done|]. intros (? & ? & [= <-] & _ & Hn & _). exfalso. apply Hn. by apply Hd. }
  destruct (effective_level reg (current_policy reg st) name tool) as [level source]. simpl in Hl.
  assert (Hnd : ¬ (tp_risk (rt_policy tool) = Destructive ∧ ∃ s t, tp_origin (rt_policy tool) = Mcp s t))
    by (intros H; by apply Hd in H).
  case_bool_decide as Hlevel.
  - subst level. destruct (find_secret_target input (pv_paths preview)) as [s|]; simpl.
    + split; [done|]. intros (? & ? & [= <-] & Hp & _ & _ & H1 & H2). rewrite Hrun in Hp. injection Hp as <-.
      by assert (Some s = None) by (apply Hs; done).
    + split; [|done]. intros _. destruct (proj1 Hs eq_refl). exists tool, preview. naive_solver.
  - split.
    + by destruct level.
    + intros (? & ? & [= <-] & _ & _ & H & _). exfalso. by apply Hlevel, Hl.
Qed.

(** the card shows what is asked for: whenever the gate asks, the request
    carries the ids of the call and every target its validator resolved, and a
    call that would run but for a secret is asked about with a secret path on
    the card; its text and arguments have passed redaction. *)
Theorem gate_card_exact pretty reg st w name input call_id session_id thread_id request targets
    (Hask : decide_with_targets pretty reg st w name input call_id session_id thread_id
            = (RequireApproval request, targets)) :
  ∃ tool preview,
    tr_tools reg !! name = Some tool ∧ run_validator tool w input = inr preview ∧
    targets = pv_paths preview ∧
    ar_call_id request = call_id ∧ ar_session_id request = session_id ∧
    ar_thread_id request = thread_id ∧ ar_tool request = name ∧
    ar_origin request = tp_origin (rt_policy tool) ∧
    (∀ t, t ∈ targets → t ∈ ar_paths request) ∧
    ar_command request = redact_command_line <$> pv_command preview ∧
    (∃ summary, ar_summary request = redact_command_line summary) ∧
    ar_arguments request = redacted_arguments pretty input ∧
    (allowed_by_rule reg (current_policy reg st) name tool →
     ∃ s, s ∈ ar_paths request ∧ classify s = true).
Proof.
  unfold decide_with_targets in Hask. destruct (tr_tools reg !! name) as [tool|]; [|done].
  destruct (run_validator tool w input) as [e|preview] eqn:Hv; [done|].
  destruct (is_external_destructive (rt_policy tool)); [done|].
  pose proof (effective_allow reg (current_policy reg st) name tool) as Hl.
  destruct (effective_level reg (current_policy reg st) name tool) as [level source]. simpl in Hl.
  exists tool, preview. split; [done|]. split; [done|].
  case_bool_decide as Hlevel.
  - subst level. destruct (find_secret_target input (pv_paths preview)) as [s|] eqn:Hs; [|done].
    injection Hask as <- <-. simpl. repeat (split; [done|]).
    assert (Hsub : ∀ t, t ∈ pv_paths preview → t ∈
      (if existsb (String.eqb s) (pv_paths preview) then pv_paths preview else pv_paths preview ++ [s])).
    { intros t Ht. case_match; [done|]. apply elem_of_app. by left. }
    split; [done|]. split; [done|]. split; [by eexists|]. split; [done|]. intros _.
    exists s. split.
    + destruct (existsb (String.eqb s) (pv_paths preview)) eqn:Hin.
      * apply existsb_true in Hin as (x & Hx & He). by apply String.eqb_eq in He as ->.
      * apply elem_of_app. right. by left.
    + unfold find_secret_target in Hs. destruct (find_secret_path input) as [s'|] eqn:Hp.
      * injection Hs as ->. by apply find_secret_some in Hp as [_ Hc].
      * apply find_map_Some in Hs as (t & _ & Ht). simpl in Ht.
        destruct (classify t) eqn:Hc; [|done]. by injection Ht as <-.
  - destruct level; try done. injection Hask as <- <-. simpl. repeat (split; [done|]).
    split; [by eexists|]. split; [done|]. intros H. by apply Hl in H.
Qed.

Lemma insert_capability_elem c l x : x ∈ insert_capability c l ↔ x = c ∨ x ∈ l.
Proof.
  induction l as [|d l IH]; simpl; [by rewrite list_elem_of_singleton, elem_of_nil; naive_solver|].
  case_match; rewrite !elem_of_cons; [done|]. rewrite IH. naive_solver.
Qed.

Lemma capabilities_elem reg row :
  row ∈ capabilities reg ↔
  ∃ name tool, tr_tools reg !! name = Some tool ∧ row = capability_of reg name tool.
Proof.
  unfold capabilities.
  assert (H : ∀ l acc, row ∈ fold_left (λ l c, insert_capability c l) l acc ↔ row ∈ l ∨ row ∈ acc).
  { induction l as [|c l IH]; intros acc; simpl; [rewrite elem_of_nil; naive_solver|].
    rewrite IH, insert_capability_elem, elem_of_cons. naive_solver. }
  rewrite H, elem_of_nil, list_elem_of_fmap. split.
  - intros [([name tool] & -> & Hin)|[]]. apply elem_of_map_to_list in Hin. eauto.
  - intros (name & tool & Hin & ->). left. exists (name, tool). split; [done|].
    by apply elem_of_map_to_list.
Qed.

(** The verdict as a level. *)
Definition decision_level (d : ToolDecision) : PermissionLevel :=
  match d with
  | DecisionAllow => PermAllow | RequireApproval _ => PermAsk | DecisionDeny _ => PermDeny
  end.

(** the settings list and the gate agree: there is one row per registered
    tool, and under the policy the list was built from, the row's level is the
    verdict of the next call, for every call with a valid input and no secret
    in it, except for external destructive tools, which the gate denies
    whatever the row says. *)
Theorem capability_row_is_verdict pretty reg st w name input call_id session_id thread_id row
    (Hrow : row ∈ capabilities reg)
    (Hname : tc_name row = name)
    (Hpolicy : current_policy reg st = tr_policy reg)
    (Hinput : ∀ s, string_in s input → classify s = false) :
  ∃ tool, tr_tools reg !! name = Some tool ∧
    ∀ preview, run_validator tool w input = inr preview →
      (∀ t, t ∈ pv_paths preview → classify t = false) →
      decision_level (decide pretty reg st w name input call_id session_id thread_id)
        = (if is_external_destructive (rt_policy tool) then PermDeny else tc_effective row).
Proof.
  apply capabilities_elem in Hrow as (name' & tool & Htool & ->).
  unfold capability_of in *. rewrite <- Hpolicy in *.
  destruct (effective_level reg (current_policy reg st) name' tool) as [level source] eqn:Hl.
  simpl in Hname. subst name'. exists tool. split; [done|]. intros preview Hv Hp.
  unfold decide, decide_with_targets. rewrite Htool, Hv.
  destruct (is_external_destructive (rt_policy tool)); [done|]. rewrite Hl. simpl.
  case_bool_decide as Ha.
  - rewrite (proj2 (find_secret_target_none _ _) (conj Hinput Hp)). by subst level.
  - by destruct level.
Qed.

(** a registration is never shadowed: registering a taken name fails, and
    every other operation on a registry keeps the tools it has, so a tool can
    not inherit the approvals of an earlier one. *)
Theorem registration_not_shadowed reg name tool definition handler policy validator
    (Htool : tr_tools reg !! name = Some tool) :
  (td_name definition = name → ∃ e, register_with_policy reg definition handler policy validator = inl e) ∧
  (∀ reg', register_with_policy reg definition handler policy validator = inr reg' →
     tr_tools reg' !! name = Some tool) ∧
  ∀ p granted identity level context,
    tr_tools (set_policy (set_granted (set_thread_override (enable_policy_hot_reload
      (enable_thread_context reg context)) identity level) granted) p) !! name = Some tool.
Proof.
  unfold register_with_policy. split; [|split].
  - intros ->. rewrite Htool. by eexists.
  - intros reg'. destruct (tr_tools reg !! td_name definition) eqn:Hd; [done|]. intros [= <-]. simpl.
    rewrite lookup_insert_ne; [done|]. intros He. congruence.
  - done.
Qed.
End gate.

(* ------------------------------------------------------------------ *)
(** ** Witnesses *)

(** A read tool whose path is an alias; [true] is the machine on which the
    alias leads to a secret. *)
Definition ex_validate (w : bool) (input : Value) : string + ToolCallPreview :=
  inr (mkPreview "Read file" (Some "cat docs/info.txt --token abc"%string) None
         [if w then "/ws/.env" else "/ws/docs/info.txt"]%string).

Definition ex_read_tool : RegisteredTool bool :=
  mkRegistered (mkToolDefinition "read_file" "" VNull) (λ w _, (w, [])) (policy_native ReadOnly)
    (Some ex_validate).

Definition ex_registry : ToolRegistry bool :=
  mkRegistry {[ "read_file"%string := ex_read_tool ]} AgentPermissions_default false ∅ ∅.

Definition ex_input : Value := VObject [("path", VString "docs/info.txt")]%string.
Definition ex_pretty (v : Value) : string := "".

Lemma ex_input_clean s : string_in s ex_input → classify s = false.
Proof.
  intros H. inversion H as [| |? k v ? Hin Hs]; subst. apply list_elem_of_singleton in Hin as [= -> ->].
  inversion Hs; subst. vm_compute. reflexivity.
Qed.

Lemma gate_card_exact_witness :
  ∃ request,
    decide_with_targets ex_pretty ex_registry (mkPermStore None GrantsMissing) true "read_file" ex_input
      "c1" "s1" "t1" = (RequireApproval request, ["/ws/.env"%string]) ∧
    ar_command request = Some "cat docs/info.txt --token [REDACTED]"%string ∧
    ∃ s, s ∈ ar_paths request ∧ classify s = true.
Proof.
  eexists. split; [vm_compute; reflexivity|]. split; [reflexivity|].
  destruct (gate_card_exact ex_pretty ex_registry (mkPermStore None GrantsMissing) true "read_file"
    ex_input "c1" "s1" "t1" _ _ ltac:(vm_compute; reflexivity))
    as (tool & preview & Ht & _ & _ & _ & _ & _ & _ & _ & _ & _ & _ & _ & H).
  apply H. injection Ht as <-. unfold allowed_by_rule. simpl. split; reflexivity.
Defined.

Lemma capability_row_is_verdict_witness :
  decision_level (decide ex_pretty ex_registry (mkPermStore None GrantsMissing) false "read_file"
    ex_input "c1" "s1" "t1") = PermAllow.
Proof.
  destruct (capability_row_is_verdict ex_pretty ex_registry (mkPermStore None GrantsMissing) false
    "read_file" ex_input "c1" "s1" "t1" (capability_of ex_registry "read_file" ex_read_tool))
    as (tool & Ht & H).
  - apply capabilities_elem. exists "read_file"%string, ex_read_tool. split; reflexivity.
  - reflexivity.
  - reflexivity.
  - exact ex_input_clean.
  - injection Ht as <-. rewrite (H _ eq_refl); [reflexivity|].
    intros t Hin. apply list_elem_of_singleton in Hin as ->. vm_compute. reflexivity.
Defined.

Lemma registration_not_shadowed_witness :
  ∃ e, register_with_policy ex_registry (mkToolDefinition "read_file" "again" VNull)
         (λ w _, (w, [])) (policy_native Mutating) None = inl e.
Proof.
  exact (proj1 (registration_not_shadowed ex_registry "read_file" ex_read_tool
    (mkToolDefinition "read_file" "again" VNull) (λ w _, (w, [])) (policy_native Mutating) None eq_refl)
    eq_refl).
Defined.
