(* ===== verification/ApprovalBroker.v ===== *)
(** ApprovalBroker: the suspension point between the tool gate and the approval
    cards (core/agent/approval.rs).

    A call parked by [begin] waits on a one-shot channel; a card answers through
    [resolve], which takes the row, announces the change, persists a remembered
    grant and only then sends.  Cards, cancellations and the runtime that polls
    or drops a future run concurrently, so every critical section under the
    broker's lock is one step of [broker_step]; a run is any list of steps. *)

From stdpp Require Import countable.
From S2P Require Import Prelude.
From S2P Require Import AgentPermissions.
From S2P Require Import Json.
From S2P Require Import AgentGate.
#[local] Open Scope Z_scope.

(* ------------------------------------------------------------------ *)
(** ** The one-shot channel

    The channel belongs to the asynchronous runtime: its operations and what
    its documentation promises are an interface. *)

Inductive Received := RecvPending | RecvValue (b : bool) | RecvClosed.

Class Oneshot (C : Type) := {
  chan_new : C;
  (** [tx.send(b).is_ok()] with the channel after it. *)
  chan_send : bool → C → C * bool;
  chan_drop_sender : C → C;
  chan_drop_receiver : C → C;
  (** What polling the receiver yields. *)
  chan_recv : C → Received;
  chan_receiver_alive : C → bool
}.

Class OneshotLaws (C : Type) `{Oneshot C} := {
  chan_new_pending : chan_recv chan_new = RecvPending;
  chan_new_alive : chan_receiver_alive chan_new = true;
  chan_send_value c b : chan_recv c = RecvPending → chan_receiver_alive c = true →
    chan_recv (fst (chan_send b c)) = RecvValue b;
  chan_send_answer c b : snd (chan_send b c) = chan_receiver_alive c;
  chan_drop_sender_closes c : chan_recv c = RecvPending →
    chan_recv (chan_drop_sender c) = RecvClosed;
  chan_send_alive c b : chan_receiver_alive (fst (chan_send b c)) = chan_receiver_alive c;
  chan_drop_sender_alive c : chan_receiver_alive (chan_drop_sender c) = chan_receiver_alive c;
  chan_drop_receiver_dead c : chan_receiver_alive (chan_drop_receiver c) = false
}.

(* ------------------------------------------------------------------ *)
(** ** Data *)

Record ApprovalKey := mkApprovalKey {
  ak_session_id : string;
  ak_thread_id : string;
  ak_call_id : string
}.

#[global] Instance ApprovalKey_eq_dec : EqDecision ApprovalKey.
Proof. solve_decision. Defined.

#[global] Instance ApprovalKey_countable : Countable ApprovalKey.
Proof.
  refine (inj_countable' (λ k, (ak_session_id k, ak_thread_id k, ak_call_id k))
            (λ '(s, t, c), mkApprovalKey s t c) _).
  by intros [].
Defined.

(** [pa_token] is the fresh [Arc] that tells registrations of one key apart; the
    channel is created with it and goes by the same number. *)
Record PendingApproval := mkPending {
  pa_request : ToolApprovalRequest;
  pa_token : nat;
  pa_grant_target : GrantTarget
}.

Definition key_of (r : ToolApprovalRequest) : ApprovalKey :=
  mkApprovalKey (ar_session_id r) (ar_thread_id r) (ar_call_id r).

Definition grant_target_of (r : ToolApprovalRequest) : GrantTarget :=
  match ar_origin r with
  | Mcp server upstream_tool => TargetMcp server upstream_tool
  | Native => TargetNative (tool_identity (ar_origin r) (ar_tool r))
  end.

(** A future handed out by [begin].  [FutureRefused] is [async { false }];
    a waiting one holds the receiver and the guard, a finishing one has let the
    receiver go and still owes the guard's drop, [None] when it was dropped
    before it completed. *)
Inductive FutureState :=
  | FutureRefused
  | FutureWaiting
  | FutureFinishing (verdict : option bool)
  | FutureDone (verdict : option bool).

Record ApprovalFuture := mkFuture { fu_key : ApprovalKey; fu_state : FutureState }.

(** Where a call of [resolve] that took a row stands. *)
Inductive ResolvePc := ResolveTaken | ResolveAnnounced | ResolvePersisted | ResolveReturned (answer : bool).

Record ResolveCall := mkResolve {
  rv_entry : PendingApproval;
  rv_approved : bool;
  rv_remember : bool;
  rv_pc : ResolvePc
}.

Section broker.
Context {C : Type} `{Oneshot C}.

(** The broker with the futures and calls that hold on to it. *)
Record Broker := mkBroker {
  br_pending : gmap ApprovalKey PendingApproval;
  br_changed : Z;
  br_chans : gmap nat C;
  br_futures : list ApprovalFuture;
  br_resolves : list ResolveCall;
  br_store : PermStore
}.

Definition broker_new (st : PermStore) : Broker := mkBroker ∅ 0 ∅ [] [] st.

Definition notify_changed (h : Broker) : Broker := h <| br_changed ::= λ r, wrap_add r 1 |>.

Definition update_chan (h : Broker) (n : nat) (f : C → C) : Broker :=
  h <| br_chans ::= alter f n |>.

Definition set_future (h : Broker) (n : nat) (s : FutureState) : Broker :=
  h <| br_futures ::= alter (λ f, f <| fu_state := s |>) n |>.

Definition set_resolve (h : Broker) (i : nat) (pc : ResolvePc) : Broker :=
  h <| br_resolves ::= alter (λ r, r <| rv_pc := pc |>) i |>.

(** [begin]: the future is number [length (br_futures h)]. *)
Definition begin (h : Broker) (request : ToolApprovalRequest) : Broker :=
  let key := key_of request in
  let token := length (br_futures h) in
  match br_pending h !! key with
  | Some _ => h <| br_futures ::= λ l, l ++ [mkFuture key FutureRefused] |>
  | None =>
      notify_changed
        (mkBroker (<[key := mkPending request token (grant_target_of request)]> (br_pending h))
           (br_changed h) (<[token := chan_new]> (br_chans h))
           (br_futures h ++ [mkFuture key FutureWaiting]) (br_resolves h) (br_store h))
  end.

(** The first statement of [resolve]: take the row, or answer [false]. *)
Definition resolve_take (h : Broker) (session_id thread_id call_id : string)
    (approved remember : bool) : Broker * bool :=
  let key := mkApprovalKey session_id thread_id call_id in
  match br_pending h !! key with
  | None => (h, false)
  | Some entry =>
      (h <| br_pending ::= delete key |>
         <| br_resolves ::= λ l, l ++ [mkResolve entry approved remember ResolveTaken] |>, true)
  end.

(** The rest of [resolve], one shared access at a time. *)
Definition resolve_continue (disk : DiskOutcome) (now : string) (h : Broker) (i : nat) : Broker :=
  match br_resolves h !! i with
  | None => h
  | Some r =>
      match rv_pc r with
      | ResolveTaken => set_resolve (notify_changed h) i ResolveAnnounced
      | ResolveAnnounced =>
          let h := if rv_approved r && rv_remember r
                   then h <| br_store := fst (grant_persist disk now (br_store h)
                                                (pa_grant_target (rv_entry r))) |>
                   else h in
          set_resolve h i ResolvePersisted
      | ResolvePersisted =>
          let token := pa_token (rv_entry r) in
          let answer := match br_chans h !! token with
                        | Some c => snd (chan_send (rv_approved r) c)
                        | None => false
                        end in
          set_resolve (update_chan h token (λ c, fst (chan_send (rv_approved r) c))) i
            (ResolveReturned answer)
      | ResolveReturned _ => h
      end
  end.

(** A whole call of [resolve] with nothing between its accesses. *)
Definition resolve (disk : DiskOutcome) (now : string) (h : Broker)
    (session_id thread_id call_id : string) (approved remember : bool) : Broker * bool :=
  let call := length (br_resolves h) in
  let '(h, taken) := resolve_take h session_id thread_id call_id approved remember in
  if taken then
    let step h := resolve_continue disk now h call in
    let h := step (step (step h)) in
    (h, match rv_pc <$> br_resolves h !! call with Some (ResolveReturned answer) => answer | _ => false end)
  else (h, false).

Definition in_thread (thread_id : string) (row : ApprovalKey * PendingApproval) : Prop :=
  ak_thread_id (fst row) = thread_id.

#[global] Instance in_thread_dec thread_id row : Decision (in_thread thread_id row).
Proof. unfold in_thread; apply _. Defined.

(** [cancel_thread]: removing a row drops its sender. *)
Definition cancel_thread (h : Broker) (thread_id : string) : Broker :=
  let dropped := filter (in_thread thread_id) (br_pending h) in
  let h := map_fold (λ _ entry h, update_chan h (pa_token entry) chan_drop_sender) h dropped in
  notify_changed (h <| br_pending ::= filter (λ row, ¬ in_thread thread_id row) |>).

(** One poll of a future, up to the drop of its guard. *)
Definition poll_future (h : Broker) (n : nat) : Broker :=
  match br_futures h !! n with
  | Some f =>
      match fu_state f with
      | FutureRefused => set_future h n (FutureDone (Some false))
      | FutureWaiting =>
          match chan_recv <$> br_chans h !! n with
          | Some (RecvValue b) =>
              set_future (update_chan h n chan_drop_receiver) n (FutureFinishing (Some b))
          | Some RecvClosed =>
              set_future (update_chan h n chan_drop_receiver) n (FutureFinishing (Some false))
          | _ => h
          end
      | _ => h
      end
  | None => h
  end.

(** Dropping a future that has not completed. *)
Definition drop_future (h : Broker) (n : nat) : Broker :=
  match br_futures h !! n with
  | Some f =>
      match fu_state f with
      | FutureRefused => set_future h n (FutureDone None)
      | FutureWaiting =>
          set_future (update_chan h n chan_drop_receiver) n (FutureFinishing None)
      | _ => h
      end
  | None => h
  end.

(** [PendingApprovalGuard::drop]; a row it removes drops its sender. *)
Definition drop_guard (h : Broker) (n : nat) : Broker :=
  match br_futures h !! n with
  | Some f =>
      match fu_state f with
      | FutureFinishing verdict =>
          set_future
            (match br_pending h !! fu_key f with
             | Some entry =>
                 if bool_decide (pa_token entry = n)
                 then notify_changed
                        ((update_chan h (pa_token entry) chan_drop_sender)
                           <| br_pending ::= delete (fu_key f) |>)
                 else h
             | None => h
             end) n (FutureDone verdict)
      | _ => h
      end
  | None => h
  end.

(** [sort_by] on the session and the call, stable. *)
Definition request_before (a b : ToolApprovalRequest) : bool :=
  String.ltb (ar_session_id a) (ar_session_id b)
  || String.eqb (ar_session_id a) (ar_session_id b) && String.ltb (ar_call_id a) (ar_call_id b).

Fixpoint insert_request (r : ToolApprovalRequest) (l : list ToolApprovalRequest)
    : list ToolApprovalRequest :=
  match l with
  | [] => [r]
  | x :: l' => if request_before r x then r :: l else x :: insert_request r l'
  end.

Definition pending_for_thread (h : Broker) (thread_id : string) : list ToolApprovalRequest :=
  fold_left (λ l r, insert_request r l)
    (filter (λ r, ar_thread_id r = thread_id)
       (map (λ row, pa_request (snd row)) (map_to_list (br_pending h)))) [].

Inductive BrokerStep :=
  | DoBegin (request : ToolApprovalRequest)
  | DoResolve (session_id thread_id call_id : string) (approved remember : bool)
  | DoContinue (disk : DiskOutcome) (now : string) (call : nat)
  | DoCancel (thread_id : string)
  | DoPoll (future : nat)
  | DoDrop (future : nat)
  | DoGuard (future : nat).

Definition broker_step (h : Broker) (s : BrokerStep) : Broker :=
  match s with
  | DoBegin request => begin h request
  | DoResolve session_id thread_id call_id approved remember =>
      fst (resolve_take h session_id thread_id call_id approved remember)
  | DoContinue disk now call => resolve_continue disk now h call
  | DoCancel thread_id => cancel_thread h thread_id
  | DoPoll future => poll_future h future
  | DoDrop future => drop_future h future
  | DoGuard future => drop_guard h future
  end.

Definition broker_run (h : Broker) (steps : list BrokerStep) : Broker :=
  fold_left broker_step steps h.
End broker.

Arguments Broker : clear implicits.
