(* ===== verification/ApprovalBrokerFacts.v ===== *)
(** ApprovalBrokerFacts: no card without a waiter, no waiter without a way to
    its answer, and no approval without a card that said so. *)

From S2P Require Import Prelude.
From S2P Require Import AgentPermissions.
From S2P Require Import Json.
From S2P Require Import AgentGate.
From S2P Require Import ApprovalBroker.
#[local] Open Scope Z_scope.

Lemma list_alter_some {A} (f : A → A) n (l : list A) m x :
  alter f n l !! m = Some x ↔
  (n = m ∧ ∃ y, l !! m = Some y ∧ x = f y) ∨ (n ≠ m ∧ l !! m = Some x).
Proof.
  destruct (Nat.eq_dec n m) as [->|Hne].
  - rewrite list_lookup_alter_eq. destruct (l !! m) as [y|]; simpl; naive_solver.
  - rewrite list_lookup_alter_ne by done. naive_solver.
Qed.

Lemma snoc_some {A} (l : list A) y m x :
  (l ++ [y]) !! m = Some x ↔ l !! m = Some x ∨ (m = length l ∧ x = y).
Proof.
  rewrite lookup_app_Some. split.
  - intros [?|[Hlen Hx]]; [by left|]. right.
    destruct (m - length l)%nat eqn:E; simpl in Hx; [|by destruct n]. simplify_eq. split; [lia|done].
  - intros [?|[-> ->]]; [by left|]. right. split; [done|]. by rewrite Nat.sub_diag.
Qed.

Lemma snoc_last {A} (l : list A) x : (l ++ [x]) !! length l = Some x.
Proof. apply snoc_some. by right. Qed.

Lemma alter_snoc {A} (f : A → A) (l : list A) x : alter f (length l) (l ++ [x]) = l ++ [f x].
Proof. induction l as [|y l IH]; [done|]. change (y :: alter f (length l) (l ++ [x]) = y :: l ++ [f x]). by rewrite IH. Qed.

Section facts.
Context {C : Type} `{OneshotLaws C}.
Implicit Types h : Broker C.

Definition held (f : ApprovalFuture) : Prop :=
  match fu_state f with FutureWaiting | FutureFinishing _ => True | _ => False end.

Definition in_flight (r : ResolveCall) : Prop :=
  match rv_pc r with ResolveReturned _ => False | _ => True end.

Definition row_token h (n : nat) : Prop := ∃ k e, br_pending h !! k = Some e ∧ pa_token e = n.

Definition call_token h (n : nat) : Prop :=
  ∃ i r, br_resolves h !! i = Some r ∧ in_flight r ∧ pa_token (rv_entry r) = n.

(** Every row and every answer under way belongs to one registration, and a
    waiting future's channel is open exactly while one of them holds its
    sender. *)
Record broker_inv h : Prop := {
  bi_rows k e : br_pending h !! k = Some e →
    key_of (pa_request e) = k ∧ pa_grant_target e = grant_target_of (pa_request e) ∧
    ∃ f, br_futures h !! pa_token e = Some f ∧ fu_key f = k ∧ held f;
  bi_calls i r : br_resolves h !! i = Some r → in_flight r →
    ¬ row_token h (pa_token (rv_entry r)) ∧
    (∀ j r', br_resolves h !! j = Some r' → in_flight r' →
       pa_token (rv_entry r') = pa_token (rv_entry r) → i = j) ∧
    ∃ f, br_futures h !! pa_token (rv_entry r) = Some f ∧
      fu_key f = key_of (pa_request (rv_entry r));
  bi_chans n f : br_futures h !! n = Some f → fu_state f = FutureWaiting →
    ∃ c, br_chans h !! n = Some c ∧ chan_receiver_alive c = true ∧
      (chan_recv c = RecvPending ↔ row_token h n ∨ call_token h n)
}.

Lemma row_tokens_inj h k e k' e' :
  broker_inv h → br_pending h !! k = Some e → br_pending h !! k' = Some e' →
  pa_token e = pa_token e' → k = k'.
Proof.
  intros Hi He He' Ht.
  destruct (bi_rows h Hi _ _ He) as (_ & _ & f & Hf & <- & _).
  destruct (bi_rows h Hi _ _ He') as (_ & _ & f' & Hf' & <- & _). congruence.
Qed.

Lemma inv_new st : broker_inv (broker_new st).
Proof. split; simpl; intros *; [by rewrite lookup_empty|done|done]. Qed.

Lemma inv_begin h request : broker_inv h → broker_inv (begin h request).
Proof.
  intros Hi. unfold begin.
  assert (Hlt : ∀ n f, br_futures h !! n = Some f → n ≠ length (br_futures h))
    by (intros n f Hn ->; apply lookup_lt_Some in Hn; lia).
  destruct (br_pending h !! key_of request) as [e0|] eqn:Hk.
  - split.
    + intros k e He. destruct (bi_rows h Hi k e He) as (? & ? & f & Hf & ? & ?).
      split_and!; [done..|]. exists f. split_and!; [|done..]. simpl. apply snoc_some. by left.
    + intros i r Hr Hfl. destruct (bi_calls h Hi i r Hr Hfl) as (? & ? & f & ? & ?).
      split_and!; [done..|]. exists f. split; [|done]. simpl. apply snoc_some. by left.
    + simpl. intros n f [Hn|[-> ->]]%snoc_some Hs; [|done]. apply (bi_chans h Hi n f Hn Hs).
  - assert (Hfresh : ¬ row_token h (length (br_futures h))).
    { intros (k & e & He & Ht). destruct (bi_rows h Hi k e He) as (_ & _ & f & Hf & _).
      rewrite Ht in Hf. by apply Hlt in Hf. }
    assert (Hfresh' : ¬ call_token h (length (br_futures h))).
    { intros (i & r & Hr & Hfl & Ht). destruct (bi_calls h Hi i r Hr Hfl) as (_ & _ & f & Hf & _).
      rewrite Ht in Hf. by apply Hlt in Hf. }
    split; simpl.
    + intros k e. rewrite lookup_insert_Some. intros [[<- <-]|[Hne He]]; simpl.
      * split_and!; [done..|]. eexists. split; [apply snoc_some; by right|done].
      * destruct (bi_rows h Hi k e He) as (? & ? & f & Hf & ? & ?).
        split_and!; [done..|]. exists f. split_and!; [|done..]. apply snoc_some. by left.
    + intros i r Hr Hfl. destruct (bi_calls h Hi i r Hr Hfl) as (Hno & ? & f & Hf & ?).
      split_and!; [|done|].
      * intros (k & e & He & Ht). simpl in He. apply lookup_insert_Some in He as [[<- <-]|[Hne He]].
        { simpl in Ht. rewrite <- Ht in Hf. by apply Hlt in Hf. }
        apply Hno. by exists k, e.
      * exists f. split; [|done]. apply snoc_some. by left.
    + intros n f [Hn|[-> ->]]%snoc_some Hs.
      * destruct (bi_chans h Hi n f Hn Hs) as (c & Hc & Ha & Hp). pose proof (Hlt _ _ Hn).
        exists c. rewrite lookup_insert_ne by done. split_and!; [done..|]. rewrite Hp.
        split; (intros [(k & e & He & Ht)|Hcall]; [left|by right]); simpl in *.
        { exists k, e. split; [|done]. simpl. rewrite lookup_insert_ne; congruence. }
        { apply lookup_insert_Some in He as [[<- <-]|[Hne He]]; [by simpl in Ht|].
          by exists k, e. }
      * exists chan_new. rewrite lookup_insert. split_and!; [by case_decide|apply chan_new_alive|].
        split; [|intros; apply chan_new_pending]. intros _. left.
        eexists _, _. simpl. by rewrite lookup_insert_eq.
Qed.

Lemma inv_notify h : broker_inv h → broker_inv (notify_changed h).
Proof. intros [Hr Hc Hn]. by split. Qed.

Lemma inv_store h st : broker_inv h → broker_inv (h <| br_store := st |>).
Proof. intros [Hr Hc Hn]. by split. Qed.

Lemma inv_take h s t c a rem : broker_inv h → broker_inv (fst (resolve_take h s t c a rem)).
Proof.
  intros Hi. unfold resolve_take. set (key := mkApprovalKey s t c).
  destruct (br_pending h !! key) as [entry|] eqn:Hk; [simpl|done].
  destruct (bi_rows h Hi key entry Hk) as (Hkey & _ & f0 & Hf0 & Hfk & _).
  assert (Hnocall : ¬ call_token h (pa_token entry)).
  { intros (i & r & Hr & Hfl & Ht). destruct (bi_calls h Hi i r Hr Hfl) as (Hno & _).
    apply Hno. exists key, entry. by rewrite Ht. }
  split; simpl.
  - intros k e [Hne He]%lookup_delete_Some. by apply (bi_rows h Hi).
  - intros i r [Hr|[-> ->]]%snoc_some Hfl.
    + destruct (bi_calls h Hi i r Hr Hfl) as (Hno & Huniq & Hf). split_and!; [|..|done].
      * intros (k & e & He & Ht). simpl in He. apply lookup_delete_Some in He as [_ He].
        apply Hno. by exists k, e.
      * intros j r' [Hr'|[-> ->]]%snoc_some Hfl' Ht; [by eapply Huniq|].
        simpl in Ht. destruct Hnocall. by exists i, r.
    + simpl. split_and!.
      * intros (k & e & He & Ht). simpl in He. apply lookup_delete_Some in He as [Hne He].
        by apply Hne, (row_tokens_inj h key entry k e).
      * intros j r' [Hr'|[-> ->]]%snoc_some Hfl' Ht; [|done].
        destruct Hnocall. by exists j, r'.
      * exists f0. split; [done|]. by rewrite Hkey.
  - intros n f Hn Hs. destruct (bi_chans h Hi n f Hn Hs) as (ch & Hc & Ha & Hp).
    exists ch. split_and!; [done..|]. rewrite Hp. split.
    + intros [(k & e & He & Ht)|(i & r & Hr & Hfl & Ht)].
      * destruct (Nat.eq_dec (pa_token entry) n) as [Heq|Hne].
        { right. eexists _, _. split; [apply snoc_some; right; split; reflexivity|done]. }
        left. exists k, e. split; [|done]. simpl. rewrite lookup_delete_ne; [done|]. intros ->.
        congruence.
      * right. exists i, r. split; [apply snoc_some; by left|done].
    + intros [(k & e & He & Ht)|(i & r & Hr & Hfl & Ht)]; simpl in *.
      * apply lookup_delete_Some in He as [_ He]. left. by exists k, e.
      * apply snoc_some in Hr as [Hr|[-> ->]]; [right; by exists i, r|]. left. by exists key, entry.
Qed.

(** A call that goes on without sending keeps its row's sender. *)
Lemma inv_set_resolve h i r pc :
  br_resolves h !! i = Some r → in_flight r → pc = ResolveAnnounced ∨ pc = ResolvePersisted →
  broker_inv h → broker_inv (set_resolve h i pc).
Proof.
  intros Hr Hfl Hpc Hi.
  assert (Hcalls : ∀ j r', br_resolves (set_resolve h i pc) !! j = Some r' → in_flight r' →
    ∃ r0, br_resolves h !! j = Some r0 ∧ in_flight r0 ∧ rv_entry r0 = rv_entry r').
  { simpl. intros j r' [[-> (y & Hy & ->)]|[_ Hr']]%list_alter_some Hfl'; simplify_eq; by eexists. }
  assert (Htok : ∀ n, call_token (set_resolve h i pc) n ↔ call_token h n).
  { intros n. split.
    - intros (j & r' & Hr' & Hfl' & <-). destruct (Hcalls _ _ Hr' Hfl') as (r0 & ? & ? & <-).
      by exists j, r0.
    - intros (j & r' & Hr' & Hfl' & <-). destruct (Nat.eq_dec i j) as [->|Hne].
      + eexists j, _. split; [simpl; apply list_alter_some; left; by eauto|]. simpl.
        by destruct Hpc as [-> | ->].
      + exists j, r'. split; [|done]. simpl. apply list_alter_some. by right. }
  split; simpl.
  - apply (bi_rows h Hi).
  - intros j r' Hr' Hfl'. destruct (Hcalls _ _ Hr' Hfl') as (r0 & Hr0 & Hfl0 & <-).
    destruct (bi_calls h Hi _ _ Hr0 Hfl0) as (Hno & Huniq & Hf). split_and!; [done| |done].
    intros k r'' Hr'' Hfl'' Ht. destruct (Hcalls _ _ Hr'' Hfl'') as (r1 & Hr1 & Hfl1 & Heq).
    apply (Huniq k r1); [done..|]. by rewrite Heq.
  - intros n f Hn Hs. destruct (bi_chans h Hi n f Hn Hs) as (c & ? & ? & ?). exists c.
    by rewrite Htok.
Qed.

(** What happens to one channel without its sender changing hands. *)
Lemma inv_send h i r a :
  br_resolves h !! i = Some r → in_flight r → rv_approved r = a →
  broker_inv h → ∀ b,
  broker_inv (set_resolve (update_chan h (pa_token (rv_entry r)) (λ c, fst (chan_send a c))) i
                (ResolveReturned b)).
Proof.
  intros Hr Hfl <- Hi b.
  destruct (bi_calls h Hi i r Hr Hfl) as (Hno & Huniq & f0 & Hf0 & Hk0).
  assert (Hcalls : ∀ j r', alter (λ r, r <| rv_pc := ResolveReturned b |>) i (br_resolves h) !! j
                             = Some r' → in_flight r' → br_resolves h !! j = Some r' ∧ i ≠ j).
  { intros j r' [[-> (y & Hy & ->)]|[? Hr']]%list_alter_some Hfl'; done. }
  split; simpl.
  - apply (bi_rows h Hi).
  - intros j r' Hr' Hfl'. destruct (Hcalls _ _ Hr' Hfl') as [Hr0 _].
    destruct (bi_calls h Hi _ _ Hr0 Hfl') as (? & Hu & ?). split_and!; [done| |done].
    intros k r'' Hr'' Hfl'' Ht. destruct (Hcalls _ _ Hr'' Hfl'') as [Hr1 _]. by eapply Hu.
  - intros n f Hn Hs. destruct (bi_chans h Hi n f Hn Hs) as (c & Hc & Ha & Hp).
    destruct (Nat.eq_dec (pa_token (rv_entry r)) n) as [<-|Hne].
    + exists (fst (chan_send (rv_approved r) c)). rewrite lookup_alter_eq, Hc. simpl.
      rewrite chan_send_alive. split_and!; [done..|].
      assert (Hpend : chan_recv c = RecvPending) by (apply Hp; right; by exists i, r).
      rewrite (chan_send_value c (rv_approved r) Hpend Ha). split; [done|].
      intros [(k & e & He & Ht)|(j & r' & Hr' & Hfl' & Ht)]; exfalso.
      * apply Hno. by exists k, e.
      * destruct (Hcalls _ _ Hr' Hfl') as [Hr0 Hne]. by apply Hne, (Huniq j r').
    + exists c. rewrite lookup_alter_ne by done. split_and!; [done..|]. rewrite Hp.
      split; (intros [Hrow|(j & r' & Hr' & Hfl' & Ht)]; [by left|right]).
      * exists j, r'. split; [|done]. simpl. apply list_alter_some. right. split; [|done].
        intros ->. simplify_eq.
      * destruct (Hcalls _ _ Hr' Hfl') as [Hr0 _]. by exists j, r'.
Qed.

Lemma inv_continue disk now h i : broker_inv h → broker_inv (resolve_continue disk now h i).
Proof.
  intros Hi. unfold resolve_continue.
  destruct (br_resolves h !! i) as [r|] eqn:Hr; [|done].
  destruct (rv_pc r) eqn:Hpc; [| | |done];
    assert (Hfl : in_flight r) by (by unfold in_flight; rewrite Hpc).
  - eapply inv_set_resolve; eauto using inv_notify.
  - destruct (rv_approved r && rv_remember r);
      eapply inv_set_resolve; eauto using inv_store.
  - by eapply inv_send.
Qed.

Lemma future_kept h n s m f :
  br_futures h !! m = Some f →
  ∃ f', br_futures (set_future h n s) !! m = Some f' ∧ fu_key f' = fu_key f ∧
    (fu_state f' = fu_state f ∨ n = m ∧ fu_state f' = s).
Proof.
  intros Hf. simpl. destruct (Nat.eq_dec n m) as [->|Hne].
  - eexists. split; [apply list_alter_some; left; by eauto|]. simpl. auto.
  - exists f. split; [apply list_alter_some; by right|]. auto.
Qed.

(** A future that stops waiting, whatever becomes of its receiver. *)
Lemma inv_stop_waiting h n s g :
  (match s with FutureFinishing _ => True | _ => ¬ row_token h n ∧ s ≠ FutureWaiting end) →
  broker_inv h → broker_inv (set_future (update_chan h n g) n s).
Proof.
  intros Hs Hi. split; simpl.
  - intros k e He. destruct (bi_rows h Hi k e He) as (? & ? & f & Hf & Hfk & Hheld).
    split_and!; [done..|]. destruct (future_kept h n s _ _ Hf) as (f' & Hf' & Hk' & Hst).
    exists f'. split_and!; [done|congruence|].
    unfold held in *. destruct Hst as [->|[-> ->]]; [done|].
    destruct s; try done; destruct Hs as [Hs _]; destruct Hs; by exists k, e.
  - intros i r Hr Hfl. destruct (bi_calls h Hi i r Hr Hfl) as (? & ? & f & Hf & Hk).
    split_and!; [done..|]. destruct (future_kept h n s _ _ Hf) as (f' & Hf' & Hk' & _).
    exists f'. split; [done|congruence].
  - intros m f [[-> (y & Hy & ->)]|[Hne Hm]]%list_alter_some Hst.
    + simpl in Hst. subst s. by destruct Hs.
    + destruct (bi_chans h Hi m f Hm Hst) as (c & ? & ? & ?).
      exists c. by rewrite lookup_alter_ne by done.
Qed.

Lemma update_chan_id h n : update_chan h n id = h.
Proof.
  assert (Hid : alter id n (br_chans h) = br_chans h).
  { apply map_eq. intros i. destruct (Nat.eq_dec n i) as [->|?];
      [rewrite lookup_alter_eq; by destruct (_ !! i)|by rewrite lookup_alter_ne]. }
  destruct h as [p c m f r st]. simpl in Hid.
  change (mkBroker p c (alter id n m) f r st = mkBroker p c m f r st). by rewrite Hid.
Qed.

Lemma inv_finish_refused h n f v :
  br_futures h !! n = Some f → fu_state f = FutureRefused →
  broker_inv h → broker_inv (set_future h n (FutureDone v)).
Proof.
  intros Hf Hs Hi.
  assert (Hno : ¬ row_token h n).
  { intros (k & e & He & <-). destruct (bi_rows h Hi k e He) as (_ & _ & f' & Hf' & _ & Hheld).
    unfold held in Hheld. simplify_eq. by rewrite Hs in Hheld. }
  rewrite <- (update_chan_id h n). by apply inv_stop_waiting.
Qed.

Lemma inv_poll h n : broker_inv h → broker_inv (poll_future h n).
Proof.
  intros Hi. unfold poll_future.
  destruct (br_futures h !! n) as [f|] eqn:Hf; [|done].
  destruct (fu_state f) eqn:Hs; [by eapply inv_finish_refused| |done..].
  destruct (br_chans h !! n) as [c|]; simpl; [|done].
  destruct (chan_recv c); [done|by apply inv_stop_waiting..].
Qed.

Lemma inv_drop h n : broker_inv h → broker_inv (drop_future h n).
Proof.
  intros Hi. unfold drop_future.
  destruct (br_futures h !! n) as [f|] eqn:Hf; [|done].
  destruct (fu_state f) eqn:Hs; [by eapply inv_finish_refused|by apply inv_stop_waiting|done..].
Qed.

(** Rows leave together with their senders. *)
Lemma inv_remove_rows h h' (P : ApprovalKey * PendingApproval → Prop) `{∀ row, Decision (P row)} :
  broker_inv h →
  br_pending h' = filter (λ row, ¬ P row) (br_pending h) →
  br_futures h' = br_futures h → br_resolves h' = br_resolves h →
  (∀ n, br_chans h' !! n = br_chans h !! n ∧ (∀ k e, br_pending h !! k = Some e → P (k, e) → pa_token e ≠ n)
      ∨ (∃ k e, br_pending h !! k = Some e ∧ P (k, e) ∧ pa_token e = n) ∧
        br_chans h' !! n = chan_drop_sender <$> br_chans h !! n) →
  broker_inv h'.
Proof.
  intros Hi Hp Hf Hr Hc.
  assert (Hsub : ∀ k e, br_pending h' !! k = Some e → br_pending h !! k = Some e ∧ ¬ P (k, e)).
  { intros k e. rewrite Hp. by intros [? ?]%map_lookup_filter_Some. }
  assert (Hrow : ∀ n, row_token h' n → row_token h n)
    by (intros n (k & e & [He _]%Hsub & Ht); by exists k, e).
  split.
  - intros k e [He _]%Hsub. rewrite Hf. by apply (bi_rows h Hi).
  - intros i r. rewrite Hr, Hf. intros Hir Hfl. destruct (bi_calls h Hi i r Hir Hfl) as (? & ? & ?).
    split_and!; [auto..|done].
  - intros n f. rewrite Hf. intros Hn Hs. destruct (bi_chans h Hi n f Hn Hs) as (c & Hcn & Ha & Hpend).
    assert (Hcall : call_token h' n ↔ call_token h n) by (unfold call_token; by rewrite Hr).
    destruct (Hc n) as [[Hsame Hno]|[(k & e & He & HP & Ht) Hdrop]].
    + exists c. rewrite Hsame, Hcall. split_and!; [done..|]. rewrite Hpend.
      split; (intros [Hrt|?]; [left|by right]); [|by apply Hrow].
      destruct Hrt as (k & e & He & Ht). exists k, e. split; [|done]. rewrite Hp.
      apply map_lookup_filter_Some. split; [done|]. intros HP. by apply (Hno k e).
    + exists (chan_drop_sender c). rewrite Hdrop, Hcn. simpl. rewrite chan_drop_sender_alive.
      split_and!; [done..|].
      assert (chan_recv c = RecvPending) as Hpc by (apply Hpend; left; by exists k, e).
      rewrite (chan_drop_sender_closes c Hpc), Hcall. split; [done|].
      intros [(k' & e' & [He' HnP]%Hsub & Ht')|(i & r & Hir & Hfl & Ht')]; exfalso.
      * assert (k = k') as <- by (eapply (row_tokens_inj h); eauto; congruence). by simplify_eq.
      * destruct (bi_calls h Hi i r Hir Hfl) as (Hno & _). apply Hno. exists k, e.
        by rewrite Ht'.
Qed.

Lemma inv_guard h n : broker_inv h → broker_inv (drop_guard h n).
Proof.
  intros Hi. unfold drop_guard.
  destruct (br_futures h !! n) as [f|] eqn:Hf; [|done].
  destruct (fu_state f) eqn:Hs; try done.
  assert (Hgone : ∀ h', broker_inv h' → ¬ row_token h' n → broker_inv (set_future h' n (FutureDone verdict))).
  { intros h' Hi' Hno.
    rewrite <- (update_chan_id h' n). by apply inv_stop_waiting. }
  assert (Honly : ∀ k e, br_pending h !! k = Some e → pa_token e = n → k = fu_key f).
  { intros k e He Ht. destruct (bi_rows h Hi k e He) as (_ & _ & f' & Hf' & <- & _).
    rewrite Ht in Hf'. by simplify_eq. }
  destruct (br_pending h !! fu_key f) as [entry|] eqn:Hk.
  - case_bool_decide as Ht.
    + apply Hgone.
      * apply inv_notify. eapply (inv_remove_rows h _ (λ row, fst row = fu_key f)); [done|..]; simpl; try done.
        { apply map_eq. intros k. destruct (br_pending h !! k) as [e|] eqn:He.
          - destruct (base.decide (k = fu_key f)) as [->|Hne].
            + rewrite lookup_delete_eq. symmetry. apply map_lookup_filter_None. right. by intros ? _ [].
            + rewrite lookup_delete_ne, He by done. symmetry. by apply map_lookup_filter_Some.
          - transitivity (@None PendingApproval); [apply lookup_delete_None; by right|].
            symmetry. apply map_lookup_filter_None. by left. }
        intros m. destruct (Nat.eq_dec (pa_token entry) m) as [<-|Hne].
        { right. split; [by exists (fu_key f), entry|]. by rewrite lookup_alter_eq. }
        left. rewrite lookup_alter_ne by done. split; [done|]. intros k e He Hke. simpl in Hke.
        congruence.
      * intros (k & e & He & Hte). simpl in He. apply lookup_delete_Some in He as [Hne He].
        by apply Hne; symmetry; eapply Honly.
    + apply Hgone; [done|]. intros (k & e & He & Hte). pose proof (Honly k e He Hte) as ->.
      congruence.
  - apply Hgone; [done|]. intros (k & e & He & Hte). pose proof (Honly k e He Hte) as ->.
    congruence.
Qed.

Definition drop_senders (m : gmap ApprovalKey PendingApproval) h : Broker C :=
  map_fold (λ _ entry h, update_chan h (pa_token entry) chan_drop_sender) h m.

Lemma drop_senders_frame m h :
  br_pending (drop_senders m h) = br_pending h ∧ br_futures (drop_senders m h) = br_futures h ∧
  br_resolves (drop_senders m h) = br_resolves h ∧ br_store (drop_senders m h) = br_store h.
Proof.
  unfold drop_senders.
  apply (map_fold_weak_ind (λ h' m, br_pending h' = br_pending h ∧ br_futures h' = br_futures h ∧
    br_resolves h' = br_resolves h ∧ br_store h' = br_store h)); [done|]. by intros.
Qed.

Lemma drop_senders_chans m h :
  (∀ k e k' e', m !! k = Some e → m !! k' = Some e' → pa_token e = pa_token e' → k = k') →
  ∀ n, br_chans (drop_senders m h) !! n = br_chans h !! n ∧ (∀ k e, m !! k = Some e → pa_token e ≠ n)
    ∨ (∃ k e, m !! k = Some e ∧ pa_token e = n) ∧
      br_chans (drop_senders m h) !! n = chan_drop_sender <$> br_chans h !! n.
Proof.
  unfold drop_senders. revert m.
  apply (map_fold_weak_ind (λ h' m,
    (∀ k e k' e', m !! k = Some e → m !! k' = Some e' → pa_token e = pa_token e' → k = k') →
    ∀ n, br_chans h' !! n = br_chans h !! n ∧ (∀ k e, m !! k = Some e → pa_token e ≠ n)
    ∨ (∃ k e, m !! k = Some e ∧ pa_token e = n) ∧
      br_chans h' !! n = chan_drop_sender <$> br_chans h !! n)).
  { intros _ n. left. split; [done|]. intros k e. by rewrite lookup_empty. }
  intros k e m h' Hk IH Hinj n. simpl.
  assert (Hinj' : ∀ k0 e0 k' e', m !! k0 = Some e0 → m !! k' = Some e' → pa_token e0 = pa_token e' → k0 = k').
  { intros k0 e0 k' e' H0' H1' Ht. apply (Hinj k0 e0 k' e'); [| |done];
      (rewrite lookup_insert_ne; [done|intros ->; congruence]). }
  specialize (IH Hinj' n).
  destruct (Nat.eq_dec (pa_token e) n) as [<-|Hne].
  - right. split; [exists k, e; by rewrite lookup_insert_eq|].
    rewrite lookup_alter_eq. destruct IH as [[-> _]|[(k' & e' & He' & Ht) _]]; [done|]. exfalso.
    assert (k = k') as <-; [|congruence].
    apply (Hinj k e k' e'); [by rewrite lookup_insert_eq| |done].
    rewrite lookup_insert_ne; [done|]. intros ->. congruence.
  - rewrite lookup_alter_ne by done. destruct IH as [[Hsame Hno]|[(k' & e' & He' & Ht) Hd]].
    + left. split; [done|]. intros k' e' [[_ <-]|[_ He']]%lookup_insert_Some; [done|by eapply Hno].
    + right. split; [|done]. exists k', e'. rewrite lookup_insert_ne; [done|]. intros ->. congruence.
Qed.

Lemma inv_cancel h t : broker_inv h → broker_inv (cancel_thread h t).
Proof.
  intros Hi. unfold cancel_thread. fold (drop_senders (filter (in_thread t) (br_pending h)) h).
  set (m := filter _ _).
  destruct (drop_senders_frame m h) as (Hp & Hf & Hr & _).
  apply inv_notify. apply (inv_remove_rows h _ (in_thread t)); simpl; [done|by rewrite Hp|done..|].
  intros n. destruct (drop_senders_chans m h) with (n := n) as [[Hs Hno]|[(k & e & He & Ht) Hd]].
  - intros k e k' e' [He _]%map_lookup_filter_Some [He' _]%map_lookup_filter_Some.
    by apply (row_tokens_inj h).
  - left. split; [done|]. intros k e He HP. apply (Hno k e). by apply map_lookup_filter_Some.
  - apply map_lookup_filter_Some in He as [He HP]. right. split; [by exists k, e|done].
Qed.

Lemma inv_step h s : broker_inv h → broker_inv (broker_step h s).
Proof.
  destruct s; simpl; [apply inv_begin|apply inv_take|apply inv_continue|apply inv_cancel
    |apply inv_poll|apply inv_drop|apply inv_guard].
Qed.

Lemma inv_run h steps : broker_inv h → broker_inv (broker_run h steps).
Proof. revert h. induction steps as [|s steps IH]; simpl; auto using inv_step. Qed.

Lemma reachable_inv st steps : broker_inv (broker_run (broker_new st) steps).
Proof. apply inv_run, inv_new. Qed.

(* ------------------------------------------------------------------ *)
(** ** Approvals come from cards *)

(** A yes for future [n] that is on its way or has arrived. *)
Definition granted h (n : nat) : Prop :=
  (∃ f, br_futures h !! n = Some f ∧
     (fu_state f = FutureFinishing (Some true) ∨ fu_state f = FutureDone (Some true) ∨
      fu_state f = FutureWaiting ∧ ∃ c, br_chans h !! n = Some c ∧ chan_recv c = RecvValue true)) ∨
  (∃ i r, br_resolves h !! i = Some r ∧ in_flight r ∧ rv_approved r = true ∧ pa_token (rv_entry r) = n).

Definition says_yes h (s : BrokerStep) (n : nat) : Prop :=
  ∃ session_id thread_id call_id remember e,
    s = DoResolve session_id thread_id call_id true remember ∧
    br_pending h !! mkApprovalKey session_id thread_id call_id = Some e ∧ pa_token e = n.

Lemma granted_frame h h' n :
  br_futures h' = br_futures h → br_resolves h' = br_resolves h →
  (∀ f c', br_futures h !! n = Some f → fu_state f = FutureWaiting →
     br_chans h' !! n = Some c' → chan_recv c' = RecvValue true →
     ∃ c, br_chans h !! n = Some c ∧ chan_recv c = RecvValue true) →
  granted h' n → granted h n.
Proof.
  intros Hf Hr Hc. unfold granted. rewrite Hf, Hr.
  intros [(f & Hn & [?|[?|[Hw (c & Hcn & Hv)]]])|?]; [left; exists f; by auto..| |by right].
  left. exists f. split; [done|]. right. right. split; [done|]. by eapply Hc.
Qed.

(** Dropping senders of rows never turns an open channel into a yes. *)
Lemma dropped_sender_no_yes h n f c' :
  broker_inv h → br_futures h !! n = Some f → fu_state f = FutureWaiting → row_token h n →
  chan_drop_sender <$> br_chans h !! n = Some c' → chan_recv c' = RecvValue true → False.
Proof.
  intros Hi Hf Hs Hrow Hc' Hv. destruct (bi_chans h Hi n f Hf Hs) as (c & Hc & _ & Hp).
  rewrite Hc in Hc'. simpl in Hc'. simplify_eq.
  rewrite chan_drop_sender_closes in Hv; [done|]. apply Hp. by left.
Qed.

Lemma granted_stop h n m g s :
  granted (set_future (update_chan h m g) m s) n → s ≠ FutureWaiting →
  granted h n ∨ n = m ∧ (s = FutureFinishing (Some true) ∨ s = FutureDone (Some true)).
Proof.
  intros [(f & Hf & Hst)|Hcall] Hs; [|left; by right]. simpl in Hf.
  apply list_alter_some in Hf as [[-> (y & Hy & ->)]|[Hne Hf]].
  - simpl in Hst. destruct Hst as [?|[?|[? _]]]; auto; done.
  - left. left. exists f. split; [done|]. destruct Hst as [?|[?|[? (c & Hc & Hv)]]]; [by auto..|].
    right. right. split; [done|]. exists c. simpl in Hc. by rewrite lookup_alter_ne in Hc.
Qed.

Lemma granted_begin h request n : broker_inv h → granted (begin h request) n → granted h n.
Proof.
  intros Hi. unfold begin. destruct (br_pending h !! key_of request) as [e0|].
  - intros [(f & Hf & Hst)|?]; [|by right]. simpl in Hf. apply snoc_some in Hf as [Hf|[-> ->]].
    + left. by exists f.
    + simpl in Hst. destruct Hst as [?|[?|[? _]]]; done.
  - intros [(f & Hf & Hst)|?]; [|by right]. simpl in Hf. apply snoc_some in Hf as [Hf|[-> ->]].
    + left. exists f. split; [done|]. destruct Hst as [?|[?|[Hw (c & Hc & Hv)]]]; [by auto..|].
      right. right. split; [done|]. exists c. simpl in Hc. rewrite lookup_insert_ne in Hc; [done|].
      intros <-. apply lookup_lt_Some in Hf. lia.
    + simpl in Hst. destruct Hst as [?|[?|[_ (c & Hc & Hv)]]]; [done..|].
      rewrite lookup_insert_eq in Hc. simplify_eq. by rewrite chan_new_pending in Hv.
Qed.

Lemma granted_set_resolve h i r pc n :
  br_resolves h !! i = Some r → in_flight r → granted (set_resolve h i pc) n → granted h n.
Proof.
  intros Hr Hfl [Hf|(j & r' & Hr' & Hfl' & Ha & Ht)]; [by left|right].
  simpl in Hr'. apply list_alter_some in Hr' as [[-> (y & Hy & ->)]|[_ Hr']]; [|by exists j, r'].
  simplify_eq. by exists j, r.
Qed.

Lemma granted_continue disk now h i n :
  broker_inv h → granted (resolve_continue disk now h i) n → granted h n.
Proof.
  intros Hi. unfold resolve_continue.
  destruct (br_resolves h !! i) as [r|] eqn:Hr; [|done].
  destruct (rv_pc r) eqn:Hpc; [| | |done];
    assert (Hfl : in_flight r) by (by unfold in_flight; rewrite Hpc).
  - intros Hg. eapply granted_set_resolve in Hg; done.
  - intros Hg. eapply granted_set_resolve in Hg; [|by destruct (_ && _)|done].
    by destruct (_ && _).
  - intros Hg. eapply granted_set_resolve in Hg; [|done..].
    destruct Hg as [(f & Hf & Hst)|?]; [|by right]. simpl in Hf.
    destruct Hst as [?|[?|[Hw (c & Hc & Hv)]]]; [left; exists f; by auto..|].
    simpl in Hc. destruct (Nat.eq_dec (pa_token (rv_entry r)) n) as [<-|Hne].
    + rewrite lookup_alter_eq in Hc. destruct (bi_chans h Hi _ f Hf Hw) as (c0 & Hc0 & Ha & Hp).
      rewrite Hc0 in Hc. simpl in Hc. simplify_eq. right. exists i, r. split_and!; [done..| |done].
      rewrite chan_send_value in Hv; [congruence| |done]. apply Hp. right. by exists i, r.
    + rewrite lookup_alter_ne in Hc by done. left. exists f. split; [done|]. right. right.
      split; [done|]. by exists c.
Qed.

Lemma granted_cancel h t n : broker_inv h → granted (cancel_thread h t) n → granted h n.
Proof.
  intros Hi. unfold cancel_thread. fold (drop_senders (filter (in_thread t) (br_pending h)) h).
  set (m := filter _ _). destruct (drop_senders_frame m h) as (_ & Hf & Hr & _).
  apply granted_frame; [done..|]. intros f c' Hn Hw Hc' Hv. simpl in Hc'.
  destruct (drop_senders_chans m h) with (n := n) as [[Hs _]|[(k & e & He & Ht) Hd]].
  - intros k e k' e' [He _]%map_lookup_filter_Some [He' _]%map_lookup_filter_Some.
    by apply (row_tokens_inj h).
  - exists c'. by rewrite <- Hs.
  - exfalso. apply map_lookup_filter_Some in He as [He _].
    eapply (dropped_sender_no_yes h n); [done..|by exists k, e| |done]. congruence.
Qed.

Lemma granted_poll h m n : broker_inv h → granted (poll_future h m) n → granted h n.
Proof.
  intros Hi. unfold poll_future. destruct (br_futures h !! m) as [f|] eqn:Hf; [|done].
  destruct (fu_state f) eqn:Hs; [| |done..].
  - rewrite <- (update_chan_id h m) at 1. by intros [?|[_ [?|?]]]%granted_stop.
  - destruct (br_chans h !! m) as [c|] eqn:Hc; simpl; [|done].
    destruct (chan_recv c) as [|b|] eqn:Hv; [done|..].
    + intros [?|[-> [?|?]]]%granted_stop; [done| |done..]. simplify_eq.
      left. exists f. split; [done|]. right. right. split; [done|]. by exists c.
    + by intros [?|[_ [?|?]]]%granted_stop.
Qed.

Lemma granted_drop h m n : broker_inv h → granted (drop_future h m) n → granted h n.
Proof.
  intros Hi. unfold drop_future. destruct (br_futures h !! m) as [f|] eqn:Hf; [|done].
  destruct (fu_state f) eqn:Hs; [| |done..].
  - rewrite <- (update_chan_id h m) at 1. by intros [?|[_ [?|?]]]%granted_stop.
  - by intros [?|[_ [?|?]]]%granted_stop.
Qed.

Lemma granted_guard h m n : broker_inv h → granted (drop_guard h m) n → granted h n.
Proof.
  intros Hi. unfold drop_guard. destruct (br_futures h !! m) as [f|] eqn:Hf; [|done].
  destruct (fu_state f) as [| |v|v] eqn:Hs; try done.
  set (h1 := match _ with Some _ => _ | None => _ end).
  assert (Hh1 : granted h1 n → granted h n).
  { unfold h1. destruct (br_pending h !! fu_key f) as [e|] eqn:He; [|done].
    case_bool_decide as Ht; [|done]. apply granted_frame; [done..|]. simpl.
    intros f' c' Hn Hw Hc' Hv. destruct (Nat.eq_dec (pa_token e) n) as [<-|Hne].
    - rewrite lookup_alter_eq in Hc'. exfalso.
      eapply (dropped_sender_no_yes h (pa_token e)); [done..| |done|done]. by exists (fu_key f), e.
    - rewrite lookup_alter_ne in Hc' by done. by exists c'. }
  rewrite <- (update_chan_id h1 m). intros [?|[-> Hv]]%granted_stop; [by apply Hh1| |done].
  destruct Hv as [?|Hv]; [done|]. simplify_eq. left. exists f. auto.
Qed.

Lemma granted_step h s n :
  broker_inv h → granted (broker_step h s) n → granted h n ∨ says_yes h s n.
Proof.
  intros Hi. destruct s as [r|sid tid cid a rem|disk now i|t|m|m|m]; simpl; intros Hg;
    [left; by eapply granted_begin| |left; by eapply granted_continue|left; by eapply granted_cancel
    |left; by eapply granted_poll|left; by eapply granted_drop|left; by eapply granted_guard].
  unfold resolve_take in Hg. destruct (br_pending h !! _) as [e|] eqn:He; [simpl in Hg|by left].
  destruct Hg as [Hf|(i & r & Hr & Hfl & Ha & Ht)]; [left; by left|].
  simpl in Hr. apply snoc_some in Hr as [Hr|[-> ->]]; [left; right; by exists i, r|].
  right. simpl in *. subst a. by exists sid, tid, cid, rem, e.
Qed.

Lemma granted_run st steps n :
  granted (broker_run (broker_new st) steps) n →
  ∃ pre s post, steps = pre ++ s :: post ∧ says_yes (broker_run (broker_new st) pre) s n.
Proof.
  induction steps as [|s steps IH] using rev_ind.
  - intros [(f & Hf & _)|(i & r & Hr & _)]; [done|done].
  - unfold broker_run. rewrite fold_left_app. simpl. intros Hg.
    apply granted_step in Hg as [Hg|Hy]; [|by exists steps, s, []|apply reachable_inv].
    destruct (IH Hg) as (pre & s' & post & -> & Hy). exists pre, s', (post ++ [s]).
    split; [by rewrite <- app_assoc|done].
Qed.

(** A registration keeps its number and its key. *)
Lemma future_step h s n f :
  br_futures h !! n = Some f →
  ∃ f', br_futures (broker_step h s) !! n = Some f' ∧ fu_key f' = fu_key f.
Proof.
  intros Hf.
  assert (Hstop : ∀ h' m st, br_futures h' = br_futures h →
    ∃ f', br_futures (set_future h' m st) !! n = Some f' ∧ fu_key f' = fu_key f).
  { intros h' m st Heq. rewrite <- Heq in Hf. destruct (future_kept h' m st n f Hf) as (f' & ? & ? & _).
    by exists f'. }
  assert (Hid : ∀ h', br_futures h' = br_futures h →
    ∃ f', br_futures h' !! n = Some f' ∧ fu_key f' = fu_key f).
  { intros h' ->. by exists f. }
  destruct s as [r|sid tid cid a rem|disk now i|t|m|m|m]; simpl.
  - unfold begin. destruct (br_pending h !! _); exists f; (split; [apply snoc_some; by left|done]).
  - apply Hid. unfold resolve_take. by destruct (br_pending h !! _).
  - apply Hid. unfold resolve_continue. destruct (br_resolves h !! i) as [r|]; [|done].
    destruct (rv_pc r); try done. by destruct (_ && _).
  - apply Hid. unfold cancel_thread. simpl. by destruct (drop_senders_frame
      (filter (in_thread t) (br_pending h)) h) as (_ & ? & _).
  - unfold poll_future. destruct (br_futures h !! m) as [g|]; [|by apply Hid].
    destruct (fu_state g); [by apply Hstop| |by apply Hid..].
    destruct (chan_recv <$> br_chans h !! m) as [[]|]; by (apply Hid + apply Hstop).
  - unfold drop_future. destruct (br_futures h !! m) as [g|]; [|by apply Hid].
    destruct (fu_state g); by (apply Hid + apply Hstop).
  - unfold drop_guard. destruct (br_futures h !! m) as [g|]; [|by apply Hid].
    destruct (fu_state g); try by apply Hid. apply Hstop.
    destruct (br_pending h !! _); [by case_bool_decide|done].
Qed.

Lemma future_run h steps n f :
  br_futures h !! n = Some f →
  ∃ f', br_futures (broker_run h steps) !! n = Some f' ∧ fu_key f' = fu_key f.
Proof.
  revert h f. induction steps as [|s steps IH]; intros h f Hf; [by exists f|].
  destruct (future_step h s n f Hf) as (f1 & Hf1 & <-). by apply IH.
Qed.

(** C35: A parked call is resumed with a yes only when a card for exactly its
    session, thread and call, taken while its own registration was the pending
    one, said yes. *)
Theorem approval_needs_exact_card st steps n f :
  br_futures (broker_run (broker_new st) steps) !! n = Some f →
  fu_state f = FutureFinishing (Some true) ∨ fu_state f = FutureDone (Some true) →
  ∃ pre post session_id thread_id call_id remember e,
    steps = pre ++ DoResolve session_id thread_id call_id true remember :: post ∧
    br_pending (broker_run (broker_new st) pre)
      !! mkApprovalKey session_id thread_id call_id = Some e ∧
    pa_token e = n ∧ fu_key f = mkApprovalKey session_id thread_id call_id ∧
    key_of (pa_request e) = fu_key f.
Proof.
  intros Hf Hst. destruct (granted_run st steps n) as (pre & s & post & -> & Hy).
  { left. exists f. split; [done|]. destruct Hst; auto. }
  destruct Hy as (sid & tid & cid & rem & e & -> & He & Ht).
  exists pre, post, sid, tid, cid, rem, e.
  destruct (bi_rows _ (reachable_inv st pre) _ _ He) as (Hkey & _ & f0 & Hf0 & Hk0 & _).
  rewrite Ht in Hf0. eapply future_run in Hf0 as (f' & Hf' & Hk').
  unfold broker_run in Hf, Hf'. rewrite fold_left_app in Hf. rewrite Hf in Hf'. simplify_eq.
  rewrite Hk', Hk0, Hkey. done.
Qed.

(** On every reachable broker each card belongs to one call that has not
    completed, under that call's own key and grant target; and a call that waits
    and has not been answered has its card, or an answer on its way. *)
Theorem card_has_waiter st steps :
  let h := broker_run (broker_new st) steps in
  (∀ k e, br_pending h !! k = Some e →
     key_of (pa_request e) = k ∧ pa_grant_target e = grant_target_of (pa_request e) ∧
     (∃ f, br_futures h !! pa_token e = Some f ∧ fu_key f = k ∧ held f) ∧
     ∀ k' e', br_pending h !! k' = Some e' → pa_token e' = pa_token e → k' = k) ∧
  (∀ n f, br_futures h !! n = Some f → fu_state f = FutureWaiting →
     ∃ c, br_chans h !! n = Some c ∧
       (chan_recv c = RecvPending ↔
        (∃ e, br_pending h !! fu_key f = Some e ∧ pa_token e = n) ∨ call_token h n)).
Proof.
  intros h. pose proof (reachable_inv st steps) as Hi. fold h in Hi. split.
  - intros k e He. destruct (bi_rows h Hi k e He) as (? & ? & ?). split_and!; [done..|].
    intros k' e' He' Ht. by apply (row_tokens_inj h k' e' k e).
  - intros n f Hn Hs. destruct (bi_chans h Hi n f Hn Hs) as (c & Hc & _ & Hp).
    exists c. split; [done|]. rewrite Hp. split; (intros [Hrow|?]; [left|by right]).
    + destruct Hrow as (k & e & He & Ht). destruct (bi_rows h Hi k e He) as (_ & _ & f' & Hf' & Hk & _).
      rewrite Ht in Hf'. simplify_eq. by exists e.
    + destruct Hrow as (e & He & Ht). by exists (fu_key f), e.
Qed.

(* ------------------------------------------------------------------ *)
(** ** Answers *)

(** A future that stopped waiting has let its receiver go. *)
Definition receivers_dead h : Prop :=
  ∀ n f v c, br_futures h !! n = Some f → fu_state f = FutureFinishing v →
    br_chans h !! n = Some c → chan_receiver_alive c = false.

Lemma dead_chan h h' :
  receivers_dead h → br_futures h' = br_futures h →
  (∀ n c', br_chans h' !! n = Some c' →
     ∃ c, br_chans h !! n = Some c ∧ (chan_receiver_alive c' = chan_receiver_alive c)) →
  receivers_dead h'.
Proof.
  intros Hd Hf Hc n f v c'. rewrite Hf. intros Hn Hs Hc'.
  destruct (Hc n c' Hc') as (c & Hcn & ->). by eapply Hd.
Qed.

Lemma alter_alive h g m n c' :
  (∀ c, chan_receiver_alive (g c) = chan_receiver_alive c) →
  alter g m (br_chans h) !! n = Some c' →
  ∃ c, br_chans h !! n = Some c ∧ chan_receiver_alive c' = chan_receiver_alive c.
Proof.
  intros Hg [[-> (c & Hc & ->)]|[_ Hc]]%lookup_alter_Some; [|by exists c'].
  exists c. by rewrite Hg.
Qed.

Lemma dead_stop h n s :
  receivers_dead h → receivers_dead (set_future (update_chan h n chan_drop_receiver) n s).
Proof.
  intros Hd m f v c Hf Hs Hc. simpl in *.
  apply lookup_alter_Some in Hc as [[<- (c0 & _ & ->)]|[Hne Hc]]; [apply chan_drop_receiver_dead|].
  apply list_alter_some in Hf as [[? _]|[_ Hf]]; [done|]. by eapply Hd.
Qed.

Lemma dead_done h n v : receivers_dead h → receivers_dead (set_future h n (FutureDone v)).
Proof.
  intros Hd m f w c Hf Hs Hc. simpl in *.
  apply list_alter_some in Hf as [[-> (y & _ & ->)]|[_ Hf]]; [done|]. by eapply Hd.
Qed.

Lemma dead_step h s : broker_inv h → receivers_dead h → receivers_dead (broker_step h s).
Proof.
  intros Hi Hd. destruct s as [r|sid tid cid a rem|disk now i|t|m|m|m]; simpl.
  - unfold begin. destruct (br_pending h !! _); intros n f v c; simpl.
    + intros [Hf|[-> ->]]%snoc_some Hs Hc; [by eapply Hd|done].
    + intros [Hf|[-> ->]]%snoc_some Hs Hc; [|done]. rewrite lookup_insert_ne in Hc; [by eapply Hd|].
      intros <-. apply lookup_lt_Some in Hf. lia.
  - unfold resolve_take. by destruct (br_pending h !! _).
  - unfold resolve_continue. destruct (br_resolves h !! i) as [r|]; [|done].
    destruct (rv_pc r); [done|by destruct (_ && _)| |done].
    apply (dead_chan h); [done..|]. simpl. intros n c'. apply alter_alive. intros c. apply chan_send_alive.
  - unfold cancel_thread. fold (drop_senders (filter (in_thread t) (br_pending h)) h).
    set (m := filter _ _). destruct (drop_senders_frame m h) as (_ & Hf & _).
    apply (dead_chan h); [done..|]. simpl. intros n c' Hc'.
    destruct (drop_senders_chans m h) with (n := n) as [[Hs _]|[_ Hs]].
    + intros k e k' e' [He _]%map_lookup_filter_Some [He' _]%map_lookup_filter_Some.
      by apply (row_tokens_inj h).
    + exists c'. by rewrite <- Hs.
    + rewrite Hs in Hc'. destruct (br_chans h !! n) as [c|]; [|done]. simpl in Hc'. simplify_eq.
      exists c. by rewrite chan_drop_sender_alive.
  - unfold poll_future. destruct (br_futures h !! m) as [f|]; [|done].
    destruct (fu_state f); [by apply dead_done| |done..].
    destruct (chan_recv <$> br_chans h !! m) as [[]|]; [done|by apply dead_stop..|done].
  - unfold drop_future. destruct (br_futures h !! m) as [f|]; [|done].
    destruct (fu_state f); [by apply dead_done|by apply dead_stop|done..].
  - unfold drop_guard. destruct (br_futures h !! m) as [f|]; [|done].
    destruct (fu_state f); try done. apply dead_done.
    destruct (br_pending h !! _) as [e|]; [|done]. case_bool_decide; [|done].
    apply (dead_chan h); [done..|]. simpl. intros n c'. apply alter_alive. intros c. apply chan_drop_sender_alive.
Qed.

Lemma reachable_dead st steps : receivers_dead (broker_run (broker_new st) steps).
Proof.
  induction steps as [|s steps IH] using rev_ind; [by intros ? ? ? ? ?|].
  unfold broker_run. rewrite fold_left_app. apply dead_step; [apply reachable_inv|done].
Qed.

Lemma guard_done h n f v :
  br_futures h !! n = Some f → fu_state f = FutureFinishing v →
  br_futures (drop_guard h n) !! n = Some (f <| fu_state := FutureDone v |>).
Proof.
  intros Hf Hs. unfold drop_guard. rewrite Hf, Hs. simpl.
  rewrite list_lookup_alter_eq.
  destruct (br_pending h !! fu_key f); [case_bool_decide|]; simpl; by rewrite Hf.
Qed.

(** A waiting future whose channel has something to say completes with it. *)
Lemma poll_completes h n f c b :
  br_futures h !! n = Some f → fu_state f = FutureWaiting → br_chans h !! n = Some c →
  chan_recv c = RecvValue b ∨ chan_recv c = RecvClosed ∧ b = false →
  br_futures (drop_guard (poll_future h n) n) !! n = Some (f <| fu_state := FutureDone (Some b) |>).
Proof.
  intros Hf Hs Hc Hv. unfold poll_future. rewrite Hf, Hs, Hc. simpl.
  destruct Hv as [->|[-> ->]]; (erewrite guard_done; [|simpl; by rewrite list_lookup_alter_eq, Hf|done]); done.
Qed.

(** The accesses of the newest call of [resolve]. *)
Lemma set_resolve_last h l r pc :
  br_resolves h = l ++ [r] →
  set_resolve h (length l) pc = h <| br_resolves := l ++ [r <| rv_pc := pc |>] |>.
Proof.
  destruct h as [p c m f rs st]. simpl. intros ->. unfold set_resolve.
  change (mkBroker p c m f (alter (λ r, r <| rv_pc := pc |>) (length l) (l ++ [r])) st
    = mkBroker p c m f (l ++ [r <| rv_pc := pc |>]) st). by rewrite alter_snoc.
Qed.

Lemma continue_last disk now h l r :
  br_resolves h = l ++ [r] →
  resolve_continue disk now h (length l) =
  match rv_pc r with
  | ResolveTaken => (notify_changed h) <| br_resolves := l ++ [r <| rv_pc := ResolveAnnounced |>] |>
  | ResolveAnnounced =>
      (if rv_approved r && rv_remember r
       then h <| br_store := fst (grant_persist disk now (br_store h) (pa_grant_target (rv_entry r))) |>
       else h) <| br_resolves := l ++ [r <| rv_pc := ResolvePersisted |>] |>
  | ResolvePersisted =>
      (update_chan h (pa_token (rv_entry r)) (λ c, fst (chan_send (rv_approved r) c)))
        <| br_resolves := l ++ [r <| rv_pc := ResolveReturned
             (match br_chans h !! pa_token (rv_entry r) with
              | Some c => snd (chan_send (rv_approved r) c)
              | None => false
              end) |>] |>
  | ResolveReturned _ => h
  end.
Proof.
  intros Hl. unfold resolve_continue. rewrite Hl. rewrite snoc_last.
  destruct (rv_pc r); [| | |done].
  - by rewrite (set_resolve_last _ l r).
  - by rewrite (set_resolve_last _ l r) by (by destruct (_ && _)).
  - by rewrite (set_resolve_last _ l r).
Qed.

Lemma resolve_steps disk now h s t c a rem e :
  br_pending h !! mkApprovalKey s t c = Some e →
  let h' := fst (resolve disk now h s t c a rem) in
  br_pending h' = delete (mkApprovalKey s t c) (br_pending h) ∧
  br_futures h' = br_futures h ∧
  br_chans h' = alter (λ ch, fst (chan_send a ch)) (pa_token e) (br_chans h) ∧
  br_store h' = (if a && rem then fst (grant_persist disk now (br_store h) (pa_grant_target e))
                 else br_store h) ∧
  snd (resolve disk now h s t c a rem)
    = match br_chans h !! pa_token e with Some ch => snd (chan_send a ch) | None => false end.
Proof.
  intros He. unfold resolve, resolve_take. rewrite He. simpl.
  set (h0 := h <| br_pending ::= _ |> <| br_resolves ::= _ |>).
  rewrite (continue_last disk now h0 (br_resolves h) (mkResolve e a rem ResolveTaken)) by done.
  simpl. set (h1 := _ <| br_resolves := _ |>).
  rewrite (continue_last disk now h1 (br_resolves h) (mkResolve e a rem ResolveAnnounced)) by done.
  simpl. set (h2 := _ <| br_resolves := _ |>).
  rewrite (continue_last disk now h2 (br_resolves h) (mkResolve e a rem ResolvePersisted)) by done.
  simpl. rewrite snoc_last. subst h2. simpl.
  destruct (a && rem); simpl; by split_and!.
Qed.

(** An answer for a key that has no card changes nothing and returns false.
    An answer for a card takes that card alone; a remembered yes is in the store
    by the time the call can resume; the answer tells whether the call still
    waits, and a waiting call completes with exactly the operator's verdict. *)
Theorem resolve_delivers st steps disk now session_id thread_id call_id approved remember :
  let h := broker_run (broker_new st) steps in
  let key := mkApprovalKey session_id thread_id call_id in
  let out := resolve disk now h session_id thread_id call_id approved remember in
  match br_pending h !! key with
  | None => out = (h, false)
  | Some e =>
      br_pending (fst out) = delete key (br_pending h) ∧
      br_store (fst out) = (if approved && remember
        then fst (grant_persist disk now (br_store h) (grant_target_of (pa_request e)))
        else br_store h) ∧
      ∃ f, br_futures h !! pa_token e = Some f ∧
        (snd out = true ↔ fu_state f = FutureWaiting) ∧
        (fu_state f = FutureWaiting →
         br_futures (drop_guard (poll_future (fst out) (pa_token e)) (pa_token e)) !! pa_token e
           = Some (f <| fu_state := FutureDone (Some approved) |>))
  end.
Proof.
  intros h key out. pose proof (reachable_inv st steps) as Hi. pose proof (reachable_dead st steps) as Hd.
  fold h in Hi, Hd. destruct (br_pending h !! key) as [e|] eqn:He.
  2:{ unfold out, resolve, resolve_take. fold key. by rewrite He. }
  destruct (resolve_steps disk now h session_id thread_id call_id approved remember e He)
    as (Hp & Hf & Hc & Hst & Ha). fold out key in Hp, Hf, Hc, Hst, Ha.
  destruct (bi_rows h Hi key e He) as (Hkey & Hgt & f & Hfe & Hfk & Hheld).
  split_and!; [done|by rewrite Hst, Hgt|]. exists f. rewrite Ha.
  assert (Hw : fu_state f = FutureWaiting → ∃ c, br_chans h !! pa_token e = Some c ∧
    chan_receiver_alive c = true ∧ chan_recv c = RecvPending).
  { intros Hs. destruct (bi_chans h Hi _ f Hfe Hs) as (c & ? & ? & Hpend). exists c.
    split_and!; [done..|]. apply Hpend. left. by exists key, e. }
  split_and!; [done| |].
  - split.
    + intros Hans. unfold held in Hheld. destruct (fu_state f) as [| |v|v] eqn:Hs; try done.
      destruct (br_chans h !! pa_token e) as [c|] eqn:Hce; [|done].
      rewrite chan_send_answer in Hans. by rewrite (Hd _ _ _ _ Hfe Hs Hce) in Hans.
    + intros (c & -> & Halive & _)%Hw. by rewrite chan_send_answer.
  - intros Hs. destruct (Hw Hs) as (c & Hce & Halive & Hpend).
    eapply poll_completes; [by rewrite Hf|done|rewrite Hc, lookup_alter_eq, Hce; reflexivity|].
    left. by apply chan_send_value.
Qed.

(** A call parked under a key that already has a card is refused at once
    and leaves that card alone.  Cancelling a thread removes exactly its cards,
    and each of its waiting calls then completes with no. *)
Theorem unanswered_is_denied st steps :
  let h := broker_run (broker_new st) steps in
  (∀ request, is_Some (br_pending h !! key_of request) →
     let n := length (br_futures h) in
     let h' := poll_future (begin h request) n in
     br_pending h' = br_pending h ∧ br_chans h' = br_chans h ∧
     br_futures h' !! n = Some (mkFuture (key_of request) (FutureDone (Some false)))) ∧
  (∀ thread_id k e,
     br_pending (cancel_thread h thread_id) !! k = Some e ↔
     br_pending h !! k = Some e ∧ ak_thread_id k ≠ thread_id) ∧
  (∀ k e f, br_pending h !! k = Some e → br_futures h !! pa_token e = Some f →
     fu_state f = FutureWaiting →
     br_futures (drop_guard (poll_future (cancel_thread h (ak_thread_id k)) (pa_token e)) (pa_token e))
       !! pa_token e = Some (f <| fu_state := FutureDone (Some false) |>)).
Proof.
  intros h. pose proof (reachable_inv st steps) as Hi. fold h in Hi. split_and!.
  - intros request [e He] n. unfold begin. rewrite He. simpl.
    unfold poll_future. simpl. unfold n. rewrite snoc_last. simpl. rewrite alter_snoc.
    split_and!; [done..|]. by rewrite snoc_last.
  - intros t k e. unfold cancel_thread. fold (drop_senders (filter (in_thread t) (br_pending h)) h).
    destruct (drop_senders_frame (filter (in_thread t) (br_pending h)) h) as (Hp & _).
    simpl. rewrite Hp, map_lookup_filter_Some. done.
  - intros k e f He Hf Hs. unfold cancel_thread.
    set (m := filter (in_thread (ak_thread_id k)) (br_pending h)). fold (drop_senders m h).
    destruct (drop_senders_frame m h) as (_ & Hfr & _).
    destruct (bi_chans h Hi _ f Hf Hs) as (c & Hc & _ & Hpend).
    destruct (drop_senders_chans m h) with (n := pa_token e) as [[_ Hno]|[_ Hd]].
    + intros k1 e1 k2 e2 [H1 _]%map_lookup_filter_Some [H2 _]%map_lookup_filter_Some.
      by apply (row_tokens_inj h).
    + exfalso. apply (Hno k e); [|done]. by apply map_lookup_filter_Some.
    + eapply poll_completes; [by simpl; rewrite Hfr|done|simpl; rewrite Hd, Hc; reflexivity|].
      right. split; [|done]. apply chan_drop_sender_closes, Hpend. left. by exists k, e.
Qed.
End facts.

(* ------------------------------------------------------------------ *)
(** ** A broker over a concrete channel *)

Record Cell := mkCell { cell_recv : Received; cell_alive : bool }.

#[global] Instance cell_oneshot : Oneshot Cell := {|
  chan_new := mkCell RecvPending true;
  chan_send b c :=
    (match cell_recv c, cell_alive c with
     | RecvPending, true => mkCell (RecvValue b) true
     | _, _ => c
     end, cell_alive c);
  chan_drop_sender c :=
    match cell_recv c with RecvPending => mkCell RecvClosed (cell_alive c) | _ => c end;
  chan_drop_receiver c := mkCell (cell_recv c) false;
  chan_recv := cell_recv;
  chan_receiver_alive := cell_alive
|}.

#[global] Instance cell_laws : OneshotLaws Cell.
Proof. by split; simpl; [done|done|intros [[] []]..]. Defined.

Definition ex_request (session_id call_id : string) : ToolApprovalRequest :=
  mkApprovalRequest call_id session_id "thread-a" "run" (Mcp "shell" "run") ProcessControl "" None None [] None.

Definition ex_store : PermStore := mkPermStore None GrantsMissing.

(** Parked, answered yes, resumed. *)
Definition ex_steps : list BrokerStep :=
  [DoBegin (ex_request "s1" "c1"); DoResolve "s1" "thread-a" "c1" true false;
   DoContinue (mkDisk true true) "now" 0; DoContinue (mkDisk true true) "now" 0;
   DoContinue (mkDisk true true) "now" 0; DoPoll 0; DoGuard 0].

Lemma approval_needs_exact_card_witness :
  ∃ pre post session_id thread_id call_id remember (e : PendingApproval),
    ex_steps = pre ++ DoResolve session_id thread_id call_id true remember :: post ∧
    br_pending (broker_run (broker_new ex_store : Broker Cell) pre)
      !! mkApprovalKey session_id thread_id call_id = Some e ∧
    pa_token e = 0%nat ∧ mkApprovalKey "s1" "thread-a" "c1" = mkApprovalKey session_id thread_id call_id ∧
    key_of (pa_request e) = mkApprovalKey "s1" "thread-a" "c1".
Proof.
  apply (approval_needs_exact_card ex_store ex_steps 0
    (mkFuture (mkApprovalKey "s1" "thread-a" "c1") (FutureDone (Some true)))).
  - by vm_compute.
  - by right.
Defined.

Lemma card_has_waiter_witness :
  let h := broker_run (broker_new ex_store : Broker Cell) [DoBegin (ex_request "s1" "c1")] in
  ∃ e, br_pending h !! mkApprovalKey "s1" "thread-a" "c1" = Some e ∧
    ∃ f, br_futures h !! pa_token e = Some f ∧ fu_key f = mkApprovalKey "s1" "thread-a" "c1" ∧ held f.
Proof.
  intros h. eexists. split; [by vm_compute|].
  apply (proj1 (card_has_waiter ex_store [DoBegin (ex_request "s1" "c1")]) _ _). by vm_compute.
Defined.

Lemma resolve_delivers_witness :
  let h := broker_run (broker_new ex_store : Broker Cell) [DoBegin (ex_request "s1" "c1")] in
  resolve (mkDisk true true) "now" h "s0" "thread-a" "c1" true true = (h, false).
Proof.
  apply (resolve_delivers (C := Cell) ex_store [DoBegin (ex_request "s1" "c1")] (mkDisk true true) "now"
    "s0" "thread-a" "c1" true true).
Defined.

Lemma unanswered_is_denied_witness :
  let h := broker_run (broker_new ex_store : Broker Cell) [DoBegin (ex_request "s1" "c1")] in
  br_futures (poll_future (begin h (ex_request "s1" "c1")) 1) !! 1%nat
    = Some (mkFuture (mkApprovalKey "s1" "thread-a" "c1") (FutureDone (Some false))).
Proof.
  apply (proj1 (unanswered_is_denied ex_store [DoBegin (ex_request "s1" "c1")])
           (ex_request "s1" "c1")). by eexists; vm_compute.
Defined.
