(* ===== verification/AgentTypes.v ===== *)
(** AgentTypes: messages, provider events and UI events of the agent core
    (core/agent/types.rs, event.rs, provider.rs).

    A timestamp is nanoseconds; a temperature is the bits of its float. *)

From S2P Require Import Prelude.
From S2P Require Import Json.
From S2P Require Import AgentGate.
#[local] Open Scope Z_scope.

Inductive Role := RoleUser | RoleAssistant | RoleSystem.

#[warnings="-register-all"]
Inductive ContentBlock :=
  | BlockText (text : string)
  | BlockImage (data : list Byte.byte) (media_type : string)
  | BlockImageAsset (asset : ImageAsset)
  | BlockToolUse (id name : string) (input : Value)
  | BlockToolResult (tool_use_id : string) (content : list ContentBlock) (is_error : bool).

Record Message := mkMessage {
  ms_role : Role;
  ms_content : list ContentBlock;
  ms_timestamp : option Z
}.

Inductive AgentEvent :=
  | EvTextDelta (delta : string)
  | EvTextDone (text : string)
  | EvReasoningDelta (delta : string)
  | EvToolCallStart (id name : string)
  | EvToolCallArgsDelta (id delta : string)
  | EvToolCallReady (id name : string) (arguments : Value)
  | EvResponseDone (response_id : option string) (clean : bool)
  | EvError (message : string).

Inductive AgentUiEvent :=
  | UiTextDelta (delta : string)
  | UiTextDone (text : string)
  | UiReasoningDelta (delta : string)
  | UiToolExecuting (name id : string)
  | UiToolApprovalRequested (request : ToolApprovalRequest)
  | UiToolResult (name id summary : string) (is_error : bool)
  | UiDone
  | UiError (message : string).

Record StreamOptions := mkStreamOptions {
  so_model : string;
  so_system_prompt : option string;
  so_max_tokens : option Z;
  so_temperature : option Z;
  so_reset_chain : bool
}.
