(* ===== verification/ToolOutput.v ===== *)
(** ToolOutput: the spill of oversized tool results out of the conversation
    (core/agent/tool_output.rs).

    Writing the spilled text is a function of the machine's state [W]; the
    content-addressed file store is given below as one such state, with SHA-256
    a parameter and the outcome of a write an argument. *)

From S2P Require Import Prelude.
From S2P Require Import Text.
From S2P Require Import Json.
From S2P Require Import AgentGate.
From S2P Require Import AgentTypes.
#[local] Open Scope Z_scope.

Definition TOOL_OUTPUT_INLINE_LIMIT_BYTES : Z := 64 * 1024.

Definition block_text (b : ContentBlock) : option string :=
  match b with BlockText t => Some t | _ => None end.

Definition is_text (b : ContentBlock) : bool :=
  match b with BlockText _ => true | _ => false end.

Definition texts_of (content : list ContentBlock) : list string := omap block_text content.

Definition byte_len (s : string) : Z := Z.of_nat (String.length s).

Definition text_bytes (content : list ContentBlock) : Z := zsum (map byte_len (texts_of content)).

(** The first text becomes the reference, the other texts go. *)
Fixpoint replace_texts (first_text index : nat) (reference : ContentBlock)
    (content : list ContentBlock) : list ContentBlock :=
  match content with
  | [] => []
  | BlockText _ :: rest =>
      (if (index =? first_text)%nat then [reference] else [])
        ++ replace_texts first_text (S index) reference rest
  | other :: rest => other :: replace_texts first_text (S index) reference rest
  end.

(** [position(…).unwrap_or(0)]. *)
Fixpoint position_text (content : list ContentBlock) : option nat :=
  match content with
  | [] => None
  | b :: rest => if is_text b then Some 0%nat else S <$> position_text rest
  end.

Definition stored_reference (path : string) (bytes : Z) : string :=
  ("[tool output stored: " +:+ path +:+ " (" +:+ show_u64 bytes +:+ " bytes)]")%string.

Definition omitted_reference (bytes : Z) (error : string) : string :=
  ("[tool output omitted: failed to store " +:+ show_u64 bytes +:+ " bytes: " +:+ error +:+ "]")%string.

Section spill.
Context {W : Type} (persist : W → string → W * (string + string)).

(** The content it leaves, and whether it spilled. *)
Definition spill_content (limit : Z) (w : W) (content : list ContentBlock)
    : W * (list ContentBlock * (string + bool)) :=
  if text_bytes content <=? limit then (w, (content, inr false))
  else
    let body := join_lines (texts_of content) in
    let '(w, persisted) := persist w body in
    let reference :=
      BlockText (match persisted with
                 | inr path => stored_reference path (byte_len body)
                 | inl error => omitted_reference (byte_len body) error
                 end) in
    let first_text := default 0%nat (position_text content) in
    (w, (replace_texts first_text 0 reference content,
         match persisted with inr _ => inr true | inl error => inl error end)).

(** The blocks of one message: what is left, how many spilled, the first error. *)
Fixpoint spill_blocks (limit : Z) (w : W) (blocks : list ContentBlock) (spilled : Z)
    (first_error : option string) : W * list ContentBlock * Z * option string :=
  match blocks with
  | [] => (w, [], spilled, first_error)
  | b :: rest =>
      let '(w, b, spilled, first_error) :=
        match b with
        | BlockToolResult id content is_error =>
            let '(w, (content, res)) := spill_content limit w content in
            let b := BlockToolResult id content is_error in
            match res with
            | inr true => (w, b, spilled + 1, first_error)
            | inr false => (w, b, spilled, first_error)
            | inl error => (w, b, spilled, Some (default error first_error))
            end
        | other => (w, other, spilled, first_error)
        end in
      let '(w, rest, spilled, first_error) := spill_blocks limit w rest spilled first_error in
      (w, b :: rest, spilled, first_error)
  end.

Fixpoint spill_rest (limit : Z) (w : W) (messages : list Message) (spilled : Z)
    (first_error : option string) : W * list Message * Z * option string :=
  match messages with
  | [] => (w, [], spilled, first_error)
  | m :: rest =>
      let '(w, blocks, spilled, first_error) :=
        spill_blocks limit w (ms_content m) spilled first_error in
      let m := mkMessage (ms_role m) blocks (ms_timestamp m) in
      let '(w, rest, spilled, first_error) := spill_rest limit w rest spilled first_error in
      (w, m :: rest, spilled, first_error)
  end.

Definition spill_messages (limit : Z) (w : W) (messages : list Message)
    : W * (list Message * (string + Z)) :=
  let '(w, messages, spilled, first_error) := spill_rest limit w messages 0 None in
  (w, (messages, match first_error with Some error => inl error | None => inr spilled end)).
End spill.

(* ------------------------------------------------------------------ *)
(** ** The content-addressed store *)

Section store.
Context (sha256_hex : string → string) (root : string).

(** The files of the machine and whether the next write reaches the disk. *)
Record FileStore := mkFiles { fs_files : gmap string string; fs_failure : option string }.

Definition tool_output_path (body : string) : string :=
  (root +:+ "/tool-output-" +:+ sha256_hex body +:+ ".txt")%string.

Definition persist (fs : FileStore) (body : string) : FileStore * (string + string) :=
  let path := tool_output_path body in
  match fs_files fs !! path with
  | Some _ => (fs, inr path)
  | None =>
      match fs_failure fs with
      | Some error => (fs, inl error)
      | None => (mkFiles (<[path := body]> (fs_files fs)) None, inr path)
      end
  end.

(** Every spill file holds a body of its own name. *)
Definition content_addressed (fs : FileStore) : Prop :=
  ∀ body held, fs_files fs !! tool_output_path body = Some held →
    tool_output_path held = tool_output_path body.

Lemma persist_addressed fs body :
  content_addressed fs → content_addressed (fst (persist fs body)).
Proof.
  intros Hca. unfold persist. destruct (fs_files fs !! tool_output_path body) eqn:E; [done|].
  destruct (fs_failure fs); [done|]. intros b held. simpl.
  rewrite lookup_insert_Some. intros [[<- <-]|[_ Hb]]; [done|by apply Hca].
Qed.

Lemma persist_holds fs body path :
  content_addressed fs →
  (∀ held, tool_output_path held = tool_output_path body → held = body) →
  snd (persist fs body) = inr path →
  path = tool_output_path body ∧ fs_files (fst (persist fs body)) !! path = Some body.
Proof.
  intros Hca Hcol. unfold persist.
  destruct (fs_files fs !! tool_output_path body) as [held|] eqn:E; simpl.
  - intros [= <-]. split; [done|]. by rewrite E, (Hcol held (Hca body held E)).
  - destruct (fs_failure fs); simpl; [done|]. intros [= <-]. by rewrite lookup_insert_eq.
Qed.
End store.

(* ------------------------------------------------------------------ *)
(** ** What a spill leaves *)

Lemma position_text_split content t pre post :
  content = pre ++ BlockText t :: post → Forall (λ b, is_text b = false) pre →
  position_text content = Some (length pre).
Proof.
  intros ->. induction pre as [|b pre IH]; simpl; [done|]. intros [Hb Hpre]%Forall_cons.
  by rewrite Hb, IH.
Qed.

Lemma replace_texts_after first index reference content :
  (first < index)%nat →
  replace_texts first index reference content = filter (λ b, is_text b = false) content.
Proof.
  revert index. induction content as [|b content IH]; intros index Hlt; [done|].
  destruct b; simpl; rewrite ?IH by lia; [|done..].
  by rewrite (proj2 (Nat.eqb_neq index first)) by lia.
Qed.

Lemma replace_texts_split pre t post reference index :
  Forall (λ b, is_text b = false) pre →
  replace_texts (index + length pre) index reference (pre ++ BlockText t :: post)
    = pre ++ reference :: filter (λ b, is_text b = false) post.
Proof.
  revert index. induction pre as [|b pre IH]; simpl; intros index.
  - rewrite Nat.add_0_r, Nat.eqb_refl. intros _. simpl. by rewrite replace_texts_after by lia.
  - intros [Hb Hpre]%Forall_cons. rewrite <- (Nat.add_succ_comm index).
    destruct b; simpl in Hb; try done; by rewrite IH.
Qed.

Lemma first_text_split content :
  texts_of content ≠ [] →
  ∃ pre t post, content = pre ++ BlockText t :: post ∧ Forall (λ b, is_text b = false) pre.
Proof.
  induction content as [|b content IH]; [done|]. destruct (is_text b) eqn:Hb.
  - destruct b; try done. intros _. by eexists [], _, _.
  - intros Hne. destruct IH as (pre & t & post & -> & Hpre).
    { unfold texts_of in *. simpl in Hne. by destruct b. }
    exists (b :: pre), t, post. split; [done|]. by constructor.
Qed.

Lemma texts_of_nontext l : texts_of (filter (λ b, is_text b = false) l) = [].
Proof.
  induction l as [|b l IH]; [done|]. unfold texts_of in *. rewrite filter_cons.
  case_decide as Hb; [|done]. simpl. destruct b; try done; by rewrite IH.
Qed.

Lemma texts_of_nontext_pre pre l :
  Forall (λ b, is_text b = false) pre → texts_of (pre ++ l) = texts_of l.
Proof.
  induction pre as [|b pre IH]; [done|]. intros [Hb Hpre]%Forall_cons.
  unfold texts_of in *. simpl. destruct b; try done; by apply IH.
Qed.

(** A spill keeps every non-text block in order and, when the texts exceed
    the limit, leaves exactly one line in the place of the first: a reference to
    a file that holds every text, or the admission that it could not be stored.
    The store stays content-addressed and below the limit nothing changes. *)
Theorem spill_is_lossless sha256_hex root limit fs content :
  let path := tool_output_path sha256_hex root in
  let body := join_lines (texts_of content) in
  0 ≤ limit → content_addressed sha256_hex root fs →
  (∀ held, path held = path body → held = body) →
  let '(fs', (content', res)) := spill_content (persist sha256_hex root) limit fs content in
  content_addressed sha256_hex root fs' ∧
  filter (λ b, is_text b = false) content' = filter (λ b, is_text b = false) content ∧
  match res with
  | inr false => fs' = fs ∧ content' = content ∧ text_bytes content ≤ limit
  | _ => limit < text_bytes content ∧
      ∃ line pre t post,
        content = pre ++ BlockText t :: post ∧ Forall (λ b, is_text b = false) pre ∧
        content' = pre ++ BlockText line :: filter (λ b, is_text b = false) post ∧
        texts_of content' = [line] ∧
        match res with
        | inr _ => line = stored_reference (path body) (byte_len body) ∧
                   fs_files fs' !! path body = Some body
        | inl error => line = omitted_reference (byte_len body) error ∧ fs' = fs
        end
  end.
Proof.
  intros path body Hlimit Hca Hcol. unfold spill_content.
  destruct (text_bytes content <=? limit) eqn:Hsize; zbool; [by split_and!|].
  assert (Hne : texts_of content ≠ []).
  { intros He. unfold text_bytes in Hsize. rewrite He in Hsize. simpl in Hsize. unfold zsum in Hsize.
    simpl in Hsize. lia. }
  destruct (first_text_split content Hne) as (pre & t & post & Hc & Hpre).
  rewrite (position_text_split content t pre post Hc Hpre). simpl.
  fold body. pose proof (persist_addressed sha256_hex root fs body Hca) as Hca'.
  pose proof (persist_holds sha256_hex root fs body (path body) Hca Hcol) as Hholds.
  destruct (persist sha256_hex root fs body) as [fs' persisted] eqn:Hp. simpl in *.
  assert (Hrep : ∀ r, replace_texts (length pre) 0 r content
    = pre ++ r :: filter (λ b, is_text b = false) post).
  { intros r. rewrite Hc. exact (replace_texts_split pre t post r 0 Hpre). }
  rewrite Hrep.
  assert (Hnon : ∀ line, filter (λ b, is_text b = false) (pre ++ BlockText line :: filter (λ b, is_text b = false) post)
    = filter (λ b, is_text b = false) content).
  { intros line. rewrite Hc, !filter_app, !filter_cons. simpl. f_equal.
    apply list_filter_filter_l. auto. }
  assert (Hone : ∀ line, texts_of (pre ++ BlockText line :: filter (λ b, is_text b = false) post) = [line]).
  { intros line. rewrite texts_of_nontext_pre by done.
    change (line :: texts_of (filter (λ b, is_text b = false) post) = [line]).
    by rewrite texts_of_nontext. }
  destruct persisted as [error|p].
  - split_and!; [done|apply Hnon|done|]. eexists _, pre, t, post. split_and!; [done..|apply Hone|done|].
    unfold persist in Hp. destruct (fs_files fs !! _); [done|]. by destruct (fs_failure fs); simplify_eq.
  - assert (Heq : p = path body).
    { unfold persist in Hp. destruct (fs_files fs !! _); [by simplify_eq|].
      by destruct (fs_failure fs); simplify_eq. }
    subst p. destruct Hholds as [_ Hheld]; [done|].
    split_and!; [done|apply Hnon|done|]. eexists _, pre, t, post. split_and!; [done..|apply Hone|done|done].
Qed.

Lemma length_append a b : String.length (a +:+ b)%string = (String.length a + String.length b)%nat.
Proof. induction a as [|x a IH]; [done|]. change (S (String.length (a +:+ b)%string) = S (String.length a) + String.length b)%nat. by rewrite IH. Qed.

Lemma append_inj_l a b c : (a +:+ b = a +:+ c)%string → b = c.
Proof. induction a as [|x a IH]; [done|]. intros [= H]. by apply IH. Qed.

Lemma append_inj_r a b c : (a +:+ c = b +:+ c)%string → a = b.
Proof.
  intros Habc. assert (Hl : String.length a = String.length b).
  { apply (f_equal String.length) in Habc. rewrite !length_append in Habc. lia. }
  revert b Habc Hl. induction a as [|x a IH]; intros [|y b]; try done.
  intros Hab [= Hl]. change (String x (a +:+ c) = String y (b +:+ c))%string in Hab.
  injection Hab as -> Hab. f_equal. by apply IH.
Qed.

Lemma spill_is_lossless_witness :
  let content := [BlockText "ab"; BlockImage [] "image/png"; BlockText "cd"]%string in
  let '(fs', (content', res)) := spill_content (persist (λ s, s) "") 3 (mkFiles ∅ None) content in
  res = inr true ∧
  filter (λ b, is_text b = false) content' = filter (λ b, is_text b = false) content ∧
  content_addressed (λ s, s) "" fs'.
Proof.
  intros content.
  pose proof (spill_is_lossless (λ s, s) "" 3 (mkFiles ∅ None) content) as H. cbv zeta in H.
  destruct (spill_content _ 3 _ content) as [fs' [content' res]] eqn:Hrun.
  assert (Hres : res = inr true) by (vm_compute in Hrun; by simplify_eq).
  destruct H as (Hca & Hnon & _); [lia|by intros ? ?| |by split_and!].
  intros held Hheld. by apply (append_inj_r held _ ".txt"), (append_inj_l "/tool-output-").
Defined.
