(* ===== verification/ToolSummary.v ===== *)
(** ToolSummary: the one-line summary of a tool result
    (core/agent/session.rs, summarize_tool_result and its helpers).

    Parsing and printing JSON belong to serde_json and are parameters. *)

From S2P Require Import Prelude.
From S2P Require Import Text.
From S2P Require Import Json.
From S2P Require Import Redaction.
From S2P Require Import AgentGate.
#[local] Open Scope Z_scope.

Definition SUMMARY_MAX_CHARS : nat := 120.

Definition truncate_summary (text : string) (max_chars : nat) : string :=
  let chars := utf8_chars text in
  if (length chars <=? max_chars)%nat then text
  else (unchars (take (max_chars - 3) chars) +:+ "...")%string.

Fixpoint redact_json_value (value : Value) : Value :=
  match value with
  | VObject fields =>
      VObject (map (λ f, (f.1, if contains_sensitive_key f.1 then VString REDACTED
                               else redact_json_value f.2)) fields)
  | VArray items => VArray (map redact_json_value items)
  | other => other
  end.

(** The characters a summary token is stripped of: both quotes and [, ; ( )]. *)
Definition is_token_punctuation (c : Ascii.ascii) : bool :=
  existsb (Ascii.eqb c) (single_quote :: double_quote :: map Ascii.ascii_of_nat [44; 59; 40; 41]%nat).

Definition token_is_sensitive (token : string) : bool :=
  let token := trim_matches is_token_punctuation token in
  match split_once equals_sign token with
  | Some (key, _) => contains_sensitive_key key
  | None => contains_sensitive_key token
  end.

Section summary.
Context (parse_json : string → string + Value) (print_json : Value → string).

Definition redact_tool_summary (text : string) : string :=
  match parse_json text with
  | inr value => print_json (redact_json_value value)
  | inl _ =>
      if existsb token_is_sensitive (split_whitespace text)
      then "[redacted sensitive tool output]" else text
  end.

Definition text_output (o : ToolResultContent) : option string :=
  match o with ResultText t => Some t | _ => None end.

Definition error_output (o : ToolResultContent) : option string :=
  match o with ResultError m => Some m | _ => None end.

Definition is_image_output (o : ToolResultContent) : bool :=
  match o with ResultImage _ _ | ResultImageAsset _ => true | _ => false end.

Definition is_error_output (o : ToolResultContent) : bool :=
  match o with ResultError _ => true | _ => false end.

Definition count_output (p : ToolResultContent → bool) (outputs : list ToolResultContent) : Z :=
  Z.of_nat (length (List.filter p outputs)).

Definition summarize_tool_result (outputs : list ToolResultContent) : string :=
  match trim <$> find_map text_output outputs with
  | Some text =>
      if String.eqb text "" then "Empty tool output"
      else truncate_summary (redact_tool_summary text) SUMMARY_MAX_CHARS
  | None =>
      let image_count := count_output is_image_output outputs in
      if 0 <? image_count then (show_u64 image_count +:+ " image result(s)")%string
      else
        match trim <$> find_map error_output outputs with
        | Some error =>
            if String.eqb error ""
            then (show_u64 (count_output is_error_output outputs) +:+ " error result(s)")%string
            else truncate_summary (redact_tool_summary error) SUMMARY_MAX_CHARS
        | None => "No tool output"
        end
  end.
End summary.
