(* ===== verification/AgentTurnFacts.v ===== *)
(** AgentTurnFacts: what a turn may do to the world, what it leaves in the
    history, and when it ends. *)

From S2P Require Import Prelude.
From S2P Require Import Text.
From S2P Require Import AgentPermissions.
From S2P Require Import Json.
From S2P Require Import AgentGate.
From S2P Require Import AgentTypes.
From S2P Require Import ToolOutput.
From S2P Require Import ToolSummary.
From S2P Require Import AgentTurn.
#[local] Open Scope Z_scope.

Section facts.
Context {W : Type} {machine : Machine W}.
Implicit Types s : AgentSession W.

(* ------------------------------------------------------------------ *)
(** ** What every step of a turn keeps *)

(** The parts of a session no turn changes. *)
Record same_session s s' : Prop := {
  sm_provider : as_provider s' = as_provider s;
  sm_tools : as_tools s' = as_tools s;
  sm_handler : as_approval_handler s' = as_approval_handler s;
  sm_session : as_execution_session_id s' = as_execution_session_id s;
  sm_thread : as_execution_thread_id s' = as_execution_thread_id s;
  sm_max : as_max_iterations s' = as_max_iterations s;
  sm_limit : as_inline_limit s' = as_inline_limit s
}.

#[global] Instance same_session_preorder : PreOrder same_session.
Proof.
  split; [by split|]. intros s1 s2 s3 [] []. split; congruence.
Qed.

(** The gate allowed the call, or the operator approved its card, and it still
    points where it was judged; one yield separates that check from [w]. *)
Definition cleared s (w : W) (name : string) (input : Value) : Prop :=
  ∃ call_id w0 targets decision w',
    decide_with_targets pretty_json (as_tools s) (store_of w0) w0 name input call_id
      (as_execution_session_id s) (as_execution_thread_id s) = (decision, targets) ∧
    (decision = DecisionAllow ∨
     ∃ request handler w1, decision = RequireApproval request ∧
       as_approval_handler s = Some handler ∧ snd (ah_await handler w1 request) = Approved) ∧
    confirm_targets (as_tools s) w' name input targets = inr tt ∧ w = yield w'.

(** The input the handler receives. *)
Definition dispatched s (name : string) (input : Value) : Value :=
  if bool_decide (name ∈ tr_thread_context_tools (as_tools s))
  then with_thread_id input (as_execution_thread_id s) else input.

(** A property of the world that everything but opening a stream keeps. *)
Record quiet s (I : W → Prop) : Prop := {
  qu_yield w : I w → I (yield w);
  qu_restore w id : I w → I (pv_restore_response_chain (as_provider s) w id);
  qu_park w handler request : as_approval_handler s = Some handler → I w → I (ah_park handler w request);
  qu_await w handler request : as_approval_handler s = Some handler → I w →
    I (fst (ah_await handler w request));
  qu_save w data media_type : I w → I (fst (save_image w data media_type));
  qu_spill w body : I w → I (fst (write_spill w body));
  qu_handler w name input tool : tr_tools (as_tools s) !! name = Some tool → cleared s w name input →
    I w → I (fst (rt_handler tool w (dispatched s name input)))
}.

Lemma quiet_same s s' I : same_session s s' → quiet s I → quiet s' I.
Proof.
  intros [] []. split; try (rewrite ?sm_provider0, ?sm_handler0; done).
  unfold cleared, dispatched. rewrite sm_tools0, sm_handler0, sm_session0, sm_thread0. done.
Qed.

(** A step that keeps the session's fixed parts and a quiet property. *)
Definition keeps (I : W → Prop) s s' : Prop :=
  same_session s s' ∧ (I (as_world s) → I (as_world s')).

#[global] Instance keeps_preorder I : PreOrder (keeps I).
Proof.
  split; [by split|]. intros s1 s2 s3 [? ?] [? ?]. split; [by etrans|auto].
Qed.

Lemma keeps_then I s s1 s2 : keeps I s s1 → (same_session s s1 → keeps I s1 s2) → keeps I s s2.
Proof. intros H1 H2. etrans; [done|]. apply H2, H1. Qed.

Lemma keeps_send_ui I s event : quiet s I → keeps I s (send_ui_event s event).
Proof. intros Hq. split; [by split|]. apply (qu_yield s I Hq). Qed.

Lemma keeps_reset I s : quiet s I → keeps I s (reset_chain s).
Proof. intros Hq. split; [by split|]. apply (qu_restore s I Hq). Qed.

Lemma keeps_push I s role content : keeps I s (push_message s role content).
Proof. split; [by split|done]. Qed.

Lemma keeps_collect_event I s rd event :
  quiet s I → keeps I s (fst (collect_event s rd event)).
Proof.
  intros Hq. destruct event; simpl; try (by apply keeps_send_ui); try done; [|by apply keeps_reset].
  destruct (clean && _); [by split|by apply keeps_reset].
Qed.

Lemma keeps_collect I s rd events : quiet s I → keeps I s (fst (collect s rd events)).
Proof.
  revert s rd. induction events as [|event events IH]; intros s rd Hq; [done|]. simpl.
  pose proof (keeps_collect_event I s rd event Hq) as Hk.
  destruct (collect_event s rd event) as [s1 [error|rd1]]; [done|]. simpl in Hk.
  eapply keeps_then; [exact Hk|]. intros Hs. apply IH. by eapply quiet_same.
Qed.

Lemma keeps_authorize I s call : quiet s I → keeps I s (fst (authorize s call)).
Proof.
  intros Hq. destruct call as [[call_id name] input]. unfold authorize.
  destruct (decide_with_targets _ _ _ _ _ _ _ _ _) as [[|request|reason] targets]; simpl; [reflexivity| |reflexivity].
  destruct (as_approval_handler s) as [handler|] eqn:Hh; simpl.
  - rewrite Hh. split; simpl; destruct (ah_await _ _ _) as [w outcome] eqn:Ha; simpl; [by split|].
    intros HI. apply (qu_park s I Hq _ _ request Hh), (qu_yield s I Hq),
      (qu_await s I Hq _ _ request Hh) in HI. by rewrite Ha in HI.
  - rewrite Hh. by apply keeps_send_ui.
Qed.

Lemma content_blocks_keeps I s w outputs : quiet s I → I w → I (fst (content_blocks w outputs)).
Proof.
  intros Hq. revert w. induction outputs as [|output outputs IH]; intros w HI; [done|]. simpl.
  destruct output as [text|data media_type|asset|message]; simpl.
  - specialize (IH w HI). by destruct (content_blocks w outputs).
  - pose proof (qu_save s I Hq w data media_type HI) as HI1.
    destruct (save_image w data media_type) as [w1 saved]. simpl in *.
    specialize (IH w1 HI1). by destruct (content_blocks w1 outputs).
  - specialize (IH w HI). by destruct (content_blocks w outputs).
  - specialize (IH w HI). by destruct (content_blocks w outputs).
Qed.

Lemma spill_content_keeps I s limit w content :
  quiet s I → I w → I (fst (spill_content write_spill limit w content)).
Proof.
  intros Hq HI. unfold spill_content. destruct (_ <=? _); [done|].
  pose proof (qu_spill s I Hq w (join_lines (texts_of content)) HI) as HI1.
  by destruct (write_spill w _).
Qed.

Lemma keeps_record I s call outputs : quiet s I → keeps I s (record_result s call outputs).
Proof.
  intros Hq. destruct call as [[call_id name] input]. unfold record_result.
  destruct (content_blocks (as_world s) outputs) as [w1 blocks] eqn:Hb.
  destruct (spill_content write_spill (as_inline_limit s) w1 blocks) as [w2 [blocks' res]] eqn:Hs.
  split; simpl; [by split|]. intros HI. apply (qu_yield s I Hq).
  pose proof (content_blocks_keeps I s _ outputs Hq HI) as HI1. rewrite Hb in HI1.
  pose proof (spill_content_keeps I s (as_inline_limit s) w1 blocks Hq HI1) as HI2.
  by rewrite Hs in HI2.
Qed.

Lemma authorize_cleared s s1 call_id name input targets w' :
  authorize s (call_id, name, input) = (s1, (None, targets)) →
  confirm_targets (as_tools s) w' name input targets = inr tt →
  cleared s (yield w') name input.
Proof.
  unfold authorize.
  destruct (decide_with_targets pretty_json (as_tools s) (store_of (as_world s)) (as_world s) name input
    call_id (as_execution_session_id s) (as_execution_thread_id s)) as [d tg] eqn:Hd.
  intros Ha Hc. exists call_id, (as_world s), targets, d, w'.
  destruct d as [|request|reason]; simpl in Ha; [by simplify_eq; auto| |by simplify_eq].
  destruct (as_approval_handler s) as [handler|] eqn:Hh; simpl in Ha; rewrite Hh in Ha;
    [|by simplify_eq].
  destruct (ah_await _ _ _) as [w2 outcome] eqn:Hout. simplify_eq.
  destruct outcome; simplify_eq. split_and!; [done| |done..].
  right. eexists request, handler, _. split_and!; [done..|]. by rewrite Hout.
Qed.

Lemma keeps_run_call I s call : quiet s I → keeps I s (run_call s call).
Proof.
  intros Hq. unfold run_call. pose proof (keeps_authorize I s call Hq) as Hk.
  destruct (authorize s call) as [s1 [err targets]] eqn:Ha. simpl in Hk.
  destruct (confirm s1 call err targets) as [reason|] eqn:Hc.
  { eapply keeps_then; [exact Hk|]. intros Hs. apply keeps_record. by eapply quiet_same. }
  destruct call as [[call_id name] input]. simpl in Hc. destruct err; [done|].
  destruct (confirm_targets _ _ _ _ _) as [|[]] eqn:Hconf; [done|].
  pose proof Hk as [Hsame _]. unfold execute.
  eapply keeps_then; [exact Hk|]. intros Hs.
  assert (Hq1 : quiet s1 I) by (by eapply quiet_same).
  set (s2 := send_ui_event s1 _).
  destruct (dispatch_in_thread _ _ _ _ _) as [w result] eqn:Hd.
  eapply (keeps_then _ _ (s2 <| as_world := w |>)); [|intros ?; apply keeps_record; by eapply quiet_same].
  split; simpl; [by split|]. intros HI. apply (qu_yield s1 I Hq1) in HI.
  unfold dispatch_in_thread, dispatch in Hd. simpl in Hd.
  destruct (tr_tools (as_tools s1) !! name) as [tool|] eqn:Ht; [|by simplify_eq].
  assert (Hcl : cleared s1 (yield (as_world s1)) name input).
  { destruct Hs. pose proof (authorize_cleared s s1 call_id name input targets (as_world s1) Ha) as Hcl.
    rewrite <- sm_tools0 in Hcl. specialize (Hcl Hconf). unfold cleared in *.
    by rewrite sm_tools0, sm_handler0, sm_session0, sm_thread0. }
  pose proof (qu_handler s1 I Hq1 _ name input tool Ht Hcl HI) as HI'. unfold dispatched in HI'.
  destruct (rt_handler tool _ _) as [w3 out]. by simplify_eq.
Qed.

Lemma keeps_calls I s calls : quiet s I → keeps I s (fold_left run_call calls s).
Proof.
  revert s. induction calls as [|call calls IH]; intros s Hq; [reflexivity|]. simpl.
  eapply keeps_then; [by apply keeps_run_call|]. intros Hs. apply IH. by eapply quiet_same.
Qed.

Lemma keeps_assistant I s rd : quiet s I → keeps I s (push_assistant_text s rd).
Proof.
  intros Hq. unfold push_assistant_text. destruct (String.eqb _ _); [reflexivity|].
  destruct (rd_text_done_seen rd); [apply keeps_push|].
  eapply keeps_then; [apply keeps_push|]. intros Hs. apply keeps_send_ui. by eapply quiet_same.
Qed.

(** The part of a round after its stream opened. *)
Definition after_open s (events : list AgentEvent) : AgentSession W * RoundOutcome :=
  let '(s, collected) := collect s round_new events in
  match collected with
  | inl error => (s, TurnFailed error)
  | inr rd =>
      if negb (rd_clean_terminal_seen rd) || rd_terminal_rejected rd
      then (reset_chain s, TurnFailed no_clean_terminal)
      else
        let s := push_assistant_text s rd in
        match ready_calls (rd_pending_calls rd) (rd_tool_call_order rd) with
        | inl error => (s, TurnFailed error)
        | inr [] => (send_ui_event (s <| as_retrieved_context := None |>) UiDone, TurnDone)
        | inr calls =>
            let s := push_message s RoleAssistant (map tool_use_block calls) in
            (fold_left run_call calls s, TurnContinues)
        end
  end.

Lemma round_after_open s options :
  round s options =
  let '(s, opened) := stream_with_retry s (definitions (as_tools s)) options in
  match opened with
  | inl _ => (s, TurnFailed ("Failed to start '" +:+ pv_name (as_provider s) +:+ "' streaming")%string)
  | inr events => after_open s events
  end.
Proof. done. Qed.

Lemma keeps_after_open I s events : quiet s I → keeps I s (fst (after_open s events)).
Proof.
  intros Hq. unfold after_open. pose proof (keeps_collect I s round_new events Hq) as Hk.
  destruct (collect s round_new events) as [s1 [error|rd]]; [done|]. simpl in Hk.
  eapply keeps_then; [exact Hk|]. intros Hs1. assert (Hq1 : quiet s1 I) by (by eapply quiet_same).
  destruct (_ || _); [by apply keeps_reset|].
  eapply keeps_then; [by apply (keeps_assistant I s1 rd)|]. intros Hs2.
  assert (Hq2 : quiet (push_assistant_text s1 rd) I) by (by eapply quiet_same).
  destruct (ready_calls _ _) as [error|[|c cs]]; simpl; [reflexivity| |].
  - split; [by split|]. apply (qu_yield _ I Hq2).
  - eapply keeps_then; [apply keeps_push|]. intros Hs3.
    eapply keeps_then; [apply keeps_run_call; by eapply quiet_same|]. intros Hs4.
    apply keeps_calls. eapply quiet_same; [exact Hs4|]. by eapply quiet_same.
Qed.

Lemma keeps_open I s retries defs options :
  quiet s I →
  (∀ w messages defs options, I w → I (fst (pv_stream (as_provider s) w messages defs options))) →
  keeps I s (fst (open_stream retries s defs options)).
Proof.
  revert s. induction retries as [|retries IH]; intros s Hq Hst; simpl;
    destruct (pv_stream _ _ _ _ _) as [w [error|events]] eqn:Hp;
    (assert (Hk : keeps I s (s <| as_world := w |>));
     [split; [by split|]; intros HI; eapply Hst in HI; by rewrite Hp in HI|]); try done.
  destruct (is_transient_stream_start_error error); [|done].
  eapply keeps_then; [exact Hk|]. intros Hs.
  assert (Hk2 : keeps I (s <| as_world := w |>) (s <| as_world := w |> <| as_world ::= yield |>)).
  { split; [by split|]. apply (qu_yield s I Hq). }
  eapply keeps_then; [exact Hk2|]. intros Hs2.
  apply IH; [eapply quiet_same; [exact Hs2|]; by eapply quiet_same|done].
Qed.

Lemma keeps_rounds I n s options :
  quiet s I →
  (∀ w messages defs options, I w → I (fst (pv_stream (as_provider s) w messages defs options))) →
  keeps I s (fst (rounds n s options)).
Proof.
  revert s. induction n as [|n IH]; intros s Hq Hst; [simpl; reflexivity|].
  assert (Hk : keeps I s (fst (round s options))).
  { rewrite round_after_open. unfold stream_with_retry.
    pose proof (keeps_open I s (AGENT_STREAM_START_RETRY_MAX_ATTEMPTS - 1) (definitions (as_tools s)) options
      Hq Hst) as Hk.
    destruct (open_stream _ _ _ _) as [s1 [error|events]]; [done|]. simpl in Hk.
    eapply keeps_then; [exact Hk|]. intros Hs. apply keeps_after_open. by eapply quiet_same. }
  simpl. destruct (round s options) as [s1 outcome]. simpl in Hk.
  destruct outcome; [done| |done].
  eapply keeps_then; [exact Hk|]. intros Hs. apply IH; [by eapply quiet_same|].
  destruct Hs. by rewrite sm_provider0.
Qed.

(** C34: Whatever a turn's provider, tools and operator do, the handler of a
    tool only ever runs on a call the gate allowed or whose card the operator
    approved, with the targets it was judged on still the ones it resolves to
    one yield before: a property of the world that such runs and everything
    else keep is kept by the turn. *)
Theorem only_cleared_calls_run (I : W → Prop) s user_text attachments options :
  quiet s I →
  (∀ w messages defs options, I w → I (fst (pv_stream (as_provider s) w messages defs options))) →
  I (as_world s) → I (as_world (fst (send s user_text attachments options))).
Proof.
  intros Hq Hst HI. unfold send.
  assert (Hk : keeps I s (push_message s RoleUser (user_content s user_text attachments)))
    by apply keeps_push.
  eapply keeps_rounds; [by eapply quiet_same; [apply Hk|]|done|by apply Hk].
Qed.

(* ------------------------------------------------------------------ *)
(** ** How much a turn may ask *)

Lemma open_bounded (cost : W → nat) retries s defs options :
  (∀ k, quiet s (λ w, (cost w ≤ k)%nat)) →
  (∀ w messages defs options,
     (cost (fst (pv_stream (as_provider s) w messages defs options)) ≤ S (cost w))%nat) →
  (cost (as_world (fst (open_stream retries s defs options))) ≤ cost (as_world s) + S retries)%nat.
Proof.
  revert s. induction retries as [|retries IH]; intros s Hq Hst; simpl;
    (destruct (pv_stream _ _ _ _ _) as [w opened] eqn:Hp;
     assert (Hw : (cost w ≤ S (cost (as_world s)))%nat)
       by (eapply (f_equal fst) in Hp; simpl in Hp; rewrite <- Hp; apply Hst));
    destruct opened as [error|events]; simpl; try lia.
  destruct (is_transient_stream_start_error error); simpl; [|lia].
  pose proof (qu_yield s _ (Hq (cost w)) w (Nat.le_refl _)) as Hy.
  set (s1 := s <| as_world := w |> <| as_world ::= yield |>).
  assert (Hs1 : same_session s s1) by (by split).
  specialize (IH s1). simpl in IH. etrans; [apply IH|]; [|done|simpl in *; lia].
  intros k. by eapply quiet_same.
Qed.

Lemma round_bounded (cost : W → nat) s options :
  (∀ k, quiet s (λ w, (cost w ≤ k)%nat)) →
  (∀ w messages defs options,
     (cost (fst (pv_stream (as_provider s) w messages defs options)) ≤ S (cost w))%nat) →
  same_session s (fst (round s options)) ∧
  (cost (as_world (fst (round s options)))
     ≤ cost (as_world s) + AGENT_STREAM_START_RETRY_MAX_ATTEMPTS)%nat.
Proof.
  intros Hq Hst. rewrite round_after_open. unfold stream_with_retry.
  pose proof (open_bounded cost (AGENT_STREAM_START_RETRY_MAX_ATTEMPTS - 1) s (definitions (as_tools s))
    options Hq Hst) as Hb.
  assert (Hs : same_session s (fst (open_stream (AGENT_STREAM_START_RETRY_MAX_ATTEMPTS - 1) s
    (definitions (as_tools s)) options))).
  { apply (keeps_open (λ _, True)); [|done]. split; done. }
  destruct (open_stream _ _ _ _) as [s1 [error|events]]; simpl in *; [done|].
  destruct (keeps_after_open (λ w, (cost w ≤ cost (as_world s1))%nat) s1 events) as [Hs2 Hc].
  { by eapply quiet_same. }
  split; [by etrans|]. etrans; [by apply Hc|]. unfold AGENT_STREAM_START_RETRY_MAX_ATTEMPTS in *. lia.
Qed.

(** Every turn ends after at most [max_iterations] rounds, each of which
    opens its stream at most twice: a cost only opening a stream raises, by one,
    grows by at most twice the loop guard. *)
Theorem turn_opens_bounded (cost : W → nat) s user_text attachments options :
  (∀ k, quiet s (λ w, (cost w ≤ k)%nat)) →
  (∀ w messages defs options,
     (cost (fst (pv_stream (as_provider s) w messages defs options)) ≤ S (cost w))%nat) →
  (cost (as_world (fst (send s user_text attachments options)))
     ≤ cost (as_world s) + as_max_iterations s * AGENT_STREAM_START_RETRY_MAX_ATTEMPTS)%nat.
Proof.
  intros Hq Hst. unfold send. set (s0 := push_message s RoleUser _).
  assert (Hs0 : same_session s s0) by (by split).
  change (as_world s) with (as_world s0).
  assert (Hq0 : ∀ k, quiet s0 (λ w, (cost w ≤ k)%nat)) by (intros; by eapply quiet_same).
  change (as_provider s) with (as_provider s0) in Hst. clearbody s0. clear Hs0 Hq.
  unfold AGENT_STREAM_START_RETRY_MAX_ATTEMPTS in *.
  generalize (as_max_iterations s) as n. intros n. revert s0 Hq0 Hst.
  induction n as [|n IH]; intros s0 Hq0 Hst; [simpl; lia|]. cbn [rounds].
  destruct (round_bounded cost s0 options Hq0 Hst) as [Hs1 Hb].
  unfold AGENT_STREAM_START_RETRY_MAX_ATTEMPTS in Hb.
  destruct (round s0 options) as [s1 outcome]. cbn [fst] in *.
  destruct outcome; cbn [fst]; [lia| |lia].
  etrans; [apply IH|lia].
  - intros k. by eapply quiet_same.
  - destruct Hs1. by rewrite sm_provider0.
Qed.

(* ------------------------------------------------------------------ *)
(** ** What a turn leaves in the history *)

Definition call_id_of (call : ReadyCall) : string := fst (fst call).

(** What a tool's outputs become: text or a stored image. *)
Definition flat_block (b : ContentBlock) : bool :=
  match b with BlockText _ | BlockImageAsset _ => true | _ => false end.

(** A result message for each call, in order. *)
Definition answers s (calls : list ReadyCall) (results : list Message) : Prop :=
  Forall2 (λ call m, ∃ w blocks is_error,
    forallb flat_block blocks = true ∧
    m = pv_build_tool_result (as_provider s) w (call_id_of call) blocks is_error) calls results.

(** At most one assistant message, of non-blank text. *)
Definition assistant_part (l : list Message) : Prop :=
  l = [] ∨ ∃ text ts, l = [mkMessage RoleAssistant [BlockText text] ts] ∧ text ≠ ""%string.

(** What a round that asks for tools appends. *)
Definition tool_round s (l : list Message) : Prop :=
  ∃ text calls ts results,
    assistant_part text ∧ calls ≠ [] ∧ NoDup (map call_id_of calls) ∧
    l = text ++ mkMessage RoleAssistant (map tool_use_block calls) ts :: results ∧
    answers s calls results.

Lemma tool_round_same s s' l : same_session s s' → tool_round s' l → tool_round s l.
Proof.
  intros [] (text & calls & ts & results & ? & ? & ? & ? & Hans). exists text, calls, ts, results.
  split_and!; [done..|]. unfold answers in *. by rewrite <- sm_provider0.
Qed.

Lemma messages_collect s rd events : as_messages (fst (collect s rd events)) = as_messages s.
Proof.
  revert s rd. induction events as [|event events IH]; intros s rd; [done|]. simpl.
  assert (He : as_messages (fst (collect_event s rd event)) = as_messages s)
    by (destruct event; simpl; try done; by destruct (clean && _)).
  destruct (collect_event s rd event) as [s1 [error|rd1]]; [done|]. simpl in He. by rewrite IH.
Qed.

Lemma messages_open s retries defs options :
  as_messages (fst (open_stream retries s defs options)) = as_messages s.
Proof.
  revert s. induction retries as [|retries IH]; intros s; simpl;
    destruct (pv_stream _ _ _ _ _) as [w [error|events]]; try done.
  destruct (is_transient_stream_start_error error); [by rewrite IH|done].
Qed.

Lemma messages_authorize s call : as_messages (fst (authorize s call)) = as_messages s.
Proof.
  destruct call as [[call_id name] input]. unfold authorize.
  destruct (decide_with_targets _ _ _ _ _ _ _ _ _) as [[|request|reason] targets]; [done| |done].
  destruct (as_approval_handler s) as [handler|] eqn:Hh; simpl; rewrite Hh; [|done].
  by destruct (ah_await _ _ _).
Qed.

Lemma content_blocks_flat w outputs : forallb flat_block (snd (content_blocks w outputs)) = true.
Proof.
  revert w. induction outputs as [|output outputs IH]; intros w; [done|]. simpl.
  destruct output as [text|data media_type|asset|message]; simpl;
    try (specialize (IH w); by destruct (content_blocks w outputs)).
  destruct (save_image w data media_type) as [w1 saved]. specialize (IH w1).
  destruct (content_blocks w1 outputs). simpl in *. by destruct saved.
Qed.

Lemma replace_texts_flat first_text index reference content :
  flat_block reference = true → forallb flat_block content = true →
  forallb flat_block (replace_texts first_text index reference content) = true.
Proof.
  intros Hr. revert index. induction content as [|b content IH]; intros index; [done|]. simpl.
  intros [Hb Hc]%andb_true_iff. specialize (IH (S index) Hc).
  destruct b; try done; simpl. destruct (_ =? _)%nat; simpl; by rewrite ?Hr, IH.
Qed.

Lemma spill_content_flat limit w content :
  forallb flat_block content = true →
  forallb flat_block (fst (snd (spill_content write_spill limit w content))) = true.
Proof.
  intros Hc. unfold spill_content. destruct (_ <=? _); [done|]. destruct (write_spill w _) as [w1 persisted].
  by apply replace_texts_flat.
Qed.

Lemma messages_record s call outputs :
  ∃ w blocks is_error,
    forallb flat_block blocks = true ∧
    as_messages (record_result s call outputs) = as_messages s ++
      [pv_build_tool_result (as_provider s) w (call_id_of call) blocks is_error].
Proof.
  destruct call as [[call_id name] input]. unfold record_result.
  pose proof (content_blocks_flat (as_world s) outputs) as Hf.
  destruct (content_blocks (as_world s) outputs) as [w1 blocks].
  pose proof (spill_content_flat (as_inline_limit s) w1 blocks Hf) as Hs.
  destruct (spill_content write_spill (as_inline_limit s) w1 blocks) as [w2 [blocks' res]].
  by eexists w2, blocks', _.
Qed.

Lemma messages_run_call s call :
  same_session s (run_call s call) ∧
  ∃ w blocks is_error,
    forallb flat_block blocks = true ∧
    as_messages (run_call s call) = as_messages s ++
      [pv_build_tool_result (as_provider s) w (call_id_of call) blocks is_error].
Proof.
  assert (Hq : quiet s (λ _, True)) by done.
  split; [by apply (keeps_run_call (λ _, True))|]. unfold run_call.
  destruct (keeps_authorize _ s call Hq) as [Hs _]. pose proof (messages_authorize s call) as Hm.
  destruct (authorize s call) as [s1 [err targets]]. simpl in *. destruct Hs.
  destruct (confirm s1 call err targets).
  - destruct (messages_record s1 call [ResultError s0]) as (w & b & e & Hf & ->).
    rewrite Hm, sm_provider0. by eexists _, _, _.
  - destruct call as [[call_id name] input]. unfold execute.
    destruct (dispatch_in_thread _ _ _ _ _) as [w r]. cbn beta iota zeta.
    match goal with |- context [record_result ?s2 ?c ?o] =>
      destruct (messages_record s2 c o) as (w' & b & e & Hf & ->) end.
    simpl. rewrite Hm, sm_provider0. by eexists _, _, _.
Qed.

Lemma messages_calls s calls :
  same_session s (fold_left run_call calls s) ∧
  ∃ results, as_messages (fold_left run_call calls s) = as_messages s ++ results ∧ answers s calls results.
Proof.
  revert s. induction calls as [|call calls IH]; intros s.
  { split; [simpl; reflexivity|]. exists []. split; [by rewrite app_nil_r|constructor]. }
  simpl. destruct (messages_run_call s call) as (Hs & w & b & e & Hf & Hm).
  destruct (IH (run_call s call)) as (Hs' & results & Hm' & Hans).
  split; [by etrans|]. eexists (_ :: results). rewrite Hm', Hm, <- app_assoc. split; [reflexivity|].
  constructor; [by eexists _, _, _|]. unfold answers in *. destruct Hs. by rewrite sm_provider0 in Hans.
Qed.

(** The calls of a round have distinct identifiers. *)
Definition calls_wf (rd : RoundState) : Prop :=
  NoDup (rd_tool_call_order rd) ∧
  ∀ id call, rd_pending_calls rd !! id = Some call → pc_id call = id.

Lemma note_order_nodup order id : NoDup order → NoDup (note_order order id).
Proof.
  intros Hnd. unfold note_order. destruct (existsb (String.eqb id) order) eqn:He; [done|].
  apply NoDup_app. split_and!; [done| |apply NoDup_singleton].
  intros x Hx Hx'. apply list_elem_of_singleton in Hx' as ->.
  rewrite existsb_false in He. specialize (He id Hx). by rewrite String.eqb_refl in He.
Qed.

Lemma upsert_wf rd id name f :
  (∀ call, pc_id (f call) = pc_id call) → calls_wf rd → calls_wf (upsert_call rd id name f).
Proof.
  intros Hf [Hnd Hid]. split; simpl; [by apply note_order_nodup|].
  intros id' call [[<- <-]|[_ Hc]]%lookup_insert_Some; [|by apply Hid].
  rewrite Hf. destruct (rd_pending_calls rd !! id) eqn:E; simpl; [by apply Hid|done].
Qed.

Lemma collect_wf s rd events s' rd' :
  calls_wf rd → collect s rd events = (s', inr rd') → calls_wf rd'.
Proof.
  revert s rd. induction events as [|event events IH]; intros s rd Hwf; simpl; [by intros; simplify_eq|].
  destruct (collect_event s rd event) as [s1 [error|rd1]] eqn:He; [done|]. apply IH.
  destruct event; simpl in He; simplify_eq; try done; try (by apply upsert_wf).
  destruct (clean && _); by simplify_eq.
Qed.

Lemma ready_ids pending order calls :
  NoDup order → (∀ id call, pending !! id = Some call → pc_id call = id) →
  ready_calls pending order = inr calls →
  NoDup (map call_id_of calls) ∧ ∀ id, id ∈ map call_id_of calls → id ∈ order.
Proof.
  revert pending calls. induction order as [|id order IH]; intros pending calls; simpl.
  { intros _ _ ?. simplify_eq. split; [constructor|done]. }
  intros [Hid Hnd]%NoDup_cons Hwf.
  assert (Hwf' : ∀ i call, delete id pending !! i = Some call → pc_id call = i)
    by (intros i call [_ ?]%lookup_delete_Some; by apply Hwf).
  assert (Hcons : ∀ call arguments rest, pending !! id = Some call →
    ready_calls (delete id pending) order = inr rest →
    NoDup (map call_id_of ((pc_id call, pc_name call, arguments) :: rest)) ∧
    ∀ i, i ∈ map call_id_of ((pc_id call, pc_name call, arguments) :: rest) → i ∈ id :: order).
  { intros call arguments rest Hp Hr. destruct (IH _ _ Hnd Hwf' Hr) as [Hnd' Hin].
    simpl. unfold call_id_of at 1 3. simpl. rewrite (Hwf id call Hp). split.
    - apply NoDup_cons. auto.
    - intros i [->|Hi]%elem_of_cons; [left|right; auto]. }
  destruct (pending !! id) as [call|] eqn:Hp.
  - destruct (pc_arguments call) as [arguments|].
    + destruct (ready_calls (delete id pending) order) eqn:Hr; intros ?; simplify_eq. by apply Hcons.
    + destruct (String.eqb _ _).
      { intros Hr. destruct (IH _ _ Hnd Hwf' Hr) as [? Hin]. split; [done|]. intros i Hi. right. auto. }
      destruct (parse_json _); [done|].
      destruct (ready_calls (delete id pending) order) eqn:Hr; intros ?; simplify_eq. by apply Hcons.
  - intros Hr. destruct (IH _ _ Hnd Hwf Hr) as [? Hin]. split; [done|]. intros i Hi. right. auto.
Qed.

Lemma messages_assistant s rd :
  ∃ text, as_messages (push_assistant_text s rd) = as_messages s ++ text ∧ assistant_part text.
Proof.
  unfold push_assistant_text. destruct (String.eqb_spec (trim (rd_assistant_text rd)) "").
  - exists []. split; [by rewrite app_nil_r|by left].
  - eexists [_]. split; [by destruct (rd_text_done_seen rd)|]. right. by eexists _, _.
Qed.

Lemma same_after_open s events : same_session s (fst (after_open s events)).
Proof. by apply (keeps_after_open (λ _, True)). Qed.

Lemma same_open s retries defs options : same_session s (fst (open_stream retries s defs options)).
Proof. by apply (keeps_open (λ _, True)). Qed.

(** What one round appends, by its outcome. *)
Lemma round_history s options s' outcome :
  round s options = (s', outcome) →
  same_session s s' ∧
  ∃ added, as_messages s' = as_messages s ++ added ∧
    match outcome with
    | TurnContinues => tool_round s added
    | TurnDone => assistant_part added ∧ as_retrieved_context s' = None ∧ last (as_ui s') = Some UiDone
    | TurnFailed _ => assistant_part added
    end.
Proof.
  rewrite round_after_open. unfold stream_with_retry.
  pose proof (same_open s (AGENT_STREAM_START_RETRY_MAX_ATTEMPTS - 1) (definitions (as_tools s)) options) as Hs1.
  pose proof (messages_open s (AGENT_STREAM_START_RETRY_MAX_ATTEMPTS - 1) (definitions (as_tools s)) options) as Hm1.
  destruct (open_stream _ _ _ _) as [s1 [error|events]]; simpl in Hs1, Hm1; intros Hr.
  { simplify_eq. split; [done|]. exists []. rewrite app_nil_r. split; [done|by left]. }
  pose proof (same_after_open s1 events) as Hs2. rewrite Hr in Hs2. simpl in Hs2.
  split; [by etrans|]. unfold after_open in Hr.
  pose proof (messages_collect s1 round_new events) as Hm2.
  destruct (collect s1 round_new events) as [s2 [error|rd]] eqn:Hc; simpl in Hm2.
  { simplify_eq. exists []. rewrite app_nil_r, Hm2. split; [done|by left]. }
  destruct (_ || _).
  { simplify_eq. exists []. rewrite app_nil_r. simpl. rewrite Hm2. split; [done|by left]. }
  assert (Hwf : calls_wf rd) by (eapply collect_wf; [|exact Hc]; split; [constructor|done]).
  destruct (messages_assistant s2 rd) as (text & Hm3 & Htext). rewrite Hm2, Hm1 in Hm3.
  destruct (ready_calls _ _) as [error|[|c cs]] eqn:Hready.
  - simplify_eq. by exists text.
  - simplify_eq. exists text. simpl. split; [done|]. split_and!; [done|done|]. by rewrite last_snoc.
  - set (s3 := push_message _ _ _) in Hr.
    assert (Hs3 : same_session s1 s3).
    { etrans; [|apply (keeps_push (λ _, True))]. etrans; [|by apply (keeps_assistant (λ _, True))].
      pose proof (keeps_collect (λ _, True) s1 round_new events) as Hk. rewrite Hc in Hk. by apply Hk. }
    destruct (messages_calls s3 (c :: cs)) as (_ & results & Hm4 & Hans).
    assert (s' = fold_left run_call (c :: cs) s3) as -> by (by simplify_eq).
    assert (outcome = TurnContinues) as -> by (by simplify_eq). clear Hr.
    eexists. rewrite Hm4. unfold s3 at 1. simpl. rewrite Hm3, <- !app_assoc.
    split; [reflexivity|]. destruct Hwf as [Hnd Hids].
    destruct (ready_ids _ _ _ Hnd Hids Hready) as [Hnodup _].
    exists text, (c :: cs). eexists _, results. split_and!; [done..|reflexivity|].
    unfold answers in *. destruct Hs1, Hs3. by rewrite sm_provider1, sm_provider0 in Hans.
Qed.

Lemma rounds_history n s options s' r :
  rounds n s options = (s', r) →
  ∃ done_rounds tail,
    as_messages s' = as_messages s ++ concat done_rounds ++ tail ∧
    Forall (tool_round s) done_rounds ∧ assistant_part tail ∧ (length done_rounds ≤ n)%nat ∧
    (length done_rounds = n → tail = []) ∧
    (length done_rounds = n → r = inl (loop_guard_error s)) ∧
    (r = inr tt → as_retrieved_context s' = None ∧ last (as_ui s') = Some UiDone).
Proof.
  revert s. induction n as [|n IH]; intros s; cbn [rounds]; intros Hr.
  { simplify_eq. exists [], []. simpl. rewrite app_nil_r. split_and!; [done|done|by left|done|done|done|done]. }
  destruct (round s options) as [s1 outcome] eqn:Hround.
  destruct (round_history s options s1 outcome Hround) as (Hs1 & added & Hm & Hadd).
  destruct outcome as [| |error].
  - simplify_eq. destruct Hadd as (Ha & ? & ?). exists [], added. simpl.
    split_and!; [done|done|done|lia|done|done|done].
  - destruct (IH s1 Hr) as (done_rounds & tail & Hm' & Hall & Ht & Hlen & Hiff & Hguard & Hok).
    exists (added :: done_rounds), tail. simpl. rewrite Hm', Hm, <- !app_assoc.
    split_and!; [done| |done|lia| | |done].
    + constructor; [done|]. eapply Forall_impl; [exact Hall|]. intros l. by apply tool_round_same.
    + intros [= Hl]. by apply Hiff.
    + intros [= Hl]. rewrite (Hguard Hl). unfold loop_guard_error. destruct Hs1. by rewrite sm_max0.
  - simplify_eq. exists [], added. simpl. split_and!; [done|done|done|lia|done|done|done].
Qed.

(** A turn appends the user's message, then whole tool rounds, each the
    model's text, its tool calls under distinct identifiers and one result per
    call in order, then at most one last assistant message.  No more rounds run
    than the guard allows; when they are used up the answer is the loop guard's
    error, and when the answer is Ok the last event is Done. *)
Theorem turn_history s user_text attachments options s' r :
  send s user_text attachments options = (s', r) →
  ∃ ts done_rounds tail,
    as_messages s' = as_messages s ++ mkMessage RoleUser (user_content s user_text attachments) ts
                       :: concat done_rounds ++ tail ∧
    Forall (tool_round s) done_rounds ∧ assistant_part tail ∧
    (length done_rounds ≤ as_max_iterations s)%nat ∧
    (length done_rounds = as_max_iterations s → tail = [] ∧ r = inl (loop_guard_error s)) ∧
    (r = inr tt → as_retrieved_context s' = None ∧ last (as_ui s') = Some UiDone).
Proof.
  unfold send. set (s0 := push_message s RoleUser _). intros Hr.
  destruct (rounds_history _ s0 options s' r Hr) as (rs & tail & Hm & Hall & Ht & Hlen & Hiff & Hguard & Hok).
  eexists _, rs, tail. rewrite Hm. unfold s0 at 1. simpl. rewrite <- app_assoc. simpl.
  split_and!; [reflexivity| |done|done| |done].
  - eapply Forall_impl; [exact Hall|]. intros l. apply tool_round_same. by split.
  - intros Hl. split; [by apply Hiff|by rewrite (Hguard Hl)].
Qed.

(* ------------------------------------------------------------------ *)
(** ** Terminals *)

Definition is_dirty (event : AgentEvent) : bool :=
  match event with EvResponseDone _ false => true | _ => false end.
Definition is_clean (event : AgentEvent) : bool :=
  match event with EvResponseDone _ true => true | _ => false end.
Definition is_failure (event : AgentEvent) : bool :=
  match event with EvError _ => true | _ => false end.

(** An authoritative answer: no error, no dirty terminal, and a clean one. *)
Definition authoritative (events : list AgentEvent) : bool :=
  negb (existsb is_failure events) && negb (existsb is_dirty events) && existsb is_clean events.

(** The response id of the last terminal. *)
Definition last_response_id (before : option string) (events : list AgentEvent) : option string :=
  fold_left (λ id event, match event with EvResponseDone id' _ => id' | _ => id end) events before.

Definition is_streamed (event : AgentUiEvent) : Prop :=
  match event with UiTextDelta _ | UiTextDone _ | UiReasoningDelta _ => True | _ => False end.

Lemma collect_event_ui s rd event :
  ∃ streamed, as_ui (fst (collect_event s rd event)) = as_ui s ++ streamed ∧ Forall is_streamed streamed.
Proof.
  destruct event; simpl; try (eexists [_]; split; [reflexivity|by repeat constructor]);
    try (exists []; by rewrite app_nil_r).
  destruct (clean && _); exists []; by rewrite app_nil_r.
Qed.

Lemma collect_ui s rd events :
  ∃ streamed, as_ui (fst (collect s rd events)) = as_ui s ++ streamed ∧ Forall is_streamed streamed.
Proof.
  revert s rd. induction events as [|event events IH]; intros s rd; [exists []; by rewrite app_nil_r|].
  simpl. destruct (collect_event_ui s rd event) as (l1 & H1 & Hl1).
  destruct (collect_event s rd event) as [s1 [error|rd1]]; simpl in H1; [by exists l1|].
  destruct (IH s1 rd1) as (l2 & -> & Hl2). exists (l1 ++ l2). rewrite H1, app_assoc.
  split; [done|]. by apply Forall_app.
Qed.

(** A stream with an error event fails and clears the chain. *)
Lemma collect_failure s rd events :
  existsb is_failure events = true →
  as_thread_id (fst (collect s rd events)) = None ∧ ∃ error, snd (collect s rd events) = inl error.
Proof.
  revert s rd. induction events as [|event events IH]; intros s rd; [done|]. simpl. intros He.
  destruct event; simpl in *; try (by apply IH).
  - destruct (clean && _); by apply IH.
  - split; [done|]. by eexists.
Qed.

Lemma collect_terminals s rd events :
  existsb is_failure events = false →
  ∃ rd', snd (collect s rd events) = inr rd' ∧
    rd_terminal_rejected rd' = rd_terminal_rejected rd || existsb is_dirty events ∧
    (rd_terminal_rejected rd' = false →
       rd_clean_terminal_seen rd' = rd_clean_terminal_seen rd || existsb is_clean events ∧
       as_thread_id (fst (collect s rd events)) = last_response_id (as_thread_id s) events).
Proof.
  revert s rd. induction events as [|event events IH]; intros s rd; simpl; intros He.
  { exists rd. by rewrite !orb_false_r. }
  destruct event; simpl in *; try done; try (exact (IH _ _ He)).
  destruct clean; simpl.
  - destruct (rd_terminal_rejected rd) eqn:Hrej; simpl.
    + destruct (IH (reset_chain s) (rd <| rd_terminal_rejected := true |>) He) as (rd' & ? & Hd & ?).
        exists rd'. split; [done|]. simpl in Hd. split; [by rewrite Hd|]. rewrite Hd. done.
    + destruct (IH (s <| as_thread_id := response_id |>) (rd <| rd_clean_terminal_seen := true |>) He)
          as (rd' & ? & Hd & Hc). exists rd'. simpl in Hd. rewrite Hrej in Hd. split_and!; [done|done|].
        intros Hr. destruct (Hc Hr) as [-> ->]. simpl. by rewrite orb_true_r.
  - destruct (IH (reset_chain s) (rd <| rd_terminal_rejected := true |>) He) as (rd' & ? & Hd & ?).
    exists rd'. simpl in Hd. rewrite orb_true_r, Hd. split_and!; done.
Qed.

Lemma thread_run_call s call : as_thread_id (run_call s call) = as_thread_id s.
Proof.
  assert (Ha : as_thread_id (fst (authorize s call)) = as_thread_id s).
  { destruct call as [[call_id name] input]. unfold authorize.
    destruct (decide_with_targets _ _ _ _ _ _ _ _ _) as [[|request|reason] targets]; [done| |done].
    destruct (as_approval_handler s) as [handler|] eqn:Hh; simpl; rewrite Hh; [|done].
    by destruct (ah_await _ _ _). }
  assert (Hr : ∀ s0 c outputs, as_thread_id (record_result s0 c outputs) = as_thread_id s0).
  { intros s0 [[cid name] input] outputs. unfold record_result.
    destruct (content_blocks _ _) as [w1 bs]. by destruct (spill_content _ _ _ _) as [w2 [bs' res]]. }
  unfold run_call. destruct (authorize s call) as [s1 [err targets]]. simpl in Ha.
  destruct (confirm s1 call err targets); [by rewrite Hr|].
  destruct call as [[call_id name] input]. unfold execute.
  destruct (dispatch_in_thread _ _ _ _ _) as [w r]. cbn beta iota zeta. by rewrite Hr.
Qed.

Lemma thread_calls s calls : as_thread_id (fold_left run_call calls s) = as_thread_id s.
Proof.
  revert s. induction calls as [|call calls IH]; intros s; [done|].
  simpl. by rewrite IH, thread_run_call.
Qed.

Lemma thread_assistant s rd : as_thread_id (push_assistant_text s rd) = as_thread_id s.
Proof. unfold push_assistant_text. destruct (String.eqb _ _), (rd_text_done_seen rd); done. Qed.

(** C36: Only an authoritative answer counts.  A stream with an error, a dirty
    terminal or no clean terminal fails the turn: no message is added, the chain
    is cleared, and the UI has seen streamed text only, no tool and no Done.
    Otherwise the chain advances to the last response, and the round fails only
    on arguments that are not JSON. *)
Theorem clean_terminal_required s options s1 events s' outcome :
  stream_with_retry s (definitions (as_tools s)) options = (s1, inr events) →
  round s options = (s', outcome) →
  if authoritative events
  then as_thread_id s' = last_response_id (as_thread_id s1) events ∧
    ∀ error, outcome = TurnFailed error →
      ∃ name reason,
        error = ("Failed to parse tool arguments for '" +:+ name +:+ "': " +:+ reason)%string
  else (∃ error, outcome = TurnFailed error) ∧ as_messages s' = as_messages s ∧
    as_thread_id s' = None ∧
    ∃ streamed, as_ui s' = as_ui s1 ++ streamed ∧ Forall is_streamed streamed.
Proof.
  intros Hopen. rewrite round_after_open, Hopen.
  assert (Hm1 : as_messages s1 = as_messages s).
  { pose proof (messages_open s (AGENT_STREAM_START_RETRY_MAX_ATTEMPTS - 1)
      (definitions (as_tools s)) options) as Hm. unfold stream_with_retry in Hopen. by rewrite Hopen in Hm. }
  unfold after_open, authoritative. pose proof (messages_collect s1 round_new events) as Hm2.
  destruct (collect_ui s1 round_new events) as (streamed & Hui & Hst).
  destruct (existsb is_failure events) eqn:Hf; simpl.
  { destruct (collect_failure s1 round_new events Hf) as (Hth & error & Herr).
    destruct (collect s1 round_new events) as [s2 r]. simpl in *. subst r. intros ?. simplify_eq.
    split_and!; [by eexists|congruence|done|by exists streamed]. }
  destruct (collect_terminals s1 round_new events Hf) as (rd & Hrd & Hrej & Hclean).
  destruct (collect s1 round_new events) as [s2 r]. simpl in *. subst r.
  assert (Hfail : ∀ P : bool, P = true → (if P then (reset_chain s2, TurnFailed no_clean_terminal)
      else (s2, TurnDone)) = (reset_chain s2, TurnFailed no_clean_terminal)) by (by intros [] ?).
  destruct (existsb is_dirty events) eqn:Hdirty; simpl.
  { rewrite Hrej, orb_true_r. intros ?. simplify_eq. simpl.
    split_and!; [by eexists|congruence|done|by exists streamed]. }
  destruct (Hclean Hrej) as [Hseen Hth]. rewrite Hrej, Hseen, orb_false_r.
  destruct (existsb is_clean events) eqn:Hcl; simpl.
  2:{ intros ?. simplify_eq. simpl. split_and!; [by eexists|congruence|done|by exists streamed]. }
  assert (Herr : ∀ order pending error, ready_calls pending order = inl error → ∃ name reason,
    error = ("Failed to parse tool arguments for '" +:+ name +:+ "': " +:+ reason)%string).
  { induction order as [|id order IH]; intros pending error; simpl; [done|].
    destruct (pending !! id) as [call|]; [|by apply IH].
    destruct (pc_arguments call) as [arguments|].
    - destruct (ready_calls _ order) eqn:E; intros ?; simplify_eq. by eapply IH.
    - destruct (String.eqb _ _); [by apply IH|]. destruct (parse_json _).
      + intros [= <-]. by eexists _, _.
      + destruct (ready_calls _ order) eqn:E; intros ?; simplify_eq. by eapply IH. }
  destruct (ready_calls _ _) as [error|[|c cs]] eqn:Hready; intros Hr.
  - simplify_eq. rewrite thread_assistant. split; [done|]. intros e ?. simplify_eq. by eapply Herr.
  - simplify_eq. split; [by simpl; rewrite thread_assistant|done].
  - assert (s' = fold_left run_call (c :: cs)
      (push_message (push_assistant_text s2 rd) RoleAssistant (map tool_use_block (c :: cs)))) as ->
      by (by simplify_eq).
    assert (outcome = TurnContinues) as -> by (by simplify_eq).
    rewrite thread_calls. simpl. by rewrite thread_assistant.
Qed.
End facts.

(* ------------------------------------------------------------------ *)
(** ** A concrete turn *)

(** The world counts the streams opened and the tools run. *)
Record ExWorld := mkExWorld { ex_streams : nat; ex_runs : nat }.

#[global] Instance ex_machine : Machine ExWorld := {|
  store_of _ := mkPermStore None GrantsMissing;
  clock _ := 0;
  yield w := w;
  save_image w _ _ := (w, inl "no disk"%string);
  write_spill w _ := (w, inl "no disk"%string);
  parse_json _ := inl "not JSON"%string;
  print_json _ := ""%string;
  pretty_json _ := ""%string;
  to_lowercase s := s
|}.

(** The first answer asks for one tool, the second is plain text. *)
Definition ex_provider (tool : string) : AgentProvider ExWorld := {|
  pv_name := "model";
  pv_stream w _ _ _ :=
    (mkExWorld (S (ex_streams w)) (ex_runs w),
     inr (if (ex_streams w =? 0)%nat
          then [EvToolCallReady "c1" tool VNull; EvResponseDone (Some "r1") true]
          else [EvTextDone "done"; EvResponseDone (Some "r2") true])%string);
  pv_build_tool_result _ id blocks is_error :=
    mkMessage RoleUser [BlockToolResult id blocks is_error] None;
  pv_build_image_block data media_type := BlockImage data media_type;
  pv_response_chain_id _ := None;
  pv_restore_response_chain w _ := w
|}.

Definition ex_look : RegisteredTool ExWorld :=
  mkRegistered (mkToolDefinition "look" "" VNull)
    (λ w _, (mkExWorld (ex_streams w) (S (ex_runs w)), [ResultText "seen"]))
    (policy_native ReadOnly) None.

(** A tool that asks, in a session nobody answers. *)
Definition ex_wipe : RegisteredTool ExWorld :=
  mkRegistered (mkToolDefinition "wipe" "" VNull)
    (λ w _, (mkExWorld (ex_streams w) (S (ex_runs w)), [ResultText "gone"]))
    (policy_native Mutating) None.

Definition ex_session (name : string) (tool : RegisteredTool ExWorld) : AgentSession ExWorld :=
  session_new (ex_provider name) (registry_new <| tr_tools := {[ name := tool ]} |>) None "s1"
    (mkExWorld 0 0).

Definition ex_options : StreamOptions := mkStreamOptions "m" None None None false.

Definition ex_turn (name : string) (tool : RegisteredTool ExWorld)
    : AgentSession ExWorld * (string + unit) :=
  send (ex_session name tool) "hello" [] ex_options.

Lemma ex_quiet_look (I : ExWorld → Prop) :
  (∀ w w', ex_streams w = ex_streams w' → I w → I w') → quiet (ex_session "look" ex_look) I.
Proof.
  intros HI. split; try done. intros w name input tool Ht _ Hw. simpl in Ht.
  apply lookup_singleton_Some in Ht as [<- <-]. simpl. by apply (HI w).
Qed.

Lemma ex_quiet_wipe : quiet (ex_session "wipe" ex_wipe) (λ w, ex_runs w = 0%nat).
Proof.
  split; try done. intros w name input tool Ht Hc _. exfalso. simpl in Ht.
  apply lookup_singleton_Some in Ht as [<- <-].
  destruct Hc as (cid & w0 & targets & d & w' & Hd & Hok & _).
  vm_compute in Hd. simplify_eq. by destruct Hok as [?|(? & ? & ? & ? & ? & ?)].
Qed.

(** The model asks for the wipe, the turn goes on, the wipe never runs. *)
Lemma only_cleared_calls_run_witness :
  snd (ex_turn "wipe" ex_wipe) = inr tt ∧ ex_runs (as_world (fst (ex_turn "wipe" ex_wipe))) = 0%nat.
Proof.
  split; [by vm_compute|]. unfold ex_turn.
  pose proof (only_cleared_calls_run (λ w, ex_runs w = 0%nat) (ex_session "wipe" ex_wipe) "hello" []
    ex_options ex_quiet_wipe) as H. cbv beta in H. apply H.
  - intros w messages defs options Hw. exact Hw.
  - reflexivity.
Defined.

Lemma turn_opens_bounded_witness :
  let s := ex_session "look" ex_look in
  (ex_streams (as_world (fst (send s "hello" [] ex_options)))
     ≤ ex_streams (as_world s) + as_max_iterations s * AGENT_STREAM_START_RETRY_MAX_ATTEMPTS)%nat.
Proof.
  intros s.
  pose proof (turn_opens_bounded ex_streams s "hello" [] ex_options) as H. apply H.
  - intros k. apply ex_quiet_look. intros w w' Hw Hk. by rewrite <- Hw.
  - intros w messages defs options. apply Nat.le_refl.
Defined.

Lemma turn_history_witness :
  snd (ex_turn "look" ex_look) = inr tt ∧ ex_runs (as_world (fst (ex_turn "look" ex_look))) = 1%nat ∧
  ∃ ts done_rounds tail,
    as_messages (fst (ex_turn "look" ex_look))
      = mkMessage RoleUser [BlockText "hello"%string] ts :: concat done_rounds ++ tail.
Proof.
  split; [by vm_compute|]. split; [by vm_compute|].
  destruct (turn_history (ex_session "look" ex_look) "hello" [] ex_options
    (fst (ex_turn "look" ex_look)) (snd (ex_turn "look" ex_look))) as (ts & rs & tail & Hm & _).
  - apply surjective_pairing.
  - by exists ts, rs, tail.
Defined.

Lemma clean_terminal_required_witness :
  as_thread_id (fst (round (ex_session "look" ex_look) ex_options)) = Some "r1"%string.
Proof.
  set (s := ex_session "look" ex_look).
  assert (Ho : stream_with_retry s (definitions (as_tools s)) ex_options
    = (fst (stream_with_retry s (definitions (as_tools s)) ex_options),
       inr [EvToolCallReady "c1" "look" VNull; EvResponseDone (Some "r1") true]%string)) by (by vm_compute).
  pose proof (clean_terminal_required s ex_options _ _ (fst (round s ex_options))
    (snd (round s ex_options)) Ho (surjective_pairing _)) as H.
  apply H.
Defined.
