(* ===== verification/ConsultationJournal.v ===== *)
(** ConsultationJournal: the crash boundary of consultation execution
    (core/agent/thread_store/consultation.rs, and the owner loop of
    core/agent/consultation.rs that drives it).

    The journal is written whole at every change.  A write may reach the disk,
    fail before it does, or reach it and still report failure; the outcomes of
    the writes to come are part of the world.  A process may stop between any
    two operations; the disk keeps what it holds. *)

From S2P Require Import Prelude.
From S2P Require Import Text.
From S2P Require Import Json.
From S2P Require Import AgentGate.
From S2P Require Import AgentTypes.
From S2P Require Import AgentTurn.

Record QueuedInstruction := mkQueued {
  qi_turn_id : string;
  qi_input : Message;
  qi_provider_name : string;
  qi_options : Value;
  qi_group : option Value
}.

Record AdmissionState := mkAdmission {
  ad_completed : gset string;
  ad_pending : option string;
  ad_queued : list QueuedInstruction;
  ad_abandoned : gset string
}.

Definition admission_default : AdmissionState := mkAdmission ∅ None [] ∅.

Definition DROPPED_PREVIEW_CHARS : nat := 120.

Record DroppedInput := mkDropped {
  di_turn_id : string;
  di_text_preview : string
}.

Record ConsultationRecovery := mkRecovery {
  rv_abandoned_turn_id : option string;
  rv_dropped_inputs : list DroppedInput;
  rv_reason : string
}.

Definition text_block (b : ContentBlock) : option string :=
  match b with BlockText t => Some t | _ => None end.

Definition role_eqb (a b : Role) : bool :=
  match a, b with
  | RoleUser, RoleUser | RoleAssistant, RoleAssistant | RoleSystem, RoleSystem => true
  | _, _ => false
  end.

Definition dropped_input (entry : QueuedInstruction) : DroppedInput :=
  let preview :=
    if role_eqb (ms_role (qi_input entry)) RoleUser then
      trim_end (take_chars DROPPED_PREVIEW_CHARS
        (join_space (split_whitespace (join_space (omap text_block (ms_content (qi_input entry)))))))
    else ""%string in
  mkDropped (qi_turn_id entry) preview.

(* ------------------------------------------------------------------ *)
(** ** The journal on its disk *)

(** The file: absent, not readable as a journal, or a state. *)
Inductive JournalFile :=
  | FileAbsent
  | FileCorrupt
  | FileHolds (state : AdmissionState).

Inductive WriteOutcome := Written | NotWritten | WrittenUnproved.

Inductive JournalError :=
  | RequiresRecovery
  | IdentityRequired
  | RefusingReplay
  | PotentiallyExecuted
  | OutOfOrder
  | AlreadyExecuting
  | NotTheFront
  | IdentityMismatch
  | WriteUncertain
  | Corrupt
  | AlreadyOwned
  | InvalidIdentity
  | NotSourceContent.

Record Journal := mkJournal {
  jn_state : AdmissionState;
  jn_recovery_reason : option string;
  jn_recovery : option ConsultationRecovery
}.

(** A journal with its file and the outcomes of the writes to come; when none
    is listed a write succeeds. *)
Record Desk := mkDesk {
  dk_journal : Journal;
  dk_file : JournalFile;
  dk_writes : list WriteOutcome
}.

Definition set_state (f : AdmissionState → AdmissionState) (d : Desk) : Desk :=
  d <| dk_journal ::= (λ j, j <| jn_state ::= f |>) |>.

Definition desk_state (d : Desk) : AdmissionState := jn_state (dk_journal d).

Definition require_recovery (reason : string) (d : Desk) : Desk :=
  d <| dk_journal ::= (λ j, j <| jn_recovery_reason ::=
         (λ r, match r with Some _ => r | None => Some reason end) |>) |>.

Definition next_write (d : Desk) : WriteOutcome :=
  match dk_writes d with [] => Written | w :: _ => w end.

(** [persist_json] of the state, and the reason kept when it fails. *)
Definition journal_persist (d : Desk) : Desk * (JournalError + unit) :=
  let holds := FileHolds (desk_state d) in
  let after := d <| dk_writes ::= tail |> in
  match next_write d with
  | Written => (after <| dk_file := holds |>, inr tt)
  | NotWritten => (require_recovery "consultation journal write uncertain" after, inl WriteUncertain)
  | WrittenUnproved =>
      (require_recovery "consultation journal write uncertain" (after <| dk_file := holds |>), inl WriteUncertain)
  end.

Definition recovery_reason (d : Desk) : option string := jn_recovery_reason (dk_journal d).

Definition take_recovery (d : Desk) : Desk * option ConsultationRecovery :=
  (d <| dk_journal ::= (λ j, j <| jn_recovery := None |>) |>, jn_recovery (dk_journal d)).

Definition has_completed_turns (d : Desk) : bool :=
  negb (bool_decide (ad_completed (desk_state d) = ∅)).

Definition blank_id (turn : string) : bool := trim_is_empty turn.

(** [queued.first().is_some_and(…)]. *)
Definition front_is (turn : string) (s : AdmissionState) : bool :=
  match ad_queued s with
  | [] => false
  | entry :: _ => String.eqb (qi_turn_id entry) turn
  end.

Definition queued_ids (s : AdmissionState) : list string := map qi_turn_id (ad_queued s).

Definition abandon_unfinished (reason : string) (d : Desk)
    : Desk * (JournalError + option ConsultationRecovery) :=
  let s := desk_state d in
  if bool_decide (ad_pending s = None) && bool_decide (queued_ids s = []) then (d, inr None)
  else
    let abandoned_turn_id := ad_pending s in
    let dropped := ad_queued s in
    let retired := match abandoned_turn_id with Some turn => {[ turn ]} | None => ∅ end in
    let d1 := set_state (λ s, s <| ad_pending := None |> <| ad_queued := [] |>
                                <| ad_abandoned ::= (λ a, retired ∪ a) |>) d in
    match journal_persist d1 with
    | (d2, inl error) =>
        (set_state (λ s, s <| ad_abandoned ::= (λ a, a ∖ retired) |>
                           <| ad_queued := dropped |> <| ad_pending := abandoned_turn_id |>) d2, inl error)
    | (d2, inr tt) =>
        (d2, inr (Some (mkRecovery abandoned_turn_id (map dropped_input dropped) reason)))
    end.

Definition accept_input (input : QueuedInstruction) (d : Desk) : Desk * (JournalError + unit) :=
  let s := desk_state d in
  let turn := qi_turn_id input in
  if bool_decide (is_Some (recovery_reason d)) then (d, inl RequiresRecovery)
  else if blank_id turn then (d, inl IdentityRequired)
  else if bool_decide (turn ∈ ad_completed s) || bool_decide (turn ∈ ad_abandoned s)
          || existsb (λ entry, String.eqb (qi_turn_id entry) turn) (ad_queued s)
  then (d, inl RefusingReplay)
  else journal_persist (set_state (λ s, s <| ad_queued ::= (λ q, q ++ [input]) |>) d).

Definition discard_unstarted (turn : string) (d : Desk) : Desk * (JournalError + unit) :=
  let s := desk_state d in
  if bool_decide (is_Some (recovery_reason d)) then (d, inl RequiresRecovery)
  else if bool_decide (is_Some (ad_pending s)) then (d, inl PotentiallyExecuted)
  else if negb (front_is turn s) then (d, inl OutOfOrder)
  else
    match journal_persist (set_state (λ s, s <| ad_queued ::= tail |>) d) with
    | (d2, inl error) => (set_state (λ s, s <| ad_queued ::= (λ q, take 1 (ad_queued (desk_state d)) ++ q) |>) d2, inl error)
    | (d2, inr tt) => (d2, inr tt)
    end.

Definition journal_begin (turn : string) (d : Desk) : Desk * (JournalError + unit) :=
  let s := desk_state d in
  if bool_decide (is_Some (recovery_reason d)) then (d, inl RequiresRecovery)
  else if bool_decide (is_Some (ad_pending s)) then (d, inl AlreadyExecuting)
  else if bool_decide (turn ∈ ad_completed s) || bool_decide (turn ∈ ad_abandoned s) then (d, inl RefusingReplay)
  else if negb (front_is turn s) then (d, inl NotTheFront)
  else journal_persist (set_state (λ s, s <| ad_pending := Some turn |>) d).

Definition journal_complete (turn : string) (d : Desk) : Desk * (JournalError + unit) :=
  let s := desk_state d in
  if bool_decide (is_Some (recovery_reason d)) then (d, inl RequiresRecovery)
  else if negb (bool_decide (ad_pending s = Some turn)) then (d, inl IdentityMismatch)
  else if negb (front_is turn s) then (d, inl NotTheFront)
  else
    match journal_persist (set_state (λ s, s <| ad_queued ::= tail |>
             <| ad_completed ::= (λ c, {[ turn ]} ∪ c) |> <| ad_pending := None |>) d) with
    | (d2, inl error) =>
        (set_state (λ s, s <| ad_pending := Some turn |>
                           <| ad_queued ::= (λ q, take 1 (ad_queued (desk_state d)) ++ q) |>) d2, inl error)
    | (d2, inr tt) => (d2, inr tt)
    end.

(** [ConsultationJournal::open] once the identity is a valid thread id;
    [lock_free] is the kernel's answer. *)
Definition journal_open (lock_free : bool) (file : JournalFile) (writes : list WriteOutcome)
    : JournalFile * list WriteOutcome * (JournalError + Journal) :=
  if negb lock_free then (file, writes, inl AlreadyOwned)
  else
    match file with
    | FileCorrupt => (file, writes, inl Corrupt)
    | _ =>
        let state := match file with FileHolds s => s | _ => admission_default end in
        let d := mkDesk (mkJournal state None None) file writes in
        match abandon_unfinished "owner restarted before the turn finished" d with
        | (d2, inl error) => (dk_file d2, dk_writes d2, inl error)
        | (d2, inr recovery) =>
            (dk_file d2, dk_writes d2, inr ((dk_journal d2) <| jn_recovery := recovery |>))
        end
    end.

(* ------------------------------------------------------------------ *)
(** ** Reading without owning *)

Record ConsultationInputSnapshot := mkSnapshot {
  sn_turn_id : string;
  sn_input : Message;
  sn_provider_name : string
}.

Record ConsultationRecoverySnapshot := mkRecoverySnapshot {
  sn_consultation_id : string;
  sn_pending_turn_id : option string;
  sn_retained_inputs : list ConsultationInputSnapshot
}.

Definition is_source_block (b : ContentBlock) : bool :=
  match b with BlockText _ | BlockImage _ _ => true | _ => false end.

(** The loop over the retained inputs; [ids] are those seen before. *)
Fixpoint check_retained (completed ids : gset string) (queued : list QueuedInstruction)
    : JournalError + unit :=
  match queued with
  | [] => inr tt
  | entry :: rest =>
      if blank_id (qi_turn_id entry) || bool_decide (qi_turn_id entry ∈ ids)
         || bool_decide (qi_turn_id entry ∈ completed)
      then inl InvalidIdentity
      else if negb (role_eqb (ms_role (qi_input entry)) RoleUser
                    && forallb is_source_block (ms_content (qi_input entry)))
      then inl NotSourceContent
      else check_retained completed ({[ qi_turn_id entry ]} ∪ ids) rest
  end.

Definition check_pending (s : AdmissionState) : JournalError + unit :=
  match ad_pending s with
  | None => inr tt
  | Some pending =>
      if blank_id pending || bool_decide (pending ∈ ad_completed s) then inl InvalidIdentity
      else if bool_decide (queued_ids s = []) || front_is pending s then inr tt
      else inl NotTheFront
  end.

Definition inspect_retained_input (id : string) (file : JournalFile)
    : JournalError + option ConsultationRecoverySnapshot :=
  match file with
  | FileAbsent => inr None
  | FileCorrupt => inl Corrupt
  | FileHolds s =>
      (let? _ := check_retained (ad_completed s) ∅ (ad_queued s) in
       let? _ := check_pending s in
       inr (Some (mkRecoverySnapshot id (ad_pending s)
         (map (λ entry, mkSnapshot (qi_turn_id entry) (qi_input entry) (qi_provider_name entry)) (ad_queued s)))))%mach
  end.

(* ------------------------------------------------------------------ *)
(** ** The owner of a consultation *)

(** What becomes of one queued turn outside the journal: the capture's verdict
    on a spoken candidate, a replaced provider, the installation lease, and the
    turn itself. *)
Record QueuedTurn := mkTurn {
  qt_turn_id : string;
  qt_authorization : option bool;
  qt_preparation : option bool;
  qt_lease : bool;
  qt_run : bool
}.

Inductive OwnerReply :=
  | ReplyRequiresRecovery
  | ReplyRejected
  | ReplyDiscardFailed (error : JournalError)
  | ReplyPreparationFailed
  | ReplyLeaseFailed
  | ReplyBeginFailed (error : JournalError)
  | ReplyTurnFailed
  | ReplyCompleteFailed (error : JournalError)
  | ReplyAnswer.

Definition abandon_after_failure (reason : string) (d : Desk) : Desk :=
  match abandon_unfinished reason d with
  | (d2, inl _) => require_recovery "abandonment failed" d2
  | (d2, inr _) => d2
  end.

(** A turn withdrawn before it began; [settle] handles a failed withdrawal. *)
Definition withdraw (settle : Desk → Desk) (reply : OwnerReply) (turn : string) (d : Desk) : Desk * OwnerReply :=
  match discard_unstarted turn d with
  | (d2, inl error) => (settle d2, ReplyDiscardFailed error)
  | (d2, inr _) => (d2, reply)
  end.

(** [run_owner] up to the begin of the turn: a reply, or the turn runs. *)
Definition start_turn (q : QueuedTurn) (d : Desk) : Desk * option OwnerReply :=
  if bool_decide (is_Some (recovery_reason d)) then (d, Some ReplyRequiresRecovery)
  else if bool_decide (qt_authorization q = Some false) then
    let '(d2, reply) := withdraw (abandon_after_failure "discard failed") ReplyRejected (qt_turn_id q) d in
    (d2, Some reply)
  else if bool_decide (qt_preparation q = Some false) then
    let '(d2, reply) := withdraw (require_recovery "discard failed") ReplyPreparationFailed (qt_turn_id q) d in
    (d2, Some reply)
  else if negb (qt_lease q) then
    let '(d2, reply) := withdraw (abandon_after_failure "discard failed") ReplyLeaseFailed (qt_turn_id q) d in
    (d2, Some reply)
  else
    match journal_begin (qt_turn_id q) d with
    | (d1, inl error) => (abandon_after_failure "begin failed" d1, Some (ReplyBeginFailed error))
    | (d1, inr _) => (d1, None)
    end.

(** [run_owner] from the end of the turn on. *)
Definition finish_turn (q : QueuedTurn) (d : Desk) : Desk * OwnerReply :=
  if negb (qt_run q) then (abandon_after_failure "turn failed" d, ReplyTurnFailed)
  else
    match journal_complete (qt_turn_id q) d with
    | (d2, inl error) => (abandon_after_failure "turn failed" d2, ReplyCompleteFailed error)
    | (d2, inr _) => (d2, ReplyAnswer)
    end.

(** A live owner: its journal, its channel and the turn it is running. *)
Record Owner := mkOwner {
  ow_journal : Journal;
  ow_channel : list QueuedTurn;
  ow_running : option QueuedTurn
}.

(** One admitted instruction. *)
Record ConsultationTurn := mkConsultationTurn {
  ct_id : string;
  ct_policy_is_max : bool;
  ct_text : string;
  ct_attachments : list ImageAttachment;
  ct_options : Value;
  ct_provider_name : string
}.

Inductive EnqueueError :=
  | EnqueueNotMax
  | EnqueueNoIdentity
  | EnqueueEmpty
  | EnqueueClosed
  | EnqueueNoRoom
  | EnqueueJournal (error : JournalError).

(** The user message kept for recovery. *)
Definition queued_of (now : Z) (turn : ConsultationTurn) (group : option Value) : QueuedInstruction :=
  mkQueued (ct_id turn)
    (mkMessage RoleUser (BlockText (ct_text turn)
       :: map (λ image, BlockImage (ia_data image) (ia_attachment_type image)) (ct_attachments turn)) (Some now))
    (ct_provider_name turn) (ct_options turn) group.

(** [enqueue_recorded]; [room] is whether a place in the channel was reserved. *)
Definition enqueue_recorded (now : Z) (turn : ConsultationTurn) (group : option Value) (closed room : bool) (d : Desk)
    : Desk * (EnqueueError + unit) :=
  if negb (ct_policy_is_max turn) then (d, inl EnqueueNotMax)
  else if blank_id (ct_id turn) then (d, inl EnqueueNoIdentity)
  else if trim_is_empty (ct_text turn) && bool_decide (length (ct_attachments turn) = 0%nat) then (d, inl EnqueueEmpty)
  else if closed then (d, inl EnqueueClosed)
  else if negb room then (d, inl EnqueueNoRoom)
  else
    match accept_input (queued_of now turn group) d with
    | (d2, inl error) => (d2, inl (EnqueueJournal error))
    | (d2, inr _) => (d2, inr tt)
    end.

(** A consultation over the lives of its owners, with the logs of accepted,
    executed and answered turns. *)
Record Consultation := mkConsultation {
  cs_owner : option Owner;
  cs_file : JournalFile;
  cs_accepted : list string;
  cs_executed : list string;
  cs_answered : list string
}.

(** A step with the outcomes of the writes it makes; [StepStop] is the end of
    the process, at any point. *)
Inductive ConsultationStep :=
  | StepOpen (writes : list WriteOutcome)
  | StepEnqueue (now : Z) (turn : ConsultationTurn) (group : option Value) (closed room : bool) (q : QueuedTurn)
      (writes : list WriteOutcome)
  | StepStart (writes : list WriteOutcome)
  | StepFinish (writes : list WriteOutcome)
  | StepStop.

Definition consultation_new : Consultation := mkConsultation None FileAbsent [] [] [].

(** The kernel lock is free when no owner lives. *)
Definition cs_lock_free (c : Consultation) : bool := match cs_owner c with None => true | Some _ => false end.

Definition open_step (c : Consultation) (writes : list WriteOutcome) : Consultation :=
  match journal_open (cs_lock_free c) (cs_file c) writes with
  | (file, _, inl _) => c <| cs_file := file |>
  | (file, _, inr j) => c <| cs_file := file |> <| cs_owner := Some (mkOwner j [] None) |>
  end.

Definition enqueue_step (c : Consultation) (o : Owner) (now : Z) (turn : ConsultationTurn) (group : option Value)
    (closed room : bool) (q : QueuedTurn) (writes : list WriteOutcome) : Consultation :=
  let '(d, result) := enqueue_recorded now turn group closed room (mkDesk (ow_journal o) (cs_file c) writes) in
  let c := c <| cs_file := dk_file d |> in
  match result with
  | inl _ => c <| cs_owner := Some (o <| ow_journal := dk_journal d |>) |>
  | inr _ =>
      c <| cs_owner := Some (o <| ow_journal := dk_journal d |>
             <| ow_channel ::= (λ l, l ++ [q <| qt_turn_id := ct_id turn |>]) |>) |>
        <| cs_accepted ::= (λ l, l ++ [ct_id turn]) |>
  end.

Definition start_step (c : Consultation) (o : Owner) (q : QueuedTurn) (channel : list QueuedTurn)
    (writes : list WriteOutcome) : Consultation :=
  let '(d, reply) := start_turn q (mkDesk (ow_journal o) (cs_file c) writes) in
  let c := c <| cs_file := dk_file d |> in
  match reply with
  | Some _ => c <| cs_owner := Some (mkOwner (dk_journal d) channel None) |>
  | None => c <| cs_owner := Some (mkOwner (dk_journal d) channel (Some q)) |>
              <| cs_executed ::= (λ l, l ++ [qt_turn_id q]) |>
  end.

Definition finish_step (c : Consultation) (o : Owner) (q : QueuedTurn) (writes : list WriteOutcome)
    : Consultation :=
  let '(d, reply) := finish_turn q (mkDesk (ow_journal o) (cs_file c) writes) in
  let c := c <| cs_file := dk_file d |> <| cs_owner := Some (mkOwner (dk_journal d) (ow_channel o) None) |> in
  match reply with
  | ReplyAnswer => c <| cs_answered ::= (λ l, l ++ [qt_turn_id q]) |>
  | _ => c
  end.

Definition consultation_step (c : Consultation) (step : ConsultationStep) : Consultation :=
  match step, cs_owner c with
  | StepOpen writes, _ => open_step c writes
  | StepEnqueue now turn group closed room q writes, Some o => enqueue_step c o now turn group closed room q writes
  | StepStart writes, Some o =>
      match ow_running o, ow_channel o with
      | None, q :: channel => start_step c o q channel writes
      | _, _ => c
      end
  | StepFinish writes, Some o =>
      match ow_running o with
      | Some q => finish_step c o q writes
      | None => c
      end
  | StepStop, _ => c <| cs_owner := None |>
  | _, None => c
  end.

Definition consultation_run (steps : list ConsultationStep) : Consultation :=
  foldl consultation_step consultation_new steps.
