(* ===== verification/ConsultationJournalFacts.v ===== *)
(** ConsultationJournalFacts: no instruction is executed twice, whatever fails
    and whenever the process stops. *)

From S2P Require Import Prelude.
From S2P Require Import Text.
From S2P Require Import Json.
From S2P Require Import AgentGate.
From S2P Require Import AgentTypes.
From S2P Require Import AgentTurn.
From S2P Require Import ConsultationJournal.

(** Turns that began under [s], as far as it can tell. *)
Definition resolved (s : AdmissionState) (t : string) : Prop :=
  t ∈ ad_completed s ∨ t ∈ ad_abandoned s ∨ ad_pending s = Some t.

Definition is_source (entry : QueuedInstruction) : bool :=
  role_eqb (ms_role (qi_input entry)) RoleUser && forallb is_source_block (ms_content (qi_input entry)).

(** The shape of every state that is written. *)
Record clean (s : AdmissionState) : Prop := {
  cl_distinct : NoDup (queued_ids s);
  cl_fresh : ∀ t, t ∈ queued_ids s → blank_id t = false ∧ t ∉ ad_completed s ∧ t ∉ ad_abandoned s;
  cl_front : ∀ t, ad_pending s = Some t → head (queued_ids s) = Some t;
  cl_source : Forall (λ entry, is_source entry = true) (ad_queued s)
}.

Definition known (s : AdmissionState) (executed : list string) : Prop := ∀ t, t ∈ executed → resolved s t.

Definition file_ok (f : JournalFile) (executed : list string) : Prop :=
  match f with
  | FileAbsent => executed = []
  | FileCorrupt => False
  | FileHolds s => known s executed ∧ clean s
  end.

Record good (d : Desk) (executed : list string) : Prop := {
  gd_known : known (desk_state d) executed;
  gd_file : file_ok (dk_file d) executed;
  gd_clean : recovery_reason d = None → clean (desk_state d)
}.

Lemma front_is_head turn s : front_is turn s = true ↔ head (queued_ids s) = Some turn.
Proof.
  unfold front_is, queued_ids. destruct (ad_queued s) as [|e q]; simpl; [done|].
  rewrite String.eqb_eq. naive_solver.
Qed.

(* ------------------------------------------------------------------ *)
(** ** Writing *)

Lemma persist_spec d :
  let '(d2, r) := journal_persist d in
  desk_state d2 = desk_state d ∧
  (dk_file d2 = FileHolds (desk_state d) ∨ dk_file d2 = dk_file d) ∧
  match r with
  | inr _ => dk_file d2 = FileHolds (desk_state d) ∧ recovery_reason d2 = recovery_reason d
  | inl e => e = WriteUncertain ∧ is_Some (recovery_reason d2)
  end.
Proof.
  unfold journal_persist, require_recovery, recovery_reason, desk_state.
  destruct (next_write d); simpl; split_and!; auto.
  all: destruct (jn_recovery_reason (dk_journal d)); by eexists.
Qed.

Lemma persist_good d executed :
  known (desk_state d) executed → clean (desk_state d) → file_ok (dk_file d) executed →
  good (fst (journal_persist d)) executed.
Proof.
  intros Hk Hc Hf. pose proof (persist_spec d) as H. destruct (journal_persist d) as [d2 r].
  destruct H as (Hs & Hfile & _). simpl. constructor; rewrite ?Hs; [done| |done].
  destruct Hfile as [-> | ->]; [by split|done].
Qed.

(** A refused change leaves the state as it was; after a failed write what is
    put back need only know the executed turns. *)
Lemma restored_good d executed f :
  is_Some (recovery_reason d) → file_ok (dk_file d) executed → known (f (desk_state d)) executed →
  good (set_state f d) executed.
Proof. intros [r Hr] Hf Hk. constructor; [done|done|]. intros Hn. unfold recovery_reason in *. simpl in Hn. congruence. Qed.

Lemma queue_tail_clean (s : AdmissionState) :
  clean s → ad_pending s = None → clean (s <| ad_queued ::= tail |>).
Proof.
  intros [Hd Hf _ Hs] Hp. constructor; unfold queued_ids in *; simpl; try congruence.
  - destruct (ad_queued s); simpl in *; [done|by apply NoDup_cons in Hd as [_ ?]].
  - intros t Ht. apply Hf. destruct (ad_queued s); simpl in *; [done|by right].
  - destruct (ad_queued s); simpl in *; [done|by apply Forall_cons in Hs as [_ ?]].
Qed.

Lemma accept_good input d executed :
  is_source input = true → good d executed → good (fst (accept_input input d)) executed.
Proof.
  intros Hsrc G. unfold accept_input.
  destruct (bool_decide (is_Some _)) eqn:Hr; [done|]. apply bool_decide_eq_false in Hr.
  pose proof (proj2 (eq_None_not_Some _) Hr) as Hnone.
  destruct (blank_id _) eqn:Hb; [done|]. destruct (_ || _) eqn:Hin; [done|].
  apply orb_false_iff in Hin as [[Hc%bool_decide_eq_false Ha%bool_decide_eq_false]%orb_false_iff Hq].
  rewrite existsb_false in Hq. destruct (gd_clean _ _ G Hnone) as [Hd Hf Hp Hs].
  apply persist_good; [apply G| |apply G]. simpl.
  constructor; unfold queued_ids in *; simpl; rewrite ?map_app; simpl.
  - apply NoDup_app. split_and!; [done| |apply NoDup_singleton].
    intros t Ht [->|[]%elem_of_nil]%elem_of_cons. apply list_elem_of_fmap in Ht as (e & He & Hin).
    specialize (Hq e Hin). apply String.eqb_neq in Hq. congruence.
  - intros t [Ht|[->|[]%elem_of_nil]%elem_of_cons]%elem_of_app; [by apply Hf|done].
  - intros t Ht. specialize (Hp t Ht). unfold desk_state in *. by destruct (ad_queued (jn_state (dk_journal d))).
  - apply Forall_app. split; [done|by constructor].
Qed.

Lemma discard_good turn d executed : good d executed → good (fst (discard_unstarted turn d)) executed.
Proof.
  intros G. unfold discard_unstarted.
  destruct (bool_decide (is_Some (recovery_reason d))) eqn:Hr; [done|]. apply bool_decide_eq_false in Hr.
  pose proof (proj2 (eq_None_not_Some _) Hr) as Hnone.
  destruct (bool_decide (is_Some (ad_pending _))) eqn:Hp; [done|]. apply bool_decide_eq_false in Hp.
  pose proof (proj2 (eq_None_not_Some _) Hp) as Hpn.
  destruct (negb _); [done|].
  set (d1 := set_state _ d).
  assert (good (fst (journal_persist d1)) executed) as G1.
  { apply persist_good; [apply G| |apply G]. by apply queue_tail_clean; [apply (gd_clean _ _ G)|]. }
  pose proof (persist_spec d1) as Hs. destruct (journal_persist d1) as [d2 [e|[]]]; [|done].
  destruct Hs as (Hs & _ & _ & Hr2). simpl in *. apply restored_good; [done|apply G1|].
  rewrite Hs. apply G.
Qed.

Lemma begin_good turn d executed :
  good d executed →
  match journal_begin turn d with
  | (d2, inl _) => good d2 executed
  | (d2, inr _) => good d2 (executed ++ [turn]) ∧ turn ∉ executed
  end.
Proof.
  intros G. unfold journal_begin.
  destruct (bool_decide (is_Some (recovery_reason d))) eqn:Hr; [done|]. apply bool_decide_eq_false in Hr.
  pose proof (proj2 (eq_None_not_Some _) Hr) as Hnone.
  destruct (bool_decide (is_Some (ad_pending _))) eqn:Hp; [done|]. apply bool_decide_eq_false in Hp.
  pose proof (proj2 (eq_None_not_Some _) Hp) as Hpn.
  destruct (_ || _) eqn:Hin; [done|].
  apply orb_false_iff in Hin as [Hc%bool_decide_eq_false Ha%bool_decide_eq_false].
  destruct (negb (front_is _ _)) eqn:Hfr; [done|]. apply negb_false_iff, front_is_head in Hfr.
  set (d1 := set_state _ d).
  assert (turn ∉ executed) as Hnew.
  { intros Ht. destruct (gd_known _ _ G turn Ht) as [?|[?|?]]; congruence. }
  assert (known (desk_state d1) (executed ++ [turn])) as Hk.
  { intros t [Ht|[->|[]%elem_of_nil]%elem_of_cons]%elem_of_app; [|right; by right].
    destruct (gd_known _ _ G t Ht) as [?|[?|?]]; [by left|right; by left|congruence]. }
  assert (clean (desk_state d1)) as Hcl.
  { destruct (gd_clean _ _ G Hnone) as [H1 H2 _ H4]. constructor; [done|done| |done]. intros t [= <-]. done. }
  assert (good (fst (journal_persist d1)) executed) as G1.
  { apply persist_good; [|done|apply G]. intros t Ht. apply Hk, elem_of_app. by left. }
  pose proof (persist_spec d1) as Hs. destruct (journal_persist d1) as [d2 [e|[]]]; [done|].
  destruct Hs as (Hs & _ & Hfile & _). split; [|done]. constructor; rewrite ?Hs; [done| |done].
  rewrite Hfile. by split.
Qed.

Lemma complete_good turn d executed : good d executed → good (fst (journal_complete turn d)) executed.
Proof.
  intros G. unfold journal_complete.
  destruct (bool_decide (is_Some (recovery_reason d))) eqn:Hr; [done|]. apply bool_decide_eq_false in Hr.
  pose proof (proj2 (eq_None_not_Some _) Hr) as Hnone.
  destruct (negb (bool_decide _)) eqn:Hp; [done|]. apply negb_false_iff, bool_decide_eq_true in Hp.
  destruct (negb (front_is _ _)) eqn:Hfr; [done|]. apply negb_false_iff, front_is_head in Hfr.
  set (d1 := set_state _ d).
  assert (known (desk_state d1) executed) as Hk.
  { intros t Ht. destruct (gd_known _ _ G t Ht) as [?|[?|Hpt]].
    - left. simpl. set_solver.
    - right. by left.
    - left. simpl. rewrite Hp in Hpt. injection Hpt as ->. set_solver. }
  assert (clean (desk_state d1)) as Hcl.
  { destruct (gd_clean _ _ G Hnone) as [H1 H2 _ H4]. unfold queued_ids, d1, desk_state in *.
    destruct (ad_queued (jn_state (dk_journal d))) as [|e q] eqn:Hq; [done|]. simpl in *. injection Hfr as Hfr.
    apply NoDup_cons in H1 as [Hni H1]. apply Forall_cons in H4 as [_ H4].
    constructor; unfold queued_ids; simpl; rewrite ?Hq; simpl; [done| |done|done].
    intros t Ht. destruct (H2 t) as (B & C & A); [by right|]. split_and!; [done| |done].
    intros [->%elem_of_singleton|?]%elem_of_union; [|done]. by rewrite <- Hfr in Ht. }
  assert (good (fst (journal_persist d1)) executed) as G1 by (apply persist_good; [done|done|apply G]).
  pose proof (persist_spec d1) as Hs. destruct (journal_persist d1) as [d2 [e|[]]]; [|done].
  destruct Hs as (Hs & _ & _ & Hr2). simpl in *. apply restored_good; [done|apply G1|].
  intros t Ht. rewrite Hs. destruct (Hk t Ht) as [?|[?|?]]; [by left|right; by left|done].
Qed.

Lemma abandon_good reason d executed : good d executed → good (fst (abandon_unfinished reason d)) executed.
Proof.
  intros G. unfold abandon_unfinished. destruct (_ && _); [done|].
  set (retired := match ad_pending (desk_state d) with Some turn => {[ turn ]} | None => ∅ end).
  set (d1 := set_state _ d).
  assert (known (desk_state d1) executed) as Hk.
  { intros t Ht. destruct (gd_known _ _ G t Ht) as [?|[?|Hp]]; [by left|right; left|right; left].
    - simpl. set_solver.
    - simpl. unfold retired. rewrite Hp. set_solver. }
  assert (clean (desk_state d1)) as Hcl by (constructor; simpl; (apply NoDup_nil_2 || done || set_solver)).
  assert (good (fst (journal_persist d1)) executed) as G1 by (apply persist_good; [done|done|apply G]).
  pose proof (persist_spec d1) as Hs. destruct (journal_persist d1) as [d2 [e|[]]]; [|done].
  destruct Hs as (Hs & _ & _ & Hr2). simpl in *. apply restored_good; [done|apply G1|].
  rewrite Hs. intros t Ht. destruct (gd_known _ _ G t Ht) as [?|[?|Hp]].
  - by left.
  - destruct (base.decide (t ∈ retired)) as [Hin|Hout].
    + right; right. simpl. unfold retired in Hin. destruct (ad_pending (desk_state d)); set_solver.
    + right; left. simpl. set_solver.
  - right; right. done.
Qed.

(* ------------------------------------------------------------------ *)
(** ** The owner *)

Lemma require_good reason d executed : good d executed → good (require_recovery reason d) executed.
Proof.
  intros [H1 H2 H3]. constructor; [done|done|]. unfold require_recovery, recovery_reason in *. simpl.
  destruct (jn_recovery_reason (dk_journal d)); [done|congruence].
Qed.

Lemma abandon_after_good reason d executed : good d executed → good (abandon_after_failure reason d) executed.
Proof.
  intros G. unfold abandon_after_failure. pose proof (abandon_good reason d executed G) as H.
  destruct (abandon_unfinished reason d) as [d2 [e|r]]; [by apply require_good|done].
Qed.

Lemma withdraw_good settle reply turn d executed :
  (∀ d, good d executed → good (settle d) executed) →
  good d executed → good (fst (withdraw settle reply turn d)) executed.
Proof.
  intros Hs G. unfold withdraw. pose proof (discard_good turn d executed G) as H.
  destruct (discard_unstarted turn d) as [d2 [e|[]]]; [by apply Hs|done].
Qed.

Lemma start_turn_good q d executed :
  good d executed →
  match start_turn q d with
  | (d2, Some _) => good d2 executed
  | (d2, None) => good d2 (executed ++ [qt_turn_id q]) ∧ qt_turn_id q ∉ executed
  end.
Proof.
  intros G. unfold start_turn. case_bool_decide; [done|].
  assert (∀ settle reply (X : Desk → Prop), (∀ d, good d executed → good (settle d) executed) →
    match (let '(d2, reply) := withdraw settle reply (qt_turn_id q) d in (d2, Some reply)) with
    | (d2, Some _) => good d2 executed
    | (d2, None) => X d2
    end) as Hw.
  { intros settle reply X Hs. pose proof (withdraw_good settle reply (qt_turn_id q) d executed Hs G) as H2.
    by destruct (withdraw _ _ _ _). }
  case_bool_decide; [apply (Hw _ _ (λ d2, good d2 (executed ++ [qt_turn_id q]) ∧ qt_turn_id q ∉ executed)); intros; by apply abandon_after_good|].
  case_bool_decide; [apply (Hw _ _ (λ d2, good d2 (executed ++ [qt_turn_id q]) ∧ qt_turn_id q ∉ executed)); intros; by apply require_good|].
  destruct (negb _); [apply (Hw _ _ (λ d2, good d2 (executed ++ [qt_turn_id q]) ∧ qt_turn_id q ∉ executed)); intros; by apply abandon_after_good|].
  pose proof (begin_good (qt_turn_id q) d executed G) as Hb.
  destruct (journal_begin _ _) as [d1 [e|[]]]; [by apply abandon_after_good|done].
Qed.

Lemma finish_turn_good q d executed : good d executed → good (fst (finish_turn q d)) executed.
Proof.
  intros G. unfold finish_turn. destruct (negb _); [by apply abandon_after_good|].
  pose proof (complete_good (qt_turn_id q) d executed G) as Hc.
  destruct (journal_complete _ _) as [d1 [e|[]]]; [by apply abandon_after_good|done].
Qed.

(* ------------------------------------------------------------------ *)
(** ** A consultation over its owners' lives *)

Definition journal_good (j : Journal) (f : JournalFile) (executed : list string) : Prop :=
  ∀ writes, good (mkDesk j f writes) executed.

Lemma good_journal d executed : good d executed → journal_good (dk_journal d) (dk_file d) executed.
Proof. intros [K F C] writes. constructor; [exact K|exact F|exact C]. Qed.

Record owner_ok (c : Consultation) (o : Owner) : Prop := {
  oo_journal : journal_good (ow_journal o) (cs_file c) (cs_executed c);
  oo_channel : ∀ q, q ∈ ow_channel o → qt_turn_id q ∈ cs_accepted c;
  oo_running : ∀ q, ow_running o = Some q → qt_turn_id q ∈ cs_executed c ∧ qt_turn_id q ∉ cs_answered c
}.

Record consultation_ok (c : Consultation) : Prop := {
  co_once : NoDup (cs_executed c);
  co_accepted : ∀ t, t ∈ cs_executed c → t ∈ cs_accepted c;
  co_answered : NoDup (cs_answered c) ∧ ∀ t, t ∈ cs_answered c → t ∈ cs_executed c;
  co_file : file_ok (cs_file c) (cs_executed c);
  co_owner : ∀ o, cs_owner c = Some o → owner_ok c o
}.

Lemma open_ok c writes : consultation_ok c → consultation_ok (open_step c writes).
Proof.
  intros [H1 H2 H3 H4 H5]. unfold open_step, journal_open, cs_lock_free.
  destruct (cs_owner c) as [o|] eqn:Ho; cbn [negb].
  { constructor; simpl; try done. intros o' Ho'. rewrite Ho in Ho'. injection Ho' as <-. destruct (H5 o eq_refl).
    by constructor. }
  destruct (cs_file c) as [| |s] eqn:Hf; [|done|].
  all: match goal with |- context [abandon_unfinished ?r ?d] => set (d0 := d); set (r0 := r) end;
    assert (good d0 (cs_executed c)) as G0 by
      (constructor; simpl; [(rewrite H4; intros t Ht; by apply elem_of_nil in Ht) || apply H4|done|
         (intros _; constructor; simpl; (apply NoDup_nil_2 || done || set_solver)) || (intros _; apply H4)]);
    pose proof (abandon_good r0 d0 _ G0) as G1; destruct (abandon_unfinished r0 d0) as [d2 [e|r]];
    constructor; simpl; try done; try (apply G1); try congruence;
    intros o [= <-]; constructor; simpl; [|set_solver|done];
    intros w; destruct G1 as [K F C]; constructor; [exact K|exact F|exact C].
Qed.

Lemma queued_source now turn group : is_source (queued_of now turn group) = true.
Proof.
  unfold is_source, queued_of. simpl. apply forallb_true. intros b Hb.
  apply list_elem_of_fmap in Hb as (image & -> & _). done.
Qed.

Lemma enqueue_recorded_good now turn group closed room d executed :
  good d executed → good (fst (enqueue_recorded now turn group closed room d)) executed.
Proof.
  intros G. unfold enqueue_recorded. repeat (case_match; [done|]).
  pose proof (accept_good _ d executed (queued_source now turn group) G) as H'.
  by destruct (accept_input _ _) as [d2 [e|[]]].
Qed.

Lemma enqueue_ok c o now turn group closed room q writes :
  consultation_ok c → cs_owner c = Some o →
  consultation_ok (enqueue_step c o now turn group closed room q writes).
Proof.
  intros [H1 H2 H3 H4 H5] Ho. destruct (H5 o Ho) as [Hj Hc Hr]. unfold enqueue_step.
  pose proof (enqueue_recorded_good now turn group closed room (mkDesk (ow_journal o) (cs_file c) writes) _ (Hj writes)) as G.
  destruct (enqueue_recorded _ _ _ _ _ _) as [d [e|[]]]; simpl in G.
  - constructor; simpl; try done; [apply G|]. intros o' [= <-]. constructor; simpl; [by apply good_journal|done|done].
  - constructor; simpl; try done; [|apply G|].
    + intros t Ht. apply elem_of_app. left. by apply H2.
    + intros o' [= <-]. constructor; simpl; [by apply good_journal| |done].
      intros q' [Hq|[->|[]%elem_of_nil]%elem_of_cons]%elem_of_app; apply elem_of_app;
        [left; by apply Hc|right; by left].
Qed.

Lemma start_ok c o q channel writes :
  consultation_ok c → cs_owner c = Some o → ow_channel o = q :: channel →
  consultation_ok (start_step c o q channel writes).
Proof.
  intros [H1 H2 [H3 H3'] H4 H5] Ho Hch. destruct (H5 o Ho) as [Hj Hc Hr]. rewrite Hch in Hc. unfold start_step.
  pose proof (start_turn_good q (mkDesk (ow_journal o) (cs_file c) writes) _ (Hj writes)) as G.
  destruct (start_turn _ _) as [d [reply|]].
  - constructor; simpl; try done; [apply G|]. intros o' [= <-]. constructor; simpl; [by apply good_journal| |done].
    intros q' Hq. apply Hc. by right.
  - destruct G as [G Hnew]. constructor; simpl.
    + apply NoDup_app. split_and!; [done| |apply NoDup_singleton].
      intros t Ht [->|[]%elem_of_nil]%elem_of_cons. done.
    + intros t [Ht|[->|[]%elem_of_nil]%elem_of_cons]%elem_of_app; [by apply H2|]. apply Hc. by left.
    + split; [done|]. intros t Ht. apply elem_of_app. left. by apply H3'.
    + apply G.
    + intros o' [= <-]. constructor; simpl; [by apply good_journal| |].
      * intros q' Hq. apply Hc. by right.
      * intros q' [= <-]. split; [apply elem_of_app; right; by left|]. intros Ha. by apply Hnew, H3'.
Qed.

Lemma finish_ok c o q writes :
  consultation_ok c → cs_owner c = Some o → ow_running o = Some q →
  consultation_ok (finish_step c o q writes).
Proof.
  intros [H1 H2 [H3 H3'] H4 H5] Ho Hrun. destruct (H5 o Ho) as [Hj Hc Hr].
  destruct (Hr q Hrun) as [Hex Han]. unfold finish_step.
  pose proof (finish_turn_good q (mkDesk (ow_journal o) (cs_file c) writes) _ (Hj writes)) as G.
  destruct (finish_turn _ _) as [d reply]. simpl in G.
  assert (∀ o', Some (mkOwner (dk_journal d) (ow_channel o) None) = Some o' →
    journal_good (ow_journal o') (dk_file d) (cs_executed c) ∧ ow_channel o' = ow_channel o ∧ ow_running o' = None) as Hown.
  { intros o' [= <-]. split; [by apply good_journal|done]. }
  assert (consultation_ok (c <| cs_file := dk_file d |> <| cs_owner := Some (mkOwner (dk_journal d) (ow_channel o) None) |>)) as Hplain.
  { constructor; simpl; try done; [apply G|]. intros o' Ho'. destruct (Hown o' Ho') as (A & B & C).
    constructor; simpl; rewrite ?B, ?C; done. }
  destruct reply; try exact Hplain.
  constructor; simpl; try done; [|apply G|].
  - split; [|intros t [Ht|[->|[]%elem_of_nil]%elem_of_cons]%elem_of_app; [by apply H3'|done]].
    apply NoDup_app. split_and!; [done| |apply NoDup_singleton].
    intros t Ht [->|[]%elem_of_nil]%elem_of_cons. done.
  - intros o' Ho'. destruct (Hown o' Ho') as (A & B & C). constructor; simpl; rewrite ?B, ?C; done.
Qed.

Lemma consultation_step_ok c step : consultation_ok c → consultation_ok (consultation_step c step).
Proof.
  intros C. destruct step; unfold consultation_step.
  - by apply open_ok.
  - destruct (cs_owner c) eqn:Ho; [by apply enqueue_ok|done].
  - destruct (cs_owner c) as [o|] eqn:Ho; [|done].
    destruct (ow_running o), (ow_channel o) eqn:Hch; [done..|by apply start_ok].
  - destruct (cs_owner c) as [o|] eqn:Ho; [|done].
    destruct (ow_running o) eqn:Hr; [by apply finish_ok|done].
  - destruct C as [H1 H2 H3 H4 H5]. destruct (cs_owner c); constructor; simpl; done.
Qed.

Lemma consultation_run_ok steps : consultation_ok (consultation_run steps).
Proof.
  unfold consultation_run.
  assert (consultation_ok consultation_new) as H0.
  {
    constructor; simpl; [apply NoDup_nil_2|done|split; [apply NoDup_nil_2|done]|done|done]. }
  revert H0. generalize consultation_new. induction steps as [|s steps IH]; intros c C; [done|].
  apply IH. by apply consultation_step_ok.
Qed.

(** A state of that shape passes every check of a reader. *)
Lemma check_retained_ok completed queued : ∀ ids,
  NoDup (map qi_turn_id queued) →
  (∀ t, t ∈ map qi_turn_id queued → blank_id t = false ∧ t ∉ completed ∧ t ∉ ids) →
  Forall (λ entry, is_source entry = true) queued →
  check_retained completed ids queued = inr tt.
Proof.
  induction queued as [|e q IH]; intros ids Hd Hf Hs; simpl; [done|].
  simpl in Hd. apply NoDup_cons in Hd as [Hni Hd]. apply Forall_cons in Hs as [He Hs].
  destruct (Hf (qi_turn_id e)) as (Hb & Hc & Hi); [by left|].
  rewrite Hb, !bool_decide_eq_false_2 by done. unfold is_source in He. rewrite He. simpl.
  apply IH; [done| |done]. intros t Ht. destruct (Hf t) as (? & ? & ?); [by right|].
  split_and!; [done|done|]. intros [->%elem_of_singleton|?]%elem_of_union; done.
Qed.

Lemma inspect_clean id s :
  clean s → ∃ inputs, inspect_retained_input id (FileHolds s) = inr (Some (mkRecoverySnapshot id (ad_pending s) inputs)) ∧
    map sn_turn_id inputs = queued_ids s.
Proof.
  intros [H1 H2 H3 H4]. eexists. unfold inspect_retained_input.
  rewrite check_retained_ok; [|done|intros t Ht; destruct (H2 t Ht) as (? & ? & ?); split_and!; [done|done|set_solver]|done].
  assert (check_pending s = inr tt) as ->.
  { unfold check_pending. destruct (ad_pending s) as [p|] eqn:Hp; [|done]. specialize (H3 p eq_refl).
    destruct (H2 p) as (Hb & Hc & _); [by apply head_Some_elem_of|].
    rewrite Hb, bool_decide_eq_false_2 by done. simpl. apply front_is_head in H3. by rewrite H3, orb_true_r. }
  split; [reflexivity|]. unfold queued_ids. by rewrite map_map.
Qed.

(* ------------------------------------------------------------------ *)
(** ** A failed write closes the owner *)

Definition reason_kept (d d2 : Desk) : Prop := is_Some (recovery_reason d) → is_Some (recovery_reason d2).

Lemma persist_reason d : reason_kept d (fst (journal_persist d)).
Proof.
  intros H. pose proof (persist_spec d) as Hp. destruct (journal_persist d) as [d2 [e|[]]]; simpl.
  - apply Hp. - destruct Hp as (_ & _ & _ & ->). done.
Qed.

Lemma abandon_reason reason d : reason_kept d (fst (abandon_unfinished reason d)).
Proof.
  intros H. unfold abandon_unfinished. destruct (_ && _); [done|].
  match goal with |- context [journal_persist ?d1] => pose proof (persist_reason d1 H) as Hp end.
  destruct (journal_persist _) as [d2 [e|[]]]; done.
Qed.

Lemma abandon_after_reason reason d : reason_kept d (abandon_after_failure reason d).
Proof.
  intros H. unfold abandon_after_failure. pose proof (abandon_reason reason d H) as Hp.
  destruct (abandon_unfinished reason d) as [d2 [e|r]]; [|done].
  unfold require_recovery, recovery_reason. simpl. destruct (jn_recovery_reason _); by eexists.
Qed.

(** The owner of [c] has seen a write fail. *)
Definition closed_owner (c : Consultation) : Prop :=
  ∃ o, cs_owner c = Some o ∧ is_Some (jn_recovery_reason (ow_journal o)).

Definition is_stop (s : ConsultationStep) : bool := match s with StepStop => true | _ => false end.

Definition logs (c : Consultation) : list string * list string * list string :=
  (cs_accepted c, cs_executed c, cs_answered c).

Lemma enqueue_closed now turn group closed room d :
  is_Some (recovery_reason d) → ∃ e, enqueue_recorded now turn group closed room d = (d, inl e).
Proof.
  intros H. unfold enqueue_recorded, accept_input. rewrite (bool_decide_eq_true_2 _ H).
  repeat case_match; by eexists.
Qed.

Lemma closed_step c s :
  is_stop s = false → closed_owner c →
  closed_owner (consultation_step c s) ∧ logs (consultation_step c s) = logs c.
Proof.
  intros Hs (o & Ho & Hr). destruct s as [w|now turn group closed room q w|w|w|]; [| | | |done];
    unfold consultation_step; rewrite ?Ho.
  - unfold open_step, journal_open, cs_lock_free. rewrite Ho. simpl. split; [by exists o|done].
  - unfold enqueue_step. destruct (enqueue_closed now turn group closed room (mkDesk (ow_journal o) (cs_file c) w) Hr) as [e ->].
    simpl. split; [by eexists|done].
  - destruct (ow_running o); [split; [by exists o|done]|]. destruct (ow_channel o); [split; [by exists o|done]|].
    unfold start_step, start_turn, recovery_reason. simpl. rewrite bool_decide_eq_true_2 by done.
    simpl. split; [by eexists|done].
  - destruct (ow_running o) as [q|]; [|split; [by exists o|done]]. unfold finish_step, finish_turn, journal_complete.
    set (d0 := mkDesk (ow_journal o) (cs_file c) w).
    assert (is_Some (recovery_reason (abandon_after_failure "turn failed" d0))) as Hab by (by apply abandon_after_reason).
    rewrite (bool_decide_eq_true_2 (is_Some (recovery_reason d0))) by done.
    destruct (negb _); simpl; (split; [by eexists|done]).
Qed.

(* ------------------------------------------------------------------ *)
(** ** Properties *)

(** C13: Over the lives of all owners of a consultation, with writes failing
    before or after they reach the disk and the process stopping at any point,
    no instruction is executed twice, only accepted ones are executed, each is
    answered at most once, and the file always reads back as a consultation
    that names every executed turn as completed, abandoned or pending. *)
Theorem no_turn_executes_twice steps id :
  let c := consultation_run steps in
  NoDup (cs_executed c) ∧ (∀ t, t ∈ cs_executed c → t ∈ cs_accepted c) ∧
  NoDup (cs_answered c) ∧ (∀ t, t ∈ cs_answered c → t ∈ cs_executed c) ∧
  match cs_file c with
  | FileAbsent => cs_executed c = []
  | FileCorrupt => False
  | FileHolds s =>
      (∀ t, t ∈ cs_executed c → t ∈ ad_completed s ∨ t ∈ ad_abandoned s ∨ ad_pending s = Some t) ∧
      ∃ inputs, inspect_retained_input id (FileHolds s)
        = inr (Some (mkRecoverySnapshot id (ad_pending s) inputs)) ∧ map sn_turn_id inputs = queued_ids s
  end.
Proof.
  intros c. pose proof (consultation_run_ok steps) as C. fold c in C.
  destruct C as [H1 H2 [H3 H3'] H4 _]. split_and!; [done..|].
  destruct (cs_file c) as [| |s]; [done|done|]. destruct H4 as [Hk Hc]. split; [done|]. by apply inspect_clean.
Qed.



(* ------------------------------------------------------------------ *)
(** ** Examples *)

Definition ex_turn (id : string) : ConsultationTurn := mkConsultationTurn id true "do it" [] VNull "fixture".
Definition ex_queued (run : bool) : QueuedTurn := mkTurn "" None None true run.

(** The write that completes turn one fails without reaching the disk. *)
Definition ex_steps : list ConsultationStep :=
  [StepOpen []; StepEnqueue 0 (ex_turn "one") None false true (ex_queued true) []; StepStart [];
   StepFinish [NotWritten; Written]].

(** Its retirement is then written, yet the turn is also listed as completed. *)
Example completed_and_abandoned :
  match cs_file (consultation_run ex_steps) with
  | FileHolds s => bool_decide ("one"%string ∈ ad_completed s) && bool_decide ("one"%string ∈ ad_abandoned s)
  | _ => false
  end = true.
Proof. by vm_compute. Qed.

