(* ===== verification/TypographicQuotes.v ===== *)
(** TypographicQuotes: straight double quotes become a language's writer's
    quotes outside code (core/util/typographic_quotes.rs).

    A line is bytes; the quote and the backtick are single bytes, so splitting
    and replacing bytes is splitting and replacing characters. *)

From Stdlib Require Import Ascii.
From S2P Require Import Prelude.
From S2P Require Import Text.
#[local] Open Scope Z_scope.

Definition quote_char : ascii := ascii_of_nat 34.
Definition backtick : ascii := ascii_of_nat 96.

(** [s.matches(c).count()]. *)
Fixpoint count_char (c : ascii) (s : string) : nat :=
  match s with
  | EmptyString => 0
  | String a s' => (if Ascii.eqb a c then 1 else 0) + count_char c s'
  end.

(** [step_by(2)]. *)
Fixpoint step_by_2 {A} (l : list A) : list A :=
  match l with
  | [] => []
  | [x] => [x]
  | x :: _ :: l' => x :: step_by_2 l'
  end.

Inductive QuoteStyle := QuotePolish | QuoteEnglish.

(** The style for a language tag; [None] is "not configured". *)
Definition quote_style_for_language (tag : option string) : option QuoteStyle :=
  match tag with
  | None => None
  | Some tag =>
      let tag := trim tag in
      if String.eqb tag "" || eq_ignore_ascii_case tag "auto" then None
      else
        let primary :=
          match split_char (ascii_of_nat 45) tag with
          | part :: _ =>
              match split_char (ascii_of_nat 95) part with part :: _ => part | [] => tag end
          | [] => tag
          end in
        Some (if String.eqb (to_ascii_lowercase primary) "pl" then QuotePolish else QuoteEnglish)
  end.

Definition polish_letters : list (Z * string) := utf8_chars "ąćęłńóśźżĄĆĘŁŃÓŚŹŻ".

Definition quote_style_guess (text : string) : QuoteStyle :=
  if existsb (λ c : Z * string, existsb (λ p : Z * string, c.1 =? p.1) polish_letters) (utf8_chars text)
  then QuotePolish else QuoteEnglish.

(** The opening and the closing quote. *)
Definition quote_pair (style : QuoteStyle) : string * string :=
  match style with
  | QuotePolish => ("„", "”")
  | QuoteEnglish => ("“", "”")
  end.

(** The characters of one prose segment, after [seen] quotes of the line. *)
Fixpoint convert_prose (open close : string) (paired seen : nat) (s : string) : nat * string :=
  match s with
  | EmptyString => (seen, EmptyString)
  | String c s' =>
      if Ascii.eqb c quote_char && (seen <? paired)%nat then
        let '(seen', out) := convert_prose open close paired (S seen) s' in
        (seen', ((if Nat.even seen then open else close) +:+ out)%string)
      else
        let '(seen', out) := convert_prose open close paired seen s' in
        (seen', String c out)
  end.

Fixpoint convert_segments (open close : string) (paired seen : nat) (in_code : bool)
    (segments : list string) : string :=
  match segments with
  | [] => EmptyString
  | segment :: rest =>
      if in_code
      then (String backtick segment
              +:+ String backtick (convert_segments open close paired seen false rest))%string
      else
        let '(seen, out) := convert_prose open close paired seen segment in
        (out +:+ convert_segments open close paired seen true rest)%string
  end.

(** [out.pop()] of a string that ends in an ASCII character. *)
Fixpoint pop (s : string) : string :=
  match s with
  | EmptyString => EmptyString
  | String _ EmptyString => EmptyString
  | String c s' => String c (pop s')
  end.

Definition convert_line (line open close : string) : string :=
  let segments := split_char backtick line in
  let total := foldr Nat.add 0%nat (map (count_char quote_char) (step_by_2 segments)) in
  let paired := (total - total mod 2)%nat in
  let out := convert_segments open close paired 0 false segments in
  if (count_char backtick line mod 2 =? 1)%nat then pop out else out.

(** The byte [newline] is the separator of the lines. *)
Definition is_fence (line : string) : bool :=
  starts_with (unchars (drop_while (λ c : Z * string, is_whitespace c.1) (utf8_chars line)))
    (String backtick (String backtick (String backtick EmptyString))).

Fixpoint convert_lines (open close : string) (in_fence : bool) (lines : list string) : list string :=
  match lines with
  | [] => []
  | line :: rest =>
      if is_fence line then line :: convert_lines open close (negb in_fence) rest
      else if in_fence then line :: convert_lines open close in_fence rest
      else convert_line line open close :: convert_lines open close in_fence rest
  end.

Definition typographic_quotes (text : string) (style : QuoteStyle) : string :=
  let '(open, close) := quote_pair style in
  join_lines (convert_lines open close false (split_char newline text)).

Definition writer_quotes_for_paste (text whisper_language : string) : string :=
  typographic_quotes text
    (match quote_style_for_language (Some whisper_language) with
     | Some style => style
     | None => quote_style_guess text
     end).

Example quotes_ex :
  typographic_quotes (String quote_char "a" +:+ String quote_char " `b`")%string QuoteEnglish
    = "“a” `b`"%string.
Proof. reflexivity. Qed.

(* ------------------------------------------------------------------ *)
(** ** A single pass over a line *)

(** Quotes outside code spans. *)
Fixpoint prose_quotes (in_code : bool) (s : string) : nat :=
  match s with
  | EmptyString => 0
  | String c s' =>
      if Ascii.eqb c backtick then prose_quotes (negb in_code) s'
      else (if Ascii.eqb c quote_char && negb in_code then 1 else 0) + prose_quotes in_code s'
  end.

(** A backtick enters or leaves code; outside it the first [paired] quotes
    become opening and closing marks in turn. *)
Fixpoint requote (open close : string) (paired seen : nat) (in_code : bool) (s : string) : string :=
  match s with
  | EmptyString => EmptyString
  | String c s' =>
      if Ascii.eqb c backtick then String c (requote open close paired seen (negb in_code) s')
      else if Ascii.eqb c quote_char && negb in_code && (seen <? paired)%nat
      then ((if Nat.even seen then open else close)
              +:+ requote open close paired (S seen) in_code s')%string
      else String c (requote open close paired seen in_code s')
  end.

Definition requote_line (open close line : string) : string :=
  let total := prose_quotes false line in
  requote open close (total - total mod 2) 0 false line.

Fixpoint requote_lines (open close : string) (in_fence : bool) (lines : list string) : list string :=
  match lines with
  | [] => []
  | line :: rest =>
      (if is_fence line || in_fence then line else requote_line open close line)
        :: requote_lines open close (if is_fence line then negb in_fence else in_fence) rest
  end.

(** [t] is [s] with some straight quotes replaced by marks. *)
Inductive requoted (open close : string) : string → string → Prop :=
  | rq_nil : requoted open close "" ""
  | rq_same c s t : requoted open close s t → requoted open close (String c s) (String c t)
  | rq_mark m s t : m = open ∨ m = close → requoted open close s t →
      requoted open close (String quote_char s) (m +:+ t).

Lemma requoted_refl open close s : requoted open close s s.
Proof. induction s; by constructor. Qed.

Lemma requoted_app open close s1 s2 t1 t2 :
  requoted open close s1 t1 → requoted open close s2 t2 →
  requoted open close (s1 +:+ s2)%string (t1 +:+ t2)%string.
Proof.
  induction 1 as [|c s t _ IH|m s t Hm _ IH]; intros H2; [done| |].
  - apply (rq_same open close c). by apply IH.
  - rewrite <- append_assoc. apply (rq_mark open close m); auto.
Qed.

Lemma requote_requoted open close paired seen in_code s :
  requoted open close s (requote open close paired seen in_code s).
Proof.
  revert seen in_code. induction s as [|c s IH]; intros seen in_code; [constructor|]. simpl.
  destruct (Ascii.eqb c backtick); [by constructor|].
  destruct (Ascii.eqb_spec c quote_char) as [->|]; simpl; [|by constructor].
  destruct (negb in_code && _); [|by constructor].
  apply rq_mark; [destruct (Nat.even seen); auto|done].
Qed.

Lemma split_char_cons c s : ∃ part rest, split_char c s = part :: rest.
Proof.
  induction s as [|a s (part & rest & IH)]; [by eexists _, _|]. simpl. rewrite IH.
  destruct (Ascii.eqb a c); by eexists _, _.
Qed.

Lemma split_char_join s : join_lines (split_char newline s) = s.
Proof.
  induction s as [|a s IH]; [done|]. simpl.
  destruct (split_char_cons newline s) as (part & rest & Hs). rewrite Hs in *.
  destruct (Ascii.eqb_spec a newline) as [->|].
  - unfold join_lines in *. change (String newline (String.concat (String newline "") (part :: rest)) = String newline s).
    by rewrite IH.
  - unfold join_lines in *. destruct rest as [|p rest].
    + change (String a part = String a s). f_equal. exact IH.
    + change (String a (String.concat (String newline "") (part :: p :: rest)) = String a s).
      by rewrite IH.
Qed.

(** A quote more in the head segment. *)
Lemma convert_segments_char open close paired seen (c : ascii) part rest :
  convert_segments open close paired seen false (String c part :: rest) =
  (if Ascii.eqb c quote_char && (seen <? paired)%nat
   then (if Nat.even seen then open else close)
          +:+ convert_segments open close paired (S seen) false (part :: rest)
   else String c (convert_segments open close paired seen false (part :: rest)))%string.
Proof.
  simpl. destruct (Ascii.eqb c quote_char && _); simpl.
  - destruct (convert_prose open close paired (S seen) part) as [k out]. by rewrite <- append_assoc.
  - by destruct (convert_prose open close paired seen part) as [k out].
Qed.

Definition tick : string := String backtick "".

(** The closing backtick every code segment is given, and the last one owes. *)
Lemma convert_segments_requote open close paired s : ∀ seen,
  convert_segments open close paired seen false (split_char backtick s)
    = (requote open close paired seen false s
         +:+ (if Nat.odd (count_char backtick s) then tick else ""))%string ∧
  convert_segments open close paired seen true (split_char backtick s)
    = (tick +:+ requote open close paired seen true s
         +:+ (if Nat.even (count_char backtick s) then tick else ""))%string.
Proof.
  induction s as [|c s IH]; intros seen; [done|]. simpl split_char. simpl count_char. simpl requote.
  destruct (split_char_cons backtick s) as (part & rest & Hs).
  destruct (Ascii.eqb_spec c backtick) as [->|Hc].
  - change (1 + count_char backtick s)%nat with (S (count_char backtick s)).
    rewrite Nat.even_succ, Nat.odd_succ. destruct (IH seen) as [Hprose Hcode]. split.
    + simpl. rewrite Hcode. done.
    + simpl. rewrite Hprose. done.
  - simpl (0 + _)%nat. rewrite Hs in *. split.
    + rewrite convert_segments_char, andb_true_r.
      destruct (Ascii.eqb c quote_char && _); [destruct (IH (S seen)) as [-> _]; by rewrite append_assoc|].
      destruct (IH seen) as [-> _]. done.
    + rewrite andb_false_r. simpl andb. destruct (IH seen) as [_ Hcode].
      set (tail := String backtick (convert_segments open close paired seen false rest)).
      change (String backtick (part +:+ tail)%string = String backtick
        (requote open close paired seen true s +:+ (if Nat.even (count_char backtick s) then tick else "")%string))
        in Hcode.
      change (String backtick (String c (part +:+ tail)%string) = String backtick (String c
        (requote open close paired seen true s +:+ (if Nat.even (count_char backtick s) then tick else "")%string))).
      injection Hcode as Hcode. by rewrite Hcode.
Qed.

Lemma pop_tick s : pop (s +:+ tick)%string = s.
Proof.
  induction s as [|c s IH]; [done|]. change (pop (String c (s +:+ tick)) = String c s).
  destruct (s +:+ tick)%string eqn:E; [by destruct s|]. by rewrite <- E in IH |- *; simpl; rewrite E, <- E, IH.
Qed.

(** The prose segments are every other one. *)
Lemma step_by_2_quotes s :
  foldr Nat.add 0%nat (map (count_char quote_char) (step_by_2 (split_char backtick s)))
    = prose_quotes false s ∧
  ∀ part rest, split_char backtick s = part :: rest →
    foldr Nat.add 0%nat (map (count_char quote_char) (step_by_2 rest)) = prose_quotes true s.
Proof.
  induction s as [|c s [IHp IHc]]; [split; [done|]; by intros ? ? [= <- <-]|].
  simpl split_char. simpl prose_quotes.
  destruct (split_char_cons backtick s) as (part & rest & Hs).
  destruct (Ascii.eqb_spec c backtick) as [->|Hc].
  - split; [|intros p r [= <- <-]; by rewrite IHp].
    rewrite Hs. transitivity (foldr Nat.add 0%nat (map (count_char quote_char) (step_by_2 rest)));
      [by destruct rest|]. by apply (IHc part).
  - rewrite Hs in *. rewrite andb_true_r, andb_false_r. split.
    + destruct rest as [|p [|q rest]]; simpl in *; lia.
    + intros p r [= <- <-]. by apply (IHc part).
Qed.

Lemma convert_line_requote line open close :
  convert_line line open close = requote_line open close line.
Proof.
  unfold convert_line, requote_line. destruct (step_by_2_quotes line) as [-> _].
  destruct (convert_segments_requote open close
    (prose_quotes false line - prose_quotes false line mod 2) line 0) as [-> _].
  destruct (Nat.odd (count_char backtick line)) eqn:Hodd.
  - rewrite Nat.odd_spec in Hodd. destruct Hodd as [k Hk].
    replace (count_char backtick line mod 2)%nat with 1%nat; [apply pop_tick|].
    rewrite Hk, Nat.add_comm, Nat.mul_comm, Nat.Div0.mod_add. done.
  - assert (He : Nat.even (count_char backtick line) = true) by (by rewrite <- Nat.negb_odd, Hodd).
    rewrite Nat.even_spec in He. destruct He as [k Hk].
    replace (count_char backtick line mod 2)%nat with 0%nat;
      [|by rewrite Hk, Nat.mul_comm, Nat.Div0.mod_mul]. apply append_nil.
Qed.

Lemma convert_lines_requote open close in_fence lines :
  convert_lines open close in_fence lines = requote_lines open close in_fence lines.
Proof.
  revert in_fence. induction lines as [|line lines IH]; intros in_fence; [done|]. simpl.
  destruct (is_fence line); simpl; [by rewrite IH|].
  destruct in_fence; [by rewrite IH|]. by rewrite IH, convert_line_requote.
Qed.

Lemma requoted_lines open close in_fence lines :
  requoted open close (join_lines lines) (join_lines (requote_lines open close in_fence lines)).
Proof.
  revert in_fence. induction lines as [|line lines IH]; intros in_fence; [constructor|].
  assert (Hline : requoted open close line
    (if is_fence line || in_fence then line else requote_line open close line)).
  { destruct (is_fence line || in_fence); [apply requoted_refl|apply requote_requoted]. }
  specialize (IH (if is_fence line then negb in_fence else in_fence)). simpl requote_lines.
  destruct lines as [|line2 lines]; [done|]. simpl requote_lines in *.
  unfold join_lines in *. apply requoted_app; [done|]. by apply (rq_same open close newline).
Qed.

(** The quotes pass, with its splitting at backticks and its repaired last
    segment, is one left-to-right scan of each line outside fences: the straight
    quotes outside code spans become opening and closing marks in turn, a last
    unpaired one stays, and nothing else in the text changes. *)
Theorem typographic_quotes_exact text style :
  let '(open, close) := quote_pair style in
  join_lines (split_char newline text) = text ∧
  typographic_quotes text style = join_lines (requote_lines open close false (split_char newline text)) ∧
  requoted open close text (typographic_quotes text style).
Proof.
  unfold typographic_quotes. destruct (quote_pair style) as [open close].
  rewrite convert_lines_requote. split_and!; [apply split_char_join|done|].
  rewrite <- (split_char_join text) at 1. apply requoted_lines.
Qed.
