(* ===== verification/DeliveryRoute.v ===== *)
(** DeliveryRoute: where a finished transcript may land
    (app/controller/delivery_route.rs).

    The destination is a function of the operator's intent, frozen at the start
    of a session or at a click, and of the facts read when the take is done.
    The executable-content guard works on the lines and words of the text. *)

From Stdlib Require Import Ascii.
From S2P Require Import Prelude.
From S2P Require Import Text.
From S2P Require Import Json.
From S2P Require Import TypographicQuotes.
#[local] Open Scope Z_scope.

Inductive DeliveryRouteTo := AgentComposer | ClipboardPaste | DeferredInsert | ArchiveOnly | ClipboardHold.

#[global] Instance DeliveryRouteTo_eq_dec : EqDecision DeliveryRouteTo.
Proof. solve_decision. Defined.

Inductive DeliveryIntent :=
  | AgentVoice | OrientDictation | OrientFormat | NotesOnly | OverlayToAgent | OverlayInsert.

#[global] Instance DeliveryIntent_eq_dec : EqDecision DeliveryIntent.
Proof. solve_decision. Defined.

Inductive FocusedInputField := FieldText | FieldSecure | FieldNotText | FieldUnobserved.

#[global] Instance FocusedInputField_eq_dec : EqDecision FocusedInputField.
Proof. solve_decision. Defined.

Inductive PasteMode := PasteSafe | PasteComfort | PasteOff.

#[global] Instance PasteMode_eq_dec : EqDecision PasteMode.
Proof. solve_decision. Defined.

Definition route_as_str (r : DeliveryRouteTo) : string :=
  match r with
  | AgentComposer => "agent_composer" | ClipboardPaste => "clipboard_paste"
  | DeferredInsert => "deferred_insert" | ArchiveOnly => "archive_only"
  | ClipboardHold => "clipboard_hold"
  end.

Definition intent_as_str (i : DeliveryIntent) : string :=
  match i with
  | AgentVoice => "agent_voice" | OrientDictation => "orient_dictation"
  | OrientFormat => "orient_format" | NotesOnly => "notes_only"
  | OverlayToAgent => "overlay_to_agent" | OverlayInsert => "overlay_insert"
  end.

Definition delivery_intent_from_session (assistive force_ai notes_save_only : bool) : DeliveryIntent :=
  if notes_save_only then NotesOnly
  else if assistive then AgentVoice
  else if force_ai then OrientFormat
  else OrientDictation.

Record PasteTarget := mkTarget { pt_terminal : bool; pt_field : FocusedInputField }.

Definition UNOBSERVED : PasteTarget := mkTarget false FieldUnobserved.

Record DeliveryFacts := mkFacts {
  df_has_text : bool;
  df_no_speech : bool;
  df_paste_mode : PasteMode;
  df_paste_target : PasteTarget;
  df_executable_payload : bool;
  df_overlay_enabled : bool;
  df_live_stream_session : bool;
  df_commit_required : bool;
  df_latched_target_is_self : bool
}.

Record DeliveryDecision := mkDecision { dd_route : DeliveryRouteTo; dd_reason : string }.

Definition overlay_insert_facts (has_text latched_target_is_self : bool) : DeliveryFacts :=
  mkFacts has_text false PasteOff UNOBSERVED false true false false latched_target_is_self.

(** May an armed paste fire at this caret? *)
Definition paste_gate (mode : PasteMode) (target : PasteTarget) (executable : bool) : DeliveryDecision :=
  if bool_decide (pt_field target = FieldSecure) then mkDecision ClipboardHold "hold_secure_field"
  else if pt_terminal target && executable then mkDecision ClipboardHold "hold_executable"
  else
    let fire :=
      mkDecision ClipboardPaste
        (if bool_decide (mode = PasteComfort) then "paste_comfort" else "paste_safe")%string in
    if bool_decide (mode = PasteComfort) then fire
    else
      match pt_field target with
      | FieldText | FieldSecure => fire
      | FieldNotText => mkDecision ClipboardHold "hold_no_text_field"
      | FieldUnobserved => mkDecision ClipboardHold "hold_field_unobserved"
      end.

Definition orient_route (facts : DeliveryFacts) : DeliveryDecision :=
  if bool_decide (df_paste_mode facts = PasteOff) then mkDecision ArchiveOnly "paste_mode_off"
  else if df_live_stream_session facts then mkDecision ArchiveOnly "live_stream_session"
  else if df_commit_required facts then mkDecision ArchiveOnly "quality_commit_pending"
  else if df_latched_target_is_self facts then mkDecision DeferredInsert "refuse_paste_into_self"
  else paste_gate (df_paste_mode facts) (df_paste_target facts) (df_executable_payload facts).

Definition overlay_insert_route (facts : DeliveryFacts) : DeliveryDecision :=
  if df_latched_target_is_self facts then mkDecision DeferredInsert "refuse_paste_into_self"
  else
    let gate := paste_gate PasteComfort (df_paste_target facts) (df_executable_payload facts) in
    if bool_decide (dd_route gate = ClipboardPaste) then mkDecision ClipboardPaste "explicit_insert"
    else gate.

Definition resolve_delivery_route (intent : DeliveryIntent) (facts : DeliveryFacts) : DeliveryDecision :=
  if negb (df_has_text facts) || df_no_speech facts then mkDecision ArchiveOnly "empty_or_no_speech"
  else
    match intent with
    | AgentVoice => mkDecision AgentComposer "assistive_first_class"
    | NotesOnly => mkDecision ArchiveOnly "notes_save_only"
    | OrientDictation | OrientFormat => orient_route facts
    | OverlayToAgent => mkDecision AgentComposer "explicit_to_agent"
    | OverlayInsert => overlay_insert_route facts
    end.

Definition paste_hold_notice (decision : DeliveryDecision) : option string :=
  if negb (bool_decide (dd_route decision = ClipboardHold)) then None
  else
    Some (if String.eqb (dd_reason decision) "hold_executable"
          then "Held: this looks like a shell command. It is waiting in Deferred Paste."
          else if String.eqb (dd_reason decision) "hold_secure_field"
          then "Held: a password field has focus. It is waiting in Deferred Paste."
          else if String.eqb (dd_reason decision) "hold_no_text_field"
          then "Held: no text field had focus. It is waiting in Deferred Paste."
          else "Held: Codescribe could not confirm a text field. It is waiting in Deferred Paste.")%string.

(** The overlay actions that are legal for a take. *)
Record ProjectionAvailability := mkAvailability {
  pa_can_paste : bool;
  pa_can_insert : bool;
  pa_can_copy : bool;
  pa_can_retranscribe : bool;
  pa_can_format : bool;
  pa_can_send_to_agent : bool
}.

Definition resolve_transcript_projection_availability
    (has_text take_in_progress session_wav_exists has_latched_target latched_target_is_self : bool)
    : ProjectionAvailability :=
  let insert := dd_route (resolve_delivery_route OverlayInsert
                            (overlay_insert_facts has_text latched_target_is_self)) in
  let paste_or_hold := bool_decide (insert = ClipboardPaste) || bool_decide (insert = ClipboardHold) in
  mkAvailability
    (negb take_in_progress && has_latched_target && paste_or_hold)
    (negb take_in_progress && (paste_or_hold || bool_decide (insert = DeferredInsert)))
    has_text
    (negb take_in_progress && session_wav_exists)
    (negb take_in_progress && has_text)
    (negb take_in_progress
       && bool_decide (dd_route (resolve_delivery_route OverlayToAgent
                                   (overlay_insert_facts has_text latched_target_is_self)) = AgentComposer)).

Definition clipboard_paste_may_post
    (target_latched focus_confirmed target_observed_frontmost frontmost_is_external : bool) : bool :=
  if target_latched then focus_confirmed || target_observed_frontmost else frontmost_is_external.

Definition format_delivery_route_line (intent : DeliveryIntent) (decision : DeliveryDecision)
    (latched_target : option string) : string :=
  ("delivery_route: intent=" +:+ intent_as_str intent +:+ " route=" +:+ route_as_str (dd_route decision)
   +:+ " reason=" +:+ dd_reason decision +:+ " target=" +:+ default "-" latched_target)%string.

(* ------------------------------------------------------------------ *)
(** ** The executable-content guard *)

Definition TERMINAL_APPS : list string :=
  ["Terminal"; "iTerm2"; "iTerm"; "Ghostty"; "Alacritty"; "kitty"; "WezTerm"; "Warp"; "Hyper";
   "Tabby"; "Rio"; "Wave"; "vc-terminal"; "VC Terminal"]%string.

Definition is_terminal_app (app_name : string) : bool :=
  existsb (λ terminal, eq_ignore_ascii_case terminal (trim app_name)) TERMINAL_APPS.

Definition COMMAND_WORDS : list string :=
  ["sudo"; "su"; "doas"; "rm"; "rmdir"; "mv"; "cp"; "ln"; "chmod"; "chown"; "chgrp"; "dd";
   "mkfs"; "diskutil"; "launchctl"; "killall"; "pkill"; "curl"; "wget"; "ssh"; "scp"; "sftp";
   "rsync"; "git"; "gh"; "brew"; "npm"; "npx"; "pnpm"; "yarn"; "bun"; "deno"; "node"; "pip";
   "pip3"; "pipx"; "uv"; "uvx"; "python"; "python3"; "ruby"; "perl"; "cargo"; "rustup";
   "rustc"; "docker"; "podman"; "kubectl"; "helm"; "terraform"; "bash"; "sh"; "zsh"; "fish";
   "eval"; "exec"; "osascript"; "xattr"; "codesign"; "spctl"; "csrutil"; "nvram"; "sqlite3";
   "psql"; "mysql"; "systemctl"; "apt"; "apt-get"; "dnf"; "yum"; "tmux"; "zellij"; "ls"; "cd";
   "mkdir"; "grep"; "rg"; "sed"; "awk"; "tar"; "unzip"; "crontab"; "shred"; "xargs"; "nohup";
   "chsh"; "pbcopy"; "pbpaste"; "ps"; "du"; "df"]%string.

Definition AMBIGUOUS_COMMAND_WORDS : list string :=
  ["make"; "find"; "open"; "kill"; "cat"; "echo"; "export"; "source"; "set"; "unset"; "test";
   "touch"; "top"; "less"; "more"; "head"; "tail"; "sort"; "cut"; "date"; "which"; "man";
   "say"; "type"; "go"; "defaults"; "alias"; "history"; "clear"; "exit"; "time"; "watch";
   "tee"; "diff"; "file"; "who"]%string.

Definition PROMPT_MARKERS : list string :=
  ["$ "; "% "; "❯ "; "➜ "]%string.

Definition word_in (l : list string) (token : string) : bool :=
  existsb (λ word, eq_ignore_ascii_case word token) l.

Definition is_command_word (token : string) : bool :=
  word_in COMMAND_WORDS token || word_in AMBIGUOUS_COMMAND_WORDS token.

Definition one_of (codes : list Z) (c : ascii) : bool := existsb (Z.eqb (ascii_val c)) codes.

(** [token.starts_with([…])]. *)
Definition starts_with_one (codes : list Z) (s : string) : bool :=
  match s with String c _ => one_of codes c | EmptyString => false end.

(** [token.contains([…])]. *)
Fixpoint contains_one (codes : list Z) (s : string) : bool :=
  match s with String c s' => one_of codes c || contains_one codes s' | EmptyString => false end.

(** Trailing punctuation; option, path, variable and quote starts; assignment,
    glob and slash; a dot. *)
Definition looks_like_argument (token : string) : bool :=
  let inner := trim_end_matches (one_of [46; 44; 33; 63; 58; 59]) token in
  starts_with_one [45; 47; 126; 46; 36; 34; 39] token
  || contains_one [61; 42; 47] token
  || contains_one [46] inner
  || (negb (String.eqb token "") && all_bytes is_digit token).

Definition is_env_assignment (token : string) : bool :=
  match split_once (ascii_of_nat 61) token with
  | Some (name, _) =>
      negb (String.eqb name "")
      && all_bytes (λ c, one_of [95] c || is_ascii_alphanumeric c) name
      && negb (match name with String c _ => is_digit c | EmptyString => false end)
  | None => false
  end.

Definition starts_with_command (tokens : list string) : bool :=
  match drop_while is_env_assignment tokens with
  | [] => false
  | first :: rest =>
      word_in COMMAND_WORDS first
      || (word_in AMBIGUOUS_COMMAND_WORDS first
          && match rest with next :: _ => looks_like_argument next | [] => false end)
  end.

Definition command_follows (line : string) (separator : ascii) : bool :=
  existsb (λ tail, match split_whitespace tail with
                   | word :: _ => is_command_word word
                   | [] => false
                   end) (drop 1 (split_char separator line)).

Definition SHELL_CONSTRUCTS : list string :=
  ["$("; "${"; "&&"; "||"; "<("; ">>"; "2>&1"]%string.

(** A [>] before a path that starts with [/], [~] or [.]. *)
Fixpoint redirects_into_path (line : string) : bool :=
  match line with
  | EmptyString => false
  | String c rest =>
      (one_of [62] c
       && starts_with_one [47; 126; 46]
            (unchars (drop_while (λ c : Z * string, is_whitespace c.1) (utf8_chars rest))))
      || redirects_into_path rest
  end.

Definition has_shell_construct (line : string) : bool :=
  existsb (contains line) SHELL_CONSTRUCTS
  || existsb (λ inside, starts_with_command (split_whitespace inside))
       (step_by_2 (drop 1 (split_char backtick line)))
  || command_follows line (ascii_of_nat 124)
  || command_follows line (ascii_of_nat 59)
  || redirects_into_path line.

(** [iter().find_map(|marker| line.strip_prefix(marker))]. *)
Definition strip_prompt (line : string) : option string :=
  find_map (λ marker, if starts_with line marker
                      then Some (String.substring (String.length marker) (String.length line - String.length marker) line)
                      else None) PROMPT_MARKERS.

Definition line_looks_executable (line : string) : bool :=
  if String.eqb line "" then false
  else
    match strip_prompt line with
    | Some body => negb (trim_is_empty body)
    | None => starts_with_command (split_whitespace line) || has_shell_construct line
    end.

Definition looks_executable (text : string) : bool :=
  existsb (λ line, line_looks_executable (trim line)) (text_lines text).

(* ------------------------------------------------------------------ *)
(** ** When a paste fires *)

Definition is_orient (intent : DeliveryIntent) : bool :=
  match intent with OrientDictation | OrientFormat => true | _ => false end.

(** A caret a paste may land in: never a password field, never a terminal with
    a command-shaped text, and outside Comfort only an observed text field. *)
Definition caret_admits (mode : PasteMode) (target : PasteTarget) (executable : bool) : Prop :=
  pt_field target ≠ FieldSecure ∧ ¬ (pt_terminal target = true ∧ executable = true) ∧
  (mode = PasteComfort ∨ pt_field target = FieldText).

Lemma paste_gate_exact mode target executable :
  let d := paste_gate mode target executable in
  (dd_route d = ClipboardPaste ∨ dd_route d = ClipboardHold) ∧
  (dd_route d = ClipboardPaste ↔ caret_admits mode target executable).
Proof.
  destruct target as [terminal field], executable, terminal, field, mode;
    vm_compute; (split; [auto|]); (split; [intros ?; split_and!; naive_solver|naive_solver]).
Qed.

(** An automatic or explicit paste fires exactly when there is text from
    speech, the gesture asks for a paste, none of the vetoes stands (mode off,
    live stream, pending commit, caret in the overlay itself) and the caret
    admits it; no other intent ever pastes, and a stopped paste is only held,
    deferred or archived. *)
Theorem paste_fires_exactly intent facts :
  let d := resolve_delivery_route intent facts in
  (dd_route d = ClipboardPaste ↔
   df_has_text facts = true ∧ df_no_speech facts = false ∧ df_latched_target_is_self facts = false ∧
   (is_orient intent = true ∧ df_paste_mode facts ≠ PasteOff ∧ df_live_stream_session facts = false ∧
      df_commit_required facts = false ∧
      caret_admits (df_paste_mode facts) (df_paste_target facts) (df_executable_payload facts)
    ∨ intent = OverlayInsert ∧
      caret_admits PasteComfort (df_paste_target facts) (df_executable_payload facts))) ∧
  (dd_route d = AgentComposer ↔
   df_has_text facts = true ∧ df_no_speech facts = false ∧ (intent = AgentVoice ∨ intent = OverlayToAgent)).
Proof.
  destruct facts as [text nospeech mode target exec overlay live commit self]. cbv zeta.
  unfold resolve_delivery_route. simpl.
  destruct (paste_gate_exact mode target exec) as [Hone Hfire].
  destruct (paste_gate_exact PasteComfort target exec) as [Hone' Hfire'].
  destruct text, nospeech; simpl; try (split; naive_solver).
  destruct intent; simpl; try (split; naive_solver).
  - unfold orient_route. simpl. case_bool_decide; [split; naive_solver|].
    destruct live, commit, self; simpl; try (split; naive_solver).
    split; [rewrite Hfire; naive_solver|]. destruct Hone as [-> | ->]; naive_solver.
  - unfold orient_route. simpl. case_bool_decide; [split; naive_solver|].
    destruct live, commit, self; simpl; try (split; naive_solver).
    split; [rewrite Hfire; naive_solver|]. destruct Hone as [-> | ->]; naive_solver.
  - unfold overlay_insert_route. simpl. destruct self; simpl; [split; naive_solver|].
    case_bool_decide as Hp; simpl.
    + apply Hfire' in Hp. split; naive_solver.
    + destruct Hone' as [?|Hh]; [done|]. rewrite Hh. split; [|naive_solver].
      split; [done|]. intros (_ & _ & _ & [(? & _)|(_ & Hc)]); [done|]. by apply Hfire' in Hc.
Qed.

(** A text with a line that starts like a command (after variable
    assignments), or that chains, substitutes or redirects, is never pasted into
    a terminal: it is held, deferred or archived, whatever the intent. *)
Theorem commands_never_reach_terminals intent facts text line :
  line ∈ text_lines text → strip_prompt (trim line) = None → trim line ≠ ""%string →
  starts_with_command (split_whitespace (trim line)) = true ∨ has_shell_construct (trim line) = true →
  df_executable_payload facts = looks_executable text → pt_terminal (df_paste_target facts) = true →
  dd_route (resolve_delivery_route intent facts) ≠ ClipboardPaste.
Proof.
  intros Hin Hprompt Hne Hcmd Hexec Hterm.
  assert (Hlooks : looks_executable text = true).
  { apply existsb_true. exists line. split; [done|]. unfold line_looks_executable.
    rewrite (proj2 (String.eqb_neq _ _) Hne), Hprompt. apply orb_true_iff. done. }
  assert (Hno : ∀ mode, dd_route (paste_gate mode (df_paste_target facts) (df_executable_payload facts))
    ≠ ClipboardPaste).
  { intros mode Hp. apply (paste_gate_exact mode) in Hp as (_ & Hnot & _). apply Hnot.
    by rewrite Hexec. }
  unfold resolve_delivery_route, orient_route, overlay_insert_route.
  case_match_goal; simpl; try done; try apply Hno.
  all: zbool; by match goal with H : dd_route _ = ClipboardPaste |- _ => apply Hno in H end.
Qed.

Lemma commands_never_reach_terminals_witness :
  let facts := mkFacts true false PasteComfort (mkTarget true FieldText)
                 (looks_executable "Sudo rm -rf build") true false false false in
  dd_route (resolve_delivery_route OrientDictation facts) ≠ ClipboardPaste.
Proof.
  apply (commands_never_reach_terminals OrientDictation _ "Sudo rm -rf build" "Sudo rm -rf build").
  - by apply elem_of_cons; left.
  - by vm_compute.
  - done.
  - left. by vm_compute.
  - done.
  - done.
Defined.

(** Prose passes, an ambiguous word needs an argument. *)
Example prose_ex :
  looks_executable "Make sure the cat stays"%string = false ∧
  looks_executable "kill -9 4242"%string = true ∧ looks_executable "run `git status`"%string = true ∧
  looks_executable "FOO=1 cargo test"%string = true ∧ is_terminal_app " ghostty "%string = true.
Proof. vm_compute. auto. Qed.
