(* ===== verification/SpeechIslands.v ===== *)
(** SpeechIslands: speech joined across short pauses, and the words written over
    it (core/pipeline/speech_islands.rs).

    Ranges are half-open on the capture's sample axis. *)

From S2P Require Import Prelude.
From S2P Require Import CaptureEvidence.
From S2P Require Import LedgerSpans.
From S2P Require Import LedgerCoverage.
#[local] Open Scope Z_scope.
#[local] Open Scope mach_scope.

Definition SPEECH_ISLAND_GAP_MS : Z := 400.

Definition gap_samples (sample_rate : Z) : Z := sat_mul sample_rate SPEECH_ISLAND_GAP_MS `div` 1000.

(** An island's clamps and the pauses it joined. *)
Definition Span : Type := Z * Z * Z.
Definition span_start (i : Span) : Z := fst (fst i).
Definition span_end (i : Span) : Z := snd (fst i).

(** The loop over the sorted speech; [cur] is [spans.last_mut()]. *)
Fixpoint join_from (gap : Z) (cur : Span) (l : list (Z * Z)) : list Span :=
  match l with
  | [] => [cur]
  | (start, end_) :: l' =>
      let '(cur_start, cur_end, pauses) := cur in
      if start <? cur_end +sat gap
      then join_from gap (cur_start, Z.max cur_end end_, if cur_end <? start then pauses + 1 else pauses) l'
      else cur :: join_from gap (start, end_, 0) l'
  end.

(** Speech past the observed samples is cut. *)
Definition cut_speech (speech : list (Z * Z)) (observed_samples : Z) : list (Z * Z) :=
  List.filter (λ '(start, end_), start <? end_)
    (map (λ '(start, end_), (start, Z.min end_ observed_samples)) speech).

Definition join_speech_islands (speech : list (Z * Z)) (sample_rate observed_samples : Z) : list Span :=
  match merge_sort pair_le (cut_speech speech observed_samples) with
  | [] => []
  | (start, end_) :: l => join_from (gap_samples sample_rate) (start, end_, 0) l
  end.

(* ------------------------------------------------------------------ *)
(** ** What an island is *)

(** [i] spans exactly the ranges [grp]: its clamps are speech, no pause in it is
    [gap] long, and it counts its pauses. *)
Record island_of (gap : Z) (grp : list (Z * Z)) (i : Span) : Prop := {
  io_nonempty : span_start i < span_end i;
  io_inside z : in_spans z grp → span_start i <= z < span_end i;
  io_first : in_spans (span_start i) grp;
  io_last : in_spans (span_end i - 1) grp;
  io_window t : span_start i <= t → t + Z.max gap 1 <= span_end i →
    ∃ z, t <= z < t + Z.max gap 1 ∧ in_spans z grp;
  io_pauses : ∃ onsets, NoDup onsets ∧ Z.of_nat (length onsets) = snd i ∧
    ∀ z, z ∈ onsets ↔ span_start i < z < span_end i ∧ in_spans z grp ∧ ¬ in_spans (z - 1) grp
}.

Lemma in_spans_snoc z grp r : in_spans z (grp ++ [r]) ↔ in_spans z grp ∨ in_range z r.
Proof. by rewrite in_spans_app, in_spans_singleton. Qed.

Lemma island_single gap s e : 0 <= gap → s < e → island_of gap [(s, e)] (s, e, 0).
Proof.
  intros Hg Hse. split; unfold span_start, span_end; simpl; [done|..].
  - intros z. rewrite in_spans_singleton. done.
  - rewrite in_spans_singleton. unfold in_range. simpl. lia.
  - rewrite in_spans_singleton. unfold in_range. simpl. lia.
  - intros t Ht He. exists t. rewrite in_spans_singleton. unfold in_range. simpl. lia.
  - exists []. split_and!; [constructor|done|]. intros z. rewrite !in_spans_singleton.
    unfold in_range. simpl. split; [by intros ?%not_elem_of_nil|lia].
Qed.

(** The next range joins the island. *)
Lemma island_join gap grp cs ce p s e :
  0 <= gap → s < e → (∀ r, r ∈ grp → r.1 <= s) → s < ce + gap →
  island_of gap grp (cs, ce, p) →
  island_of gap (grp ++ [(s, e)]) (cs, Z.max ce e, if ce <? s then p + 1 else p).
Proof.
  intros Hg Hse Hstarts Hnear [Hne Hin Hfirst Hlast Hwin (onsets & Hnd & Hlen & Hons)].
  unfold span_start, span_end in *. simpl in *.
  assert (Hcs : cs <= s).
  { destruct Hfirst as (r & Hr & Hz). specialize (Hstarts r Hr). unfold in_range in Hz.
    assert (cs <= r.1 < ce); [|lia]. apply Hin. exists r. split; [done|]. unfold in_range. lia. }
  assert (Hcover : s < ce → in_spans s grp).
  { intros Hs. destruct Hlast as (r & Hr & Hz). exists r. split; [done|].
    specialize (Hstarts r Hr). unfold in_range in *. lia. }
  assert (Honset : ∀ z, in_spans z grp → ¬ in_spans (z - 1) grp → z <= s).
  { intros z (r & Hr & Hz) Hno. specialize (Hstarts r Hr). unfold in_range in Hz.
    destruct (Z.eq_dec z r.1); [lia|]. exfalso. apply Hno. exists r. split; [done|]. unfold in_range. lia. }
  split; unfold span_start, span_end; simpl; [lia|..].
  - intros z. rewrite in_spans_snoc. intros [Hz|Hz]; [specialize (Hin z Hz); lia|].
    unfold in_range in Hz. simpl in Hz. lia.
  - rewrite in_spans_snoc. by left.
  - rewrite in_spans_snoc. destruct (Z.max_spec ce e) as [[? ->]|[? ->]]; [right|by left].
    unfold in_range. simpl. lia.
  - intros t Ht He. setoid_rewrite in_spans_snoc.
    destruct (Z.le_gt_cases (t + Z.max gap 1) ce) as [Hold|Hnew].
    { destruct (Hwin t Ht Hold) as (z & ? & ?). exists z. auto. }
    destruct (Z.le_gt_cases s t) as [Hst|Hst].
    { exists t. split; [lia|]. right. unfold in_range. simpl. lia. }
    destruct (Z.le_gt_cases ce t) as [Hct|Hct].
    { exists s. split; [lia|]. right. unfold in_range. simpl. lia. }
    exists (ce - 1). split; [lia|]. by left.
  - destruct (Z.ltb_spec ce s) as [Hgap|Hgap].
    + exists (onsets ++ [s]). split_and!.
      * apply NoDup_app. split_and!; [done| |apply NoDup_singleton].
        intros z Hz Hzs. apply list_elem_of_singleton in Hzs as ->. apply Hons in Hz. lia.
      * rewrite length_app. simpl. lia.
      * intros z. rewrite elem_of_app, list_elem_of_singleton, Hons, !in_spans_snoc.
        unfold in_range. simpl. split.
        { intros [(Hz & Hzin & Hzno)|Hzs].
          - split_and!; [lia..|by left|]. intros [?|?]; [done|lia].
          - subst z. split_and!; [lia..|right; lia|].
            intros [Hz|?]; [|lia]. specialize (Hin _ Hz). lia. }
        intros (Hz & [Hzin|Hzin] & Hzno).
        { left. specialize (Hin z Hzin). split_and!; [lia..|done|]. intros ?. apply Hzno. by left. }
        right. destruct (Z.eq_dec z s); [done|]. exfalso. apply Hzno. right. lia.
    + exists onsets. split_and!; [done|done|].
      intros z. rewrite Hons, !in_spans_snoc. unfold in_range. simpl. split.
      * intros (Hz & Hzin & Hzno). specialize (Honset z Hzin Hzno).
        split_and!; [lia..|by left|]. intros [?|?]; [done|lia].
      * intros (Hz & [Hzin|Hzin] & Hzno).
        { specialize (Hin z Hzin). split_and!; [lia..|done|]. intros ?. apply Hzno. by left. }
        destruct (Z.eq_dec z s) as [->|]; [|exfalso; apply Hzno; right; lia].
        destruct (Z.eq_dec s ce) as [->|]; [exfalso; apply Hzno; by left|].
        split_and!; [lia..|apply Hcover; lia|]. intros ?. apply Hzno. by left.
Qed.

(** Islands in capture order, a gap apart. *)
Definition separated (gap : Z) : list Span → Prop :=
  StronglySorted (λ a b, span_end a + gap <= span_start b).

(** The loop cuts the sorted speech into consecutive groups. *)
Lemma join_from_groups gap grp cur l :
  0 <= gap → is_u64 (span_end cur) →
  StronglySorted pair_le l → (∀ r, r ∈ l → r.1 < r.2 ∧ r.2 <= u64_max) →
  (∀ r r', r ∈ grp → r' ∈ l → r.1 <= r'.1) → island_of gap grp cur →
  ∃ groups, concat groups = grp ++ l ∧ Forall2 (island_of gap) groups (join_from gap cur l) ∧
    separated gap (join_from gap cur l) ∧
    Forall (λ i, span_start cur <= span_start i) (join_from gap cur l).
Proof.
  intros Hg. revert grp cur. induction l as [|[s e] l IH]; intros grp [[cs ce] p] Hu Hs Hl Hle Hio.
  { exists [grp]. simpl. rewrite !app_nil_r. split_and!; [done|constructor; [done|constructor]|repeat constructor|].
    constructor; [unfold span_start; simpl; lia|constructor]. }
  destruct (Hl (s, e)) as [Hse He]; [by left|]. simpl in Hse, He.
  assert (Hl' : ∀ r, r ∈ l → r.1 < r.2 ∧ r.2 <= u64_max) by (intros r Hr; apply Hl; by right).
  apply StronglySorted_inv in Hs as [Hs Hall]. rewrite Forall_forall in Hall.
  assert (Hafter : ∀ r', r' ∈ l → s <= r'.1)
    by (intros r' Hr'; specialize (Hall r' Hr'); unfold pair_le in Hall; simpl in Hall; lia).
  simpl. destruct (s <? ce +sat gap) eqn:Hnear; zbool.
  - unfold span_end in Hu. simpl in Hu.
    assert (Hnear' : s < ce + gap) by (unfold sat_add in Hnear; lia).
    assert (Hstarts : ∀ r, r ∈ grp → r.1 <= s) by (intros r Hr; apply (Hle r (s, e)); [done|by left]).
    destruct (IH (grp ++ [(s, e)]) (cs, Z.max ce e, if ce <? s then p + 1 else p))
      as (groups & Hc & Hgroups & Hsep & Hst); [|done|done| |by apply island_join|].
    + unfold span_end. simpl. mach.
    + intros r r' Hr Hr'. apply elem_of_app in Hr as [Hr|Hr].
      * specialize (Hstarts r Hr). specialize (Hafter r' Hr'). lia.
      * apply list_elem_of_singleton in Hr as ->. by apply Hafter.
    + exists groups. split_and!; [by rewrite Hc, <- app_assoc|done..].
  - assert (Hfar : ce + gap <= s) by (revert Hnear; mach).
    destruct (IH [(s, e)] (s, e, 0)) as (groups & Hc & Hgroups & Hsep & Hst);
      [|done|done| |by apply island_single|].
    + unfold span_end. simpl. destruct (io_inside _ _ _ Hio cs) as [? ?].
      { apply (io_first _ _ _ Hio). }
      unfold span_start, span_end in *. simpl in *. unfold is_u64 in *. lia.
    + intros r r' Hr Hr'. apply list_elem_of_singleton in Hr as ->. by apply Hafter.
    + exists (grp :: groups). simpl. rewrite Hc. split_and!; [done|by constructor| |].
      * constructor; [done|]. eapply Forall_impl; [exact Hst|]. intros i Hi.
        unfold span_start, span_end in *. simpl in *. lia.
      * constructor; [lia|]. eapply Forall_impl; [exact Hst|]. intros i Hi.
        pose proof (io_nonempty _ _ _ Hio). unfold span_start, span_end in *. simpl in *. lia.
Qed.

Lemma gap_samples_nonneg rate : 0 <= rate → 0 <= gap_samples rate.
Proof.
  intros Hr. unfold gap_samples. apply Z.div_pos; [|lia]. unfold sat_mul, SPEECH_ISLAND_GAP_MS. mach.
Qed.

(** Speech samples the observation covers. *)
Definition speech_at (speech : list (Z * Z)) (observed z : Z) : Prop :=
  z < observed ∧ in_spans z speech.

Lemma cut_speech_at speech observed z :
  in_spans z (cut_speech speech observed) ↔ speech_at speech observed z.
Proof.
  unfold cut_speech, speech_at. rewrite in_spans_filter_nonempty. unfold in_spans, in_range. split.
  - intros (r & Hr & Hz). apply list_elem_of_fmap in Hr as ([s e] & -> & Hin). simpl in Hz.
    split; [lia|]. exists (s, e). simpl. split; [done|lia].
  - intros (Hob & [s e] & Hin & Hz). simpl in Hz. exists (s, Z.min e observed).
    split; [apply list_elem_of_fmap; by exists (s, e)|simpl; lia].
Qed.

(** The islands of a capture are in order and at least a gap apart, every
    observed speech sample lies in one, each begins and ends with speech, no
    pause inside is as long as the gap, and the pauses counted are exactly the
    places where speech sets in again between the clamps. *)
Theorem join_speech_islands_exact speech rate observed :
  0 <= rate → is_u64 observed → (∀ r, r ∈ speech → is_u64 r.1) →
  let gap := gap_samples rate in
  let islands := join_speech_islands speech rate observed in
  separated gap islands ∧
  (∀ z, speech_at speech observed z → ∃ i, i ∈ islands ∧ span_start i <= z < span_end i) ∧
  ∀ i, i ∈ islands →
    span_start i < span_end i ∧ speech_at speech observed (span_start i) ∧
    speech_at speech observed (span_end i - 1) ∧
    (∀ t, span_start i <= t → t + Z.max gap 1 <= span_end i →
       ∃ z, t <= z < t + Z.max gap 1 ∧ speech_at speech observed z) ∧
    ∃ onsets, NoDup onsets ∧ Z.of_nat (length onsets) = snd i ∧
      ∀ z, z ∈ onsets ↔ span_start i < z < span_end i ∧ speech_at speech observed z ∧
                        ¬ speech_at speech observed (z - 1).
Proof.
  intros Hrate Hobs Hu gap islands.
  pose proof (gap_samples_nonneg rate Hrate) as Hg. fold gap in Hg.
  set (l := merge_sort pair_le (cut_speech speech observed)).
  assert (Hspeech : ∀ z, in_spans z l ↔ speech_at speech observed z).
  { intros z. rewrite <- cut_speech_at. apply in_spans_perm, merge_sort_Permutation. }
  assert (Hs : StronglySorted pair_le l) by apply (StronglySorted_merge_sort pair_le).
  assert (Hl : ∀ r, r ∈ l → r.1 < r.2 ∧ r.2 <= u64_max ∧ 0 <= r.1).
  { intros r Hr. unfold l in Hr. rewrite merge_sort_Permutation in Hr.
    apply list_elem_of_In, filter_In in Hr as [Hr Hlt].
    apply in_map_iff in Hr as ([s e] & <- & Hin). apply list_elem_of_In in Hin.
    specialize (Hu _ Hin). simpl in *. zbool. unfold is_u64 in *. lia. }
  unfold islands, join_speech_islands. fold l gap.
  destruct l as [|[s e] l'].
  { split_and!; [constructor| |by intros i ?%not_elem_of_nil].
    intros z Hz. apply Hspeech in Hz as (r & Hr & _). by apply not_elem_of_nil in Hr. }
  apply StronglySorted_inv in Hs as [Hs Hall]. rewrite Forall_forall in Hall.
  destruct (Hl (s, e)) as (Hse & He & H0); [by left|]. simpl in Hse, He, H0.
  destruct (join_from_groups gap [(s, e)] (s, e, 0) l') as (groups & Hc & Hgroups & Hsep & Hst);
    [done|unfold span_end, is_u64; simpl; lia|done| | |by apply island_single|].
  { intros r Hr. destruct (Hl r) as (? & ? & ?); [by right|done]. }
  { intros r r' Hr Hr'. apply list_elem_of_singleton in Hr as ->. specialize (Hall r' Hr').
    unfold pair_le in Hall. simpl in *. lia. }
  set (out := join_from gap (s, e, 0) l') in *.
  assert (Hgrp : ∀ z, speech_at speech observed z ↔ ∃ grp, grp ∈ groups ∧ in_spans z grp).
  { intros z. rewrite <- Hspeech. change ((s, e) :: l') with ([(s, e)] ++ l'). rewrite <- Hc.
    unfold in_spans. split.
    - intros (r & Hr & Hz). apply list_elem_of_In, in_concat in Hr as (grp & Hgin & Hr).
      exists grp. split; [by apply list_elem_of_In|]. exists r. split; [by apply list_elem_of_In|done].
    - intros (grp & Hgin & r & Hr & Hz). exists r. split; [|done].
      apply list_elem_of_In, in_concat. exists grp. by rewrite <- !list_elem_of_In. }
  split_and!; [done| |].
  - intros z (grp & [b Hgin]%list_elem_of_lookup & Hz)%Hgrp.
    destruct (Forall2_lookup_l _ _ _ _ _ Hgroups Hgin) as (i & Hi & Hio).
    exists i. split; [by eapply list_elem_of_lookup_2|]. by apply (io_inside _ _ _ Hio).
  - intros i Hi. apply list_elem_of_lookup in Hi as [a Hi].
    destruct (Forall2_lookup_r _ _ _ _ _ Hgroups Hi) as (grp & Hgin & Hio).
    assert (Hmine : ∀ z, in_spans z grp → speech_at speech observed z).
    { intros z Hz. apply Hgrp. exists grp. split; [by eapply list_elem_of_lookup_2|done]. }
    assert (Hown : ∀ z, span_start i <= z < span_end i → speech_at speech observed z → in_spans z grp).
    { intros z Hz (grp' & [b Hgin']%list_elem_of_lookup & Hz')%Hgrp.
      destruct (Forall2_lookup_l _ _ _ _ _ Hgroups Hgin') as (i' & Hi' & Hio').
      pose proof (io_inside _ _ _ Hio' z Hz') as Hzi'.
      destruct (Nat.lt_trichotomy a b) as [Hab|[->|Hab]]; [| |].
      - pose proof (sorted_lookup _ _ _ _ _ _ Hsep Hi Hi' Hab). simpl in *. lia.
      - congruence.
      - pose proof (sorted_lookup _ _ _ _ _ _ Hsep Hi' Hi Hab). simpl in *. lia. }
    destruct Hio as [Hne Hin Hfirst Hlast Hwin (onsets & Hnd & Hlen & Hons)].
    split_and!; [done|by apply Hmine|by apply Hmine| |].
    + intros t Ht He'. destruct (Hwin t Ht He') as (z & ? & ?). exists z. auto.
    + exists onsets. split_and!; [done|done|]. intros z. rewrite Hons. split.
      * intros (Hz & Hzin & Hzno). split_and!; [lia..|by apply Hmine|].
        intros Hsp. apply Hzno, Hown; [lia|done].
      * intros (Hz & Hzin & Hzno). split_and!; [lia..|apply Hown; [lia|done]|].
        intros Hsp. apply Hzno. by apply Hmine.
Qed.

Lemma join_speech_islands_exact_witness :
  join_speech_islands [(0, 10); (12, 20); (5000, 5100); (5000, 5050)] 1000 5080
    = [(0, 20, 1); (5000, 5080, 0)] ∧
  separated (gap_samples 1000)
    (join_speech_islands [(0, 10); (12, 20); (5000, 5100); (5000, 5050)] 1000 5080).
Proof.
  split; [by vm_compute|].
  apply (join_speech_islands_exact [(0, 10); (12, 20); (5000, 5100); (5000, 5050)] 1000 5080);
    [lia|mach|].
  intros r Hr. repeat (apply elem_of_cons in Hr as [->|Hr]; [simpl; mach|]). by apply not_elem_of_nil in Hr.
Defined.

(* ------------------------------------------------------------------ *)
(** ** Words over islands *)

Record IslandWords := mkIslandWords {
  iw_words : Z;
  iw_first_word_start : option Z;
  iw_last_word_end : option Z
}.

Definition IslandWords_default : IslandWords := mkIslandWords 0 None None.

Definition island_overlap (word : Z * Z) (island : Span) : Z :=
  Z.min word.2 (span_end island) -sat Z.max word.1 (span_start island).

Fixpoint take_while_span (p : Span → bool) (l : list Span) : list Span :=
  match l with
  | [] => []
  | x :: l' => if p x then x :: take_while_span p l' else []
  end.

(** The overlaps from [index] on, paired with their positions. *)
Fixpoint overlaps_from (word : Z * Z) (index : nat) (l : list Span) : list (Z * nat) :=
  match l with
  | [] => []
  | island :: l' => (island_overlap word island, index) :: overlaps_from word (S index) l'
  end.

(** [max_by_key(|(overlap, index)| (overlap, Reverse(index)))]. *)
Definition better (best next : Z * nat) : bool :=
  (best.1 <? next.1) || (best.1 =? next.1) && (next.2 <=? best.2)%nat.

Fixpoint max_overlap (best : option (Z * nat)) (l : list (Z * nat)) : option (Z * nat) :=
  match l with
  | [] => best
  | next :: l' =>
      max_overlap (match best with
                   | Some b => if better b next then Some next else Some b
                   | None => Some next
                   end) l'
  end.

Definition best_island (islands : list Span) (word : Z * Z) : option nat :=
  let first := partition_point (λ island, span_end island <=? word.1) islands in
  snd <$> max_overlap None
    (List.filter (λ o : Z * nat, 0 <? o.1)
       (overlaps_from word first
          (take_while_span (λ island, span_start island <? word.2) (drop first islands)))).

Definition place_word (word : Z * Z) (slot : IslandWords) : IslandWords :=
  mkIslandWords (iw_words slot + 1)
    (Some (match iw_first_word_start slot with Some first => Z.min first word.1 | None => word.1 end))
    (Some (match iw_last_word_end slot with Some last => Z.max last word.2 | None => word.2 end)).

Fixpoint place_words (islands : list Span) (words : list (Z * Z)) (placed : list IslandWords) (outside : Z)
    : list IslandWords * Z :=
  match words with
  | [] => (placed, outside)
  | word :: words' =>
      match best_island islands word with
      | None => place_words islands words' placed (outside + 1)
      | Some index => place_words islands words' (alter (place_word word) index placed) outside
      end
  end.

Definition words_per_island (islands : list Span) (words : list (Z * Z)) : list IslandWords * Z :=
  place_words islands words (map (λ _, IslandWords_default) islands) 0.

(** The island a word lies over most, the earliest of several. *)
Definition is_home (islands : list Span) (word : Z * Z) (k : nat) : Prop :=
  ∃ island, islands !! k = Some island ∧ 0 < island_overlap word island ∧
    ∀ j other, islands !! j = Some other →
      island_overlap word other < island_overlap word island ∨
      island_overlap word other = island_overlap word island ∧ (k <= j)%nat.

Lemma max_overlap_spec l : ∀ best r,
  max_overlap best l = Some r →
  (Some r = best ∨ r ∈ l) ∧ (∀ b, best = Some b → b = r ∨ better b r = true) ∧
  ∀ o, o ∈ l → o = r ∨ better o r = true.
Proof.
  assert (Htrans : ∀ a b c, better a b = true → better b c = true → better a c = true).
  { intros [oa ia] [ob ib] [oc ic]. unfold better. simpl. rewrite !orb_true_iff, !andb_true_iff,
      !Z.ltb_lt, !Z.eqb_eq, !Nat.leb_le. lia. }
  assert (Htotal : ∀ a b, better a b = false → a = b ∨ better b a = true).
  { intros [oa ia] [ob ib]. unfold better. simpl.
    rewrite !orb_true_iff, !orb_false_iff, !andb_true_iff, !andb_false_iff, !Z.ltb_lt, !Z.ltb_ge, !Z.eqb_eq,
      !Z.eqb_neq, !Nat.leb_le, !Nat.leb_gt. lia. }
  induction l as [|next l IH]; intros best r; simpl.
  { intros ->. split_and!; [by left| |by intros o ?%not_elem_of_nil]. intros b [= ->]. by left. }
  intros Hr. destruct (IH _ _ Hr) as (Hin & Hbest & Hall). split_and!.
  - destruct Hin as [Hin|Hin]; [|right; by right].
    destruct best as [b|]; [destruct (better b next)|]; simplify_eq;
      [right; by left|by left|right; by left].
  - intros b ->. simpl in Hbest. destruct (better b next) eqn:Hb.
    + right. destruct (Hbest next eq_refl) as [<-|?]; [done|by eapply Htrans].
    + by apply Hbest.
  - intros o [->|Ho]%elem_of_cons; [|by apply Hall].
    destruct best as [b|]; simpl in Hbest; [|by apply Hbest].
    destruct (better b next) eqn:Hb; [by apply Hbest|].
    destruct (Htotal _ _ Hb) as [->|Hnb]; [by apply Hbest|].
    right. destruct (Hbest b eq_refl) as [<-|?]; [done|by eapply Htrans].
Qed.

Lemma max_overlap_none l best : max_overlap best l = None ↔ best = None ∧ l = [].
Proof.
  revert best. induction l as [|next l IH]; intros best; simpl; [naive_solver|].
  rewrite IH. destruct best as [b|]; [destruct (better b next)|]; naive_solver.
Qed.

Lemma overlaps_from_elem word index l o k :
  (o, k) ∈ overlaps_from word index l ↔
  ∃ island, (index <= k)%nat ∧ l !! (k - index)%nat = Some island ∧ o = island_overlap word island.
Proof.
  revert index. induction l as [|island l IH]; intros index; simpl.
  - split; [by intros ?%not_elem_of_nil|naive_solver].
  - rewrite elem_of_cons, IH. split.
    + intros [[= -> ->]|(i & ? & Hl & ->)].
      * exists island. rewrite Nat.sub_diag. done.
      * exists i. split_and!; [lia| |done]. by replace (k - index)%nat with (S (k - S index)) by lia.
    + intros (i & Hle & Hl & ->). destruct (k - index)%nat as [|m] eqn:Hm; simpl in Hl.
      * simplify_eq. left. f_equal. lia.
      * right. exists i. split_and!; [lia| |done]. by replace (k - S index)%nat with m by lia.
Qed.

Lemma take_while_span_prefix p l m x : take_while_span p l !! m = Some x → l !! m = Some x.
Proof.
  revert m. induction l as [|y l IH]; intros m; simpl; [done|]. destruct (p y); [|done].
  destruct m as [|m]; simpl; auto.
Qed.

Lemma take_while_span_lookup p l m x :
  l !! m = Some x → (∀ j y, (j <= m)%nat → l !! j = Some y → p y = true) →
  take_while_span p l !! m = Some x.
Proof.
  revert m. induction l as [|y l IH]; intros m Hm Hp; [done|]. simpl.
  rewrite (Hp 0%nat y) by (done || lia). destruct m as [|m]; [done|]. simpl in *.
  apply IH; [done|]. intros j z Hj. apply (Hp (S j)). lia.
Qed.

Definition islands_ok (islands : list Span) : Prop :=
  separated 0 islands ∧ Forall (λ i, span_start i < span_end i) islands.

Lemma overlap_pos word island :
  0 < island_overlap word island ↔
  word.1 < word.2 ∧ span_start island < span_end island ∧
  word.1 < span_end island ∧ span_start island < word.2.
Proof. unfold island_overlap, sat_sub. lia. Qed.

(** The scan looks at exactly the islands the word overlaps. *)
Lemma candidates_exact islands word o k :
  islands_ok islands →
  (o, k) ∈ List.filter (λ o : Z * nat, 0 <? o.1)
    (overlaps_from word (partition_point (λ island, span_end island <=? word.1) islands)
      (take_while_span (λ island, span_start island <? word.2)
        (drop (partition_point (λ island, span_end island <=? word.1) islands) islands))) ↔
  ∃ island, islands !! k = Some island ∧ o = island_overlap word island ∧ 0 < o.
Proof.
  intros [Hsep Hne]. set (p := λ island, span_end island <=? word.1).
  rewrite list_elem_of_In, filter_In, <- list_elem_of_In, overlaps_from_elem, Z.ltb_lt. simpl. split.
  - intros ((island & Hle & Hl & ->) & Hpos). exists island. split; [|done].
    apply take_while_span_prefix in Hl. rewrite lookup_drop in Hl. rewrite <- Hl. f_equal. lia.
  - intros (island & Hk & -> & Hpos). split; [|done]. exists island. apply overlap_pos in Hpos as Hov.
    assert (Hfirst : (partition_point p islands <= k)%nat).
    { destruct (Nat.le_gt_cases (partition_point p islands) k) as [|Hlt]; [done|]. exfalso.
      pose proof (partition_point_take p islands) as Ht. rewrite Forall_forall in Ht.
      assert (Hp : p island = true).
      { apply Ht. eapply list_elem_of_lookup_2. rewrite lookup_take. by case_decide. }
      unfold p in Hp. zbool. lia. }
    split_and!; [done| |done]. apply take_while_span_lookup.
    + rewrite lookup_drop. rewrite <- Hk. f_equal. lia.
    + intros j other Hj Ho. rewrite lookup_drop in Ho. apply Z.ltb_lt.
      destruct (Nat.eq_dec (partition_point p islands + j)%nat k) as [Heq|Hneq].
      * rewrite Heq, Hk in Ho. simplify_eq. lia.
      * assert (Hlt : (partition_point p islands + j < k)%nat) by lia.
        pose proof (sorted_lookup _ _ _ _ _ _ Hsep Ho Hk Hlt) as Hs. simpl in Hs.
        rewrite Forall_forall in Hne. specialize (Hne other (list_elem_of_lookup_2 _ _ _ Ho)). lia.
Qed.

Lemma best_island_home islands word k :
  islands_ok islands → best_island islands word = Some k ↔ is_home islands word k.
Proof.
  intros Hok. unfold best_island. pose proof (candidates_exact islands word) as Hc.
  set (l := List.filter _ _) in *. split.
  - destruct (max_overlap None l) as [[o i]|] eqn:Hm; [|done]. simpl. intros [= ->].
    destruct (max_overlap_spec l None _ Hm) as ([?|Hin] & _ & Hall); [done|].
    apply Hc in Hin as (island & Hk & -> & Hpos); [|done].
    exists island. split_and!; [done|done|]. intros j other Hj.
    destruct (Z.lt_ge_cases 0 (island_overlap word other)) as [Hp|Hp]; [|lia].
    assert (Hjin : (island_overlap word other, j) ∈ l) by (apply Hc; [done|by exists other]).
    destruct (Hall _ Hjin) as [[= -> ->]|Hb]; [right; split; [done|lia]|].
    unfold better in Hb. simpl in Hb. rewrite orb_true_iff, andb_true_iff, Z.ltb_lt, Z.eqb_eq, Nat.leb_le in Hb.
    lia.
  - intros (island & Hk & Hpos & Hbest).
    assert (Hkin : (island_overlap word island, k) ∈ l) by (apply Hc; [done|by exists island]).
    destruct (max_overlap None l) as [[o i]|] eqn:Hm.
    + simpl. f_equal. destruct (max_overlap_spec l None _ Hm) as ([?|Hin] & _ & Hall); [done|].
      apply Hc in Hin as (other & Hi & -> & _); [|done]. specialize (Hbest i other Hi).
      destruct (Hall _ Hkin) as [[= _ ->]|Hb]; [done|].
      unfold better in Hb. simpl in Hb. rewrite orb_true_iff, andb_true_iff, Z.ltb_lt, Z.eqb_eq, Nat.leb_le in Hb.
      lia.
    + apply max_overlap_none in Hm as [_ Hl]. rewrite Hl in Hkin. by apply not_elem_of_nil in Hkin.
Qed.

Lemma best_island_none islands word :
  islands_ok islands →
  best_island islands word = None ↔ ∀ island, island ∈ islands → island_overlap word island <= 0.
Proof.
  intros Hok. unfold best_island. pose proof (candidates_exact islands word) as Hc.
  set (l := List.filter _ _) in *. rewrite fmap_None, max_overlap_none. split.
  - intros [_ Hl] island [k Hk]%list_elem_of_lookup.
    destruct (Z.le_gt_cases (island_overlap word island) 0) as [|Hp]; [done|]. exfalso.
    assert (Hin : (island_overlap word island, k) ∈ l) by (apply Hc; [done|exists island; split_and!; [done|done|lia]]).
    rewrite Hl in Hin. by apply not_elem_of_nil in Hin.
  - intros Hno. split; [done|]. destruct l as [|[o k] l']; [done|]. exfalso.
    destruct (proj1 (Hc o k Hok)) as (island & Hk & -> & Hpos); [by left|].
    specialize (Hno island (list_elem_of_lookup_2 _ _ _ Hk)). lia.
Qed.

(** The words a slot accounts for. *)
Definition accounts (slot : IslandWords) (mine : list (Z * Z)) : Prop :=
  iw_words slot = Z.of_nat (length mine) ∧
  (∀ m, iw_first_word_start slot = Some m ↔
     (∃ w, w ∈ mine ∧ w.1 = m) ∧ ∀ w, w ∈ mine → m <= w.1) ∧
  (∀ m, iw_last_word_end slot = Some m ↔
     (∃ w, w ∈ mine ∧ w.2 = m) ∧ ∀ w, w ∈ mine → w.2 <= m).

Lemma accounts_default : accounts IslandWords_default [].
Proof.
  split_and!; [done|..]; intros m; (split; [done|]);
    intros [(w & Hw & _) _]; by apply not_elem_of_nil in Hw.
Qed.

Lemma extremum_snoc (f : Z * Z → Z) (pick : Z → Z → Z) (R : Z → Z → Prop) (cur : option Z) mine word :
  (∀ a b, pick a b = a ∧ R a b ∨ pick a b = b ∧ R b a) → (∀ a, R a a) →
  (∀ a b c, R a b → R b c → R a c) → (∀ a b, R a b → R b a → a = b) →
  (∀ m, cur = Some m ↔ (∃ w, w ∈ mine ∧ f w = m) ∧ ∀ w, w ∈ mine → R m (f w)) →
  (cur = None → mine = []) →
  ∀ m, Some (match cur with Some c => pick c (f word) | None => f word end) = Some m ↔
    (∃ w, w ∈ mine ++ [word] ∧ f w = m) ∧ ∀ w, w ∈ mine ++ [word] → R m (f w).
Proof.
  intros Hpick Hrefl Htrans Hanti Hcur Hnone m.
  setoid_rewrite elem_of_app. setoid_rewrite list_elem_of_singleton.
  assert (Huniq : ∀ a b, (∃ w, (w ∈ mine ∨ w = word) ∧ f w = a) → (∀ w, w ∈ mine ∨ w = word → R a (f w)) →
    (∃ w, (w ∈ mine ∨ w = word) ∧ f w = b) → (∀ w, w ∈ mine ∨ w = word → R b (f w)) → a = b).
  { intros a b (w & Hw & <-) Ha (v & Hv & <-) Hb. apply Hanti; auto. }
  set (best := match cur with Some c => _ | None => _ end).
  assert (Hbest : (∃ w, (w ∈ mine ∨ w = word) ∧ f w = best) ∧ ∀ w, w ∈ mine ∨ w = word → R best (f w)).
  { unfold best. destruct cur as [c|].
    - destruct (proj1 (Hcur c) eq_refl) as [(w & Hw & Hfw) Hall].
      destruct (Hpick c (f word)) as [[-> HR]|[-> HR]].
      + split; [exists w; auto|]. intros v [Hv| ->]; auto.
      + split; [exists word; auto|]. intros v [Hv| ->]; eauto.
    - rewrite (Hnone eq_refl). split; [exists word; auto|]. intros v [Hv| ->]; [by apply not_elem_of_nil in Hv|auto]. }
  destruct Hbest as [Hin Hall]. split; [by intros [= <-]|]. intros [Hin' Hall']. f_equal.
  by apply Huniq.
Qed.

Lemma accounts_place slot mine word :
  accounts slot mine → accounts (place_word word slot) (mine ++ [word]).
Proof.
  intros (Hn & Hf & Hl).
  assert (Hnone : ∀ (cur : option Z) (f : Z * Z → Z) (R : Z → Z → Prop), (∀ a, R a a) →
    (∀ a b, R a b ∨ R b a) → (∀ a b c, R a b → R b c → R a c) →
    (∀ m, cur = Some m ↔ (∃ w, w ∈ mine ∧ f w = m) ∧ ∀ w, w ∈ mine → R m (f w)) → cur = None → mine = []).
  { intros cur f R Hrefl Htot Htrans Hcur ->.
    assert (Hex : mine = [] ∨ ∃ w, w ∈ mine ∧ ∀ v, v ∈ mine → R (f w) (f v)).
    { clear -Hrefl Htot Htrans. induction mine as [|w mine IH]; [by left|right].
      destruct IH as [->|(v & Hv & Hall)].
      - exists w. split; [left|]. intros u [->|Hu]%elem_of_cons; [done|by apply not_elem_of_nil in Hu].
      - destruct (Htot (f w) (f v)) as [Hwv|Hvw].
        + exists w. split; [left|]. intros u [->|Hu]%elem_of_cons; eauto.
        + exists v. split; [by right|]. intros u [->|Hu]%elem_of_cons; eauto. }
    destruct Hex as [|(w & Hw & Hall)]; [done|].
    assert (None = Some (f w)) by (apply Hcur; split; [by exists w|done]). done. }
  split_and!.
  - simpl. rewrite length_app. simpl. lia.
  - simpl. apply (extremum_snoc fst Z.min Z.le); [lia|lia|lia|lia|done|].
    eapply (Hnone _ fst Z.le); [lia|lia|lia|done].
  - simpl. apply (extremum_snoc snd Z.max (λ a b, b <= a)); [lia|lia|lia|lia|done|].
    eapply (Hnone _ snd (λ a b, b <= a)); [lia|lia|lia|done].
Qed.

(** The words whose home is [k]. *)
Definition mine_of (k : nat) (words : list (Z * Z)) (homes : list (option nat)) : list (Z * Z) :=
  map fst (List.filter (λ wh : (Z * Z) * option nat, bool_decide (snd wh = Some k)) (zip words homes)).

Lemma place_words_accounts islands words : ∀ placed outside before,
  (∀ k slot, placed !! k = Some slot → accounts slot (before k)) →
  let homes := map (best_island islands) words in
  let '(placed', outside') := place_words islands words placed outside in
  length placed' = length placed ∧
  outside' = outside + Z.of_nat (length (List.filter (λ h, bool_decide (h = None)) homes)) ∧
  ∀ k slot, placed' !! k = Some slot → accounts slot (before k ++ mine_of k words homes).
Proof.
  induction words as [|word words IH]; intros placed outside before Hacc; cbn [place_words map].
  { split_and!; [done|simpl; lia|]. intros k slot Hk. unfold mine_of. simpl. rewrite app_nil_r. auto. }
  destruct (best_island islands word) as [i|] eqn:Hbest.
  - set (before' := λ k, if Nat.eq_dec k i then before k ++ [word] else before k).
    assert (Hacc' : ∀ k slot, alter (place_word word) i placed !! k = Some slot → accounts slot (before' k)).
    { intros k slot. unfold before'. destruct (Nat.eq_dec k i) as [->|Hne].
      - rewrite list_lookup_alter_eq. destruct (placed !! i) eqn:Hi; simpl; [|done].
        intros [= <-]. apply accounts_place. by apply Hacc.
      - rewrite list_lookup_alter_ne by done. apply Hacc. }
    specialize (IH (alter (place_word word) i placed) outside before' Hacc'). cbv zeta in IH |- *.
    destruct (place_words _ _ _ _) as [placed' outside']. destruct IH as (Hlen & Hout & Hall).
    rewrite length_alter in Hlen. split_and!; [done|by simpl; rewrite Hout|].
    intros k slot Hk. specialize (Hall k slot Hk). unfold before' in Hall.
    unfold mine_of in *. simpl. destruct (Nat.eq_dec k i) as [->|Hne].
    + rewrite bool_decide_eq_true_2 by done. simpl. by rewrite <- app_assoc in Hall.
    + rewrite bool_decide_eq_false_2 by congruence. done.
  - specialize (IH placed (outside + 1) before Hacc). cbv zeta in IH |- *.
    destruct (place_words _ _ _ _) as [placed' outside']. destruct IH as (Hlen & Hout & Hall).
    split_and!; [done| |].
    + rewrite Hout. simpl. lia.
    + intros k slot Hk. specialize (Hall k slot Hk). unfold mine_of in *. done.
Qed.

(** Over islands in order, each word is placed on the island it overlaps
    most, the earliest of several, and on none only when it overlaps none: each
    island's entry counts its words with their first start and last end, and
    every other word is counted outside. *)
Theorem words_per_island_exact islands words :
  islands_ok islands →
  let '(placed, outside) := words_per_island islands words in
  length placed = length islands ∧
  ∃ homes,
    Forall2 (λ w h, match h with
                    | Some k => is_home islands w k
                    | None => ∀ island, island ∈ islands → island_overlap w island <= 0
                    end) words homes ∧
    outside = Z.of_nat (length (List.filter (λ h, bool_decide (h = None)) homes)) ∧
    ∀ k slot, placed !! k = Some slot → accounts slot (mine_of k words homes).
Proof.
  intros Hok. unfold words_per_island.
  pose proof (place_words_accounts islands words (map (λ _, IslandWords_default) islands) 0 (λ _, [])) as H.
  destruct (place_words _ _ _ _) as [placed outside]. destruct H as (Hlen & Hout & Hall).
  { intros k slot Hk. apply list_lookup_fmap_Some in Hk as (? & -> & _). apply accounts_default. }
  split; [by rewrite Hlen, length_map|]. exists (map (best_island islands) words).
  split_and!; [|done|done].
  apply Forall2_fmap_r, Forall_Forall2_diag, Forall_forall. intros w _.
  simpl. case_eq (best_island islands w); [intros k Hb; by apply best_island_home|intros Hb; by apply best_island_none].
Qed.

Lemma words_per_island_exact_witness :
  words_per_island [(0, 20, 1); (100, 180, 0)] [(2, 8); (10, 120); (15, 40); (200, 210)]
    = ([mkIslandWords 2 (Some 2) (Some 40); mkIslandWords 1 (Some 10) (Some 120)], 1) ∧
  length (fst (words_per_island [(0, 20, 1); (100, 180, 0)] [(2, 8); (10, 120); (15, 40); (200, 210)])) = 2%nat.
Proof.
  split; [by vm_compute|].
  pose proof (words_per_island_exact [(0, 20, 1); (100, 180, 0)] [(2, 8); (10, 120); (15, 40); (200, 210)]) as H.
  destruct (words_per_island _ _) as [placed outside]. apply H. split.
  - repeat constructor; unfold span_end, span_start; simpl; lia.
  - repeat constructor; unfold span_end, span_start; simpl; lia.
Defined.
