(* ===== verification/LiveAudioBuffer.v ===== *)
(** LiveAudioBuffer: the samples a session can still hand out, on the sample
    clock of its capture (core/pipeline/streaming/live_audio_buffer.rs).

    A sample is the bits of its float.  The capacity is the constructor's
    rounding of a float retention time, an argument here. *)

From S2P Require Import Prelude.

Record LiveAudioBuffer := mkBuffer {
  lb_samples : list Z;
  lb_start_index : Z;
  lb_end_index : Z;
  lb_capacity : nat
}.

Record ResolvedAudioWindow := mkWindow {
  rw_samples : list Z;
  rw_sample_start : Z;
  rw_sample_end : Z
}.

Definition buffer_new (capacity : nat) : LiveAudioBuffer := mkBuffer [] 0 0 capacity.

Definition push (b : LiveAudioBuffer) (chunk : list Z) : LiveAudioBuffer :=
  match chunk with
  | [] => b
  | _ =>
      let b := b <| lb_samples ::= (λ l, l ++ chunk) |>
                 <| lb_end_index := sat_add (lb_end_index b) (Z.of_nat (length chunk)) |> in
      if (lb_capacity b <? length (lb_samples b))%nat
      then
        let overflow := (length (lb_samples b) - lb_capacity b)%nat in
        b <| lb_samples ::= drop overflow |>
          <| lb_start_index := sat_add (lb_start_index b) (Z.of_nat overflow) |>
      else b
  end.

Definition retained_start_sample (b : LiveAudioBuffer) : Z := lb_start_index b.
Definition session_sample_end (b : LiveAudioBuffer) : Z := lb_end_index b.

Definition window_by_samples (b : LiveAudioBuffer) (sample_start sample_end : Z) : option ResolvedAudioWindow :=
  if (sample_end <? sample_start) || (sample_start <? lb_start_index b)
     || (lb_end_index b <? sample_start) || (lb_end_index b <? sample_end)
  then None
  else
    let lo := Z.to_nat (sample_start - lb_start_index b) in
    let hi := Z.to_nat (sample_end - lb_start_index b) in
    Some (mkWindow (take (hi - lo) (drop lo (lb_samples b))) sample_start sample_end).

(* ------------------------------------------------------------------ *)
(** ** The buffer is a suffix of the capture *)

(** The buffer after the capture [pcm]: the last [capacity] samples of it. *)
Definition holds (b : LiveAudioBuffer) (capacity : nat) (pcm : list Z) : Prop :=
  b = mkBuffer (drop (length pcm - capacity) pcm)
        (Z.of_nat (length pcm - capacity)) (Z.of_nat (length pcm)) capacity.

Lemma push_holds b capacity pcm chunk :
  Z.of_nat (length (pcm ++ chunk)) <= u64_max →
  holds b capacity pcm → holds (push b chunk) capacity (pcm ++ chunk).
Proof.
  intros Hmax ->. unfold holds. destruct chunk as [|z chunk]; [by rewrite app_nil_r|].
  set (new := z :: chunk) in *. set (n := length pcm) in *. set (k := (n - capacity)%nat).
  assert (Hlen : length (drop k pcm ++ new) = (n - k + length new)%nat).
  { by rewrite length_app, length_drop. }
  rewrite length_app in Hmax |- *. fold n in Hmax |- *.
  transitivity (if (capacity <? n - k + length new)%nat
    then mkBuffer (drop (n - k + length new - capacity) (drop k pcm ++ new))
           (sat_add (Z.of_nat k) (Z.of_nat (n - k + length new - capacity)))
           (sat_add (Z.of_nat n) (Z.of_nat (length new))) capacity
    else mkBuffer (drop k pcm ++ new) (Z.of_nat k) (sat_add (Z.of_nat n) (Z.of_nat (length new))) capacity).
  { rewrite <- Hlen. done. }
  assert (Hk : k = (n - capacity)%nat) by done. clearbody k. assert (1 <= length new)%nat by (simpl; lia).
  unfold sat_add. destruct (Nat.ltb_spec capacity (n - k + length new)) as [Hlt|Hge]; f_equal; try lia.
  - rewrite !drop_app, drop_drop, length_drop. fold n. f_equal; f_equal; lia.
  - replace k with 0%nat by lia. replace (n + length new - capacity)%nat with 0%nat by lia. done.
Qed.

Lemma pushes_hold chunks : ∀ b capacity pcm,
  Z.of_nat (length (pcm ++ concat chunks)) <= u64_max →
  holds b capacity pcm → holds (foldl push b chunks) capacity (pcm ++ concat chunks).
Proof.
  induction chunks as [|chunk chunks IH]; intros b capacity pcm Hmax Hb; simpl in *.
  { by rewrite app_nil_r. }
  rewrite app_assoc in Hmax |- *. apply IH; [done|]. apply push_holds; [|done].
  rewrite !length_app in *. lia.
Qed.

(** Whatever the chunks of a capture, the buffer hands out exactly the
    requested samples of the capture, never others: a range is resolved iff it
    is in order, not beyond the capture and among its last [capacity] samples. *)
Theorem window_is_capture_slice capacity chunks sample_start sample_end :
  let pcm := concat chunks in
  let b := foldl push (buffer_new capacity) chunks in
  Z.of_nat (length pcm) <= u64_max → 0 <= sample_start →
  session_sample_end b = Z.of_nat (length pcm) ∧
  window_by_samples b sample_start sample_end =
    if decide (Z.of_nat (length pcm - capacity) <= sample_start <= sample_end ∧ sample_end <= Z.of_nat (length pcm))
    then Some (mkWindow (take (Z.to_nat (sample_end - sample_start)) (drop (Z.to_nat sample_start) pcm))
                 sample_start sample_end)
    else None.
Proof.
  intros pcm b Hmax Hs.
  assert (holds b capacity pcm) as Hb.
  { apply (pushes_hold chunks (buffer_new capacity) capacity []); [done|].
    done. }
  rewrite Hb. split; [done|]. unfold window_by_samples. simpl.
  destruct (decide _) as [Hin|Hout].
  - rewrite !(proj2 (Z.ltb_ge _ _)) by lia. simpl. rewrite drop_drop. do 2 f_equal. f_equal; [lia|f_equal; lia].
  - destruct (_ || _) eqn:Hr; [done|]. zbool. lia.
Qed.

Lemma window_is_capture_slice_witness :
  window_by_samples (foldl push (buffer_new 4) [[1; 2; 3]; []; [4; 5]]) 2 4 = Some (mkWindow [3; 4] 2 4) ∧
  window_by_samples (foldl push (buffer_new 4) [[1; 2; 3]; []; [4; 5]]) 0 4 = None.
Proof.
  split.
  - refine (eq_trans (proj2 (window_is_capture_slice 4 [[1; 2; 3]; []; [4; 5]] 2 4 _ _)) _);
      [simpl; mach|lia|by vm_compute].
  - refine (eq_trans (proj2 (window_is_capture_slice 4 [[1; 2; 3]; []; [4; 5]] 0 4 _ _)) _);
      [simpl; mach|lia|by vm_compute].
Defined.
