(* ===== verification/CaptureWindows.v ===== *)
(** CaptureWindows: the work plan of one capture and the audio it can still
    hand out (core/pipeline/streaming/layer1_window.rs, live_audio_buffer.rs).

    The plan lays windows of nine seconds every three seconds over the capture's
    sample clock, offers one at a time, and freezes its head at the first Stop.
    A request is accounted once, whatever became of it.  The buffer keeps the
    latest samples under their absolute index; a sample is the bits of its
    float. *)

From S2P Require Import Prelude.
From S2P Require Import LedgerIdentity.

(* ------------------------------------------------------------------ *)
(** ** The plan *)

Definition LIVE_WINDOW_SECS : Z := 9.
Definition LIVE_STEP_SECS : Z := 3.

Record CaptureWindowPlan := mkPlan {
  wp_session : string;
  wp_capture_epoch : Z;
  wp_window_samples : Z;
  wp_step_samples : Z;
  wp_capture_end : Z;
  wp_eof : option Z;
  wp_next_start : Z;
  wp_last_full_end : Z;
  wp_offered : option TailSampleRange;
  wp_finished : bool;
  wp_trial_offer : bool;
  wp_last_trial_bucket : option Z
}.

Definition plan_new (session : string) (capture_epoch sample_rate : Z) : CaptureWindowPlan :=
  mkPlan session capture_epoch (sample_rate * LIVE_WINDOW_SECS) (sample_rate * LIVE_STEP_SECS)
    0 None 0 0 None (sample_rate =? 0) false None.

Definition set_non_overlapping_publications (p : CaptureWindowPlan) : CaptureWindowPlan :=
  p <| wp_step_samples := wp_window_samples p |>.

(** The first Stop freezes the head. *)
Definition observe_head (capture_end : Z) (stopping : bool) (p : CaptureWindowPlan) : CaptureWindowPlan :=
  if bool_decide (is_Some (wp_eof p)) then p
  else
    let p := if wp_capture_end p <? capture_end then p <| wp_capture_end := capture_end |> else p in
    if stopping then p <| wp_eof := Some (wp_capture_end p) |> else p.

Definition plan_range (p : CaptureWindowPlan) (sample_start sample_end : Z) : TailSampleRange :=
  mkTailRange (wp_session p) (wp_capture_epoch p) sample_start sample_end.

(** Nothing more to offer: after Stop the plan is finished. *)
Definition nothing_due (p : CaptureWindowPlan) : CaptureWindowPlan * option TailSampleRange :=
  (if bool_decide (is_Some (wp_eof p)) then p <| wp_finished := true |> else p, None).

Definition propose (p : CaptureWindowPlan) (end_ : Z) : CaptureWindowPlan * option TailSampleRange :=
  if end_ <=? wp_next_start p
  then (p <| wp_finished := bool_decide (is_Some (wp_eof p)) |>, None)
  else
    let range := plan_range p (wp_next_start p) end_ in
    (p <| wp_offered := Some range |>, Some range).

Definition next_due (capture_end : Z) (stopping : bool) (p : CaptureWindowPlan)
    : CaptureWindowPlan * option TailSampleRange :=
  if wp_trial_offer p then (p, wp_offered p)
  else if wp_finished p then (p, None)
  else if bool_decide (wp_eof p = None) && (capture_end <? wp_capture_end p) then (p, None)
  else
    let p := observe_head capture_end stopping p in
    match wp_offered p with
    | Some offered => (p, Some offered)
    | None =>
        let head := default (wp_capture_end p) (wp_eof p) in
        match checked_add (wp_next_start p) (wp_window_samples p) with
        | None => nothing_due p
        | Some full_end =>
            if (0 <? wp_window_samples p) && (full_end <=? head) then propose p full_end
            else if bool_decide (is_Some (wp_eof p)) && (wp_last_full_end p <? head) && (wp_next_start p <? head)
            then propose p head
            else nothing_due p
        end
    end.

Definition offer_trial (start end_ capture_end : Z) (stopping : bool) (p : CaptureWindowPlan)
    : CaptureWindowPlan * option TailSampleRange :=
  let p := observe_head capture_end stopping p in
  let head := default (wp_capture_end p) (wp_eof p) in
  if wp_window_samples p =? 0 then (p, None)
  else
    let bucket := head `div` wp_window_samples p in
    if bool_decide (is_Some (wp_offered p))
       || (end_ <=? start)
       || (head <? end_)
       || (wp_window_samples p <? end_ - start)
       || bool_decide (wp_last_trial_bucket p = Some bucket)
       || (bool_decide (is_Some (wp_eof p)) && (start <? sat_sub head (wp_window_samples p)))
    then (p, None)
    else
      let range := plan_range p start end_ in
      (p <| wp_last_trial_bucket := Some bucket |> <| wp_trial_offer := true |> <| wp_offered := Some range |>,
       Some range).

Definition account (range : TailSampleRange) (p : CaptureWindowPlan) : CaptureWindowPlan * bool :=
  if bool_decide (wp_offered p <> Some range) then (p, false)
  else
    let p := p <| wp_offered := None |> in
    if wp_trial_offer p then (p <| wp_trial_offer := false |>, true)
    else if tr_sample_end range - tr_sample_start range =? wp_window_samples p
    then
      let p := p <| wp_last_full_end := tr_sample_end range |>
                 <| wp_next_start := sat_add (wp_next_start p) (wp_step_samples p) |> in
      (p <| wp_finished := bool_decide (wp_eof p = Some (wp_last_full_end p)) |>, true)
    else (p <| wp_finished := true |>, true).

Definition admission_horizon (p : CaptureWindowPlan) : Z :=
  if wp_finished p then u64_max else wp_next_start p.

Definition is_finished (p : CaptureWindowPlan) : bool :=
  wp_finished p && bool_decide (wp_offered p = None).

(** One call of the session on its plan. *)
Inductive PlanCall :=
  | CallDue (capture_end : Z) (stopping : bool)
  | CallTrial (start end_ capture_end : Z) (stopping : bool)
  | CallAccount (range : TailSampleRange).

(** The log keeps every accounted range, with whether it was a trial. *)
Abbreviation PlanLog := (list (bool * TailSampleRange)).

Definition plan_call (st : CaptureWindowPlan * PlanLog) (c : PlanCall) : CaptureWindowPlan * PlanLog :=
  let '(p, log) := st in
  match c with
  | CallDue capture_end stopping => (fst (next_due capture_end stopping p), log)
  | CallTrial start end_ capture_end stopping => (fst (offer_trial start end_ capture_end stopping p), log)
  | CallAccount range =>
      let '(p', done) := account range p in
      (p', if done then log ++ [(wp_trial_offer p, range)] else log)
  end.

Definition plan_run (st : CaptureWindowPlan * PlanLog) (calls : list PlanCall) : CaptureWindowPlan * PlanLog :=
  foldl plan_call st calls.

(** The plan a capture starts with. *)
Definition plan_start (session : string) (capture_epoch sample_rate : Z) (whole : bool) : CaptureWindowPlan :=
  let p := plan_new session capture_epoch sample_rate in
  if whole then set_non_overlapping_publications p else p.

(** The session's own loop after Stop: take what is due, account it. *)
Fixpoint drain (fuel : nat) (capture_end : Z) (p : CaptureWindowPlan) : CaptureWindowPlan * PlanLog :=
  match fuel with
  | O => (p, [])
  | S fuel' =>
      match next_due capture_end true p with
      | (p, None) => (p, [])
      | (p, Some range) =>
          let '(p', log) := drain fuel' capture_end (fst (account range p)) in
          (p', (wp_trial_offer p, range) :: log)
      end
  end.

(** Windows that are not trials. *)
Definition grid (log : PlanLog) : list TailSampleRange :=
  map snd (List.filter (λ e : bool * TailSampleRange, negb (fst e)) log).

Example plan_example :
  let '(p, log) := drain 9 250000 (plan_new "s" 1 16000) in
  map (λ r, (tr_sample_start r, tr_sample_end r)) (grid log)
    = [(0, 144000); (48000, 192000); (96000, 240000); (144000, 250000)]
  ∧ is_finished p = true.
Proof. by vm_compute. Qed.
