(* ===== verification/CaptureWindowsFacts.v ===== *)
(** CaptureWindowsFacts: the plan leaves no sample of a capture unheard, takes
    no window twice, keeps its trials few, and comes to an end. *)

From S2P Require Import Prelude.
From S2P Require Import LedgerIdentity.
From S2P Require Import CaptureWindows.

#[local] Ltac unbool :=
  repeat match goal with
  | H : bool_decide _ = true |- _ => apply bool_decide_eq_true in H
  | H : bool_decide _ = false |- _ => apply bool_decide_eq_false in H
  | H : _ && _ = true |- _ => apply andb_true_iff in H as [? ?]
  | H : _ && _ = false |- _ => apply andb_false_iff in H
  | H : _ || _ = true |- _ => apply orb_true_iff in H
  | H : _ || _ = false |- _ => apply orb_false_iff in H as [? ?]
  | H : (_ <=? _) = true |- _ => apply Z.leb_le in H
  | H : (_ <=? _) = false |- _ => apply Z.leb_gt in H
  | H : (_ <? _) = true |- _ => apply Z.ltb_lt in H
  | H : (_ <? _) = false |- _ => apply Z.ltb_ge in H
  | H : (_ =? _) = true |- _ => apply Z.eqb_eq in H
  | H : (_ =? _) = false |- _ => apply Z.eqb_neq in H
  end.

#[local] Ltac plan_tac := done || congruence || (intros; by eexists) || by eauto.

Section plan.
  Context (sess : string) (epoch rate : Z) (whole : bool).
  Context (Hrate : 0 < rate <= u32_max).

Definition win : Z := rate * LIVE_WINDOW_SECS.
Definition stride : Z := if whole then win else rate * LIVE_STEP_SECS.

(** What the callers pass: a head on the sample clock, well below its end. *)
Definition head_ok (capture_end : Z) : Prop := 0 <= capture_end <= u64_max - win.

Definition call_ok (c : PlanCall) : Prop :=
  match c with
  | CallDue capture_end _ => head_ok capture_end
  | CallTrial start end_ capture_end _ => 0 <= start /\ head_ok capture_end
  | CallAccount _ => True
  end.

(** The [k]-th window of the grid. *)
Definition grid_window (k : nat) : TailSampleRange :=
  mkTailRange sess epoch (Z.of_nat k * stride) (Z.of_nat k * stride + win).

Definition grid_windows (n : nat) : list TailSampleRange := map grid_window (seq 0 n).

(** The end of the last of [n] windows. *)
Definition full_end (n : nat) : Z :=
  match n with O => 0 | S m => Z.of_nat m * stride + win end.

(** The last, shorter window after a frozen head. *)
Definition tail_window (n : nat) (e : Z) : TailSampleRange :=
  mkTailRange sess epoch (Z.of_nat n * stride) e.

Definition tail_of (n : nat) (e : Z) : Prop :=
  full_end n < e /\ Z.of_nat n * stride < e < Z.of_nat n * stride + win.

Lemma stride_pos : 0 < stride <= win.
Proof. unfold stride, win, LIVE_WINDOW_SECS, LIVE_STEP_SECS. destruct whole; lia. Qed.

Lemma next_le_full n : Z.of_nat n * stride <= full_end n.
Proof. pose proof stride_pos. destruct n; simpl; lia. Qed.

Lemma grid_windows_S n : grid_windows (S n) = grid_windows n ++ [grid_window n].
Proof. unfold grid_windows. rewrite seq_S, map_app. done. Qed.

(** What never changes, the head and the offer. *)
Record plan_base (p : CaptureWindowPlan) : Prop := {
  pb_session : wp_session p = sess;
  pb_epoch : wp_capture_epoch p = epoch;
  pb_window : wp_window_samples p = win;
  pb_step : wp_step_samples p = stride;
  pb_head : head_ok (wp_capture_end p);
  pb_eof : ∀ e, wp_eof p = Some e → e = wp_capture_end p;
  pb_trial : wp_trial_offer p = true → is_Some (wp_offered p)
}.

(** The grid after [n] full windows: still open, or closed by a short one. *)
Record grid_at (n : nat) (p : CaptureWindowPlan) (log : PlanLog) : Prop := {
  ga_next : wp_next_start p = Z.of_nat n * stride;
  ga_full : wp_last_full_end p = full_end n;
  ga_seen : full_end n <= wp_capture_end p;
  ga_log :
    (grid log = grid_windows n ∧
     (wp_finished p = true → wp_eof p = Some (wp_capture_end p) ∧ wp_capture_end p <= full_end n)) ∨
    (wp_finished p = true ∧ wp_eof p = Some (wp_capture_end p) ∧ tail_of n (wp_capture_end p) ∧
     grid log = grid_windows n ++ [tail_window n (wp_capture_end p)]);
  ga_offer : ∀ r, wp_trial_offer p = false → wp_offered p = Some r →
    wp_finished p = false ∧
    ((r = grid_window n ∧ Z.of_nat n * stride + win <= wp_capture_end p) ∨
     (wp_eof p = Some (wp_capture_end p) ∧ tail_of n (wp_capture_end p) ∧
      r = tail_window n (wp_capture_end p)))
}.

Definition plan_inv (st : CaptureWindowPlan * PlanLog) : Prop :=
  plan_base (fst st) ∧ ∃ n, grid_at n (fst st) (snd st).

Lemma head_of p :
  plan_base p → default (wp_capture_end p) (wp_eof p) = wp_capture_end p.
Proof. intros B. destruct (wp_eof p) eqn:He; simpl; [by apply (pb_eof _ B)|done]. Qed.

Lemma observe_head_base p ce stop :
  head_ok ce → plan_base p → plan_base (observe_head ce stop p).
Proof.
  intros Hce [? ? ? ? ? He ?]. unfold observe_head.
  case_bool_decide as Hs; [by constructor|].
  assert (wp_eof p = None) as Hp by (destruct (wp_eof p); [by destruct Hs|done]).
  destruct (_ <? _), stop; constructor; cbn; try done; intros; congruence.
Qed.

(** What observing the head leaves alone. *)
Lemma observe_head_frame p ce stop :
  let q := observe_head ce stop p in
  wp_next_start q = wp_next_start p ∧ wp_last_full_end q = wp_last_full_end p ∧
  wp_offered q = wp_offered p ∧ wp_finished q = wp_finished p ∧
  wp_trial_offer q = wp_trial_offer p ∧ wp_last_trial_bucket q = wp_last_trial_bucket p ∧
  wp_capture_end p <= wp_capture_end q ∧
  (∀ e, wp_eof p = Some e → wp_eof q = Some e ∧ wp_capture_end q = wp_capture_end p).
Proof.
  cbv zeta. unfold observe_head. case_bool_decide as Hs.
  { split_and!; (done || lia || auto). }
  assert (wp_eof p = None) as Hp by (destruct (wp_eof p); [by destruct Hs|done]).
  destruct (_ <? _) eqn:Hlt, stop; unbool; cbn; split_and!; (done || lia || congruence).
Qed.

Lemma observe_head_grid n p log ce stop :
  plan_base p → grid_at n p log → grid_at n (observe_head ce stop p) log.
Proof.
  intros B [Hn Hf Hs Hl Ho].
  pose proof (observe_head_frame p ce stop) as (E1 & E2 & E3 & E4 & E5 & _ & Hce & He).
  constructor; rewrite ?E1, ?E2, ?E3, ?E4, ?E5; [done..|lia| |].
  - destruct Hl as [[Hg Hd]|(Hd & Hp & Ht & Hg)].
    + left. split; [done|]. intros Hfin. destruct (Hd Hfin) as [Hp Hle].
      destruct (He _ Hp) as [-> ->]. done.
    + right. destruct (He _ Hp) as [-> ->]. done.
  - intros r Htr Hr. destruct (Ho r Htr Hr) as [Hfin [[-> Hle]|(Hp & Ht & ->)]]; split; [done| |done|].
    + left. split; [done|lia].
    + right. destruct (He _ Hp) as [-> ->]. done.
Qed.

Lemma checked_end n p log :
  plan_base p → grid_at n p log →
  checked_add (wp_next_start p) (wp_window_samples p) = Some (Z.of_nat n * stride + win).
Proof.
  intros B G. unfold checked_add. rewrite (ga_next _ _ _ G), (pb_window _ B).
  pose proof (next_le_full n). pose proof (ga_seen _ _ _ G). pose proof (pb_head _ B) as [_ Hh].
  rewrite (proj2 (Z.leb_le _ _)); [done|lia].
Qed.

Lemma nothing_due_inv n p log :
  plan_base p → grid_at n p log → wp_offered p = None → wp_finished p = false →
  (wp_eof p = Some (wp_capture_end p) → wp_capture_end p <= full_end n) →
  plan_base (fst (nothing_due p)) ∧ grid_at n (fst (nothing_due p)) log.
Proof.
  intros B G Hno Hfin Hdue. unfold nothing_due. simpl. case_bool_decide as Hs; [|done].
  destruct Hs as [e He]. pose proof (pb_eof _ B _ He) as ->.
  destruct B as [B1 B2 B3 B4 B5 B6 B7]. destruct G as [G1 G2 G3 G4 G5].
  split; [by constructor|]. constructor; cbn; [done..| |].
  - left. destruct G4 as [[Hg _]|[Hf _]]; [|congruence]. split; [done|]. auto.
  - intros r Htr Hr. congruence.
Qed.

Lemma propose_inv n p log e :
  plan_base p → grid_at n p log → wp_offered p = None → wp_finished p = false →
  wp_trial_offer p = false →
  ((e = Z.of_nat n * stride + win ∧ e <= wp_capture_end p) ∨
   (e = wp_capture_end p ∧ wp_eof p = Some (wp_capture_end p) ∧ tail_of n e)) →
  plan_base (fst (propose p e)) ∧ grid_at n (fst (propose p e)) log ∧
  snd (propose p e) = wp_offered (fst (propose p e)) ∧ wp_finished (fst (propose p e)) = false.
Proof.
  intros B G Hno Hfin Htr He. pose proof stride_pos. unfold propose.
  rewrite (proj2 (Z.leb_gt _ _)) by (rewrite (ga_next _ _ _ G); unfold tail_of in He; lia).
  destruct B as [B1 B2 B3 B4 B5 B6 B7]. destruct G as [G1 G2 G3 G4 G5]. simpl.
  split; [constructor; cbn; plan_tac|split; [|done]].
  constructor; cbn; [done..|]. intros r _ [= <-].
  split; [done|]. unfold plan_range. rewrite B1, B2, G1.
  destruct He as [[-> Hle]|(-> & Heof & Ht)]; [left|right]; done.
Qed.

Lemma next_due_inv p log ce stop :
  head_ok ce → plan_inv (p, log) → plan_inv (fst (next_due ce stop p), log).
Proof.
  intros Hce [B [n G]]. cbn [fst snd] in B, G. unfold plan_inv. cbn [fst snd]. unfold next_due.
  destruct (wp_trial_offer p) eqn:Htr; [by split; [|exists n]|].
  destruct (wp_finished p) eqn:Hfin; [by split; [|exists n]|].
  destruct (bool_decide (wp_eof p = None) && _); [by split; [|exists n]|].
  pose proof (observe_head_base p ce stop Hce B) as B'.
  pose proof (observe_head_grid n p log ce stop B G) as G'.
  pose proof (observe_head_frame p ce stop) as (_ & _ & _ & E4 & E5 & _).
  set (q := observe_head ce stop p) in *. rewrite Hfin in E4. rewrite Htr in E5.
  destruct (wp_offered q) eqn:Ho; [by split; [|exists n]|].
  rewrite (checked_end n q log B' G'), (head_of q B'), (ga_full _ _ _ G'), (ga_next _ _ _ G').
  pose proof stride_pos as Hpos. pose proof (next_le_full n) as Hnf. pose proof (pb_window _ B') as Hw.
  destruct ((0 <? _) && _) eqn:Hfull; unbool.
  { edestruct (propose_inv n q log (Z.of_nat n * stride + win) B' G' Ho E4 E5) as (B2 & G2 & _);
      [by left; lia|by split; [|exists n]]. }
  destruct (bool_decide _ && _ && _) eqn:Htail; unbool.
  { assert (is_Some (wp_eof q)) as [e He] by done. pose proof (pb_eof _ B' _ He) as ->.
    edestruct (propose_inv n q log (wp_capture_end q) B' G' Ho E4 E5) as (B2 & G2 & _);
      [right|by split; [|exists n]].
    split_and!; try done. unfold tail_of. destruct Hfull as [Hx|Hx]; unbool; lia. }
  edestruct (nothing_due_inv n q log B' G' Ho E4) as (B2 & G2); [|by split; [|exists n]].
  intros He. rewrite He, bool_decide_eq_true_2 in Htail by (by eexists).
  destruct Htail as [Hx|Hx]; unbool; [|lia]. destruct Hx as [Hx|Hx]; unbool; [done|lia].
Qed.

Lemma grid_app (l1 l2 : PlanLog) : grid (l1 ++ l2) = grid l1 ++ grid l2.
Proof. unfold grid. by rewrite List.filter_app, map_app. Qed.

Lemma offer_trial_inv p log s e ce stop :
  head_ok ce → plan_inv (p, log) → plan_inv (fst (offer_trial s e ce stop p), log).
Proof.
  intros Hce [B [n G]]. cbn [fst snd] in B, G. unfold plan_inv. cbn [fst snd]. unfold offer_trial.
  pose proof (observe_head_base p ce stop Hce B) as B'.
  pose proof (observe_head_grid n p log ce stop B G) as G'.
  set (q := observe_head ce stop p) in *.
  case_match; [by split; [|exists n]|]. case_match; [by split; [|exists n]|]. cbn [fst].
  destruct B' as [B1 B2 B3 B4 B5 B6 B7]. destruct G' as [G1 G2 G3 G4 G5].
  split; [constructor; cbn; plan_tac|]. exists n. by constructor.
Qed.

Lemma account_full n p log :
  plan_base p → grid_at n p log → wp_trial_offer p = false → wp_offered p = Some (grid_window n) →
  Z.of_nat n * stride + win <= wp_capture_end p → wp_finished p = false →
  plan_inv (plan_call (p, log) (CallAccount (grid_window n))).
Proof.
  intros [B1 B2 B3 B4 B5 B6 B7] [G1 G2 G3 G4 G5] Htr Ho Hle Hfin. pose proof stride_pos as Hpos.
  assert (grid log = grid_windows n) as Hlog by (destruct G4 as [[? _]|[? _]]; [done|congruence]).
  cbn [plan_call]. unfold account. rewrite bool_decide_eq_false_2 by (rewrite Ho; congruence). cbn.
  rewrite Htr. replace (_ =? wp_window_samples p) with true
    by (symmetry; apply Z.eqb_eq; rewrite B3; cbn; lia).
  cbn. assert (Hsat : sat_add (wp_next_start p) (wp_step_samples p) = Z.of_nat (S n) * stride).
  { destruct B5 as [_ ?]. rewrite G1, B4. unfold sat_add. lia. }
  split; [constructor; cbn; plan_tac|]. exists (S n). rewrite Hsat. cbn [fst snd].
  constructor; cbn -[Z.of_nat Z.mul Z.add grid_windows grid full_end];
    [lia|done|done| |done].
  left. rewrite grid_app, grid_windows_S, Hlog. split; [done|].
  intros Hd%bool_decide_eq_true. pose proof (B6 _ Hd) as Heq.
  rewrite <- Heq. split; [done|]. cbn. lia.
Qed.

Lemma account_tail n p log :
  plan_base p → grid_at n p log → wp_trial_offer p = false →
  wp_offered p = Some (tail_window n (wp_capture_end p)) →
  tail_of n (wp_capture_end p) → wp_eof p = Some (wp_capture_end p) → wp_finished p = false →
  plan_inv (plan_call (p, log) (CallAccount (tail_window n (wp_capture_end p)))).
Proof.
  intros [B1 B2 B3 B4 B5 B6 B7] [G1 G2 G3 G4 G5] Htr Ho Ht He Hfin.
  assert (grid log = grid_windows n) as Hlog by (destruct G4 as [[? _]|[? _]]; [done|congruence]).
  cbn [plan_call]. unfold account. rewrite bool_decide_eq_false_2 by (rewrite Ho; congruence). cbn.
  rewrite Htr. replace (_ =? wp_window_samples p) with false
    by (symmetry; apply Z.eqb_neq; rewrite B3; unfold tail_of in Ht; cbn; lia).
  split; [constructor; cbn; plan_tac|]. exists n.
  constructor; cbn -[grid grid_windows full_end Z.of_nat Z.mul]; [done..| |done]. right. by rewrite grid_app, Hlog.
Qed.

Lemma account_inv p log r : plan_inv (p, log) → plan_inv (plan_call (p, log) (CallAccount r)).
Proof.
  intros [B [n G]]. cbn [fst snd] in B, G.
  destruct (decide (wp_offered p = Some r)) as [Ho|Ho].
  2:{ cbn [plan_call]. unfold account. rewrite bool_decide_eq_true_2 by done. split; [done|by exists n]. }
  destruct (wp_trial_offer p) eqn:Htr.
  - cbn [plan_call]. unfold account. rewrite bool_decide_eq_false_2 by tauto. cbn. rewrite Htr.
    destruct B as [B1 B2 B3 B4 B5 B6 B7]. destruct G as [G1 G2 G3 G4 G5].
    split; [by constructor|]. exists n. cbn [fst snd].
    constructor; cbn -[grid grid_windows full_end]; [done..| |done]. by rewrite grid_app, app_nil_r.
  - destruct (ga_offer _ _ _ G r Htr Ho) as [Hfin [[-> Hle]|(He & Ht & ->)]].
    + by apply account_full.
    + by apply account_tail.
Qed.

Lemma plan_call_inv st c : call_ok c → plan_inv st → plan_inv (plan_call st c).
Proof.
  destruct st as [p log], c; intros Hc Hi.
  - by apply next_due_inv.
  - apply offer_trial_inv; [apply Hc|done].
  - by apply account_inv.
Qed.

Lemma plan_run_inv st calls : Forall call_ok calls → plan_inv st → plan_inv (plan_run st calls).
Proof.
  intros Hc. revert st. induction Hc as [|c calls Hok Hall IH]; intros st Hi; [done|].
  apply IH. by apply plan_call_inv.
Qed.

Lemma plan_start_inv : plan_inv (plan_start sess epoch rate whole, []).
Proof.
  pose proof stride_pos as Hpos. unfold plan_inv, plan_start, plan_new, set_non_overlapping_publications. simpl.
  assert (0 <= u64_max - win) by (unfold win, LIVE_WINDOW_SECS; mach).
  split.
  - destruct whole eqn:Hw; constructor; cbn; unfold stride, head_ok; rewrite ?Hw; (done || lia).
  - exists O. destruct whole; constructor; cbn; try done; left; (split; [done|]);
      intros Hz%Z.eqb_eq; lia.
Qed.

(* ------------------------------------------------------------------ *)
(** ** Every sample is heard *)

Definition heard (log : PlanLog) (z : Z) : Prop :=
  ∃ r, r ∈ grid log ∧ tr_sample_start r <= z < tr_sample_end r.

Lemma heard_windows log n z :
  grid_windows n `prefix_of` grid log → 0 <= z < full_end n → heard log z.
Proof.
  intros [rest Hp] Hz. pose proof stride_pos as Hpos. unfold heard.
  enough (∃ r, r ∈ grid_windows n ∧ tr_sample_start r <= z < tr_sample_end r) as (r & Hr & Hin).
  { exists r. split; [|done]. rewrite Hp. apply elem_of_app. by left. }
  clear Hp. induction n as [|n IH]; [simpl in Hz; lia|]. rewrite grid_windows_S. simpl in Hz.
  destruct (decide (z < full_end n)) as [Hlt|Hge].
  - destruct IH as (r & Hr & Hin); [lia|]. exists r. split; [|done]. apply elem_of_app. by left.
  - exists (grid_window n). split; [apply elem_of_app; right; by left|].
    pose proof (next_le_full n). simpl. lia.
Qed.

Lemma finished_heard p log z :
  plan_inv (p, log) → is_finished p = true → 0 <= z < wp_capture_end p →
  wp_eof p = Some (wp_capture_end p) ∧ heard log z.
Proof.
  intros [B [n [G1 G2 G3 G4 G5]]] Hf Hz. simpl in *.
  apply andb_true_iff in Hf as [Hf _].
  destruct G4 as [[Hg Hd]|(_ & He & Ht & Hg)].
  - destruct (Hd Hf) as [He Hle]. split; [done|].
    apply (heard_windows log n); [by rewrite Hg|lia].
  - split; [done|]. destruct (decide (z < full_end n)) as [Hlt|Hge].
    + apply (heard_windows log n); [rewrite Hg; by eexists|lia].
    + exists (tail_window n (wp_capture_end p)). split; [rewrite Hg; apply elem_of_app; right; by left|].
      pose proof (next_le_full n). simpl. lia.
Qed.

Lemma next_due_frame p ce stop :
  let q := fst (next_due ce stop p) in
  wp_next_start q = wp_next_start p ∧ (wp_finished p = true → wp_finished q = true).
Proof.
  cbv zeta. unfold next_due, propose, nothing_due.
  pose proof (observe_head_frame p ce stop) as (E1 & _ & _ & E4 & _).
  destruct (wp_trial_offer p); [done|]. destruct (wp_finished p) eqn:Hf; [done|].
  repeat case_match; simpl in *; simplify_eq; done.
Qed.

Lemma offer_trial_frame p s e ce stop :
  let q := fst (offer_trial s e ce stop p) in
  wp_next_start q = wp_next_start p ∧ wp_finished q = wp_finished p.
Proof.
  cbv zeta. unfold offer_trial.
  pose proof (observe_head_frame p ce stop) as (E1 & _ & _ & E4 & _).
  repeat case_match; simpl in *; done.
Qed.

Lemma horizon_le p q log :
  plan_inv (q, log) → wp_next_start p <= wp_next_start q →
  (wp_finished p = true → wp_finished q = true) → admission_horizon p <= admission_horizon q.
Proof.
  intros [B [n G]] Hn Hf. unfold admission_horizon. simpl in *.
  pose proof (ga_next _ _ _ G). pose proof (ga_seen _ _ _ G). pose proof (next_le_full n).
  pose proof (pb_head _ B) as [_ ?]. pose proof stride_pos.
  destruct (wp_finished p) eqn:Hp; [rewrite Hf by done; done|].
  destruct (wp_finished q); lia.
Qed.

(** A call adds at most one range, a grid one no earlier than the horizon. *)
Lemma plan_call_horizon p log c :
  call_ok c → plan_inv (p, log) →
  let '(p', log') := plan_call (p, log) c in
  ∃ new, log' = log ++ new ∧ (∀ r, r ∈ grid new → admission_horizon p <= tr_sample_start r)
    ∧ admission_horizon p <= admission_horizon p'.
Proof.
  intros Hc Hi. pose proof (plan_call_inv (p, log) c Hc Hi) as Hi'. destruct c as [ce stop|s e ce stop|r].
  - simpl in *. exists []. rewrite app_nil_r. split_and!; [done|by intros ? ?%elem_of_nil|].
    pose proof (next_due_frame p ce stop) as [E1 E2]. eapply horizon_le; [exact Hi'|lia|done].
  - simpl in *. exists []. rewrite app_nil_r. split_and!; [done|by intros ? ?%elem_of_nil|].
    pose proof (offer_trial_frame p s e ce stop) as [E1 E2]. eapply horizon_le; [exact Hi'|lia|congruence].
  - destruct Hi as [B [n G]]. simpl in B, G. simpl plan_call in *.
    destruct (account r p) as [p' ok] eqn:Ha. unfold account in Ha.
    case_bool_decide as Ho.
    { injection Ha as <- <-. exists []. rewrite app_nil_r. by split_and!; [|intros ? ?%elem_of_nil|]. }
    destruct (wp_trial_offer p) eqn:Htr.
    { cbn in Ha. rewrite Htr in Ha. injection Ha as <- <-.
      exists [(true, r)]. by split_and!; [|intros ? ?%elem_of_nil|]. }
    destruct (ga_offer _ _ _ G r Htr Ho) as [Hfin Hr]. cbn in Ha. rewrite Htr in Ha.
    assert (Hstart : admission_horizon p <= tr_sample_start r).
    { unfold admission_horizon. rewrite Hfin, (ga_next _ _ _ G).
      destruct Hr as [[-> _]|(_ & _ & ->)]; done. }
    assert (Hok : ok = true) by (destruct (_ =? wp_window_samples p); congruence). subst ok.
    exists [(false, r)]. split_and!; [done| |].
    { intros r' [->|[]%elem_of_nil]%elem_of_cons. done. }
    eapply horizon_le; [exact Hi'| |congruence].
    destruct (_ =? wp_window_samples p); injection Ha as <-; cbn; [|lia].
    unfold sat_add. rewrite (ga_next _ _ _ G), (pb_step _ B).
    pose proof (ga_seen _ _ _ G). pose proof (next_le_full n). pose proof (pb_head _ B) as [_ ?]. pose proof stride_pos. lia.
Qed.

Lemma plan_run_horizon calls p log :
  Forall call_ok calls → plan_inv (p, log) →
  let '(p', log') := plan_run (p, log) calls in
  ∃ new, log' = log ++ new ∧ (∀ r, r ∈ grid new → admission_horizon p <= tr_sample_start r)
    ∧ admission_horizon p <= admission_horizon p'.
Proof.
  intros Hc. revert p log. induction Hc as [|c calls Hok Hall IH]; intros p log Hi.
  { cbn. exists []. rewrite app_nil_r. by split_and!; [|intros ? ?%elem_of_nil|]. }
  change (plan_run (p, log) (c :: calls)) with (plan_run (plan_call (p, log) c) calls).
  pose proof (plan_call_horizon p log c Hok Hi) as Hstep.
  pose proof (plan_call_inv (p, log) c Hok Hi) as Hi'.
  destruct (plan_call (p, log) c) as [p1 log1]. destruct Hstep as (new1 & -> & Hr1 & Hh1).
  specialize (IH p1 (log ++ new1) Hi'). destruct (plan_run (p1, log ++ new1) calls) as [p2 log2].
  destruct IH as (new2 & -> & Hr2 & Hh2).
  exists (new1 ++ new2). rewrite app_assoc. split_and!; [done| |lia].
  intros r. rewrite grid_app. intros [Hr|Hr]%elem_of_app; [by apply Hr1|]. specialize (Hr2 r Hr). lia.
Qed.

(* ------------------------------------------------------------------ *)
(** ** Trials are few *)

Definition trials (log : PlanLog) : list TailSampleRange :=
  map snd (List.filter (λ e : bool * TailSampleRange, fst e) log).

Lemma trials_app (l1 l2 : PlanLog) : trials (l1 ++ l2) = trials l1 ++ trials l2.
Proof. unfold trials. by rewrite List.filter_app, map_app. Qed.

Definition trial_range (capture_end : Z) (r : TailSampleRange) : Prop :=
  0 <= tr_sample_start r < tr_sample_end r ∧ tr_sample_end r <= capture_end ∧
  tr_sample_end r - tr_sample_start r <= win.

Definition buckets_used (p : CaptureWindowPlan) : Z :=
  match wp_last_trial_bucket p with None => 0 | Some b => b + 1 end.

Record trials_at (p : CaptureWindowPlan) (log : PlanLog) : Prop := {
  ta_log : Forall (trial_range (wp_capture_end p)) (trials log);
  ta_offer : ∀ r, wp_trial_offer p = true → wp_offered p = Some r → trial_range (wp_capture_end p) r;
  ta_count : Z.of_nat (length (trials log)) + Z.b2z (wp_trial_offer p) <= buckets_used p;
  ta_bucket : ∀ b, wp_last_trial_bucket p = Some b → 0 <= b <= wp_capture_end p `div` win
}.

Lemma win_pos : 0 < win.
Proof. pose proof stride_pos. lia. Qed.

Lemma trial_range_mono e e' r : e <= e' → trial_range e r → trial_range e' r.
Proof. unfold trial_range. lia. Qed.

(** A step that keeps the offer, the log and the bucket, and does not lose the head. *)
Lemma trials_frame p q log :
  trials_at p log → wp_capture_end p <= wp_capture_end q →
  wp_trial_offer q = wp_trial_offer p → wp_last_trial_bucket q = wp_last_trial_bucket p →
  (wp_trial_offer p = true → wp_offered q = wp_offered p) → trials_at q log.
Proof.
  intros [H1 H2 H3 H4] Hce Ht Hb Ho. pose proof win_pos. constructor; rewrite ?Ht, ?Hb.
  - eapply Forall_impl; [exact H1|]. intros r. by apply trial_range_mono.
  - intros r Htr Hr. rewrite Ho in Hr by done. eapply trial_range_mono; [exact Hce|auto].
  - unfold buckets_used in *. by rewrite Hb.
  - intros b Hbk. specialize (H4 b Hbk). split; [lia|].
    etransitivity; [apply H4|]. by apply Z.div_le_mono.
Qed.

Lemma next_due_trials p log ce stop :
  trials_at p log → trials_at (fst (next_due ce stop p)) log.
Proof.
  intros T. pose proof (observe_head_frame p ce stop) as (E1 & _ & E3 & E4 & E5 & E6 & Hce & _).
  assert (wp_capture_end p <= wp_capture_end p) by lia.
  unfold next_due, propose, nothing_due. destruct (wp_trial_offer p) eqn:Htr; [done|].
  repeat case_match; try done; simpl; eapply trials_frame; eauto; simpl; try congruence.
Qed.

Lemma offer_trial_trials p log s e ce stop :
  0 <= s → head_ok ce → plan_base p → trials_at p log → trials_at (fst (offer_trial s e ce stop p)) log.
Proof.
  intros Hs Hh B T. pose proof (observe_head_base p ce stop Hh B) as B'.
  pose proof (observe_head_frame p ce stop) as (_ & _ & E3 & _ & E5 & E6 & Hce & _).
  assert (trials_at (observe_head ce stop p) log) as T' by (eapply trials_frame; eauto).
  unfold offer_trial. set (q := observe_head ce stop p) in *. rewrite (head_of q B'), (pb_window _ B').
  case_match; [done|]. case_match; [done|]. unbool. pose proof win_pos as Hw.
  assert (Htr : wp_trial_offer q = false).
  { destruct (wp_trial_offer q) eqn:Ht; [|done]. exfalso. by apply pb_trial in Ht. }
  destruct T' as [H1' H2' H3' H4']. simpl. constructor; cbn -[Z.div trials buckets_used].
  - done.
  - intros r _ [= <-]. unfold trial_range, plan_range; simpl. lia.
  - unfold buckets_used in *. simpl. rewrite Htr in H3'. simpl in H3'.
    assert (0 <= wp_capture_end q `div` win) by (apply Z.div_pos; [apply (pb_head _ B')|done]).
    destruct (wp_last_trial_bucket q) as [b|] eqn:Hb; [|lia].
    specialize (H4' b eq_refl). assert (b <> wp_capture_end q `div` win) by congruence. lia.
  - intros b [= <-]. split; [|done]. apply Z.div_pos; [apply (pb_head _ B')|done].
Qed.

Lemma account_trials p log r :
  plan_base p → trials_at p log →
  let '(p', log') := plan_call (p, log) (CallAccount r) in trials_at p' log'.
Proof.
  intros B T. assert (wp_capture_end p <= wp_capture_end p) as Hrefl by lia.
  cbn [plan_call]. unfold account. case_bool_decide as Ho; [done|].
  destruct T as [H1 H2 H3 H4]. destruct (wp_trial_offer p) eqn:Htr; cbn -[trials buckets_used]; rewrite ?Htr.
  - simpl in H3. constructor; cbn -[trials Z.div buckets_used]; [|done| |done].
    + rewrite trials_app. apply Forall_app. split; [done|]. constructor; [by apply H2|done].
    + rewrite trials_app, length_app. simpl. unfold buckets_used in *. simpl. lia.
  - assert (trials (log ++ [(false, r)]) = trials log) as Hlog by (rewrite trials_app; apply app_nil_r).
    destruct (_ =? wp_window_samples p); constructor; cbn -[trials Z.div buckets_used]; rewrite ?Hlog, ?Htr;
      try done; unfold buckets_used in *; simpl in *; lia.
Qed.

Lemma plan_run_trials calls p log :
  Forall call_ok calls → plan_inv (p, log) → trials_at p log →
  trials_at (fst (plan_run (p, log) calls)) (snd (plan_run (p, log) calls)).
Proof.
  intros Hc. revert p log. induction Hc as [|c calls Hok Hall IH]; intros p log Hi T; [done|].
  change (plan_run (p, log) (c :: calls)) with (plan_run (plan_call (p, log) c) calls).
  pose proof (plan_call_inv (p, log) c Hok Hi) as Hi'.
  assert (trials_at (fst (plan_call (p, log) c)) (snd (plan_call (p, log) c))) as T'.
  { destruct Hi as [B _]. destruct c as [ce stop|s e ce stop|r].
    - by apply next_due_trials.
    - destruct Hok. by apply offer_trial_trials.
    - pose proof (account_trials p log r B T) as H. by destruct (plan_call _ _). }
  destruct (plan_call (p, log) c) as [p' log']. by apply IH.
Qed.

(* ------------------------------------------------------------------ *)
(** ** The loop after Stop ends *)

Lemma next_due_offered p ce stop r :
  snd (next_due ce stop p) = Some r → wp_offered (fst (next_due ce stop p)) = Some r.
Proof. unfold next_due, propose, nothing_due. repeat case_match; simpl; congruence. Qed.

(** The loop is a run of calls. *)
Lemma drain_run fuel ce : ∀ p log,
  head_ok ce →
  ∃ calls, Forall call_ok calls ∧
    plan_run (p, log) calls = (fst (drain fuel ce p), log ++ snd (drain fuel ce p)).
Proof.
  induction fuel as [|fuel IH]; intros p log Hce; simpl.
  { exists []. split; [done|]. by rewrite app_nil_r. }
  destruct (next_due ce true p) as [q [r|]] eqn:Hq; simpl.
  2:{ exists [CallDue ce true]. split; [by constructor|]. simpl. by rewrite Hq, app_nil_r. }
  assert (wp_offered q = Some r) as Ho.
  { pose proof (next_due_offered p ce true r) as H. rewrite Hq in H. by apply H. }
  destruct (IH (fst (account r q)) (log ++ [(wp_trial_offer q, r)]) Hce) as (calls & Hok & Hrun).
  exists (CallDue ce true :: CallAccount r :: calls). split; [constructor; [done|by constructor]|].
  change (plan_run (p, log) (CallDue ce true :: CallAccount r :: calls))
    with (plan_run (plan_call (fst (next_due ce true p), log) (CallAccount r)) calls).
  rewrite Hq. simpl. destruct (account r q) as [q' ok] eqn:Ha.
  assert (ok = true) as ->.
  { unfold account in Ha. rewrite bool_decide_eq_false_2 in Ha by tauto.
    simpl in Ha. repeat case_match; congruence. }
  simpl in *. rewrite Hrun. destruct (drain fuel ce q'). simpl. by rewrite <- app_assoc.
Qed.

Definition stopped (p : CaptureWindowPlan) : Prop := wp_eof p = Some (wp_capture_end p).

(** Offers that are left after Stop. *)
Definition left_over (p : CaptureWindowPlan) : nat :=
  (if wp_finished p then 0
   else S (S (Z.to_nat ((wp_capture_end p - wp_next_start p) `div` stride))))
  + (if wp_trial_offer p then 1 else 0).

Lemma stopped_due p log ce :
  plan_inv (p, log) → stopped p → wp_trial_offer p = false → wp_finished p = false →
  let '(q, o) := next_due ce true p in
  stopped q ∧ wp_next_start q = wp_next_start p ∧ wp_capture_end q = wp_capture_end p ∧
  wp_trial_offer q = false ∧ wp_offered q = o ∧
  (if o is Some _ then wp_finished q = false else wp_finished q = true).
Proof.
  intros [B [n G]] Hs Htr Hf. simpl in B, G. unfold stopped in *. unfold next_due. rewrite Htr, Hf, Hs.
  assert (observe_head ce true p = p) as ->.
  { unfold observe_head. by rewrite Hs. }
  destruct (wp_offered p) eqn:Ho; [done|].
  rewrite (checked_end n p log B G), Hs. simpl default.
  assert (∀ e, wp_next_start p < e → let '(q, o) := propose p e in
    wp_eof q = Some (wp_capture_end q) ∧ wp_next_start q = wp_next_start p ∧
    wp_capture_end q = wp_capture_end p ∧ wp_trial_offer q = false ∧ wp_offered q = o ∧
    (if o is Some _ then wp_finished q = false else wp_finished q = true)) as Hprop.
  { intros e He. unfold propose. rewrite (proj2 (Z.leb_gt _ _)) by lia. done. }
  pose proof stride_pos as Hpos. pose proof (ga_next _ _ _ G) as Hn.
  simpl. destruct (_ && (_ <=? _)); [apply Hprop; lia|].
  destruct ((wp_last_full_end p <? _) && _) eqn:Ht; [apply Hprop; by unbool|].
  unfold nothing_due. by rewrite Hs.
Qed.

Lemma account_left p log r :
  plan_inv (p, log) → stopped p → wp_trial_offer p = false → wp_finished p = false → wp_offered p = Some r →
  let q := fst (account r p) in
  stopped q ∧ wp_trial_offer q = false ∧ (left_over q < left_over p)%nat.
Proof.
  intros [B [n G]] Hs Htr Hf Ho. simpl in B, G. cbv zeta. unfold account.
  rewrite bool_decide_eq_false_2 by tauto. simpl. rewrite Htr.
  pose proof stride_pos as Hpos. pose proof (ga_next _ _ _ G) as Hn.
  destruct (ga_offer _ _ _ G r Htr Ho) as [_ [[-> Hle]|(_ & Ht & ->)]].
  - rewrite (proj2 (Z.eqb_eq _ _)) by (rewrite (pb_window _ B); simpl; lia).
    split_and!; [done|done|]. unfold left_over. simpl. rewrite Htr, Hf.
    case_match; [lia|]. unfold sat_add. rewrite (pb_step _ B), Hn.
    rewrite Z.min_r by (destruct (pb_head _ B); lia).
    replace (wp_capture_end p - (Z.of_nat n * stride + stride))
      with (wp_capture_end p - Z.of_nat n * stride + (-1) * stride) by lia.
    rewrite Z.div_add by lia.
    assert (1 <= (wp_capture_end p - Z.of_nat n * stride) `div` stride); [|lia].
    apply Z.div_le_lower_bound; lia.
  - rewrite (proj2 (Z.eqb_neq _ _)) by (rewrite (pb_window _ B); unfold tail_of in Ht; simpl; lia).
    split_and!; [done|done|]. unfold left_over. simpl. rewrite Htr, Hf. lia.
Qed.

Lemma drain_stopped fuel ce : ∀ p log,
  head_ok ce → plan_inv (p, log) → stopped p → wp_trial_offer p = false → (left_over p < fuel)%nat →
  is_finished (fst (drain fuel ce p)) = true.
Proof.
  induction fuel as [|fuel IH]; intros p log Hce Hi Hs Htr Hfuel; [lia|]. cbn [drain].
  destruct (wp_finished p) eqn:Hf.
  { unfold next_due. rewrite Htr, Hf. simpl. unfold is_finished. rewrite Hf. simpl.
    apply bool_decide_eq_true. destruct (wp_offered p) as [r|] eqn:Ho; [|done].
    destruct Hi as [_ [n G]]. destruct (ga_offer _ _ _ G r Htr Ho). simpl in *. congruence. }
  pose proof (stopped_due p log ce Hi Hs Htr Hf) as Hd.
  pose proof (next_due_inv p log ce true Hce Hi) as Hi'.
  destruct (next_due ce true p) as [q [r|]]; destruct Hd as (Hs' & Hn & Hc & Htr' & Ho & Hf').
  2:{ simpl. unfold is_finished. rewrite Hf', Ho. done. }
  assert (left_over q = left_over p) as Hlq.
  { unfold left_over. by rewrite Hf, Hf', Htr, Htr', Hn, Hc. }
  pose proof (account_left q log r Hi' Hs' Htr' Hf' Ho) as (Hs2 & Htr2 & Hlt).
  pose proof (account_inv q log r Hi') as Hi2. simpl in Hi2.
  destruct (account r q) as [q2 ok]. simpl in *.
  specialize (IH q2 _ Hce Hi2 Hs2 Htr2 ltac:(lia)). by destruct (drain fuel ce q2).
Qed.

(** The first call after Stop freezes the head. *)
Lemma drain_observes fuel ce p :
  wp_trial_offer p = false → wp_finished p = false → wp_capture_end p <= ce →
  drain (S fuel) ce p = drain (S fuel) ce (observe_head ce true p).
Proof.
  intros Htr Hf Hce. cbn [drain].
  assert (next_due ce true p = next_due ce true (observe_head ce true p)) as ->; [|done].
  pose proof (observe_head_frame p ce true) as (_ & _ & _ & E4 & E5 & _ & _ & He).
  assert (is_Some (wp_eof (observe_head ce true p))) as Hs.
  { unfold observe_head. case_bool_decide; [done|]. simpl. by eexists. }
  unfold next_due. rewrite E4, E5, Htr, Hf.
  assert (observe_head ce true (observe_head ce true p) = observe_head ce true p) as ->.
  { unfold observe_head at 1. by rewrite bool_decide_eq_true_2. }
  rewrite (bool_decide_eq_false_2 (wp_eof (observe_head ce true p) = None)) by (by destruct Hs as [? ->]).
  by rewrite (proj2 (Z.ltb_ge _ _)), andb_false_r by lia.
Qed.

Lemma drain_finishes fuel ce p log :
  head_ok ce → plan_inv (p, log) → wp_capture_end p <= ce →
  (Z.to_nat (ce `div` stride) + 4 <= fuel)%nat →
  is_finished (fst (drain fuel ce p)) = true.
Proof.
  intros Hce Hi Hle Hfuel. pose proof stride_pos as Hpos.
  assert (Hgo : ∀ fuel q log, plan_inv (q, log) → wp_trial_offer q = false → wp_capture_end q <= ce →
    (Z.to_nat (ce `div` stride) + 3 <= fuel)%nat → is_finished (fst (drain fuel ce q)) = true).
  { clear fuel p log Hi Hle Hfuel. intros fuel p log Hi Htr Hle Hfuel.
    assert (Hleft : ∀ q, wp_capture_end q <= ce → 0 <= wp_next_start q → wp_trial_offer q = false →
      (left_over q < Z.to_nat (ce `div` stride) + 3)%nat).
    { intros q Hq Hq0 Hqt. unfold left_over. rewrite Hqt.
      assert ((wp_capture_end q - wp_next_start q) `div` stride <= ce `div` stride)
        by (apply Z.div_le_mono; lia).
      assert (0 <= ce `div` stride) by (apply Z.div_pos; [apply Hce|lia]).
      destruct (wp_finished q); lia. }
    assert (Hns : 0 <= wp_next_start p).
    { destruct Hi as [_ [n G]]. simpl in G. rewrite (ga_next _ _ _ G). lia. }
    destruct (decide (stopped p)) as [Hs|Hs].
    { eapply drain_stopped; [done..|]. specialize (Hleft p Hle Hns Htr). lia. }
    assert (Hne : wp_eof p = None).
    { destruct (wp_eof p) eqn:He; [|done]. destruct Hi as [B _]. simpl in B.
      pose proof (pb_eof _ B _ He) as ->. done. }
    assert (wp_finished p = false) as Hf.
    { destruct (wp_finished p) eqn:Hf; [|done]. destruct Hi as [_ [n G]]. simpl in G.
      destruct (ga_log _ _ _ G) as [[_ Hx]|(_ & Hx & _)]; [destruct (Hx Hf)|]; congruence. }
    destruct fuel as [|fuel]; [lia|]. rewrite drain_observes by done.
    pose proof (observe_head_frame p ce true) as (E1 & _ & _ & _ & E5 & _ & _ & _).
    destruct Hi as [B [n G]]. simpl in B, G.
    assert (wp_eof (observe_head ce true p) = Some (wp_capture_end (observe_head ce true p)) ∧
            wp_capture_end (observe_head ce true p) <= ce) as [Hs' Hle'].
    { unfold observe_head. rewrite Hne, bool_decide_eq_false_2 by apply is_Some_None.
      destruct (_ <? _) eqn:Hlt; unbool; simpl; split; (done || lia). }
    eapply (drain_stopped (S fuel) ce _ log); [done| |done|congruence|].
    - split; [by apply observe_head_base|exists n; by apply observe_head_grid].
    - specialize (Hleft (observe_head ce true p) Hle'). rewrite E1, E5 in Hleft.
      specialize (Hleft Hns Htr). lia. }
  destruct (wp_trial_offer p) eqn:Htr; [|eapply Hgo; eauto; lia].
  destruct fuel as [|fuel]; [lia|]. cbn [drain]. unfold next_due. rewrite Htr.
  destruct Hi as [B Hg]. simpl in B. destruct (pb_trial _ B Htr) as [r Ho]. rewrite Ho.
  pose proof (account_inv p log r (conj B Hg)) as Hi2. simpl in Hi2.
  assert (account r p = (p <| wp_offered := None |> <| wp_trial_offer := false |>, true)) as Ha.
  { unfold account. rewrite bool_decide_eq_false_2 by tauto. simpl. by rewrite Htr. }
  rewrite Ha in Hi2 |- *. simpl in *.
  pose proof (Hgo fuel _ _ Hi2 eq_refl Hle ltac:(lia)) as Hd. by destruct (drain fuel ce _).
Qed.
End plan.


Definition ex_calls : list PlanCall :=
  [CallDue 10 false; CallTrial 1 6 11 false;
   CallAccount (mkTailRange "s" 1 0 9); CallTrial 1 6 11 false;
   CallAccount (mkTailRange "s" 1 1 6); CallDue 13 true;
   CallAccount (mkTailRange "s" 1 3 12); CallDue 13 true;
   CallAccount (mkTailRange "s" 1 6 13)].

Lemma ex_calls_ok : Forall (call_ok 1) (ex_calls ++ []).
Proof. repeat constructor; unfold head_ok, win, LIVE_WINDOW_SECS; mach. Qed.


(** C19: Stopped at a head the plan has not passed, the loop of taking what is
    due and accounting it ends, after at most one round per grid step and four
    more, with the plan finished and every sample up to the frozen head in an
    accounted window. *)
Theorem drain_hears_all sess epoch rate whole calls capture_end fuel :
  0 < rate <= u32_max → Forall (call_ok rate) calls → head_ok rate capture_end →
  let '(p, log) := plan_run (plan_start sess epoch rate whole, []) calls in
  wp_capture_end p <= capture_end →
  (Z.to_nat (capture_end `div` stride rate whole) + 4 <= fuel)%nat →
  let '(p', log') := drain fuel capture_end p in
  is_finished p' = true ∧
  ∀ z, 0 <= z < wp_capture_end p' → wp_eof p' = Some (wp_capture_end p') ∧ heard (log ++ log') z.
Proof.
  intros Hr Hc Hh.
  pose proof (plan_run_inv sess epoch rate whole Hr _ calls Hc (plan_start_inv sess epoch rate whole Hr)) as Hi.
  destruct (plan_run _ calls) as [p log]. intros Hle Hfuel.
  pose proof (drain_finishes sess epoch rate whole Hr fuel capture_end p log Hh Hi Hle Hfuel) as Hf.
  destruct (drain_run rate Hr fuel capture_end p log Hh) as (calls' & Hc' & Hrun).
  pose proof (plan_run_inv sess epoch rate whole Hr _ calls' Hc' Hi) as Hi'. rewrite Hrun in Hi'.
  destruct (drain fuel capture_end p) as [p' log']. simpl in *. split; [done|].
  intros z. by apply (finished_heard sess epoch rate whole Hr).
Qed.

Lemma drain_hears_all_witness :
  let '(p, log) := plan_run (plan_start "s" 1 1 false, []) [CallDue 10 false] in
  wp_capture_end p = 10 ∧ is_finished (fst (drain 9 13 p)) = true.
Proof.
  pose proof (drain_hears_all "s" 1 1 false [CallDue 10 false] 13 9 ltac:(mach)
    ltac:(repeat constructor; unfold head_ok, win, LIVE_WINDOW_SECS; mach)
    ltac:(unfold head_ok, win, LIVE_WINDOW_SECS; mach)) as H.
  assert (Hc : wp_capture_end (fst (plan_run (plan_start "s" 1 1 false, []) [CallDue 10 false])) = 10)
    by (by vm_compute).
  destruct (plan_run (plan_start "s" 1 1 false, []) [CallDue 10 false]) as [p log]. simpl in Hc.
  split; [exact Hc|]. specialize (H ltac:(rewrite Hc; lia) ltac:(vm_compute; lia)).
  destruct (drain 9 13 p) as [p' log']. exact (proj1 H).
Defined.

(** A capture has at most one trial per nine seconds of audio seen, and one
    more; each lies inside the audio seen and is no longer than a window. *)
Theorem trials_bounded sess epoch rate whole calls :
  0 < rate <= u32_max → Forall (call_ok rate) calls →
  let '(p, log) := plan_run (plan_start sess epoch rate whole, []) calls in
  Z.of_nat (length (trials log)) <= wp_capture_end p `div` win rate + 1 ∧
  ∀ r, r ∈ trials log → trial_range rate (wp_capture_end p) r.
Proof.
  intros Hr Hc. pose proof (plan_start_inv sess epoch rate whole Hr) as Hi.
  assert (trials_at rate (plan_start sess epoch rate whole) []) as T.
  { unfold plan_start. destruct whole; constructor; simpl; (done || constructor). }
  pose proof (plan_run_trials sess epoch rate whole Hr calls _ _ Hc Hi T) as T'.
  pose proof (plan_run_inv sess epoch rate whole Hr _ calls Hc Hi) as Hi'.
  destruct (plan_run _ calls) as [p log]. destruct T' as [H1 _ H3 H4]. simpl in *.
  split; [|by apply Forall_forall].
  unfold buckets_used in H3. pose proof (win_pos rate whole Hr).
  destruct (wp_last_trial_bucket p) as [b|]; [specialize (H4 b eq_refl)|];
    destruct (wp_trial_offer p); simpl in *; lia || (assert (0 <= wp_capture_end p `div` win rate); [|lia]).
  all: destruct Hi' as [B _]; apply Z.div_pos; [apply (pb_head _ _ _ _ _ B)|done].
Qed.

Lemma trials_bounded_witness :
  let '(p, log) := plan_run (plan_start "s" 1 1 false, []) (ex_calls ++ []) in
  Z.of_nat (length (trials log)) <= wp_capture_end p `div` win 1 + 1.
Proof.
  pose proof (trials_bounded "s" 1 1 false (ex_calls ++ []) ltac:(mach) ex_calls_ok) as H.
  destruct (plan_run (plan_start "s" 1 1 false, []) (ex_calls ++ [])) as [p log]. exact (proj1 H).
Defined.
