(* ===== verification/SpeechProgressFacts.v ===== *)
(** SpeechProgressFacts: the observer keeps three sets of samples. *)

From S2P Require Import Prelude.
From S2P Require Import Text.
From S2P Require Import GroupAlignment.
From S2P Require Import LedgerIdentity.
From S2P Require Import LedgerSpans.
From S2P Require Import CaptureEvidence.
From S2P Require Import LedgerState.
From S2P Require Import LedgerCoverage.
From S2P Require Import SpeechProgress.

(* ------------------------------------------------------------------ *)
(** ** Spans in order *)

Lemma spans_ok_cons r l :
  spans_ok (r :: l) ↔ r.1 < r.2 ∧ Forall (λ b : Z * Z, r.2 < b.1) l ∧ spans_ok l.
Proof.
  unfold spans_ok. rewrite Forall_cons. split.
  - intros [[? ?]%StronglySorted_inv [? ?]]. done.
  - intros (? & ? & ? & ?). split; [by constructor|done].
Qed.

Lemma spans_ok_app (l1 l2 : list (Z * Z)) :
  spans_ok l1 → spans_ok l2 → (∀ a b : Z * Z, a ∈ l1 → b ∈ l2 → a.2 < b.1) → spans_ok (l1 ++ l2).
Proof.
  intros H1 H2 H12. induction l1 as [|r l1 IH]; [done|]. simpl.
  apply spans_ok_cons in H1 as (Hr & Hl & H1). apply spans_ok_cons. split_and!; [done| |].
  - apply Forall_app. split; [done|]. apply Forall_forall. intros b Hb. apply H12; [by left|done].
  - apply IH; [done|]. intros a b Ha Hb. apply H12; [by right|done].
Qed.

#[global] Instance start_le_trans : Transitive start_le.
Proof. intros [] [] []. unfold start_le. simpl. lia. Qed.

#[global] Instance start_le_total : Total start_le.
Proof. intros [] []. unfold start_le. simpl. lia. Qed.

Lemma normalize_spec l :
  Forall (λ r : Z * Z, r.1 < r.2) l →
  spans_ok (normalize_progress_ranges l) ∧ ∀ z, in_spans z (normalize_progress_ranges l) ↔ in_spans z l.
Proof.
  intros Hne. unfold normalize_progress_ranges.
  pose proof (merge_sort_Permutation start_le l) as Hp.
  pose proof (StronglySorted_merge_sort start_le l) as Hs.
  assert (Hne' : Forall (λ r : Z * Z, r.1 < r.2) (merge_sort start_le l)) by (by rewrite Hp).
  assert (Hin : ∀ z, in_spans z (merge_sort start_le l) ↔ in_spans z l) by (intros z; by apply in_spans_perm).
  destruct (merge_sort start_le l) as [|r l'].
  - split; [apply spans_ok_nil|done].
  - apply StronglySorted_inv in Hs as [Hs Hr].
    destruct (merge_from_spec r l' Hs Hne' Hr) as (H1 & H2 & _).
    split; [done|]. intros z. by rewrite H2.
Qed.

(** Dropping spans that end before [b] changes nothing from [b] on. *)
Lemma in_spans_skip r l b z : r.2 <= b → b <= z → in_spans z (r :: l) ↔ in_spans z l.
Proof. intros. rewrite in_spans_cons. unfold in_range. split; [|tauto]. intros [?|?]; [lia|done]. Qed.

Lemma in_spans_above l b z : Forall (λ r : Z * Z, b <= r.1) l → in_spans z l → b <= z.
Proof. rewrite Forall_forall. intros Hl (r & Hr & Hz). specialize (Hl r Hr). unfold in_range in Hz. simpl in *. lia. Qed.

Lemma skip_ended_spec start removed :
  spans_ok removed →
  spans_ok (skip_ended start removed) ∧
  ∀ z, start <= z → in_spans z (skip_ended start removed) ↔ in_spans z removed.
Proof.
  induction removed as [|r removed IH]; intros Hok; simpl; [done|].
  destruct (_ <=? _) eqn:Hle; [|done]. zbool. apply spans_ok_cons in Hok as (_ & _ & Hok).
  destruct (IH Hok) as [H1 H2]. split; [done|]. intros z Hz. rewrite H2 by done.
  symmetry. by apply (in_spans_skip r removed start).
Qed.

Lemma cut_range_spec end_ removed : ∀ start,
  start < end_ → spans_ok removed →
  let '(pieces, last, suffix) := cut_range start end_ removed in
  let all := pieces ++ (if last <? end_ then [(last, end_)] else []) in
  spans_ok all ∧ Forall (λ r : Z * Z, start <= r.1 ∧ r.2 <= end_) all ∧
  (∀ z, in_spans z all ↔ start <= z < end_ ∧ ¬ in_spans z removed) ∧
  spans_ok suffix ∧ ∀ z, end_ <= z → in_spans z suffix ↔ in_spans z removed.
Proof.
  assert (Hsingle : ∀ start (l : list (Z * Z)), start < end_ → spans_ok l →
    Forall (λ r : Z * Z, end_ <= r.1) l →
    let all := [] ++ (if start <? end_ then [(start, end_)] else []) in
    spans_ok all ∧ Forall (λ r : Z * Z, start <= r.1 ∧ r.2 <= end_) all ∧
    (∀ z, in_spans z all ↔ start <= z < end_ ∧ ¬ in_spans z l) ∧
    spans_ok l ∧ ∀ z, end_ <= z → in_spans z l ↔ in_spans z l).
  { intros start l Hlt Hok Hl. rewrite (proj2 (Z.ltb_lt _ _)) by done. simpl.
    split_and!; [split; repeat constructor; simpl; lia|repeat constructor; simpl; lia| |done|done].
    intros z. rewrite in_spans_singleton. unfold in_range. simpl. split; [|tauto].
    intros Hz. split; [done|]. intros Hin. apply (in_spans_above l end_ z Hl) in Hin. lia. }
  induction removed as [|[rs re] removed IH]; intros start Hlt Hok; cbn [cut_range].
  { by apply Hsingle. }
  pose proof Hok as Hok0. apply spans_ok_cons in Hok as (Hr & Hrest & Hok). simpl in Hr, Hrest.
  destruct (rs <? end_) eqn:Hre; zbool.
  2:{ apply Hsingle; [done|done|]. constructor; [done|]. eapply Forall_impl; [exact Hrest|]. simpl; lia. }
  set (piece := if start <? rs then [(start, Z.min rs end_)] else []).
  assert (Hpiece : spans_ok piece ∧ Forall (λ r : Z * Z, start <= r.1 ∧ r.2 <= rs) piece ∧
    ∀ z, in_spans z piece ↔ start <= z < rs).
  { unfold piece. destruct (start <? rs) eqn:Hs; zbool.
    - rewrite Z.min_l by lia. split_and!; [split; repeat constructor; simpl; lia|repeat constructor; simpl; lia|].
      intros z. by rewrite in_spans_singleton.
    - split_and!; [apply spans_ok_nil|done|]. intros z. split; [intros H; by apply in_spans_nil in H|lia]. }
  destruct Hpiece as (Hp1 & Hp2 & Hp3).
  destruct (end_ <=? Z.max start re) eqn:Hb; zbool.
  - rewrite (proj2 (Z.ltb_ge _ _)), app_nil_r by lia. split_and!; [done| | |done|done].
    + eapply Forall_impl; [exact Hp2|]. simpl; lia.
    + intros z. rewrite Hp3, in_spans_cons. unfold in_range; simpl. split.
      * intros Hz. split; [lia|]. intros [?|Hin]; [lia|].
        apply (in_spans_above removed rs) in Hin; [lia|]. eapply Forall_impl; [exact Hrest|]. simpl; lia.
      * intros [Hz Hn]. destruct (decide (z < rs)); [lia|]. exfalso. apply Hn. left. lia.
  - specialize (IH (Z.max start re) ltac:(lia) Hok).
    destruct (cut_range (Z.max start re) end_ removed) as [[pieces last] suffix]. cbv zeta in IH |- *.
    rewrite <- app_assoc. set (all := pieces ++ _) in *. destruct IH as (H1 & H2 & H3 & H4 & H5).
    rewrite Forall_forall in Hp2, H2. split_and!.
    + apply spans_ok_app; [done..|]. intros a b Ha Hb'. specialize (Hp2 a Ha). specialize (H2 b Hb'). simpl in *. lia.
    + apply Forall_app. split; apply Forall_forall; intros a Ha;
        [specialize (Hp2 a Ha)|specialize (H2 a Ha)]; simpl in *; lia.
    + intros z. rewrite in_spans_app, Hp3, H3, in_spans_cons. unfold in_range; simpl. split.
      * intros [Hz|[Hz Hn]]; [split; [lia|]|split; [lia|]].
        -- intros [?|Hin]; [lia|]. apply (in_spans_above removed rs) in Hin; [lia|].
           eapply Forall_impl; [exact Hrest|]. simpl; lia.
        -- intros [?|?]; [lia|done].
      * intros [Hz Hn]. destruct (decide (z < rs)); [left; lia|]. right.
        split; [|tauto]. split; [|lia]. destruct (decide (z < re)); [|lia]. exfalso. apply Hn. left. lia.
    + done.
    + intros z Hz. rewrite H5 by done. symmetry. apply (in_spans_skip _ _ end_); [simpl; lia|done].
Qed.

Lemma subtract_spec ranges : ∀ removed,
  spans_ok ranges → spans_ok removed →
  spans_ok (subtract_progress_ranges ranges removed) ∧
  (∀ b, Forall (λ r : Z * Z, b < r.1) ranges → Forall (λ r : Z * Z, b < r.1) (subtract_progress_ranges ranges removed)) ∧
  ∀ z, in_spans z (subtract_progress_ranges ranges removed) ↔ in_spans z ranges ∧ ¬ in_spans z removed.
Proof.
  induction ranges as [|[s e] ranges IH]; intros removed Hok Hrem; cbn [subtract_progress_ranges].
  { split_and!; [apply spans_ok_nil|done|]. intros z. split; [intros H; by apply in_spans_nil in H|].
    intros [H _]. by apply in_spans_nil in H. }
  apply spans_ok_cons in Hok as (Hse & Hrest & Hok). simpl in Hse, Hrest.
  destruct (skip_ended_spec s removed Hrem) as [Hsk1 Hsk2].
  pose proof (cut_range_spec e (skip_ended s removed) s Hse Hsk1) as Hcut.
  destruct (cut_range s e (skip_ended s removed)) as [[pieces last] suffix]. cbv zeta in Hcut.
  rewrite app_assoc. set (all := pieces ++ _) in *. destruct Hcut as (H1 & H2 & H3 & H4 & H5).
  destruct (IH suffix Hok H4) as (I1 & I2 & I3). specialize (I2 e Hrest) as I2e.
  rewrite Forall_forall in H2, I2e. split_and!.
  - apply spans_ok_app; [done..|]. intros a b Ha Hb. specialize (H2 a Ha). specialize (I2e b Hb). simpl in *. lia.
  - intros b [Hb Hbs]%Forall_cons. simpl in Hb. apply Forall_app. split; apply Forall_forall; intros a Ha.
    + specialize (H2 a Ha). simpl in *. lia.
    + specialize (I2e a Ha). simpl in *. lia.
  - intros z. rewrite in_spans_app, H3, I3, in_spans_cons. unfold in_range at 1; simpl. split.
    + intros [[Hz Hn]|[Hz Hn]].
      * split; [by left|]. by rewrite <- Hsk2 by lia.
      * assert (e < z).
        { apply (in_spans_above ranges (e + 1)) in Hz; [lia|]. eapply Forall_impl; [exact Hrest|]. simpl; lia. }
        split; [by right|]. rewrite <- Hsk2, <- H5 by lia. done.
    + intros [[Hz|Hz] Hn].
      * left. split; [done|]. by rewrite Hsk2 by lia.
      * assert (e < z).
        { apply (in_spans_above ranges (e + 1)) in Hz; [lia|]. eapply Forall_impl; [exact Hrest|]. simpl; lia. }
        right. split; [done|]. by rewrite H5, Hsk2 by lia.
Qed.

(* ------------------------------------------------------------------ *)
(** ** Spans as sets of samples *)

Definition span_set (r : Z * Z) : gset Z := list_to_set (seqZ r.1 (r.2 - r.1)).

Fixpoint spans_set (l : list (Z * Z)) : gset Z :=
  match l with [] => ∅ | r :: l' => span_set r ∪ spans_set l' end.

Lemma elem_of_span_set z r : z ∈ span_set r ↔ in_range z r.
Proof. unfold span_set, in_range. rewrite elem_of_list_to_set, elem_of_seqZ. lia. Qed.

Lemma elem_of_spans_set z l : z ∈ spans_set l ↔ in_spans z l.
Proof.
  induction l as [|r l IH]; simpl.
  - rewrite elem_of_empty. split; [done|]. intros H. by apply in_spans_nil in H.
  - by rewrite elem_of_union, elem_of_span_set, in_spans_cons, IH.
Qed.

Lemma spans_set_ext l1 l2 : (∀ z, in_spans z l1 ↔ in_spans z l2) → spans_set l1 = spans_set l2.
Proof. intros H. apply set_eq. intros z. by rewrite !elem_of_spans_set, H. Qed.

(** The lengths of spans in order add up to the number of their samples. *)
Lemma size_spans_set l :
  spans_ok l → Z.of_nat (size (spans_set l)) = zsum (map (λ r : Z * Z, r.2 - r.1) l).
Proof.
  induction l as [|r l IH]; intros Hok; [done|]. apply spans_ok_cons in Hok as (Hr & Hl & Hok).
  simpl. rewrite size_union.
  - rewrite Nat2Z.inj_add, IH by done. unfold span_set. rewrite size_list_to_set by apply NoDup_seqZ.
    rewrite length_seqZ. unfold zsum. simpl. lia.
  - intros z. rewrite elem_of_span_set, elem_of_spans_set. unfold in_range. intros Hz Hin.
    apply (in_spans_above l (r.2 + 1)) in Hin; [lia|]. eapply Forall_impl; [exact Hl|]. simpl; lia.
Qed.

Lemma spans_set_normalize l :
  Forall (λ r : Z * Z, r.1 < r.2) l → spans_set (normalize_progress_ranges l) = spans_set l.
Proof. intros H. apply spans_set_ext, normalize_spec, H. Qed.

Lemma spans_set_subtract l removed :
  spans_ok l → spans_ok removed →
  spans_set (subtract_progress_ranges l removed) = spans_set l ∖ spans_set removed.
Proof.
  intros H1 H2. apply set_eq. intros z. rewrite elem_of_difference, !elem_of_spans_set.
  by apply subtract_spec.
Qed.

Lemma spans_set_app l1 l2 : spans_set (l1 ++ l2) = spans_set l1 ∪ spans_set l2.
Proof. apply set_eq. intros z. by rewrite elem_of_union, !elem_of_spans_set, in_spans_app. Qed.

(* ------------------------------------------------------------------ *)
(** ** The specification: sets of samples *)

(** The samples an authenticated observer measured as speech. *)
Definition speech_set (ranges : list TailSampleRange) : gset Z :=
  spans_set (map (λ r, (tr_sample_start r, tr_sample_end r)) ranges).

Record Debt := mkDebt {
  db_advance : Z;
  db_observed : Z;
  db_words : list (list Z);
  db_word_end : Z;
  db_live : gset Z;
  db_suspect : gset Z;
  db_recovered : gset Z
}.

(** What a capture's observer is told. *)
Inductive ProgressInput :=
  | Heard (evidence : AcousticSpeechEvidence) (speech_live : bool) (sample_rate : Z)
  | Written (text : string) (word_end : Z)
  | Recovered (o : OccurrenceIdentity) (evidence : AcousticSpeechEvidence).

Definition set_ms (s : gset Z) (sample_rate : Z) : Z := sat_mul (Z.of_nat (size s)) 1000 `div` sample_rate.

Section spec.
  Context {tables : CharTables} (identity : CaptureEvidenceIdentity) (rate : Z) (Hrate : 0 < rate).

(** Evidence of this capture, complete up to the answered sample. *)
Definition trusted (e : AcousticSpeechEvidence) : option Z :=
  if bool_decide (identity = se_identity e) then
    observed ← observed_samples (se_availability e);
    if bool_decide (Forall (λ r,
         identity_matches identity (tr_session r) (tr_capture_epoch r) = true ∧
         tr_sample_start r < tr_sample_end r <= observed) (se_ranges e))
    then Some observed else None
  else None.

Definition debt_step (d : Debt) (i : ProgressInput) : Debt :=
  match i with
  | Heard e _ sample_rate =>
      match trusted e with
      | None => d
      | Some observed =>
          if bool_decide (sample_rate = rate ∧ db_observed d <= observed) then
            let live := filter (λ z, db_advance d <= z) (speech_set (se_ranges e)) ∖ db_recovered d in
            mkDebt (db_advance d) observed (db_words d) (db_word_end d) live
              (if SPEECH_STALL_MS <=? set_ms live rate then db_suspect d ∪ live else db_suspect d)
              (db_recovered d)
          else d
      end
  | Written text word_end =>
      let words := progress_words text in
      let moved := bool_decide (words <> [] ∧ (words <> db_words d ∨ db_word_end d < word_end)) in
      mkDebt (if moved then db_observed d else db_advance d) (db_observed d) words
        (Z.max (db_word_end d) word_end) (if moved then ∅ else db_live d) (db_suspect d) (db_recovered d)
  | Recovered o e =>
      match trusted e with
      | None => d
      | Some observed =>
          if identity_matches identity (session o) (capture_epoch o)
             && bool_decide (sample_start o < sample_end o <= observed) then
            let s := span_set (sample_start o, sample_end o) in
            mkDebt (db_advance d) (db_observed d) (db_words d) (db_word_end d)
              (db_live d ∖ s) (db_suspect d ∖ s) (db_recovered d ∪ s)
          else d
      end
  end.

Definition debt_run (inputs : list ProgressInput) : Debt := foldl debt_step (mkDebt 0 0 [] 0 ∅ ∅ ∅) inputs.

Definition progress_step (p : SpeechProgress) (i : ProgressInput) : SpeechProgress :=
  match i with
  | Heard e live sample_rate => observe_speech e live sample_rate p
  | Written text word_end => observe_apple text word_end p
  | Recovered o e => recovered_occurrence o e p
  end.

Definition progress_run (inputs : list ProgressInput) : SpeechProgress :=
  foldl progress_step (progress_new (ce_session identity) (ce_capture_epoch identity) rate) inputs.

(** The observer [p] keeps the sets [d]. *)
Record keeps (p : SpeechProgress) (d : Debt) : Prop := {
  kp_identity : sp_identity p = identity;
  kp_rate : sp_sample_rate p = rate;
  kp_advance : sp_sample_at_advance p = db_advance d;
  kp_observed : sp_observed_samples p = db_observed d;
  kp_words : sp_words p = db_words d;
  kp_word_end : sp_word_end p = db_word_end d;
  kp_ok : spans_ok (sp_live_speech p) ∧ spans_ok (sp_suspect_speech p) ∧ spans_ok (sp_recovered_speech p);
  kp_live : spans_set (sp_live_speech p) = db_live d;
  kp_suspect : spans_set (sp_suspect_speech p) = db_suspect d;
  kp_recovered : spans_set (sp_recovered_speech p) = db_recovered d
}.

Lemma validated_trusted p d e : keeps p d → validated_observed_samples p e = trusted e.
Proof.
  intros K. unfold validated_observed_samples, trusted. rewrite (kp_identity _ _ K), (kp_rate _ _ K).
  rewrite (proj2 (Z.eqb_neq _ _)) by lia. simpl. case_bool_decide as Hi; case_bool_decide as Hi'; try done.
  destruct (observed_samples _) as [observed|]; simpl; [|done].
  assert (forallb (λ range, identity_matches identity (tr_session range) (tr_capture_epoch range)
            && (tr_sample_start range <? tr_sample_end range) && (tr_sample_end range <=? observed)) (se_ranges e)
          = bool_decide (Forall (λ r, identity_matches identity (tr_session r) (tr_capture_epoch r) = true ∧
              tr_sample_start r < tr_sample_end r <= observed) (se_ranges e))) as ->; [|done].
  apply eq_iff_eq_true. rewrite forallb_true, bool_decide_eq_true, Forall_forall.
  apply forall_proper. intros r. apply forall_proper. intros _.
  rewrite !andb_true_iff, Z.ltb_lt, Z.leb_le. tauto.
Qed.

Lemma ranges_since_spec advance ranges :
  Forall (λ r : Z * Z, r.1 < r.2) (ranges_since advance ranges) ∧
  ∀ z, in_spans z (ranges_since advance ranges) ↔
    advance <= z ∧ in_spans z (map (λ r, (tr_sample_start r, tr_sample_end r)) ranges).
Proof.
  induction ranges as [|r ranges [IH1 IH2]]; simpl.
  { split; [done|]. intros z. split; [intros H; by apply in_spans_nil in H|].
    intros [_ H]. by apply in_spans_nil in H. }
  destruct (_ <? _) eqn:Hlt; zbool; (split; [try constructor; done|]); intros z;
    rewrite ?in_spans_cons, IH2; unfold in_range; simpl.
  - split; [intros [?|[? ?]]; [split; [lia|left; lia]|tauto]|].
    intros [? [?|?]]; [left; lia|right; done].
  - split; [tauto|]. intros [? [?|?]]; [lia|done].
Qed.

Lemma live_ms p d : keeps p d → debt_ms p rate = set_ms (db_live d) rate.
Proof.
  intros K. unfold debt_ms, set_ms. rewrite (kp_rate _ _ K), Z.eqb_refl.
  rewrite (proj2 (Z.eqb_neq _ _)) by lia. simpl.
  rewrite <- (kp_live _ _ K), size_spans_set by apply (kp_ok _ _ K). done.
Qed.

Lemma unavailable_keeps p d : keeps p d → keeps (unavailable p) d.
Proof. intros []. by constructor. Qed.

Lemma heard_live p d e :
  keeps p d →
  let l := subtract_progress_ranges
    (normalize_progress_ranges (ranges_since (sp_sample_at_advance p) (se_ranges e))) (sp_recovered_speech p) in
  spans_ok l ∧
  spans_set l = filter (λ z, db_advance d <= z) (speech_set (se_ranges e)) ∖ db_recovered d.
Proof.
  intros K. cbv zeta. destruct (ranges_since_spec (sp_sample_at_advance p) (se_ranges e)) as [Hne Hin].
  destruct (normalize_spec _ Hne) as [Hok Hz]. pose proof (kp_ok _ _ K) as (_ & _ & Hr).
  split; [by apply subtract_spec|]. rewrite spans_set_subtract, (kp_recovered _ _ K) by done. f_equal.
  apply set_eq. intros z. unfold speech_set.
  by rewrite elem_of_filter, !elem_of_spans_set, Hz, Hin, (kp_advance _ _ K).
Qed.

Lemma spans_ok_nonempty_all l : spans_ok l → Forall (λ r : Z * Z, r.1 < r.2) l.
Proof. by intros []. Qed.

Lemma observe_speech_keeps p d e live sample_rate :
  keeps p d → keeps (observe_speech e live sample_rate p) (debt_step d (Heard e live sample_rate)).
Proof.
  intros K. unfold observe_speech. cbn [debt_step]. rewrite (validated_trusted p d e K), (kp_identity _ _ K).
  case_bool_decide as Hid.
  { unfold trusted. rewrite bool_decide_eq_false_2 by done. done. }
  destruct (trusted e) as [observed|]; [|by apply unavailable_keeps].
  rewrite (kp_rate _ _ K), (kp_observed _ _ K).
  destruct (Z.eqb_spec sample_rate rate) as [->|Hr]; cbn [negb].
  2:{ rewrite bool_decide_eq_false_2 by tauto. by apply unavailable_keeps. }
  destruct (Z.ltb_spec observed (db_observed d)).
  { rewrite bool_decide_eq_false_2 by lia. done. }
  rewrite bool_decide_eq_true_2 by done.
  destruct (heard_live p d e K) as [Hok Hset]. set (l := subtract_progress_ranges _ _) in *.
  set (s := filter _ _ ∖ _) in *. pose proof (kp_ok _ _ K) as (_ & Hsus & Hrec).
  match goal with |- keeps (if _ <=? debt_ms ?q _ then _ else _) _ => set (p1 := q) end.
  assert (K1 : keeps p1 (mkDebt (db_advance d) observed (db_words d) (db_word_end d) s (db_suspect d) (db_recovered d))).
  { destruct K. constructor; simpl; done. }
  assert (Hok1 : spans_ok (sp_live_speech p1) ∧ spans_ok (sp_suspect_speech p1)) by done.
  clearbody p1. rewrite (live_ms p1 _ K1). cbn [db_live].
  destruct (_ <=? _); [|exact K1].
  assert (Hne : Forall (λ r : Z * Z, r.1 < r.2) (sp_suspect_speech p1 ++ sp_live_speech p1)).
  { apply Forall_app. split; apply spans_ok_nonempty_all; apply Hok1. }
  pose proof (normalize_spec _ Hne) as [Hok' _].
  pose proof (kp_suspect _ _ K1) as E1. pose proof (kp_live _ _ K1) as E2. cbn [db_suspect db_live] in E1, E2.
  destruct K1. constructor; cbn -[spans_set]; try done.
  - by split_and!; [apply Hok1| |apply kp_ok0].
  - by rewrite spans_set_normalize, spans_set_app, E1, E2 by done.
Qed.

Lemma observe_apple_keeps p d text word_end :
  keeps p d → keeps (observe_apple text word_end p) (debt_step d (Written text word_end)).
Proof.
  intros K. unfold observe_apple. cbn [debt_step]. rewrite (kp_words _ _ K), (kp_word_end _ _ K).
  set (words := progress_words text).
  assert ((negb (bool_decide (words = [])) &&
    (negb (bool_decide (words = db_words d)) || (db_word_end d <? word_end)))
    = bool_decide (words <> [] ∧ (words <> db_words d ∨ db_word_end d < word_end))) as ->.
  { apply eq_iff_eq_true. rewrite andb_true_iff, orb_true_iff, !negb_true_iff, !bool_decide_eq_false,
      bool_decide_eq_true, Z.ltb_lt. done. }
  pose proof (kp_ok _ _ K) as (Hl & Hs & Hr).
  case_bool_decide; destruct K; constructor; cbn; try done; try congruence.
  split_and!; [apply spans_ok_nil|done|done].
Qed.

Lemma recovered_keeps p d o e :
  keeps p d → keeps (recovered_occurrence o e p) (debt_step d (Recovered o e)).
Proof.
  intros K. unfold recovered_occurrence. cbn [debt_step].
  rewrite (validated_trusted p d e K), (kp_identity _ _ K).
  destruct (trusted e) as [observed|]; [|by rewrite orb_true_r].
  destruct (identity_matches _ _ _); [|done]. cbn [negb orb andb].
  destruct (Z.leb_spec (sample_end o) (sample_start o)).
  { rewrite bool_decide_eq_false_2 by lia. done. }
  destruct (Z.ltb_spec observed (sample_end o)).
  { rewrite bool_decide_eq_false_2 by lia. done. }
  rewrite bool_decide_eq_true_2 by lia. cbn [orb].
  pose proof (kp_ok _ _ K) as (Hl & Hs & Hr).
  assert (Ho : spans_ok [(sample_start o, sample_end o)]).
  { apply spans_ok_cons. simpl. split_and!; [lia|done|apply spans_ok_nil]. }
  assert (Hne : Forall (λ r : Z * Z, r.1 < r.2) (sp_recovered_speech p ++ [(sample_start o, sample_end o)])).
  { apply Forall_app. split; by apply spans_ok_nonempty_all. }
  assert (Hset : spans_set [(sample_start o, sample_end o)] = span_set (sample_start o, sample_end o)).
  { simpl. apply union_empty_r_L. }
  destruct K. constructor; cbn -[spans_set span_set]; try done.
  - split_and!; [by apply subtract_spec..|by apply normalize_spec].
  - rewrite spans_set_subtract by done. congruence.
  - rewrite spans_set_subtract by done. congruence.
  - rewrite spans_set_normalize, spans_set_app by done. congruence.
Qed.

Lemma progress_run_keeps inputs : keeps (progress_run inputs) (debt_run inputs).
Proof.
  unfold progress_run, debt_run. induction inputs as [|i inputs IH] using rev_ind.
  - constructor; simpl; try done; [by destruct identity|]. split_and!; apply spans_ok_nil.
  - rewrite !foldl_app. simpl. destruct i; simpl.
    + by apply observe_speech_keeps. + by apply observe_apple_keeps. + by apply recovered_keeps.
Qed.

Lemma suspect_meets p d o :
  keeps p d → sample_start o < sample_end o →
  existsb (λ range : Z * Z, (range.1 <? sample_end o) && (sample_start o <? range.2)) (sp_suspect_speech p) = true ↔
  ∃ z, z ∈ db_suspect d ∧ sample_start o <= z < sample_end o.
Proof.
  intros K Ho. rewrite existsb_true, <- (kp_suspect _ _ K). setoid_rewrite elem_of_spans_set.
  pose proof (spans_ok_nonempty_all _ (proj1 (proj2 (kp_ok _ _ K)))) as Hne. rewrite Forall_forall in Hne.
  split.
  - intros (r & Hr & [H1%Z.ltb_lt H2%Z.ltb_lt]%andb_true_iff). specialize (Hne r Hr). simpl in Hne.
    exists (Z.max r.1 (sample_start o)). split; [exists r; split; [done|unfold in_range; lia]|lia].
  - intros (z & (r & Hr & Hz) & Hin). exists r. split; [done|]. unfold in_range in Hz.
    apply andb_true_iff. rewrite !Z.ltb_lt. lia.
Qed.
End spec.

(** C21: Over every history of measurements, previews and admitted recoveries
    the observer implements three sets of samples: the speech heard since the
    text last moved and not recovered, whose size is the stall clock; the speech
    that stalled at least 1200 ms and was not recovered since, which is what an
    occurrence owes; and the recovered speech, which no later measurement
    brings back. *)
Theorem progress_refines {tables : CharTables} identity rate inputs :
  0 < rate →
  let p := progress_run identity rate inputs in
  let d := debt_run identity rate inputs in
  spans_set (sp_live_speech p) = db_live d ∧
  spans_set (sp_suspect_speech p) = db_suspect d ∧
  spans_set (sp_recovered_speech p) = db_recovered d ∧
  debt_ms p rate = set_ms (db_live d) rate ∧
  (phase p rate = PhaseStalled ↔ sp_available p = true ∧ SPEECH_STALL_MS <= set_ms (db_live d) rate) ∧
  ∀ o e, occurrence_has_debt p o e rate = true ↔
    identity = se_identity e ∧ identity_matches identity (session o) (capture_epoch o) = true ∧
    ∃ z, z ∈ db_suspect d ∧ sample_start o <= z < sample_end o.
Proof.
  intros Hrate p d. pose proof (progress_run_keeps identity rate Hrate inputs) as K. fold p d in K.
  pose proof (live_ms identity rate Hrate p d K) as Hms.
  split_and!; [apply K..|done| |].
  - unfold phase. rewrite Hms, (kp_rate _ _ _ _ K), Z.eqb_refl, (proj2 (Z.eqb_neq rate 0)) by lia.
    destruct (sp_available p); cbn [negb orb]; [|by split; [|intros []]].
    destruct (Z.leb_spec SPEECH_STALL_MS (set_ms (db_live d) rate)); [done|].
    case_match; split; (done || intros []; lia).
  - intros o e. unfold occurrence_has_debt.
    rewrite (kp_rate _ _ _ _ K), Z.eqb_refl, (proj2 (Z.eqb_neq rate 0)), (kp_identity _ _ _ _ K) by lia.
    cbn [negb orb]. case_bool_decide as Hid; [by split; [|tauto]|].
    destruct (identity_matches _ _ _); cbn [negb orb]; [|split; [done|intros (_ & ? & _); done]].
    destruct (Z.leb_spec (sample_end o) (sample_start o)).
    + split; [done|]. intros (_ & _ & z & _ & ?). lia.
    + rewrite (suspect_meets identity rate p d o K) by lia. tauto.
Qed.

Lemma progress_refines_witness :
  let tables := ascii_tables in
  let id := mkCaptureIdentity "s" 1 in
  let e ranges n := speech_measured id "silero" (Observed n) (map (λ '(a, b), mkTailRange "s" 1 a b) ranges) in
  let inputs := [Heard (e [(0, 1000)] 1000) true 1000; Written "one" 900;
                 Heard (e [(0, 1000); (1100, 2400)] 2400) true 1000;
                 Recovered (mkOccurrence "s" 1 1100 2000) (e [] 2400)] in
  let p := progress_run id 1000 inputs in
  sp_suspect_speech p = [(2000, 2400)] ∧
  occurrence_has_debt p (mkOccurrence "s" 1 1500 2100) (e [] 2400) 1000 = true ∧
  ∃ z, z ∈ db_suspect (debt_run id 1000 inputs) ∧ 1500 <= z < 2100.
Proof.
  cbv zeta.
  match goal with |- sp_suspect_speech ?p = _ ∧ occurrence_has_debt _ ?o ?e _ = _ ∧ ∃ z, z ∈ db_suspect (@debt_run _ ?id _ ?i) ∧ _ =>
    pose proof (@progress_refines ascii_tables id 1000 i ltac:(lia)) as (_ & _ & _ & _ & _ & H);
    specialize (H o e) end.
  split; [by vm_compute|]. split; [by vm_compute|]. apply H. by vm_compute.
Defined.
