(* ===== verification/ConsultationInput.v ===== *)
(** ConsultationInput: from sealed speech to an instruction of the agent
    (core/agent/consultation.rs and the capture's side of it,
    [LiveConsultationCapture] of core/pipeline/streaming/apple_live_session.rs).

    A candidate is an interval of the capture read from the ledger.  The queue
    owns the order of the intervals, the capture decides when one is assessed,
    prepared and authorized.  A handle of the executor is the candidate it was
    prepared for and whether its owner still listens. *)

From S2P Require Import Prelude.
From S2P Require Import Text.
From S2P Require Import LedgerIdentity.
From S2P Require Import CaptureEvidence.
From S2P Require Import LedgerState.
From S2P Require Import LedgerCoverage.
From S2P Require Import LedgerSeal.
From S2P Require Import LedgerDocument.
#[local] Open Scope Z_scope.

Inductive InputError :=
  | InvalidInterval
  | CrossesOccurrence
  | NeedsIdentity
  | MovedBackwards
  | QueueFull
  | NoFollowingGroup
  | SourceChanged
  | OwnerStopped
  | DifferentCapture
  | StaleAcknowledgement.

#[global] Instance InputError_eq_dec : EqDecision InputError.
Proof. solve_decision. Defined.

#[global] Instance ConsultationPresentationMember_eq_dec : EqDecision ConsultationPresentationMember.
Proof. solve_decision. Defined.

Record SealedConsultationInput := mkSealedInput {
  sci_session_id : string;
  sci_capture_epoch : Z;
  sci_samples : Z * Z;
  sci_members : list ConsultationPresentationMember;
  sci_text : string
}.

#[global] Instance SealedConsultationInput_eq_dec : EqDecision SealedConsultationInput.
Proof. solve_decision. Defined.

(* ------------------------------------------------------------------ *)
(** ** Reading a candidate *)

(** The measurement covers the interval and leaves no speech in it open. *)
Definition heard_whole (L : AcousticLedger) (sess : string) (epoch : Z) (samples : Z * Z)
    (speech : AcousticSpeechEvidence) : bool :=
  let coverage := assess_seal_coverage L sess epoch speech 0 in
  negb (bool_decide (is_Some (unavailable_reason (cr_status coverage)))
        || match cr_observed_samples coverage with
           | None => true
           | Some end_ => end_ <? samples.2
           end
        || existsb (λ gap, (tr_sample_start gap <? samples.2) && (samples.1 <? tr_sample_end gap))
             (cr_uncovered_speech_ranges coverage)).

(** The loop over the known occurrences: members so far, a refusal of an
    interval that crosses one, or nothing yet. *)
Fixpoint gather (L : AcousticLedger) (interval_end previous_end : Z) (members : list ConsultationPresentationMember)
    (occurrences : list OccurrenceIdentity) : InputError + option (list ConsultationPresentationMember) :=
  match occurrences with
  | [] => inr (Some members)
  | o :: rest =>
      if (sample_start o <? previous_end) || (interval_end <? sample_end o) then inl CrossesOccurrence
      else if negb (is_qualified L o) || text_recovery_pending L o
              || negb (match lg_frontiers L !! o with Some f => is_closed f | None => false end)
      then inr None
      else
        match seal_of L o with
        | None => inr None
        | Some seal =>
            match text_of L o with
            | None => inr None
            | Some label =>
                if trim_is_empty label then inr None
                else gather L interval_end (sample_end o)
                       (members ++ [mkConsultationMember o label (sl_receipt_id seal)]) rest
            end
        end
  end.

Definition from_ledger (L : AcousticLedger) (sess : string) (epoch : Z) (samples : Z * Z)
    (speech : AcousticSpeechEvidence) : InputError + option SealedConsultationInput :=
  if String.eqb sess "" || (epoch =? 0) || (samples.2 <=? samples.1) then inl InvalidInterval
  else if negb (heard_whole L sess epoch samples speech) then inr None
  else
    let occurrences := known_inside L sess epoch samples.1 samples.2 in
    if bool_decide (occurrences = []) then inr None
    else
      match gather L samples.2 samples.1 [] occurrences with
      | inl error => inl error
      | inr None => inr None
      | inr (Some members) =>
          inr (Some (mkSealedInput sess epoch samples members (join_space (map cm_source_label members))))
      end.

Definition turn_id_for_group (input : SealedConsultationInput) : string :=
  "capture-group:" +:+ show_u64 (Z.of_nat (String.length (sci_session_id input)))
  +:+ ":" +:+ sci_session_id input +:+ ":" +:+ show_u64 (sci_capture_epoch input)
  +:+ ":" +:+ show_u64 (sci_samples input).1 +:+ ":" +:+ show_u64 (sci_samples input).2.

(* ------------------------------------------------------------------ *)
(** ** The queue of boundaries *)

Record ConsultationInputQueue := mkInputQueue {
  iq_session_id : string;
  iq_capture_epoch : Z;
  iq_accepted_end : Z;
  iq_last_boundary_end : Z;
  iq_boundaries : list Z
}.

Definition input_queue_new (sess : string) (epoch : Z) : InputError + ConsultationInputQueue :=
  if trim_is_empty sess || (epoch =? 0) then inl NeedsIdentity
  else inr (mkInputQueue sess epoch 0 0 []).

Definition append_boundary (end_ : Z) (q : ConsultationInputQueue) : ConsultationInputQueue * (InputError + bool) :=
  let last := iq_last_boundary_end q in
  if end_ <? last then (q, inl MovedBackwards)
  else if end_ =? last then (q, inr false)
  else if (16 <=? length (iq_boundaries q))%nat then (q, inl QueueFull)
  else (q <| iq_boundaries ::= (λ l, l ++ [end_]) |> <| iq_last_boundary_end := end_ |>, inr true).

Definition resume_speech (q : ConsultationInputQueue) : ConsultationInputQueue :=
  q <| iq_boundaries := [] |>.

Definition front (q : ConsultationInputQueue) : option Z := head (iq_boundaries q).

Definition ready (q : ConsultationInputQueue) (L : AcousticLedger) (speech : AcousticSpeechEvidence)
    : InputError + option SealedConsultationInput :=
  match front q with
  | None => inr None
  | Some end_ => from_ledger L (iq_session_id q) (iq_capture_epoch q) (iq_accepted_end q, end_) speech
  end.

(** A prepared candidate, and whether its owner waits for the authorization. *)
Record PreparedConsultationGroup := mkPrepared {
  pg_input : SealedConsultationInput;
  pg_owner_waits : bool
}.

Definition authorize_prepared (prepared : PreparedConsultationGroup) (L : AcousticLedger)
    (speech : AcousticSpeechEvidence) (q : ConsultationInputQueue) : InputError + SealedConsultationInput :=
  match ready q L speech with
  | inl error => inl error
  | inr current =>
      if negb (bool_decide (current = Some (pg_input prepared))) then inl SourceChanged
      else if pg_owner_waits prepared then inr (pg_input prepared)
      else inl OwnerStopped
  end.

(** Nothing is known to have been said in the interval. *)
Definition interval_silent (L : AcousticLedger) (sess : string) (epoch : Z) (samples : Z * Z)
    (speech : AcousticSpeechEvidence) : bool :=
  let coverage := assess_seal_coverage L sess epoch speech 0 in
  negb (bool_decide (is_Some (unavailable_reason (cr_status coverage)))
        || match cr_observed_samples coverage with
           | None => true
           | Some observed => observed <? samples.2
           end
        || existsb (λ r, (tr_sample_start r <? samples.2) && (samples.1 <? tr_sample_end r)) (se_ranges speech)
        || existsb (λ o, in_capture sess epoch o && (sample_start o <? samples.2) && (samples.1 <? sample_end o))
             (btree_keys (lg_evidence L) ++ btree_keys (lg_committed L))).

Definition skip_measured_silence (L : AcousticLedger) (speech : AcousticSpeechEvidence)
    (q : ConsultationInputQueue) : ConsultationInputQueue * bool :=
  match front q with
  | None => (q, false)
  | Some end_ =>
      if interval_silent L (iq_session_id q) (iq_capture_epoch q) (iq_accepted_end q, end_) speech
      then (q <| iq_accepted_end := end_ |> <| iq_boundaries ::= tail |>, true)
      else (q, false)
  end.

Definition join_front (q : ConsultationInputQueue) : ConsultationInputQueue * (InputError + unit) :=
  if (length (iq_boundaries q) <? 2)%nat then (q, inl NoFollowingGroup)
  else (q <| iq_boundaries ::= tail |>, inr tt).

Definition acknowledge (input : SealedConsultationInput) (q : ConsultationInputQueue)
    : ConsultationInputQueue * (InputError + unit) :=
  if negb (String.eqb (sci_session_id input) (iq_session_id q) && (sci_capture_epoch input =? iq_capture_epoch q))
  then (q, inl DifferentCapture)
  else if negb (((sci_samples input).1 =? iq_accepted_end q) && bool_decide (front q = Some (sci_samples input).2))
  then (q, inl StaleAcknowledgement)
  else (q <| iq_accepted_end := (sci_samples input).2 |> <| iq_boundaries ::= tail |>, inr tt).

Definition pending_groups (q : ConsultationInputQueue) : nat := length (iq_boundaries q).

(* ------------------------------------------------------------------ *)
(** ** The capture's side *)

Definition CONSULTATION_QUEUE_CAP : nat := 16.

Inductive LiveConsultationRequest :=
  | Assess (input : SealedConsultationInput)
  | Prepare (input : SealedConsultationInput)
  | Finish (input : SealedConsultationInput).

(** The verdict on a candidate; an error is [None]. *)
Inductive ConsultationReadiness :=
  | ReadyComplete (input : SealedConsultationInput)
  | ReadyContinue (input : SealedConsultationInput).

Inductive LiveConsultationReturn :=
  | Assessed (result : option ConsultationReadiness)
  | PreparedReturn (result : option PreparedConsultationGroup)
  | Published (ok : bool).

Inductive SendOutcome := SendOk | SendFull | SendClosed.

(** What the capture finds when it acts: the ledger, the voice detector's
    evidence where one runs, and the room in the request channel. *)
Record Moment := mkMoment {
  mo_ledger : AcousticLedger;
  mo_speech : option AcousticSpeechEvidence;
  mo_send : SendOutcome
}.

(** [lc_in_flight] are the requests the session has not answered, [lc_executed]
    the candidates whose execution was authorized. *)
Record LiveConsultationCapture := mkLive {
  lc_queue : ConsultationInputQueue;
  lc_in_flight : list LiveConsultationRequest;
  lc_last_assessed : option SealedConsultationInput;
  lc_assessment_pending : bool;
  lc_answers_pending : nat;
  lc_speech_open : bool;
  lc_refused : bool;
  lc_executed : list SealedConsultationInput
}.

Definition live_new (q : ConsultationInputQueue) : LiveConsultationCapture :=
  mkLive q [] None false 0 false false [].

Definition report_refusal (c : LiveConsultationCapture) : LiveConsultationCapture :=
  c <| lc_refused := true |>.

Definition try_send (send : SendOutcome) (request : LiveConsultationRequest) (c : LiveConsultationCapture)
    : LiveConsultationCapture * bool :=
  match send with
  | SendOk => (c <| lc_in_flight ::= (λ l, l ++ [request]) |>, true)
  | _ => (c, false)
  end.

(** [speech_live], the closed utterances and whether one is still open, of one
    chunk of the voice detector. *)
Definition observe_ingest (speech_live any_closed open : bool) (samples_seen : Z) (c : LiveConsultationCapture)
    : LiveConsultationCapture * (InputError + unit) :=
  let c := c <| lc_speech_open := open |> in
  let c := if speech_live then c <| lc_queue ::= resume_speech |> else c in
  if any_closed && negb open
  then
    match append_boundary samples_seen (lc_queue c) with
    | (q, inl error) => (c <| lc_queue := q |>, inl error)
    | (q, inr _) => (c <| lc_queue := q |>, inr tt)
    end
  else (c, inr tt).

(** The worker reports a refused observation. *)
Definition observe (speech_live any_closed open : bool) (samples_seen : Z) (c : LiveConsultationCapture)
    : LiveConsultationCapture :=
  match observe_ingest speech_live any_closed open samples_seen c with
  | (c, inl _) => report_refusal c
  | (c, inr _) => c
  end.

Definition on_assessed (m : Moment) (result : option ConsultationReadiness) (c : LiveConsultationCapture)
    : LiveConsultationCapture :=
  let c := c <| lc_assessment_pending := false |> in
  match result with
  | Some (ReadyComplete input) =>
      if lc_refused c || lc_speech_open c then c
      else
        let '(c, sent) := try_send (mo_send m) (Prepare input) c in
        if sent then c <| lc_assessment_pending := true |> else report_refusal c
  | _ => c
  end.

Definition on_prepared (m : Moment) (result : option PreparedConsultationGroup) (c : LiveConsultationCapture)
    : LiveConsultationCapture :=
  let c := c <| lc_assessment_pending := false |> in
  match result with
  | None => report_refusal c
  | Some prepared =>
      if lc_refused c || lc_speech_open c then c
      else
        match mo_speech m with
        | None => c
        | Some speech =>
            match mo_send m with
            | SendOk =>
                if negb (bool_decide (ready (lc_queue c) (mo_ledger m) speech = inr (Some (pg_input prepared)))) then c
                else
                  match authorize_prepared prepared (mo_ledger m) speech (lc_queue c) with
                  | inl _ => report_refusal c
                  | inr pending =>
                      let '(q, acknowledged) := acknowledge pending (lc_queue c) in
                      let c := c <| lc_queue := q |> <| lc_answers_pending ::= S |>
                                 <| lc_executed ::= (λ l, l ++ [pending]) |>
                                 <| lc_in_flight ::= (λ l, l ++ [Finish pending]) |> in
                      match acknowledged with inl _ => report_refusal c | inr _ => c end
                  end
            | _ => report_refusal c
            end
        end
  end.

Definition on_published (ok : bool) (c : LiveConsultationCapture) : LiveConsultationCapture :=
  let c := c <| lc_answers_pending ::= (λ n, (n - 1)%nat) |> in
  if ok then c else report_refusal c.

Definition on_return (m : Moment) (ret : LiveConsultationReturn) (c : LiveConsultationCapture)
    : LiveConsultationCapture :=
  match ret with
  | Assessed result => on_assessed m result c
  | PreparedReturn result => on_prepared m result c
  | Published ok => on_published ok c
  end.

(** The session task vanished. *)
Definition on_disconnected (c : LiveConsultationCapture) : LiveConsultationCapture :=
  (report_refusal c) <| lc_assessment_pending := false |> <| lc_answers_pending := 0%nat |> <| lc_in_flight := [] |>.

(** [while self.queue.skip_measured_silence(…) {}]. *)
Fixpoint skip_all (fuel : nat) (L : AcousticLedger) (speech : AcousticSpeechEvidence) (q : ConsultationInputQueue)
    : ConsultationInputQueue :=
  match fuel with
  | O => q
  | S fuel' =>
      match skip_measured_silence L speech q with
      | (q', true) => skip_all fuel' L speech q'
      | (q', false) => q'
      end
  end.

(** The end of a tick: what to assess next. *)
Definition nominate (m : Moment) (c : LiveConsultationCapture) : LiveConsultationCapture :=
  if lc_refused c || lc_speech_open c || lc_assessment_pending c
     || (CONSULTATION_QUEUE_CAP <=? lc_answers_pending c)%nat
  then c
  else
    match mo_speech m with
    | None => c
    | Some speech =>
        let c := c <| lc_queue ::= (λ q, skip_all (pending_groups q) (mo_ledger m) speech q) |> in
        match ready (lc_queue c) (mo_ledger m) speech with
        | inl _ => report_refusal c
        | inr None => c
        | inr (Some input) =>
            if bool_decide (lc_last_assessed c = Some input) then c
            else
              match mo_send m with
              | SendOk =>
                  (fst (try_send SendOk (Assess input) c)) <| lc_last_assessed := Some input |>
                    <| lc_assessment_pending := true |>
              | SendFull => c
              | SendClosed => report_refusal c
              end
        end
    end.

(** [while pending_groups() > 1 { join_front() }]. *)
Fixpoint join_all (fuel : nat) (q : ConsultationInputQueue) : ConsultationInputQueue :=
  match fuel with
  | O => q
  | S fuel' =>
      if (1 <? pending_groups q)%nat
      then match join_front q with (q', inr _) => join_all fuel' q' | (q', inl _) => q' end
      else q
  end.

(** [settle] before its loop of ticks. *)
Definition settle (end_ : Z) (c : LiveConsultationCapture) : LiveConsultationCapture :=
  let c := c <| lc_speech_open := false |> in
  let '(q, result) := append_boundary end_ (lc_queue c) in
  let c := c <| lc_queue := q |> in
  let c := match result with inl _ => report_refusal c | inr _ => c end in
  c <| lc_queue ::= (λ q, join_all (pending_groups q) q) |>.

(** [settle] after its loop. *)
Definition settle_end (c : LiveConsultationCapture) : LiveConsultationCapture :=
  if (0 <? pending_groups (lc_queue c))%nat then report_refusal c else c.

(** What the session answers to a request. *)
Definition answers (request : LiveConsultationRequest) (ret : LiveConsultationReturn) : bool :=
  match request, ret with
  | Assess _, Assessed _ | Prepare _, PreparedReturn _ | Finish _, Published _ => true
  | _, _ => false
  end.

(** A step of the capture thread.  [LiveReturn] takes the answer to the [k]-th
    unanswered request; the loop of a tick is a run of these and [LiveNominate]. *)
Inductive LiveStep :=
  | LiveObserve (speech_live any_closed open : bool) (samples_seen : Z)
  | LiveReturn (k : nat) (m : Moment) (ret : LiveConsultationReturn)
  | LiveDisconnected
  | LiveNominate (m : Moment)
  | LiveSettle (end_ : Z)
  | LiveSettleEnd.

Definition live_step (c : LiveConsultationCapture) (step : LiveStep) : LiveConsultationCapture :=
  match step with
  | LiveObserve speech_live any_closed open samples_seen => observe speech_live any_closed open samples_seen c
  | LiveReturn k m ret =>
      match lc_in_flight c !! k with
      | Some request =>
          if answers request ret then on_return m ret (c <| lc_in_flight ::= delete k |>) else c
      | None => c
      end
  | LiveDisconnected => on_disconnected c
  | LiveNominate m => nominate m c
  | LiveSettle end_ => settle end_ c
  | LiveSettleEnd => settle_end c
  end.

Definition live_run (q : ConsultationInputQueue) (steps : list LiveStep) : LiveConsultationCapture :=
  foldl live_step (live_new q) steps.
