(* ===== verification/ConsultationInputFacts.v ===== *)
(** ConsultationInputFacts: what a candidate states of the ledger, and that the
    capture executes each stretch of speech at most once. *)

From S2P Require Import Prelude.
From S2P Require Import Text.
From S2P Require Import LedgerIdentity.
From S2P Require Import LedgerSpans.
From S2P Require Import CaptureEvidence.
From S2P Require Import LedgerState.
From S2P Require Import LedgerCoverage.
From S2P Require Import LedgerSeal.
From S2P Require Import LedgerDocument.
From S2P Require Import LedgerSealFacts.
From S2P Require Import LedgerDocumentFacts.
From S2P Require Import ConsultationInput.
#[local] Open Scope Z_scope.

(* ------------------------------------------------------------------ *)
(** ** What the ledger knows in an interval *)

Definition known (L : AcousticLedger) (o : OccurrenceIdentity) : Prop :=
  is_Some (lg_evidence L !! o) ∨ is_Some (lg_committed L !! o).

Definition meets (sess : string) (epoch s e : Z) (o : OccurrenceIdentity) : Prop :=
  in_capture sess epoch o = true ∧ sample_start o < e ∧ s < sample_end o.

Lemma btree_elements_sorted (X : gset OccurrenceIdentity) : StronglySorted occ_lt (btree_elements X).
Proof.
  assert (Hs : StronglySorted occ_le (btree_elements X)) by (apply StronglySorted_merge_sort; apply _).
  pose proof (btree_elements_NoDup X) as Hn.
  induction Hs as [|o l Hs IH Ho]; [constructor|]. apply NoDup_cons in Hn as [Hno Hn].
  constructor; [by apply IH|]. rewrite Forall_forall in Ho |- *. intros p Hp.
  destruct (proj1 (occ_le_cases _ _) (Ho p Hp)) as [->|?]; [done|assumption].
Qed.

Lemma occ_lt_sorted_unique l1 l2 :
  StronglySorted occ_lt l1 → StronglySorted occ_lt l2 → (∀ o, o ∈ l1 ↔ o ∈ l2) → l1 = l2.
Proof.
  assert (Hle : ∀ l, StronglySorted occ_lt l → StronglySorted occ_le l ∧ NoDup l).
  { induction 1 as [|o l Hs [IH1 IH2] Ho]; [split; constructor|]. rewrite Forall_forall in Ho.
    split; constructor; auto.
    - apply Forall_forall. intros p Hp. apply occ_le_cases. right. by apply Ho.
    - intros Hin. by apply (occ_lt_irrefl o), Ho. }
  intros [H1 N1]%Hle [H2 N2]%Hle Heq. apply (StronglySorted_unique occ_le); [done|done|]. by apply NoDup_Permutation.
Qed.

(* ------------------------------------------------------------------ *)
(** ** The loop over the members *)

(** Occurrences one after the other inside an interval. *)
Fixpoint laid_out (previous_end interval_end : Z) (l : list OccurrenceIdentity) : Prop :=
  match l with
  | [] => True
  | o :: rest => previous_end <= sample_start o ∧ sample_end o <= interval_end ∧ laid_out (sample_end o) interval_end rest
  end.

Lemma member_current_iff L o label receipt :
  member_current L (mkConsultationMember o label receipt) = true ↔
  is_qualified L o = true ∧ text_recovery_pending L o = false ∧
  (∃ f, lg_frontiers L !! o = Some f ∧ is_closed f = true) ∧
  (∃ s, seal_of L o = Some s ∧ sl_receipt_id s = receipt) ∧
  text_of L o = Some label ∧ trim_is_empty label = false.
Proof.
  unfold member_current. simpl. rewrite !andb_true_iff, !negb_true_iff, bool_decide_eq_true.
  destruct (lg_frontiers L !! o) as [f|], (seal_of L o) as [s|]; rewrite ?String.eqb_eq; naive_solver.
Qed.

Lemma gather_spec L e occs : ∀ prev acc ms,
  gather L e prev acc occs = inr (Some ms) ↔
  ∃ new, ms = acc ++ new ∧ map cm_occurrence new = occs ∧ laid_out prev e occs ∧
    ∀ m, m ∈ new → member_current L m = true.
Proof.
  induction occs as [|o occs IH]; intros prev acc ms; cbn [gather laid_out].
  - split.
    + intros [= <-]. exists []. rewrite app_nil_r. split_and!; [done..|]. by intros m ?%not_elem_of_nil.
    + intros (new & -> & Hn & _). apply map_eq_nil in Hn as ->. by rewrite app_nil_r.
  - split.
    + destruct (_ || _) eqn:Hc; [done|]. apply orb_false_iff in Hc as [?%Z.ltb_ge ?%Z.ltb_ge].
      destruct (negb (is_qualified L o) || _ || _) eqn:Hq; [done|]. rewrite !orb_false_iff, !negb_false_iff in Hq.
      destruct Hq as [[Hq Hd] Hf]. destruct (seal_of L o) as [seal|] eqn:Hs; [|done].
      destruct (text_of L o) as [label|] eqn:Ht; [|done]. destruct (trim_is_empty label) eqn:Hb; [done|].
      rewrite IH. intros (new & -> & <- & Hl & Hcur).
      exists (mkConsultationMember o label (sl_receipt_id seal) :: new). rewrite <- app_assoc.
      split_and!; [done..|]. intros m [->|Hm]%elem_of_cons; [|by apply Hcur]. apply member_current_iff.
      split_and!; [done|done| |by eexists|done|done]. destruct (lg_frontiers L !! o) as [f|]; [by exists f|done].
    + intros ([|[o' label receipt] new] & -> & Hn & (Hs & He & Hl) & Hcur); [done|]. injection Hn as -> Hn. subst occs.
      rewrite (proj2 (Z.ltb_ge _ _) Hs), (proj2 (Z.ltb_ge _ _) He). cbn [orb].
      destruct (proj1 (member_current_iff L o label receipt)) as (-> & -> & (f & -> & ->) & (s & -> & <-) & -> & ->);
        [apply Hcur; by left|]. cbn [orb negb].
      apply IH. exists new. rewrite <- app_assoc. split_and!; [done..|]. intros m Hm. apply Hcur. by right.
Qed.

(* ------------------------------------------------------------------ *)
(** ** The measurement *)

(** The measurement reaches the end of the interval. *)
Definition measured_to (L : AcousticLedger) (sess : string) (epoch e : Z) (speech : AcousticSpeechEvidence) : Prop :=
  let coverage := assess_seal_coverage L sess epoch speech 0 in
  unavailable_reason (cr_status coverage) = None ∧
  ∃ observed, cr_observed_samples coverage = Some observed ∧ e <= observed.

Lemma covered_dec L sess epoch z :
  debt_anchored L →
  {committed_sample L sess epoch z ∧ ¬ debt_sample L sess epoch z}
  + {¬ (committed_sample L sess epoch z ∧ ¬ debt_sample L sess epoch z)}.
Proof.
  intros Hd. set (covered := subtract_debt (pending_text_recoveries L sess epoch) (committed_spans L sess epoch)).
  pose proof (proj2 (covered_spec L sess epoch Hd) z) as Hc. fold covered in Hc.
  destruct (base.decide (Exists (λ r, r.1 <= z < r.2) covered)) as [Hx|Hx]; [left|right]; rewrite <- Hc;
    unfold in_spans; rewrite Exists_exists in Hx; done.
Qed.

Lemma heard_whole_spec L sess epoch s e speech :
  debt_anchored L → s < e →
  heard_whole L sess epoch (s, e) speech = true ↔
  measured_to L sess epoch e speech ∧
  ∀ z, s <= z < e → speech_sample speech z → committed_sample L sess epoch z ∧ ¬ debt_sample L sess epoch z.
Proof.
  intros Hd Hse. unfold heard_whole, measured_to. simpl. rewrite negb_true_iff, !orb_false_iff, bool_decide_eq_false,
    <- eq_None_not_Some, existsb_false.
  set (r := assess_seal_coverage L sess epoch speech 0).
  assert (Hobs : match cr_observed_samples r with Some end_ => end_ <? e | None => true end = false ↔
    ∃ observed, cr_observed_samples r = Some observed ∧ e <= observed).
  { destruct (cr_observed_samples r) as [n|]; rewrite ?Z.ltb_ge; naive_solver. }
  rewrite Hobs. clear Hobs.
  assert (Hun : unavailable_reason (cr_status r) = None →
    (∀ x, x ∈ cr_uncovered_speech_ranges r → (tr_sample_start x <? e) && (s <? tr_sample_end x) = false) ↔
    (∀ z, s <= z < e → speech_sample speech z → committed_sample L sess epoch z ∧ ¬ debt_sample L sess epoch z));
    [|tauto].
  intros Hav. destruct (assess_measured _ _ _ _ _ Hav) as (observed & _ & Heq). fold r in Heq. rewrite Heq. clear Heq.
  destruct (uncovered_spec L sess epoch speech Hd) as [Hok Hspec]. simpl.
  set (unc := uncovered_speech _ _) in *. split.
  - intros Hno z Hz Hsp.
    assert (¬ in_spans z unc) as Hnz.
    { intros ([a b] & Hr & Hin). unfold in_range in Hin. simpl in Hin.
      assert (Hx : mkTailRange sess epoch a b ∈ map (λ '(s0, e0), mkTailRange sess epoch s0 e0) unc).
      { apply list_elem_of_In, in_map_iff. exists (a, b). split; [done|]. by apply list_elem_of_In. }
      specialize (Hno _ Hx). simpl in Hno. rewrite andb_false_iff, !Z.ltb_ge in Hno. lia. }
    rewrite Hspec in Hnz. destruct (covered_dec L sess epoch z Hd); tauto.
  - intros Hcov x Hx. apply list_elem_of_In, in_map_iff in Hx as ([a b] & <- & Hr%list_elem_of_In). simpl.
    rewrite andb_false_iff, !Z.ltb_ge. assert (Hne : a < b) by exact (spans_ok_nonempty _ _ Hr Hok).
    destruct (decide (e <= a)) as [?|Ha]; [tauto|]. destruct (decide (b <= s)) as [?|Hb]; [tauto|]. exfalso.
    assert (Hz : in_spans (Z.max s a) unc) by (exists (a, b); split; [done|unfold in_range; simpl; lia]).
    apply Hspec in Hz as [Hz Hn]. by apply Hn, Hcov; [lia|].
Qed.

(* ------------------------------------------------------------------ *)
(** ** A candidate *)

(** What a candidate states of the ledger it was read from. *)
Record sealed_reading (L : AcousticLedger) (sess : string) (epoch s e : Z) (speech : AcousticSpeechEvidence)
    (input : SealedConsultationInput) : Prop := {
  sr_interval : sess <> ""%string ∧ epoch <> 0 ∧ s < e;
  sr_capture : sci_session_id input = sess ∧ sci_capture_epoch input = epoch ∧ sci_samples input = (s, e);
  sr_measured : measured_to L sess epoch e speech;
  sr_heard : ∀ z, s <= z < e → speech_sample speech z →
    committed_sample L sess epoch z ∧ ¬ debt_sample L sess epoch z;
  sr_known : ∀ o, o ∈ map cm_occurrence (sci_members input) ↔ known L o ∧ meets sess epoch s e o;
  sr_order : StronglySorted occ_lt (map cm_occurrence (sci_members input));
  sr_inside : laid_out s e (map cm_occurrence (sci_members input));
  sr_current : ∀ m, m ∈ sci_members input → member_current L m = true;
  sr_some : sci_members input <> [];
  sr_text : sci_text input = join_space (map cm_source_label (sci_members input))
}.

Lemma from_ledger_reads L sess epoch s e speech input :
  debt_anchored L →
  from_ledger L sess epoch (s, e) speech = inr (Some input) ↔ sealed_reading L sess epoch s e speech input.
Proof.
  intros Hd. unfold from_ledger. simpl. pose proof (heard_whole_spec L sess epoch s e speech Hd) as Hh.
  set (occs := known_inside L sess epoch s e).
  assert (Hk : ∀ o, o ∈ occs ↔ known L o ∧ meets sess epoch s e o) by (intros o; apply known_inside_spec).
  assert (Hs : StronglySorted occ_lt occs) by apply btree_elements_sorted. clearbody occs. split.
  - destruct (_ || _ || _) eqn:Hi; [done|].
    rewrite !orb_false_iff, String.eqb_neq, Z.eqb_neq, Z.leb_gt in Hi. destruct Hi as [[Hi1 Hi2] Hi3].
    destruct (heard_whole _ _ _ _ _); [|done]. simpl. case_bool_decide as Hn; [done|].
    destruct (gather L e s [] occs) as [|[ms|]] eqn:Hg; [done| |done]. intros [= <-].
    apply gather_spec in Hg as (new & -> & <- & Hl & Hc). destruct (proj1 (Hh Hi3) eq_refl) as [Hm Hz].
    split; simpl; try done. by intros ->.
  - intros [[Hi1 [Hi2 Hi3]] [<- [<- Hsa]] Hm Hz Hkn Ho Hl Hc Hn Ht].
    rewrite (proj2 (String.eqb_neq _ _) Hi1), (proj2 (Z.eqb_neq _ _) Hi2), (proj2 (Z.leb_gt _ _) Hi3). simpl.
    rewrite (proj2 (Hh Hi3) (conj Hm Hz)). simpl.
    assert (occs = map cm_occurrence (sci_members input)) as ->.
    { apply occ_lt_sorted_unique; [done..|]. intros o. by rewrite Hk, Hkn. }
    rewrite bool_decide_eq_false_2 by (intros ?%map_eq_nil; done).
    rewrite (proj2 (gather_spec L e _ s [] (sci_members input))) by (exists (sci_members input); done).
    destruct input; simpl in *; subst; done.
Qed.

(** What a candidate keeps whatever the state of the ledger's debt. *)
Lemma from_ledger_inside L sess epoch samples speech input :
  from_ledger L sess epoch samples speech = inr (Some input) →
  samples.1 < samples.2 ∧ sci_session_id input = sess ∧ sci_capture_epoch input = epoch ∧
  sci_samples input = samples ∧ sci_members input <> [] ∧
  ∀ m, m ∈ sci_members input →
    samples.1 < sample_end (cm_occurrence m) ∧ sample_end (cm_occurrence m) <= samples.2.
Proof.
  unfold from_ledger. destruct (_ || _ || _) eqn:Hi; [done|]. rewrite !orb_false_iff, Z.leb_gt in Hi.
  destruct Hi as [_ Hi]. destruct (heard_whole _ _ _ _ _); [|done]. simpl. case_bool_decide as Hn; [done|].
  destruct (gather _ _ _ _ _) as [|[ms|]] eqn:Hg; [done| |done]. intros [= <-]. simpl.
  apply gather_spec in Hg as (new & -> & Hm & Hl & _). rewrite app_nil_l. split_and!; [done..| |].
  - intros ->. by rewrite <- Hm in Hn.
  - intros m Hin. assert (Ho : cm_occurrence m ∈ known_inside L sess epoch samples.1 samples.2).
    { rewrite <- Hm. apply list_elem_of_In, in_map, list_elem_of_In, Hin. }
    split; [by apply known_inside_spec in Ho as (_ & _ & _ & ?)|].
    clear Hn Hm Hin new. revert Ho Hl. generalize (known_inside L sess epoch samples.1 samples.2).
    intros l. generalize samples.1. induction l as [|o l IH]; intros p Ho Hl; [by apply not_elem_of_nil in Ho|].
    destruct Hl as (_ & He & Hl). apply elem_of_cons in Ho as [->|Ho]; [done|]. by eapply IH.
Qed.

(* ------------------------------------------------------------------ *)
(** ** The queue *)

Record queue_ok (sess : string) (epoch : Z) (q : ConsultationInputQueue) : Prop := {
  qo_capture : iq_session_id q = sess ∧ iq_capture_epoch q = epoch;
  qo_bounds : 0 <= iq_accepted_end q <= iq_last_boundary_end q;
  qo_sorted : StronglySorted Z.lt (iq_accepted_end q :: iq_boundaries q);
  qo_last : Forall (λ e, e <= iq_last_boundary_end q) (iq_boundaries q);
  qo_room : (length (iq_boundaries q) <= 16)%nat;
  qo_u64 : iq_last_boundary_end q <= u64_max
}.

Section queue.
  Context (sess : string) (epoch : Z).

Lemma queue_new_ok q : input_queue_new sess epoch = inr q → queue_ok sess epoch q.
  Proof.
    unfold input_queue_new. destruct (_ || _); [done|]. intros [= <-].
    split; simpl; [done|lia|by repeat constructor|constructor|lia|mach].
  Qed.

Lemma append_boundary_ok e q :
    e <= u64_max → queue_ok sess epoch q → queue_ok sess epoch (append_boundary e q).1.
  Proof.
    intros He [Hc Hb Hs Hl Hr Hu]. unfold append_boundary.
    destruct (Z.ltb_spec e (iq_last_boundary_end q)); [by split|].
    destruct (Z.eqb_spec e (iq_last_boundary_end q)); [by split|].
    destruct (Nat.leb_spec 16 (length (iq_boundaries q))); [by split|].
    split; simpl; try done; try lia.
    - change (iq_accepted_end q :: iq_boundaries q ++ [e]) with ((iq_accepted_end q :: iq_boundaries q) ++ [e]).
      apply StronglySorted_app_2; [|done|by repeat constructor]. rewrite Forall_forall in Hl.
      intros x y [->|Hx]%elem_of_cons ->%list_elem_of_singleton; [lia|]. specialize (Hl x Hx). simpl in Hl. lia.
    - apply Forall_app. split; [|by repeat constructor]. eapply Forall_impl; [exact Hl|]. simpl. lia.
    - rewrite length_app. simpl. lia.
  Qed.

Lemma resume_speech_ok q : queue_ok sess epoch q → queue_ok sess epoch (resume_speech q).
  Proof. intros [Hc Hb Hs Hl Hr Hu]. split; simpl; try done; try lia; by repeat constructor. Qed.

  (** The front group is consumed. *)
Lemma consume_ok q e l :
    iq_boundaries q = e :: l → queue_ok sess epoch q →
    iq_accepted_end q < e ∧
    queue_ok sess epoch (q <| iq_accepted_end := e |> <| iq_boundaries ::= tail |>).
  Proof.
    intros Heq [Hc Hb Hs Hl Hr Hu]. rewrite Heq in *. apply Forall_cons in Hl as [He Hl].
    apply StronglySorted_inv in Hs as [Hs Ha]. apply Forall_cons in Ha as [Ha _].
    split; [done|]. split; simpl; rewrite ?Heq; simpl in *; try done; lia.
  Qed.

Lemma join_front_ok q : queue_ok sess epoch q → queue_ok sess epoch (join_front q).1.
  Proof.
    unfold join_front. destruct (Nat.ltb_spec (length (iq_boundaries q)) 2); [done|].
    intros [Hc Hb Hs Hl Hr Hu]. destruct (iq_boundaries q) as [|e l] eqn:Heq; [simpl in *; lia|].
    apply Forall_cons in Hl as [He Hl]. apply StronglySorted_inv in Hs as [Hs Ha]. apply Forall_cons in Ha as [_ Ha].
    apply StronglySorted_inv in Hs as [Hs _].
    split; simpl; rewrite ?Heq; simpl in *; try done; [by constructor|lia].
  Qed.

Lemma join_front_accepted q : iq_accepted_end (join_front q).1 = iq_accepted_end q.
  Proof. unfold join_front. by destruct (_ <? _)%nat. Qed.

Lemma join_all_ok fuel : ∀ q, queue_ok sess epoch q →
    queue_ok sess epoch (join_all fuel q) ∧ iq_accepted_end (join_all fuel q) = iq_accepted_end q.
  Proof.
    induction fuel as [|fuel IH]; intros q Hq; simpl; [done|]. destruct (_ <? _)%nat; [|done].
    pose proof (join_front_ok q Hq) as H. pose proof (join_front_accepted q) as Ha.
    destruct (join_front q) as [q' [|]]; simpl in *; [done|]. rewrite <- Ha. by apply IH.
  Qed.

Lemma join_all_one fuel : ∀ q, (pending_groups q <= S fuel)%nat → (pending_groups (join_all fuel q) <= 1)%nat.
  Proof.
    induction fuel as [|fuel IH]; intros q Hq; simpl; [done|].
    destruct (Nat.ltb_spec 1 (pending_groups q)) as [Hlt|]; [|lia]. unfold join_front, pending_groups in *.
    destruct (Nat.ltb_spec (length (iq_boundaries q)) 2); [lia|]. apply IH. simpl.
    destruct (iq_boundaries q); simpl in *; lia.
  Qed.
End queue.

(* ------------------------------------------------------------------ *)
(** ** The consumed part of the capture *)

(** Everything up to a sample was consumed, by groups that were executed, in
    order, and stretches of measured silence; each against the ledger of one of
    the moments. *)
Inductive consumed (sess : string) (epoch : Z) (moments : list Moment) : Z → list SealedConsultationInput → Prop :=
  | consumed_nothing : consumed sess epoch moments 0 []
  | consumed_group a e executed input m speech :
      consumed sess epoch moments a executed →
      m ∈ moments → mo_speech m = Some speech →
      from_ledger (mo_ledger m) sess epoch (a, e) speech = inr (Some input) →
      consumed sess epoch moments e (executed ++ [input])
  | consumed_silence a e executed m speech :
      consumed sess epoch moments a executed → a < e →
      m ∈ moments → mo_speech m = Some speech →
      interval_silent (mo_ledger m) sess epoch (a, e) speech = true →
      consumed sess epoch moments e executed.

Lemma consumed_more sess epoch ms ms' a executed :
  (∀ m, m ∈ ms → m ∈ ms') → consumed sess epoch ms a executed → consumed sess epoch ms' a executed.
Proof.
  intros Hsub. induction 1; [constructor|eapply consumed_group|eapply consumed_silence]; eauto.
Qed.

(** Executed groups lie one after the other below the consumed end. *)
Lemma consumed_ordered sess epoch ms a executed :
  consumed sess epoch ms a executed →
  StronglySorted (λ x y, (sci_samples x).2 <= (sci_samples y).1) executed ∧
  0 <= a ∧
  ∀ x, x ∈ executed → sci_session_id x = sess ∧ sci_capture_epoch x = epoch ∧
    0 <= (sci_samples x).1 < (sci_samples x).2 ∧ (sci_samples x).2 <= a ∧
    sci_members x <> [] ∧ ∀ m, m ∈ sci_members x →
    (sci_samples x).1 < sample_end (cm_occurrence m) <= (sci_samples x).2.
Proof.
  induction 1 as [|a e executed input m speech Hc (IH1 & IHa & IH2) Hm Hsp Hf
                  |a e executed m speech Hc (IH1 & IHa & IH2) Hae Hm Hsp Hs].
  - split_and!; [constructor|done|]. by intros x ?%not_elem_of_nil.
  - apply from_ledger_inside in Hf as (Hse & <- & <- & Hsa & Hn & Hin). simpl in *.
    split; [|split; [lia|]].
    + apply StronglySorted_app_2; [|done|by repeat constructor].
      intros x y Hx ->%list_elem_of_singleton. rewrite Hsa. simpl. apply IH2 in Hx. lia.
    + intros x [Hx| ->%list_elem_of_singleton]%elem_of_app.
      * destruct (IH2 x Hx) as (? & ? & ? & ? & ? & ?). split_and!; try done; lia.
      * rewrite Hsa. simpl. split_and!; try done; try lia.
  - split_and!; [done|lia|]. intros x Hx. destruct (IH2 x Hx) as (? & ? & ? & ? & ? & ?). split_and!; try done; lia.
Qed.

(* ------------------------------------------------------------------ *)
(** ** The capture's steps *)

Definition step_ok (s : LiveStep) : Prop :=
  match s with
  | LiveObserve _ _ _ e | LiveSettle e => e <= u64_max
  | _ => True
  end.

Definition moments_of (s : LiveStep) : list Moment :=
  match s with
  | LiveReturn _ m _ | LiveNominate m => [m]
  | _ => []
  end.

Definition is_single (r : LiveConsultationRequest) : bool :=
  match r with Finish _ => false | _ => true end.

(** One request of the chain assess, prepare at a time; the answers owed. *)
Definition singles (l : list LiveConsultationRequest) : nat := length (List.filter is_single l).
Definition owed (l : list LiveConsultationRequest) : nat := length (List.filter (λ r, negb (is_single r)) l).

Lemma singles_snoc l r : singles (l ++ [r]) = (singles l + Nat.b2n (is_single r))%nat.
Proof. unfold singles. rewrite List.filter_app, length_app. simpl. by destruct (is_single r). Qed.

Lemma owed_snoc l r : owed (l ++ [r]) = (owed l + Nat.b2n (negb (is_single r)))%nat.
Proof. unfold owed. rewrite List.filter_app, length_app. simpl. by destruct (is_single r). Qed.

Lemma in_flight_delete l k r :
  l !! k = Some r →
  singles l = (singles (delete k l) + Nat.b2n (is_single r))%nat ∧
  owed l = (owed (delete k l) + Nat.b2n (negb (is_single r)))%nat.
Proof.
  revert k. induction l as [|x l IH]; intros [|k] H; simplify_eq/=.
  - unfold singles, owed. simpl. destruct (is_single r); simpl; lia.
  - destruct (IH k H) as [H1 H2]. unfold singles, owed in *. simpl. destruct (is_single x); simpl; lia.
Qed.

Section live.
  Context (sess : string) (epoch : Z).

Record live_ok (moments : list Moment) (c : LiveConsultationCapture) : Prop := {
    lo_queue : queue_ok sess epoch (lc_queue c);
    lo_consumed : consumed sess epoch moments (iq_accepted_end (lc_queue c)) (lc_executed c);
    lo_single : singles (lc_in_flight c) = Nat.b2n (lc_assessment_pending c);
    lo_owed : owed (lc_in_flight c) = lc_answers_pending c;
    lo_room : (lc_answers_pending c + Nat.b2n (lc_assessment_pending c) <= CONSULTATION_QUEUE_CAP)%nat
  }.

Lemma skip_ok moments m speech q executed :
    m ∈ moments → mo_speech m = Some speech → queue_ok sess epoch q →
    consumed sess epoch moments (iq_accepted_end q) executed →
    let q' := (skip_measured_silence (mo_ledger m) speech q).1 in
    queue_ok sess epoch q' ∧ consumed sess epoch moments (iq_accepted_end q') executed.
  Proof.
    intros Hm Hsp Hq Hc. unfold skip_measured_silence, front.
    destruct (iq_boundaries q) as [|e l] eqn:Heq; simpl; [done|].
    destruct (qo_capture _ _ _ Hq) as [<- <-]. destruct (interval_silent _ _ _ _ _) eqn:Hs; simpl; [|done].
    destruct (consume_ok _ _ q e l Heq Hq) as [Hae Hq']. split; [exact Hq'|]. by eapply consumed_silence.
  Qed.

Lemma skip_all_ok moments m speech executed : ∀ fuel q,
    m ∈ moments → mo_speech m = Some speech → queue_ok sess epoch q →
    consumed sess epoch moments (iq_accepted_end q) executed →
    let q' := skip_all fuel (mo_ledger m) speech q in
    queue_ok sess epoch q' ∧ consumed sess epoch moments (iq_accepted_end q') executed.
  Proof.
    induction fuel as [|fuel IH]; intros q Hm Hsp Hq Hc; simpl; [done|].
    pose proof (skip_ok moments m speech q executed Hm Hsp Hq Hc) as [H1 H2].
    destruct (skip_measured_silence _ _ _) as [q' [|]]; simpl in *; [by apply IH|done].
  Qed.

  (** A return leaves the request it answers out of the books; the flags are
      settled by the handler. *)
Record returned_ok (moments : list Moment) (k : LiveConsultationRequest) (c : LiveConsultationCapture) : Prop := {
    ro_queue : queue_ok sess epoch (lc_queue c);
    ro_consumed : consumed sess epoch moments (iq_accepted_end (lc_queue c)) (lc_executed c);
    ro_single : (singles (lc_in_flight c) + Nat.b2n (is_single k))%nat = Nat.b2n (lc_assessment_pending c);
    ro_owed : (owed (lc_in_flight c) + Nat.b2n (negb (is_single k)))%nat = lc_answers_pending c;
    ro_room : (lc_answers_pending c + Nat.b2n (lc_assessment_pending c) <= CONSULTATION_QUEUE_CAP)%nat
  }.

Lemma on_assessed_ok moments m i result c :
    returned_ok moments (Assess i) c → live_ok moments (on_assessed m result c).
  Proof.
    intros [Hq Hc Hs Ho Hr]. unfold on_assessed. destruct (lc_assessment_pending c) eqn:Hp; simpl in *; [|lia].
    destruct result as [[input|input]|]; simpl; [|split; simpl; try done; lia..].
    destruct (lc_refused c || lc_speech_open c); [split; simpl; try done; lia|].
    unfold try_send. destruct (mo_send m); split; simpl; try done; rewrite ?singles_snoc, ?owed_snoc; simpl; lia.
  Qed.

Lemma on_published_ok moments i ok c :
    returned_ok moments (Finish i) c → live_ok moments (on_published ok c).
  Proof.
    intros [Hq Hc Hs Ho Hr]. unfold on_published. simpl in *.
    destruct ok; split; simpl; try done; lia.
  Qed.

Lemma authorize_inv prepared L speech q input :
    authorize_prepared prepared L speech q = inr input →
    input = pg_input prepared ∧ ready q L speech = inr (Some input).
  Proof.
    unfold authorize_prepared. destruct (ready q L speech) as [|current]; [done|].
    case_bool_decide as Hc; simpl; [|done]. destruct (pg_owner_waits prepared); [|done].
    intros [= <-]. by rewrite Hc.
  Qed.

  (** What was read at the front is acknowledged. *)
Lemma ready_acknowledged L speech q input :
    queue_ok sess epoch q → ready q L speech = inr (Some input) →
    ∃ e l, iq_boundaries q = e :: l ∧
      from_ledger L sess epoch (iq_accepted_end q, e) speech = inr (Some input) ∧
      acknowledge input q = (q <| iq_accepted_end := e |> <| iq_boundaries ::= tail |>, inr tt).
  Proof.
    intros Hq. unfold ready, front. destruct (qo_capture _ _ _ Hq) as [Hs He].
    destruct (iq_boundaries q) as [|e l] eqn:Heq; [done|]. simpl. rewrite Hs, He. intros Hf.
    exists e, l. split_and!; [done..|]. apply from_ledger_inside in Hf as (_ & Hi1 & Hi2 & Hi3 & _).
    unfold acknowledge, front. rewrite Hi1, Hi2, Hi3, Hs, He, Heq, String.eqb_refl, !Z.eqb_refl. simpl.
    by rewrite bool_decide_eq_true_2.
  Qed.

Lemma on_prepared_ok moments m i result c :
    m ∈ moments → returned_ok moments (Prepare i) c → live_ok moments (on_prepared m result c).
  Proof.
    intros Hm [Hq Hc Hs Ho Hr]. unfold on_prepared. destruct (lc_assessment_pending c) eqn:Hp; simpl in *; [|lia].
    destruct result as [prepared|]; [|split; simpl; try done; lia].
    destruct (lc_refused c || lc_speech_open c); [split; simpl; try done; lia|].
    destruct (mo_speech m) as [speech|] eqn:Hsp; [|split; simpl; try done; lia].
    destruct (mo_send m); [|split; simpl; try done; lia..].
    case_bool_decide as Hready; simpl; [|split; simpl; try done; lia].
    destruct (authorize_prepared _ _ _ _) as [|input] eqn:Ha; [split; simpl; try done; lia|].
    apply authorize_inv in Ha as [_ Ha]. destruct (ready_acknowledged _ _ _ _ Hq Ha) as (e & l & Hb & Hf & ->).
    destruct (consume_ok _ _ _ _ _ Hb Hq) as [_ Hq'].
    split; simpl; rewrite ?singles_snoc, ?owed_snoc; simpl; try lia; [exact Hq'|].
    by eapply consumed_group.
  Qed.

Lemma nominate_ok moments m c :
    m ∈ moments → live_ok moments c → live_ok moments (nominate m c).
  Proof.
    intros Hm H. unfold nominate. destruct (_ || _ || _ || _) eqn:Hg; [done|].
    rewrite !orb_false_iff, Nat.leb_gt in Hg. destruct Hg as [[_ Hp] Hroom].
    destruct (mo_speech m) as [speech|] eqn:Hsp; [|done]. destruct H as [Hq Hc Hs Ho Hr].
    destruct (skip_all_ok moments m speech _ (pending_groups (lc_queue c)) _ Hm Hsp Hq Hc) as [Hq' Hc'].
    rewrite Hp in *. simpl in *.
    destruct (ready _ _ speech) as [|[input|]]; [split; simpl; try done; rewrite ?Hp; simpl; lia| |split; simpl; try done; rewrite ?Hp; simpl; lia].
    case_bool_decide; [split; simpl; try done; rewrite ?Hp; simpl; lia|].
    destruct (mo_send m); split; simpl; try done; rewrite ?singles_snoc, ?owed_snoc, ?Hp; simpl; lia.
  Qed.

Lemma observe_ok moments speech_live any_closed open e c :
    e <= u64_max → live_ok moments c → live_ok moments (observe speech_live any_closed open e c).
  Proof.
    intros He [Hq Hc Hs Ho Hr]. unfold observe, observe_ingest.
    set (q := if speech_live then resume_speech (lc_queue c) else lc_queue c).
    assert (Hq1 : queue_ok sess epoch q) by (unfold q; destruct speech_live; [by apply resume_speech_ok|done]).
    assert (Ha1 : iq_accepted_end q = iq_accepted_end (lc_queue c)) by (unfold q; by destruct speech_live).
    pose proof (append_boundary_ok sess epoch e q He Hq1) as Hq2.
    assert (Ha2 : iq_accepted_end (append_boundary e q).1 = iq_accepted_end q).
    { unfold append_boundary. by repeat case_match. }
    assert (Hl : lc_queue (if speech_live then (c <| lc_speech_open := open |>) <| lc_queue ::= resume_speech |>
      else c <| lc_speech_open := open |>) = q) by (unfold q; by destruct speech_live).
    rewrite Hl. destruct (any_closed && negb open); [|split; simpl; rewrite ?Hl, ?Ha1; by destruct speech_live].
    destruct (append_boundary e q) as [q' [|]]; simpl in *;
      (split; simpl; rewrite ?Ha2, ?Ha1; by destruct speech_live).
  Qed.

Lemma settle_ok moments e c :
    e <= u64_max → live_ok moments c → live_ok moments (settle e c).
  Proof.
    intros He [Hq Hc Hs Ho Hr]. unfold settle. simpl.
    pose proof (append_boundary_ok sess epoch e (lc_queue c) He Hq) as Hq2.
    assert (Ha2 : iq_accepted_end (append_boundary e (lc_queue c)).1 = iq_accepted_end (lc_queue c)).
    { unfold append_boundary. by repeat case_match. }
    destruct (append_boundary e (lc_queue c)) as [q' result]. simpl in *.
    destruct (join_all_ok sess epoch (pending_groups q') q' Hq2) as [H1 H2].
    destruct result; (split; simpl; try done; by rewrite H2, Ha2).
  Qed.

Lemma live_step_ok moments c s :
    step_ok s → live_ok moments c → live_ok (moments ++ moments_of s) (live_step c s).
  Proof.
    intros Hs H. assert (H' : live_ok (moments ++ moments_of s) c).
    { destruct H as [Hq Hc ???]. split; try done. eapply consumed_more; [|exact Hc]. intros m Hm. apply elem_of_app. by left. }
    clear H. destruct s as [speech_live any_closed open e|k m ret| |m|e|]; simpl in *.
    - by apply observe_ok.
    - destruct (lc_in_flight c !! k) as [request|] eqn:Hk; [|done]. destruct (answers request ret) eqn:Ha; [|done].
      destruct (in_flight_delete _ _ _ Hk) as [H1 H2]. destruct H' as [Hq Hc Hsi Ho Hr].
      assert (Hm : m ∈ moments ++ [m]) by (apply elem_of_app; right; by left).
      destruct request as [i|i|i], ret as [result|result|ok]; try done.
      + apply (on_assessed_ok _ m i). split; simpl in *; try done; lia.
      + apply (on_prepared_ok _ m i); [done|]. split; simpl in *; try done; lia.
      + apply (on_published_ok _ i). split; simpl in *; try done; lia.
    - destruct H' as [Hq Hc Hsi Ho Hr]. split; simpl; try done. unfold CONSULTATION_QUEUE_CAP. lia.
    - apply nominate_ok; [|done]. apply elem_of_app. right. by left.
    - by apply settle_ok.
    - unfold settle_end. destruct (_ <? _)%nat; [|done]. by destruct H'.
  Qed.

Lemma live_run_ok q steps :
    input_queue_new sess epoch = inr q → Forall step_ok steps →
    live_ok (flat_map moments_of steps) (live_run q steps).
  Proof.
    intros Hq. unfold live_run. pose proof (queue_new_ok _ _ _ Hq) as Hq'.
    assert (H0 : live_ok [] (live_new q)).
    { split; simpl; try done; [|unfold CONSULTATION_QUEUE_CAP; lia]. unfold input_queue_new in Hq.
      destruct (_ || _); [done|]. injection Hq as <-. constructor. }
    clear Hq Hq'. revert H0. generalize (live_new q). change (flat_map moments_of steps) with ([] ++ flat_map moments_of steps).
    generalize (@nil Moment). induction steps as [|s steps IH]; intros ms c H0 Hok; simpl; [by rewrite app_nil_r|].
    apply Forall_cons in Hok as [Hs Hok]. rewrite app_assoc. apply IH; [by apply live_step_ok|done].
  Qed.
End live.

(* ------------------------------------------------------------------ *)
(** ** The execution key *)

Lemma turn_id_injective x y :
  is_u64 (Z.of_nat (String.length (sci_session_id x))) → is_u64 (Z.of_nat (String.length (sci_session_id y))) →
  is_u64 (sci_capture_epoch x) → is_u64 (sci_capture_epoch y) →
  is_u64 (sci_samples x).1 → is_u64 (sci_samples y).1 → is_u64 (sci_samples x).2 → is_u64 (sci_samples y).2 →
  turn_id_for_group x = turn_id_for_group y →
  sci_session_id x = sci_session_id y ∧ sci_capture_epoch x = sci_capture_epoch y ∧ sci_samples x = sci_samples y.
Proof.
  intros Hx Hy Hex Hey Hsx Hsy Htx Hty H. unfold turn_id_for_group in H.
  apply append_cut in H as [_ H]; [|done].
  apply show_u64_cut in H as [Hlen H]; [|done..]. apply append_cut in H as [Hsess H]; [|lia].
  injection H as H. apply show_u64_cut in H as [Hep H]; [|done..].
  apply show_u64_cut in H as [Hs H]; [|done..]. apply show_u64_inj in H; [|done..].
  split_and!; [done..|]. destruct (sci_samples x), (sci_samples y); simpl in *; congruence.
Qed.

(** One step executes at most what it may: nothing while speech is open or after
    a refusal. *)
Lemma executed_step c s :
  lc_executed (live_step c s) = lc_executed c ∨
  ∃ k i m prepared speech,
    s = LiveReturn k m (PreparedReturn (Some prepared)) ∧ lc_in_flight c !! k = Some (Prepare i) ∧
    mo_speech m = Some speech ∧ lc_speech_open c = false ∧ lc_refused c = false ∧
    ready (lc_queue c) (mo_ledger m) speech = inr (Some (pg_input prepared)) ∧
    lc_executed (live_step c s) = lc_executed c ++ [pg_input prepared].
Proof.
  destruct s as [speech_live any_closed open e|k m ret| |m|e|]; simpl.
  - left. unfold observe, observe_ingest. destruct speech_live, (any_closed && negb open); simpl; repeat case_match; by simplify_eq/=.
  - destruct (lc_in_flight c !! k) as [request|] eqn:Hk; [|by left].
    destruct request as [i|i|i], ret as [result|result|ok]; simpl; try by left.
    + left. unfold on_assessed, try_send. simpl. repeat case_match; by simplify_eq/=.
    + unfold on_prepared. destruct result as [prepared|]; [|by left]. simpl.
      destruct (lc_refused c) eqn:Hr; [by left|]. destruct (lc_speech_open c) eqn:Ho; [by left|]. simpl.
      destruct (mo_speech m) as [speech|] eqn:Hsp; [|by left]. destruct (mo_send m); [|by left..].
      case_bool_decide as Hready; simpl; [|by left]. destruct (authorize_prepared _ _ _ _) as [|input] eqn:Ha; [by left|].
      apply authorize_inv in Ha as [-> _].
      right. exists k, i, m, prepared, speech. split_and!; [done..|].
      by destruct (acknowledge _ _) as [q [|]].
    + left. unfold on_published. simpl. by destruct ok.
  - by left.
  - left. unfold nominate. repeat case_match; by simplify_eq/=.
  - left. unfold settle. repeat case_match; by simplify_eq/=.
  - left. unfold settle_end. by case_match.
Qed.

Lemma refused_step c s :
  lc_refused c = true →
  lc_refused (live_step c s) = true ∧
  ∀ r, r ∈ lc_in_flight (live_step c s) → r ∈ lc_in_flight c.
Proof.
  intros Hr. destruct s as [speech_live any_closed open e|k m ret| |m|e|]; simpl.
  - unfold observe, observe_ingest. destruct speech_live, (any_closed && negb open); simpl; repeat case_match; by simplify_eq/=.
  - destruct (lc_in_flight c !! k) as [request|] eqn:Hk; [|done].
    assert (Hd : ∀ r, r ∈ delete k (lc_in_flight c) → r ∈ lc_in_flight c).
    { intros r Hin. by eapply list_elem_of_delete_inv. }
    destruct request as [i|i|i], ret as [result|result|ok]; simpl; try done.
    + unfold on_assessed. simpl. rewrite Hr. by destruct result as [[]|].
    + unfold on_prepared. simpl. rewrite Hr. by destruct result.
    + unfold on_published. simpl. by destruct ok.
  - split; [done|]. by intros r ?%not_elem_of_nil.
  - unfold nominate. by rewrite Hr.
  - unfold settle. repeat case_match; by simplify_eq/=.
  - unfold settle_end. by case_match.
Qed.

(* ------------------------------------------------------------------ *)
(** ** Properties *)

(** A candidate is read exactly when the measurement reaches the end of its
    interval, every sample of speech in it is committed free of text debt, and
    everything the ledger knows there is one occurrence after the other inside
    the interval, each qualified, answered, sealed and labelled; its members are
    exactly those with their labels and seals, and its text is their labels. *)
Theorem candidate_exact L sess epoch s e speech input :
  debt_anchored L →
  from_ledger L sess epoch (s, e) speech = inr (Some input) ↔ sealed_reading L sess epoch s e speech input.
Proof. apply from_ledger_reads. Qed.

(** C16: Whatever the voice detector, the session and the ledger do, the
    capture up to the accepted end was consumed by the executed groups, in
    order, and by measured silence, each as the ledger of that moment had it; no
    two executed groups share an execution key or an occurrence, so no
    instruction runs twice. *)
Theorem groups_execute_once sess epoch q steps :
  input_queue_new sess epoch = inr q → Forall step_ok steps →
  is_u64 (Z.of_nat (String.length sess)) → is_u64 epoch →
  let c := live_run q steps in
  consumed sess epoch (flat_map moments_of steps) (iq_accepted_end (lc_queue c)) (lc_executed c) ∧
  NoDup (map turn_id_for_group (lc_executed c)) ∧
  ∀ i j x y o, lc_executed c !! i = Some x → lc_executed c !! j = Some y →
    o ∈ map cm_occurrence (sci_members x) → o ∈ map cm_occurrence (sci_members y) → i = j.
Proof.
  intros Hq Hok Hsess Hepoch c. pose proof (live_run_ok sess epoch q steps Hq Hok) as [Hqo Hc _ _ _].
  fold c in Hqo, Hc. split; [done|]. destruct (consumed_ordered _ _ _ _ _ Hc) as (Hs & Ha & Hin).
  assert (Hu : iq_accepted_end (lc_queue c) <= u64_max) by (destruct Hqo; lia).
  set (l := lc_executed c) in *. clearbody l. split.
  - clear Hc. induction Hs as [|x l Hs IH Hx]; simpl; [constructor|].
    constructor; [|apply IH; intros y Hy; apply Hin; by right].
    intros (y & Hk & Hy)%list_elem_of_fmap. rewrite Forall_forall in Hx. specialize (Hx y Hy).
    destruct (Hin x ltac:(by left)) as (Hx1 & Hx2 & Hx3 & Hx4 & _).
    destruct (Hin y ltac:(by right)) as (Hy1 & Hy2 & Hy3 & Hy4 & _).
    destruct (turn_id_injective x y) as (_ & _ & Hsa); rewrite ?Hx1, ?Hx2, ?Hy1, ?Hy2; try done; try (mach; fail).
    rewrite Hsa in *. lia.
  - intros i j x y o Hi Hj (m & -> & Hm)%list_elem_of_fmap (m' & Heq & Hm')%list_elem_of_fmap.
    destruct (Hin x) as (_ & _ & _ & _ & _ & Hx); [by eapply list_elem_of_lookup_2|].
    destruct (Hin y) as (_ & _ & _ & _ & _ & Hy); [by eapply list_elem_of_lookup_2|].
    specialize (Hx m Hm). specialize (Hy m' Hm'). rewrite <- Heq in Hy.
    destruct (lt_eq_lt_dec i j) as [[Hlt|]|Hlt]; [|done|]; exfalso.
    + pose proof (sorted_lookup _ _ _ _ _ _ Hs Hi Hj Hlt) as Ho. simpl in Ho. lia.
    + pose proof (sorted_lookup _ _ _ _ _ _ Hs Hj Hi Hlt) as Ho. simpl in Ho. lia.
Qed.


(** At most one candidate is being assessed or prepared, and the flag says
    whether one is; the answers owed are counted and never more than sixteen;
    the queue keeps at most sixteen boundaries, ahead of the accepted end, in
    order. *)
Theorem one_candidate_in_flight sess epoch q steps :
  input_queue_new sess epoch = inr q → Forall step_ok steps →
  let c := live_run q steps in
  singles (lc_in_flight c) = Nat.b2n (lc_assessment_pending c) ∧
  owed (lc_in_flight c) = lc_answers_pending c ∧
  (lc_answers_pending c <= 16)%nat ∧
  (length (iq_boundaries (lc_queue c)) <= 16)%nat ∧
  StronglySorted Z.lt (iq_accepted_end (lc_queue c) :: iq_boundaries (lc_queue c)).
Proof.
  intros Hq Hok c. pose proof (live_run_ok sess epoch q steps Hq Hok) as [[] _ Hs Ho Hr].
  unfold CONSULTATION_QUEUE_CAP in Hr. split_and!; try done; fold c in Hr; lia.
Qed.

(* ------------------------------------------------------------------ *)
(** ** Witnesses *)

Definition ex_silero : AcousticSpeechEvidence :=
  mkSpeechEvidence (mkCaptureIdentity "s" 1) SILERO_BOUNDARIES_PRODUCER (Observed 20000)
    [mkTailRange "s" 1 100 15000].

Definition ex_input : SealedConsultationInput :=
  mkSealedInput "s" 1 (0, 16000)
    [mkConsultationMember ex_range "dzien dobry" "seal-occurrence-s-1-0-16000"] "dzien dobry".

Example ex_reads : from_ledger ex_document "s" 1 (0, 16000) ex_silero = inr (Some ex_input).
Proof. by vm_compute. Qed.

Definition ex_queue : ConsultationInputQueue := mkInputQueue "s" 1 0 0 [].
Definition ex_moment : Moment := mkMoment ex_document (Some ex_silero) SendOk.

(** An utterance closes, is assessed, prepared, executed and answered; silence
    after it is skipped. *)
Definition ex_steps : list LiveStep :=
  [LiveObserve true true false 16000; LiveNominate ex_moment;
   LiveReturn 0 ex_moment (Assessed (Some (ReadyComplete ex_input)));
   LiveReturn 0 ex_moment (PreparedReturn (Some (mkPrepared ex_input true)));
   LiveReturn 0 ex_moment (Published true); LiveSettle 18000; LiveNominate ex_moment; LiveSettleEnd].

Example ex_executed :
  (λ c, (map turn_id_for_group (lc_executed c), iq_accepted_end (lc_queue c), lc_refused c)) (live_run ex_queue ex_steps)
  = (["capture-group:1:s:1:0:16000"%string], 18000, false).
Proof. by vm_compute. Qed.

Lemma ex_debt : debt_anchored ex_document.
Proof.
  intros o Ho. assert (He : lg_pending_text_recovery ex_document = ∅) by (by vm_compute).
  rewrite He in Ho. by apply not_elem_of_empty in Ho.
Qed.

Lemma candidate_exact_witness : sealed_reading ex_document "s" 1 0 16000 ex_silero ex_input.
Proof. apply (candidate_exact ex_document "s" 1 0 16000 ex_silero ex_input ex_debt). by vm_compute. Defined.

Lemma ex_steps_ok : Forall step_ok ex_steps.
Proof. repeat constructor; simpl; mach. Qed.

Lemma groups_execute_once_witness :
  NoDup (map turn_id_for_group (lc_executed (live_run ex_queue ex_steps))).
Proof.
  refine (proj1 (proj2 (groups_execute_once "s" 1 ex_queue ex_steps _ ex_steps_ok _ _))).
  - by vm_compute.
  - by vm_compute.
  - by vm_compute.
Defined.


Lemma one_candidate_in_flight_witness :
  (lc_answers_pending (live_run ex_queue ex_steps) <= 16)%nat.
Proof.
  destruct (one_candidate_in_flight "s" 1 ex_queue ex_steps ltac:(by vm_compute) ex_steps_ok) as (_ & _ & H & _).
  exact H.
Defined.
