(* ===== verification/JsonFields.v ===== *)
(** JsonFields: reading and comparing JSON values (serde_json's [Value]).

    A missing field reads as [None], or as [Null] through an index. *)

From S2P Require Import Prelude.
From S2P Require Import Text.
From S2P Require Import BTree.
From S2P Require Import Json.
#[local] Open Scope Z_scope.

Fixpoint value_eqb (v w : Value) : bool :=
  match v, w with
  | VNull, VNull => true
  | VBool a, VBool b => Bool.eqb a b
  | VNumber a, VNumber b => String.eqb a b
  | VString a, VString b => String.eqb a b
  | VArray l, VArray r =>
      (fix items (l r : list Value) : bool :=
         match l, r with
         | [], [] => true
         | v :: l', w :: r' => value_eqb v w && items l' r'
         | _, _ => false
         end) l r
  | VObject l, VObject r =>
      (fix fields (l r : list (string * Value)) : bool :=
         match l, r with
         | [], [] => true
         | (k, v) :: l', (k', w) :: r' => String.eqb k k' && value_eqb v w && fields l' r'
         | _, _ => false
         end) l r
  | _, _ => false
  end.

Lemma value_eqb_eq v : ∀ w, value_eqb v w = true ↔ v = w.
Proof.
  induction v as [|b|t|t|items IH|fields IH] using Value_ind'; intros [|b'|t'|t'|items'|fields']; cbn; try done.
  - rewrite eqb_true_iff. naive_solver.
  - rewrite String.eqb_eq. naive_solver.
  - rewrite String.eqb_eq. naive_solver.
  - transitivity (items = items'); [|naive_solver].
    revert items'. induction IH as [|v l Hv _ IHl]; intros [|w r]; try done.
    rewrite andb_true_iff, Hv, IHl. naive_solver.
  - transitivity (fields = fields'); [|naive_solver].
    revert fields'. induction IH as [|[k v] l Hv _ IHl]; intros [|[k' w] r]; try done.
    rewrite !andb_true_iff, String.eqb_eq, Hv, IHl. naive_solver.
Qed.

#[global] Instance Value_eq_dec : EqDecision Value.
Proof.
  intros v w. destruct (value_eqb v w) eqn:H.
  - left. by apply value_eqb_eq.
  - right. intros Heq. apply value_eqb_eq in Heq. congruence.
Defined.

Definition as_object (v : Value) : option (list (string * Value)) :=
  match v with VObject fields => Some fields | _ => None end.

Definition as_array (v : Value) : option (list Value) := match v with VArray items => Some items | _ => None end.

(** [value.get(key)], and [value[key]], which is [Null] where there is none. *)
Definition get_field (v : Value) (key : string) : option Value := f ← as_object v; btree_get key f.

Definition index (v : Value) (key : string) : Value := default VNull (get_field v key).

(** A number that prints as decimal digits within 64 bits. *)
Definition as_u64 (v : Value) : option Z :=
  match v with
  | VNumber t => if negb (String.eqb t "") && all_digits t && (read_dec 0 t <=? u64_max) then Some (read_dec 0 t) else None
  | _ => None
  end.

Definition VU64 (n : Z) : Value := VNumber (show_u64 n).

Definition is_string (v : Value) : bool := match v with VString _ => true | _ => false end.

Definition len (s : string) : Z := Z.of_nat (String.length s).

Lemma as_u64_show k : is_u64 k → as_u64 (VU64 k) = Some k.
Proof.
  intros Hk. unfold as_u64, VU64. rewrite show_u64_digits by done. rewrite read_show_u64 by done.
  destruct (String.eqb_spec (show_u64 k) "") as [He|_].
  - exfalso. pose proof (read_show_u64 k Hk) as Hr. rewrite He in Hr. simpl in Hr. subst k. by vm_compute in He.
  - simpl. unfold is_u64 in Hk. by destruct (Z.leb_spec k u64_max); [|lia].
Qed.

(* ------------------------------------------------------------------ *)
(** ** Lengths of texts *)

Lemma append_length (a b : string) : String.length (a +:+ b) = (String.length a + String.length b)%nat.
Proof. induction a as [|c a IH]; simpl; [done|]. by rewrite IH. Qed.

Lemma len_app (a b : string) : len (a +:+ b) = len a + len b.
Proof. unfold len. rewrite append_length. lia. Qed.

Lemma substring_cut n (s : string) :
  (String.substring 0 n s +:+ String.substring n (String.length s - n) s)%string = s.
Proof.
  revert n. induction s as [|c s IH]; intros [|n]; simpl; try done.
  - change (String c (String.substring 0 (String.length s) s) = String c s). f_equal. clear IH.
    induction s as [|d s IH]; simpl; [done|]. by rewrite IH.
  - change (String c (String.substring 0 n s +:+ String.substring n (String.length s - n) s)%string = String c s).
    f_equal. apply IH.
Qed.

Lemma substring_length n (s : string) : String.length (String.substring 0 n s) = Nat.min n (String.length s).
Proof. revert n. induction s as [|c s IH]; intros [|n]; simpl; try done. by rewrite IH. Qed.

Lemma substring_rest_length n (s : string) :
  String.length (String.substring n (String.length s - n) s) = (String.length s - n)%nat.
Proof. pose proof (f_equal String.length (substring_cut n s)) as H. rewrite append_length, substring_length in H. lia. Qed.
