(* ===== verification/BusStorage.v ===== *)
(** BusStorage: how a row of the transcript bus is written in bounded physical
    lines, and read back (app/presentation/bus_generation.rs).

    A document of half a mebibyte or more is cut into numbered chunks that carry
    its length, the digest of its bytes and a header; [Decoder::push] accepts
    them only in order and only whole.  serde_json, base64 and SHA-256 are the
    class [Codec]; its laws are the class [CodecLaws]. *)

From S2P Require Import Prelude.
From S2P Require Import Text.
From S2P Require Import BTree.
From S2P Require Import Json.
From S2P Require Import JsonFields.
#[local] Open Scope Z_scope.

(* ------------------------------------------------------------------ *)
(** ** What the storage relies on *)

Class Codec := {
  to_vec : Value → string;
  from_slice : string → option Value;
  base64_encode : string → string;
  base64_decode : string → option string;
  digest : string → string
}.

Definition CHUNK_SCHEMA : string := "codescribe.bus-chunk.v1".
Definition CHUNK_BYTES : Z := 32 * 1024.
Definition DECODE_LIMIT : Z := Z.shiftl 256 20.

Definition div_ceil (a b : Z) : Z := (a + b - 1) `div` b.

(* ------------------------------------------------------------------ *)
(** ** Rows of a document *)

Definition ALLOWED : list string :=
  ["sequence"; "emitted_at"; "occurrence_session_id"; "capture_epoch"; "sample_start"; "sample_end"; "document_index";
   "label"; "acoustic_receipts"].

Definition occurrence_row_ok (occurrence : Value) : bool :=
  match as_object occurrence with
  | None => false
  | Some fields =>
      (length fields =? length ALLOWED)%nat
      && forallb (λ f : string * Value, bool_decide (f.1 ∈ ALLOWED)) fields
      && forallb (λ k, match as_u64 (index occurrence k) with Some _ => true | None => false end)
           ["sequence"; "capture_epoch"; "sample_start"; "sample_end"; "document_index"]%string
      && forallb (λ k, is_string (index occurrence k)) ["emitted_at"; "occurrence_session_id"; "label"]%string
      && match index occurrence "acoustic_receipts" with VArray _ => true | _ => false end
  end.

(** The document without its inventory, and the inventory. *)
Definition row_inventory (value : Value) : option (Value * list Value) :=
  match get_field value "persistence_encoding" with
  | None => Some (value, [])
  | Some encoding =>
      if negb (value_eqb encoding (VString "shared-revision.v1"))
         || negb (value_eqb (index value "schema") (VString "codescribe.transcript-evidence.v1"))
      then None
      else
        match as_object value with
        | None => None
        | Some fields =>
            let fields := btree_remove "persistence_encoding" fields in
            match btree_get "occurrence_rows" fields with
            | Some (VArray occurrences) =>
                if forallb occurrence_row_ok occurrences
                then Some (VObject (btree_remove "occurrence_rows" fields), occurrences) else None
            | _ => None
            end
        end
  end.

(** The common row with the fields of one occurrence; [None] ends the iterator. *)
Definition merged_row (common occurrence : Value) : option Value :=
  match as_object occurrence with
  | None => None
  | Some fields =>
      match common with
      | VObject row => Some (VObject (foldl (λ row f, btree_insert f.1 f.2 row) row fields))
      | _ => match fields with [] => Some common | _ => None end
      end
  end.

Fixpoint merged_rows (common : Value) (occurrences : list Value) : list Value :=
  match occurrences with
  | [] => []
  | occurrence :: rest =>
      match merged_row common occurrence with Some row => row :: merged_rows common rest | None => [] end
  end.

Definition rows (value : Value) : option (list Value) :=
  '(common, occurrences) ← row_inventory value; Some (common :: merged_rows common occurrences).

(** Validate the whole inventory, and hand the document on. *)
Definition expand (value : Value) : option (list Value) := _ ← rows value; Some [value].

(* ------------------------------------------------------------------ *)
(** ** The decoder *)

Record Decoder := mkDecoder {
  de_id : string;
  de_parts : Z;
  de_next : Z;
  de_length : Z;
  de_pending : string;
  de_header : Value
}.

Definition decoder_default : Decoder := mkDecoder "" 0 0 0 "" VNull.

Definition incomplete (d : Decoder) : bool := negb (de_parts d =? 0).

Section storage.
Context {codec : Codec}.

Record Chunk := mkChunk {
  ch_id : string;
  ch_part : Z;
  ch_parts : Z;
  ch_length : Z
}.

(** The four scalars of a chunk row, with the bounds on them. *)
Definition chunk_of (value : Value) : option Chunk :=
  id ← as_str (index value "id");
  part ← as_u64 (index value "part");
  parts ← as_u64 (index value "parts");
  length ← as_u64 (index value "length");
  if (DECODE_LIMIT <? length) || (parts =? 0) || negb (parts =? div_ceil length CHUNK_BYTES) then None
  else Some (mkChunk id part parts length).

(** The decoder with this chunk's sequence open; [None] is a refusal. *)
Definition open_sequence (d : Decoder) (c : Chunk) (value : Value) : option Decoder :=
  if ch_part c =? 0
  then if incomplete d then None
       else Some (mkDecoder (ch_id c) (ch_parts c) 0 (ch_length c) "" (index value "event"))
  else Some d.

Definition continues (d : Decoder) (c : Chunk) (value : Value) : bool :=
  String.eqb (de_id d) (ch_id c) && (de_next d =? ch_part c) && (de_parts d =? ch_parts c)
  && (de_length d =? ch_length c) && value_eqb (de_header d) (index value "event").

(** The whole document, once every part arrived. *)
Definition assemble (d : Decoder) : option Value :=
  if negb (len (de_pending d) =? de_length d) || negb (String.eqb (digest (de_pending d)) (de_id d)) then None
  else
    row ← from_slice (de_pending d);
    header ← as_object (de_header d);
    if existsb (λ f : string * Value, negb (value_eqb (index row f.1) f.2)) header then None else Some row.

(** [None] is [Err(invalid())]; the state is kept on every path. *)
Definition decoder_push (d : Decoder) (value : Value) : Decoder * option (list Value) :=
  if negb (value_eqb (index value "schema") (VString CHUNK_SCHEMA))
  then (d, if incomplete d then None else expand value)
  else
    match chunk_of value with
    | None => (d, None)
    | Some c =>
        match open_sequence d c value with
        | None => (d, None)
        | Some d =>
            if negb (continues d c value) then (d, None)
            else
              match (text ← as_str (index value "payload"); base64_decode text) with
              | None => (d, None)
              | Some payload =>
                  if (CHUNK_BYTES <? len payload) || (ch_length c <? len (de_pending d) + len payload) then (d, None)
                  else
                    let d := d <| de_pending := (de_pending d +:+ payload)%string |> <| de_next ::= Z.add 1 |> in
                    if negb (de_next d =? ch_parts c) then (d, Some [])
                    else
                      match assemble d with
                      | None => (d, None)
                      | Some row => (decoder_default, expand row)
                      end
              end
        end
    end.

(* ------------------------------------------------------------------ *)
(** ** The encoder *)

(** [bytes.chunks(n)]. *)
Fixpoint byte_chunks (fuel : nat) (n : nat) (s : string) : list string :=
  match fuel with
  | O => []
  | S fuel =>
      if String.eqb s "" then []
      else String.substring 0 n s :: byte_chunks fuel n (String.substring n (String.length s - n) s)
  end.

Definition event_header (document : Value) : Value :=
  VObject [("emitted_at", index document "emitted_at"); ("schema", index document "schema");
           ("session_id", index document "session_id"); ("source", index document "source");
           ("status", index document "status")].

Definition chunk_row (id : string) (parts length : Z) (event : Value) (part : nat) (payload : string) : Value :=
  VObject [("event", event); ("id", VString id); ("length", VU64 length); ("part", VU64 (Z.of_nat part));
           ("parts", VU64 parts); ("payload", VString (base64_encode payload)); ("schema", VString CHUNK_SCHEMA)].

Definition chunk_values (bytes : string) (document : Value) : list Value :=
  imap (chunk_row (digest bytes) (div_ceil (len bytes) CHUNK_BYTES) (len bytes) (event_header document))
    (byte_chunks (String.length bytes) (Z.to_nat CHUNK_BYTES) bytes).

Definition newline_str : string := String newline "".

Definition as_lines (l : list Value) : string := String.concat "" (map (λ v, (to_vec v +:+ newline_str)%string) l).

(** [None]: the bytes do not parse back. *)
Definition encode (value : Value) : option string :=
  let bytes := to_vec value in
  if len bytes <? 512 * 1024 then Some (bytes +:+ newline_str)%string
  else document ← from_slice bytes; Some (as_lines (chunk_values bytes document)).
End storage.
