(* ===== verification/BusStorageFacts.v ===== *)
(** BusStorageFacts: a document cut into chunks is put together again, and
    nothing between its chunks is let through. *)

From Stdlib Require Import Ascii.
From stdpp Require Import countable.
From S2P Require Import Prelude.
From S2P Require Import Text.
From S2P Require Import BTree.
From S2P Require Import Json.
From S2P Require Import JsonFields.
From S2P Require Import BusStorage.
#[local] Open Scope Z_scope.

(* ------------------------------------------------------------------ *)
(** ** Strings *)

Lemma empty_length (s : string) : String.eqb s "" = bool_decide (String.length s = 0%nat).
Proof. destruct s; [done|]. by rewrite bool_decide_eq_false_2. Qed.

Section chunked.
Context (n : nat) (Hn : (0 < n)%nat).

Lemma byte_chunks_concat fuel s :
  (String.length s <= fuel)%nat → String.concat "" (byte_chunks fuel n s) = s.
Proof using Hn.
  revert s. induction fuel as [|fuel IH]; intros s Hl; simpl.
  - by destruct s; simpl in *; [|lia].
  - rewrite empty_length. case_bool_decide as He; [by destruct s|].
    rewrite concat_empty_cons, IH; [apply substring_cut|].
    rewrite substring_rest_length. lia.
Qed.

Lemma byte_chunks_bounds fuel s c : c ∈ byte_chunks fuel n s → (0 < String.length c <= n)%nat.
Proof using Hn.
  revert s. induction fuel as [|fuel IH]; intros s; simpl; [by intros ?%elem_of_nil|].
  rewrite empty_length. case_bool_decide as He; [by intros ?%elem_of_nil|].
  rewrite elem_of_cons. intros [->|Hc]; [rewrite substring_length; lia|by apply IH in Hc].
Qed.

Lemma div_ceil_step m k : 0 < k < m → div_ceil m k = 1 + div_ceil (m - k) k.
Proof.
  intros Hk. unfold div_ceil. replace (m + k - 1) with ((m - k + k - 1) + 1 * k) by lia.
  rewrite Z.div_add by lia. lia.
Qed.

Lemma div_ceil_one m k : 0 < m <= k → div_ceil m k = 1.
Proof. intros H. unfold div_ceil. symmetry. apply (Z.div_unique_pos _ _ _ (m - 1)); lia. Qed.

Lemma byte_chunks_count fuel s :
  (String.length s <= fuel)%nat → Z.of_nat (length (byte_chunks fuel n s)) = div_ceil (len s) (Z.of_nat n).
Proof using Hn.
  revert s. induction fuel as [|fuel IH]; intros s Hl; simpl.
  - destruct s; simpl in *; [|lia]. unfold div_ceil, len. simpl. symmetry. apply Z.div_small. lia.
  - rewrite empty_length. unfold len. case_bool_decide as He; simpl.
    + rewrite He. unfold div_ceil. symmetry. apply Z.div_small. lia.
    + rewrite Nat2Z.inj_succ, IH by (rewrite substring_rest_length; lia).
      unfold len. rewrite substring_rest_length.
      destruct (decide (String.length s <= n)%nat) as [Hle|Hgt].
      * replace (String.length s - n)%nat with 0%nat by lia. rewrite (div_ceil_one (Z.of_nat (String.length s))) by lia.
        replace (div_ceil (Z.of_nat 0) (Z.of_nat n)) with 0; [lia|].
        unfold div_ceil. symmetry. apply Z.div_small. lia.
      * rewrite (div_ceil_step (Z.of_nat (String.length s))) by lia.
        rewrite Nat2Z.inj_sub by lia. lia.
Qed.
End chunked.

(* ------------------------------------------------------------------ *)
(** ** What the storage relies on of serde_json and base64 *)

(** What serde_json can hold: numbers it prints, objects in key order. *)
Inductive wf_value (json_number : string → Prop) : Value → Prop :=
  | wf_null : wf_value json_number VNull
  | wf_bool b : wf_value json_number (VBool b)
  | wf_number t : json_number t → wf_value json_number (VNumber t)
  | wf_string t : wf_value json_number (VString t)
  | wf_array items : (∀ v, v ∈ items → wf_value json_number v) → wf_value json_number (VArray items)
  | wf_object fields :
      btree_wf fields → (∀ k v, (k, v) ∈ fields → wf_value json_number v) → wf_value json_number (VObject fields).

Class CodecLaws `{codec : Codec} := {
  json_number : string → Prop;
  json_number_u64 n : is_u64 n → json_number (show_u64 n);
  from_to v : wf_value json_number v → from_slice (to_vec v) = Some v;
  decode_encode s : base64_decode (base64_encode s) = Some s
}.

Section decoding.
Context {codec : Codec} {laws : CodecLaws}.

Fixpoint decode_all (d : Decoder) (l : list Value) : Decoder * list (option (list Value)) :=
  match l with
  | [] => (d, [])
  | value :: rest =>
      let '(d, out) := decoder_push d value in
      let '(d, outs) := decode_all d rest in
      (d, out :: outs)
  end.

Section document.
Context (bytes : string) (document : Value).
Context (Hparse : from_slice bytes = Some document).
Context (Hlimit : 0 < len bytes <= DECODE_LIMIT).

Let parts := div_ceil (len bytes) CHUNK_BYTES.
Let row := chunk_row (digest bytes) parts (len bytes) (event_header document).

Lemma parts_bounds : 0 < parts <= u64_max.
Proof using Hlimit.
  unfold parts, div_ceil, CHUNK_BYTES. change (32 * 1024) with 32768.
  change DECODE_LIMIT with 268435456 in Hlimit. unfold u64_max. split; [apply Z.div_str_pos; lia|].
  apply Z.div_le_upper_bound; lia.
Qed.

Lemma chunk_of_row part payload :
  0 <= Z.of_nat part <= u64_max →
  chunk_of (row part payload) = Some (mkChunk (digest bytes) (Z.of_nat part) parts (len bytes)).
Proof using Hlimit.
  intros Hp. pose proof parts_bounds as Hparts. unfold chunk_of, row, chunk_row.
  change DECODE_LIMIT with 268435456 in *.
  cbn -[as_u64 VU64 u64_max DECODE_LIMIT Z.ltb]. rewrite !as_u64_show; [|unfold is_u64, u64_max in *; lia..].
  cbn -[u64_max DECODE_LIMIT Z.ltb Z.eqb]. change DECODE_LIMIT with 268435456.
  destruct (Z.ltb_spec 268435456 (len bytes)); [lia|]. destruct (Z.eqb_spec parts 0); [lia|].
  fold parts. by rewrite Z.eqb_refl.
Qed.

(** The decoder with the first parts in. *)
Definition midway (part : nat) (pending : string) : Decoder :=
  if (part =? 0)%nat then decoder_default
  else mkDecoder (digest bytes) parts (Z.of_nat part) (len bytes) pending (event_header document).

Lemma push_row part pending payload :
  (part = 0%nat → pending = ""%string) →
  0 <= Z.of_nat part < parts → 0 < len payload <= CHUNK_BYTES → len pending + len payload <= len bytes →
  decoder_push (midway part pending) (row part payload) =
    let d := mkDecoder (digest bytes) parts (1 + Z.of_nat part) (len bytes) (pending +:+ payload) (event_header document) in
    if negb (1 + Z.of_nat part =? parts) then (d, Some [])
    else match assemble d with None => (d, None) | Some row => (decoder_default, expand row) end.
Proof using Hlimit laws.
  intros Hzero Hp Hpay Hfit. pose proof parts_bounds as Hparts.
  assert (index (row part payload) "schema" = VString CHUNK_SCHEMA) as Hschema by reflexivity.
  assert (index (row part payload) "event" = event_header document) as Hevent by reflexivity.
  assert (index (row part payload) "payload" = VString (base64_encode payload)) as Hpayload by reflexivity.
  unfold decoder_push. rewrite Hschema, Hpayload. rewrite (proj2 (value_eqb_eq _ _) eq_refl).
  rewrite chunk_of_row by lia. cbn [negb]. unfold open_sequence. cbn [ch_part ch_id ch_parts ch_length].
  assert (∃ d, (if Z.of_nat part =? 0
                then if incomplete (midway part pending) then None
                     else Some (mkDecoder (digest bytes) parts 0 (len bytes) "" (index (row part payload) "event"))
                else Some (midway part pending)) = Some d ∧
               d = mkDecoder (digest bytes) parts (Z.of_nat part) (len bytes) pending (event_header document))
    as (d & Hopen & Hd).
  { unfold midway. destruct part as [|part']; cbn [Nat.eqb].
    - rewrite (Hzero eq_refl). eexists. split; [reflexivity|]. by rewrite Hevent.
    - destruct (Z.eqb_spec (Z.of_nat (S part')) 0); [lia|]. eexists. by split. }
  rewrite Hopen, Hd. unfold continues. cbn [de_id de_next de_parts de_length de_header ch_id ch_part ch_parts ch_length].
  rewrite Hevent, String.eqb_refl, !Z.eqb_refl, (proj2 (value_eqb_eq _ _) eq_refl). cbn [andb negb as_str mbind option_bind].
  rewrite decode_encode. cbn [de_pending].
  destruct (Z.ltb_spec CHUNK_BYTES (len payload)); [lia|]. destruct (Z.ltb_spec (len bytes) (len pending + len payload)); [lia|].
  reflexivity.
Qed.

Lemma assemble_whole part :
  assemble (mkDecoder (digest bytes) parts part (len bytes) bytes (event_header document)) = Some document.
Proof using Hparse.
  unfold assemble. cbn [de_pending de_length de_id de_header]. rewrite Z.eqb_refl, String.eqb_refl. cbn [negb orb].
  rewrite Hparse. cbn -[value_eqb index]. by rewrite !(proj2 (value_eqb_eq _ _) eq_refl).
Qed.

Lemma decode_rows payloads part pending :
  (part = 0%nat → pending = ""%string) →
  Forall (λ p, 0 < len p <= CHUNK_BYTES) payloads →
  payloads ≠ [] → Z.of_nat part + Z.of_nat (length payloads) = parts →
  (pending +:+ String.concat "" payloads)%string = bytes →
  decode_all (midway part pending) (imap (λ i, row (part + i)) payloads) =
    (decoder_default, replicate (length payloads - 1) (Some []) ++ [expand document]).
Proof using Hlimit Hparse laws.
  revert part pending. induction payloads as [|payload rest IH]; intros part pending Hzero Hall Hne Hcount Hcat; [done|].
  apply Forall_cons in Hall as [Hp Hall]. cbn [imap decode_all]. rewrite Nat.add_0_r.
  rewrite concat_empty_cons in Hcat. cbn [length] in Hcount.
  assert (len pending + len payload + len (String.concat "" rest) = len bytes) as Hlen.
  { rewrite <- Hcat, !len_app. lia. }
  assert (0 <= len (String.concat "" rest)) by (unfold len; lia).
  rewrite push_row; [|done|lia|done|lia]. cbn zeta.
  destruct rest as [|payload' rest].
  - destruct (Z.eqb_spec (1 + Z.of_nat part) parts); [|simpl in Hcount; lia]. cbn [negb].
    replace (pending +:+ payload)%string with bytes by (rewrite <- Hcat; by rewrite append_nil).
    by rewrite assemble_whole.
  - destruct (Z.eqb_spec (1 + Z.of_nat part) parts); [cbn [length] in Hcount; lia|]. cbn [negb].
    replace (mkDecoder (digest bytes) parts (1 + Z.of_nat part) (len bytes) (pending +:+ payload) (event_header document))
      with (midway (S part) (pending +:+ payload)) by (unfold midway; cbn [Nat.eqb]; f_equal; lia).
    rewrite (imap_ext _ (λ i, row (S part + i))) by (intros; simpl; f_equal; lia).
    rewrite IH; [|done|done|done|cbn [length] in *; lia|by rewrite <- append_assoc].
    cbn [length]. by replace (S (S (length rest)) - 1)%nat with (S (S (length rest) - 1)) by lia.
Qed.

(** Every chunk of a document in order: nothing until the last, then the document. *)
Lemma decode_chunk_values :
  decode_all decoder_default (chunk_values bytes document) =
    (decoder_default,
     replicate (length (chunk_values bytes document) - 1) (Some []) ++ [expand document]).
Proof using Hlimit Hparse laws.
  unfold chunk_values. rewrite length_imap.
  set (payloads := byte_chunks (String.length bytes) (Z.to_nat CHUNK_BYTES) bytes).
  assert (0 < Z.to_nat CHUNK_BYTES)%nat as Hpos by (unfold CHUNK_BYTES; lia).
  pose proof (byte_chunks_count _ Hpos (String.length bytes) bytes (le_n _)) as Hcount. fold payloads in Hcount.
  rewrite Z2Nat.id in Hcount by (unfold CHUNK_BYTES; lia). fold parts in Hcount. pose proof parts_bounds.
  apply (decode_rows payloads 0 ""); [done|..].
  - apply Forall_forall. intros p Hp. apply byte_chunks_bounds in Hp; [|done]. unfold len.
    unfold CHUNK_BYTES in *. lia.
  - intros Hnil. rewrite Hnil in Hcount. simpl in Hcount. lia.
  - lia.
  - by apply byte_chunks_concat.
Qed.
End document.

(** Inside a sequence nothing but its next part gets through. *)
Lemma interrupted_refuses d value :
  incomplete d = true → index value "schema" ≠ VString CHUNK_SCHEMA → decoder_push d value = (d, None).
Proof.
  intros Hd Hschema. unfold decoder_push.
  destruct (value_eqb (index value "schema") (VString CHUNK_SCHEMA)) eqn:He; [by apply value_eqb_eq in He|].
  by rewrite Hd.
Qed.
End decoding.
