(* ===== verification/TranscriptProjection.v ===== *)
(** TranscriptProjection: the projections a reader of the transcript bus makes
    of its rows (app/presentation/transcript_projection.rs).

    Identity, order, replacement and finality are decided by row metadata alone.
    [from_value] of serde for the two row types is the class [RowCodec]. *)

From Stdlib Require Import Ascii.
From S2P Require Import Prelude.
From S2P Require Import Text.
From S2P Require Import Json.
From S2P Require Import LedgerState.
From S2P Require Import JsonFields.
From S2P Require Import BusStorage.
#[local] Open Scope Z_scope.

Inductive TranscriptProjectionPhase :=
  | Listening | Finalizing | Formatted | CoverageRefused | NoSpeech | PhaseError.

#[global] Instance phase_dec : EqDecision TranscriptProjectionPhase.
Proof. solve_decision. Defined.

Definition LIFECYCLE_SCHEMA : string := "codescribe.transcript.v1".
Definition EVIDENCE_SCHEMA : string := "codescribe.transcript-evidence.v1".
Definition CLI_FILE_VERDICT_SOURCE : string := "cli_file_verdict".

Record LifecycleRow := mkLifecycle {
  lr_sequence : Z;
  lr_session_id : string;
  lr_status : string;
  lr_reducer_revision : option Z;
  lr_capture_epoch : option Z;
  lr_source : option string;
  lr_text : string;
  lr_rendered_text : option string;
  lr_phase : option TranscriptProjectionPhase;
  lr_can_paste : bool;
  lr_can_insert : bool;
  lr_can_copy : bool;
  lr_can_retranscribe : bool;
  lr_can_format : bool;
  lr_can_send_to_agent : bool;
  lr_terminal : bool
}.

Record EvidenceRow := mkEvidence {
  er_sequence : Z;
  er_session_id : string;
  er_reducer_revision : Z;
  er_reducer_action : string;
  er_occurrence_session_id : string;
  er_capture_epoch : Z;
  er_sample_start : Z;
  er_sample_end : Z;
  er_document_index : Z;
  er_rendered_text : string;
  er_document_revision_receipt : option ManualDocumentRevisionReceipt;
  er_phase : TranscriptProjectionPhase;
  er_can_paste : bool;
  er_can_insert : bool;
  er_can_copy : bool;
  er_can_retranscribe : bool;
  er_can_format : bool;
  er_can_send_to_agent : bool;
  er_terminal : bool
}.

Inductive TranscriptBusRow :=
  | RowLifecycle (row : LifecycleRow)
  | RowEvidence (row : EvidenceRow).

Inductive TranscriptProjectionKind := LiveRevision | TerminalSeal.

#[global] Instance projection_kind_dec : EqDecision TranscriptProjectionKind.
Proof. solve_decision. Defined.

Record TranscriptProjection := mkProjection {
  tp_source : option string;
  tp_kind : TranscriptProjectionKind;
  tp_session_id : string;
  tp_sequence : Z;
  tp_reducer_revision : Z;
  tp_reducer_action : string;
  tp_occurrence_session_id : string;
  tp_capture_epoch : Z;
  tp_sample_start : Z;
  tp_sample_end : Z;
  tp_document_index : Z;
  tp_rendered_text : string;
  tp_document_revision_receipt : option ManualDocumentRevisionReceipt;
  tp_phase : TranscriptProjectionPhase;
  tp_can_paste : bool;
  tp_can_insert : bool;
  tp_can_copy : bool;
  tp_can_retranscribe : bool;
  tp_can_format : bool;
  tp_can_send_to_agent : bool;
  tp_terminal : bool
}.

Record SessionProjectionState := mkSessionState {
  ss_last_sequence : option Z;
  ss_last_reducer_revision : option Z;
  ss_last_projection : option TranscriptProjection;
  ss_terminal_emitted : bool
}.

Definition session_state_default : SessionProjectionState := mkSessionState None None None false.

(** The authority of a reader, without its bytes. *)
Record Projector := mkProjector {
  pj_current_session : option string;
  pj_last_ended_session : option string;
  pj_retired_sessions : gset string;
  pj_sessions : gmap string SessionProjectionState
}.

Definition projector_default : Projector := mkProjector None None ∅ ∅.

(** [sessions.entry(id).or_default()], changed by [f]. *)
Definition session_of (p : Projector) (id : string) : SessionProjectionState :=
  default session_state_default (pj_sessions p !! id).

Definition set_session (id : string) (s : SessionProjectionState) (p : Projector) : Projector :=
  p <| pj_sessions ::= <[id := s]> |>.

(* ------------------------------------------------------------------ *)
(** ** Selection and order *)

Definition is_current (p : Projector) (id : string) : bool := bool_decide (pj_current_session p = Some id).

Definition select_session (p : Projector) (id : string) : Projector * bool :=
  if is_current p id then (p, true)
  else if bool_decide (id ∈ pj_retired_sessions p) then (p, false)
  else
    (p <| pj_current_session := Some id |>
       <| pj_retired_sessions ::= (λ s, match pj_current_session p with Some previous => {[ previous ]} ∪ s | None => s end) |>,
     true).

Definition select_terminal_manual_revision (p : Projector) (id : string) : bool :=
  is_current p id
  || (bool_decide (pj_current_session p = None) && bool_decide (pj_last_ended_session p = Some id)
      && bool_decide (id ∈ pj_retired_sessions p)).

Definition accept_sequence (p : Projector) (id : string) (sequence : Z) : Projector * bool :=
  let state := session_of p id in
  if match ss_last_sequence state with Some last => sequence <=? last | None => false end
  then (set_session id state p, false)
  else (set_session id (state <| ss_last_sequence := Some sequence |>) p, true).

(* ------------------------------------------------------------------ *)
(** ** Lifecycle rows *)

Definition cli_projection (row : LifecycleRow) (rendered_text : string) : TranscriptProjection :=
  mkProjection (lr_source row) LiveRevision (lr_session_id row) (lr_sequence row) 0 (lr_status row) "" 0 0 0 0
    rendered_text None (default Listening (lr_phase row)) (lr_can_paste row) (lr_can_insert row) (lr_can_copy row)
    (lr_can_retranscribe row) (lr_can_format row) (lr_can_send_to_agent row) (lr_terminal row).

Definition is_cli_document (row : LifecycleRow) : bool :=
  bool_decide (lr_source row = Some CLI_FILE_VERDICT_SOURCE)
  && (String.eqb (lr_status row) "utterance_draft" || String.eqb (lr_status row) "transcript_sealed").

Definition cli_text (row : LifecycleRow) : option string :=
  match lr_rendered_text row with
  | Some text => Some text
  | None => if String.eqb (lr_status row) "transcript_sealed" then Some (lr_text row) else None
  end.

Definition end_has_text (row : LifecycleRow) (last : option TranscriptProjection) : bool :=
  match lr_rendered_text row with
  | Some text => negb (trim_is_empty text)
  | None => match last with Some evidence => negb (trim_is_empty (tp_rendered_text evidence)) | None => false end
  end.

(** The projection of a session's end over its last one. *)
Definition end_projection (row : LifecycleRow) (last : option TranscriptProjection) : TranscriptProjection :=
  let has_text := end_has_text row last in
  let legacy := bool_decide (lr_phase row = None) in
  let phase := default (if has_text then Formatted else NoSpeech) (lr_phase row) in
  let base :=
    default
      (mkProjection (lr_source row) TerminalSeal (lr_session_id row) (lr_sequence row) (default 0 (lr_reducer_revision row))
         "" "" 0 0 0 0 "" None phase false false false false false false true) last in
  base <| tp_kind := TerminalSeal |>
       <| tp_capture_epoch := default (tp_capture_epoch base) (lr_capture_epoch row) |>
       <| tp_reducer_revision := default (tp_reducer_revision base) (lr_reducer_revision row) |>
       <| tp_rendered_text := default (tp_rendered_text base) (lr_rendered_text row) |>
       <| tp_sequence := lr_sequence row |>
       <| tp_reducer_action := "session_ended"%string |>
       <| tp_phase := phase |>
       <| tp_can_paste := lr_can_paste row |>
       <| tp_can_insert := lr_can_insert row |>
       <| tp_can_copy := if legacy then has_text else lr_can_copy row |>
       <| tp_can_retranscribe := lr_can_retranscribe row |>
       <| tp_can_format := if legacy then has_text else lr_can_format row |>
       <| tp_can_send_to_agent := lr_can_send_to_agent row |>
       <| tp_terminal := true |>.

Definition end_session (p : Projector) (row : LifecycleRow) : Projector * option TranscriptProjection :=
  let id := lr_session_id row in
  let state := session_of p id in
  if ss_terminal_emitted state then (p, None)
  else
    let projection := end_projection row (ss_last_projection state) in
    let state :=
      state <| ss_terminal_emitted := true |>
            <| ss_last_reducer_revision ::= (λ held, match lr_reducer_revision row with Some r => Some r | None => held end) |>
            <| ss_last_projection := Some projection |> in
    ((set_session id state p) <| pj_current_session := None |> <| pj_retired_sessions ::= union {[ id ]} |>
                            <| pj_last_ended_session := Some id |>,
     Some projection).

(** After the row is selected and its sequence accepted. *)
Definition apply_lifecycle (p : Projector) (row : LifecycleRow) : Projector * option TranscriptProjection :=
  if is_cli_document row
  then
    match cli_text row with
    | None => (p, None)
    | Some text =>
        let projection := cli_projection row text in
        (set_session (lr_session_id row) ((session_of p (lr_session_id row)) <| ss_last_projection := Some projection |>) p,
         Some projection)
    end
  else if negb (String.eqb (lr_status row) "session_ended") then (p, None)
  else end_session p row.

Definition observe_lifecycle (p : Projector) (row : LifecycleRow) : Projector * option TranscriptProjection :=
  let '(p, selected) :=
    if String.eqb (lr_status row) "session_started"
    then let '(p, selected) := select_session p (lr_session_id row) in
         (if selected then p <| pj_last_ended_session := None |> else p, selected)
    else (p, is_current p (lr_session_id row)) in
  if negb selected then (p, None)
  else
    let '(p, accepted) := accept_sequence p (lr_session_id row) (lr_sequence row) in
    if accepted then apply_lifecycle p row else (p, None).

(* ------------------------------------------------------------------ *)
(** ** Evidence rows *)

Definition is_manual (row : EvidenceRow) : bool := String.eqb (er_reducer_action row) "apply_manual_edit".

Definition manual_only (row : EvidenceRow) : bool := is_manual row && String.eqb (er_occurrence_session_id row) "".

(** The receipt of a document without occurrences says what the row says. *)
Definition receipt_exact (row : EvidenceRow) (receipt : ManualDocumentRevisionReceipt) : bool :=
  er_terminal row
  && String.eqb (md_session_id receipt) (er_session_id row)
  && (md_revision receipt =? er_reducer_revision row)
  && bool_decide (checked_add (md_source_revision receipt) 1 = Some (md_revision receipt))
  && String.eqb (md_rendered_text receipt) (er_rendered_text row)
  && bool_decide (md_capture_epoch receipt = Some (er_capture_epoch row))
  && negb (er_capture_epoch row =? 0)
  && match md_capture_receipt_id receipt with Some id => negb (String.eqb id "") | None => false end
  && bool_decide (md_source_occurrences receipt = [])
  && bool_decide (md_source_seal_receipts receipt = [])
  && existsb (String.eqb (md_provenance receipt)) ["user-edit"; "retranscribe"; "navigation"]%string
  && (er_sample_start row =? 0) && (er_sample_end row =? 0).

(** It continues the revision and the capture the session holds. *)
Definition receipt_continues (s : SessionProjectionState) (row : EvidenceRow)
    (receipt : ManualDocumentRevisionReceipt) : bool :=
  match ss_last_reducer_revision s with Some revision => revision =? md_source_revision receipt | None => true end
  && match ss_last_projection s with
     | Some previous =>
         ((tp_capture_epoch previous =? 0) || (tp_capture_epoch previous =? er_capture_epoch row))
         && match tp_document_revision_receipt previous with
            | Some prior => bool_decide (md_capture_receipt_id prior = md_capture_receipt_id receipt)
            | None => true
            end
     | None => true
     end.

Definition manual_admissible (p : Projector) (row : EvidenceRow) : bool :=
  match er_document_revision_receipt row with
  | None => false
  | Some receipt => receipt_exact row receipt && receipt_continues (session_of p (er_session_id row)) row receipt
  end.

Definition evidence_projection (row : EvidenceRow) : TranscriptProjection :=
  mkProjection None LiveRevision (er_session_id row) (er_sequence row) (er_reducer_revision row) (er_reducer_action row)
    (er_occurrence_session_id row) (er_capture_epoch row) (er_sample_start row) (er_sample_end row) (er_document_index row)
    (er_rendered_text row) (er_document_revision_receipt row) (er_phase row) (er_can_paste row) (er_can_insert row)
    (er_can_copy row) (er_can_retranscribe row) (er_can_format row) (er_can_send_to_agent row) (er_terminal row).

(** After selection and sequence. *)
Definition apply_evidence (p : Projector) (row : EvidenceRow) : Projector * option TranscriptProjection :=
  let id := er_session_id row in
  let state := session_of p id in
  if match ss_last_reducer_revision state with Some revision => er_reducer_revision row <? revision | None => false end
  then (p, None)
  else
    let projection := evidence_projection row in
    (set_session id
       (state <| ss_last_reducer_revision :=
                   Some (match ss_last_reducer_revision state with
                         | Some revision => Z.max revision (er_reducer_revision row)
                         | None => er_reducer_revision row
                         end) |>
              <| ss_last_projection := Some projection |>) p,
     Some projection).

Definition select_evidence (p : Projector) (row : EvidenceRow) : Projector * bool :=
  if is_manual row && er_terminal row then (p, select_terminal_manual_revision p (er_session_id row))
  else select_session p (er_session_id row).

Definition project_evidence (p : Projector) (row : EvidenceRow) : Projector * option TranscriptProjection :=
  if manual_only row && negb (manual_admissible p row) then (p, None)
  else
    let '(p, selected) := select_evidence p row in
    if negb selected then (p, None)
    else
      let '(p, accepted) := accept_sequence p (er_session_id row) (er_sequence row) in
      if accepted then apply_evidence p row else (p, None).

Definition project (p : Projector) (row : TranscriptBusRow) : Projector * option TranscriptProjection :=
  match row with
  | RowLifecycle row => observe_lifecycle p row
  | RowEvidence row => project_evidence p row
  end.

(* ------------------------------------------------------------------ *)
(** ** Bytes *)

(** [std::str::from_utf8]: no overlong form, no surrogate, nothing past U+10FFFF. *)
Definition byte_in (lo hi : Z) (a : ascii) : bool := (lo <=? byte_of a) && (byte_of a <=? hi).

Definition continuation (a : ascii) : bool := byte_in 128 191 a.

Fixpoint is_utf8 (s : string) : bool :=
  match s with
  | EmptyString => true
  | String a s1 =>
      if byte_in 0 127 a then is_utf8 s1
      else
        match s1 with
        | EmptyString => false
        | String b s2 =>
            if byte_in 194 223 a then continuation b && is_utf8 s2
            else
              match s2 with
              | EmptyString => false
              | String c s3 =>
                  if byte_in 224 239 a
                  then byte_in (if byte_of a =? 224 then 160 else 128) (if byte_of a =? 237 then 159 else 191) b
                       && continuation c && is_utf8 s3
                  else
                    match s3 with
                    | EmptyString => false
                    | String d s4 =>
                        byte_in 240 244 a
                        && byte_in (if byte_of a =? 240 then 144 else 128) (if byte_of a =? 244 then 143 else 191) b
                        && continuation c && continuation d && is_utf8 s4
                    end
              end
        end
  end.

Inductive ProjectionReadError := InvalidUtf8 | InvalidJson | InvalidStorage.

(** [serde_json::from_value] for the two row types. *)
Class RowCodec := {
  lifecycle_of : Value → option LifecycleRow;
  evidence_of : Value → option EvidenceRow
}.

Record TranscriptProjectionReader := mkReader {
  rd_storage : Decoder;
  rd_pending : string;
  rd_projector : Projector
}.

Definition reader_new : TranscriptProjectionReader := mkReader decoder_default "" projector_default.

Definition reset_authority (r : TranscriptProjectionReader) : TranscriptProjectionReader := reader_new.

Abbreviation ReadOutput := (ProjectionReadError + TranscriptProjection)%type.

Section reader.
Context {codec : Codec} {row_codec : RowCodec}.

(** The row of a value; [inl] is an error, [inr None] a foreign schema. *)
Definition bus_row (value : Value) : ProjectionReadError + option TranscriptBusRow :=
  let schema := default ""%string (as_str (index value "schema")) in
  if String.eqb schema LIFECYCLE_SCHEMA
  then match lifecycle_of value with Some row => inr (Some (RowLifecycle row)) | None => inl InvalidJson end
  else if String.eqb schema EVIDENCE_SCHEMA
  then match evidence_of value with Some row => inr (Some (RowEvidence row)) | None => inl InvalidJson end
  else inr None.

(** The rows of a document in order; an error drops the projections before it,
    not their effect on the reader. *)
Fixpoint project_values (p : Projector) (l : list Value) (projections : list TranscriptProjection) :
    Projector * (ProjectionReadError + list TranscriptProjection) :=
  match l with
  | [] => (p, inr projections)
  | value :: rest =>
      match bus_row value with
      | inl error => (p, inl error)
      | inr None => project_values p rest projections
      | inr (Some row) =>
          let '(p, projection) := project p row in
          project_values p rest (projections ++ option_list projection)
      end
  end.

Fixpoint project_documents (p : Projector) (documents : list Value) (projections : list TranscriptProjection) :
    Projector * (ProjectionReadError + list TranscriptProjection) :=
  match documents with
  | [] => (p, inr projections)
  | document :: rest =>
      match rows document with
      | None => (p, inl InvalidStorage)
      | Some values =>
          match project_values p values projections with
          | (p, inl error) => (p, inl error)
          | (p, inr projections) => project_documents p rest projections
          end
      end
  end.

Definition push_line_all (r : TranscriptProjectionReader) (line : string) :
    TranscriptProjectionReader * (ProjectionReadError + list TranscriptProjection) :=
  match from_slice line with
  | None => (r, inl InvalidJson)
  | Some value =>
      let '(storage, values) := decoder_push (rd_storage r) value in
      let r := r <| rd_storage := storage |> in
      match values with
      | None => (r, inl InvalidStorage)
      | Some values =>
          let '(p, result) := project_documents (rd_projector r) values [] in
          (r <| rd_projector := p |>, result)
      end
  end.

Definition push_line (r : TranscriptProjectionReader) (line : string) :
    TranscriptProjectionReader * (ProjectionReadError + option TranscriptProjection) :=
  let '(r, result) := push_line_all r line in
  (r, match result with inl error => inl error | inr l => inr (last l) end).

(** One line without its newline. *)
Definition read_line (r : TranscriptProjectionReader) (line : string) : TranscriptProjectionReader * list ReadOutput :=
  if String.eqb line "" then (r, [])
  else if is_utf8 line
  then
    let '(r, result) := push_line_all r line in
    (r, match result with inl error => [inl error] | inr l => map inr l end)
  else (r, [inl InvalidUtf8]).

(** The complete lines of the pending bytes; the fuel counts bytes. *)
Fixpoint drain_lines (fuel : nat) (r : TranscriptProjectionReader) : TranscriptProjectionReader * list ReadOutput :=
  match fuel with
  | O => (r, [])
  | S fuel =>
      match split_once newline (rd_pending r) with
      | None => (r, [])
      | Some (line, rest) =>
          let '(r, out) := read_line (r <| rd_pending := rest |>) line in
          let '(r, out') := drain_lines fuel r in
          (r, out ++ out')
      end
  end.

Definition push_bytes (r : TranscriptProjectionReader) (bytes : string) : TranscriptProjectionReader * list ReadOutput :=
  let pending := (rd_pending r +:+ bytes)%string in
  drain_lines (S (String.length pending)) (r <| rd_pending := pending |>).
End reader.
