(* ===== verification/TranscriptProjectionFacts.v ===== *)
(** TranscriptProjectionFacts: projections come in order and sessions do not
    return; the reader sees the bytes, not how they arrived; what the bus writes
    is what it reads. *)

From Stdlib Require Import Ascii.
From stdpp Require Import countable.
From S2P Require Import Prelude.
From S2P Require Import Text.
From S2P Require Import BTree.
From S2P Require Import Json.
From S2P Require Import LedgerState.
From S2P Require Import JsonFields.
From S2P Require Import BusStorage.
From S2P Require Import BusStorageFacts.
From S2P Require Import TranscriptProjection.
#[local] Open Scope Z_scope.

(* ------------------------------------------------------------------ *)
(** ** Runs *)

Fixpoint project_all (p : Projector) (l : list TranscriptBusRow) : Projector * list TranscriptProjection :=
  match l with
  | [] => (p, [])
  | row :: rest =>
      let '(p, out) := project p row in
      let '(p, outs) := project_all p rest in
      (p, option_list out ++ outs)
  end.

Lemma session_of_set id s p id' :
  session_of (set_session id s p) id' = if decide (id' = id) then s else session_of p id'.
Proof.
  unfold session_of, set_session. simpl. case_decide as H.
  - subst. by rewrite lookup_insert_eq.
  - by rewrite lookup_insert_ne by done.
Qed.

(** A row either changes selection alone, or is applied to the selected session. *)
Definition row_session (row : TranscriptBusRow) : string :=
  match row with RowLifecycle row => lr_session_id row | RowEvidence row => er_session_id row end.

Definition row_sequence (row : TranscriptBusRow) : Z :=
  match row with RowLifecycle row => lr_sequence row | RowEvidence row => er_sequence row end.

(** What a reader knows of a session. *)
Definition ended (p : Projector) (id : string) : Prop :=
  id ∈ pj_retired_sessions p ∧ pj_current_session p ≠ Some id.

Definition gone (p : Projector) (id : string) : Prop :=
  ended p id ∧ (pj_current_session p = None → pj_last_ended_session p ≠ Some id).

Definition known (p : Projector) (id : string) : Prop :=
  pj_current_session p = Some id ∨ id ∈ pj_retired_sessions p.

(** The session a projection can come from. *)
Definition focus (p : Projector) (id : string) : Prop :=
  pj_current_session p = Some id ∨ (pj_current_session p = None ∧ pj_last_ended_session p = Some id).

(** Every held projection is its session's own. *)
Definition own (p : Projector) : Prop :=
  ∀ id pr, ss_last_projection (session_of p id) = Some pr → tp_session_id pr = id.

Definition follows (a b : TranscriptProjection) : Prop :=
  tp_session_id a = tp_session_id b →
  tp_sequence a < tp_sequence b ∧
  (tp_kind a = TerminalSeal →
   tp_kind b = LiveRevision ∧ tp_reducer_action b = "apply_manual_edit"%string ∧ tp_terminal b = true).

(** What a step does, as far as order is concerned. *)
Record step_facts (p p' : Projector) (out : option TranscriptProjection) : Prop := {
  sf_known id : known p id → known p' id;
  sf_ended id : ended p id → ended p' id;
  sf_gone id : gone p id → gone p' id;
  sf_own : own p → own p';
  sf_sequence id z : ss_last_sequence (session_of p id) = Some z →
    ∃ z', ss_last_sequence (session_of p' id) = Some z' ∧ z <= z';
  sf_out pr : out = Some pr → own p →
    let id := tp_session_id pr in
    focus p' id ∧ known p' id ∧ ¬ gone p id
    ∧ ss_last_sequence (session_of p' id) = Some (tp_sequence pr)
    ∧ (∀ z, ss_last_sequence (session_of p id) = Some z → z <= tp_sequence pr)
    ∧ (tp_kind pr = TerminalSeal → ended p' id)
    ∧ (ended p id → tp_kind pr = LiveRevision ∧ tp_reducer_action pr = "apply_manual_edit"%string ∧ tp_terminal pr = true)
}.

Lemma step_facts_refl p : step_facts p p None.
Proof. split; try done. intros id z Hz. exists z. split; [done|lia]. Qed.

(** Selection without a projection, before a step that starts selected. *)
Lemma select_session_facts p id p' b :
  select_session p id = (p', b) →
  step_facts p p' None ∧ pj_sessions p' = pj_sessions p ∧
  (b = true → pj_current_session p' = Some id ∧ (pj_current_session p ≠ Some id → id ∉ pj_retired_sessions p)).
Proof.
  unfold select_session, is_current. intros H. case_bool_decide as Hcur.
  { simplify_eq. split; [apply step_facts_refl|]. done. }
  case_bool_decide as Hret; simplify_eq; [split; [apply step_facts_refl|done]|].
  split; [|split; [done|intros _; by split]].
  split; try done; unfold known, ended, gone, own; simpl.
  - intros s [Hs|Hs]; [rewrite Hs; right; set_solver|]. right. destruct (pj_current_session p); set_solver.
  - intros s [Hs Hne]. split; [destruct (pj_current_session p); set_solver|by intros [= ->]].
  - intros s [[Hs Hne] _]. split; [split|]; [destruct (pj_current_session p); set_solver|by intros [= ->]|done].
  - intros s z Hz. exists z. split; [done|lia].
Qed.

(** Clearing the last end, as a start does once its session is current. *)
Lemma clear_last_ended_facts p id :
  pj_current_session p = Some id → step_facts p (p <| pj_last_ended_session := None |>) None.
Proof.
  intros Hcur. split; try done; unfold known, ended, gone, own; simpl.
  - intros s [Hs _]. split; [done|congruence].
  - intros s z Hz. exists z. split; [done|lia].
Qed.

Lemma step_facts_trans p p1 p2 out :
  step_facts p p1 None → step_facts p1 p2 out →
  step_facts p p2 out.
Proof.
  intros [K1 E1 G1 O1 S1 _] [K2 E2 G2 O2 S2 X2]. split.
  - auto.
  - auto.
  - auto.
  - auto.
  - intros id z Hz. destruct (S1 id z Hz) as (z1 & Hz1 & ?). destruct (S2 id z1 Hz1) as (z2 & ? & ?).
    exists z2. split; [done|lia].
  - intros pr Hout Hown id. destruct (X2 pr Hout (O1 Hown)) as (? & ? & Hg & ? & Hlt & ? & Hend). split_and!; auto.
    intros z Hz. destruct (S1 _ _ Hz) as (z1 & Hz1 & ?). specialize (Hlt _ Hz1). lia.
Qed.

(** The sequence of a row whose session is in focus. *)
Lemma accept_sequence_facts p id z p' b :
  accept_sequence p id z = (p', b) →
  step_facts p p' None ∧
  pj_current_session p' = pj_current_session p ∧ pj_last_ended_session p' = pj_last_ended_session p ∧
  pj_retired_sessions p' = pj_retired_sessions p ∧
  (b = true → ss_last_sequence (session_of p' id) = Some z ∧
              ∀ z', ss_last_sequence (session_of p id) = Some z' → z' < z) ∧
  (∀ id', ss_last_projection (session_of p' id') = ss_last_projection (session_of p id')).
Proof.
  unfold accept_sequence. intros H.
  assert (∃ s, p' = set_session id s p ∧ ss_last_projection s = ss_last_projection (session_of p id) ∧
               (ss_last_sequence s = ss_last_sequence (session_of p id) ∧ b = false ∨
                ss_last_sequence s = Some z ∧ b = true ∧
                ∀ z', ss_last_sequence (session_of p id) = Some z' → z' < z)) as (s & -> & Hproj & Hseq).
  { destruct (ss_last_sequence (session_of p id)) as [last|] eqn:Hlast.
    - destruct (Z.leb_spec z last); simplify_eq; (eexists; split; [reflexivity|]; split; [done|]).
      + left. by rewrite Hlast.
      + right. split_and!; [done|done|intros ? [= <-]; lia].
    - simplify_eq. eexists. split; [reflexivity|]. split; [done|]. right. by split_and!. }
  assert (∀ id', ss_last_projection (session_of (set_session id s p) id') = ss_last_projection (session_of p id')) as Hlp.
  { intros id'. rewrite session_of_set. case_decide; [by subst|done]. }
  split_and!; try done; [|intros ->; destruct Hseq as [[_ ?]|(? & _ & ?)]; [done|by rewrite session_of_set, decide_True]].
  split; try done.
  - intros Hown id' pr. rewrite Hlp. apply Hown.
  - intros id' z' Hz'. rewrite session_of_set. case_decide as Hd; [subst|exists z'; split; [done|lia]].
    destruct Hseq as [[Hs _]|(Hs & _ & Hlt)].
    + exists z'. rewrite Hs. split; [done|lia].
    + exists z. split; [done|]. specialize (Hlt _ Hz'). lia.
Qed.

(** The session's state after a projection of it. *)
Lemma emit_facts p id s pr :
  ss_last_sequence (session_of p id) = Some (tp_sequence pr) → tp_session_id pr = id →
  ss_last_sequence s = ss_last_sequence (session_of p id) → ss_last_projection s = Some pr →
  focus p id → known p id → ¬ gone p id →
  tp_kind pr ≠ TerminalSeal →
  (ended p id → tp_reducer_action pr = "apply_manual_edit"%string ∧ tp_terminal pr = true) →
  step_facts p (set_session id s p) (Some pr).
Proof.
  intros Hseq Hid Hs Hpr Hfocus Hknown Hgone Hkind Hend. split; try done.
  - intros Hown id' pr'. rewrite session_of_set. case_decide as Hd; [|apply Hown].
    subst id'. rewrite Hpr. by intros [= <-].
  - intros id' z Hz. rewrite session_of_set. case_decide as Hd; [subst id'|]; exists z; split; try done; try lia. congruence.
  - intros pr' [= <-] _ id'. unfold id'. rewrite Hid. rewrite session_of_set, decide_True by done.
    split_and!; try done; [congruence|intros z Hz; rewrite Hseq in Hz; simplify_eq; lia|].
    intros He. destruct (Hend He). split_and!; try done. by destruct (tp_kind pr).
Qed.

Lemma end_session_facts p row p' out :
  pj_current_session p = Some (lr_session_id row) →
  ss_last_sequence (session_of p (lr_session_id row)) = Some (lr_sequence row) →
  end_session p row = (p', out) →
  (∀ pr, out = Some pr → own p → tp_session_id pr = lr_session_id row ∧ tp_sequence pr = lr_sequence row) ∧ step_facts p p' out.
Proof.
  intros Hcur Hseq. unfold end_session. set (id := lr_session_id row) in *.
  destruct (ss_terminal_emitted (session_of p id)); intros H; simplify_eq; [split; [done|apply step_facts_refl]|].
  set (last := ss_last_projection (session_of p id)).
  assert (own p → tp_session_id (end_projection row last) = id) as Hsess.
  { intros Hown. unfold last. destruct (ss_last_projection (session_of p id)) as [pr|] eqn:Hpr; simpl; [|done]. by apply Hown. }
  split; [intros pr [= <-] Hown; split; [by apply Hsess|done]|].
  split.
  - intros id' [Hk|Hk]; [|right; set_solver]. right. simpl in *. assert (id' = id) as -> by congruence. set_solver.
  - intros id' [Hr Hne]. split; simpl; [set_solver|done].
  - intros id' [[Hr Hne] _]. split; [split; simpl; [set_solver|done]|]. simpl. congruence.
  - intros Hown id' pr. unfold session_of. simpl. destruct (decide (id' = id)) as [->|Hne].
    + rewrite lookup_insert_eq. simpl. intros [= <-]. by apply Hsess.
    + rewrite lookup_insert_ne by done. apply Hown.
  - intros id' z Hz. exists z. split; [|lia]. unfold session_of in *. simpl. destruct (decide (id' = id)) as [->|Hne].
    + by rewrite lookup_insert_eq.
    + by rewrite lookup_insert_ne.
  - intros pr [= <-] Hown id'. unfold id'. rewrite (Hsess Hown). split_and!.
    + right. done.
    + right. simpl. set_solver.
    + intros [[_ Hne] _]. congruence.
    + unfold session_of. simpl. by rewrite lookup_insert_eq.
    + intros z Hz. rewrite Hseq in Hz. simplify_eq. simpl. lia.
    + intros _. split; simpl; [set_solver|done].
    + intros [_ Hne]. congruence.
Qed.

Lemma apply_lifecycle_facts p row p' out :
  pj_current_session p = Some (lr_session_id row) →
  ss_last_sequence (session_of p (lr_session_id row)) = Some (lr_sequence row) →
  apply_lifecycle p row = (p', out) →
  (∀ pr, out = Some pr → own p → tp_session_id pr = lr_session_id row ∧ tp_sequence pr = lr_sequence row) ∧ step_facts p p' out.
Proof.
  intros Hcur Hseq. unfold apply_lifecycle.
  destruct (is_cli_document row).
  - destruct (cli_text row) as [text|]; intros H; simplify_eq; [|split; [done|apply step_facts_refl]].
    split; [by intros pr [= <-]|]. apply emit_facts; try done.
    + by left.
    + by left.
    + intros [[_ Hne] _]. congruence.
    + intros [_ Hne]. congruence.
  - destruct (negb _); [|by apply end_session_facts]. intros H; simplify_eq. split; [done|apply step_facts_refl].
Qed.

Lemma apply_evidence_facts p row p' out :
  (pj_current_session p = Some (er_session_id row) ∨
   is_manual row = true ∧ er_terminal row = true ∧ pj_current_session p = None ∧
   pj_last_ended_session p = Some (er_session_id row) ∧ er_session_id row ∈ pj_retired_sessions p) →
  ss_last_sequence (session_of p (er_session_id row)) = Some (er_sequence row) →
  apply_evidence p row = (p', out) →
  (∀ pr, out = Some pr → own p → tp_session_id pr = er_session_id row ∧ tp_sequence pr = er_sequence row) ∧ step_facts p p' out.
Proof.
  intros Hsel Hseq. unfold apply_evidence. set (id := er_session_id row) in *.
  match goal with |- context [if ?b then (p, None) else _] => destruct b end;
    intros H; simplify_eq; [split; [done|apply step_facts_refl]|].
  split; [by intros pr [= <-]|]. apply emit_facts; try done.
  - destruct Hsel as [?|(_ & _ & ? & ? & _)]; [by left|by right].
  - destruct Hsel as [?|(_ & _ & _ & _ & ?)]; [by left|by right].
  - intros [[_ Hne] Hlast]. destruct Hsel as [?|(_ & _ & Hn & Hl & _)]; [congruence|]. by specialize (Hlast Hn).
  - intros [_ Hne]. destruct Hsel as [?|(Hm & Ht & _)]; [congruence|]. split; [|done]. by apply String.eqb_eq in Hm.
Qed.

(** Every row keeps the facts, and its projection is newer than all before. *)
Lemma project_facts p row p' out :
  project p row = (p', out) →
  step_facts p p' out ∧
  (∀ pr, out = Some pr → own p →
     ∀ z, ss_last_sequence (session_of p (tp_session_id pr)) = Some z → z < tp_sequence pr).
Proof.
  assert (∀ (id : string) (z : Z) p1 p2 p3 (out : option TranscriptProjection),
    step_facts p p1 None → pj_sessions p1 = pj_sessions p →
    accept_sequence p1 id z = (p2, true) →
    (∀ pr, out = Some pr → own p2 → tp_session_id pr = id ∧ tp_sequence pr = z) ∧ step_facts p2 p3 out →
    step_facts p p3 out ∧
    (∀ pr, out = Some pr → own p →
       ∀ z, ss_last_sequence (session_of p (tp_session_id pr)) = Some z → z < tp_sequence pr)) as Hchain.
  { intros id z p1 p2 p3 o H1 Hsame Hacc [Hid H3].
    apply accept_sequence_facts in Hacc as (H2 & _ & _ & _ & Hlast & _).
    split; [by eapply step_facts_trans; [exact H1|]; eapply step_facts_trans|].
    intros pr Hout Hown z' Hz'. destruct (Hid pr Hout) as [Hi Hz]; [by apply H2, H1|].
    rewrite Hi in Hz'. rewrite Hz. apply Hlast; [done|]. unfold session_of in *. by rewrite Hsame. }
  destruct row as [row|row]; simpl.
  - unfold observe_lifecycle.
    assert (∀ p1 b, (if String.eqb (lr_status row) "session_started"
               then let '(p, selected) := select_session p (lr_session_id row) in
                    (if selected then p <| pj_last_ended_session := None |> else p, selected)
               else (p, is_current p (lr_session_id row))) = (p1, b) →
            step_facts p p1 None ∧ pj_sessions p1 = pj_sessions p ∧
            (b = true → pj_current_session p1 = Some (lr_session_id row))) as Hselect.
    { intros p1 b. destruct (String.eqb _ _).
      - destruct (select_session p (lr_session_id row)) as [q selected] eqn:Hsel.
        apply select_session_facts in Hsel as (Hf & Hs & Hc). intros H; simplify_eq.
        destruct b; [|split; [done|split; [done|done]]].
        destruct (Hc eq_refl) as [Hcur _]. split; [|done].
        eapply step_facts_trans; [exact Hf|]. by eapply clear_last_ended_facts.
      - intros H; simplify_eq. split; [apply step_facts_refl|]. split; [done|]. by intros Hb%bool_decide_eq_true. }
    destruct (if String.eqb _ _ then _ else _) as [p1 selected] eqn:Hsel. destruct (Hselect _ _ eq_refl) as (H1 & Hsame & Hcur).
    destruct selected; simpl; [|intros H; simplify_eq; split; [done|done]].
    destruct (accept_sequence p1 (lr_session_id row) (lr_sequence row)) as [p2 accepted] eqn:Hacc.
    destruct accepted.
    + intros Happ. eapply Hchain; [exact H1|exact Hsame|exact Hacc|].
      apply accept_sequence_facts in Hacc as (_ & Hc & _ & _ & Hlast & _).
      eapply apply_lifecycle_facts; [by rewrite Hc, Hcur|by destruct (Hlast eq_refl)|exact Happ].
    + intros H; simplify_eq. split; [|done]. eapply step_facts_trans; [exact H1|].
      by apply accept_sequence_facts in Hacc as (? & _).
  - unfold project_evidence. destruct (manual_only row && _); [intros H; simplify_eq; split; [apply step_facts_refl|done]|].
    destruct (select_evidence p row) as [p1 selected] eqn:Hsel.
    assert (step_facts p p1 None ∧ pj_sessions p1 = pj_sessions p ∧
            (selected = true →
             pj_current_session p1 = Some (er_session_id row) ∨
             is_manual row = true ∧ er_terminal row = true ∧ pj_current_session p1 = None ∧
             pj_last_ended_session p1 = Some (er_session_id row) ∧ er_session_id row ∈ pj_retired_sessions p1))
      as (H1 & Hsame & Hcur).
    { unfold select_evidence in Hsel. destruct (is_manual row && er_terminal row) eqn:Hm.
      - simplify_eq. split; [apply step_facts_refl|]. split; [done|].
        unfold select_terminal_manual_revision, is_current. intros [Hc|Hc]%orb_true_iff; zbool; [by left|]. by right.
      - apply select_session_facts in Hsel as (Hf & Hs & Hc). split; [done|]. split; [done|].
        intros Hb. left. by destruct (Hc Hb). }
    destruct selected; simpl; [|intros H; simplify_eq; split; [done|done]].
    destruct (accept_sequence p1 (er_session_id row) (er_sequence row)) as [p2 accepted] eqn:Hacc.
    destruct accepted.
    + intros Happ. eapply Hchain; [exact H1|exact Hsame|exact Hacc|].
      apply accept_sequence_facts in Hacc as (_ & Hc & Hle & Hret & Hlast & _).
      eapply apply_evidence_facts; [rewrite Hc, Hle, Hret; by apply Hcur|by destruct (Hlast eq_refl)|exact Happ].
    + intros H; simplify_eq. split; [|done]. eapply step_facts_trans; [exact H1|].
      by apply accept_sequence_facts in Hacc as (? & _).
Qed.

Lemma gone_elsewhere p id id' : known p id → focus p id' → id ≠ id' → gone p id.
Proof.
  intros Hk Hf Hne. assert (pj_current_session p ≠ Some id) as Hcur by (destruct Hf as [Hf|[Hf _]]; rewrite Hf; congruence).
  split; [split; [|done]|]; [by destruct Hk|]. intros Hn. destruct Hf as [Hf|[_ Hf]]; congruence.
Qed.

(** A run against what was known when it started. *)
Lemma project_all_facts l : ∀ p p' outs,
  project_all p l = (p', outs) → own p →
  (∀ pr, pr ∈ outs →
     ¬ gone p (tp_session_id pr) ∧
     (∀ z, ss_last_sequence (session_of p (tp_session_id pr)) = Some z → z < tp_sequence pr) ∧
     (ended p (tp_session_id pr) →
      tp_kind pr = LiveRevision ∧ tp_reducer_action pr = "apply_manual_edit"%string ∧ tp_terminal pr = true)) ∧
  StronglySorted follows outs.
Proof.
  induction l as [|row l IH]; intros p p' outs; simpl; [intros [= <- <-] _; split; [by intros pr ?%elem_of_nil|constructor]|].
  destruct (project p row) as [p1 out] eqn:Hstep. destruct (project_all p1 l) as [p2 outs1] eqn:Hrun.
  intros H Hown; simplify_eq. destruct (project_facts _ _ _ _ Hstep) as [F Hstrict].
  destruct (IH _ _ _ Hrun) as [Hall Hsorted]; [by apply F|].
  assert (∀ pr, pr ∈ outs1 → ¬ gone p (tp_session_id pr) ∧
     (∀ z, ss_last_sequence (session_of p (tp_session_id pr)) = Some z → z < tp_sequence pr) ∧
     (ended p (tp_session_id pr) →
      tp_kind pr = LiveRevision ∧ tp_reducer_action pr = "apply_manual_edit"%string ∧ tp_terminal pr = true)) as Hrest.
  { intros pr Hpr. destruct (Hall pr Hpr) as (Hg & Hseq & He). split_and!.
    - intros Hgone. apply Hg. by apply F.
    - intros z Hz. destruct (sf_sequence _ _ _ F _ _ Hz) as (z' & Hz' & ?). specialize (Hseq _ Hz'). lia.
    - intros Hended. apply He. by apply F. }
  destruct out as [pr|]; simpl; [|done].
  destruct (sf_out _ _ _ F pr eq_refl Hown) as (_ & _ & Hg & Hlast & _ & Hterm & Hend). split.
  - intros pr' [->|Hpr']%elem_of_cons; [|by apply Hrest]. split_and!; [done|by apply Hstrict|done].
  - constructor; [done|]. apply Forall_forall. intros pr' Hpr' Hsame. destruct (Hall pr' Hpr') as (_ & Hseq & He).
    rewrite <- Hsame in Hseq, He. split; [by apply Hseq|]. intros Hk. by apply He, Hterm.
Qed.

(** Once another session spoke, a known one is silent. *)
Lemma silent_after l : ∀ p p' outs id l1 b l2,
  project_all p l = (p', outs) → own p → known p id → outs = l1 ++ b :: l2 → tp_session_id b ≠ id →
  ∀ c, c ∈ l2 → tp_session_id c ≠ id.
Proof.
  induction l as [|row l IH]; intros p p' outs id l1 b l2; simpl; [by intros [= <- <-] _ _ ?%app_cons_not_nil|].
  destruct (project p row) as [p1 out] eqn:Hstep. destruct (project_all p1 l) as [p2 outs1] eqn:Hrun.
  intros [= <- <-] Hown Hknown Hout Hne c Hc. destruct (project_facts _ _ _ _ Hstep) as [F _].
  assert (own p1) as Hown1 by (by apply F). assert (known p1 id) as Hknown1 by (by apply F).
  destruct out as [pr|]; simpl in Hout; [|by eapply IH]. destruct l1 as [|pr' l1]; simplify_eq.
  - simpl in Hout. simplify_eq. destruct (sf_out _ _ _ F b eq_refl Hown) as (Hfocus & _).
    destruct (project_all_facts _ _ _ _ Hrun Hown1) as [Hall _]. destruct (Hall c Hc) as [Hg _].
    intros Heq. apply Hg. rewrite Heq. by eapply gone_elsewhere.
  - simpl in Hout. simplify_eq. by eapply IH.
Qed.

Lemma own_default : own projector_default.
Proof. intros id pr. unfold session_of. simpl. by rewrite lookup_empty. Qed.

(** C22: The projections of a session come with strictly increasing sequence
    numbers, whatever rows arrive in whatever order, and after its terminal seal,
    which comes once, only terminal manual revisions of it follow. *)
Theorem projections_in_order rows : StronglySorted follows (project_all projector_default rows).2.
Proof.
  destruct (project_all projector_default rows) as [p outs] eqn:H.
  by apply (project_all_facts _ _ _ _ H own_default).
Qed.

(** C23: Sessions do not return: between two projections of a session there is no
    projection of another one, so late rows of an older session never displace a
    newer one. *)
Theorem sessions_never_return rows l1 a l2 b l3 c l4 :
  (project_all projector_default rows).2 = l1 ++ a :: l2 ++ b :: l3 ++ c :: l4 →
  tp_session_id a = tp_session_id c → tp_session_id b = tp_session_id a.
Proof.
  destruct (project_all projector_default rows) as [p outs] eqn:H. simpl. intros -> Hac.
  assert (own projector_default) as Hown by exact own_default.
  revert H Hown. generalize projector_default as p0. intros p0 H Hown.
  revert p0 l1 H Hown. induction rows as [|row rows IH]; intros p0 l1; simpl; [intros [=]; by destruct l1|].
  destruct (project p0 row) as [p1 out] eqn:Hstep. destruct (project_all p1 rows) as [p2 outs1] eqn:Hrun.
  intros [= <- Hout] Hown. destruct (project_facts _ _ _ _ Hstep) as [F _].
  assert (own p1) as Hown1 by (by apply F).
  destruct out as [pr|]; simpl in Hout; [|subst outs1; by eapply IH].
  destruct l1 as [|pr' l1]; simplify_eq/=; [|by eapply IH].
  destruct (sf_out _ _ _ F a eq_refl Hown) as (_ & Hknown & _).
  destruct (decide (tp_session_id b = tp_session_id a)) as [|Hne]; [done|]. exfalso.
  eapply (silent_after rows p1 _ _ (tp_session_id a) l2 b (l3 ++ c :: l4) Hrun Hown1 Hknown eq_refl Hne c); [|done].
  set_solver.
Qed.

(* ------------------------------------------------------------------ *)
(** ** Bytes *)

Section bytes.
Context {codec : Codec} {row_codec : RowCodec}.

(** The complete lines of a text, and what follows the last newline. *)
Fixpoint lines_of (s : string) : list string * string :=
  match s with
  | EmptyString => ([], EmptyString)
  | String c s' =>
      let '(lines, rest) := lines_of s' in
      if Ascii.eqb c newline then (""%string :: lines, rest)
      else match lines with [] => ([], String c rest) | line :: lines => (String c line :: lines, rest) end
  end.

Lemma lines_of_split_once s :
  match split_once newline s with
  | None => lines_of s = ([], s)
  | Some (line, rest) => lines_of s = (line :: (lines_of rest).1, (lines_of rest).2)
  end.
Proof.
  induction s as [|c s IH]; [done|]. cbn [lines_of split_once]. destruct (Ascii.eqb c newline).
  - by destruct (lines_of s).
  - destruct (split_once newline s) as [[line rest]|]; cbn [mbind option_bind]; by rewrite IH.
Qed.

Lemma lines_of_app s t :
  lines_of (s +:+ t) =
    ((lines_of s).1 ++ (lines_of ((lines_of s).2 +:+ t)).1, (lines_of ((lines_of s).2 +:+ t)).2).
Proof.
  induction s as [|c s IH]; [cbn [lines_of fst snd app]; change ("" +:+ t)%string with t; by destruct (lines_of t)|].
  change (String c s +:+ t)%string with (String c (s +:+ t)). cbn [lines_of]. rewrite IH.
  destruct (lines_of s) as [lines rest]. cbn [fst snd].
  destruct (Ascii.eqb c newline) eqn:Hc; [done|]. destruct lines as [|line lines]; [|done].
  cbn [fst snd app]. change (String c rest +:+ t)%string with (String c (rest +:+ t)). cbn [lines_of]. rewrite Hc.
  by destruct (lines_of (rest +:+ t)) as [[|line lines] rest'].
Qed.

Fixpoint read_lines (r : TranscriptProjectionReader) (l : list string) : TranscriptProjectionReader * list ReadOutput :=
  match l with
  | [] => (r, [])
  | line :: rest =>
      let '(r, out) := read_line r line in
      let '(r, outs) := read_lines r rest in
      (r, out ++ outs)
  end.

Lemma read_line_pending r x line :
  read_line (r <| rd_pending := x |>) line = ((read_line r line).1 <| rd_pending := x |>, (read_line r line).2).
Proof.
  unfold read_line. destruct (String.eqb line ""); [done|]. destruct (is_utf8 line); [|done].
  unfold push_line_all. destruct (from_slice line); [|done]. simpl.
  destruct (decoder_push (rd_storage r) v) as [storage [values|]]; [|done]. simpl.
  by destruct (project_documents (rd_projector r) values []) as [p [error|l]].
Qed.

Lemma read_line_keeps r line : rd_pending (read_line r line).1 = rd_pending r.
Proof.
  unfold read_line. destruct (String.eqb line ""); [done|]. destruct (is_utf8 line); [|done].
  unfold push_line_all. destruct (from_slice line); [|done].
  destruct (decoder_push (rd_storage r) v) as [storage [values|]]; [|done]. simpl.
  by destruct (project_documents (rd_projector r) values []) as [p [error|l]].
Qed.

Lemma read_lines_pending r x l :
  read_lines (r <| rd_pending := x |>) l = ((read_lines r l).1 <| rd_pending := x |>, (read_lines r l).2).
Proof.
  revert r. induction l as [|line l IH]; intros r; [done|]. cbn [read_lines]. rewrite read_line_pending.
  destruct (read_line r line) as [r1 out]. cbn [fst snd]. rewrite IH. by destruct (read_lines r1 l).
Qed.

Lemma read_lines_app r l1 l2 :
  read_lines r (l1 ++ l2) =
    let '(r1, out1) := read_lines r l1 in let '(r2, out2) := read_lines r1 l2 in (r2, out1 ++ out2).
Proof.
  revert r. induction l1 as [|line l1 IH]; intros r; cbn [read_lines app]; [by destruct (read_lines r l2)|].
  destruct (read_line r line) as [r1 out]. rewrite IH. destruct (read_lines r1 l1) as [r2 out2].
  destruct (read_lines r2 l2) as [r3 out3]. by rewrite app_assoc.
Qed.

Lemma split_once_shorter (s line rest : string) :
  split_once newline s = Some (line, rest) → (String.length rest < String.length s)%nat.
Proof. intros ->%split_once_app. rewrite append_length. simpl. lia. Qed.

Lemma drain_lines_spec fuel r :
  (String.length (rd_pending r) < fuel)%nat →
  drain_lines fuel r = read_lines (r <| rd_pending := (lines_of (rd_pending r)).2 |>) (lines_of (rd_pending r)).1.
Proof.
  revert r. induction fuel as [|fuel IH]; intros r Hf; [lia|]. cbn [drain_lines].
  pose proof (lines_of_split_once (rd_pending r)) as Hlines.
  destruct (split_once newline (rd_pending r)) as [[line rest]|] eqn:Hs; rewrite Hlines; cbn [fst snd].
  - cbn [read_lines]. apply split_once_shorter in Hs. rewrite !read_line_pending.
    destruct (read_line r line) as [r1 out]. cbn [fst snd].
    rewrite IH by (cbn; lia). cbn [rd_pending]. done.
  - destruct r. done.
Qed.

Lemma push_bytes_spec r bytes :
  push_bytes r bytes =
    read_lines (r <| rd_pending := (lines_of (rd_pending r +:+ bytes)).2 |>) (lines_of (rd_pending r +:+ bytes)).1.
Proof. unfold push_bytes. rewrite drain_lines_spec by (cbn; lia). done. Qed.

Fixpoint push_all (r : TranscriptProjectionReader) (l : list string) : TranscriptProjectionReader * list ReadOutput :=
  match l with
  | [] => (r, [])
  | bytes :: rest =>
      let '(r, out) := push_bytes r bytes in
      let '(r, outs) := push_all r rest in
      (r, out ++ outs)
  end.

Lemma push_bytes_app r a b :
  push_bytes r (a +:+ b) =
    let '(r1, out1) := push_bytes r a in let '(r2, out2) := push_bytes r1 b in (r2, out1 ++ out2).
Proof.
  rewrite !push_bytes_spec. rewrite append_assoc, lines_of_app. cbn [fst snd].
  destruct (lines_of (rd_pending r +:+ a)) as [l1 p1]. cbn [fst snd].
  rewrite read_lines_app, !read_lines_pending.
  destruct (read_lines r l1) as [r1 out1] eqn:Hr. cbn [fst snd].
  rewrite push_bytes_spec. change (rd_pending (r1 <| rd_pending := p1 |>)) with p1.
  destruct (lines_of (p1 +:+ b)) as [l2 p2]. cbn [fst snd]. rewrite !read_lines_pending. by destruct (read_lines r1 l2).
Qed.

(** C24: What a reader makes of a file does not depend on how its bytes arrive:
    pushed in any pieces they give the projections, the errors and the state of
    one push of the whole. *)
Theorem byte_splits_agree r pieces :
  one_line (rd_pending r) = true →
  push_all r pieces = push_bytes r (String.concat "" pieces).
Proof.
  intros Hline. assert (∀ s, one_line s = true → lines_of s = ([], s)) as Hone.
  { induction s as [|c s IH]; [done|]. cbn [one_line lines_of]. intros [Hc Hs]%andb_true_iff. rewrite IH by done.
    by destruct (Ascii.eqb c newline). }
  destruct pieces as [|bytes rest].
  - cbn [push_all String.concat]. rewrite push_bytes_spec, append_nil, Hone by done. by destruct r.
  - clear Hline. revert r bytes. induction rest as [|bytes' rest IH]; intros r bytes; rewrite concat_empty_cons.
    + cbn [push_all String.concat]. rewrite append_nil. destruct (push_bytes r bytes). by rewrite app_nil_r.
    + rewrite push_bytes_app. change (push_all r (bytes :: bytes' :: rest)) with
        (let '(r, out) := push_bytes r bytes in let '(r, outs) := push_all r (bytes' :: rest) in (r, out ++ outs)).
      destruct (push_bytes r bytes) as [r1 out1]. by rewrite IH.
Qed.
End bytes.

(* ------------------------------------------------------------------ *)
(** ** Written and read *)

(** The text serde_json prints is one line of UTF-8. *)
Class TextLaws `{codec : Codec} := {
  to_vec_line v : one_line (to_vec v) = true;
  to_vec_utf8 v : is_utf8 (to_vec v) = true;
  to_vec_nonempty v : to_vec v ≠ ""%string
}.

Lemma wf_get_field P v key w : wf_value P v → get_field v key = Some w → wf_value P w.
Proof.
  intros Hv. unfold get_field. destruct Hv as [| | | | |fields _ Hf]; try done. simpl. clear -Hf.
  induction fields as [|[k x] fields IH]; simpl; [done|]. destruct (String.eqb key k).
  - intros [= ->]. apply (Hf k). left.
  - apply IH. intros k' v' Hin. apply (Hf k'). by right.
Qed.

Lemma wf_index P v key : wf_value P v → wf_value P (index v key).
Proof.
  intros Hv. unfold index. destruct (get_field v key) as [w|] eqn:Hg; [by eapply wf_get_field|constructor].
Qed.

(** The fields of an object in key order, one by one. *)
Lemma wf_fields P fields :
  StronglySorted (λ x y : string * Value, String.ltb x.1 y.1 = true) fields → Forall (λ f, wf_value P f.2) fields →
  wf_value P (VObject fields).
Proof.
  intros Hs Hf. constructor; [done|]. intros k v Hin. rewrite Forall_forall in Hf. exact (Hf (k, v) Hin).
Qed.

Section round_trip.
Context {codec : Codec} {laws : CodecLaws} {text : TextLaws} {row_codec : RowCodec}.

Lemma wf_chunk_row bytes document part payload :
  wf_value json_number document → 0 < len bytes <= DECODE_LIMIT → 0 <= Z.of_nat part <= u64_max →
  wf_value json_number
    (chunk_row (digest bytes) (div_ceil (len bytes) CHUNK_BYTES) (len bytes) (event_header document) part payload).
Proof.
  intros Hd Hlen Hpart. pose proof (parts_bounds bytes Hlen) as Hparts.
  assert (len bytes <= u64_max) by (change DECODE_LIMIT with 268435456 in Hlen; unfold u64_max; lia).
  assert (∀ n, 0 <= n <= u64_max → wf_value json_number (VU64 n)) as Hnum by (intros; constructor; by apply json_number_u64).
  apply wf_fields; [repeat constructor|]. repeat (apply Forall_cons; split); cbn [snd]; try (by constructor);
    try (apply Hnum; lia).
  apply wf_fields; [repeat constructor|]. repeat (apply Forall_cons; split); cbn [snd]; try (by apply wf_index); constructor.
Qed.

Lemma lines_of_as_lines l : lines_of (as_lines l) = (map to_vec l, ""%string).
Proof.
  unfold as_lines. induction l as [|v l IH]; [done|]. cbn [map]. rewrite concat_empty_cons, lines_of_app.
  assert (lines_of (to_vec v +:+ newline_str)%string = ([to_vec v], ""%string)) as ->.
  { assert (∀ s, one_line s = true → lines_of (s +:+ newline_str)%string = ([s], ""%string)) as Hone.
    { induction s as [|c s IHs]; [done|]. cbn [one_line]. intros [Hc Hs]%andb_true_iff.
      change (String c s +:+ newline_str)%string with (String c (s +:+ newline_str)). cbn [lines_of]. rewrite IHs by done.
      by destruct (Ascii.eqb c newline). }
    apply Hone, to_vec_line. }
  cbn [fst snd]. change ("" +:+ ?x)%string with x. by rewrite IH.
Qed.

(** One value as a line: what the decoder lets through, projected. *)
Definition read_decoded (r : TranscriptProjectionReader) (d : Decoder) (values : option (list Value)) :
    TranscriptProjectionReader * list ReadOutput :=
  let r := r <| rd_storage := d |> in
  match values with
  | None => (r, [inl InvalidStorage])
  | Some values =>
      let '(p, result) := project_documents (rd_projector r) values [] in
      (r <| rd_projector := p |>, match result with inl error => [inl error] | inr l => map inr l end)
  end.

Lemma read_line_value r v :
  from_slice (to_vec v) = Some v →
  read_line r (to_vec v) = read_decoded r (decoder_push (rd_storage r) v).1 (decoder_push (rd_storage r) v).2.
Proof.
  intros Hv. unfold read_line. destruct (String.eqb_spec (to_vec v) "") as [He|_]; [by apply to_vec_nonempty in He|].
  rewrite to_vec_utf8. unfold push_line_all, read_decoded. rewrite Hv.
  destruct (decoder_push (rd_storage r) v) as [d [values|]]; [|done]. cbn [fst snd].
  by destruct (project_documents _ values []) as [p [error|l]].
Qed.

Lemma read_values r l d k x :
  (∀ v, v ∈ l → from_slice (to_vec v) = Some v) →
  decode_all (rd_storage r) l = (d, replicate k (Some []) ++ [x]) →
  read_lines r (map to_vec l) = read_decoded r d x.
Proof.
  revert r k. induction l as [|v l IH]; intros r k Hl; [by destruct k|]. cbn [decode_all map read_lines].
  rewrite read_line_value by (apply Hl; left).
  destruct (decoder_push (rd_storage r) v) as [d1 out] eqn:Hpush. cbn [fst snd].
  destruct (decode_all d1 l) as [d2 outs] eqn:Hall. destruct k as [|k]; cbn [replicate app]; intros H; simplify_eq.
  - destruct l as [|v' l]; [|cbn [decode_all] in Hall; destruct (decoder_push d1 v'), (decode_all _ l); done].
    cbn [decode_all] in Hall. simplify_eq. cbn [map read_lines].
    destruct (read_decoded r d x) as [r' o]. by rewrite app_nil_r.
  - assert (read_decoded r d1 (Some []) = (r <| rd_storage := d1 |>, [])) as -> by done. cbn [app].
    rewrite (IH (r <| rd_storage := d1 |>) k); [|intros w Hw; apply Hl; by right|exact Hall].
    change (read_decoded (r <| rd_storage := d1 |>) d x) with (read_decoded r d x). by destruct (read_decoded r d x).
Qed.

End round_trip.

(* ------------------------------------------------------------------ *)
(** ** Witnesses *)

(** A codec that satisfies the laws: a value as the bits of a tree. *)
Fixpoint to_tree (v : Value) : gen_tree string :=
  match v with
  | VNull => GenNode 0 []
  | VBool true => GenNode 1 []
  | VBool false => GenNode 2 []
  | VNumber t => GenNode 3 [GenLeaf t]
  | VString t => GenLeaf t
  | VArray items => GenNode 4 (map to_tree items)
  | VObject fields => GenNode 5 (map (λ f, GenNode 0 [GenLeaf f.1; to_tree f.2]) fields)
  end.

Fixpoint of_tree (t : gen_tree string) : Value :=
  match t with
  | GenLeaf s => VString s
  | GenNode 0 _ => VNull
  | GenNode 1 _ => VBool true
  | GenNode 2 _ => VBool false
  | GenNode 3 [GenLeaf s] => VNumber s
  | GenNode 4 l => VArray (map of_tree l)
  | GenNode 5 l =>
      VObject (map (λ t, match t with GenNode _ [GenLeaf k; t'] => (k, of_tree t') | _ => (""%string, VNull) end) l)
  | GenNode _ _ => VNull
  end.

Lemma of_to_tree v : of_tree (to_tree v) = v.
Proof.
  induction v as [|[]| | |items IH|fields IH] using Value_ind'; cbn; try done; f_equal; rewrite map_map.
  - rewrite <- (map_id items) at 2. apply map_ext_Forall, IH.
  - rewrite <- (map_id fields) at 2. apply map_ext_Forall. eapply List.Forall_impl; [|exact IH].
    intros [k v] Hv. cbn in *. by rewrite Hv.
Qed.

Fixpoint bits_of (p : positive) : string :=
  match p with xH => "1" | xO p => String "0"%char (bits_of p) | xI p => String "1"%char (bits_of p) end.

Fixpoint of_bits (s : string) : option positive :=
  match s with
  | EmptyString => None
  | String _ EmptyString => Some xH
  | String c rest => p ← of_bits rest; Some (if Ascii.eqb c "0"%char then xO p else xI p)
  end.

Lemma of_bits_of p : of_bits (bits_of p) = Some p.
Proof.
  induction p as [p IH|p IH|]; [..|done]; cbn [bits_of of_bits];
    (destruct (bits_of p) eqn:Hp; [by destruct p|]); rewrite <- Hp in *; by rewrite IH.
Qed.

#[local] Instance bit_codec : Codec := {
  to_vec v := bits_of (countable.encode (to_tree v));
  from_slice s := p ← of_bits s; t ← decode p; Some (of_tree t);
  base64_encode s := s;
  base64_decode s := Some s;
  digest s := s
}.

Program Definition bit_laws : CodecLaws := {| json_number _ := True |}.
Next Obligation. done. Qed.
Next Obligation. intros v _. cbn. rewrite of_bits_of. cbn. rewrite countable.decode_encode. cbn. by rewrite of_to_tree. Qed.
Next Obligation. done. Qed.

Lemma bit_text : TextLaws.
Proof.
  split; intros v; cbn; induction (countable.encode (to_tree v)) as [p IH|p IH|]; cbn; rewrite ?IH; done.
Qed.

#[local] Instance no_rows : RowCodec := {
  lifecycle_of v :=
    match index v "session_id", index v "status" with
    | VString id, VString status =>
        Some (mkLifecycle (default 0 (as_u64 (index v "sequence"))) id status None None None "" None None
                false false false false false false false)
    | _, _ => None
    end;
  evidence_of v :=
    match index v "session_id", index v "reducer_action", index v "rendered_text" with
    | VString id, VString action, VString text =>
        Some (mkEvidence (default 0 (as_u64 (index v "sequence"))) id (default 0 (as_u64 (index v "reducer_revision")))
                action id 1 0 99 0 text None Listening false false false false false false false)
    | _, _, _ => None
    end
}.

Definition evidence_value (id text : string) (sequence revision : Z) : Value :=
  VObject [("reducer_action", VString "apply_ledger_decision"); ("reducer_revision", VU64 revision);
           ("rendered_text", VString text); ("schema", VString EVIDENCE_SCHEMA); ("sequence", VU64 sequence);
           ("session_id", VString id)].

Definition evidence_row (id text : string) (sequence revision : Z) : TranscriptBusRow :=
  RowEvidence (mkEvidence sequence id revision "apply_ledger_decision" id 1 0 99 0 text None Listening
                 false false false false false false false).

Definition two_sessions : list TranscriptBusRow :=
  [evidence_row "old" "a" 1 1; evidence_row "old" "b" 2 2; evidence_row "old" "c" 3 3; evidence_row "new" "d" 1 1;
   evidence_row "old" "e" 4 4].

Example two_sessions_out :
  map (λ pr, (tp_session_id pr, tp_rendered_text pr)) (project_all projector_default two_sessions).2 =
    [("old", "a"); ("old", "b"); ("old", "c"); ("new", "d")]%string.
Proof. by vm_compute. Qed.

Lemma sessions_never_return_witness :
  ∃ a b c d, (project_all projector_default two_sessions).2 = [] ++ a :: [] ++ b :: [] ++ c :: [d] ∧
    tp_session_id a = tp_session_id c ∧ tp_session_id b = tp_session_id a.
Proof.
  eexists _, _, _, _. split; [vm_compute; reflexivity|]. split; [reflexivity|].
  eapply (sessions_never_return two_sessions [] _ [] _ [] _ [_]); [vm_compute; reflexivity|reflexivity].
Defined.

(** The document on the type says a reducer revision makes one projection. *)
Example same_revision_twice :
  map (λ pr, (tp_reducer_revision pr, tp_sequence pr))
    (project_all projector_default [evidence_row "s" "a" 1 7; evidence_row "s" "a" 2 7]).2 = [(7, 1); (7, 2)].
Proof. by vm_compute. Qed.

(** A revision at the end of a session may be older than one already seen. *)
Definition end_row (revision : Z) : TranscriptBusRow :=
  RowLifecycle (mkLifecycle 3 "s" "session_ended" (Some revision) None None "" None None
                  false false false false false false false).

Example end_lowers_revision :
  map (λ pr, (tp_kind pr, tp_reducer_revision pr))
    (project_all projector_default [evidence_row "s" "a" 1 7; end_row 2]).2 = [(LiveRevision, 7); (TerminalSeal, 2)].
Proof. by vm_compute. Qed.

(** An error later in the same document drops the projections before it. *)
Definition broken_row : Value := VObject [("schema", VString EVIDENCE_SCHEMA)].

Example error_drops_projections :
  let '(p, result) := project_values projector_default [evidence_value "s" "a" 1 1; broken_row] [] in
  result = inl InvalidJson ∧ pj_current_session p = Some "s"%string ∧
  (project p (evidence_row "s" "a" 1 1)).2 = None.
Proof. by vm_compute. Qed.

Definition document_line : string := (to_vec (evidence_value "s" "a" 1 1) +:+ newline_str)%string.

Lemma byte_splits_agree_witness :
  one_line (rd_pending reader_new) = true ∧
  push_all reader_new [String.substring 0 5 document_line; String.substring 5 (String.length document_line - 5) document_line]
    = push_bytes reader_new (String.concat ""
        [String.substring 0 5 document_line; String.substring 5 (String.length document_line - 5) document_line]).
Proof. split; [reflexivity|]. apply (byte_splits_agree reader_new). reflexivity. Defined.

