(* ===== verification/ThreadRecord.v ===== *)
(** ThreadRecord: the records of a stored agent thread and what a message loses
    in them (core/agent/thread_store.rs).

    A block is stored as JSON.  Reading it for display never fails; reading it
    as context a provider continues from is checked first.  Saving an image may
    write a file, so storing a message takes and returns a state [W]. *)

From S2P Require Import Prelude.
From S2P Require Import Text.
From S2P Require Import BTree.
From S2P Require Import Json.
From S2P Require Import JsonFields.
From S2P Require Import GroupAlignment.
From S2P Require Import AgentGate.
From S2P Require Import AgentTypes.
#[local] Open Scope Z_scope.
#[local] Open Scope mach_scope.

(* ------------------------------------------------------------------ *)
(** ** Records *)

Definition DEFAULT_THREAD_TITLE : string := "Codescribe Agent Chat".

Record ThreadMessage := mkThreadMessage {
  tm_role : string;
  tm_content : list Value;
  tm_timestamp : Z;
  tm_metadata : option Value
}.

Record ThreadNote := mkThreadNote {
  tn_id : string;
  tn_created_at : Z;
  tn_text : string;
  tn_anchored_to_message : option Z
}.

Record TokenUsage := mkTokenUsage { tu_input : Z; tu_output : Z }.

Record Thread := mkThread {
  th_id : string;
  th_created_at : Z;
  th_updated_at : Z;
  th_title : string;
  th_title_is_custom : bool;
  th_title_is_generated : bool;
  th_mode : string;
  th_tags : list string;
  th_notes : list ThreadNote;
  th_messages : list ThreadMessage;
  th_summary : option string;
  th_total_tokens : option TokenUsage;
  th_provider : string;
  th_model : string
}.

Definition title_is_heuristic (t : Thread) : bool := negb (th_title_is_custom t) && negb (th_title_is_generated t).

(** The note's identity and the two clock readings are given. *)
Definition add_note (t : Thread) (id : string) (now later : Z) (text : string) (anchored : option Z) : Thread :=
  t <| th_notes ::= (λ l, l ++ [mkThreadNote id now text anchored]) |> <| th_updated_at := later |>.

(* ------------------------------------------------------------------ *)
(** ** Roles *)

Definition role_to_string (role : Role) : string :=
  match role with RoleUser => "user" | RoleAssistant => "assistant" | RoleSystem => "system" end.

Definition role_from_string (value : string) : Role :=
  let lower := to_ascii_lowercase value in
  if String.eqb lower "assistant" then RoleAssistant else if String.eqb lower "system" then RoleSystem else RoleUser.

(** [serde_json::from_value::<Role>]: the lowercase names and nothing else. *)
Definition role_of_name (value : string) : option Role :=
  if String.eqb value "user" then Some RoleUser
  else if String.eqb value "assistant" then Some RoleAssistant
  else if String.eqb value "system" then Some RoleSystem
  else None.

(* ------------------------------------------------------------------ *)
(** ** Storing a block *)

(** A lookup that recursion through a value can see inside. *)
Definition on_field {A} (f : Value → A) (none : A) (key : string) : list (string * Value) → A :=
  fix go fields :=
    match fields with
    | [] => none
    | (k, v) :: rest => if String.eqb key k then f v else go rest
    end.

Lemma on_field_get {A} (f : Value → A) none key fields :
  on_field f none key fields = from_option f none (btree_get key fields).
Proof. induction fields as [|[k v] fields IH]; simpl; [done|]. by destruct (String.eqb key k). Qed.

Section storing.
Context {W : Type} (save_inline_image : W → list Byte.byte → string → W * option ImageAsset).

Definition asset_value (asset : ImageAsset) : Value :=
  VObject [("asset_id", VString (ia_asset_id asset)); ("media_type", VString (ia_media_type asset));
           ("path", VString (ia_path asset)); ("size_bytes", VU64 (ia_size_bytes asset));
           ("type", VString "image_asset")].

Definition data_omitted (data : list Byte.byte) (media_type : string) : Value :=
  VObject [("data_omitted", VBool true); ("media_type", VString media_type);
           ("size_bytes", VU64 (Z.of_nat (length data))); ("type", VString "image")].

Fixpoint content_block_to_value (w : W) (block : ContentBlock) : W * Value :=
  match block with
  | BlockText text => (w, VObject [("text", VString text); ("type", VString "text")])
  | BlockImage data media_type =>
      match data with
      | [] => (w, data_omitted data media_type)
      | _ =>
          let '(w, saved) := save_inline_image w data media_type in
          (w, match saved with Some asset => asset_value asset | None => data_omitted data media_type end)
      end
  | BlockImageAsset asset => (w, asset_value asset)
  | BlockToolUse id name input =>
      (w, VObject [("id", VString id); ("input", input); ("name", VString name); ("type", VString "tool_use")])
  | BlockToolResult tool_use_id content is_error =>
      let '(w, items) :=
        (fix go (w : W) (content : list ContentBlock) : W * list Value :=
           match content with
           | [] => (w, [])
           | block :: rest =>
               let '(w, v) := content_block_to_value w block in
               let '(w, l) := go w rest in
               (w, v :: l)
           end) w content in
      (w, VObject [("content", VArray items); ("is_error", VBool is_error); ("tool_use_id", VString tool_use_id);
                   ("type", VString "tool_result")])
  end.

Fixpoint blocks_to_values (w : W) (content : list ContentBlock) : W * list Value :=
  match content with
  | [] => (w, [])
  | block :: rest =>
      let '(w, v) := content_block_to_value w block in
      let '(w, l) := blocks_to_values w rest in
      (w, v :: l)
  end.

(** [ThreadMessage::from]; [now] is read when the message has no time. *)
Definition from_message (w : W) (now : Z) (message : Message) : W * ThreadMessage :=
  let '(w, content) := blocks_to_values w (ms_content message) in
  (w, mkThreadMessage (role_to_string (ms_role message)) content (default now (ms_timestamp message)) None).
End storing.

(* ------------------------------------------------------------------ *)
(** ** Checking a stored block *)

Definition ensure (condition : bool) (error : string) : string + unit := if condition then inr tt else inl error.

Definition required_string (value : Value) (kind key : string) : string + string :=
  match get_field value key ≫= as_str with
  | Some s => inr s
  | None => inl ("Missing " +:+ key +:+ " in " +:+ kind)%string
  end.

Definition non_empty_string (value : Value) (kind key error : string) : string + unit :=
  let? s := required_string value kind key in ensure (negb (String.eqb s "")) error.

Definition as_bool (v : Value) : option bool := match v with VBool b => Some b | _ => None end.

Definition CONTEXT_DEPTH : nat := 32.

Definition TEXT_KINDS : list string := ["text"; "input_text"; "output_text"]%string.

Definition is_text_kind (kind : string) : bool := existsb (String.eqb kind) TEXT_KINDS.

(** A run of checks, the first failure answered. *)
Fixpoint check_all {A} (check : A → string + unit) (l : list A) : string + unit :=
  match l with
  | [] => inr tt
  | x :: rest => let? _ := check x in check_all check rest
  end.

(** [levels] is how many more levels are allowed: the source's [32 - depth]. *)
Fixpoint validate_context_block (levels : nat) (value : Value) : string + unit :=
  match levels with
  | O => inl "Stored tool payload nesting exceeds context limit"%string
  | S levels =>
      match get_field value "type" ≫= as_str with
      | None => inl "Missing content type"%string
      | Some kind =>
          if is_text_kind kind
          then let? _ := required_string value kind "text" in inr tt
          else if String.eqb kind "image_asset"
          then
            let? _ := check_all (λ key, non_empty_string value kind key ("Empty image asset " +:+ key)%string)
                        ["asset_id"; "path"; "media_type"]%string in
            ensure (bool_decide (is_Some (get_field value "size_bytes" ≫= as_u64))) "Missing image size"
          else if String.eqb kind "tool_use"
          then
            let? _ := non_empty_string value kind "id" "Empty tool call identity" in
            let? _ := non_empty_string value kind "name" "Empty tool name" in
            ensure (bool_decide (is_Some (get_field value "input"))) "Missing tool arguments"
          else if String.eqb kind "tool_result"
          then
            let? _ := non_empty_string value kind "tool_use_id" "Empty tool result identity" in
            let? _ := ensure (bool_decide (is_Some (get_field value "is_error" ≫= as_bool))) "Missing tool result status" in
            match get_field value "content" ≫= as_array with
            | None => inl "Missing tool result content"%string
            | Some children => check_all (validate_context_block levels) children
            end
          else inl ("Unsupported or incomplete stored context block: " +:+ kind)%string
      end
  end.

(* ------------------------------------------------------------------ *)
(** ** Reading a stored block *)

Section reading.
Context (print_json : Value → string).

Definition field_str (value : Value) (key none : string) : string := default none (get_field value key ≫= as_str).

Definition nested_blocks (f : Value → ContentBlock) (value : Value) : list ContentBlock :=
  match value with
  | VObject fields => on_field (λ c, match c with VArray items => map f items | _ => [] end) [] "content" fields
  | _ => []
  end.

Fixpoint value_to_content_block (value : Value) : ContentBlock :=
  let nested :=
    match value with
    | VObject fields =>
        on_field (λ c, match c with VArray items => map value_to_content_block items | _ => [] end) [] "content" fields
    | _ => []
    end in
  match get_field value "type" ≫= as_str with
  | None => BlockText (print_json value)
  | Some kind =>
      if is_text_kind kind then BlockText (field_str value "text" "")
      else if String.eqb kind "image" then BlockImage [] (field_str value "media_type" "application/octet-stream")
      else if String.eqb kind "image_asset"
      then BlockImageAsset (mkImageAsset (field_str value "asset_id" "") (field_str value "path" "")
             (field_str value "media_type" "application/octet-stream") (default 0 (get_field value "size_bytes" ≫= as_u64)))
      else if String.eqb kind "tool_use"
      then BlockToolUse (field_str value "id" "") (field_str value "name" "unknown_tool")
             (default (VObject []) (get_field value "input"))
      else if String.eqb kind "tool_result"
      then BlockToolResult (field_str value "tool_use_id" "") nested
             (default false (get_field value "is_error" ≫= as_bool))
      else BlockText (print_json value)
  end.

Definition to_message (m : ThreadMessage) : Message :=
  mkMessage (role_from_string (tm_role m)) (map value_to_content_block (tm_content m)) (Some (tm_timestamp m)).

Definition try_to_message (m : ThreadMessage) : string + Message :=
  match role_of_name (tm_role m) with
  | None => inl "Unknown role in executable conversation history"%string
  | Some role =>
      let? _ := check_all (validate_context_block CONTEXT_DEPTH) (tm_content m) in
      inr ((to_message m) <| ms_role := role |>)
  end.
End reading.

(* ------------------------------------------------------------------ *)
(** ** Titles *)

(** [char::is_alphabetic] and [char::is_lowercase], of the same database as
    [CharTables]. *)
Class Letters := {
  is_alphabetic : Z → bool;
  is_lowercase : Z → bool
}.

Section titles.
Context {tables : CharTables} {letters : Letters}.

Definition chars (s : string) : list Z := map fst (utf8_chars s).

Definition title_is_meaningful (title : string) : bool :=
  negb (starts_with (trim title) "<<<") && existsb is_alphanumeric (chars (trim title)).

Definition is_number (v : Value) : bool := match v with VNumber _ => true | _ => false end.

Definition readable (text : string) : list string := if trim_is_empty text then [] else [text].

(** The texts the walk pushes, in order. *)
Fixpoint collect_title_text (value : Value) : list string :=
  match value with
  | VString text => readable text
  | VArray items => if forallb is_number items then [] else concat (map collect_title_text items)
  | VObject fields =>
      let text := match get_field value "text" ≫= as_str with Some text => readable text | None => [] end in
      match get_field value "type" ≫= as_str with
      | None => text
      | Some kind =>
          if is_text_kind kind then text
          else if String.eqb kind "tool_result" then on_field collect_title_text [] "content" fields
          else []
      end
  | _ => []
  end.

Fixpoint digit_count (s : string) : nat :=
  match s with String c s' => if is_digit c then S (digit_count s') else 0 | EmptyString => 0 end.

Definition suffix (s : string) (n : nat) : string := String.substring n (String.length s - n) s.

(** The length of a marker that starts behind an opening brace. *)
Definition marker_after (label tail : string) : option nat :=
  if starts_with tail label
  then
    let rest := suffix tail (String.length label) in
    let digits := digit_count rest in
    if negb (digits =? 0)%nat && starts_with (suffix rest digits) "}"
    then Some (1 + String.length label + digits + 1)%nat
    else None
  else None.

Definition open_brace : Ascii.ascii := Ascii.ascii_of_nat 123.

(** The first marker and its end, counted from [from]. *)
Fixpoint marker_from (from : nat) (text : string) : option (nat * nat) :=
  match text with
  | EmptyString => None
  | String c tail =>
      if Ascii.eqb c open_brace
      then
        match find_map (λ label, marker_after label tail) ["selection_"; "image_"]%string with
        | Some n => Some (from, from + n)%nat
        | None => marker_from (S from) tail
        end
      else marker_from (S from) tail
  end.

Definition find_context_marker (text : string) : option (nat * nat) := marker_from 0 text.

Definition TITLE_FRAGMENT_VOWELS : list Z := chars "aeiouyąęóàáâäãåèéêëìíîïòôöõùúûü".

Fixpoint take_while {A} (p : A → bool) (l : list A) : list A :=
  match l with [] => [] | x :: l' => if p x then x :: take_while p l' else [] end.

Definition fragment_lacks_vowel (fragment : list Z) : bool :=
  (2 <=? length fragment)%nat
  && negb (existsb (λ ch, existsb (λ low, bool_decide (low ∈ TITLE_FRAGMENT_VOWELS)) (to_lowercase [ch])) fragment).

Definition glues_split_word (left right : string) : bool :=
  fragment_lacks_vowel (take_while is_alphabetic (rev (chars left)))
  || fragment_lacks_vowel (take_while is_alphabetic (chars right)).

(** One marker out of the text. *)
Definition strip_marker (text : string) (marker : nat * nat) : string :=
  let '(start, finish) := marker in
  let left := trim_end (String.substring 0 start text) in
  let right := trim_start (suffix text finish) in
  let no_gap := (String.length left =? start)%nat && (String.length right =? String.length text - finish)%nat in
  let keep_space :=
    negb (String.eqb left "") && negb (String.eqb right "") && negb no_gap && negb (glues_split_word left right) in
  (left +:+ (if keep_space then " " else "") +:+ right)%string.

Fixpoint strip_markers (fuel : nat) (text : string) : string :=
  match fuel with
  | O => text
  | S fuel => match find_context_marker text with Some marker => strip_markers fuel (strip_marker text marker) | None => text end
  end.

(** Every round shortens the text. *)
Definition strip_context_markers (line : string) : option string :=
  match find_context_marker line with
  | None => None
  | Some _ => Some (strip_markers (String.length line) line)
  end.

Definition WIRE_LABELS : list string :=
  ["user_instruction:"; "user instruction:"; "selected_text:"; "selected text:"; "context:";
   "instrukcja_użytkownika:"; "instrukcja użytkownika:"; "zaznaczony_tekst:"; "zaznaczony tekst:"; "kontekst:";
   "kontekst_aplikacji:"; "kontekst aplikacji:"; "aplikacja:"; "okno:"; "system prompt"; "you are an agent";
   "jesteś agentem"; "jestes agentem"]%string.

Fixpoint prefix_of (p l : list Z) : bool :=
  match p, l with
  | [], _ => true
  | x :: p, y :: l => (x =? y) && prefix_of p l
  | _, [] => false
  end.

(** [to_lowercase] of a text, then [starts_with] one of the prefixes. *)
Definition lower_starts_with (line : string) (prefixes : list string) : bool :=
  existsb (λ p, prefix_of (chars p) (to_lowercase (chars line))) prefixes.

Definition is_assistive_wire_label (line : string) : bool := lower_starts_with line WIRE_LABELS.

Definition normalize_title_line (line : string) : option string :=
  let line := default line (strip_context_markers line) in
  let trimmed := trim line in
  if negb (title_is_meaningful trimmed) || is_assistive_wire_label trimmed then None
  else
    let clipped := take_chars 72 (join_space (split_whitespace trimmed)) in
    if title_is_meaningful clipped then Some clipped else None.

Definition derive_title_from_messages (messages : list ThreadMessage) : string :=
  match List.find (λ m, eq_ignore_ascii_case (tm_role m) "user") messages with
  | None => DEFAULT_THREAD_TITLE
  | Some first_user =>
      let chunks := concat (map collect_title_text (tm_content first_user)) in
      default DEFAULT_THREAD_TITLE (find_map (λ chunk, find_map normalize_title_line (text_lines chunk)) chunks)
  end.

Definition normalize_heuristic_title (t : Thread) : Thread * bool :=
  if negb (title_is_heuristic t) || title_is_meaningful (th_title t) then (t, false)
  else (t <| th_title := derive_title_from_messages (th_messages t) |>, true).
End titles.
