(* ===== verification/ThreadRecordFacts.v ===== *)
(** ThreadRecordFacts: what a stored message reads back as, and that titles
    carry no context marker. *)

From S2P Require Import Prelude.
From S2P Require Import Text.
From S2P Require Import BTree.
From S2P Require Import Json.
From S2P Require Import JsonFields.
From S2P Require Import GroupAlignment.
From S2P Require Import AgentGate.
From S2P Require Import AgentTypes.
From S2P Require Import ThreadRecord.
#[local] Open Scope Z_scope.
#[local] Open Scope mach_scope.

(** Induction through tool results. *)
Section block_ind.
  Context (P : ContentBlock → Prop).
  Context (Htext : ∀ t, P (BlockText t)) (Himage : ∀ d m, P (BlockImage d m)) (Hasset : ∀ a, P (BlockImageAsset a))
    (Huse : ∀ i n v, P (BlockToolUse i n v))
    (Hresult : ∀ i l e, Forall P l → P (BlockToolResult i l e)).

Fixpoint ContentBlock_ind' (b : ContentBlock) : P b :=
    match b with
    | BlockText t => Htext t
    | BlockImage d m => Himage d m
    | BlockImageAsset a => Hasset a
    | BlockToolUse i n v => Huse i n v
    | BlockToolResult i l e =>
        Hresult i l e
          ((fix go (l : list ContentBlock) : Forall P l :=
              match l with
              | [] => List.Forall_nil _
              | b :: l' => @List.Forall_cons _ P b l' (ContentBlock_ind' b) (go l')
              end) l)
    end.
End block_ind.

(** The sizes are [u64]s. *)
Fixpoint sized (b : ContentBlock) : Prop :=
  match b with
  | BlockImageAsset asset => is_u64 (ia_size_bytes asset)
  | BlockToolResult _ content _ =>
      (fix go (l : list ContentBlock) : Prop := match l with [] => True | b :: l => sized b ∧ go l end) content
  | _ => True
  end.

Lemma sized_result i l e : sized (BlockToolResult i l e) ↔ Forall sized l.
Proof. simpl. induction l as [|b l IH]; [done|]. rewrite Forall_cons. tauto. Qed.

(** What a block may hold to be read back as context, [levels] deep. *)
Fixpoint restorable_block (levels : nat) (b : ContentBlock) : bool :=
  match levels with
  | O => false
  | S levels =>
      match b with
      | BlockText _ => true
      | BlockImage _ _ => false
      | BlockImageAsset a =>
          negb (String.eqb (ia_asset_id a) "") && negb (String.eqb (ia_path a) "") && negb (String.eqb (ia_media_type a) "")
      | BlockToolUse id name _ => negb (String.eqb id "") && negb (String.eqb name "")
      | BlockToolResult id content _ => negb (String.eqb id "") && forallb (restorable_block levels) content
      end
  end.

Definition is_ok {E A} (r : E + A) : bool := match r with inr _ => true | inl _ => false end.

Lemma check_all_ok {A} (check : A → string + unit) l : is_ok (check_all check l) = forallb (λ x, is_ok (check x)) l.
Proof. induction l as [|x l IH]; simpl; [done|]. by destruct (check x) as [|[]]. Qed.

Section storing.
  Context {W : Type} (save_inline_image : W → list Byte.byte → string → W * option ImageAsset).
  Context (save_sized : ∀ w d m a, (save_inline_image w d m).2 = Some a → is_u64 (ia_size_bytes a)).
  Context (print_json : Value → string).

(** The block the storage keeps: an inline image becomes an asset, or loses its
    bytes. *)
Fixpoint stored_block (w : W) (b : ContentBlock) : W * ContentBlock :=
  match b with
  | BlockImage data media_type =>
      match data with
      | [] => (w, BlockImage [] media_type)
      | _ =>
          let '(w, saved) := save_inline_image w data media_type in
          (w, match saved with Some asset => BlockImageAsset asset | None => BlockImage [] media_type end)
      end
  | BlockToolResult id content e =>
      let '(w, l) :=
        (fix go (w : W) (l : list ContentBlock) : W * list ContentBlock :=
           match l with
           | [] => (w, [])
           | b :: l => let '(w, b) := stored_block w b in let '(w, l) := go w l in (w, b :: l)
           end) w content in
      (w, BlockToolResult id l e)
  | b => (w, b)
  end.

Fixpoint stored_blocks (w : W) (l : list ContentBlock) : W * list ContentBlock :=
  match l with
  | [] => (w, [])
  | b :: l => let '(w, b) := stored_block w b in let '(w, l) := stored_blocks w l in (w, b :: l)
  end.

Definition read_back (b : ContentBlock) (v : Value) : Prop :=
  value_to_content_block print_json v = b ∧
  ∀ levels, is_ok (validate_context_block levels v) = restorable_block levels b.

Lemma asset_read_back a : is_u64 (ia_size_bytes a) → read_back (BlockImageAsset a) (asset_value a).
Proof.
  intros Ha. destruct a as [id path media size]. simpl in Ha. split.
  - unfold asset_value. cbn -[as_u64 VU64]. unfold field_str. cbn -[as_u64 VU64]. by rewrite as_u64_show.
  - intros [|levels]; [done|]. unfold asset_value. cbn -[as_u64 VU64]. rewrite as_u64_show by done.
    cbn. unfold ensure. by destruct (String.eqb id ""), (String.eqb path ""), (String.eqb media "").
Qed.

Lemma block_read_back b : sized b → ∀ w,
  (content_block_to_value save_inline_image w b).1 = (stored_block w b).1 ∧
  read_back (stored_block w b).2 (content_block_to_value save_inline_image w b).2.
Proof.
  induction b as [t|d m|a|i n v|i l e IH] using ContentBlock_ind'; intros Hsize w.
  - split; [done|]. split; [done|]. by intros [|levels].
  - simpl. destruct d as [|x d]; [split; [done|]; split; [done|]; by intros [|levels]|].
    pose proof (save_sized w (x :: d) m) as Hs. destruct (save_inline_image w (x :: d) m) as [w' [a|]]; simpl in *.
    + split; [done|]. by apply asset_read_back, Hs.
    + split; [done|]. split; [done|]. by intros [|levels].
  - split; [done|]. by apply asset_read_back.
  - split; [done|]. split; [done|]. intros [|levels]; [done|]. cbn. unfold ensure.
    by destruct (String.eqb i ""), (String.eqb n "").
  - apply sized_result in Hsize. simpl.
    destruct ((fix go (w : W) (l : list ContentBlock) : W * list Value := _) w l) as [w1 items] eqn:Hv.
    destruct ((fix go (w : W) (l : list ContentBlock) : W * list ContentBlock := _) w l) as [w2 blocks] eqn:Hb.
    simpl.
    assert (w1 = w2 ∧ map (value_to_content_block print_json) items = blocks
            ∧ ∀ levels, forallb (λ v, is_ok (validate_context_block levels v)) items
                        = forallb (restorable_block levels) blocks) as (-> & Hread & Hok).
    { revert w w1 w2 items blocks Hv Hb Hsize. induction IH as [|b l Hb0 _ IHl]; intros w w1 w2 items blocks Hv Hb Hsize.
      - by injection Hv as <- <-; injection Hb as <- <-.
      - apply Forall_cons in Hsize as [Hsb Hsl]. destruct (Hb0 Hsb w) as [Hw [Hr Ho]].
        destruct (content_block_to_value save_inline_image w b) as [w' v], (stored_block w b) as [w'' b']. simpl in *. subst w''.
        destruct ((fix go (w : W) (l : list ContentBlock) : W * list Value := _) w' l) as [w1' items'] eqn:Hv'.
        destruct ((fix go (w : W) (l : list ContentBlock) : W * list ContentBlock := _) w' l) as [w2' blocks'] eqn:Hb'.
        injection Hv as <- <-. injection Hb as <- <-.
        destruct (IHl w' w1' w2' items' blocks' Hv' Hb' Hsl) as (-> & Hread & Hok).
        split; [done|]. split; [simpl; by rewrite Hr, Hread|]. intros levels. simpl. by rewrite Ho, Hok. }
    split; [done|]. split; [cbn; by rewrite Hread|]. intros [|levels]; [done|]. cbn.
    destruct (String.eqb i ""); [done|]. cbn. by rewrite check_all_ok, Hok.
Qed.

Lemma blocks_read_back l : Forall sized l → ∀ w,
  (blocks_to_values save_inline_image w l).1 = (stored_blocks w l).1 ∧
  map (value_to_content_block print_json) (blocks_to_values save_inline_image w l).2 = (stored_blocks w l).2 ∧
  ∀ levels, is_ok (check_all (validate_context_block levels) (blocks_to_values save_inline_image w l).2)
            = forallb (restorable_block levels) (stored_blocks w l).2.
Proof.
  induction l as [|b l IH]; intros Hs w; [done|]. apply Forall_cons in Hs as [Hb Hl]. simpl.
  destruct (block_read_back b Hb w) as [Hw [Hr Ho]].
  destruct (content_block_to_value save_inline_image w b) as [w' v], (stored_block w b) as [w'' b']. simpl in *. subst w''.
  destruct (IH Hl w') as (Hw & Hm & Hk).
  destruct (blocks_to_values save_inline_image w' l) as [w1 items], (stored_blocks w' l) as [w2 blocks]. simpl in *. subst w2.
  split; [done|]. split; [by rewrite Hr, Hm|]. intros levels. specialize (Hk levels). specialize (Ho levels).
  destruct (validate_context_block levels v) as [|[]]; simpl in *; [by rewrite <- Ho|]. by rewrite <- Ho, Hk.
Qed.

(** The message the storage keeps. *)
Definition stored_message (w : W) (now : Z) (m : Message) : Message :=
  mkMessage (ms_role m) (stored_blocks w (ms_content m)).2 (Some (default now (ms_timestamp m))).

Lemma role_read_back role : role_of_name (role_to_string role) = Some role ∧ role_from_string (role_to_string role) = role.
Proof. by destruct role. Qed.

(** C32: A stored message is read back as it was, its inline images as their saved
    assets, exactly when its tool calls and assets are named and its nesting is
    within the limit; otherwise the checked reader refuses it and the display
    reader still gives its blocks. *)
Theorem message_round_trip w now m :
  Forall sized (ms_content m) →
  let stored := (from_message save_inline_image w now m).2 in
  to_message print_json stored = stored_message w now m ∧
  match try_to_message print_json stored with
  | inr m' => forallb (restorable_block CONTEXT_DEPTH) (ms_content m') = true ∧ m' = stored_message w now m
  | inl _ => forallb (restorable_block CONTEXT_DEPTH) (ms_content (stored_message w now m)) = false
  end.
Proof.
  intros Hs. unfold from_message, stored_message. destruct (blocks_read_back _ Hs w) as (_ & Hm & Hk).
  specialize (Hk CONTEXT_DEPTH). destruct (role_read_back (ms_role m)) as [Hn Hf].
  destruct (blocks_to_values save_inline_image w (ms_content m)) as [w' items].
  cbn [fst snd] in *. unfold try_to_message, to_message. cbn [tm_role tm_content tm_timestamp ms_content].
  rewrite Hn, Hf, Hm. split; [done|]. destruct (check_all _ items) as [|[]]; cbn -[restorable_block] in *; by rewrite <- Hk.
Qed.

(** What can be restored is stored as it is. *)
Lemma restorable_stored b : ∀ levels w, restorable_block levels b = true → stored_block w b = (w, b).
Proof.
  induction b as [t|d m|a|i n v|i l e IH] using ContentBlock_ind'; intros [|levels] w; try done.
  simpl. intros [_ Hl]%andb_true_iff.
  assert (∀ w, (fix go (w : W) (l : list ContentBlock) : W * list ContentBlock :=
           match l with
           | [] => (w, [])
           | b :: l => let '(w, b) := stored_block w b in let '(w, l) := go w l in (w, b :: l)
           end) w l = (w, l)) as Hgo; [|by rewrite Hgo].
  induction IH as [|b l Hb _ IHl]; intros w'; [done|]. apply andb_true_iff in Hl as [Hb' Hl'].
  rewrite (Hb levels w' Hb'). by rewrite IHl.
Qed.

Lemma restorable_stored_list l w : forallb (restorable_block CONTEXT_DEPTH) l = true → stored_blocks w l = (w, l).
Proof.
  induction l as [|b l IH]; [done|]. intros [Hb Hl]%andb_true_iff. cbn [stored_blocks].
  rewrite (restorable_stored b _ w Hb). by rewrite IH.
Qed.

(** A message of a live history that the storage keeps word for word. *)
Record lossless (m : Message) : Prop := {
  ls_time : is_Some (ms_timestamp m);
  ls_sized : Forall sized (ms_content m);
  ls_restorable : forallb (restorable_block CONTEXT_DEPTH) (ms_content m) = true
}.

Lemma lossless_round_trip w now m :
  lossless m → try_to_message print_json (from_message save_inline_image w now m).2 = inr m.
Proof.
  intros [[ts Hts] Hs Hr]. destruct (blocks_read_back _ Hs w) as (_ & Hm & Hk). specialize (Hk CONTEXT_DEPTH).
  rewrite (restorable_stored_list _ w Hr) in Hm, Hk. destruct (role_read_back (ms_role m)) as [Hn _].
  unfold from_message. destruct (blocks_to_values save_inline_image w (ms_content m)) as [w' items].
  cbn [fst snd] in *. unfold try_to_message, to_message. cbn [tm_role tm_content tm_timestamp].
  rewrite Hn, Hm. rewrite Hr in Hk. destruct (check_all _ items) as [|[]]; [done|]. simpl. rewrite Hts. by destruct m; simpl in *; subst.
Qed.
End storing.


(* ------------------------------------------------------------------ *)
(** ** Titles carry no marker *)

Section markers.
  Context {tables : CharTables} {letters : Letters}.

Definition bytes (l : list (Z * string)) : nat := String.length (unchars l).

Lemma bytes_cons c l : bytes (c :: l) = (String.length c.2 + bytes l)%nat.
Proof. unfold bytes, unchars. simpl map. by rewrite concat_empty_cons, append_length. Qed.

Lemma bytes_app l r : bytes (l ++ r) = (bytes l + bytes r)%nat.
Proof. induction l as [|c l IH]; [done|]. simpl. rewrite !bytes_cons, IH. lia. Qed.

Lemma bytes_rev l : bytes (rev l) = bytes l.
Proof. induction l as [|c l IH]; [done|]. simpl. rewrite bytes_app, !bytes_cons, IH. unfold bytes at 2. simpl. lia. Qed.

Lemma bytes_drop_while p l : (bytes (drop_while p l) <= bytes l)%nat.
Proof. induction l as [|c l IH]; simpl; [done|]. destruct (p c); [|done]. rewrite bytes_cons. lia. Qed.

Lemma bytes_chars s : bytes (utf8_chars s) = String.length s.
Proof. unfold bytes. by rewrite unchars_utf8_chars. Qed.

Lemma trims_shorten s : (String.length (trim_start s) <= String.length s)%nat ∧ (String.length (trim_end s) <= String.length s)%nat.
Proof.
  pose proof (bytes_chars s). unfold trim_start, trim_end. split.
  - change (bytes (drop_while (λ c : Z * string, is_whitespace c.1) (utf8_chars s)) <= String.length s)%nat.
    pose proof (bytes_drop_while (λ c : Z * string, is_whitespace c.1) (utf8_chars s)). lia.
  - change (bytes (rev (drop_while (λ c : Z * string, is_whitespace c.1) (rev (utf8_chars s)))) <= String.length s)%nat.
    rewrite bytes_rev. pose proof (bytes_drop_while (λ c : Z * string, is_whitespace c.1) (rev (utf8_chars s))) as Hd.
    rewrite bytes_rev in Hd. lia.
Qed.

Lemma suffix_length s n : String.length (suffix s n) = (String.length s - n)%nat.
Proof. apply substring_rest_length. Qed.

Lemma starts_with_length s p : starts_with s p = true → (String.length p <= String.length s)%nat.
Proof.
  unfold starts_with. revert s. induction p as [|c p IH]; intros [|d s]; simpl; try done; [lia|].
  destruct (Ascii.ascii_dec c d); [|done]. intros H. apply IH in H. lia.
Qed.

Lemma marker_after_bounds label tail n :
  marker_after label tail = Some n → (3 <= n <= S (String.length tail))%nat.
Proof.
  unfold marker_after. destruct (starts_with tail label) eqn:Hl; [|done]. apply starts_with_length in Hl.
  set (rest := suffix tail (String.length label)). set (digits := digit_count rest).
  destruct (Nat.eqb_spec digits 0) as [|Hd]; [done|]. cbn [negb andb].
  destruct (starts_with (suffix rest digits) "}") eqn:Hc; [|done]. intros [= <-]. apply starts_with_length in Hc.
  rewrite suffix_length in Hc. unfold rest in Hc. rewrite suffix_length in Hc. simpl in Hc. lia.
Qed.

Lemma marker_bounds from text s e :
  marker_from from text = Some (s, e) → (from <= s ∧ s + 3 <= e ∧ e <= from + String.length text)%nat.
Proof.
  revert from. induction text as [|c text IH]; intros from; [done|]. cbn [marker_from String.length].
  destruct (Ascii.eqb c open_brace).
  - destruct (find_map _ _) as [n|] eqn:Hn.
    + intros [= <- <-]. apply find_map_Some in Hn as (label & _ & H%marker_after_bounds). lia.
    + intros H. apply IH in H. lia.
  - intros H. apply IH in H. lia.
Qed.

Lemma strip_marker_shorter text marker :
  find_context_marker text = Some marker → (String.length (strip_marker text marker) < String.length text)%nat.
Proof.
  destruct marker as [start finish]. unfold find_context_marker. intros H. apply marker_bounds in H.
  unfold strip_marker. rewrite !append_length.
  destruct (trims_shorten (String.substring 0 start text)) as [_ Hl]. rewrite substring_length in Hl.
  destruct (trims_shorten (suffix text finish)) as [Hr _]. rewrite suffix_length in Hr.
  assert (∀ b : bool, (String.length (if b then " " else "") <= 1)%nat) as Hs by (intros []; simpl; lia).
  match goal with |- context [if ?b then " "%string else _] => specialize (Hs b) end. lia.
Qed.

(** The loop that strips markers ends with none left. *)
Lemma strip_ends line title : strip_context_markers line = Some title → find_context_marker title = None.
Proof.
  unfold strip_context_markers. destruct (find_context_marker line) eqn:Hm; [|done]. clear p Hm. intros [= <-].
  assert (∀ fuel text, (String.length text <= fuel)%nat → find_context_marker (strip_markers fuel text) = None) as Hf; [|by apply Hf].
  induction fuel as [|fuel IH]; intros text Hl; cbn [strip_markers].
  - destruct text; [done|simpl in Hl; lia].
  - destruct (find_context_marker text) as [marker|] eqn:Hm; [|done]. apply IH.
    apply strip_marker_shorter in Hm. lia.
Qed.
End markers.

(** A disk that saves every image under one name. *)
Definition ex_save_image (w : nat) (data : list Byte.byte) (media_type : string) : nat * option ImageAsset :=
  (S w, Some (mkImageAsset "inline_1" "/assets/inline_1.png" media_type (Z.of_nat (length data) `mod` 2 ^ 64))).

Definition ex_message : Message :=
  mkMessage RoleUser
    [BlockText "see"; BlockImage [Byte.x01; Byte.x02] "image/png"; BlockToolResult "c1" [BlockText "out"] true]%string (Some 7).

Lemma message_round_trip_witness :
  try_to_message (λ _, ""%string) (from_message ex_save_image 0%nat 9 ex_message).2
    = inr (mkMessage RoleUser
             [BlockText "see"; BlockImageAsset (mkImageAsset "inline_1" "/assets/inline_1.png" "image/png" 2);
              BlockToolResult "c1" [BlockText "out"] true]%string (Some 7)).
Proof.
  assert (∀ w d m a, (ex_save_image w d m).2 = Some a → is_u64 (ia_size_bytes a)) as Hs.
  { intros w d m a [= <-]. simpl. unfold is_u64, u64_max. pose proof (Z.mod_pos_bound (Z.of_nat (length d)) (2 ^ 64)). lia. }
  assert (Forall sized (ms_content ex_message)) as Hm by by repeat constructor.
  destruct (message_round_trip ex_save_image Hs (λ _, ""%string) 0%nat 9 ex_message Hm) as [_ H]. revert H.
  destruct (try_to_message _ _) as [e|m'].
  - intros H. vm_compute in H. discriminate H.
  - intros [_ ->]. vm_compute. reflexivity.
Defined.
