(* ===== verification/ConsultationHistory.v ===== *)
(** ConsultationHistory: whether a stored conversation may be continued
    (core/agent/thread_delivery.rs, [validate_consultation_tool_history]).

    Every tool call is answered, once, before the conversation goes on, and no
    identity is used twice. *)

From S2P Require Import Prelude.
From S2P Require Import Json.
From S2P Require Import AgentTypes.
From S2P Require Import ThreadRecord.
#[local] Open Scope Z_scope.
#[local] Open Scope mach_scope.

Definition is_tool_result (b : ContentBlock) : bool := match b with BlockToolResult _ _ _ => true | _ => false end.
Definition is_control (b : ContentBlock) : bool :=
  match b with BlockToolUse _ _ _ | BlockToolResult _ _ _ => true | _ => false end.

#[global] Instance Role_eq_dec : EqDecision Role.
Proof. solve_decision. Defined.

(** The identities used, and those still to be answered. *)
Record Causality := mkCausality { ca_seen : gset string; ca_pending : gset string }.

Definition answer_block (pending : gset string) (b : ContentBlock) : string + gset string :=
  match b with
  | BlockToolResult tool_use_id content _ =>
      if negb (bool_decide (tool_use_id ∈ pending))
      then inl "Consultation tool result has no unmatched prior invocation"%string
      else if existsb is_control content then inl "Consultation tool payload contains nested control blocks"%string
      else inr (pending ∖ {[ tool_use_id ]})
  | _ => inl "Consultation tool results are mixed with unrelated content"%string
  end.

Definition invoke_block (role : Role) (c : Causality) (b : ContentBlock) : string + Causality :=
  match b with
  | BlockToolUse id _ _ =>
      if negb (bool_decide (role = RoleAssistant)) then inl "Consultation tool invocation has the wrong role"%string
      else if bool_decide (id ∈ ca_seen c) then inl "Consultation reuses a tool invocation identity"%string
      else inr (mkCausality ({[ id ]} ∪ ca_seen c) ({[ id ]} ∪ ca_pending c))
  | _ => inr c
  end.

(** A [for] loop that may return early. *)
Fixpoint each {A S} (f : S → A → string + S) (s : S) (l : list A) : string + S :=
  match l with
  | [] => inr s
  | x :: rest => let? s := f s x in each f s rest
  end.

Definition has_results (m : Message) : bool := existsb is_tool_result (ms_content m).

Definition check_message (c : Causality) (m : Message) : string + Causality :=
  if has_results m
  then
    if negb (bool_decide (ms_role m = RoleUser)) then inl "Consultation tool result has the wrong role"%string
    else let? pending := each answer_block (ca_pending c) (ms_content m) in inr (mkCausality (ca_seen c) pending)
  else if negb (bool_decide (ca_pending c = ∅))
  then inl "Consultation continues before prior tool results are complete"%string
  else each (invoke_block (ms_role m)) c (ms_content m).

Definition validate_consultation_tool_history (messages : list Message) : string + unit :=
  let? c := each check_message (mkCausality ∅ ∅) messages in
  ensure (bool_decide (ca_pending c = ∅)) "Completed consultation has unresolved tool calls".

(* ------------------------------------------------------------------ *)
(** ** What the providers put into a history (app/agent/mod.rs) *)

(** [now] is the clock [Message::new] reads. *)
Definition user_tool_result (now : Z) (call_id : string) (content : list ContentBlock) (is_error : bool) : Message :=
  mkMessage RoleUser [BlockToolResult call_id content is_error] (Some now).

Definition image_block (data : list Byte.byte) (media_type : string) : ContentBlock := BlockImage data media_type.
