(* ===== verification/ConsultationHistoryFacts.v ===== *)
(** ConsultationHistoryFacts: the histories that may be continued are those
    made of whole tool rounds, and an agent turn only ever appends such. *)

From S2P Require Import Prelude.
From S2P Require Import Json.
From S2P Require Import AgentGate.
From S2P Require Import AgentTypes.
From S2P Require Import AgentTurn.
From S2P Require Import AgentTurnFacts.
From S2P Require Import ThreadRecord.
From S2P Require Import ConsultationHistory.
#[local] Open Scope Z_scope.
#[local] Open Scope mach_scope.

(* ------------------------------------------------------------------ *)
(** ** The grammar of histories *)

Definition use_id (b : ContentBlock) : option string := match b with BlockToolUse id _ _ => Some id | _ => None end.
Definition uses (m : Message) : list string := omap use_id (ms_content m).
Definition use_ids (l : list Message) : list string := concat (map uses l).

Definition result_id (b : ContentBlock) : option string := match b with BlockToolResult id _ _ => Some id | _ => None end.
Definition answered (m : Message) : list string := omap result_id (ms_content m).

(** Results and nothing else, none of them holding calls. *)
Definition plain_result (b : ContentBlock) : bool :=
  match b with BlockToolResult _ content _ => negb (existsb is_control content) | _ => false end.

Definition result_message (m : Message) : Prop :=
  has_results m = true ∧ ms_role m = RoleUser ∧ forallb plain_result (ms_content m) = true.

Definition plain_message (m : Message) : Prop := has_results m = false ∧ uses m = [].

(** Whole rounds: the calls of one message under new identities, then messages
    of results that answer each of them once, in any order. *)
Inductive causal : gset string → list Message → Prop :=
  | causal_nil seen : causal seen []
  | causal_plain seen m rest : plain_message m → causal seen rest → causal seen (m :: rest)
  | causal_round seen m results rest :
      has_results m = false → ms_role m = RoleAssistant → uses m ≠ [] → NoDup (uses m) →
      (∀ id, id ∈ uses m → id ∉ seen) →
      Forall result_message results → concat (map answered results) ≡ₚ uses m →
      causal (list_to_set (uses m) ∪ seen) rest →
      causal seen (m :: results ++ rest).

(* ------------------------------------------------------------------ *)
(** ** The check *)

Lemma each_app {A S} (f : S → A → string + S) s l r :
  each f s (l ++ r) = let? s := each f s l in each f s r.
Proof. revert s. induction l as [|x l IH]; intros s; simpl; [done|]. destruct (f s x); [done|]. apply IH. Qed.

Lemma each_invoke role c blocks c' :
  each (invoke_block role) c blocks = inr c' ↔
  (omap use_id blocks ≠ [] → role = RoleAssistant) ∧ NoDup (omap use_id blocks) ∧
  (∀ id, id ∈ omap use_id blocks → id ∉ ca_seen c) ∧
  c' = mkCausality (list_to_set (omap use_id blocks) ∪ ca_seen c) (list_to_set (omap use_id blocks) ∪ ca_pending c).
Proof.
  revert c. induction blocks as [|b blocks IH]; intros [seen pending]; simpl.
  { rewrite !(left_id_L ∅ (∪)). split; [intros [= <-]|intros (_ & _ & _ & ->); done].
    split; [done|]. split; [constructor|]. split; [|done]. intros id Hid. by apply not_elem_of_nil in Hid. }
  destruct b as [t|d m|a|id n v|i l e]; simpl; try apply IH.
  destruct (bool_decide_reflect (role = RoleAssistant)) as [Hr|Hr]; simpl; [|split; [done|]; intros (H & _); by destruct Hr; apply H].
  destruct (bool_decide_reflect (id ∈ seen)) as [Hin|Hin]; simpl.
  { split; [done|]. intros (_ & _ & H & _). exfalso. apply (H id); [by left|done]. }
  rewrite IH. simpl. rewrite NoDup_cons. setoid_rewrite elem_of_cons. split.
  - intros (_ & Hnd & Hnew & ->). split; [done|]. split; [|split].
    + split; [|done]. intros Hid. apply Hnew in Hid. set_solver.
    + intros id' [->|Hid]; [done|]. apply Hnew in Hid. set_solver.
    + f_equal; set_solver.
  - intros (_ & [Hid Hnd] & Hnew & ->). split; [done|]. split; [done|]. split.
    + intros id' Hid'. apply not_elem_of_union. split; [|by apply Hnew; right]. set_solver.
    + f_equal; set_solver.
Qed.

Lemma each_answer pending blocks pending' :
  each answer_block pending blocks = inr pending' ↔
  forallb plain_result blocks = true ∧ NoDup (omap result_id blocks) ∧
  (∀ id, id ∈ omap result_id blocks → id ∈ pending) ∧ pending' = pending ∖ list_to_set (omap result_id blocks).
Proof.
  revert pending. induction blocks as [|b blocks IH]; intros pending; simpl.
  { split; [intros [= <-]|intros (_ & _ & _ & ->); f_equal; set_solver].
    split; [done|]. split; [constructor|]. split; [intros id Hid; by apply not_elem_of_nil in Hid|set_solver]. }
  destruct b as [t|d m|a|id n v|id l e]; simpl; try (split; [done|by intros [? _]]).
  destruct (bool_decide_reflect (id ∈ pending)) as [Hin|Hin]; simpl; last first.
  { split; [done|]. intros (_ & _ & H & _). exfalso. apply Hin, H. by left. }
  destruct (existsb is_control l); simpl; [split; [done|by intros [? _]]|].
  rewrite IH, NoDup_cons. setoid_rewrite elem_of_cons. split.
  - intros (Hp & Hnd & Hin' & ->). split; [done|]. split; [split; [|done]|split].
    + intros Hid. apply Hin' in Hid. set_solver.
    + intros id' [->|Hid]; [done|]. apply Hin' in Hid. set_solver.
    + set_solver.
  - intros (Hp & [Hid Hnd] & Hin' & ->). split; [done|]. split; [done|]. split; [|set_solver].
    intros id' Hid'. apply elem_of_difference. split; [by apply Hin'; right|]. set_solver.
Qed.

(** From a state with answers owed: result messages that give them, then a
    history on its own. *)
Definition continues_from (c : Causality) (l : list Message) : Prop :=
  ∃ results rest, l = results ++ rest ∧ Forall result_message results ∧
    NoDup (concat (map answered results)) ∧ list_to_set (concat (map answered results)) = ca_pending c ∧
    causal (ca_seen c) rest.

Lemma answered_nonempty m : result_message m → answered m ≠ [].
Proof.
  intros (Hr & _ & _). unfold has_results, answered in *. induction (ms_content m) as [|b l IH]; simpl in *; [done|].
  destruct b; simpl in *; try (by apply IH). done.
Qed.

Lemma no_pending_continues seen l : continues_from (mkCausality seen ∅) l ↔ causal seen l.
Proof.
  split.
  - intros ([|m results] & rest & -> & Hall & _ & Hset & Hc); [done|]. exfalso. simpl in Hset.
    apply Forall_cons in Hall as [Hm _]. apply answered_nonempty in Hm.
    destruct (answered m) as [|id ids]; [done|]. simpl in Hset. set_solver.
  - intros Hc. exists [], l. split; [done|]. split; [done|]. split; [constructor|]. done.
Qed.

Definition ends_answered (r : string + Causality) : bool :=
  match r with inr c => bool_decide (ca_pending c = ∅) | inl _ => false end.

Lemma check_result_message seen pending m c' :
  has_results m = true →
  check_message (mkCausality seen pending) m = inr c' ↔
  result_message m ∧ NoDup (answered m) ∧ (∀ id, id ∈ answered m → id ∈ pending) ∧
  c' = mkCausality seen (pending ∖ list_to_set (answered m)).
Proof.
  intros Hr. unfold check_message, result_message. rewrite Hr. simpl.
  destruct (bool_decide_reflect (ms_role m = RoleUser)) as [Hu|Hu]; simpl; [|split; [done|by intros [(_ & ? & _) _]]].
  transitivity (∃ p, each answer_block pending (ms_content m) = inr p ∧ c' = mkCausality seen p).
  { destruct (each _ _ _) as [e|p]; [by split; [|intros (p & ? & _)]|]. split; [by intros [= <-]; exists p|].
    by intros (p' & [= <-] & ->). }
  split.
  - intros (p & (Hp & Hnd & Hin & ->)%each_answer & ->). done.
  - intros ((_ & _ & Hp) & Hnd & Hin & ->). eexists. by rewrite each_answer.
Qed.

Lemma check_other_message seen pending m c' :
  has_results m = false →
  check_message (mkCausality seen pending) m = inr c' ↔
  pending = ∅ ∧ (uses m ≠ [] → ms_role m = RoleAssistant) ∧ NoDup (uses m) ∧
  (∀ id, id ∈ uses m → id ∉ seen) ∧
  c' = mkCausality (list_to_set (uses m) ∪ seen) (list_to_set (uses m)).
Proof.
  intros Hr. unfold check_message. rewrite Hr. simpl.
  destruct (bool_decide_reflect (pending = ∅)) as [->|Hp]; simpl; [|split; [done|by intros [? _]]].
  rewrite each_invoke. simpl. rewrite (right_id_L ∅ (∪)). unfold uses. tauto.
Qed.

Lemma has_results_not_causal seen m l : has_results m = true → ¬ causal seen (m :: l).
Proof. intros Hr Hc. inversion Hc; subst; unfold plain_message in *; naive_solver congruence. Qed.

Lemma continues_result seen pending m l :
  has_results m = true →
  continues_from (mkCausality seen pending) (m :: l) ↔
  result_message m ∧ NoDup (answered m) ∧ (∀ id, id ∈ answered m → id ∈ pending) ∧
  continues_from (mkCausality seen (pending ∖ list_to_set (answered m))) l.
Proof.
  intros Hr. split.
  - intros ([|m' results] & rest & Heq & Hall & Hnd & Hset & Hc); simpl in *.
    { subst rest. by apply has_results_not_causal in Hc. }
    injection Heq as <- ->. apply Forall_cons in Hall as [Hm Hall]. apply NoDup_app in Hnd as (Hm1 & Hdis & Hnd).
    subst pending. rewrite list_to_set_app_L. split; [done|]. split; [done|]. split; [set_solver|].
    exists results, rest. split; [done|]. split; [done|]. split; [done|]. split; [|done]. simpl. set_solver.
  - intros (Hm & Hm1 & Hin & results & rest & -> & Hall & Hnd & Hset & Hc). simpl in *.
    exists (m :: results), rest. split; [done|]. split; [by constructor|]. split; [|split; [|done]]; simpl.
    + apply NoDup_app. split; [done|]. split; [|done]. intros id H1 H2.
      assert (id ∈ list_to_set (C := gset string) (concat (map answered results))) as H by set_solver. set_solver.
    + rewrite list_to_set_app_L, Hset. apply leibniz_equiv. intros id.
      rewrite elem_of_union, elem_of_difference, elem_of_list_to_set.
      destruct (bool_decide_reflect (id ∈ answered m)); naive_solver.
Qed.

Lemma continues_other seen pending m l :
  has_results m = false →
  continues_from (mkCausality seen pending) (m :: l) ↔
  pending = ∅ ∧ (uses m ≠ [] → ms_role m = RoleAssistant) ∧ NoDup (uses m) ∧ (∀ id, id ∈ uses m → id ∉ seen) ∧
  continues_from (mkCausality (list_to_set (uses m) ∪ seen) (list_to_set (uses m))) l.
Proof.
  intros Hr. split.
  - intros ([|m' results] & rest & Heq & Hall & Hnd & Hset & Hc); simpl in *; last first.
    { injection Heq as <- ->. apply Forall_cons in Hall as [(Hr' & _) _]. congruence. }
    subst rest. split; [done|]. inversion Hc as [|? ? ? [_ Hu]|? ? results rest' _ Hrole Hne Hnd' Hnew Hres Hperm Hrest]; subst.
    + rewrite Hu. split; [done|]. split; [constructor|]. split; [intros id Hid; by apply not_elem_of_nil in Hid|].
      simpl. rewrite (left_id_L ∅ (∪)). by apply no_pending_continues.
    + split; [done|]. split; [done|]. split; [done|]. exists results, rest'. split; [done|]. split; [done|].
      split; [by rewrite Hperm|]. split; [|done]. simpl. by rewrite Hperm.
  - intros (-> & Hrole & Hnd & Hnew & Hc). apply no_pending_continues. destruct (uses m) as [|id ids] eqn:Hu.
    { simpl in Hc. rewrite (left_id_L ∅ (∪)) in Hc. apply no_pending_continues in Hc. by constructor. }
    destruct Hc as (results & rest & -> & Hall & Hnd' & Hset & Hc). simpl in Hset, Hc.
    constructor; rewrite ?Hu; try done; [by apply Hrole|].
    apply NoDup_Permutation; [done|done|]. intros x. change (_ ∪ _) with (list_to_set (C := gset string) (id :: ids)) in Hset.
    rewrite <- !(elem_of_list_to_set (C := gset string)). by rewrite Hset.
Qed.

Lemma check_from c l : ends_answered (each check_message c l) = true ↔ continues_from c l.
Proof.
  revert c. induction l as [|m l IH]; intros [seen pending].
  { simpl. rewrite bool_decide_eq_true. split.
    - intros ->. apply no_pending_continues. constructor.
    - intros ([|r results] & rest & Heq & _ & _ & Hset & _); [by simpl in *|done]. }
  transitivity (∃ c, check_message (mkCausality seen pending) m = inr c ∧ ends_answered (each check_message c l) = true).
  { simpl. destruct (check_message _ m) as [e|c]; [split; [done|by intros (? & ? & _)]|].
    split; [by exists c|]. by intros (c' & [= <-] & Hc). }
  destruct (has_results m) eqn:Hr.
  - rewrite continues_result by done. rewrite <- IH. split.
    + intros (c & (Hm & Hnd & Hin & ->)%check_result_message & Hc); done.
    + intros (Hm & Hnd & Hin & Hc). eexists. by rewrite check_result_message.
  - rewrite continues_other by done. rewrite <- IH. split.
    + intros (c & (-> & Hrole & Hnd & Hnew & ->)%check_other_message & Hc); done.
    + intros (-> & Hrole & Hnd & Hnew & Hc). eexists. by rewrite check_other_message.
Qed.

(** C31: A history may be continued exactly when it is made of whole rounds: calls
    of the assistant under identities never used before, then user messages of
    nothing but results that answer each of them once, in any order, before
    anything else is said. *)
Theorem history_check_exact messages :
  validate_consultation_tool_history messages = inr tt ↔ causal ∅ messages.
Proof.
  rewrite <- no_pending_continues, <- check_from. unfold validate_consultation_tool_history, ensure.
  destruct (each _ _ _) as [e|c]; simpl; [done|]. by destruct (bool_decide _).
Qed.

(* ------------------------------------------------------------------ *)
(** ** Putting histories together *)

Lemma use_ids_app l r : use_ids (l ++ r) = use_ids l ++ use_ids r.
Proof. unfold use_ids. by rewrite map_app, concat_app. Qed.

Lemma use_ids_cons m l : use_ids (m :: l) = uses m ++ use_ids l.
Proof. done. Qed.

Lemma result_uses m : result_message m → uses m = [].
Proof.
  intros (_ & _ & Hp). unfold uses. induction (ms_content m) as [|b l IH]; simpl in *; [done|].
  apply andb_true_iff in Hp as [Hb Hl]. by destruct b; [..|apply IH].
Qed.

Lemma results_uses l : Forall result_message l → use_ids l = [].
Proof.
  induction l as [|m l IH]; intros Hl; [done|]. apply Forall_cons in Hl as [Hm Hl].
  by rewrite use_ids_cons, result_uses, IH.
Qed.

Lemma causal_use_ids seen l : causal seen l → NoDup (use_ids l) ∧ ∀ id, id ∈ use_ids l → id ∉ seen.
Proof.
  induction 1 as [seen|seen m rest [_ Hu] _ IH|seen m results rest _ _ _ Hnd Hnew Hres _ _ [IHn IHs]].
  - split; [constructor|]. intros id Hid. by apply not_elem_of_nil in Hid.
  - by rewrite use_ids_cons, Hu.
  - rewrite use_ids_cons, use_ids_app, (results_uses results) by done. simpl. split.
    + apply NoDup_app. split; [done|]. split; [|done]. intros id H1 H2. apply IHs in H2. set_solver.
    + intros id [H|H]%elem_of_app; [by apply Hnew|]. apply IHs in H. set_solver.
Qed.

Lemma causal_app seen l r : causal seen l → causal (list_to_set (use_ids l) ∪ seen) r → causal seen (l ++ r).
Proof.
  induction 1 as [seen|seen m rest [Hr Hu] _ IH|seen m results rest Hr Hrole Hne Hnd Hnew Hres Hperm Hc IH]; intros Hcr.
  - simpl in *. by rewrite (left_id_L ∅ (∪)) in Hcr.
  - rewrite use_ids_cons, Hu in Hcr. simpl. constructor; [done|]. by apply IH.
  - rewrite use_ids_cons, use_ids_app, (results_uses results) in Hcr by done. simpl in *.
    rewrite <- app_assoc. apply causal_round; try done. apply IH.
    rewrite list_to_set_app_L in Hcr. by replace (list_to_set (use_ids rest) ∪ (list_to_set (uses m) ∪ seen))
      with (list_to_set (C := gset string) (uses m) ∪ list_to_set (use_ids rest) ∪ seen) by set_solver.
Qed.

Lemma causal_plain_list seen l : Forall plain_message l → causal seen l.
Proof. induction 1; by constructor. Qed.

(* ------------------------------------------------------------------ *)
(** ** What an agent turn appends *)

Section turns.
  Context {W : Type} {machine : Machine W}.

(** A provider that builds its blocks as the repository's providers do. *)
Definition builds_as_ours (provider : AgentProvider W) : Prop :=
  (∀ w id blocks e, ∃ now, pv_build_tool_result provider w id blocks e = user_tool_result now id blocks e) ∧
  ∀ d m, pv_build_image_block provider d m = image_block d m.

Lemma plain_text l : assistant_part l → Forall plain_message l.
Proof. intros [->|(t & ts & -> & _)]; repeat constructor. Qed.

Lemma plain_use_ids l : Forall plain_message l → use_ids l = [].
Proof. induction 1 as [|m l [_ Hu] _ IH]; [done|]. by rewrite use_ids_cons, Hu, IH. Qed.

Lemma uses_of_calls ts calls : uses (mkMessage RoleAssistant (map tool_use_block calls) ts) = map call_id_of calls.
Proof.
  unfold uses. cbn [ms_content]. induction calls as [|[[i n] v] calls IH]; [done|].
  change (i :: omap use_id (map tool_use_block calls) = i :: map call_id_of calls). by rewrite IH.
Qed.

Lemma calls_have_no_results ts calls : has_results (mkMessage RoleAssistant (map tool_use_block calls) ts) = false.
Proof. unfold has_results. simpl. induction calls as [|[[i n] v] calls IH]; [done|]. simpl. by rewrite IH. Qed.

Lemma answers_results s calls results :
  builds_as_ours (as_provider s) → answers s calls results →
  Forall result_message results ∧ concat (map answered results) = map call_id_of calls.
Proof.
  intros [Hb _]. induction 1 as [|call m calls results (w & blocks & e & Hf & ->) _ [IHr IHa]]; [done|].
  destruct (Hb w (call_id_of call) blocks e) as [now ->]. split.
  - constructor; [|done]. repeat split. simpl. rewrite andb_true_r. apply negb_true_iff.
    clear - Hf. induction blocks as [|b blocks IH]; [done|]. simpl in *. apply andb_true_iff in Hf as [Hb Hf].
    rewrite IH by done. by destruct b.
  - simpl. by rewrite IHa.
Qed.

Lemma tool_round_causal s l seen :
  builds_as_ours (as_provider s) → tool_round s l → (∀ id, id ∈ use_ids l → id ∉ seen) → causal seen l.
Proof.
  intros Hb (text & calls & ts & results & Ht & Hne & Hnd & -> & Hans) Hnew.
  destruct (answers_results s calls results Hb Hans) as [Hres Hids].
  apply causal_app; [by apply causal_plain_list, plain_text|].
  rewrite use_ids_app, (plain_use_ids text) in * by (by apply plain_text). simpl in *. rewrite (left_id_L ∅ (∪)).
  rewrite use_ids_cons, uses_of_calls, (results_uses results), app_nil_r in Hnew by done.
  rewrite <- (app_nil_r results).
  apply causal_round; rewrite ?uses_of_calls; try done.
  - apply calls_have_no_results.
  - by destruct calls.
  - by rewrite Hids.
  - constructor.
Qed.

Lemma rounds_causal s rounds tail seen :
  builds_as_ours (as_provider s) → Forall (tool_round s) rounds → assistant_part tail →
  NoDup (use_ids (concat rounds ++ tail)) → (∀ id, id ∈ use_ids (concat rounds ++ tail) → id ∉ seen) →
  causal seen (concat rounds ++ tail).
Proof.
  intros Hb Hr Ht. revert seen. induction Hr as [|l rounds Hl _ IH]; intros seen Hnd Hnew; simpl in *.
  { by apply causal_plain_list, plain_text. }
  rewrite <- app_assoc in *. rewrite use_ids_app in Hnd, Hnew. apply NoDup_app in Hnd as (_ & Hdis & Hnd).
  apply causal_app.
  - apply (tool_round_causal s); [done|done|]. intros id Hid. apply Hnew. apply elem_of_app. by left.
  - apply IH; [done|]. intros id Hid [Hs|Hs]%elem_of_union.
    + apply elem_of_list_to_set in Hs. by apply (Hdis id).
    + apply (Hnew id); [|done]. apply elem_of_app. by right.
Qed.

Lemma user_content_plain s text attachments ts :
  builds_as_ours (as_provider s) → plain_message (mkMessage RoleUser (user_content s text attachments) ts).
Proof.
  intros [_ Hi]. unfold plain_message, has_results, uses, user_content. simpl.
  induction attachments as [|a l IH]; [done|]. simpl. by rewrite Hi.
Qed.

(** C27: A turn on a conversation that may be continued leaves one, whether it
    ends well or fails, exactly when no tool call identity of the conversation
    is used twice. *)
Theorem turn_keeps_history s user_text attachments options s' r :
  builds_as_ours (as_provider s) →
  validate_consultation_tool_history (as_messages s) = inr tt →
  send s user_text attachments options = (s', r) →
  validate_consultation_tool_history (as_messages s') = inr tt ↔ NoDup (use_ids (as_messages s')).
Proof.
  intros Hb Hs Hsend. rewrite history_check_exact in Hs. rewrite history_check_exact.
  destruct (turn_history s user_text attachments options s' r Hsend) as (ts & rounds & tail & -> & Hr & Ht & _).
  split; [by intros [? _]%causal_use_ids|].
  pose proof (user_content_plain s user_text attachments ts Hb) as Hu.
  rewrite use_ids_app, use_ids_cons. destruct Hu as [Hu1 Hu2]. rewrite Hu2. simpl. intros Hnd.
  apply NoDup_app in Hnd as (_ & Hdis & Hnd). apply causal_app; [done|]. constructor; [done|].
  apply (rounds_causal s); [done..|]. intros id Hid Hin. rewrite (right_id_L ∅ (∪)), elem_of_list_to_set in Hin.
  by apply (Hdis id).
Qed.
End turns.

(* ------------------------------------------------------------------ *)
(** ** Concrete turns *)

(** The provider of the examples, building its blocks as the repository's do;
    it asks for one tool in each of its first [asks] answers. *)
Definition ex_ours (asks : nat) (name : nat → string) : AgentProvider ExWorld :=
  {| pv_name := "model";
     pv_stream w _ _ _ :=
       (mkExWorld (S (ex_streams w)) (ex_runs w),
        inr (if (ex_streams w <? asks)%nat
             then [EvToolCallReady (name (ex_streams w)) "look" VNull; EvResponseDone (Some "r") true]
             else [EvTextDone "done"; EvResponseDone (Some "r") true])%string);
     pv_build_tool_result w := user_tool_result 3;
     pv_build_image_block := image_block;
     pv_response_chain_id _ := None;
     pv_restore_response_chain w _ := w |}.

Definition ex_ours_session (asks : nat) (name : nat → string) : AgentSession ExWorld :=
  session_new (ex_ours asks name) (registry_new <| tr_tools := {[ "look"%string := ex_look ]} |>) None "s1" (mkExWorld 0 0).

Definition ex_ours_turn (asks : nat) (name : nat → string) : AgentSession ExWorld * (string + unit) :=
  send (ex_ours_session asks name) "hello" [] ex_options.

(** A provider that gives two calls one identity ends its turn well, and its
    conversation can never be continued again. *)
Example repeated_identity_refused :
  let turn := ex_ours_turn 2 (λ _, "c1"%string) in
  turn.2 = inr tt ∧
  validate_consultation_tool_history (as_messages turn.1) = inl "Consultation reuses a tool invocation identity"%string.
Proof. vm_compute. done. Qed.

Lemma turn_keeps_history_witness :
  let turn := ex_ours_turn 2 (λ k, if (k =? 0)%nat then "c1" else "c2")%string in
  turn.2 = inr tt ∧ use_ids (as_messages turn.1) = ["c1"; "c2"]%string ∧
  validate_consultation_tool_history (as_messages turn.1) = inr tt.
Proof.
  intros turn. split; [vm_compute; reflexivity|]. split; [vm_compute; reflexivity|].
  apply (turn_keeps_history (ex_ours_session 2 (λ k, if (k =? 0)%nat then "c1" else "c2")%string) "hello" [] ex_options turn.1 turn.2).
  - split; [|done]. intros w id blocks e. by exists 3.
  - vm_compute. reflexivity.
  - apply surjective_pairing.
  - apply (bool_decide_unpack _). vm_compute. exact I.
Defined.
