(* ===== verification/ThreadIndex.v ===== *)
(** ThreadIndex: the rows that list and search stored threads
    (core/agent/thread_index.rs, core/agent/conversation_search.rs).

    A row is derived from the thread file, but for its favourite flag, which
    lives only here.  Grapheme clusters, of the crate unicode-segmentation, are
    the class [Graphemes]. *)

From S2P Require Import Prelude.
From S2P Require Import Text.
From S2P Require Import BTree.
From S2P Require Import Json.
From S2P Require Import JsonFields.
From S2P Require Import GroupAlignment.
From S2P Require Import ThreadRecord.
#[local] Open Scope Z_scope.
#[local] Open Scope mach_scope.

Definition INDEX_VERSION : Z := 4.

Record ThreadSummary := mkSummary {
  su_id : string;
  su_title : string;
  su_created_at : Z;
  su_updated_at : Z;
  su_message_count : Z;
  su_mode : string;
  su_tags : list string;
  su_summary : option string;
  su_has_notes : bool;
  su_latest_message : option string;
  su_latest_note : option string;
  su_search_text : string;
  su_is_favorite : bool;
  su_model : option string;
  su_total_tokens : option Z
}.

Record ThreadIndexData := mkIndexData { ix_version : Z; ix_threads : list ThreadSummary }.

Definition index_default : ThreadIndexData := mkIndexData INDEX_VERSION [].

(* ------------------------------------------------------------------ *)
(** ** Search text *)

(** The UTF-8 encoding of a scalar value. *)
Definition byte (z : Z) : string := str1 (Ascii.ascii_of_N (Z.to_N z)).

Definition utf8_char (c : Z) : string :=
  if c <? 128 then byte c
  else if c <? 2048 then (byte (192 + c `div` 64) +:+ byte (128 + c `mod` 64))%string
  else if c <? 65536
  then (byte (224 + c `div` 4096) +:+ byte (128 + (c `div` 64) `mod` 64) +:+ byte (128 + c `mod` 64))%string
  else (byte (240 + c `div` 262144) +:+ byte (128 + (c `div` 4096) `mod` 64) +:+ byte (128 + (c `div` 64) `mod` 64)
        +:+ byte (128 + c `mod` 64))%string.

Definition utf8_encode (l : list Z) : string := String.concat "" (map utf8_char l).

(** [grapheme_indices(true)], as the clusters in order. *)
Class Graphemes := graphemes : string → list string.

Section search.
Context {tables : CharTables}.

Definition normalize_search_text (value : string) : string :=
  utf8_encode (to_lowercase (chars (join_space (split_whitespace value)))).

Definition query_terms (query : string) : list string :=
  List.filter (λ part, negb (String.eqb part "")) (split_whitespace (normalize_search_text query)).

Definition query_matches (haystack query : string) : bool :=
  let terms := query_terms query in
  match terms with
  | [] => true
  | _ => forallb (contains (normalize_search_text haystack)) terms
  end.

Definition normalize_snippet (value : string) : string := normalize_search_text value.
End search.

Section rows.
Context {tables : CharTables} {clusters : Graphemes}.

(** The clusters that fit, counted in bytes; the walk stops at the first that
    does not. *)
Fixpoint fitting (boundary max_len : Z) (l : list string) : Z :=
  match l with
  | [] => boundary
  | grapheme :: rest =>
      if max_len <? boundary + len grapheme then boundary else fitting (boundary + len grapheme) max_len rest
  end.

Definition grapheme_prefix_len (value : string) (max_len : Z) : Z :=
  if len value <=? max_len then len value else fitting 0 max_len (graphemes value).

Definition MAX_SEARCH_TEXT_BYTES : Z := 16384.

Definition append_search_chunk (out value : string) (max_len : Z) : string :=
  if String.eqb value "" || (max_len <=? len out) then out
  else
    let normalized := normalize_snippet value in
    if String.eqb normalized "" then out
    else
      let separator_len := if String.eqb out "" then 0 else 1 in
      let remaining := sat_sub max_len (len out + separator_len) in
      let prefix_len := grapheme_prefix_len normalized remaining in
      if prefix_len =? 0 then out
      else (out +:+ (if (0 <? separator_len)%Z then " " else "") +:+ String.substring 0 (Z.to_nat prefix_len) normalized)%string.

(** The same walk the titles use. *)
Fixpoint collect_message_text (value : Value) : list string :=
  match value with
  | VString text => readable text
  | VArray items => if forallb is_number items then [] else concat (map collect_message_text items)
  | VObject fields =>
      let text := match get_field value "text" ≫= as_str with Some text => readable text | None => [] end in
      match get_field value "type" ≫= as_str with
      | None => text
      | Some kind =>
          if is_text_kind kind then text
          else if String.eqb kind "tool_result" then on_field collect_message_text [] "content" fields
          else []
      end
  | _ => []
  end.

Definition thread_message_preview_text (m : ThreadMessage) : option string :=
  let normalized := normalize_snippet (join_space (concat (map collect_message_text (tm_content m)))) in
  if String.eqb normalized "" then None else Some normalized.

(** A loop over chunks, left as soon as the text is full. *)
Fixpoint append_chunks (out : string) (l : list (option string)) : string :=
  match l with
  | [] => out
  | chunk :: rest =>
      let out := match chunk with Some text => append_search_chunk out text MAX_SEARCH_TEXT_BYTES | None => out end in
      if MAX_SEARCH_TEXT_BYTES <=? len out then out else append_chunks out rest
  end.

Definition build_search_text (t : Thread) (latest_note latest_message : option string) : string :=
  let push := λ out value, append_search_chunk out value MAX_SEARCH_TEXT_BYTES in
  let push_opt := λ out value, match value with Some value => push out value | None => out end in
  let out := push "" (th_title t) in
  let out := push out (th_mode t) in
  let out := push out (join_space (th_tags t)) in
  let out := push_opt out (th_summary t) in
  let out := push_opt out latest_note in
  let out := push_opt out latest_message in
  let out := append_chunks out (map (λ n, Some (tn_text n)) (th_notes t)) in
  if len out <? MAX_SEARCH_TEXT_BYTES then append_chunks out (map thread_message_preview_text (th_messages t)) else out.

Definition from_thread (t : Thread) (is_favorite : bool) : ThreadSummary :=
  let latest_message := find_map thread_message_preview_text (rev (th_messages t)) in
  let latest_note :=
    List.find (λ note, negb (String.eqb note "")) (map (λ n, normalize_snippet (tn_text n)) (rev (th_notes t))) in
  {| su_id := th_id t; su_title := th_title t; su_created_at := th_created_at t; su_updated_at := th_updated_at t;
     su_message_count := Z.of_nat (length (th_messages t)); su_mode := th_mode t; su_tags := th_tags t;
     su_summary := th_summary t; su_has_notes := negb (bool_decide (th_notes t = [])); su_latest_message := latest_message;
     su_latest_note := latest_note; su_search_text := build_search_text t latest_note latest_message;
     su_is_favorite := is_favorite;
     su_model := if String.eqb (th_model t) "" then None else Some (th_model t);
     su_total_tokens := (λ u, tu_input u +sat tu_output u) <$> th_total_tokens t |}.

Definition searchable_text (s : ThreadSummary) : string :=
  if negb (String.eqb (su_search_text s) "") then su_search_text s
  else
    let out := (normalize_search_text (su_title s) +:+ " " +:+ normalize_search_text (su_mode s) +:+ " ")%string in
    let out := fold_left (λ out tag, (out +:+ normalize_search_text tag +:+ " ")%string) (su_tags s) out in
    match su_summary s with Some summary => (out +:+ normalize_search_text summary)%string | None => out end.

(* ------------------------------------------------------------------ *)
(** ** Rows in order *)

(** Newest first; a row goes behind those as new as it. *)
Fixpoint insert_desc (x : ThreadSummary) (l : list ThreadSummary) : list ThreadSummary :=
  match l with
  | [] => [x]
  | y :: l' => if su_updated_at y <? su_updated_at x then x :: l else y :: insert_desc x l'
  end.

(** A stable sort by [Reverse(updated_at)]. *)
Definition sort_by_updated_desc (entries : list ThreadSummary) : list ThreadSummary :=
  fold_left (λ acc x, insert_desc x acc) entries [].

(** The first row of the thread is replaced; a new one starts unfavoured. *)
Fixpoint upsert_row (t : Thread) (l : list ThreadSummary) : list ThreadSummary :=
  match l with
  | [] => [from_thread t false]
  | s :: l' => if String.eqb (su_id s) (th_id t) then from_thread t (su_is_favorite s) :: l' else s :: upsert_row t l'
  end.

Definition index_add (t : Thread) (d : ThreadIndexData) : ThreadIndexData :=
  d <| ix_threads := sort_by_updated_desc (upsert_row t (ix_threads d)) |>.

Definition index_remove (id : string) (d : ThreadIndexData) : ThreadIndexData :=
  d <| ix_threads ::= List.filter (λ s, negb (String.eqb (su_id s) id)) |>.

Fixpoint favor (id : string) (is_favorite : bool) (l : list ThreadSummary) : list ThreadSummary :=
  match l with
  | [] => []
  | s :: l' => if String.eqb (su_id s) id then (s <| su_is_favorite := is_favorite |>) :: l' else s :: favor id is_favorite l'
  end.

(** [None]: no such row.  Otherwise the index, and whether it has to be saved. *)
Definition index_set_favorite (id : string) (is_favorite : bool) (d : ThreadIndexData) : option (ThreadIndexData * bool) :=
  match List.find (λ s, String.eqb (su_id s) id) (ix_threads d) with
  | None => None
  | Some s =>
      Some (if Bool.eqb (su_is_favorite s) is_favorite then (d, false)
            else (d <| ix_threads ::= favor id is_favorite |>, true))
  end.

Record ThreadFilter := mkFilter {
  tf_mode : option string;
  tf_favorites_only : bool;
  tf_has_notes : bool;
  tf_tag : option string
}.

Definition matches_filter (s : ThreadSummary) (f : ThreadFilter) : bool :=
  match tf_mode f with Some mode => eq_ignore_ascii_case (su_mode s) mode | None => true end
  && negb (tf_favorites_only f && negb (su_is_favorite s))
  && negb (tf_has_notes f && negb (su_has_notes s))
  && match tf_tag f with Some tag => existsb (λ value, eq_ignore_ascii_case value tag) (su_tags s) | None => true end.

Definition index_list (d : ThreadIndexData) (filter : option ThreadFilter) : list ThreadSummary :=
  sort_by_updated_desc
    (List.filter (λ s, match filter with Some f => matches_filter s f | None => true end) (ix_threads d)).

Definition index_search (d : ThreadIndexData) (query : string) : list ThreadSummary :=
  match query_terms query with
  | [] => index_list d None
  | _ => sort_by_updated_desc (List.filter (λ s, query_matches (searchable_text s) query) (ix_threads d))
  end.

(** [t_] in front, [json] behind the last dot; a stem needs a character. *)
Definition is_thread_json_file (name : string) : bool :=
  starts_with name "t_" &&
  match rev (split_char (Ascii.ascii_of_nat 46) name) with
  | extension :: stem :: rest => negb (String.eqb (String.concat "." (rev (stem :: rest))) "") && eq_ignore_ascii_case extension "json"
  | _ => false
  end.

(** The favourite flag of the last row of that name, as the collected map has it. *)
Definition favorite_of (existing : ThreadIndexData) (id : string) : bool :=
  match List.find (λ s, String.eqb (su_id s) id) (rev (ix_threads existing)) with
  | Some s => su_is_favorite s
  | None => false
  end.

(** The directory as it is read: names with what their files parse to. *)
Definition rebuild_index_from_threads (directory : list (string * option Thread)) (existing : ThreadIndexData)
    : ThreadIndexData :=
  mkIndexData INDEX_VERSION
    (sort_by_updated_desc
       (omap (λ entry : string * option Thread,
                if is_thread_json_file entry.1
                then (λ t, from_thread t (favorite_of existing (th_id t))) <$> entry.2
                else None) directory)).
End rows.
