(* ===== verification/ThreadIndexFacts.v ===== *)
(** ThreadIndexFacts: the rows are the files, the search text is bounded, and
    rows stay in order. *)

From S2P Require Import Prelude.
From S2P Require Import Text.
From S2P Require Import GroupAlignment.
From S2P Require Import Json.
From S2P Require Import JsonFields.
From S2P Require Import ThreadRecord.
From S2P Require Import ThreadIndex.
#[local] Open Scope Z_scope.

(** Newest first. *)
Definition newest_first : list ThreadSummary → Prop := StronglySorted (λ a b, su_updated_at b <= su_updated_at a).

Section order.
Lemma insert_desc_perm x l : insert_desc x l ≡ₚ x :: l.
Proof. induction l as [|y l IH]; simpl; [done|]. destruct (_ <? _); [done|]. rewrite IH. apply Permutation_swap. Qed.

Lemma insert_desc_sorted x l : newest_first l → newest_first (insert_desc x l).
Proof.
  induction 1 as [|y l Hl IH Hy]; simpl; [repeat constructor|]. destruct (Z.ltb_spec (su_updated_at y) (su_updated_at x)).
  - constructor; [by constructor|]. constructor; [lia|]. eapply Forall_impl; [exact Hy|]. intros z. simpl. lia.
  - constructor; [done|]. rewrite insert_desc_perm. constructor; [lia|done].
Qed.

Lemma sort_facts l : sort_by_updated_desc l ≡ₚ l ∧ newest_first (sort_by_updated_desc l).
Proof.
  unfold sort_by_updated_desc. rewrite <- (app_nil_r l) at 2.
  assert (newest_first []) as Hn by constructor. revert Hn. generalize (@nil ThreadSummary) as acc.
  induction l as [|x l IH]; intros acc Ha; simpl; [done|].
  destruct (IH (insert_desc x acc) (insert_desc_sorted x acc Ha)) as [Hp Hs]. split; [|done].
  rewrite Hp, insert_desc_perm. by rewrite Permutation_middle.
Qed.
End order.

Section rows.
  Context {tables : CharTables} {clusters : Graphemes}.

(** One row per file, derived from it but for the flag of a favourite. *)
Record lists (F : gset string) (files : gmap string (option Thread)) (rows : list ThreadSummary) : Prop := {
  li_distinct : NoDup (map su_id rows);
  li_derived s : s ∈ rows → su_is_favorite s = bool_decide (su_id s ∈ F) ∧
    ∃ f, files !! su_id s = Some f ∧ ∀ t, f = Some t → s = from_thread t (su_is_favorite s);
  li_complete id : is_Some (files !! id) → id ∈ map su_id rows;
  li_favorites id : id ∈ F → is_Some (files !! id)
}.

Lemma lists_perm F files l r : l ≡ₚ r → lists F files l → lists F files r.
Proof.
  intros Hp [Hn Hd Hc Hf]. split; [by rewrite <- Hp|intros s Hs; apply Hd; by rewrite Hp|intros id; rewrite <- Hp; auto|done].
Qed.

Lemma upsert_ids t l :
  map su_id (upsert_row t l) = if bool_decide (th_id t ∈ map su_id l) then map su_id l else map su_id l ++ [th_id t].
Proof.
  induction l as [|s l IH]; simpl; [done|]. destruct (String.eqb_spec (su_id s) (th_id t)) as [He|He]; simpl.
  - rewrite He, bool_decide_true by (by left). done.
  - rewrite IH. destruct (bool_decide_reflect (th_id t ∈ map su_id l)) as [H|H].
    + by rewrite bool_decide_true by (by right).
    + rewrite bool_decide_false; [done|]. by intros [?|?]%elem_of_cons.
Qed.

Lemma upsert_rows t l s :
  NoDup (map su_id l) → s ∈ upsert_row t l →
  (s ∈ l ∧ su_id s ≠ th_id t) ∨
  (∃ old, old ∈ l ∧ su_id old = th_id t ∧ s = from_thread t (su_is_favorite old)) ∨
  (th_id t ∉ map su_id l ∧ s = from_thread t false).
Proof.
  induction l as [|x l IH]; simpl; intros Hn.
  { intros ->%list_elem_of_singleton. right. right. split; [apply not_elem_of_nil|done]. }
  apply NoDup_cons in Hn as [Hx Hn]. destruct (String.eqb_spec (su_id x) (th_id t)) as [He|He].
  - intros [->|Hs]%elem_of_cons.
    + right. left. exists x. split; [by left|done].
    + left. split; [by right|]. intros Hs'. apply Hx. rewrite He, <- Hs'. apply list_elem_of_fmap. by exists s.
  - intros [->|Hs]%elem_of_cons; [left; split; [by left|done]|].
    destruct (IH Hn Hs) as [[H1 H2]|[(old & H1 & H2 & H3)|[H1 H2]]].
    + left. split; [by right|done].
    + right. left. exists old. split; [by right|done].
    + right. right. split; [|done]. by intros [?|?]%elem_of_cons.
Qed.

Lemma lists_upsert F files rows t :
  lists F files rows → lists F (<[th_id t := Some t]> files) (upsert_row t rows).
Proof.
  intros [Hn Hd Hc Hf]. split.
  - rewrite upsert_ids. destruct (bool_decide_reflect (th_id t ∈ map su_id rows)) as [H|H]; [done|].
    apply NoDup_app. split; [done|]. split; [|apply NoDup_singleton]. by intros x Hx ->%list_elem_of_singleton.
  - intros s Hs. destruct (upsert_rows t rows s Hn Hs) as [[H1 H2]|[(old & H1 & H2 & ->)|[H1 ->]]].
    + rewrite lookup_insert_ne by done. by apply Hd.
    + simpl. rewrite lookup_insert_eq. destruct (Hd old H1) as [Hfav _]. rewrite Hfav, H2. split; [done|].
      eexists. split; [done|]. by intros t' [= <-].
    + simpl. rewrite lookup_insert_eq. split; [|by eexists; split; [done|]; intros t' [= <-]].
      symmetry. apply bool_decide_eq_false. intros Hin. by apply H1, Hc, Hf.
  - intros id. rewrite upsert_ids, lookup_insert. destruct (bool_decide_reflect (th_id t ∈ map su_id rows)) as [H|H];
      destruct (decide_rel (=) (th_id t) id) as [<-|]; intros Hid; rewrite ?elem_of_app, ?list_elem_of_singleton; auto.
  - intros id Hid. rewrite lookup_insert_is_Some'. right. by apply Hf.
Qed.

Lemma lists_remove F files rows id :
  lists F files rows →
  lists (F ∖ {[ id ]}) (delete id files) (List.filter (λ s, negb (String.eqb (su_id s) id)) rows).
Proof.
  intros [Hn Hd Hc Hf].
  assert (∀ s, s ∈ List.filter (λ s, negb (String.eqb (su_id s) id)) rows ↔ s ∈ rows ∧ su_id s ≠ id) as Hin.
  { intros s. rewrite !list_elem_of_In, filter_In, negb_true_iff, String.eqb_neq. done. }
  split.
  - clear - Hn. induction rows as [|s rows IH]; simpl in *; [done|]. apply NoDup_cons in Hn as [Hs Hn].
    destruct (negb _); simpl; [|by apply IH]. apply NoDup_cons. split; [|by apply IH].
    intros (s' & He & Hs')%list_elem_of_fmap. apply Hs. apply list_elem_of_fmap. exists s'. split; [done|].
    rewrite list_elem_of_In in *. by apply filter_In in Hs' as [? _].
  - intros s [Hs Hne]%Hin. rewrite lookup_delete_ne by done. destruct (Hd s Hs) as [-> Hex]. split; [|done].
    apply bool_decide_ext. set_solver.
  - intros id'. rewrite lookup_delete_is_Some. intros [Hne Hid]. apply Hc in Hid as (s & -> & Hs)%list_elem_of_fmap.
    apply list_elem_of_fmap. exists s. split; [done|]. by apply Hin.
  - intros id' [H1 H2]%elem_of_difference. rewrite lookup_delete_is_Some. split; [set_solver|]. by apply Hf.
Qed.

Lemma favor_ids id f l : map su_id (favor id f l) = map su_id l.
Proof. induction l as [|s l IH]; simpl; [done|]. destruct (String.eqb (su_id s) id); simpl; [done|by rewrite IH]. Qed.

Lemma favor_rows id f l s :
  NoDup (map su_id l) → s ∈ favor id f l →
  (s ∈ l ∧ su_id s ≠ id) ∨ (∃ old, old ∈ l ∧ su_id old = id ∧ s = old <| su_is_favorite := f |>).
Proof.
  induction l as [|x l IH]; simpl; intros Hn Hs; [by apply not_elem_of_nil in Hs|].
  apply NoDup_cons in Hn as [Hx Hn]. destruct (String.eqb_spec (su_id x) id) as [He|He]; apply elem_of_cons in Hs as [->|Hs].
  - right. exists x. split; [by left|done].
  - left. split; [by right|]. intros Hs'. apply Hx. rewrite He, <- Hs'. apply list_elem_of_fmap. by exists s.
  - left. split; [by left|done].
  - destruct (IH Hn Hs) as [[H1 H2]|(old & H1 & H2 & H3)]; [left|right; exists old]; (split; [by right|done]).
Qed.

Lemma favor_updated id f l : map su_updated_at (favor id f l) = map su_updated_at l.
Proof. induction l as [|s l IH]; simpl; [done|]. destruct (String.eqb (su_id s) id); simpl; [done|by rewrite IH]. Qed.

Lemma lists_favor F files rows id (f : bool) :
  lists F files rows → is_Some (files !! id) →
  lists (if f then {[ id ]} ∪ F else F ∖ {[ id ]}) files (favor id f rows).
Proof.
  intros [Hn Hd Hc Hf] Hid. split.
  - by rewrite favor_ids.
  - intros s [[Hs Hne]|(old & Hold & <- & ->)]%favor_rows; [| |done].
    + destruct (Hd s Hs) as [-> Hex]. split; [|done]. apply bool_decide_ext. destruct f; set_solver.
    + simpl. destruct (Hd old Hold) as [_ (g & Hg & Ht)]. split.
      * destruct f; symmetry; [apply bool_decide_eq_true|apply bool_decide_eq_false]; set_solver.
      * exists g. split; [done|]. intros t Hg'. by rewrite (Ht t Hg').
  - intros id'. rewrite favor_ids. apply Hc.
  - intros id'. destruct f; [intros [->%elem_of_singleton|]%elem_of_union|intros [? _]%elem_of_difference]; auto.
Qed.
End rows.

(** An order that looks at the times only. *)
Lemma newest_first_map l r : map su_updated_at l = map su_updated_at r → newest_first l → newest_first r.
Proof.
  intros He Hl. revert r He. induction Hl as [|x l Hl IH Hx]; intros [|y r]; try done; [constructor|].
  intros [= Hxy He]. constructor; [by apply IH|]. clear IH Hl. revert r He. induction Hx as [|z l Hz _ IH]; intros [|w r]; try done.
  intros [= Hzw He]. constructor; [lia|by apply IH].
Qed.

Lemma newest_first_filter p l : newest_first l → newest_first (List.filter p l).
Proof.
  induction 1 as [|x l Hl IH Hx]; simpl; [constructor|]. destruct (p x); [|done]. constructor; [done|].
  clear - Hx. induction Hx as [|z l Hz _ IH]; simpl; [done|]. destruct (p z); [by constructor|done].
Qed.

(* ------------------------------------------------------------------ *)
(** ** Search text *)

Section bounds.
  Context {tables : CharTables} {clusters : Graphemes}.

Lemma fitting_bounded boundary max_len l : boundary <= max_len → boundary <= fitting boundary max_len l <= max_len.
Proof.
  revert boundary. induction l as [|g l IH]; intros boundary Hb; simpl; [lia|].
  destruct (Z.ltb_spec max_len (boundary + len g)); [lia|]. specialize (IH (boundary + len g)). unfold len in *. lia.
Qed.

Lemma prefix_bounded value max_len : 0 <= max_len → 0 <= grapheme_prefix_len value max_len <= max_len.
Proof.
  intros Hm. unfold grapheme_prefix_len. destruct (Z.leb_spec (len value) max_len); [unfold len in *; lia|].
  by apply fitting_bounded.
Qed.

Lemma append_bounded out value max_len : len out <= max_len → len (append_search_chunk out value max_len) <= max_len.
Proof.
  intros Ho. unfold append_search_chunk. destruct (_ || _) eqn:Hstop; [done|]. destruct (String.eqb (normalize_snippet value) ""); [done|].
  apply orb_false_iff in Hstop as [_ Hlt%Z.leb_gt].
  set (sep := if String.eqb out "" then 0 else 1).
  assert (0 <= sep <= 1) as Hsep by (unfold sep; destruct (String.eqb out ""); lia).
  pose proof (prefix_bounded (normalize_snippet value) (sat_sub max_len (len out + sep))) as Hp.
  set (n := grapheme_prefix_len _ _) in *. unfold sat_sub in Hp. specialize (Hp ltac:(lia)).
  destruct (Z.eqb_spec n 0) as [|Hn]; [done|]. rewrite !len_app.
  assert (len (String.substring 0 (Z.to_nat n) (normalize_snippet value)) <= n) as Hs.
  { unfold len. rewrite substring_length. lia. }
  assert (len (if (0 <? sep)%Z then " " else "")%string = sep) as ->.
  { unfold sep. by destruct (String.eqb out ""). }
  lia.
Qed.

Lemma append_chunks_bounded out l :
  len out <= MAX_SEARCH_TEXT_BYTES → len (append_chunks out l) <= MAX_SEARCH_TEXT_BYTES.
Proof.
  revert out. induction l as [|chunk l IH]; intros out Ho; simpl; [done|].
  set (out' := match chunk with Some _ => _ | None => _ end).
  assert (len out' <= MAX_SEARCH_TEXT_BYTES) by (unfold out'; destruct chunk; [by apply append_bounded|done]).
  clearbody out'. destruct (_ <=? _); [done|by apply IH].
Qed.

(** C33: However long a thread grows, its row's search text is at most sixteen
    kibibytes, whatever the clusters of its text. *)
Theorem search_text_bounded t is_favorite : len (su_search_text (from_thread t is_favorite)) <= MAX_SEARCH_TEXT_BYTES.
Proof.
  unfold from_thread. cbn [su_search_text].
  generalize (List.find (λ note, negb (String.eqb note "")) (map (λ n, normalize_snippet (tn_text n)) (rev (th_notes t)))) as note.
  generalize (find_map thread_message_preview_text (rev (th_messages t))) as message. intros message note.
  unfold build_search_text. cbn zeta.
  assert (∀ out value, len out <= MAX_SEARCH_TEXT_BYTES →
    len (match value with Some v => append_search_chunk out v MAX_SEARCH_TEXT_BYTES | None => out end) <= MAX_SEARCH_TEXT_BYTES) as Hopt.
  { intros out [v|] Ho; [by apply append_bounded|done]. }
  set (all := append_chunks _ _).
  assert (len all <= MAX_SEARCH_TEXT_BYTES).
  { apply append_chunks_bounded. do 3 apply Hopt. do 3 apply append_bounded. by vm_compute. }
  destruct (_ <? _); [|done]. by apply append_chunks_bounded.
Qed.
End bounds.
