(* ===== verification/StateError.v ===== *)
(** StateError: code over a state that may fail, and the invariants it keeps.

    A program takes a state and answers a state and a [Result].  An early
    return keeps the state reached. *)

From S2P Require Import Prelude.

Definition SM (S E A : Type) : Type := S → S * (E + A).

Section monad.
Context {S E : Type}.

Definition ret {A} (x : A) : SM S E A := λ s, (s, inr x).
Definition fail {A} (e : E) : SM S E A := λ s, (s, inl e).
Definition bind {A B} (m : SM S E A) (f : A → SM S E B) : SM S E B :=
  λ s, match m s with (s, inl e) => (s, inl e) | (s, inr x) => f x s end.

(** The error of [m] is dropped, its effects stay. *)
Definition attempt {A} (m : SM S E A) : SM S E (option A) :=
  λ s, let '(s, r) := m s in (s, inr (match r with inr x => Some x | inl _ => None end)).

Definition get {A} (f : S → A) : SM S E A := λ s, (s, inr (f s)).
End monad.

Declare Scope store_scope.
Notation "'let!' x := m 'in' k" := (bind m (λ x, k))
  (at level 10, x pattern, m at level 200, k at level 200) : store_scope.

(* ------------------------------------------------------------------ *)
(** ** Programs that keep an invariant *)

Definition holds {S E A} (I : S → Prop) (m : SM S E A) (φ : A → Prop) : Prop :=
  ∀ s, I s → I (m s).1 ∧ ∀ x, (m s).2 = inr x → φ x.

Section holds.
  Context {S E : Type} (I : S → Prop).

Lemma holds_ret {A} (x : A) (φ : A → Prop) : φ x → holds (E := E) I (ret x) φ.
Proof. intros Hx s Hs. split; [done|]. by intros y [= <-]. Qed.

Lemma holds_fail {A} (e : E) (φ : A → Prop) : holds I (fail e) φ.
Proof. by intros s Hs. Qed.

Lemma holds_bind {A B} (m : SM S E A) (f : A → SM S E B) φ ψ :
  holds I m φ → (∀ x, φ x → holds I (f x) ψ) → holds I (bind m f) ψ.
Proof.
  intros Hm Hf s Hs. unfold bind. destruct (Hm s Hs) as [H1 H2]. destruct (m s) as [s1 [e|x]]; simpl in *; [done|].
  by apply Hf; [apply H2|].
Qed.

Lemma holds_weaken {A} (m : SM S E A) φ ψ : holds I m φ → (∀ x, φ x → ψ x) → holds I m ψ.
Proof. intros Hm Hi s Hs. destruct (Hm s Hs) as [H1 H2]. split; [done|]. intros x Hx. by apply Hi, H2. Qed.

Lemma holds_attempt {A} (m : SM S E A) φ : holds I m φ → holds I (attempt m) (λ _, True).
Proof. intros Hm s Hs. unfold attempt. destruct (Hm s Hs) as [H1 _]. by destruct (m s). Qed.

Lemma holds_get {A} (f : S → A) (φ : A → Prop) : (∀ s, I s → φ (f s)) → holds (E := E) I (get f) φ.
Proof. intros H s Hs. split; [done|]. intros x [= <-]. by apply H. Qed.
End holds.
