(* ===== verification/ThreadStore.v ===== *)
(** ThreadStore: the thread files and their index (core/agent/thread_store.rs).

    The disk holds what each [<id>.json] parses to and what [index.json] parses
    to.  A write replaces its file or leaves it; which of them fail is a list
    the disk consumes, so every theorem holds for any failures. *)

From S2P Require Import Prelude.
From S2P Require Import Text.
From S2P Require Import Json.
From S2P Require Import GroupAlignment.
From S2P Require Import ThreadRecord.
From S2P Require Import ThreadIndex.
From S2P Require Import StateError.
#[local] Open Scope Z_scope.

Inductive StoreError :=
  | EmptyThreadId
  | InvalidThreadId
  | MissingThreadFile
  | UnreadableThreadFile
  | WriteFailed
  | UnreadableIndex
  | TitleNotReadable
  | MaxRewritten
  | HistoryMissing
  | HistoryIdentityMismatch
  | HistoryRefused (reason : string).

(** [index.json]: absent, not the JSON of an index, or one. *)
Inductive IndexFile := IndexMissing | IndexUnreadable | IndexRead (data : ThreadIndexData).

Record Disk := mkDisk {
  dk_files : gmap string (option Thread);
  dk_index : IndexFile;
  dk_failures : list bool
}.

(* ------------------------------------------------------------------ *)
(** ** Code that reads and writes the disk and may fail *)

Abbreviation M := (SM Disk StoreError).
#[local] Open Scope store_scope.

(** Whether the next write succeeds. *)
Definition write (f : Disk → Disk) : M unit :=
  λ d,
    let '(failed, rest) := match dk_failures d with [] => (false, []) | b :: l => (b, l) end in
    let d := d <| dk_failures := rest |> in
    if failed then (d, inl WriteFailed) else (f d, inr tt).

(* ------------------------------------------------------------------ *)
(** ** Paths *)

Definition validate_thread_id (id : string) : M unit :=
  if trim_is_empty id then fail EmptyThreadId
  else if contains id "/" || contains id "\" || contains id ".." then fail InvalidThreadId
  else ret tt.

(** The file of a valid id; the key of the disk is the id itself. *)
Definition thread_path (id : string) : M string := let! _ := validate_thread_id id in ret id.

Definition path_exists (path : string) : M bool := get (λ d, bool_decide (is_Some (dk_files d !! path))).

Definition write_thread (path : string) (t : Thread) : M unit := write (λ d, d <| dk_files ::= <[path := Some t]> |>).

(* ------------------------------------------------------------------ *)
(** ** The index file *)

Section store.
Context {tables : CharTables} {letters : Letters} {clusters : Graphemes}.

Definition index_save (data : ThreadIndexData) : M unit := write (λ d, d <| dk_index := IndexRead data |>).

Definition directory (d : Disk) : list (string * option Thread) :=
  map (λ f : string * option Thread, ((f.1 +:+ ".json")%string, f.2)) (map_to_list (dk_files d)).

Definition load_or_create : M ThreadIndexData :=
  let! file := get dk_index in
  match file with
  | IndexMissing => let! _ := index_save index_default in ret index_default
  | IndexUnreadable => fail UnreadableIndex
  | IndexRead data =>
      if ix_version data <? INDEX_VERSION
      then
        let! entries := get directory in
        let data := rebuild_index_from_threads entries data in
        let! _ := index_save data in
        ret data
      else ret data
  end.

(* ------------------------------------------------------------------ *)
(** ** Threads *)

Definition save_thread_locked (t : Thread) : M unit :=
  let t := if title_is_heuristic t && negb (title_is_meaningful (th_title t)) then fst (normalize_heuristic_title t) else t in
  let! path := thread_path (th_id t) in
  let! _ := write_thread path t in
  let! index := load_or_create in
  index_save (index_add t index).

Definition save_thread (t : Thread) : M unit := save_thread_locked t.

Definition load_thread_raw (id : string) : M Thread :=
  let! path := thread_path id in
  let! file := get (λ d, dk_files d !! path) in
  match file with
  | None => fail MissingThreadFile
  | Some None => fail UnreadableThreadFile
  | Some (Some t) => ret t
  end.

(** The persisted repair reads the file again. *)
Definition heal_file (id : string) : M bool :=
  let! fresh := load_thread_raw id in
  let '(fresh, changed) := normalize_heuristic_title fresh in
  if changed then let! _ := save_thread_locked fresh in ret true else ret false.

Definition load_thread (id : string) : M Thread :=
  let! t := load_thread_raw id in
  let '(t, changed) := normalize_heuristic_title t in
  if changed then let! _ := attempt (heal_file id) in ret t else ret t.

Fixpoint heal_all (ids : list string) (healed : nat) : M nat :=
  match ids with
  | [] => ret healed
  | id :: rest =>
      let! r := attempt (heal_file id) in
      heal_all rest (match r with Some true => S healed | _ => healed end)
  end.

Definition heal_degenerate_titles : M nat :=
  let! index := load_or_create in
  heal_all (map su_id (List.filter (λ s, negb (title_is_meaningful (su_title s))) (ix_threads index))) 0.

Definition delete_thread (id : string) : M unit :=
  let! path := thread_path id in
  let! found := path_exists path in
  let! _ := if found then write (λ d, d <| dk_files ::= delete path |>) else ret tt in
  let! index := load_or_create in
  index_save (index_remove id index).

Definition set_thread_favorite (id : string) (is_favorite : bool) : M bool :=
  let! _ := validate_thread_id id in
  let! index := load_or_create in
  match index_set_favorite id is_favorite index with
  | None => ret false
  | Some (_, false) => ret true
  | Some (index, true) => let! _ := index_save index in ret true
  end.

Definition set_thread_title (id title : string) : M bool :=
  let trimmed := trim title in
  if negb (title_is_meaningful trimmed) then fail TitleNotReadable
  else
    let! path := thread_path id in
    let! found := path_exists path in
    if negb found then ret false
    else
      let! t := load_thread id in
      let! _ := save_thread (t <| th_title := trimmed |> <| th_title_is_custom := true |> <| th_title_is_generated := false |>) in
      ret true.

Definition set_generated_title (id title : string) : M bool :=
  let trimmed := trim title in
  if negb (title_is_meaningful trimmed) then fail TitleNotReadable
  else
    let! path := thread_path id in
    let! found := path_exists path in
    if negb found then ret false
    else
      let! t := load_thread id in
      if th_title_is_custom t then ret false
      else
        let! _ := save_thread (t <| th_title := trimmed |> <| th_title_is_custom := false |> <| th_title_is_generated := true |>) in
        ret true.
End store.
