(* ===== verification/ThreadDelivery.v ===== *)
(** ThreadDelivery: the write path of completed turns
    (core/agent/thread_delivery.rs).

    [deliver] replaces the stored messages of a thread and keeps a title that
    has an owner.  The thread is read before it is written, and the lock of the
    store covers only the write: the two halves are two definitions. *)

From S2P Require Import Prelude.
From S2P Require Import Text.
From S2P Require Import Json.
From S2P Require Import GroupAlignment.
From S2P Require Import AgentTypes.
From S2P Require Import ConsultationJournal.
From S2P Require Import ThreadRecord.
From S2P Require Import ConsultationHistory.
From S2P Require Import ThreadIndex.
From S2P Require Import StateError.
From S2P Require Import ThreadStore.
#[local] Open Scope Z_scope.
#[local] Open Scope store_scope.

Definition MAX_CONSULTATION_MODE : string := "max".
Definition ABANDONED_TURN_NOTE : string :=
  "An earlier Max instruction was interrupted before it finished and was not repeated".

Record ThreadDeliveryInput := mkDelivery {
  dl_backend_id : string;
  dl_messages : list ThreadMessage;
  dl_provider : string;
  dl_model : string;
  dl_mode : string;
  dl_tags : list string;
  dl_timestamp : Z
}.

Record ThreadDeliveryReceipt := mkReceipt {
  rc_backend_id : string;
  rc_created : bool;
  rc_message_count : Z;
  rc_updated_at : Z;
  rc_first_exchange : bool;
  rc_title_eligible : bool
}.

(** From behind the first user message on. *)
Fixpoint has_completed_exchange (messages : list ThreadMessage) : bool :=
  match messages with
  | [] => false
  | m :: rest =>
      if eq_ignore_ascii_case (tm_role m) "user"
      then existsb (λ m, eq_ignore_ascii_case (tm_role m) "assistant") rest
      else has_completed_exchange rest
  end.

(* ------------------------------------------------------------------ *)
(** ** Titles and summaries *)

Fixpoint extract_text_from_block (b : ContentBlock) : list string :=
  match b with
  | BlockText text => readable text
  | BlockToolResult _ content _ => concat (map extract_text_from_block content)
  | _ => []
  end.

Definition message_texts (m : Message) : list string := concat (map extract_text_from_block (ms_content m)).

Definition raw_text_from_message (m : Message) : option string :=
  let text := join_lines (message_texts m) in
  if trim_is_empty text then None else Some text.

Definition extract_text_from_message (m : Message) : option string :=
  let normalized := join_space (split_whitespace (join_space (message_texts m))) in
  if String.eqb normalized "" then None else Some normalized.

Definition BOILERPLATE_LINE_PREFIXES : list string :=
  ["instrukcja"; "instruction"; "jesteś agentem"; "jestes agentem"; "you are an agent"; "system prompt"; "system:"]%string.

Section gateway.
Context {tables : CharTables} {letters : Letters} {clusters : Graphemes} (print_json : Value → string).

Fixpoint caps_from (has_alpha : bool) (l : list Z) : bool :=
  match l with
  | [] => has_alpha
  | ch :: rest => if is_alphabetic ch then if is_lowercase ch then false else caps_from true rest else caps_from has_alpha rest
  end.

Definition is_all_caps_header (line : string) : bool := caps_from false (chars line).

Definition is_boilerplate_line (line : string) : bool :=
  lower_starts_with line BOILERPLATE_LINE_PREFIXES || is_all_caps_header line.

Definition request_line (line : string) : option string :=
  let trimmed := trim line in
  if String.eqb trimmed "" || is_boilerplate_line trimmed then None
  else
    let normalized := join_space (split_whitespace trimmed) in
    if String.eqb normalized "" then None else Some normalized.

Definition strip_boilerplate_title (raw : string) : option string := find_map request_line (text_lines raw).

Definition derive_thread_title (messages : list Message) : string :=
  let first_user := List.find (λ m, bool_decide (ms_role m = RoleUser)) messages in
  let candidate :=
    match (first_user ≫= raw_text_from_message) ≫= strip_boilerplate_title with
    | Some title => title
    | None => default DEFAULT_THREAD_TITLE (first_user ≫= extract_text_from_message)
    end in
  let title := take_chars 72 candidate in
  if trim_is_empty title then DEFAULT_THREAD_TITLE else title.

Definition derive_thread_summary (messages : list Message) : option string :=
  (λ text,
     let clipped := take_chars 240 text in
     if String.eqb clipped "" then "Assistant response"%string else clipped)
  <$> (List.find (λ m, bool_decide (ms_role m = RoleAssistant)) (rev messages) ≫= extract_text_from_message).

(* ------------------------------------------------------------------ *)
(** ** Delivery *)

(** The half before the lock. *)
Definition deliver_load (input : ThreadDeliveryInput) : M (option Thread) :=
  let! path := thread_path (dl_backend_id input) in
  let! found := path_exists path in
  if found then let! t := load_thread (dl_backend_id input) in ret (Some t) else ret None.

Definition new_thread (input : ThreadDeliveryInput) : Thread :=
  {| th_id := dl_backend_id input; th_created_at := dl_timestamp input; th_updated_at := dl_timestamp input;
     th_title := DEFAULT_THREAD_TITLE; th_title_is_custom := false; th_title_is_generated := false;
     th_mode := dl_mode input; th_tags := dl_tags input; th_notes := []; th_messages := []; th_summary := None;
     th_total_tokens := None; th_provider := dl_provider input; th_model := dl_model input |}.

(** The thread the delivery writes over the one it read. *)
Definition delivered (input : ThreadDeliveryInput) (existing : option Thread) : Thread :=
  let canonical := map (to_message print_json) (dl_messages input) in
  let t := default (new_thread input) existing in
  t <| th_updated_at := dl_timestamp input |>
    <| th_title := if title_is_heuristic t then derive_thread_title canonical else th_title t |>
    <| th_summary := derive_thread_summary canonical |>
    <| th_messages := dl_messages input |> <| th_provider := dl_provider input |>
    <| th_model := dl_model input |> <| th_mode := dl_mode input |> <| th_tags := dl_tags input |>.

Definition rewrites_max (input : ThreadDeliveryInput) (existing : option Thread) : bool :=
  match existing with
  | Some t => String.eqb (th_mode t) MAX_CONSULTATION_MODE && negb (String.eqb (dl_mode input) MAX_CONSULTATION_MODE)
  | None => false
  end.

Definition delivery_receipt (input : ThreadDeliveryInput) (existing : option Thread) : ThreadDeliveryReceipt :=
  let previous_had_exchange := match existing with Some t => has_completed_exchange (th_messages t) | None => false end in
  let first_exchange := has_completed_exchange (dl_messages input) && negb previous_had_exchange in
  {| rc_backend_id := dl_backend_id input; rc_created := bool_decide (existing = None);
     rc_message_count := Z.of_nat (length (dl_messages input)); rc_updated_at := dl_timestamp input;
     rc_first_exchange := first_exchange;
     rc_title_eligible := first_exchange && title_is_heuristic (delivered input existing) |}.

Definition deliver_store (input : ThreadDeliveryInput) (existing : option Thread) : M ThreadDeliveryReceipt :=
  if rewrites_max input existing then fail MaxRewritten
  else
    let! _ := save_thread (delivered input existing) in
    ret (delivery_receipt input existing).

Definition deliver (input : ThreadDeliveryInput) : M ThreadDeliveryReceipt :=
  let! existing := deliver_load input in deliver_store input existing.

(* ------------------------------------------------------------------ *)
(** ** Consultations *)

(** A [Result] that the store answers with. *)
Definition of_result {A} (r : string + A) : M A :=
  match r with inl reason => fail (HistoryRefused reason) | inr x => ret x end.

Fixpoint restore_messages_checked (l : list ThreadMessage) : string + list Message :=
  match l with
  | [] => inr []
  | m :: rest =>
      match try_to_message print_json m with
      | inl e => inl e
      | inr m => match restore_messages_checked rest with inl e => inl e | inr l => inr (m :: l) end
      end
  end.

Definition restore_consultation (id : string) (history_required : bool) : M (list Message) :=
  let! path := thread_path id in
  let! found := path_exists path in
  if negb found then if history_required then fail HistoryMissing else ret []
  else
    let! t := load_thread id in
    if negb (String.eqb (th_id t) id && String.eqb (th_mode t) MAX_CONSULTATION_MODE) then fail HistoryIdentityMismatch
    else
      let! messages := of_result (restore_messages_checked (th_messages t)) in
      let! _ := of_result (validate_consultation_tool_history messages) in
      ret messages.

(** Identities and clock readings of the notes, one per note. *)
Definition note_texts (recovery : ConsultationRecovery) : list string :=
  match List.filter (λ p, negb (String.eqb p "")) (map di_text_preview (rv_dropped_inputs recovery)) with
  | [] => [(ABANDONED_TURN_NOTE +:+ ".")%string]
  | previews => map (λ p, (ABANDONED_TURN_NOTE +:+ ": " +:+ String (Ascii.ascii_of_nat 34) p
                           +:+ String (Ascii.ascii_of_nat 34) "")%string) previews
  end.

Definition record_consultation_recovery (note_at : nat → string * Z * Z) (id : string) (recovery : ConsultationRecovery)
    : M unit :=
  let! path := thread_path id in
  let! found := path_exists path in
  if negb found then ret tt
  else
    let! t := load_thread id in
    save_thread
      (snd (fold_left (λ acc text,
              let '(k, t) := acc in
              let '(note_id, now, later) := note_at k in
              (S k, add_note t note_id now later text None)) (note_texts recovery) (0%nat, t))).

(** [trim_matches] of the characters that are no letters and no digits. *)
Definition trim_word (word : string) : string :=
  let edge := λ c : Z * string, negb (is_alphanumeric c.1) in
  unchars (rev (drop_while edge (rev (drop_while edge (utf8_chars word))))).

Definition query_words (m : Message) : list string :=
  take 3 (List.filter (λ word, (5 <=? length (utf8_chars word))%nat)
    (map trim_word (concat (map (λ b, match b with BlockText text => split_whitespace text | _ => [] end) (ms_content m))))).

(** The newest user message with words long enough. *)
Definition recovery_query (history : list Message) : option string :=
  find_map (λ m, let query := join_space (query_words m) in if String.eqb query "" then None else Some query)
    (List.filter (λ m, bool_decide (ms_role m = RoleUser)) (rev history)).

Definition recovery_match (to_rfc3339 : Z → string) (s : ThreadSummary) : Value :=
  let excerpt := match su_summary s with Some summary => Some summary | None => su_latest_message s end in
  VObject [("excerpt", VString (take_chars 320 (default "" excerpt))); ("thread_id", VString (su_id s));
           ("updated_at", VString (to_rfc3339 (su_updated_at s)))]%string.

Definition consultation_recovery_context (to_rfc3339 : Z → string) (id : string) (history : list Message)
    : M (option string) :=
  match recovery_query history with
  | None => ret None
  | Some query =>
      let! index := load_or_create in
      match take 3 (List.filter (λ s, negb (String.eqb (su_id s) id)) (index_search index query)) with
      | [] => ret None
      | matches => ret (Some (print_json (VArray (map (recovery_match to_rfc3339) matches))))
      end
  end.
End gateway.
