(* ===== verification/ThreadStoreFacts.v ===== *)
(** ThreadStoreFacts: who may change the title of a thread, what the index
    says of the files, and that a delivered consultation is read back. *)

From S2P Require Import Prelude.
From S2P Require Import Text.
From S2P Require Import Json.
From S2P Require Import GroupAlignment.
From S2P Require Import AgentGate.
From S2P Require Import AgentTypes.
From S2P Require Import ConsultationJournal.
From S2P Require Import ThreadRecord.
From S2P Require Import ThreadRecordFacts.
From S2P Require Import ConsultationHistory.
From S2P Require Import ThreadIndex.
From S2P Require Import ThreadIndexFacts.
From S2P Require Import StateError.
From S2P Require Import ThreadStore.
From S2P Require Import ThreadDelivery.
#[local] Open Scope Z_scope.
#[local] Open Scope store_scope.

Lemma holds_write (I : Disk → Prop) f :
  (∀ d l, I d → I (d <| dk_failures := l |>)) → (∀ d, I d → I (f d)) → holds I (write f) (λ _, True).
Proof.
  intros Hl Hf d Hd. unfold write. destruct (dk_failures d) as [|[] l]; split; simpl; try done; try (by apply Hl).
  - by apply Hf, Hl.
  - by apply Hf, Hl.
Qed.

(* ------------------------------------------------------------------ *)
(** ** The operations, for any invariant that saving keeps *)

Section operations.
  Context {tables : CharTables} {letters : Letters} {clusters : Graphemes} (print_json : Value → string).
  Context (I : Disk → Prop) (writable : Thread → Prop).
  Context (save_keeps : ∀ t, writable t → holds I (save_thread t) (λ _, True)).
  Context (index_keeps : holds I load_or_create (λ _, True)).
  Context (raw_writable : ∀ id, holds I (load_thread_raw id) (λ t, th_id t = id ∧ writable t)).
  Context (heal_writable : ∀ t, writable t → writable (normalize_heuristic_title t).1).

Lemma holds_path id : holds I (thread_path id) (λ p, p = id).
Proof.
  unfold thread_path, validate_thread_id. destruct (trim_is_empty id); [by intros d Hd|].
  destruct (_ || _); by intros d Hd; split; [|by intros p [= <-]].
Qed.

Lemma holds_exists path : holds I (path_exists path) (λ _, True).
Proof. by apply holds_get. Qed.

Lemma normalized_id t : th_id (normalize_heuristic_title t).1 = th_id t.
Proof. unfold normalize_heuristic_title. by destruct (_ || _). Qed.

Lemma holds_heal_file id : holds I (heal_file id) (λ _, True).
Proof using save_keeps raw_writable heal_writable.
  unfold heal_file. eapply holds_bind; [apply raw_writable|]. intros t [_ Hg]. apply heal_writable in Hg.
  destruct (normalize_heuristic_title t) as [t' []]; [|by apply holds_ret].
  eapply holds_bind; [by apply save_keeps|]. intros _ _. by apply holds_ret.
Qed.

Lemma holds_load id : holds I (load_thread id) (λ t, th_id t = id ∧ writable t).
Proof using save_keeps raw_writable heal_writable.
  unfold load_thread. eapply holds_bind; [apply raw_writable|]. intros t [Hid Hg].
  apply heal_writable in Hg. pose proof (normalized_id t) as Hi.
  destruct (normalize_heuristic_title t) as [t' []]; simpl in *; [|apply holds_ret; by rewrite Hi].
  eapply holds_bind; [eapply holds_attempt, holds_heal_file|]. intros _ _. apply holds_ret. by rewrite Hi.
Qed.

Lemma holds_heal_all ids n : holds I (heal_all ids n) (λ _, True).
Proof using save_keeps raw_writable heal_writable.
  revert n. induction ids as [|id ids IH]; intros n; simpl; [by apply holds_ret|].
  eapply holds_bind; [eapply holds_attempt, holds_heal_file|]. intros r _. apply IH.
Qed.

Lemma holds_heal : holds I heal_degenerate_titles (λ _, True).
Proof using save_keeps raw_writable heal_writable index_keeps.
  unfold heal_degenerate_titles. eapply holds_bind; [apply index_keeps|]. intros index _. apply holds_heal_all.
Qed.

(** Loading behind the existence check, which most operations start with. *)
Lemma holds_existing {A} id (none : M A) (f : Thread → M A) φ :
  holds I none φ → (∀ t, th_id t = id → writable t → holds I (f t) φ) →
  holds I (let! path := thread_path id in let! found := path_exists path in
           if negb found then none else let! t := load_thread id in f t) φ.
Proof using save_keeps raw_writable heal_writable.
  intros Hnone Hf. eapply holds_bind; [apply holds_path|]. intros p ->. eapply holds_bind; [apply holds_exists|].
  intros [] _; [|done]. simpl. eapply holds_bind; [apply holds_load|]. intros t [Hid Hw]. by apply Hf.
Qed.

Lemma holds_title id new :
  (∀ t title, th_id t = id → writable t →
     writable (t <| th_title := title |> <| th_title_is_custom := true |> <| th_title_is_generated := false |>)) →
  holds I (set_thread_title id new) (λ _, True).
Proof using save_keeps raw_writable heal_writable.
  intros Hw. unfold set_thread_title. destruct (negb _); [apply holds_fail|]. apply holds_existing; [by apply holds_ret|].
  intros t Hid Ht. eapply holds_bind; [by apply save_keeps, Hw|]. intros _ _. by apply holds_ret.
Qed.

Lemma holds_generated id new :
  (∀ t title, th_id t = id → writable t → th_title_is_custom t = false →
     writable (t <| th_title := title |> <| th_title_is_custom := false |> <| th_title_is_generated := true |>)) →
  holds I (set_generated_title id new) (λ _, True).
Proof using save_keeps raw_writable heal_writable.
  intros Hw. unfold set_generated_title. destruct (negb _); [apply holds_fail|]. apply holds_existing; [by apply holds_ret|].
  intros t Hid Ht. destruct (th_title_is_custom t) eqn:Hc; [by apply holds_ret|].
  eapply holds_bind; [by apply save_keeps, Hw|]. intros _ _. by apply holds_ret.
Qed.

Lemma holds_restore id required : holds I (restore_consultation print_json id required) (λ _, True).
Proof using save_keeps raw_writable heal_writable.
  apply holds_existing; [by destruct required; [apply holds_fail|apply holds_ret]|]. intros t _ _.
  destruct (negb _); [apply holds_fail|]. eapply (holds_bind _ _ _ (λ _, True)).
  { destruct (restore_messages_checked _ _); [apply holds_fail|by apply holds_ret]. }
  intros l _. eapply (holds_bind _ _ _ (λ _, True)); [|by intros; apply holds_ret].
  destruct (validate_consultation_tool_history l); [apply holds_fail|by apply holds_ret].
Qed.

Lemma holds_recovery note_at id recovery :
  (∀ t t', writable t → th_id t' = th_id t → th_title t' = th_title t →
     th_title_is_custom t' = th_title_is_custom t → th_title_is_generated t' = th_title_is_generated t → writable t') →
  holds I (record_consultation_recovery note_at id recovery) (λ _, True).
Proof using save_keeps raw_writable heal_writable.
  intros Hw. apply holds_existing; [by apply holds_ret|]. intros t _ Ht. apply save_keeps.
  assert (∀ texts k t,
    let t' := (fold_left (λ acc text, let '(k, t) := acc in let '(note_id, now, later) := note_at k in
                          (S k, add_note t note_id now later text None)) texts (k, t)).2 in
    th_id t' = th_id t ∧ th_title t' = th_title t ∧ th_title_is_custom t' = th_title_is_custom t ∧
    th_title_is_generated t' = th_title_is_generated t) as Hn.
  { induction texts as [|text texts IH]; intros k t1; [done|]. simpl. destruct (note_at k) as [[note_id now] later].
    exact (IH (S k) (add_note t1 note_id now later text None)). }
  destruct (Hn (note_texts recovery) 0%nat t) as (H1 & H2 & H3 & H4). by eapply Hw.
Qed.

Lemma holds_deliver input :
  (∀ t, th_id t = dl_backend_id input → writable t → writable (delivered print_json input (Some t))) →
  (∀ d, I d → dk_files d !! dl_backend_id input = None → writable (delivered print_json input None)) →
  holds I (deliver print_json input) (λ _, True).
Proof using save_keeps raw_writable heal_writable.
  intros Hold Hnew. unfold deliver, deliver_load.
  eapply (holds_bind _ _ _ (λ e, writable (delivered print_json input e))).
  - eapply holds_bind; [apply holds_path|]. intros p ->.
    eapply (holds_bind _ _ _ (λ found : bool, found = false → writable (delivered print_json input None))).
    { apply holds_get. intros d Hd Hf%bool_decide_eq_false. apply (Hnew d Hd). by apply eq_None_not_Some. }
    intros [] Hf; [|by apply holds_ret, Hf].
    eapply holds_bind; [apply holds_load|]. intros t [Hid Ht]. by apply holds_ret, Hold.
  - intros e He. unfold deliver_store. destruct (rewrites_max input e); [apply holds_fail|].
    eapply holds_bind; [by apply save_keeps|]. intros _ _. by apply holds_ret.
Qed.
End operations.

(* ------------------------------------------------------------------ *)
(** ** Titles have owners *)

(** Every file holds the thread of its name. *)
Definition disk_wf (d : Disk) : Prop := ∀ id t, dk_files d !! id = Some (Some t) → th_id t = id.

Section titles.
  Context {tables : CharTables} {letters : Letters} {clusters : Graphemes}.
  Context (id title : string) (custom : bool).

(** The title is owned, by the user if [custom]. *)
Definition owned (t : Thread) : Prop :=
  th_title t = title ∧ (if custom then th_title_is_custom t = true else title_is_heuristic t = false).

Definition titled (d : Disk) : Prop :=
  disk_wf d ∧ ∃ t, dk_files d !! id = Some (Some t) ∧ owned t.

(** What may be written. *)
Definition good (t : Thread) : Prop := th_id t = id → owned t.

Lemma owned_heuristic t : owned t → title_is_heuristic t = false.
Proof. intros [_ H]. destruct custom; [|done]. unfold title_is_heuristic. by rewrite H. Qed.

Lemma titled_index_save data : holds titled (index_save data) (λ _, True).
Proof. by apply holds_write. Qed.

Lemma titled_load_or_create : holds titled load_or_create (λ _, True).
Proof.
  unfold load_or_create. eapply holds_bind; [by apply (holds_get _ _ (λ _, True))|]. intros [| |data] _.
  - eapply holds_bind; [apply titled_index_save|]. intros _ _. by apply holds_ret.
  - apply holds_fail.
  - destruct (_ <? _); [|by apply holds_ret]. eapply holds_bind; [by apply (holds_get _ _ (λ _, True))|]. intros e _.
    eapply holds_bind; [apply titled_index_save|]. intros _ _. by apply holds_ret.
Qed.

Lemma good_normalized t : good t → good (normalize_heuristic_title t).1.
Proof.
  intros Hg. unfold normalize_heuristic_title.
  destruct (title_is_heuristic t) eqn:Hh; simpl; [|done]. destruct (title_is_meaningful _); [done|].
  intros Hid. apply Hg, owned_heuristic in Hid. congruence.
Qed.

Lemma titled_save t : good t → holds titled (save_thread t) (λ _, True).
Proof.
  intros Hg. unfold save_thread, save_thread_locked.
  set (t' := if _ && _ then _ else t). assert (good t') as Hg'.
  { unfold t'. destruct (_ && _); [by apply good_normalized|done]. }
  clearbody t'. clear t Hg. eapply holds_bind; [apply holds_path|]. intros p ->. simpl.
  eapply holds_bind; [|intros _ _].
  - apply holds_write; [done|]. intros d [Hwf (t & Ht & Ho)]. split.
    + intros id' t1. simpl. rewrite lookup_insert_Some. intros [[<- [= <-]]|[_ H]]; [done|by apply Hwf].
    + simpl. destruct (decide_rel (=) (th_id t') id) as [He|He].
      * exists t'. rewrite He, lookup_insert_eq. split; [done|]. by apply Hg'.
      * exists t. by rewrite lookup_insert_ne.
  - eapply holds_bind; [apply titled_load_or_create|]. intros index _. apply titled_index_save.
Qed.

Lemma titled_raw id' : holds titled (load_thread_raw id') (λ t, th_id t = id' ∧ good t).
Proof.
  unfold load_thread_raw. eapply holds_bind; [apply holds_path|]. intros p ->.
  eapply holds_bind.
  - apply (holds_get _ _ (λ file, ∀ t, file = Some (Some t) → th_id t = id' ∧ good t)).
    intros d [Hwf (t & Ht & Ho)] t' Ht'. assert (th_id t' = id') as Hid by by apply Hwf. split; [done|].
    intros He. rewrite Hid in He. subst id'. by simplify_eq.
  - intros [[t|]|] Ht; [|apply holds_fail..]. by apply holds_ret, Ht.
Qed.

Lemma titled_delete id' : id' ≠ id → holds titled (delete_thread id') (λ _, True).
Proof.
  intros Hne. unfold delete_thread. eapply holds_bind; [apply holds_path|]. intros p ->.
  eapply holds_bind; [apply holds_exists|]. intros found _. eapply (holds_bind _ _ _ (λ _, True)).
  - destruct found; [|by apply holds_ret]. apply holds_write; [done|].
    intros d [Hwf (t & Ht & Ho)]. split.
    + intros id1 t1. simpl. rewrite lookup_delete_Some. intros [_ H]. by apply Hwf.
    + exists t. simpl. by rewrite lookup_delete_ne.
  - intros _ _. eapply holds_bind; [apply titled_load_or_create|]. intros index _. apply titled_index_save.
Qed.

Lemma titled_favorite id' f : holds titled (set_thread_favorite id' f) (λ _, True).
Proof.
  unfold set_thread_favorite, validate_thread_id. eapply (holds_bind _ _ _ (λ _, True)).
  { destruct (trim_is_empty id'); [by apply holds_fail|]. destruct (_ || _); [by apply holds_fail|by apply holds_ret]. }
  intros _ _. eapply holds_bind; [apply titled_load_or_create|]. intros index _.
  destruct (index_set_favorite id' f index) as [[index' []]|]; [|by apply holds_ret..].
  eapply holds_bind; [apply titled_index_save|]. intros _ _. by apply holds_ret.
Qed.
End titles.

(** The operations of the store and the gateway. *)
Inductive StoreOp :=
  | OpDeliver (input : ThreadDeliveryInput)
  | OpTitle (id title : string)
  | OpGenerated (id title : string)
  | OpFavorite (id : string) (is_favorite : bool)
  | OpDelete (id : string)
  | OpHeal
  | OpLoad (id : string)
  | OpRestore (id : string) (history_required : bool)
  | OpRecovery (note_at : nat → string * Z * Z) (id : string) (recovery : ConsultationRecovery).

Section runs.
  Context {tables : CharTables} {letters : Letters} {clusters : Graphemes} (print_json : Value → string).

(** One operation, its answer forgotten; further writes may be doomed. *)
Definition store_step (d : Disk) (op : StoreOp) : Disk :=
  match op with
  | OpDeliver input => (deliver print_json input d).1
  | OpTitle id title => (set_thread_title id title d).1
  | OpGenerated id title => (set_generated_title id title d).1
  | OpFavorite id f => (set_thread_favorite id f d).1
  | OpDelete id => (delete_thread id d).1
  | OpHeal => (heal_degenerate_titles d).1
  | OpLoad id => (load_thread id d).1
  | OpRestore id required => (restore_consultation print_json id required d).1
  | OpRecovery note_at id recovery => (record_consultation_recovery note_at id recovery d).1
  end.

(** The operations that may take the title of a thread: the user's, and the
    title provider's where the user has not renamed it. *)
Definition takes_title (id : string) (custom : bool) (op : StoreOp) : bool :=
  match op with
  | OpTitle id' _ | OpDelete id' => String.eqb id' id
  | OpGenerated id' _ => String.eqb id' id && negb custom
  | _ => false
  end.

Lemma store_step_titled id title custom d op :
  takes_title id custom op = false → titled id title custom d → titled id title custom (store_step d op).
Proof.
  intros Hop. pose proof (titled_save id title custom) as Hsave. pose proof (titled_load_or_create id title custom) as Hindex.
  pose proof (titled_raw id title custom) as Hraw. pose proof (good_normalized id title custom) as Hheal.
  destruct op as [input|id' new|id' new|id' f|id'| |id'|id' required|note_at id' recovery]; cbn [takes_title store_step] in *; intros Hd.
  - refine (proj1 (holds_deliver print_json _ _ Hsave Hraw Hheal input _ _ d Hd)).
    + intros t _ Hg Hid. specialize (Hg Hid). pose proof (owned_heuristic _ _ t Hg) as Hh. destruct Hg as [Ht Ho].
      unfold delivered. split; simpl; [by rewrite Hh|done].
    + intros d' (_ & t & Ht & _) Hnone Hid. simpl in Hid. congruence.
  - apply String.eqb_neq in Hop. refine (proj1 (holds_title _ _ Hsave Hraw Hheal id' new _ d Hd)).
    intros t t1 Hid _ He. simpl in He. congruence.
  - refine (proj1 (holds_generated _ _ Hsave Hraw Hheal id' new _ d Hd)). intros t t1 Hid Hg Hc He. simpl in He.
    specialize (Hg He). assert (id' = id) as -> by congruence. rewrite String.eqb_refl in Hop. destruct custom; [|done].
    destruct Hg as [_ Hg]. congruence.
  - by apply titled_favorite.
  - apply String.eqb_neq in Hop. by apply titled_delete.
  - by apply (holds_heal _ _ Hsave Hindex Hraw Hheal).
  - by apply (holds_load _ _ Hsave Hraw Hheal).
  - by apply (holds_restore print_json _ _ Hsave Hraw Hheal).
  - refine (proj1 (holds_recovery _ _ Hsave Hraw Hheal note_at id' recovery _ d Hd)).
    intros t t' Hg Hid Ht Hc Hgen He. rewrite Hid in He. specialize (Hg He).
    unfold owned, title_is_heuristic in *. by rewrite Ht, Hc, Hgen.
Qed.


(* ------------------------------------------------------------------ *)
(** ** The index lists the files *)

(** The rows of an index of this version; no file is an empty index. *)
Definition index_rows (d : Disk) : option (list ThreadSummary) :=
  match dk_index d with
  | IndexMissing => Some []
  | IndexUnreadable => None
  | IndexRead data => if ix_version data =? INDEX_VERSION then Some (ix_threads data) else None
  end.

(** No write is doomed, and the index lists the files with [F] as favourites. *)
Record projects (F : gset string) (d : Disk) : Prop := {
  pr_writes : dk_failures d = [];
  pr_wf : disk_wf d;
  pr_rows : ∃ rows, index_rows d = Some rows ∧ lists F (dk_files d) rows ∧ newest_first rows
}.

Definition with_rows (rows : list ThreadSummary) (d : Disk) : Disk :=
  d <| dk_index := IndexRead (mkIndexData INDEX_VERSION rows) |>.

Lemma load_or_create_clean d rows :
  dk_failures d = [] → index_rows d = Some rows →
  load_or_create d = (with_rows rows d, inr (mkIndexData INDEX_VERSION rows)).
Proof.
  intros Hf Hr. destruct d as [files index failures]. simpl in Hf. subst failures. unfold index_rows in Hr. simpl in Hr.
  unfold load_or_create, bind, get. simpl. destruct index as [| |[v l]]; simpl in *; [by simplify_eq|done|].
  destruct (Z.eqb_spec v INDEX_VERSION) as [->|]; [|done]. by simplify_eq.
Qed.

Lemma write_clean f d : dk_failures d = [] → write f d = (f d, inr tt).
Proof. intros Hf. destruct d as [files index failures]. simpl in Hf. by subst. Qed.

Lemma index_save_clean d data :
  dk_failures d = [] → index_save data d = (d <| dk_index := IndexRead data |>, inr tt).
Proof. apply write_clean. Qed.

(** What [add], [remove] and [set_favorite] save. *)
Lemma index_update d rows f :
  dk_failures d = [] → index_rows d = Some rows →
  (let! index := load_or_create in index_save (f index)) d = (d <| dk_index := IndexRead (f (mkIndexData INDEX_VERSION rows)) |>, inr tt).
Proof.
  intros Hf Hr. unfold bind. rewrite (load_or_create_clean d rows Hf Hr). by rewrite index_save_clean.
Qed.

Section projecting.
  Context (F : gset string).

Lemma projects_save t : holds (projects F) (save_thread t) (λ _, True).
Proof.
  unfold save_thread, save_thread_locked. set (t' := if _ && _ then _ else t). clearbody t'. clear t.
  eapply holds_bind; [apply holds_path|]. intros p ->. intros d [Hf Hwf (rows & Hr & Hl & Hs)]. split; [|done].
  unfold bind at 1, write_thread. rewrite write_clean by done.
  set (d1 := d <| dk_files ::= _ |>).
  assert (dk_failures d1 = []) as Hf1 by done. assert (index_rows d1 = Some rows) as Hr1 by done.
  rewrite (index_update d1 rows (index_add t') Hf1 Hr1). simpl.
  destruct (sort_facts (upsert_row t' rows)) as [Hp Hsort]. split.
  - done.
  - intros id t1. simpl. rewrite lookup_insert_Some. intros [[<- [= <-]]|[_ H]]; [done|by apply Hwf].
  - eexists. split; [done|]. split; [|done]. eapply lists_perm; [symmetry; exact Hp|]. by apply lists_upsert.
Qed.

Lemma projects_index : holds (projects F) load_or_create (λ _, True).
Proof.
  intros d [Hf Hwf (rows & Hr & Hl & Hs)]. rewrite (load_or_create_clean d rows Hf Hr). split; [|done].
  split; [done|done|]. by exists rows.
Qed.

Lemma projects_raw id : holds (projects F) (load_thread_raw id) (λ t, th_id t = id ∧ True).
Proof.
  unfold load_thread_raw. eapply holds_bind; [apply holds_path|]. intros p ->. eapply holds_bind.
  - apply (holds_get _ _ (λ file, ∀ t, file = Some (Some t) → th_id t = id ∧ True)).
    intros d [_ Hwf _] t Ht. split; [by apply Hwf|done].
  - intros [[t|]|] Ht; [|apply holds_fail..]. by apply holds_ret, Ht.
Qed.
End projecting.

Definition valid_id (id : string) : bool := match validate_thread_id id (mkDisk ∅ IndexMissing []) with (_, inr _) => true | _ => false end.

Lemma validate_valid id d : validate_thread_id id d = (d, if valid_id id then inr tt else (validate_thread_id id d).2).
Proof. unfold valid_id, validate_thread_id. destruct (trim_is_empty id); [done|]. by destruct (_ || _). Qed.

(** The favourites an operation leaves. *)
Definition favorites_after (op : StoreOp) (d : Disk) (F : gset string) : gset string :=
  match op with
  | OpFavorite id f =>
      if valid_id id && bool_decide (is_Some (dk_files d !! id)) then if f then {[ id ]} ∪ F else F ∖ {[ id ]} else F
  | OpDelete id => if valid_id id then F ∖ {[ id ]} else F
  | _ => F
  end.

Lemma projects_delete F d id :
  projects F d → projects (if valid_id id then F ∖ {[ id ]} else F) (delete_thread id d).1.
Proof.
  intros [Hf Hwf (rows & Hr & Hl & Hs)]. unfold delete_thread, thread_path. unfold bind at 1 2. rewrite validate_valid.
  destruct (valid_id id) eqn:Hv; simpl; last first.
  { unfold valid_id, validate_thread_id in *. destruct (trim_is_empty id); [by split; [..|exists rows]|].
    destruct (_ || _); [by split; [..|exists rows]|done]. }
  unfold bind at 1, path_exists, get. simpl.
  set (d1 := d <| dk_files := delete id (dk_files d) |>).
  assert (projects (F ∖ {[ id ]}) (with_rows (List.filter (λ s, negb (String.eqb (su_id s) id)) rows) d1)) as Hd1.
  { split; [done| |].
    - intros id1 t1. simpl. rewrite lookup_delete_Some. intros [_ H]. by apply Hwf.
    - eexists. split; [done|]. split; [by apply lists_remove|by apply newest_first_filter]. }
  unfold bind at 1. destruct (bool_decide_reflect (is_Some (dk_files d !! id))) as [Hin|Hin].
  - rewrite write_clean by done. cbn beta iota. by rewrite (index_update _ rows (index_remove id)).
  - simpl. rewrite (index_update d rows (index_remove id) Hf Hr). simpl.
    replace d with d1 at 1; [done|]. unfold d1. destruct d as [files index failures]. simpl in *.
    rewrite delete_id; [done|]. by apply eq_None_not_Some.
Qed.

Lemma find_row id l : List.find (λ s, String.eqb (su_id s) id) l = None ↔ id ∉ map su_id l.
Proof.
  induction l as [|s l IH]; simpl; [split; [intros _; apply not_elem_of_nil|done]|].
  rewrite not_elem_of_cons. destruct (String.eqb_spec (su_id s) id); [naive_solver|]. rewrite IH. naive_solver.
Qed.

Lemma favor_same id f l s :
  NoDup (map su_id l) → List.find (λ s, String.eqb (su_id s) id) l = Some s → su_is_favorite s = f → favor id f l = l.
Proof.
  intros _. induction l as [|x l IH]; simpl; [done|]. destruct (String.eqb (su_id x) id).
  - intros [= ->] <-. by destruct s.
  - intros H1 H2. by rewrite IH.
Qed.

Lemma projects_favorite F d id f :
  projects F d → projects (favorites_after (OpFavorite id f) d F) (set_thread_favorite id f d).1.
Proof.
  intros [Hf Hwf (rows & Hr & Hl & Hs)]. simpl. unfold set_thread_favorite. unfold bind at 1. rewrite validate_valid.
  destruct (valid_id id) eqn:Hv; simpl; last first.
  { unfold valid_id, validate_thread_id in *. destruct (trim_is_empty id); [by split; [..|exists rows]|].
    destruct (_ || _); [by split; [..|exists rows]|done]. }
  unfold bind. rewrite (load_or_create_clean d rows Hf Hr). unfold index_set_favorite. simpl.
  destruct (List.find _ rows) as [s|] eqn:Hfind; last first.
  - rewrite bool_decide_false; [split; [done|done|by exists rows]|]. intros Hin. apply find_row in Hfind.
    by apply Hfind, Hl.
  - assert (is_Some (dk_files d !! id)) as Hin.
    { apply find_some in Hfind as [Hin He]. apply String.eqb_eq in He as <-. rewrite <- list_elem_of_In in Hin.
      destruct (li_derived _ _ _ Hl s Hin) as [_ (g & Hg & _)]. by rewrite Hg. }
    rewrite bool_decide_true by done. pose proof (lists_favor F (dk_files d) rows id f Hl Hin) as Hl'.
    assert (newest_first (favor id f rows)) as Hs'.
    { eapply newest_first_map; [|exact Hs]. by rewrite favor_updated. }
    destruct (Bool.eqb (su_is_favorite s) f) eqn:He; simpl.
    + apply eqb_prop in He. rewrite (favor_same id f rows s (li_distinct _ _ _ Hl) Hfind He) in *.
      split; [done|done|by exists rows].
    + rewrite index_save_clean by done. split; [done|done|]. by eexists.
Qed.

(** C29: While no write fails, the index is the files: after any operations it has
    one row per thread file, newest first, each derived from its file as it is
    now, with the favourite flags set and not taken back since. *)
Theorem index_lists_files ops F d :
  projects F d →
  let '(F', d') := fold_left (λ s op, (favorites_after op s.2 s.1, store_step s.2 op)) ops (F, d) in projects F' d'.
Proof.
  revert F d. induction ops as [|op ops IH]; intros F d Hd; [done|]. simpl. apply IH. clear IH ops.
  pose proof (projects_save F) as Hsave. pose proof (projects_index F) as Hindex. pose proof (projects_raw F) as Hraw.
  assert (∀ t, (λ _ : Thread, True) t → holds (projects F) (save_thread t) (λ _, True)) as Hsave' by auto.
  assert (∀ t, (λ _ : Thread, True) t → (λ _ : Thread, True) (normalize_heuristic_title t).1) as Hheal by done.
  destruct op as [input|id new|id new|id f|id| |id|id required|note_at id recovery]; cbn [store_step].
  - by refine (proj1 (holds_deliver print_json _ _ Hsave' Hraw Hheal input _ _ d Hd)).
  - by refine (proj1 (holds_title _ _ Hsave' Hraw Hheal id new _ d Hd)).
  - by refine (proj1 (holds_generated _ _ Hsave' Hraw Hheal id new _ d Hd)).
  - by apply projects_favorite.
  - by apply projects_delete.
  - by apply (holds_heal _ _ Hsave' Hindex Hraw Hheal).
  - by apply (holds_load _ _ Hsave' Hraw Hheal).
  - by apply (holds_restore print_json _ _ Hsave' Hraw Hheal).
  - by refine (proj1 (holds_recovery _ _ Hsave' Hraw Hheal note_at id recovery _ d Hd)).
Qed.

(* ------------------------------------------------------------------ *)
(** ** A delivered consultation is read back *)

Lemma wf_save t : holds disk_wf (save_thread t) (λ _, True).
Proof.
  unfold save_thread, save_thread_locked. set (t' := if _ && _ then _ else t). clearbody t'.
  assert (∀ data, holds disk_wf (index_save data) (λ _, True)) as Hindex by (intros; by apply holds_write).
  eapply holds_bind; [apply holds_path|]. intros p ->. eapply holds_bind; [|intros _ _].
  - apply holds_write; [done|]. intros d Hwf id t1. simpl. rewrite lookup_insert_Some.
    intros [[<- [= <-]]|[_ H]]; [done|by apply Hwf].
  - eapply (holds_bind _ _ _ (λ _, True)); [|intros; apply Hindex]. unfold load_or_create.
    eapply holds_bind; [by apply (holds_get _ _ (λ _, True))|]. intros [| |data] _.
    + eapply holds_bind; [apply Hindex|]. intros _ _. by apply holds_ret.
    + apply holds_fail.
    + destruct (_ <? _); [|by apply holds_ret]. eapply holds_bind; [by apply (holds_get _ _ (λ _, True))|]. intros e _.
      eapply holds_bind; [apply Hindex|]. intros _ _. by apply holds_ret.
Qed.

Lemma wf_raw id : holds disk_wf (load_thread_raw id) (λ t, th_id t = id ∧ True).
Proof.
  unfold load_thread_raw. eapply holds_bind; [apply holds_path|]. intros p ->. eapply holds_bind.
  - apply (holds_get _ _ (λ file, ∀ t, file = Some (Some t) → th_id t = id ∧ True)).
    intros d Hwf t Ht. split; [by apply Hwf|done].
  - intros [[t|]|] Ht; [|apply holds_fail..]. by apply holds_ret, Ht.
Qed.

(** What a path check leaves of a program that got past it. *)
Lemma thread_path_ok id d d' p : thread_path id d = (d', inr p) → d' = d ∧ p = id ∧ valid_id id = true.
Proof.
  unfold thread_path, valid_id, validate_thread_id, bind. destruct (trim_is_empty id); [done|].
  destruct (_ || _); [done|]. simpl. by intros [= <- <-].
Qed.

Lemma index_keeps_files d : dk_files (load_or_create d).1 = dk_files d ∧ ∀ data, dk_files (index_save data d).1 = dk_files d.
Proof.
  assert (∀ data d, dk_files (index_save data d).1 = dk_files d) as Hs.
  { intros data d0. unfold index_save, write. by destruct (dk_failures d0) as [|[] l]. }
  split; [|done]. unfold load_or_create, bind, get. simpl. destruct (dk_index d) as [| |data]; [|done|].
  - pose proof (Hs index_default d). by destruct (index_save index_default d) as [d' [e|[]]].
  - destruct (_ <? _); [|done]. specialize (Hs (rebuild_index_from_threads (directory d) data) d).
    by destruct (index_save _ d) as [d' [e|[]]].
Qed.

(** All of a thread but its title. *)
Record same_but_title (t t' : Thread) : Prop := {
  bt_id : th_id t' = th_id t;
  bt_mode : th_mode t' = th_mode t;
  bt_messages : th_messages t' = th_messages t
}.

Lemma same_normalized t : same_but_title t (normalize_heuristic_title t).1.
Proof. unfold normalize_heuristic_title. by destruct (_ || _). Qed.

(** A save that answered wrote the thread, its title apart. *)
Lemma saved_file t d d' :
  save_thread t d = (d', inr tt) → ∃ t', dk_files d' !! th_id t = Some (Some t') ∧ same_but_title t t'.
Proof.
  unfold save_thread, save_thread_locked. set (t' := if _ && _ then _ else t).
  assert (same_but_title t t') as Ht'.
  { unfold t'. destruct (_ && _); [apply same_normalized|by split]. }
  clearbody t'. unfold bind at 1.
  destruct (thread_path _ d) as [d0 [e|p]] eqn:Hp; [done|]. apply thread_path_ok in Hp as (-> & -> & _).
  unfold bind at 1, write_thread, write. destruct (match dk_failures d with [] => _ | _ => _ end) as [[] rest]; [done|].
  set (d1 := _ <| dk_files ::= _ |>). intros H. exists t'. split; [|done].
  assert (dk_files d' = dk_files d1) as ->.
  { unfold bind in H. destruct (index_keeps_files d1) as [H1 _]. destruct (load_or_create d1) as [d2 [e|index]]; [done|].
    simpl in H1. destruct (index_keeps_files d2) as [_ H2]. specialize (H2 (index_add t' index)).
    rewrite H in H2. simpl in H2. by rewrite H2, H1. }
  unfold d1. simpl. by rewrite <- (bt_id _ _ Ht'), lookup_insert_eq.
Qed.

Lemma loaded_value id d t :
  dk_files d !! id = Some (Some t) → valid_id id = true → ∃ d', load_thread id d = (d', inr (normalize_heuristic_title t).1).
Proof.
  intros Ht Hv. unfold load_thread, load_thread_raw, thread_path. unfold bind at 1 2 3. rewrite validate_valid, Hv. simpl.
  unfold bind at 1, get. rewrite Ht. simpl. destruct (normalize_heuristic_title t) as [t' []]; simpl; [|by exists d].
  unfold bind, attempt. destruct (heal_file id d) as [d' r]. by exists d'.
Qed.

Lemma checked_messages l tms :
  Forall2 (λ m tm, try_to_message print_json tm = inr m) l tms → restore_messages_checked print_json tms = inr l.
Proof. induction 1 as [|m tm l tms Hm _ IH]; [done|]. simpl. by rewrite Hm, IH. Qed.

Lemma deliver_load_facts input :
  holds disk_wf (deliver_load input)
    (λ e, (∀ t, e = Some t → th_id t = dl_backend_id input) ∧ valid_id (dl_backend_id input) = true).
Proof.
  unfold deliver_load. eapply (holds_bind _ _ _ (λ p, p = dl_backend_id input ∧ valid_id (dl_backend_id input) = true)).
  { intros d Hd. destruct (thread_path _ d) as [d1 [e|p]] eqn:Hp; simpl.
    - split; [|done]. unfold thread_path, bind in Hp. rewrite validate_valid in Hp. by destruct (if valid_id _ then _ else _); simplify_eq.
    - apply thread_path_ok in Hp as (-> & -> & Hv). split; [done|]. by intros x [= <-]. }
  intros p [-> Hv]. eapply holds_bind; [apply holds_exists|]. intros [] _; [|by apply holds_ret].
  eapply (holds_bind _ _ _ (λ t, th_id t = dl_backend_id input ∧ True));
    [|intros t [Ht _]; apply holds_ret; split; [by intros ? [= <-]|done]].
  apply (holds_load _ (λ _, True)).
  - intros t _. apply wf_save.
  - apply wf_raw.
  - done.
Qed.

(** What the checked reader answers of a stored consultation. *)
Lemma restore_found id required d t :
  valid_id id = true → dk_files d !! id = Some (Some t) → th_id t = id → th_mode t = MAX_CONSULTATION_MODE →
  (restore_consultation print_json id required d).2 =
    match restore_messages_checked print_json (th_messages t) with
    | inl e => inl (HistoryRefused e)
    | inr l => match validate_consultation_tool_history l with inl e => inl (HistoryRefused e) | inr _ => inr l end
    end.
Proof.
  intros Hv Ht Hid Hmode. destruct (loaded_value id d t Ht Hv) as [d2 Hload].
  destruct (same_normalized t) as [H1 H2 H3].
  unfold restore_consultation, thread_path, path_exists, get, bind, ret. rewrite validate_valid, Hv. cbn beta iota.
  rewrite Ht, bool_decide_true by done. cbn beta iota delta [negb]. rewrite Hload. cbn beta iota.
  rewrite H1, H2, H3, Hid, Hmode, String.eqb_refl. cbn beta iota delta [negb andb].
  change (String.eqb MAX_CONSULTATION_MODE MAX_CONSULTATION_MODE) with true. cbn beta iota delta [negb andb].
  destruct (restore_messages_checked print_json (th_messages t)) as [e|l]; [done|]. cbn beta iota delta [of_result ret].
  by destruct (validate_consultation_tool_history l).
Qed.

Lemma delivered_fields input existing :
  th_mode (delivered print_json input existing) = dl_mode input ∧
  th_messages (delivered print_json input existing) = dl_messages input ∧
  ((∀ t, existing = Some t → th_id t = dl_backend_id input) →
   th_id (delivered print_json input existing) = dl_backend_id input).
Proof.
  unfold delivered. generalize (derive_thread_summary (map (to_message print_json) (dl_messages input))).
  generalize (derive_thread_title (map (to_message print_json) (dl_messages input))). intros derived summary.
  destruct existing as [t|]; cbn.
  - split; [reflexivity|]. split; [reflexivity|]. intros H. by apply H.
  - split; [reflexivity|]. split; reflexivity.
Qed.

(** What a delivery with a receipt leaves on the disk. *)
Lemma delivered_file input d d' receipt :
  disk_wf d → deliver print_json input d = (d', inr receipt) →
  valid_id (dl_backend_id input) = true ∧
  ∃ t, dk_files d' !! dl_backend_id input = Some (Some t) ∧ th_id t = dl_backend_id input ∧
    th_mode t = dl_mode input ∧ th_messages t = dl_messages input.
Proof.
  intros Hwf Hd. unfold deliver in Hd. unfold bind at 1 in Hd.
  destruct (deliver_load_facts input d Hwf) as [_ He].
  destruct (deliver_load input d) as [d0 [e|existing]]; [done|].
  destruct (He existing eq_refl) as [Hid Hv]. clear He. split; [done|].
  unfold deliver_store in Hd. destruct (rewrites_max input existing); [done|].
  destruct (delivered_fields input existing) as (H1 & H2 & H3). specialize (H3 Hid).
  revert Hd H1 H2 H3. generalize (delivered print_json input existing) as t. intros t Hd H1 H2 H3.
  unfold bind in Hd. destruct (save_thread t d0) as [d1 [e|[]]] eqn:Hsaved; [done|].
  assert (d1 = d') as <- by (unfold ret in Hd; congruence). clear Hd.
  apply saved_file in Hsaved as (t' & Hfile & [B1 B2 B3]).
  exists t'. rewrite H3 in Hfile. split; [done|]. split; [congruence|]. split; congruence.
Qed.

End runs.

(* ------------------------------------------------------------------ *)
(** ** A concrete store *)

#[local] Instance ex_tables : CharTables := ascii_tables.
#[local] Instance ex_letters : Letters := {|
  is_alphabetic c := ((65 <=? c) && (c <=? 90)) || ((97 <=? c) && (c <=? 122));
  is_lowercase c := (97 <=? c) && (c <=? 122)
|}.
#[local] Instance ex_graphemes : Graphemes := λ s, map snd (utf8_chars s).

Definition ex_print (v : Value) : string := "?".
Definition ex_save (w : unit) (data : list Byte.byte) (media_type : string) : unit * option ImageAsset := (w, None).

(** A question, two calls answered out of order, an answer. *)
Definition ex_history : list Message :=
  [mkMessage RoleUser [BlockText "fix the build"] (Some 1);
   mkMessage RoleAssistant [BlockToolUse "c1" "read" VNull; BlockToolUse "c2" "read" VNull] (Some 2);
   mkMessage RoleUser [BlockToolResult "c2" [BlockText "two"] false] (Some 3);
   mkMessage RoleUser [BlockToolResult "c1" [BlockText "one"] true] (Some 4);
   mkMessage RoleAssistant [BlockText "done"] (Some 5)]%string.

Definition ex_delivery (mode : string) : ThreadDeliveryInput :=
  {| dl_backend_id := "t_a"; dl_messages := map (λ m, (from_message ex_save tt 0 m).2) ex_history;
     dl_provider := "p"; dl_model := "m"; dl_mode := mode; dl_tags := []; dl_timestamp := 9 |}.

Definition ex_disk : Disk := mkDisk ∅ IndexMissing [].

Definition ex_delivered (mode : string) : Disk := (deliver ex_print (ex_delivery mode) ex_disk).1.

Definition ex_title (d : Disk) (id : string) : option string := f ← dk_files d !! id; t ← f; Some (th_title t).

Example ex_heuristic_title : ex_title (ex_delivered "max") "t_a" = Some "fix the build"%string.
Proof. vm_compute. reflexivity. Qed.

(** A rename between the two halves of a delivery is lost. *)
Example rename_during_delivery_lost :
  let loaded := deliver_load (ex_delivery "chat") (ex_delivered "chat") in
  let renamed := set_thread_title "t_a" "my build" loaded.1 in
  match loaded.2 with
  | inr existing => ex_title (deliver_store ex_print (ex_delivery "chat") existing renamed.1).1 "t_a" = Some "fix the build"%string
  | inl _ => False
  end ∧ ex_title renamed.1 "t_a" = Some "my build"%string ∧ renamed.2 = inr true.
Proof. vm_compute. done. Qed.

(** Without its file the index is created empty beside the threads. *)
Example missing_index_not_rebuilt :
  (heal_degenerate_titles ((ex_delivered "chat") <| dk_index := IndexMissing |>)).1.(dk_index) = IndexRead (mkIndexData 4 []).
Proof. vm_compute. reflexivity. Qed.

(** A non-Max lane cannot rewrite a consultation. *)
Example max_not_rewritten : (deliver ex_print (ex_delivery "chat") (ex_delivered "max")).2 = inl MaxRewritten.
Proof. vm_compute. reflexivity. Qed.

Definition wf_check (d : Disk) : bool :=
  forallb (λ f : string * option Thread, match f.2 with Some t => String.eqb (th_id t) f.1 | None => true end)
    (map_to_list (dk_files d)).

Lemma wf_check_ok d : wf_check d = true → disk_wf d.
Proof.
  unfold wf_check. rewrite forallb_forall. intros H id t Ht. apply String.eqb_eq. apply (H (id, Some t)).
  rewrite <- list_elem_of_In. by apply elem_of_map_to_list.
Qed.

Definition ex_ops : list StoreOp :=
  [OpDeliver (ex_delivery "chat"); OpGenerated "t_a" "a generated title"; OpFavorite "t_a" true; OpHeal; OpLoad "t_b";
   OpDelete "t_b"]%string.


Lemma index_lists_files_witness :
  let d := mkDisk ∅ IndexMissing [] in
  projects ∅ d ∧
  projects {[ "t_a"%string ]} (fold_left (store_step ex_print) ex_ops d) ∧
  match dk_index (fold_left (store_step ex_print) ex_ops d) with IndexRead data => map su_id (ix_threads data) | _ => [] end = ["t_a"%string].
Proof.
  intros d. assert (projects ∅ d) as Hd.
  { split; [done|intros id t Ht; cbn in Ht; by apply lookup_empty_Some in Ht|]. exists []. split; [done|]. split; [|constructor].
    split; [constructor|intros s Hs; by apply not_elem_of_nil in Hs|intros id [x Hx]; cbn in Hx; by apply lookup_empty_Some in Hx|intros id Hid; set_solver]. }
  split; [exact Hd|]. split; [|vm_compute; reflexivity].
  pose proof (index_lists_files ex_print ex_ops ∅ d Hd) as H.
  assert (fold_left (λ s op, (favorites_after op s.2 s.1, store_step ex_print s.2 op)) ex_ops (∅, d)
          = ({[ "t_a"%string ]}, fold_left (store_step ex_print) ex_ops d)) as He by (vm_compute; reflexivity).
  rewrite He in H. exact H.
Defined.

