(* ===== verification/RunMonitor.v ===== *)
(** RunMonitor: watching external runs and telling their threads
    (core/agent/run_monitor.rs, app/agent/monitor.rs).

    A registered monitor survives a restart; each tick of the service observes
    the monitors that are due, delivers a heartbeat into the thread when the
    state of the run is worth one, and checkpoints the monitor.  The files of
    the observed runs are [RunFiles], another instant of them for every look.
    An instant is nanoseconds. *)

From S2P Require Import Prelude.
From S2P Require Import Text.
From S2P Require Import BTree.
From S2P Require Import Json.
From S2P Require Import GroupAlignment.
From S2P Require Import ThreadRecord.
From S2P Require Import ThreadIndex.
From S2P Require Import StateError.
From S2P Require Import ThreadStore.
From S2P Require Import ThreadDelivery.
#[local] Open Scope Z_scope.
#[local] Open Scope mach_scope.
#[local] Open Scope store_scope.

Definition DEFAULT_POLL_INTERVAL_SECS : Z := 15.
Definition DEFAULT_STALE_AFTER_SECS : Z := 300.
Definition MAX_HEARTBEAT_EXCERPT_BYTES : Z := 2048.
Definition MAX_READ_FAILURES_BEFORE_BLOCKED : Z := 5.
Definition MAX_BACKOFF_SECS : Z := 300.

Inductive RunMonitorState := Started | Running | Stale | Blocked | Completed | Failed | NeedsRerun.

#[global] Instance RunMonitorState_eq_dec : EqDecision RunMonitorState.
Proof. solve_decision. Defined.

Definition state_name (s : RunMonitorState) : string :=
  match s with
  | Started => "started" | Running => "running" | Stale => "stale" | Blocked => "blocked"
  | Completed => "completed" | Failed => "failed" | NeedsRerun => "needs-rerun"
  end.

Definition is_terminal (s : RunMonitorState) : bool :=
  match s with Completed | Failed | NeedsRerun => true | _ => false end.

Record RunMonitorRecord := mkMonitor {
  mo_monitor_id : string;
  mo_run_id : string;
  mo_thread_store_id : string;
  mo_meta_path : string;
  mo_transcript_path : option string;
  mo_report_path : option string;
  mo_state : RunMonitorState;
  mo_created_at : Z;
  mo_updated_at : Z;
  mo_last_notified_state : option RunMonitorState;
  mo_done : bool;
  mo_cancelled : bool;
  mo_poll_interval_secs : Z;
  mo_stale_after_secs : Z;
  mo_consecutive_read_failures : Z;
  mo_next_poll_at : Z;
  mo_meta_len : Z;
  mo_transcript_len : Z
}.

Definition is_active (r : RunMonitorRecord) : bool := negb (mo_done r) && negb (mo_cancelled r).

Record RunMonitorRegistration := mkRegistration {
  rg_run_id : string;
  rg_thread_store_id : string;
  rg_meta_path : string;
  rg_transcript_path : option string;
  rg_report_path : option string;
  rg_poll_interval_secs : Z;
  rg_stale_after_secs : Z
}.

(* ------------------------------------------------------------------ *)
(** ** The monitor store *)

(** [monitors.json]: absent, not readable as a store, or its list. *)
Inductive MonitorFile := MonitorsMissing | MonitorsUnreadable | MonitorsRead (monitors : list RunMonitorRecord).

Inductive MonitorError :=
  | MonitorStoreUnreadable
  | MonitorWriteFailed
  | MonitorNotRegistered
  | InvalidRunId
  | NoDurableThread
  | NoControlPlaneMeta
  | ThreadError (e : StoreError).

(** The monitors and the threads; both write to one disk. *)
Record MonitorWorld := mkWorld { mw_monitors : MonitorFile; mw_disk : Disk }.

Abbreviation MM := (SM MonitorWorld MonitorError).

(** A program of the thread store. *)
Definition on_threads {A} (m : M A) : MM A :=
  λ w, let '(d, r) := m (mw_disk w) in
       (w <| mw_disk := d |>, match r with inl e => inl (ThreadError e) | inr x => inr x end).

Definition load : MM (list RunMonitorRecord) :=
  λ w, (w, match mw_monitors w with
           | MonitorsMissing => inr []
           | MonitorsUnreadable => inl MonitorStoreUnreadable
           | MonitorsRead l => inr l
           end).

Definition save (l : list RunMonitorRecord) : MM unit :=
  λ w,
    let '(failed, rest) := match dk_failures (mw_disk w) with [] => (false, []) | b :: rest => (b, rest) end in
    let w := w <| mw_disk ::= (λ d, d <| dk_failures := rest |>) |> in
    if failed then (w, inl MonitorWriteFailed) else (w <| mw_monitors := MonitorsRead l |>, inr tt).

Definition same_pair (registration : RunMonitorRegistration) (r : RunMonitorRecord) : bool :=
  is_active r && String.eqb (mo_run_id r) (rg_run_id registration)
  && String.eqb (mo_thread_store_id r) (rg_thread_store_id registration).

(** [uuid] is the fresh identity the registration draws. *)
Definition new_monitor (registration : RunMonitorRegistration) (uuid : string) (now : Z) : RunMonitorRecord :=
  {| mo_monitor_id := ("mon-" +:+ uuid)%string; mo_run_id := rg_run_id registration;
     mo_thread_store_id := rg_thread_store_id registration; mo_meta_path := rg_meta_path registration;
     mo_transcript_path := rg_transcript_path registration; mo_report_path := rg_report_path registration;
     mo_state := Started; mo_created_at := now; mo_updated_at := now; mo_last_notified_state := None; mo_done := false;
     mo_cancelled := false; mo_poll_interval_secs := Z.max (rg_poll_interval_secs registration) 1;
     mo_stale_after_secs := Z.max (rg_stale_after_secs registration) 1; mo_consecutive_read_failures := 0;
     mo_next_poll_at := now; mo_meta_len := 0; mo_transcript_len := 0 |}.

Definition register (registration : RunMonitorRegistration) (uuid : string) (now : Z) : MM RunMonitorRecord :=
  let! monitors := load in
  match List.find (same_pair registration) monitors with
  | Some existing => ret existing
  | None =>
      let record := new_monitor registration uuid now in
      let! _ := save (monitors ++ [record]) in
      ret record
  end.

Definition list_monitors : MM (list RunMonitorRecord) := load.

Definition active : MM (list RunMonitorRecord) := let! monitors := load in ret (List.filter is_active monitors).

Definition get_monitor (monitor_id : string) : MM (option RunMonitorRecord) :=
  let! monitors := load in ret (List.find (λ r, String.eqb (mo_monitor_id r) monitor_id) monitors).

(** The first record of the identity, changed; [None] when there is none. *)
Fixpoint change_monitor (monitor_id : string) (f : RunMonitorRecord → RunMonitorRecord) (l : list RunMonitorRecord)
    : option (list RunMonitorRecord) :=
  match l with
  | [] => None
  | r :: rest =>
      if String.eqb (mo_monitor_id r) monitor_id then Some (f r :: rest)
      else (λ l, r :: l) <$> change_monitor monitor_id f rest
  end.

Definition update (record : RunMonitorRecord) : MM unit :=
  let! monitors := load in
  match change_monitor (mo_monitor_id record) (λ _, record) monitors with
  | None => fail MonitorNotRegistered
  | Some monitors => save monitors
  end.

Definition cancel (monitor_id : string) (now : Z) : MM bool :=
  let! monitors := load in
  match change_monitor monitor_id (λ r, r <| mo_cancelled := true |> <| mo_done := true |> <| mo_updated_at := now |>) monitors with
  | None => ret false
  | Some monitors => let! _ := save monitors in ret true
  end.

(* ------------------------------------------------------------------ *)
(** ** Observation *)

Record RunMetaSnapshot := mkMeta {
  me_status : option string;
  me_exit_code : option Z;
  me_completed_at : option string;
  me_report : option string;
  me_transcript : option string
}.

Definition meta_default : RunMetaSnapshot := mkMeta None None None None None.

(** The files of the observed runs, as one look finds them.  [rf_read_meta] is
    the file read and parsed; [rf_modified] may be unknown. *)
Record RunFiles := mkFiles {
  rf_exists : string → bool;
  rf_canonicalize : string → option string;
  rf_len : string → option Z;
  rf_modified : string → option Z;
  rf_read_meta : string → option RunMetaSnapshot;
  rf_is_file : string → bool;
  rf_content : string → option string
}.

Record RunObservation := mkObservation {
  ob_state : RunMonitorState;
  ob_exit_code : option Z;
  ob_meta_status : option string;
  ob_report_present : bool;
  ob_report_path : option string;
  ob_meta_len : Z;
  ob_transcript_len : Z
}.

(** [x as i64] of a [u64]. *)
Definition as_i64 (z : Z) : Z := if z <? 2 ^ 63 then z else z - 2 ^ 64.

Definition is_status (status : option string) (s : string) : bool := bool_decide (status = Some s).

Definition classify_run_state (meta_status : option string) (exit_code : option Z)
    (completed_at_present report_present : bool) (age_secs stale_after_secs : Z) (progressed : bool) : RunMonitorState :=
  let terminal_meta :=
    is_status meta_status "completed" || is_status meta_status "failed" || completed_at_present
    || bool_decide (is_Some exit_code) in
  if terminal_meta
  then
    if is_status meta_status "failed" || negb (default 0 exit_code =? 0) then Failed
    else if report_present then Completed else NeedsRerun
  else if is_status meta_status "blocked" then Blocked
  else if progressed then Running
  else if as_i64 stale_after_secs <=? age_secs then if report_present then Completed else Stale
  else Started.

Definition NANOS : Z := 10 ^ 9.

(** [None] is an unreadable meta surface. *)
Definition observe_record (files : RunFiles) (r : RunMonitorRecord) (now : Z) : option RunObservation :=
  meta_path ← rf_canonicalize files (mo_meta_path r);
  meta_len ← rf_len files meta_path;
  let age_secs := match rf_modified files meta_path with Some modified => (now - modified) `quot` NANOS | None => 0 end in
  snapshot ← rf_read_meta files meta_path;
  let artifact (known noted : option string) :=
    (match known with Some p => Some p | None => noted end) ≫= rf_canonicalize files in
  let report_path := artifact (mo_report_path r) (me_report snapshot) in
  let report_present := match report_path with Some p => rf_is_file files p | None => false end in
  let transcript_len := default 0 (artifact (mo_transcript_path r) (me_transcript snapshot) ≫= rf_len files) in
  let progressed := (mo_meta_len r =? 0) || negb (meta_len =? mo_meta_len r) || negb (transcript_len =? mo_transcript_len r) in
  let state :=
    classify_run_state (me_status snapshot) (me_exit_code snapshot) (bool_decide (is_Some (me_completed_at snapshot)))
      report_present age_secs (mo_stale_after_secs r) progressed in
  Some (mkObservation state (me_exit_code snapshot) (me_status snapshot) report_present report_path meta_len transcript_len).

(* ------------------------------------------------------------------ *)
(** ** Heartbeats *)

Inductive HeartbeatKind := HbRecovered | HbStalled | HbBlocked | HbCompleted | HbFailed | HbNeedsRerun.

Definition decide_heartbeat (r : RunMonitorRecord) (new_state : RunMonitorState) : option HeartbeatKind :=
  if mo_done r || mo_cancelled r then None
  else if bool_decide (mo_last_notified_state r = Some new_state) then None
  else
    match new_state with
    | Started => None
    | Running => match mo_last_notified_state r with Some (Stale | Blocked) => Some HbRecovered | _ => None end
    | Stale => Some HbStalled
    | Blocked => Some HbBlocked
    | Completed => Some HbCompleted
    | Failed => Some HbFailed
    | NeedsRerun => Some HbNeedsRerun
    end.

Definition next_poll_delay_secs (base_interval_secs consecutive_failures : Z) : Z :=
  Z.max 1 (Z.min (sat_mul base_interval_secs (Z.shiftl 1 (Z.min consecutive_failures 8))) MAX_BACKOFF_SECS).

Definition show_i64 (z : Z) : string := if z <? 0 then ("-" +:+ show_u64 (- z))%string else show_u64 z.

Definition backtick_str (s : string) : string := ("`" +:+ s +:+ "`")%string.

Definition heartbeat_text (kind : HeartbeatKind) (r : RunMonitorRecord) (ob : RunObservation) (excerpt : option string) : string :=
  let run := ("Run " +:+ backtick_str (mo_run_id r))%string in
  let text :=
    match kind with
    | HbRecovered => run +:+ " recovered and is progressing again."
    | HbStalled => run +:+ " looks stalled: no control-plane progress for over " +:+ show_u64 (mo_stale_after_secs r) +:+ "s."
    | HbBlocked => run +:+ " is blocked: its control-plane meta is unreadable or reports a block."
    | HbCompleted =>
        match ob_report_path ob with Some report => run +:+ " completed. Report: " +:+ report | None => run +:+ " completed." end
    | HbFailed =>
        match ob_exit_code ob with Some code => run +:+ " failed (exit code " +:+ show_i64 code +:+ ")." | None => run +:+ " failed." end
    | HbNeedsRerun => run +:+ " claims success but its promised report artifact is missing — needs rerun."
    end%string in
  match excerpt with
  | Some excerpt =>
      (text +:+ String newline (String newline "Last output:") +:+ String newline ("```" +:+ String newline excerpt)
       +:+ String newline "```")%string
  | None => text
  end.

Definition blocked_text (r : RunMonitorRecord) : string :=
  ("Run " +:+ backtick_str (mo_run_id r) +:+ " monitor is blocked: " +:+ show_u64 (mo_consecutive_read_failures r)
   +:+ " consecutive failures reading " +:+ mo_meta_path r +:+ ".")%string.

Definition is_valid_run_id (run_id : string) : bool :=
  negb (String.eqb run_id "") && (Z.of_nat (String.length run_id) <=? 128)
  && all_bytes (λ c, is_ascii_alphanumeric c || existsb (Ascii.eqb c) (map Ascii.ascii_of_nat [45; 95; 46]%nat)) run_id
  && negb (starts_with run_id ".").

Section service.
Context {tables : CharTables} {letters : Letters} {clusters : Graphemes}.
Context (print_json : Value → string) (from_utf8_lossy : string → string).

(** The last bytes, decoded and trimmed. *)
Definition bounded_tail (files : RunFiles) (path : string) (max_bytes : Z) : option string :=
  content ← rf_content files path;
  let n := Z.of_nat (String.length content) in
  if n =? 0 then None
  else
    let trimmed := trim (from_utf8_lossy (suffix content (Z.to_nat (sat_sub n max_bytes)))) in
    if String.eqb trimmed "" then None else Some trimmed.

Definition terminal_excerpt (files : RunFiles) (kind : HeartbeatKind) (r : RunMonitorRecord) : option string :=
  match kind with
  | HbCompleted | HbFailed | HbNeedsRerun =>
      mo_transcript_path r ≫= λ path, bounded_tail files path MAX_HEARTBEAT_EXCERPT_BYTES
  | _ => None
  end.

Definition heartbeat_message (r : RunMonitorRecord) (text : string) (state : RunMonitorState) (now : Z) : ThreadMessage :=
  mkThreadMessage "assistant" [VObject [("text", VString text); ("type", VString "text")]%string] now
    (Some (VObject [("kind", VString "run-monitor-heartbeat"); ("monitor_id", VString (mo_monitor_id r));
                    ("run_id", VString (mo_run_id r)); ("state", VString (state_name state))]%string)).

Definition heartbeat_delivery (existing : option Thread) (r : RunMonitorRecord) (text : string) (state : RunMonitorState) (now : Z)
    : ThreadDeliveryInput :=
  let heartbeat := heartbeat_message r text state now in
  match existing with
  | Some t =>
      mkDelivery (mo_thread_store_id r) (th_messages t ++ [heartbeat]) (th_provider t) (th_model t) (th_mode t) (th_tags t) now
  | None =>
      mkDelivery (mo_thread_store_id r) [heartbeat] "run-monitor" "run-monitor" "assistive" ["agent"%string] now
  end.

Definition deliver_heartbeat (r : RunMonitorRecord) (text : string) (state : RunMonitorState) (now : Z) : M unit :=
  let! path := thread_path (mo_thread_store_id r) in
  let! found := path_exists path in
  let! existing := (if found then let! t := load_thread (mo_thread_store_id r) in ret (Some t) else ret None) in
  let! _ := deliver print_json (heartbeat_delivery existing r text state now) in
  ret tt.

(* ------------------------------------------------------------------ *)
(** ** One tick *)

Record TickSummary := mkTick { ti_polled : Z; ti_heartbeats : Z; ti_finished : Z }.

Definition tick_default : TickSummary := mkTick 0 0 0.

Definition wrap_u32 (z : Z) : Z := z `mod` 2 ^ 32.

(** A run that could be observed: the record to checkpoint. *)
Definition tick_observed (files : RunFiles) (r : RunMonitorRecord) (ob : RunObservation) (now : Z) (summary : TickSummary)
    : MM (RunMonitorRecord * TickSummary) :=
  let r :=
    r <| mo_consecutive_read_failures := 0 |> <| mo_state := ob_state ob |> <| mo_meta_len := ob_meta_len ob |>
      <| mo_transcript_len := ob_transcript_len ob |> in
  let! s :=
    match decide_heartbeat r (ob_state ob) with
    | None => ret (r, summary)
    | Some kind =>
        let text := heartbeat_text kind r ob (terminal_excerpt files kind r) in
        let! _ := on_threads (deliver_heartbeat r text (ob_state ob) now) in
        let r := r <| mo_last_notified_state := Some (ob_state ob) |> in
        let summary := summary <| ti_heartbeats ::= Z.add 1 |> in
        ret (if is_terminal (ob_state ob) then (r <| mo_done := true |>, summary <| ti_finished ::= Z.add 1 |>) else (r, summary))
    end in
  let '(r, summary) := s in
  ret (r <| mo_next_poll_at := now + as_i64 (mo_poll_interval_secs r) * NANOS |>, summary).

(** A run whose meta surface could not be read. *)
Definition tick_unreadable (r : RunMonitorRecord) (now : Z) (summary : TickSummary) : MM (RunMonitorRecord * TickSummary) :=
  let r := r <| mo_consecutive_read_failures ::= (λ n, wrap_u32 (n + 1)) |> in
  let! s :=
    if MAX_READ_FAILURES_BEFORE_BLOCKED <=? mo_consecutive_read_failures r
    then
      let r := r <| mo_state := Blocked |> in
      match decide_heartbeat r Blocked with
      | None => ret (r, summary)
      | Some _ =>
          let! _ := on_threads (deliver_heartbeat r (blocked_text r) Blocked now) in
          ret (r <| mo_last_notified_state := Some Blocked |>, summary <| ti_heartbeats ::= Z.add 1 |>)
      end
    else ret (r, summary) in
  let '(r, summary) := s in
  let delay := next_poll_delay_secs (mo_poll_interval_secs r) (mo_consecutive_read_failures r) in
  ret (r <| mo_next_poll_at := now + as_i64 delay * NANOS |>, summary).

(** [look k] is the world the [k]-th observation of the tick finds. *)
Definition tick_record (files : RunFiles) (r : RunMonitorRecord) (now : Z) (summary : TickSummary) : MM TickSummary :=
  if now <? mo_next_poll_at r then ret summary
  else
    let summary := summary <| ti_polled ::= Z.add 1 |> in
    let! s :=
      match observe_record files r now with
      | Some ob => tick_observed files r ob now summary
      | None => tick_unreadable r now summary
      end in
    let '(r, summary) := s in
    let! _ := update (r <| mo_updated_at := now |>) in
    ret summary.

Fixpoint tick_records (look : nat → RunFiles) (k : nat) (records : list RunMonitorRecord) (now : Z) (summary : TickSummary)
    : MM TickSummary :=
  match records with
  | [] => ret summary
  | r :: rest => let! summary := tick_record (look k) r now summary in tick_records look (S k) rest now summary
  end.

Definition tick_all (look : nat → RunFiles) (now : Z) : MM TickSummary :=
  let! records := active in tick_records look 0 records now tick_default.

(* ------------------------------------------------------------------ *)
(** ** Registration *)

Definition validate_registration (run_id thread_store_id : string) : MM unit :=
  if negb (is_valid_run_id run_id) then fail InvalidRunId
  else if trim_is_empty thread_store_id || String.eqb thread_store_id "unbound" then fail NoDurableThread
  else ret tt.

(** [Path::join] of relative names. *)
Definition join_path (dir name : string) : string :=
  if ends_with dir "/" || String.eqb dir "" then (dir +:+ name)%string else (dir +:+ "/" +:+ name)%string.

Definition register_run_monitor_in (files : RunFiles) (control_plane_root run_id thread_store_id uuid : string) (now : Z)
    : MM RunMonitorRecord :=
  let! _ := validate_registration run_id thread_store_id in
  let run_dir := join_path (join_path control_plane_root "runtime_runs") run_id in
  let meta_path := join_path run_dir "meta.json" in
  if negb (rf_exists files meta_path) then fail NoControlPlaneMeta
  else
    let snapshot := default meta_default (rf_canonicalize files meta_path ≫= rf_read_meta files) in
    register
      (mkRegistration run_id thread_store_id meta_path
         (Some (default (join_path run_dir "transcript.log") (me_transcript snapshot))) (me_report snapshot)
         DEFAULT_POLL_INTERVAL_SECS DEFAULT_STALE_AFTER_SECS) uuid now.
End service.
