(* ===== verification/RunMonitorFacts.v ===== *)
(** RunMonitorFacts: what the thread of a monitored run is told. *)

From S2P Require Import Prelude.
From S2P Require Import Text.
From S2P Require Import BTree.
From S2P Require Import Json.
From S2P Require Import JsonFields.
From S2P Require Import GroupAlignment.
From S2P Require Import ThreadRecord.
From S2P Require Import ThreadIndex.
From S2P Require Import ThreadIndexFacts.
From S2P Require Import StateError.
From S2P Require Import ThreadStore.
From S2P Require Import ThreadDelivery.
From S2P Require Import ThreadStoreFacts.
From S2P Require Import RunMonitor.
#[local] Open Scope Z_scope.
#[local] Open Scope mach_scope.
#[local] Open Scope store_scope.

(* ------------------------------------------------------------------ *)
(** ** One heartbeat on a disk whose writes succeed *)

Definition messages_of (d : Disk) (id : string) : list ThreadMessage :=
  match dk_files d !! id with Some (Some t) => th_messages t | _ => [] end.

Section delivery.
  Context {tables : CharTables} {letters : Letters} {clusters : Graphemes} (print_json : Value → string).
  Context (F : gset string).

(** A disk that works, with these messages. *)
Definition clean (m0 : string → list ThreadMessage) (d : Disk) : Prop := projects F d ∧ ∀ id, messages_of d id = m0 id.

Lemma save_cases t d :
  projects F d →
  (valid_id (th_id t) = false ∧ ∃ e, save_thread t d = (d, inl e)) ∨
  (valid_id (th_id t) = true ∧ ∃ t' d', same_but_title t t' ∧ save_thread t d = (d', inr tt) ∧
     dk_files d' = <[th_id t := Some t']> (dk_files d)).
Proof.
  intros [Hf _ (rows & Hr & _)].
  set (t' := if title_is_heuristic t && negb (title_is_meaningful (th_title t)) then (normalize_heuristic_title t).1 else t).
  assert (same_but_title t t') as Ht' by (unfold t'; destruct (_ && _); [apply same_normalized|by split]).
  assert (save_thread t d =
    (let! path := thread_path (th_id t') in let! _ := write_thread path t' in
     let! index := load_or_create in index_save (index_add t' index)) d) as -> by done.
  clearbody t'. rewrite (bt_id _ _ Ht'). unfold thread_path. destruct (valid_id (th_id t)) eqn:Hv.
  - right. split; [done|]. set (d1 := d <| dk_files ::= <[th_id t := Some t']> |>).
    exists t', (d1 <| dk_index := IndexRead (index_add t' (mkIndexData INDEX_VERSION rows)) |>).
    split; [done|]. split; [|done]. unfold bind at 1. unfold bind at 1. rewrite validate_valid, Hv. cbn beta iota delta [ret].
    unfold bind at 1, write_thread. rewrite write_clean by done. cbn beta iota.
    exact (index_update d1 rows (index_add t') Hf Hr).
  - left. split; [done|]. unfold bind at 1. unfold bind at 1. rewrite validate_valid, Hv. unfold valid_id, validate_thread_id in *.
    destruct (trim_is_empty (th_id t)); [by eexists|]. destruct (_ || _); [by eexists|done].
Qed.

Lemma messages_insert d d' id t :
  dk_files d' = <[id := Some t]> (dk_files d) →
  messages_of d' id = th_messages t ∧ ∀ id', id' ≠ id → messages_of d' id' = messages_of d id'.
Proof.
  intros Hd. unfold messages_of. rewrite Hd. split; [by rewrite lookup_insert_eq|]. intros id' Hne. by rewrite lookup_insert_ne.
Qed.

Lemma save_clean m0 t : th_messages t = m0 (th_id t) → holds (clean m0) (save_thread t) (λ _, True).
Proof.
  intros Ht d [Hp Hm]. destruct (projects_save F t d Hp) as [Hp' _].
  destruct (save_cases t d Hp) as [[_ [e He]]|(_ & t' & d' & [_ _ Hmt] & He & Hfiles)].
  - rewrite He. done.
  - rewrite He in Hp' |- *. split; [|done]. split; [done|]. intros id. cbn [fst].
    destruct (messages_insert _ _ _ _ Hfiles) as [H1 H2]. destruct (bool_decide_reflect (id = th_id t)) as [->|Hne].
    + by rewrite H1, Hmt.
    + by rewrite (H2 id Hne).
Qed.

Lemma index_clean m0 : holds (clean m0) load_or_create (λ _, True).
Proof.
  intros d [Hp Hm]. destruct (projects_index F d Hp) as [Hp' _]. split; [|done]. split; [done|].
  destruct (index_keeps_files d) as [Hk _]. intros id. unfold messages_of. rewrite Hk. apply Hm.
Qed.

Lemma raw_clean m0 id : holds (clean m0) (load_thread_raw id) (λ t, th_id t = id ∧ th_messages t = m0 (th_id t)).
Proof.
  unfold load_thread_raw. eapply holds_bind; [apply holds_path|]. intros p ->. eapply holds_bind.
  - apply (holds_get _ _ (λ file, ∀ t, file = Some (Some t) → th_id t = id ∧ th_messages t = m0 (th_id t))).
    intros d [[_ Hwf _] Hm] t Ht. assert (th_id t = id) as Hid by by apply Hwf. split; [done|]. rewrite Hid, <- Hm.
    unfold messages_of. by rewrite Ht.
  - intros [[t|]|] Ht; [|apply holds_fail..]. by apply holds_ret, Ht.
Qed.

Lemma heal_keeps_messages m0 t :
  th_messages t = m0 (th_id t) → th_messages (normalize_heuristic_title t).1 = m0 (th_id (normalize_heuristic_title t).1).
Proof. destruct (same_normalized t) as [-> _ ->]. done. Qed.

Lemma load_clean m0 id : holds (clean m0) (load_thread id) (λ t, th_id t = id ∧ th_messages t = m0 (th_id t)).
Proof.
  apply holds_load; [intros t; apply save_clean|intros; apply raw_clean|intros t; apply heal_keeps_messages].
Qed.

(** The thread of the id, if its file is there. *)
Lemma existing_clean m0 id :
  holds (clean m0) (let! path := thread_path id in let! found := path_exists path in
                    if found then let! t := load_thread id in ret (Some t) else ret None)
    (λ e, match e with Some t => th_id t = id ∧ th_messages t = m0 id | None => m0 id = [] end).
Proof.
  eapply holds_bind; [apply holds_path|]. intros p ->. eapply (holds_bind _ _ _ (λ found : bool, found = false → m0 id = [])).
  - apply holds_get. intros d [_ Hm] Hf%bool_decide_eq_false. rewrite <- Hm. unfold messages_of.
    by rewrite (proj2 (eq_None_not_Some _) Hf).
  - intros [] Hf; [|by apply holds_ret, Hf]. eapply holds_bind; [apply load_clean|].
    intros t [Hid Hm]. apply holds_ret. by rewrite Hid in Hm.
Qed.

(** A heartbeat is one message behind those of its thread, or nothing. *)
Lemma deliver_heartbeat_effect m0 r text state now d :
  clean m0 d →
  let '(d', answer) := deliver_heartbeat print_json r text state now d in
  projects F d' ∧
  match answer with
  | inl _ => ∀ id, messages_of d' id = m0 id
  | inr _ => messages_of d' (mo_thread_store_id r) = m0 (mo_thread_store_id r) ++ [heartbeat_message r text state now] ∧
             ∀ id, id ≠ mo_thread_store_id r → messages_of d' id = m0 id
  end.
Proof.
  intros Hd. set (id := mo_thread_store_id r).
  set (E := let! path := thread_path id in let! found := path_exists path in
            if found then let! t := load_thread id in ret (Some t) else ret None).
  assert (deliver_heartbeat print_json r text state now d =
    (let! existing := E in let! _ := deliver print_json (heartbeat_delivery existing r text state now) in ret tt) d) as ->.
  { unfold deliver_heartbeat, E, bind. fold id. destruct (thread_path id d) as [d0 [e|p]]; [done|]. by destruct (path_exists p d0) as [d1 [e|f]]. }
  destruct (existing_clean m0 id d Hd) as [Hd1 He]. fold E in Hd1, He. unfold bind at 1.
  destruct (E d) as [d1 [e|existing]]; cbn [fst snd] in *; [by destruct Hd1|]. specialize (He existing eq_refl).
  set (input := heartbeat_delivery existing r text state now).
  assert (dl_backend_id input = id) as Hid by (unfold input; by destruct existing).
  assert (dl_messages input = m0 id ++ [heartbeat_message r text state now]) as Hms.
  { unfold input. destruct existing as [t|]; simpl; [by destruct He as [_ ->]|by rewrite He]. }
  clearbody input. clear existing He Hd. unfold deliver. unfold bind at 1. unfold bind at 1.
  destruct (existing_clean m0 id d1 Hd1) as [Hd2 He]. unfold deliver_load. rewrite Hid. fold E in Hd2, He |- *.
  destruct (E d1) as [d2 [e|existing]]; cbn [fst snd] in *; [by destruct Hd2|]. specialize (He existing eq_refl).
  unfold deliver_store. destruct (rewrites_max input existing); [by destruct Hd2|].
  destruct (delivered_fields print_json input existing) as (_ & Hmsg & Hti).
  assert (th_id (delivered print_json input existing) = id) as Htid.
  { rewrite Hti, Hid; [done|]. intros t ->. rewrite Hid. by destruct He. }
  revert Hmsg Htid. clear Hti. generalize (delivered print_json input existing) as t. intros t Hmsg Htid.
  destruct Hd2 as [Hp2 Hm2]. pose proof (projects_save F t d2 Hp2) as [Hp3 _]. unfold bind at 1.
  destruct (save_cases t d2 Hp2) as [[_ [e Hs]]|(_ & t' & d' & [_ _ Hmt] & Hs & Hfiles)]; rewrite Hs in Hp3 |- *; [done|].
  cbn [ret]. split; [done|]. destruct (messages_insert _ _ _ _ Hfiles) as [H1 H2]. rewrite Htid in H1, H2.
  split; [by rewrite H1, Hmt, Hmsg|]. intros id' Hne. by rewrite H2.
Qed.
End delivery.

(* ------------------------------------------------------------------ *)
(** ** What a monitor has told its thread *)

(** The states of the heartbeats of one monitor, oldest first. *)
Definition heartbeat_of (monitor_id : string) (m : ThreadMessage) : option string :=
  metadata ← tm_metadata m;
  if bool_decide (get_field metadata "monitor_id" = Some (VString monitor_id))
  then get_field metadata "state" ≫= as_str else None.

Definition told (d : Disk) (r : RunMonitorRecord) : list string :=
  omap (heartbeat_of (mo_monitor_id r)) (messages_of d (mo_thread_store_id r)).

(** No state twice in a row, recovery only from a stall or a block, and nothing
    behind a terminal state. *)
Fixpoint news (last : option RunMonitorState) (l : list RunMonitorState) : Prop :=
  match l with
  | [] => True
  | s :: rest =>
      last ≠ Some s ∧ s ≠ Started ∧ (s = Running → last = Some Stale ∨ last = Some Blocked) ∧
      (∀ p, last = Some p → is_terminal p = false) ∧ news (Some s) rest
  end.

Definition last_state (l : list RunMonitorState) : option RunMonitorState := last l.

Lemma news_snoc last l s :
  news last (l ++ [s]) ↔
  news last l ∧ (let p := match l with [] => last | _ => last_state l end in
    p ≠ Some s ∧ s ≠ Started ∧ (s = Running → p = Some Stale ∨ p = Some Blocked) ∧ (∀ q, p = Some q → is_terminal q = false)).
Proof.
  revert last. induction l as [|x l IH]; intros last; simpl; [tauto|]. rewrite IH.
  destruct l as [|y l]; simpl; [tauto|]. tauto.
Qed.

(** A monitor whose ledger is what its thread was told. *)
Definition ledger_true (d : Disk) (r : RunMonitorRecord) : Prop :=
  ∃ l, told d r = map state_name l ∧ news None l ∧ mo_last_notified_state r = last l ∧
    (∀ s, last l = Some s → is_terminal s = true → mo_done r = true).

(** The heartbeats of an identity in a thread. *)
Definition heard (d : Disk) (monitor_id thread : string) : list string := omap (heartbeat_of monitor_id) (messages_of d thread).

Lemma ledger_record d r r1 :
  mo_monitor_id r1 = mo_monitor_id r → mo_thread_store_id r1 = mo_thread_store_id r →
  mo_last_notified_state r1 = mo_last_notified_state r → (mo_done r = true → mo_done r1 = true) →
  ledger_true d r → ledger_true d r1.
Proof.
  intros Hi Ht Hl Hd (l & H1 & H2 & H3 & H4). exists l. unfold told. rewrite Hi, Ht, Hl. split; [done|]. split; [done|].
  split; [done|]. intros s Hs Hterm. by eapply Hd, H4.
Qed.

Lemma ledger_elsewhere d d1 r :
  heard d1 (mo_monitor_id r) (mo_thread_store_id r) = heard d (mo_monitor_id r) (mo_thread_store_id r) →
  ledger_true d r → ledger_true d1 r.
Proof. intros H (l & H1 & H2). exists l. unfold told in *. unfold heard in H. by rewrite H. Qed.

Lemma ledger_speaks d d1 r r1 s kind :
  ledger_true d r → decide_heartbeat r s = Some kind →
  heard d1 (mo_monitor_id r) (mo_thread_store_id r) = heard d (mo_monitor_id r) (mo_thread_store_id r) ++ [state_name s] →
  mo_monitor_id r1 = mo_monitor_id r → mo_thread_store_id r1 = mo_thread_store_id r →
  mo_last_notified_state r1 = Some s → (is_terminal s = true → mo_done r1 = true) →
  ledger_true d1 r1.
Proof.
  intros (l & H1 & H2 & H3 & H4) Hk Hh Hi Ht Hl Hd. exists (l ++ [s]). unfold told, heard in *. rewrite Hi, Ht, Hh, H1, map_app.
  split; [done|]. rewrite last_snoc. split_and!; [|done|by intros ? [= <-]].
  unfold decide_heartbeat in Hk. destruct (mo_done r) eqn:Hdone; [done|]. destruct (mo_cancelled r); [done|]. simpl in Hk.
  rewrite H3 in Hk. destruct (bool_decide_reflect (last l = Some s)) as [|Hne]; [done|]. apply news_snoc. split; [done|].
  assert (match l with [] => None | _ => last_state l end = last l) as -> by by destruct l.
  split_and!; [done|by destruct s| |].
  - intros ->. destruct (last l) as [[]|]; naive_solver.
  - intros q Hq. destruct (is_terminal q) eqn:Hterm; [|done]. specialize (H4 q Hq Hterm). congruence.
Qed.

(* ------------------------------------------------------------------ *)
(** ** One monitor at its tick *)

Section steps.
  Context {tables : CharTables} {letters : Letters} {clusters : Graphemes}.
  Context (print_json : Value → string) (from_utf8_lossy : string → string) (F : gset string).

(** Nothing but heartbeats of the identity came to the threads. *)
Record spoke (monitor_id : string) (w w1 : MonitorWorld) : Prop := {
  sp_disk : projects F (mw_disk w1);
  sp_monitors : mw_monitors w1 = mw_monitors w;
  sp_others : ∀ id thread, id ≠ monitor_id → heard (mw_disk w1) id thread = heard (mw_disk w) id thread
}.

Lemma heartbeat_states id r text state now :
  heartbeat_of id (heartbeat_message r text state now) =
    if bool_decide (mo_monitor_id r = id) then Some (state_name state) else None.
Proof.
  unfold heartbeat_of, heartbeat_message. simpl. destruct (bool_decide_reflect (mo_monitor_id r = id)) as [->|Hne].
  - by rewrite bool_decide_eq_true_2.
  - rewrite bool_decide_eq_false_2; [done|]. intros [= H]. by apply Hne.
Qed.

Lemma speak r text state now w :
  projects F (mw_disk w) →
  let '(w1, answer) := on_threads (deliver_heartbeat print_json r text state now) w in
  spoke (mo_monitor_id r) w w1 ∧
  heard (mw_disk w1) (mo_monitor_id r) (mo_thread_store_id r) =
    heard (mw_disk w) (mo_monitor_id r) (mo_thread_store_id r) ++ match answer with inl _ => [] | inr _ => [state_name state] end.
Proof.
  intros Hp. unfold on_threads.
  pose proof (deliver_heartbeat_effect print_json F (messages_of (mw_disk w)) r text state now (mw_disk w) (conj Hp (λ _, eq_refl))) as He.
  destruct (deliver_heartbeat _ _ _ _ _ _) as [d [e|[]]]; destruct He as [Hd Hm]; simpl.
  - split; [split; [done..|]|].
    + intros id thread _. unfold heard. simpl. by rewrite Hm.
    + unfold heard. rewrite app_nil_r. by rewrite Hm.
  - destruct Hm as [Hm Ho]. split; [split; [done..|]|].
    + intros id thread Hne. unfold heard. simpl. destruct (bool_decide_reflect (thread = mo_thread_store_id r)) as [->|Ht].
      * rewrite Hm, omap_app. simpl. rewrite heartbeat_states, bool_decide_eq_false_2 by done. by rewrite app_nil_r.
      * by rewrite Ho.
    + unfold heard. rewrite Hm, omap_app. simpl. by rewrite heartbeat_states, bool_decide_eq_true_2 by done.
Qed.

(** The same monitor, later. *)
Record later_record (r r1 : RunMonitorRecord) : Prop := {
  lr_id : mo_monitor_id r1 = mo_monitor_id r;
  lr_run : mo_run_id r1 = mo_run_id r;
  lr_thread : mo_thread_store_id r1 = mo_thread_store_id r;
  lr_active : is_active r1 = true → is_active r = true
}.

(** What the observation of one run leaves: its heartbeat, and the record to
    checkpoint. *)
Definition observed (r : RunMonitorRecord) (w : MonitorWorld) (out : MonitorWorld * (MonitorError + RunMonitorRecord * TickSummary))
    : Prop :=
  let '(w1, answer) := out in
  spoke (mo_monitor_id r) w w1 ∧
  match answer with
  | inl _ => heard (mw_disk w1) (mo_monitor_id r) (mo_thread_store_id r) = heard (mw_disk w) (mo_monitor_id r) (mo_thread_store_id r)
  | inr (r1, _) => later_record r r1 ∧ (ledger_true (mw_disk w) r → ledger_true (mw_disk w1) r1)
  end.

Lemma quiet r r1 w summary :
  projects F (mw_disk w) → later_record r r1 →
  mo_last_notified_state r1 = mo_last_notified_state r → mo_done r1 = mo_done r →
  observed r w (w, inr (r1, summary)).
Proof.
  intros Hp Hr Hl Hd. split; [done|]. split; [done|]. destruct Hr. apply ledger_record; [done..|]. by rewrite Hd.
Qed.

Lemma observed_speaks r r' r1 kind text state now summary w :
  projects F (mw_disk w) → decide_heartbeat r state = Some kind →
  mo_monitor_id r' = mo_monitor_id r → mo_thread_store_id r' = mo_thread_store_id r →
  later_record r r1 → mo_last_notified_state r1 = Some state → (is_terminal state = true → mo_done r1 = true) →
  observed r w ((let! _ := on_threads (deliver_heartbeat print_json r' text state now) in ret (r1, summary)) w).
Proof.
  intros Hp Hk Hi' Ht' Hr Hl Hd. pose proof (speak r' text state now w Hp) as Hs. rewrite Hi', Ht' in Hs. unfold bind.
  destruct (on_threads _ w) as [w1 [e|[]]]; destruct Hs as [Hs Hh].
  - rewrite app_nil_r in Hh. by split.
  - split; [done|]. split; [done|]. intros Hl0. destruct Hr. by eapply ledger_speaks.
Qed.

Lemma tick_observed_ok files r ob now summary w :
  projects F (mw_disk w) → observed r w (tick_observed print_json from_utf8_lossy files r ob now summary w).
Proof.
  intros Hp. unfold tick_observed. set (r' := _ <| mo_transcript_len := _ |>).
  destruct (decide_heartbeat r' (ob_state ob)) as [kind|] eqn:Hk; [|apply quiet; try done; by split].
  set (text := heartbeat_text _ _ _ _). generalize text. clear text. intros text.
  set (said := r' <| mo_last_notified_state := Some (ob_state ob) |>).
  set (last := if is_terminal (ob_state ob) then said <| mo_done := true |> else said).
  set (r1 := last <| mo_next_poll_at := now + as_i64 (mo_poll_interval_secs last) * NANOS |>).
  set (total := summary <| ti_heartbeats ::= Z.add 1 |>).
  pose proof (observed_speaks r r' r1 kind text (ob_state ob) now
    (if is_terminal (ob_state ob) then total <| ti_finished ::= Z.add 1 |> else total) w Hp Hk) as Ho.
  unfold r1, last, bind in *. destruct (on_threads _ w) as [w1 [e|[]]]; destruct (is_terminal (ob_state ob)) eqn:Ht; apply Ho; try done; by split.
Qed.

Lemma tick_unreadable_ok r now summary w :
  projects F (mw_disk w) → observed r w (tick_unreadable print_json r now summary w).
Proof.
  intros Hp. unfold tick_unreadable. set (r0 := r <| mo_consecutive_read_failures ::= _ |>).
  destruct (_ <=? _); [|apply quiet; try done; by split]. set (r' := r0 <| mo_state := Blocked |>).
  destruct (decide_heartbeat r' Blocked) as [kind|] eqn:Hk; [|apply quiet; try done; by split].
  generalize (blocked_text r'). intros text. set (said := r' <| mo_last_notified_state := Some Blocked |>).
  set (r1 := said <| mo_next_poll_at := now + as_i64 (next_poll_delay_secs (mo_poll_interval_secs said) (mo_consecutive_read_failures said)) * NANOS |>).
  pose proof (observed_speaks r r' r1 kind text Blocked now (summary <| ti_heartbeats ::= Z.add 1 |>) w Hp Hk) as Ho.
  unfold r1, bind in *. destruct (on_threads _ w) as [w1 [e|[]]]; apply Ho; try done; by split.
Qed.

(* ------------------------------------------------------------------ *)
(** ** The monitors and their threads *)

Definition monitors (w : MonitorWorld) : option (list RunMonitorRecord) :=
  match mw_monitors w with MonitorsMissing => Some [] | MonitorsUnreadable => None | MonitorsRead l => Some l end.

(** One active monitor at most for a run and a thread. *)
Definition distinct_pairs (l : list RunMonitorRecord) : Prop :=
  ∀ r r1, r ∈ l → r1 ∈ l → is_active r = true → is_active r1 = true →
    mo_run_id r = mo_run_id r1 → mo_thread_store_id r = mo_thread_store_id r1 → r = r1.

(** [names] are identities not drawn yet. *)
Record monitors_ok (names : list string) (l : list RunMonitorRecord) (w : MonitorWorld) : Prop := {
  mk_disk : projects F (mw_disk w);
  mk_read : monitors w = Some l;
  mk_ids : NoDup (map mo_monitor_id l);
  mk_pairs : distinct_pairs l;
  mk_true : ∀ r, r ∈ l → ledger_true (mw_disk w) r;
  mk_fresh : ∀ id, id ∈ names → id ∉ map mo_monitor_id l ∧ ∀ thread, heard (mw_disk w) id thread = []
}.

(** A step that concerns one monitor: the others keep their records and what
    they said. *)
Definition others_kept (id : string) (w w1 : MonitorWorld) (l l1 : list RunMonitorRecord) : Prop :=
  ∀ r, r ∈ l → mo_monitor_id r ≠ id → r ∈ l1 ∧ told (mw_disk w1) r = told (mw_disk w) r.

Lemma load_read w l : monitors w = Some l → load w = (w, inr l).
Proof. unfold monitors, load. destruct (mw_monitors w); congruence. Qed.

Lemma save_clean_monitors l w :
  projects F (mw_disk w) → ∃ w1, save l w = (w1, inr tt) ∧ mw_disk w1 = mw_disk w ∧ monitors w1 = Some l.
Proof.
  intros [Hf _ _]. unfold save. rewrite Hf. eexists. split; [done|]. split; [|done].
  destruct w as [m d]. unfold set in *. simpl in *. destruct d. simpl in *. by subst.
Qed.

Lemma in_ids r l : r ∈ l → mo_monitor_id r ∈ map mo_monitor_id l.
Proof. intros H. by apply (list_elem_of_fmap_2 mo_monitor_id). Qed.

Lemma same_record l r x : NoDup (map mo_monitor_id l) → r ∈ l → x ∈ l → mo_monitor_id x = mo_monitor_id r → x = r.
Proof.
  induction l as [|y l IH]; [by intros _ ?%elem_of_nil|]. simpl. intros [Hy Hn]%NoDup_cons Hr Hx He.
  apply elem_of_cons in Hr as [->|Hr], Hx as [->|Hx]; [done| | |by apply IH]; exfalso; apply Hy.
  - rewrite <- He. by apply in_ids.
  - rewrite He. by apply in_ids.
Qed.

Lemma pairs_kept l l2 :
  NoDup (map mo_monitor_id l2) → distinct_pairs l → (∀ x, x ∈ l2 → ∃ r, r ∈ l ∧ later_record r x) → distinct_pairs l2.
Proof.
  intros Hn Hp Hl x y Hx Hy Hax Hay Hr Ht. destruct (Hl x Hx) as (r & Hrl & [Hi1 Hr1 Ht1 Ha1]).
  destruct (Hl y Hy) as (r' & Hrl' & [Hi2 Hr2 Ht2 Ha2]). assert (r = r') as ->.
  { apply Hp; [done|done|by apply Ha1|by apply Ha2|congruence|congruence]. }
  apply (same_record l2); [done..|congruence].
Qed.

Lemma changed id f l l1 :
  NoDup (map mo_monitor_id l) → (∀ r, mo_monitor_id r = id → mo_monitor_id (f r) = id) → change_monitor id f l = Some l1 →
  map mo_monitor_id l1 = map mo_monitor_id l ∧
  (∀ r, r ∈ l → mo_monitor_id r ≠ id → r ∈ l1) ∧
  (∀ r, r ∈ l1 → (r ∈ l ∧ mo_monitor_id r ≠ id) ∨ ∃ r0, r0 ∈ l ∧ mo_monitor_id r0 = id ∧ r = f r0).
Proof.
  intros Hn Hf. revert l1. induction l as [|x l IH]; intros l1; [done|]. simpl in *. apply NoDup_cons in Hn as [Hx Hn].
  destruct (String.eqb_spec (mo_monitor_id x) id) as [Hid|Hid].
  - intros [= <-]. simpl. rewrite (Hf x Hid), Hid. split; [done|]. split.
    + intros r [->|Hr]%elem_of_cons Hne; [done|]. by apply elem_of_cons; right.
    + intros r [->|Hr]%elem_of_cons; [right; exists x; split; [left|done]|]. left. split; [by right|]. intros <-.
      apply Hx. rewrite Hid. by apply in_ids.
  - destruct (change_monitor id f l) as [l0|]; [|done]. intros [= <-]. destruct (IH Hn l0 eq_refl) as (H1 & H2 & H3). simpl. rewrite H1.
    split; [done|]. split.
    + intros r [->|Hr]%elem_of_cons Hne; [left|right; by apply H2].
    + intros r [->|Hr]%elem_of_cons; [left; split; [left|done]|].
      destruct (H3 r Hr) as [[]|(r0 & ? & ? & ?)]; [left; split; [by right|done]|right; exists r0; split; [by right|done]].
Qed.

Lemma change_found id f l : id ∈ map mo_monitor_id l → is_Some (change_monitor id f l).
Proof.
  induction l as [|x l IH]; [by intros ?%elem_of_nil|]. simpl. destruct (String.eqb_spec (mo_monitor_id x) id) as [|Hne]; [by eexists|].
  intros [->|H]%elem_of_cons; [done|]. destruct (IH H) as [l1 ->]. by eexists.
Qed.

(** The checkpoint of an observed monitor. *)
Lemma update_ok names l r r1 w w1 :
  monitors_ok names l w → r ∈ l → spoke (mo_monitor_id r) w w1 → later_record r r1 → ledger_true (mw_disk w1) r1 →
  ∃ l2 w2, update r1 w1 = (w2, inr tt) ∧ monitors_ok names l2 w2 ∧ map mo_monitor_id l2 = map mo_monitor_id l ∧
           others_kept (mo_monitor_id r) w w2 l l2.
Proof.
  intros [Hp Hl Hn Hpairs Ht Hf] Hr [Hp1 Hm1 Ho] Hlater Ht1. pose proof (lr_id _ _ Hlater) as Hid. unfold update, bind.
  rewrite (load_read w1 l) by (unfold monitors; by rewrite Hm1).
  assert (mo_monitor_id r1 ∈ map mo_monitor_id l) as Hin by (rewrite Hid; by apply in_ids).
  destruct (change_found _ (λ _, r1) l Hin) as [l2 Hc]. rewrite Hc.
  destruct (changed (mo_monitor_id r1) (λ _, r1) l l2 Hn (λ _ _, eq_refl) Hc) as (H1 & H2 & H3). rewrite Hid in H2, H3.
  destruct (save_clean_monitors l2 w1 Hp1) as (w2 & -> & Hd2 & Hl2). exists l2, w2. split; [done|]. split; [|split; [done|]].
  - split; [by rewrite Hd2|done|by rewrite H1| | |].
    + apply (pairs_kept l); [by rewrite H1|done|]. intros x Hx. destruct (H3 x Hx) as [[Hxl _]|(r0 & Hr0 & He & ->)]; [by exists x|].
      by exists r.
    + intros x Hx. rewrite Hd2. destruct (H3 x Hx) as [[Hxl Hne]|(r0 & _ & _ & ->)]; [|done].
      eapply ledger_elsewhere; [by apply Ho|by apply Ht].
    + intros id Hname. destruct (Hf id Hname) as [Hni Hno]. rewrite H1. split; [done|]. intros thread. rewrite Hd2, Ho; [apply Hno|].
      intros ->. apply Hni. by apply in_ids.
  - intros x Hx Hne. split; [by apply H2|]. rewrite Hd2. by apply Ho.
Qed.

(** A failed delivery. *)
Lemma spoke_nothing names l r w w1 :
  monitors_ok names l w → r ∈ l → spoke (mo_monitor_id r) w w1 →
  heard (mw_disk w1) (mo_monitor_id r) (mo_thread_store_id r) = heard (mw_disk w) (mo_monitor_id r) (mo_thread_store_id r) →
  monitors_ok names l w1 ∧ others_kept (mo_monitor_id r) w w1 l l.
Proof.
  intros [Hp Hl Hn Hpairs Ht Hf] Hr [Hp1 Hm1 Ho] Hh. split.
  - split; [done|unfold monitors; by rewrite Hm1|done|done| |].
    + intros x Hx. apply (ledger_elsewhere (mw_disk w)); [|by apply Ht].
      destruct (bool_decide_reflect (mo_monitor_id x = mo_monitor_id r)) as [He|Hne]; [|by apply Ho].
      by rewrite (same_record l r x).
    + intros id Hname. destruct (Hf id Hname) as [Hni Hno]. split; [done|]. intros thread. rewrite Ho; [apply Hno|].
      intros ->. apply Hni. by apply in_ids.
  - intros x Hx Hne. split; [done|]. by apply Ho.
Qed.

Lemma tick_record_ok names l files r now summary w :
  monitors_ok names l w → r ∈ l →
  ∃ l2, let w2 := (tick_record print_json from_utf8_lossy files r now summary w).1 in
        monitors_ok names l2 w2 ∧ map mo_monitor_id l2 = map mo_monitor_id l ∧ others_kept (mo_monitor_id r) w w2 l l2.
Proof.
  intros Hw Hr. unfold tick_record. destruct (_ <? _); [by exists l|].
  set (total := summary <| ti_polled ::= _ |>).
  set (seen := match observe_record files r now with
    | Some ob => tick_observed print_json from_utf8_lossy files r ob now total
    | None => tick_unreadable print_json r now total end).
  assert (observed r w (seen w)) as Ho.
  { unfold seen. destruct (observe_record _ _ _); [apply tick_observed_ok|apply tick_unreadable_ok]; apply Hw. }
  clearbody seen. unfold bind. destruct (seen w) as [w1 [e|[r1 s]]].
  - destruct Ho as [Ho Hh]. exists l. destruct (spoke_nothing names l r w w1 Hw Hr Ho Hh). split; [done|]. by split.
  - destruct Ho as (Ho & Hlater & Ht). specialize (Ht (mk_true _ _ _ Hw r Hr)).
    destruct (update_ok names l r (r1 <| mo_updated_at := now |>) w w1 Hw Hr Ho) as (l2 & w2 & Hu & Hok).
    + by destruct Hlater.
    + revert Ht. by apply ledger_record.
    + exists l2. by rewrite Hu.
Qed.

Lemma tick_records_ok look k records now summary names l w :
  monitors_ok names l w → (∀ r, r ∈ records → r ∈ l) → NoDup (map mo_monitor_id records) →
  ∃ l2, let w2 := (tick_records print_json from_utf8_lossy look k records now summary w).1 in
        monitors_ok names l2 w2 ∧ map mo_monitor_id l2 = map mo_monitor_id l ∧
        ∀ x, x ∈ l → mo_monitor_id x ∉ map mo_monitor_id records → x ∈ l2 ∧ told (mw_disk w2) x = told (mw_disk w) x.
Proof.
  revert k summary l w. induction records as [|r records IH]; intros k summary l w Hw Hin Hn; [by exists l|]. simpl in *.
  apply NoDup_cons in Hn as [Hr Hn]. assert (r ∈ l) as Hrl by (apply Hin; left).
  destruct (tick_record_ok names l (look k) r now summary w Hw Hrl) as (l1 & Hw1 & Hid1 & Ho1). unfold bind.
  destruct (tick_record _ _ _ _ _ _ w) as [w1 [e|total]]; simpl in *.
  - exists l1. split; [done|]. split; [done|]. intros x Hx Hne. apply Ho1; [done|]. intros Hi. apply Hne. rewrite Hi. left.
  - destruct (IH (S k) total l1 w1 Hw1) as (l2 & Hw2 & Hid2 & Ho2); [|done|].
    + intros x Hx. apply Ho1; [apply Hin; by right|]. intros Hi. apply Hr. rewrite <- Hi. by apply in_ids.
    + exists l2. split; [done|]. split; [by rewrite Hid2|]. intros x Hx Hne.
      destruct (Ho1 x Hx) as [Hx1 Hto1]; [intros Hi; apply Hne; rewrite Hi; left|].
      destruct (Ho2 x Hx1) as [Hx2 Hto2]; [intros Hi; apply Hne; by right|]. by rewrite Hto2.
Qed.

(* ------------------------------------------------------------------ *)
(** ** Runs of the service *)

Inductive MonitorStep :=
  | MsRegister (files : RunFiles) (control_plane_root run_id thread_store_id uuid : string) (now : Z)
  | MsCancel (monitor_id : string) (now : Z)
  | MsTick (look : nat → RunFiles) (now : Z).

Definition monitor_step (w : MonitorWorld) (s : MonitorStep) : MonitorWorld :=
  match s with
  | MsRegister files root run thread uuid now => (register_run_monitor_in files root run thread uuid now w).1
  | MsCancel monitor_id now => (cancel monitor_id now w).1
  | MsTick look now => (tick_all print_json from_utf8_lossy look now w).1
  end.

Definition monitor_run (steps : list MonitorStep) (w : MonitorWorld) : MonitorWorld := fold_left monitor_step steps w.

(** The identities the registrations draw. *)
Definition drawn (steps : list MonitorStep) : list string :=
  omap (λ s, match s with MsRegister _ _ _ _ uuid _ => Some ("mon-" +:+ uuid)%string | _ => None end) steps.

(** A finished or cancelled monitor stays one and says nothing. *)
Definition silent (w w1 : MonitorWorld) (l l1 : list RunMonitorRecord) : Prop :=
  ∀ r, r ∈ l → is_active r = false →
    ∃ r1, r1 ∈ l1 ∧ mo_monitor_id r1 = mo_monitor_id r ∧ is_active r1 = false ∧ told (mw_disk w1) r1 = told (mw_disk w) r.

Lemma silent_trans w w1 w2 l l1 l2 : silent w w1 l l1 → silent w1 w2 l1 l2 → silent w w2 l l2.
Proof.
  intros H1 H2 r Hr Ha. destruct (H1 r Hr Ha) as (r1 & Hr1 & Hi1 & Ha1 & Ht1). destruct (H2 r1 Hr1 Ha1) as (r2 & ? & ? & ? & ?).
  exists r2. split; [done|]. split; [congruence|]. split; [done|congruence].
Qed.

Lemma silent_refl w l : silent w w l l.
Proof. intros r Hr Ha. by exists r. Qed.

Lemma tick_all_ok names l look now w :
  monitors_ok names l w →
  ∃ l2, let w2 := (tick_all print_json from_utf8_lossy look now w).1 in monitors_ok names l2 w2 ∧ silent w w2 l l2.
Proof.
  intros Hw. unfold tick_all, active, bind. rewrite (load_read w l) by apply Hw. simpl.
  pose proof (mk_ids _ _ _ Hw) as Hn.
  assert (∀ r, r ∈ List.filter is_active l → r ∈ l ∧ is_active r = true) as Hin
    by (intros r Hr; by apply list_elem_of_In, filter_In in Hr as [?%list_elem_of_In ?]).
  destruct (tick_records_ok look 0 (List.filter is_active l) now tick_default names l w Hw) as (l2 & Hw2 & _ & Ho).
  - intros r Hr. by apply Hin.
  - clear -Hn. induction l as [|x l IH]; [done|]. simpl in *. apply NoDup_cons in Hn as [Hx Hn]. destruct (is_active x); [|by apply IH].
    simpl. apply NoDup_cons. split; [|by apply IH]. intros Hi. apply Hx. apply list_elem_of_In, in_map_iff in Hi as (y & <- & Hy).
    apply filter_In in Hy as [Hy _]. by apply in_ids, list_elem_of_In.
  - exists l2. split; [done|]. intros r Hr Ha. exists r. destruct (Ho r Hr) as [Hr2 Ht]; [|done].
    intros Hi. apply list_elem_of_In, in_map_iff in Hi as (y & He & Hy%list_elem_of_In). destruct (Hin y Hy) as [Hyl Hya].
    rewrite (same_record l r y) in Hya; congruence.
Qed.

Lemma cancel_ok names l id now w :
  monitors_ok names l w →
  ∃ l2, let w2 := (cancel id now w).1 in monitors_ok names l2 w2 ∧ silent w w2 l l2.
Proof.
  intros Hw. pose proof Hw as [Hp Hl Hn Hpairs Ht Hf]. unfold cancel, bind. rewrite (load_read w l) by done.
  set (stop := λ r, r <| mo_cancelled := true |> <| mo_done := true |> <| mo_updated_at := now |>).
  destruct (change_monitor id stop l) as [l2|] eqn:Hc; [|exists l; split; [done|apply silent_refl]].
  assert (∀ r, later_record r (stop r)) as Hstop by done.
  destruct (changed id stop l l2 Hn (λ r H, H) Hc) as (H1 & H2 & H3).
  destruct (save_clean_monitors l2 w Hp) as (w2 & -> & Hd2 & Hl2). exists l2. simpl. split.
  - split; [by rewrite Hd2|done|by rewrite H1| | |by intros name Hname; rewrite H1, Hd2; apply Hf].
    + apply (pairs_kept l); [by rewrite H1|done|]. intros x Hx. destruct (H3 x Hx) as [[]|(r & Hr & _ & ->)]; [by exists x|by exists r].
    + intros x Hx. rewrite Hd2. destruct (H3 x Hx) as [[Hxl _]|(r & Hr & _ & ->)]; [by apply Ht|].
      apply (ledger_record _ r); try done. by apply Ht.
  - intros r Hr Ha. unfold told. rewrite Hd2. destruct (bool_decide_reflect (mo_monitor_id r = id)) as [He|Hne].
    + destruct (list_elem_of_lookup_1 (map mo_monitor_id l2) (mo_monitor_id r)) as [i Hi]; [rewrite H1; by apply in_ids|].
      apply list_lookup_fmap_Some in Hi as (x & Hx & Hi). apply list_elem_of_lookup_2 in Hi. exists x.
      destruct (H3 x Hi) as [[_ Hne]|(r0 & Hr0 & He0 & ->)]; [congruence|].
      assert (r0 = r) as -> by (apply (same_record l); [done..|congruence]). done.
    + exists r. by split; [apply H2|].
Qed.

Lemma fewer_names names names' l w : (∀ id, id ∈ names' → id ∈ names) → monitors_ok names l w → monitors_ok names' l w.
Proof. intros H [Hp Hl Hn Hpairs Ht Hf]. split; [done..|]. intros id Hid. by apply Hf, H. Qed.

Lemma register_ok names l registration uuid now w :
  monitors_ok (("mon-" +:+ uuid)%string :: names) l w → ("mon-" +:+ uuid)%string ∉ names →
  ∃ l2, let w2 := (register registration uuid now w).1 in monitors_ok names l2 w2 ∧ silent w w2 l l2.
Proof.
  intros Hw Hnew. pose proof Hw as [Hp Hl Hn Hpairs Ht Hf]. destruct (Hf ("mon-" +:+ uuid)%string) as [Hni Hno]; [left|].
  assert (monitors_ok names l w) as Hw' by (eapply fewer_names; [|done]; by right).
  unfold register, bind. rewrite (load_read w l) by done. destruct (List.find _ l) as [r|] eqn:Hfind.
  { exists l. split; [done|apply silent_refl]. }
  set (r0 := new_monitor registration uuid now). destruct (save_clean_monitors (l ++ [r0]) w Hp) as (w2 & -> & Hd2 & Hl2).
  exists (l ++ [r0]). simpl. split.
  - split; [by rewrite Hd2|done| | | |].
    + rewrite map_app. apply NoDup_app. split; [done|]. split; [|apply NoDup_singleton].
      intros x Hx [->|?%elem_of_nil]%elem_of_cons; [|done]. by apply Hni.
    + assert (∀ x, x ∈ l → is_active x = true → mo_run_id x = mo_run_id r0 → mo_thread_store_id x = mo_thread_store_id r0 → False) as Hno'.
      { intros x Hx Ha Hr Hth. pose proof (find_none _ _ Hfind x (proj1 (list_elem_of_In _ _) Hx)) as Hs.
        unfold same_pair in Hs. rewrite Ha, Hr, Hth in Hs. unfold r0, new_monitor in Hs. simpl in Hs. by rewrite !String.eqb_refl in Hs. }
      intros x y [Hx|Hx%list_elem_of_singleton]%elem_of_app [Hy|Hy%list_elem_of_singleton]%elem_of_app Hax Hay Hr Hth; subst.
      * by apply Hpairs.
      * exfalso. by apply (Hno' x).
      * exfalso. by apply (Hno' y).
      * done.
    + intros x [Hx|Hx%list_elem_of_singleton]%elem_of_app; rewrite Hd2; [by apply Ht|]. subst. exists [].
      split; [apply Hno|]. by split_and!.
    + intros id Hid. rewrite Hd2. destruct (mk_fresh _ _ _ Hw' id Hid) as [Hi ?]. split; [|done].
      rewrite map_app. intros [?|[->|?%elem_of_nil]%elem_of_cons]%elem_of_app; done.
  - intros r Hr Ha. exists r. unfold told. rewrite Hd2. split; [|done]. apply elem_of_app. by left.
Qed.

Lemma monitor_step_ok s names l w :
  monitors_ok (drawn [s] ++ names) l w → NoDup (drawn [s] ++ names) →
  ∃ l2, monitors_ok names l2 (monitor_step w s) ∧ silent w (monitor_step w s) l l2.
Proof.
  destruct s as [files root run thread uuid now|id now|look now]; simpl; intros Hw Hn; [|by apply cancel_ok|by apply tick_all_ok].
  apply NoDup_cons in Hn as [Hnew _]. unfold register_run_monitor_in, bind.
  assert (∃ l2, monitors_ok names l2 w ∧ silent w w l l2) as Hsame.
  { exists l. split; [|apply silent_refl]. eapply fewer_names; [|done]. by right. }
  unfold validate_registration. destruct (negb (is_valid_run_id run)); [done|]. destruct (_ || _); [done|].
  cbn beta iota zeta delta [ret]. destruct (negb (rf_exists _ _)); [done|]. by apply (register_ok names).
Qed.

Lemma monitor_run_ok steps names l w :
  monitors_ok (drawn steps ++ names) l w → NoDup (drawn steps ++ names) →
  ∃ l2, monitors_ok names l2 (monitor_run steps w) ∧ silent w (monitor_run steps w) l l2.
Proof.
  revert l w. induction steps as [|s steps IH]; intros l w Hw Hn; [exists l; split; [done|apply silent_refl]|].
  assert (drawn (s :: steps) ++ names = drawn [s] ++ drawn steps ++ names) as He.
  { unfold drawn. rewrite app_assoc, <- omap_app. done. }
  rewrite He in Hw, Hn. destruct (monitor_step_ok s _ l w Hw Hn) as (l1 & Hw1 & Hs1).
  apply NoDup_app in Hn as (_ & _ & Hn). destruct (IH l1 _ Hw1 Hn) as (l2 & Hw2 & Hs2).
  exists l2. split; [done|]. by eapply silent_trans.
Qed.

End steps.

(* ------------------------------------------------------------------ *)
(** ** A concrete service *)

#[local] Instance ex_tables : CharTables := ascii_tables.
#[local] Instance ex_letters : Letters := {|
  is_alphabetic c := ((65 <=? c) && (c <=? 90)) || ((97 <=? c) && (c <=? 122));
  is_lowercase c := (97 <=? c) && (c <=? 122)
|}.
#[local] Instance ex_graphemes : Graphemes := λ s, map snd (utf8_chars s).

Definition ex_print (v : Value) : string := "?".

(** One run, whose meta file has this length, status and age in seconds. *)
Definition ex_files (len : Z) (status : string) (age now : Z) (report : bool) : RunFiles := {|
  rf_exists p := true;
  rf_canonicalize p := Some p;
  rf_len p := Some len;
  rf_modified p := Some (now - age * NANOS);
  rf_read_meta p := Some (mkMeta (Some status) None None (Some "/report.md"%string) None);
  rf_is_file p := report;
  rf_content p := None
|}.

(** Nothing there. *)
Definition no_files : RunFiles :=
  mkFiles (λ _, false) (λ _, None) (λ _, None) (λ _, None) (λ _, None) (λ _, false) (λ _, None).

Definition ex_world : MonitorWorld := mkWorld MonitorsMissing (mkDisk ∅ IndexMissing []).

Definition ex_tick (files : RunFiles) (secs : Z) : MonitorStep := MsTick (λ _, files) (secs * NANOS).

Definition ex_register (run thread uuid : string) : MonitorStep :=
  MsRegister (ex_files 10 "running" 0 0 false) "/vc" run thread uuid 0.

(** Progress, a stall, recovery, the end; looks behind the end see nothing. *)
Definition ex_life : list MonitorStep :=
  [ex_register "run1" "t_a" "1"; ex_register "run1" "t_a" "2";
   ex_tick (ex_files 10 "running" 0 (0 * NANOS) false) 0;
   ex_tick (ex_files 10 "running" 400 (20 * NANOS) false) 20;
   ex_tick (ex_files 10 "running" 420 (40 * NANOS) false) 40;
   ex_tick (ex_files 20 "running" 0 (60 * NANOS) false) 60;
   ex_tick (ex_files 20 "completed" 0 (80 * NANOS) true) 80].


(** Two monitors; the thread of the first cannot be read.  Each pass ends at the
    first, and the second is never observed. *)
Example unreadable_thread_starves_others :
  let start := mkWorld MonitorsMissing (mkDisk (<["t_a" := None]> ∅) IndexMissing []) in
  let registered := monitor_run ex_print id [ex_register "run1" "t_a" "1"; ex_register "run2" "t_b" "2"] start in
  let failed := λ _ : nat, ex_files 10 "failed" 0 0 false in
  (tick_all ex_print id failed 0 registered).2 = inl (ThreadError UnreadableThreadFile) ∧
  heard (mw_disk (monitor_run ex_print id [MsTick failed 0; MsTick failed NANOS; MsTick failed (2 * NANOS)] registered)) "mon-2" "t_b" = [].
Proof. vm_compute. split; reflexivity. Qed.

(** A cancellation between the look at the store and the checkpoint is undone,
    and the monitor speaks again. *)
Example cancel_during_tick_undone :
  let registered := monitor_run ex_print id [ex_register "run1" "t_a" "1"; ex_tick (ex_files 10 "running" 0 0 false) 0] ex_world in
  match (active registered).2 with
  | inr records =>
      let cancelled := (cancel "mon-1" 0 registered).1 in
      let ended := (tick_records ex_print id (λ _, ex_files 10 "running" 400 (20 * NANOS) false) 0 records (20 * NANOS) tick_default cancelled).1 in
      map is_active (default [] (monitors cancelled)) = [false] ∧ map is_active (default [] (monitors ended)) = [true] ∧
      heard (mw_disk ended) "mon-1" "t_a" = ["stale"%string]
  | inl _ => False
  end.
Proof. vm_compute. split_and!; reflexivity. Qed.

(** The next turn of an open session replaces the messages of its thread, the
    heartbeats among them. *)
Example heartbeat_erased_by_turn :
  let told_once := monitor_run ex_print id [ex_register "run1" "t_a" "1"; ex_tick (ex_files 10 "failed" 0 0 false) 0] ex_world in
  let turn := mkDelivery "t_a" [mkThreadMessage "user" [VObject [("text", VString "hello"); ("type", VString "text")]] 1 None] "p" "m" "chat" [] 1 in
  heard (mw_disk told_once) "mon-1" "t_a" = ["failed"]%string ∧
  heard (deliver ex_print turn (mw_disk told_once)).1 "mon-1" "t_a" = [].
Proof. vm_compute. split; reflexivity. Qed.

(** A transcript that the meta file announces behind the registration is never
    looked at: the seeded path stands before it, and a run that writes looks
    stalled. *)
Example late_transcript_ignored :
  let files := λ now transcript,
    (ex_files 10 "running" (now + 1) (now * NANOS) false)
    <| rf_read_meta := λ _, Some (mkMeta (Some "running") None None None (Some "/t.log"))%string |>
    <| rf_canonicalize := λ p, if String.eqb p "/vc/runtime_runs/run1/transcript.log" then None else Some p |>
    <| rf_len := λ p, if String.eqb p "/t.log" then Some transcript else Some 10 |> in
  let w := monitor_run ex_print id
    [ex_register "run1" "t_a" "1"; ex_tick (files 0 100) 0; ex_tick (files 400 200) 400] ex_world in
  heard (mw_disk w) "mon-1" "t_a" = ["stale"%string].
Proof. vm_compute. reflexivity. Qed.
